(* ===== verification/_CoqProject ===== *)
-Q . S2P
Prelude.v
Runs.v
GoStrings.v
GoStrconv.v
GoPath.v
Wildcard.v
Kube.v
Target.v
Strategy.v
StrategyProps.v
Authn.v
AccessStore.v
AccessStoreProps.v
AccessResolver.v
Options.v
Authz.v
AuthzProps.v
SessionPolicy.v
StatusController.v
StatusProps.v
AuditLog.v
Operation.v
GoNet.v
Connector.v
SSHProxy.v
SSHProxyProps.v
PodSession.v
PodSessionProps.v
PodForward.v
PodForwardProps.v
Handshake.v
HandshakeProps.v
Scp.v
MemFS.v
ScpProps.v
ScpRoundtrip.v
SpdyRpc.v
SpdyRpcProps.v
HelperClient.v
HelperClientProps.v
HelperService.v
HelperServiceProps.v
IoProxy.v
IoProxyProps.v
CriNode.v
CriTransport.v
CriProps.v
HelperCache.v
HelperCacheProps.v
Executor.v
ExecutorProps.v
Assembly.v
AssemblyProps.v
GatewayServer.v
GatewayServerProps.v
AgentClient.v
AgentClientProps.v
Metrics.v
MetricsProps.v
NodeServer.v
NodeServerProps.v
SessionLife.v
SessionLifeProps.v
Commands.v
CommandsProps.v
StatusQueue.v
GoHeap.v
AuditClone.v
PodPath.v
AccessHeap.v
AccessHeapStore.v
AccessHeapProps.v
HelperStream.v
ForwardStream.v
ApiPath.v
InformerFactory.v
