(* ===== verification/Prelude.v ===== *)
(** * kube-ssh: a verified model of the SSH gateway

    kube-ssh is an SSH gateway for Kubernetes.  A client connects with an ordinary SSH client; the
    gateway authenticates it, turns the SSH user name into a target (a Pod container, or an
    External SSH server named by an Access object), authorizes every operation (shell, exec, SFTP,
    SCP, port, agent and extension forwarding), runs it through the Pod backend or the SSH proxy,
    and records what happened.  This library models that path and proves what makes it safe.

    ** Parts of the program and where they are modelled

    - The language and its library.  [GoStrings], [GoStrconv] and [GoNet] define the functions of
      [strings], [strconv] and [net] that the code uses, on byte strings.  This file has results,
      errors ([error], with the sentinels compared by [errors.Is]), pair notations, automation and
      shared lemmas.  [Kube] has the Kubernetes objects and the Access resource
      ([apis/ssh/v1/access_types.go]).
    - Wildcards.  [Wildcard]: [pkg/wildcard/pattern.go].
    - Targets.  [Target]: [pkg/target/target.go] and [pkg/podtarget] (user names, binding of a
      target to a live Pod, container selection).
    - Selection of a backend.  [Strategy], [StrategyProps]: [pkg/accesspolicy/strategy.go], the
      shared selector (weighted round robin, least connections, hash, random, session affinity).
      The selector's state is the record [strategySelector]; release closures are indices into a heap
      of closures with the state of their [sync.Once].
    - Authentication.  [Authn]: [pkg/authn] (static, anonymous, webhook, chain).  [AccessStore],
      [AccessStoreProps]: the Access stores, credential matching, locators and authentication
      methods of [pkg/accesspolicy].
    - From user name to backend.  [AccessResolver]: [Resolver.Resolve] of
      [pkg/accesspolicy/resolver.go] and [pkg/sshproxy/target.go], over the selector's state.
    - Configuration.  [Options]: [pkg/gateway/options.go].
    - Authorization.  [Authz], [AuthzProps]: [pkg/authz], [pkg/accesspolicy/authorizer.go] and the
      assembly of the authorizer in [pkg/gateway/dependencies.go].
    - Session policy.  [SessionPolicy]: [pkg/gateway/session_policy.go] and the connection wrapper
      with its timer, [session_policy_conn.go].
    - Status controller.  [StatusController], [StatusProps]:
      [pkg/accesspolicy/status_controller.go].
    - Audit.  [AuditLog]: [pkg/audit], the event schema and the asynchronous recorder.
    - One operation.  [Operation]: [pkg/gateway/operation.go], [protocol.go] and
      [audit_fields.go]: classification, authorization, start and end events and metrics.
    - The handshake.  [Handshake], [HandshakeProps]: [pkg/gateway/authentication.go],
      [connection_context.go], [connection_audit.go] and the parts of [gateway.go] that accept a
      connection.
    - External targets.  [Connector]: [pkg/sshproxy/connector.go].  [SSHProxy], [SSHProxyProps]:
      [pkg/sshproxy/proxy.go] and [protocol.go].
    - Pod targets.  [PodSession], [PodSessionProps]: what the requests of a session and direct-tcpip
      channels of [pkg/podssh] do.  [PodForward], [PodForwardProps]: its remote forwards and agent
      forwarding.  [SessionLife], [SessionLifeProps]: the life of a session channel with its
      goroutines, and the dispatch of channels and global requests.
    - Copying of bytes.  [IoProxy], [IoProxyProps]: [pkg/ioproxy].
    - The Pod backend.  [Executor], [ExecutorProps]: [pkg/podssh/backend], the operations over a
      transport, and the transport through the API server ([backend/apiserver]).
      [CriTransport] and [CriNode], [CriProps]: the CRI transport of the gateway and the handlers of
      the node that serves it ([backend/cri]).  [NodeServer], [NodeServerProps]: start-up, serving
      and shutdown of the node.  [HelperCache], [HelperCacheProps]: how a helper binary is copied
      into a container, verified and remembered, on both transports.
    - The helper in the container ([backend/helper]).  [Scp], [MemFS], [ScpProps], [ScpRoundtrip]:
      the SCP source and sink, on an operating system given as a class and on a file system in
      memory.  [HelperService], [HelperServiceProps]: its side of remote and agent forwarding.
      [HelperClient], [HelperClientProps] and [AgentClient], [AgentClientProps]: the gateway's side
      of both, closing the client, the stdio connection and dialling.  [SpdyRpc], [SpdyRpcProps]:
      [pkg/spdyrpc], the RPC connection between the two sides.
    - The running gateway.  [Assembly], [AssemblyProps]: [pkg/gateway/dependencies.go],
      [access_policy_runtime.go], the Pod listers and the webhook client: how the options become
      authenticators, resolvers, authorizers and backends.  [GatewayServer], [GatewayServerProps]:
      [server.go], [connection_audit.go] and [RunWithDependencies]: the accept loop, connections and
      graceful shutdown.  [Metrics], [MetricsProps]: [pkg/metrics], and the observations that the
      components make.  [StatusQueue]: the work loop of the status controller.  [InformerFactory]: the
      shared informer factory ([pkg/generated/informers]) and its use by the Access policy runtime.
      [Commands], [CommandsProps]: the three programs under [cmd].
    - Streams of the backend.  [HelperStream]: the goroutine, the pipes and the terminal result
      of [dialThroughHelper] and [startHelperSession] ([pkg/podssh/backend]).  [ForwardStream]: the
      port-forward streams of both transports, with the reader of their error stream.
    - Shared objects.  [GoHeap] has Go structs with references on a heap, and what a deep copy has to do,
      as the class [GoTypeLaws].  [AuditClone]: how the audit recorder takes an event over.  [AccessHeap]:
      the Access resource with the deep copies of [apis/ssh/v1/zz_generated.deepcopy.go].
      [AccessHeapStore], [AccessHeapProps]: the in-memory store, the policy cache and the update of the
      status controller on that heap.
    - Everything together.  [PodPath] fills the interfaces in with each other: operation layer, Pod
      protocol, executor, CRI transport and node; [ApiPath] does so for the transport through the API
      server.
    - [GoPath] is Go's [path]; [Runs] has the lemmas on runs of step relations that the concurrent
      components share.

    The handshake produces a user, a target and a policy; the operation layer is the callback
    ([begin]) that the Pod session handlers and the proxy call before every operation; it calls
    the authorizer, which consults the policy limits, the Access credential and the Kubernetes or
    webhook authorizer; the resolver calls the store and the selector.  What is allowed goes to the
    executor, which sends commands, port forwards and helper commands through one of the two
    transports; forwards and file transfers are served by the helper at the other end.

    ** How code is represented

    Pure Go functions are functions; a function that returns [(T, error)] returns [result T];
    stateful code passes its state.  Go strings are byte strings, integers are [Z] with the width
    written out where it can matter; maps are [gmap].  Effects on the outside (audit events,
    metrics, replies, backend calls) are logs in the order the code emits them.  Concurrent code is
    a step relation whose steps are the locked regions of the code: [AuditLog] (senders, worker,
    closer), [SSHProxy] (any number of goroutines, each a program over calls), [PodForward] (request
    loop, serving goroutines, close), [SessionPolicy] (timer, callbacks, activity), [Handshake], [SpdyRpc], [HelperService], [HelperClient],
    [AgentClient], [IoProxy], [GatewayServer], [NodeServer], [SessionLife], [StatusQueue],
    [HelperStream], [ForwardStream] and [InformerFactory].  Where a component has to end, its steps
    are split: its own, which happen once they are possible, and those of its environment.  That it
    ends is then two facts: a measure that every own step decreases, and that a state without own
    steps is the final one.

    Code outside the repository is a parameter.  The classes [UnicodeCase], [SSHKeys],
    [SSHClient], [SSHWire], [PodWire], [StatusConditions], [OS], [RPCCodec], [PromRegistry] and
    [WorkQueue], some with a second class of laws, state what the documentation of those packages
    promises, and each has an instance in which the theorems' witnesses run; [RuntimeClient] and
    [PodTransport] are the interfaces of the source; [shlex.Split], webhooks, the Kubernetes
    subject access review, the resolvers, clocks, random numbers and identifiers are arguments of
    the definitions that use them.  The contract of the SSH server handshake of
    [golang.org/x/crypto/ssh] is the relation [handshake_step] of [Handshake].

    Recursion is structural nearly everywhere.  Where Go loops on a shrinking or growing index,
    the fuel is the length of the input, which bounds the number of iterations; formatting a number
    uses one unit per bit ([format_fuel_enough]).  The worker loop of the audit recorder takes its
    fuel as an argument, and [audit_conserved] shows that one unit per queued event and one more
    end it.  The SCP sink takes one unit per byte of input and one more, the source the depth of
    the tree it sends.
    [run_schedule] of [SSHProxy] executes a schedule given as a list, so it needs none.

    ** What the theorems show

    - End to end: what the container runtime of a node is asked to do for an SSH client belongs to an
      operation that the authorizer allowed within the limits, runs in the container that the target is
      bound to, and is no more than the operation's capability stands for ([PodPath]); the same holds of
      what the API server is asked for on the other transport ([ApiPath]).
    - Authorization: no authorizer can allow what the global limits refuse; what exactly an Access
      credential permits; Access callers are decided by the Access authorizer alone
      ([AuthzProps]).
    - Authentication: a password is accepted exactly when it is not empty and one credential of
      the located Access holds it; an identity published at authentication resolves to the same Access later; the
      handshake publishes an identity only when it ends, with an identity that an authenticator
      accepted and a target, policy and protocol resolved for it ([AccessStoreProps],
      [HandshakeProps], [Authn]).
    - Resolution: a resolved target respects the global and Access limits, and the selector's
      connection counts equal the numbers of live connections; a failed resolution leaves them as they
      were ([AccessResolver], [StrategyProps]).
    - Selection: the weighted round robin is fair over a period, least connections is minimal,
      affinity holds for its lifetime, and selection succeeds whenever some Pod is active.
    - Operations: classification by capability, exactly one start and one end event per authorized
      operation, and in the Pod handlers and the proxy, in all interleavings, nothing runs before
      its operation has been allowed and no operation is finished twice; no listener of a remote
      forward is lost or left open ([Operation], [PodSessionProps], [SSHProxyProps],
      [PodForwardProps]).
    - Session policy: the effective policy stays within the global limits; the single timer, however
      late, closes a connection that is past a bound, and the policy closes none before ([SessionPolicy]).
    - Status: a valid Access can authenticate its credentials, a ready one has a target, and the
      controller reaches a fixed point after one write ([StatusProps]).
    - Audit: accepted events reach the sink in order, and all of them before it is closed
      ([AuditLog]); what the sink gets does not depend on what callers later do to the event they
      recorded ([AuditClone]).
    - Shared objects: the in-memory store and the policy cache on a heap refine those on values, whatever
      callers do to the objects they handed over or got, so the other theorems may be about values; no
      object of an informer's cache is ever changed ([AccessHeapProps]).
    - Streams of the backend: both directions carry the bytes in order, the end of a stream means that its result
      is there, and nothing stays blocked after the helper has returned or the stream was closed
      ([HelperStream]); every wait for a port forward returns what its error stream carried
      ([ForwardStream]).
    - Informers: each is shared and runs once, and the Access policy starts only on a synchronized cache
      of the configured namespace ([InformerFactory]).
    - Assembly: in the gateway that the options build, a caller who authenticated through an Access
      is confined to the targets of that Access, whatever else is configured ([AssemblyProps]).
    - Ends: the gateway, the node, a Pod session, the I/O proxy, the RPC connection and the helper
      release what they hold exactly once and return after a bounded number of steps of their own
      ([GatewayServerProps], [NodeServerProps], [SessionLifeProps], [IoProxyProps],
      [SpdyRpcProps], [HelperServiceProps], [AgentClientProps]).
    - CRI: a request of the gateway runs in the container that the target is bound to, checked by
      its UID ([CriProps]); both transports ask for the same ([ExecutorProps]); a helper is run
      only after its manifest was verified ([HelperCacheProps]).
    - SCP: an upload writes nothing outside its destination, and what one side sends the other
      installs ([ScpProps], [ScpRoundtrip]).
    - Status queue: no change of an Access is lost and retries are bounded ([StatusQueue]).
    - Metrics: every observation fits the family it is recorded in, and active connections are
      zero when the gateway has ended ([MetricsProps]).
    - Commands: flags win over the environment and the environment over defaults, every option is
      bound to its flag, and the log of the configuration shows no secret ([CommandsProps]).
    - Text: wildcard matching equals its reference meaning; user names, locators and host/port
      pairs round trip.
    - Thirteen theorems record behaviour that differs from what the code or its documentation
      intends: [cancelled_forward_closes_successor], [cancelled_session_not_closed],
      [late_session_operation_lost], [server_extension_passes], [suffix_bypasses_session_policy],
      [huge_idle_timeout_closes], [duplicate_username_authenticates], [empty_defaults_diverge],
      [no_credentials_panics], [operation_end_after_stop], [scp_times_rejected], [agent_socket_leaks]
      and [version_variable_stops_gateway].

    ** What is not modelled

    The generated clients, listers and scheme registration, and the end-to-end tests: they
    have no logic of the program's own.  Libraries that the sources only call: the SSH protocol, SPDY
    framing, the HTTP and TLS servers with the reloading of certificates, the SFTP server, tar
    archives, client-go's executors, informers and work queue, the Prometheus registry, cobra's and
    pflag's parsing of the command line, and JSON.  Scheduling and memory are Go's: a step relation
    takes the regions between synchronizations as atomic, and clocks do not appear except as
    arguments.  Of object metadata the fields are kept that the program reads.  What remains is the code
    of those libraries and the run of a session together with the copying of its bytes, whose two halves
    are [SessionLife] and [IoProxy]. *)

From Stdlib Require Export ZArith Lia.
From Stdlib Require Ascii.
From stdpp Require Export sorting.
From stdpp Require Export base gmap strings option list.

Export Stdlib.Strings.Ascii (ascii(..)).
Export (notations) Stdlib.Strings.Ascii.

Declare Scope go_scope.
Delimit Scope go_scope with go.
Open Scope go_scope.

(** ** Results and errors *)

(** The package-level error values that the code compares with [errors.Is]. *)
Inductive Sentinel :=
| authn_ErrNotProvided
| target_ErrNotProvided
| ErrAccessNotFound
| context_Canceled
| context_DeadlineExceeded
| io_EOF
| io_ErrClosedPipe
| net_ErrClosed
| ErrConnectionClosed
| ErrConnectionStarted.

#[export] Instance Sentinel_eq_dec : EqDecision Sentinel.
Proof. solve_decision. Defined.

(** The reasons of the [apierrors] constructors the code uses. *)
Inductive StatusReason :=
| BadRequest | Forbidden | ServiceUnavailable | Conflict | NotFound.

#[export] Instance StatusReason_eq_dec : EqDecision StatusReason.
Proof. solve_decision. Defined.

(** A Go error: a sentinel, a formatted error ([fmt.Errorf]; [%w] keeps the wrapped error), a
    Kubernetes status error, an error of a collaborator outside the repository, or a run-time
    panic (which no caller of the modelled code recovers, so it propagates like an error that is
    never matched).  Messages are kept as the format and its arguments; rendering them is not
    modelled. *)
Inductive error :=
| ESentinel (s : Sentinel)
| Errorf (format : string) (args : list string)
| Wrapf (format : string) (args : list string) (wrapped : error)
| EStatus (reason : StatusReason) (format : string) (args : list string)
| EExternal (what : string)
| EPanic (what : string).

#[export] Instance error_eq_dec : EqDecision error.
Proof. solve_decision. Defined.

(** [errors.Is(err, sentinel)]: follow the [%w] chain. *)
Fixpoint errors_Is (e : error) (s : Sentinel) : bool :=
  match e with
  | ESentinel s' => bool_decide (s' = s)
  | Wrapf _ _ e' => errors_Is e' s
  | _ => false
  end.

(** [apierrors.IsNotFound]: follow the [%w] chain to a status error. *)
Fixpoint apierrors_IsNotFound (e : error) : bool :=
  match e with
  | EStatus r _ _ => bool_decide (r = NotFound)
  | Wrapf _ _ e' => apierrors_IsNotFound e'
  | _ => false
  end.

(** A Go pair [(value, error)] of which exactly one side is meaningful. *)
Inductive result (A : Type) :=
| Ok (a : A)
| Err (e : error).
Arguments Ok {A} a.
Arguments Err {A} e.

#[export] Instance result_ret : MRet result := fun A a => Ok a.
#[export] Instance result_bind : MBind result := fun A B f r =>
  match r with Ok a => f a | Err e => Err e end.
#[export] Instance result_fmap : FMap result := fun A B f r =>
  match r with Ok a => Ok (f a) | Err e => Err e end.

Definition is_ok {A} (r : result A) : bool :=
  match r with Ok _ => true | Err _ => false end.

Lemma result_bind_Ok {A B} (r : result A) (f : A → result B) b :
  (r ≫= f) = Ok b ↔ ∃ a, r = Ok a ∧ f a = Ok b.
Proof. destruct r; simpl; naive_solver. Qed.

Lemma result_bind_Err {A B} (r : result A) (f : A → result B) e :
  (r ≫= f) = Err e ↔ r = Err e ∨ ∃ a, r = Ok a ∧ f a = Err e.
Proof. destruct r; simpl; naive_solver. Qed.

(** A fallible fold over a list, for the loops that return on the first error. *)
Fixpoint foldM {A B} (f : B → A → result B) (acc : B) (l : list A) : result B :=
  match l with
  | [] => Ok acc
  | x :: l => acc ← f acc x; foldM f acc l
  end.

(** ** Machine integers *)

Definition int64_min : Z := - 2 ^ 63.
Definition int64_max : Z := 2 ^ 63 - 1.
Definition uint16_max : Z := 65535.
Definition uint32_max : Z := 4294967295.

(** Two's complement wrap-around of [int64] (Go's [int] on the 64-bit targets). *)
Definition wrap64 (z : Z) : Z := (z + 2 ^ 63) `mod` 2 ^ 64 - 2 ^ 63.
(** Conversion to [uint16] and [uint32]. *)
Definition to_uint16 (z : Z) : Z := z `mod` 2 ^ 16.
Definition to_uint32 (z : Z) : Z := z `mod` 2 ^ 32.

Definition in_int64 (z : Z) : Prop := (int64_min ≤ z ≤ int64_max)%Z.

Lemma wrap64_id z : in_int64 z → wrap64 z = z.
Proof.
  unfold in_int64, int64_min, int64_max, wrap64. intros H.
  rewrite Z.mod_small; lia.
Qed.

Lemma wrap64_range z : in_int64 (wrap64 z).
Proof.
  unfold in_int64, int64_min, int64_max, wrap64.
  pose proof (Z.mod_pos_bound (z + 2 ^ 63) (2 ^ 64) ltac:(lia)). lia.
Qed.

(** ** Lists *)

(** [slices.Contains]. *)
Definition slices_Contains {A} `{EqDecision A} (l : list A) (x : A) : bool :=
  bool_decide (x ∈ l).

Lemma slices_Contains_spec {A} `{EqDecision A} (l : list A) (x : A) :
  slices_Contains l x = true ↔ x ∈ l.
Proof. apply bool_decide_eq_true. Qed.

(** First element of a slice satisfying a test, with its index. *)
Fixpoint find_index {A} (p : A → bool) (l : list A) : option (nat * A) :=
  match l with
  | [] => None
  | x :: l' => if p x then Some (0, x) else prod_map S id <$> find_index p l'
  end.

Definition find_first {A} (p : A → bool) (l : list A) : option A := snd <$> find_index p l.

Lemma find_index_Some {A} (p : A → bool) l i x :
  find_index p l = Some (i, x) →
  l !! i = Some x ∧ p x = true ∧ ∀ j y, j < i → l !! j = Some y → p y = false.
Proof.
  revert i. induction l as [|y l IH]; intros i; simpl; [done|].
  destruct (p y) eqn:Hy.
  - intros [= <- <-]. split_and!; [done..|]. intros; lia.
  - destruct (find_index p l) as [[k z]|] eqn:Hf; simpl; [|done].
    intros [= <- <-]. destruct (IH k eq_refl) as (Hl & Hp & Hall).
    split_and!; [done..|]. intros [|j] w Hj Hw; simplify_eq/=; [done|].
    apply (Hall j); [lia|done].
Qed.

Lemma find_index_None {A} (p : A → bool) l :
  find_index p l = None ↔ Forall (fun x => p x = false) l.
Proof.
  induction l as [|y l IH]; simpl; [by split|].
  destruct (p y) eqn:Hy.
  - split; [done|]. intros Hf. inversion Hf; congruence.
  - rewrite Forall_cons, <-IH. destruct (find_index p l) as [[]|]; simpl; naive_solver.
Qed.

Lemma find_first_Some {A} (p : A → bool) l x :
  find_first p l = Some x → x ∈ l ∧ p x = true.
Proof.
  unfold find_first. destruct (find_index p l) as [[i y]|] eqn:Hf; simpl; [|done].
  intros [= <-]. apply find_index_Some in Hf as (Hl & Hp & _).
  split; [|done]. by eapply list_elem_of_lookup_2.
Qed.

Lemma find_first_None {A} (p : A → bool) l :
  find_first p l = None ↔ Forall (fun x => p x = false) l.
Proof.
  unfold find_first. rewrite <-find_index_None.
  destruct (find_index p l) as [[]|]; simpl; naive_solver.
Qed.

Lemma find_first_is_Some {A} (p : A → bool) l x :
  x ∈ l → p x = true → is_Some (find_first p l).
Proof.
  intros Hin Hp. destruct (find_first p l) eqn:Hf; [done|].
  apply find_first_None in Hf. rewrite Forall_forall in Hf.
  specialize (Hf x Hin). congruence.
Qed.

Lemma filter_all {A} (P : A → Prop) `{!∀ x, Decision (P x)} (l : list A) :
  (∀ x, x ∈ l → P x) → filter P l = l.
Proof.
  induction l as [|x l IH]; intros Hall; [done|].
  rewrite filter_cons_True by (apply Hall; left). f_equal. apply IH. intros. apply Hall. by right.
Qed.
Lemma filter_none {A} (P : A → Prop) `{!∀ x, Decision (P x)} (l : list A) :
  (∀ x, x ∈ l → ¬ P x) → filter P l = [].
Proof.
  induction l as [|x l IH]; intros Hall; [done|].
  rewrite filter_cons_False by (apply Hall; left). apply IH. intros. apply Hall. by right.
Qed.
(** Counting after a change of variable. *)
Lemma length_filter_fmap {A B} (f : A → B) (P : B → Prop) (Q : A → Prop)
    `{!∀ x, Decision (P x), !∀ x, Decision (Q x)} (l : list A) :
  (∀ x, x ∈ l → P (f x) ↔ Q x) → length (filter P (f <$> l)) = length (filter Q l).
Proof.
  induction l as [|x l IH]; intros HPQ; [done|]. cbn [fmap list_fmap].
  rewrite !filter_cons. specialize (IH ltac:(intros; apply HPQ; by right)).
  pose proof (HPQ x ltac:(left)). repeat case_decide; simpl; first [lia|tauto].
Qed.

(** ** Automation *)

Create HintDb kubessh.
#[export] Hint Resolve find_first_Some slices_Contains_spec : kubessh.

(** Split on the scrutinee of a [match] or [if] in the goal or in a hypothesis. *)
Ltac case_goal :=
  match goal with
  | |- context [match ?x with _ => _ end] => destruct x eqn:?
  end.
Ltac case_hyp H :=
  match type of H with
  | context [match ?x with _ => _ end] => destruct x eqn:?
  end.
(** Turn boolean tests into propositions. *)
Ltac breflect :=
  repeat match goal with
  | H : bool_decide _ = true |- _ => apply bool_decide_eq_true in H
  | H : bool_decide _ = false |- _ => apply bool_decide_eq_false in H
  | H : negb _ = true |- _ => apply negb_true_iff in H
  | H : negb _ = false |- _ => apply negb_false_iff in H
  | H : andb _ _ = true |- _ => apply andb_true_iff in H as [? ?]
  | H : orb _ _ = false |- _ => apply orb_false_iff in H as [? ?]
  | H : slices_Contains _ _ = true |- _ => apply slices_Contains_spec in H
  end.
