(* ===== verification/Runs.v ===== *)
(** Runs of step relations and sums over lists, shared by the concurrent components: invariants along a
    run, bounds on the length of a run by a measure that decreases, and sums of a measure over a list
    of parts. *)

From S2P Require Import Prelude.

(** ** Runs *)

Section Runs.
Context {A : Type} (R : relation A) (I : A → Prop) (m : A → nat).
Context (preserved : ∀ x y, I x → R x y → I y).

Lemma rtc_invariant x y : I x → rtc R x y → I y.
Proof. intros Hx Hr. induction Hr as [x|x y z Hs Hr IH]; [done|]. apply IH. by eapply preserved. Qed.

Context (decreases : ∀ x y, I x → R x y → m y < m x).

Lemma nsteps_bounded n x y : I x → nsteps R n x y → n + m y ≤ m x.
Proof.
  intros Hx Hn. induction Hn as [x|n x y z Hs Hn IH]; [lia|].
  pose proof (decreases x y Hx Hs). specialize (IH (preserved x y Hx Hs)). lia.
Qed.

(** If every state that has not reached the goal has a step, the goal is reached. *)
Lemma run_reaches (P : A → Prop) x :
  (∀ x, I x → P x ∨ ∃ y, R x y) → I x → ∃ y, rtc R x y ∧ P y.
Proof.
  intros Hprog. remember (m x) as k eqn:Hk. revert x Hk.
  induction (lt_wf k) as [k _ IH]; intros x -> Hx.
  destruct (Hprog x Hx) as [HP|[y Hs]]; [by exists x; split; [apply rtc_refl|]|].
  destruct (IH _ (decreases x y Hx Hs) y eq_refl (preserved x y Hx Hs)) as (z & Hr & HP).
  exists z. split; [by eapply rtc_l|done].
Qed.
End Runs.

(** ** Sums *)

Lemma sum_list_with_insert {A} (f : A → nat) (l : list A) n x y :
  l !! n = Some x → sum_list_with f (<[n := y]> l) + f x = sum_list_with f l + f y.
Proof.
  revert n. induction l as [|z l IH]; intros [|n] Hn; simplify_eq/=; [lia|]. specialize (IH n Hn). lia.
Qed.

Lemma sum_list_with_lookup {A} (f : A → nat) (l : list A) n x :
  l !! n = Some x → f x ≤ sum_list_with f l.
Proof. revert n. induction l as [|z l IH]; intros [|n] Hn; simplify_eq/=; [lia|]. specialize (IH n Hn). lia. Qed.

Lemma sum_list_with_delete {A} (f : A → nat) (l : list A) n x :
  l !! n = Some x → sum_list_with f (delete n l) + f x = sum_list_with f l.
Proof.
  revert n. induction l as [|z l IH]; intros [|n] Hn; simplify_eq/=; [lia|].
  specialize (IH n Hn). change (f z + sum_list_with f (delete n l) + f x = f z + sum_list_with f l). lia.
Qed.

Lemma sum_list_with_alter {A} (f : A → nat) (g : A → A) (l : list A) n :
  (∀ x, f (g x) = f x) → sum_list_with f (alter g n l) = sum_list_with f l.
Proof.
  intros Hg. revert n. induction l as [|z l IH]; intros [|n]; try done.
  - simpl. by rewrite Hg.
  - change (f z + sum_list_with f (alter g n l) = f z + sum_list_with f l). by rewrite IH.
Qed.

Lemma sum_list_with_zero {A} (f : A → nat) (l : list A) x : sum_list_with f l = 0 → x ∈ l → f x = 0.
Proof. intros H0 [n Hn]%list_elem_of_lookup. pose proof (sum_list_with_lookup f l n x Hn). lia. Qed.

Lemma list_Exists_or_none {A} (P : A → Prop) `{!∀ x, Decision (P x)} (l : list A) :
  (∃ n x, l !! n = Some x ∧ P x) ∨ (∀ x, x ∈ l → ¬ P x).
Proof.
  destruct (decide (Exists P l)) as [He|He].
  - apply Exists_exists in He as (x & [n Hn]%list_elem_of_lookup & ?). eauto.
  - right. intros x Hx Hp. apply He, Exists_exists. eauto.
Qed.

Lemma sum_list_with_none {A} (f : A → nat) (l : list A) : (∀ x, x ∈ l → f x = 0) → sum_list_with f l = 0.
Proof.
  induction l as [|x l IH]; intros H0; simpl; [done|]. rewrite (H0 x) by by left. apply IH. intros. apply H0. by right.
Qed.

