(* ===== verification/GoStrings.v ===== *)
(** Go's [strings], [strconv] and [net] functions as the repository uses them, on Go strings
    (byte sequences, here [string]), with the lemmas the components share. *)

From S2P Require Import Prelude.

(** ** Bytes of a string *)

Definition slen (s : string) : nat := String.length s.

(** [s[n:]] for [n <= len(s)]. *)
Fixpoint sdrop (n : nat) (s : string) : string :=
  match n, s with
  | 0, _ => s
  | S n', String _ s' => sdrop n' s'
  | S _, EmptyString => ""
  end.

(** [s[:n]] for [n <= len(s)]. *)
Fixpoint stake (n : nat) (s : string) : string :=
  match n, s with
  | S n', String c s' => String c (stake n' s')
  | _, _ => ""
  end.

Fixpoint ContainsByte (s : string) (c : ascii) : bool :=
  match s with
  | EmptyString => false
  | String d s' => bool_decide (d = c) || ContainsByte s' c
  end.

(** ** [strings] *)

Fixpoint HasPrefix (s p : string) {struct p} : bool :=
  match p, s with
  | EmptyString, _ => true
  | String a p', String b s' => bool_decide (a = b) && HasPrefix s' p'
  | String _ _, EmptyString => false
  end.

Definition HasSuffix (s p : string) : bool :=
  bool_decide (slen p ≤ slen s) && bool_decide (sdrop (slen s - slen p) s = p).

Definition TrimPrefix (s p : string) : string :=
  if HasPrefix s p then sdrop (slen p) s else s.

Definition TrimSuffix (s p : string) : string :=
  if HasSuffix s p then stake (slen s - slen p) s else s.

(** [strings.Index]; [None] is the result -1. *)
Fixpoint Index (s sub : string) : option nat :=
  if HasPrefix s sub then Some 0
  else match s with
       | EmptyString => None
       | String _ s' => S <$> Index s' sub
       end.

(** [strings.Split(s, c)] for a one-byte separator: never empty. *)
Fixpoint Split (s : string) (c : ascii) : list string :=
  match s with
  | EmptyString => [""]
  | String d s' =>
      if bool_decide (d = c) then "" :: Split s' c
      else match Split s' c with
           | [] => [String d ""]
           | x :: xs => String d x :: xs
           end
  end.

(** [strings.Cut(s, c)] for a one-byte separator; [None] when it is absent. *)
Fixpoint Cut (s : string) (c : ascii) : option (string * string) :=
  match s with
  | EmptyString => None
  | String d s' =>
      if bool_decide (d = c) then Some ("", s')
      else prod_map (String d) id <$> Cut s' c
  end.

(** [strings.LastIndexByte]; [None] is the result -1. *)
Fixpoint LastIndexByte (s : string) (c : ascii) : option nat :=
  match s with
  | EmptyString => None
  | String d s' =>
      match LastIndexByte s' c with
      | Some i => Some (S i)
      | None => if bool_decide (d = c) then Some 0 else None
      end
  end.

(** [strings.SplitN(s, c, n)] for a one-byte separator and [n >= 1]. *)
Fixpoint SplitN (s : string) (c : ascii) (n : nat) : list string :=
  match n with
  | 0 | 1 => [s]
  | S n' => match Cut s c with
            | Some (a, b) => a :: SplitN b c n'
            | None => [s]
            end
  end.

(** ** Lemmas on append *)

Lemma sapp_nil_l s : "" +:+ s = s.
Proof. done. Qed.
Lemma sapp_cons c s t : String c s +:+ t = String c (s +:+ t).
Proof. done. Qed.
Lemma sapp_nil_r s : s +:+ "" = s.
Proof. induction s as [|c s IH]; [done|]. by rewrite sapp_cons, IH. Qed.
Lemma sapp_assoc s t u : s +:+ (t +:+ u) = (s +:+ t) +:+ u.
Proof. induction s as [|c s IH]; [done|]. by rewrite !sapp_cons, IH. Qed.
Lemma slen_app s t : slen (s +:+ t) = slen s + slen t.
Proof. induction s as [|c s IH]; [done|]. rewrite sapp_cons; simpl; lia. Qed.

(** Two ways to split the same string: the shorter head is a prefix of the longer one. *)
Lemma sapp_split a b c d :
  a +:+ b = c +:+ d → slen a ≤ slen c → ∃ w, c = a +:+ w ∧ b = w +:+ d.
Proof.
  revert c. induction a as [|x a IH]; intros c Heq Hlen; simpl in *.
  - by exists c.
  - destruct c as [|y c]; simpl in *; [lia|].
    rewrite !sapp_cons in Heq. injection Heq as -> Heq.
    destruct (IH c Heq ltac:(lia)) as (w & -> & ->). by exists w.
Qed.

Lemma sapp_inj_l a b c : a +:+ b = a +:+ c → b = c.
Proof. apply String.app_inj. Qed.
Lemma sapp_inj_r a b c : a +:+ c = b +:+ c → a = b.
Proof.
  intros Heq. assert (slen a = slen b) as Hlen.
  { apply (f_equal slen) in Heq. rewrite !slen_app in Heq. lia. }
  destruct (sapp_split _ _ _ _ Heq ltac:(lia)) as (w & -> & Hc).
  rewrite slen_app in Hlen. destruct w; [by rewrite sapp_nil_r|simpl in *; lia].
Qed.

Lemma sdrop_app s t : sdrop (slen s) (s +:+ t) = t.
Proof. by induction s. Qed.
Lemma stake_app s t : stake (slen s) (s +:+ t) = s.
Proof. induction s as [|c s IH]; simpl; [by destruct t|]. by f_equal. Qed.
Lemma stake_sdrop n s : stake n s +:+ sdrop n s = s.
Proof.
  revert s. induction n as [|n IH]; intros [|c s]; simpl; try done.
  rewrite sapp_cons. by rewrite IH.
Qed.
Lemma slen_stake n s : n ≤ slen s → slen (stake n s) = n.
Proof.
  revert s. induction n as [|n IH]; intros [|c s]; simpl; intros; try done; [lia|].
  f_equal. apply IH. lia.
Qed.
Lemma slen_sdrop n s : slen (sdrop n s) = slen s - n.
Proof. revert s. induction n as [|n IH]; intros [|c s]; simpl; auto. Qed.

(** ** Specifications of the searches *)

Lemma HasPrefix_spec s p : HasPrefix s p = true ↔ ∃ t, s = p +:+ t.
Proof.
  revert s. induction p as [|a p IH]; intros s; simpl.
  - split; [intros _; by exists s|done].
  - destruct s as [|b s]; [split; [done|by intros [t ?]]|].
    rewrite andb_true_iff, bool_decide_eq_true, IH. split.
    + intros [-> [t ->]]. by exists t.
    + intros [t Ht]. rewrite sapp_cons in Ht. injection Ht as -> ->. eauto.
Qed.

Lemma HasSuffix_spec s p : HasSuffix s p = true ↔ ∃ t, s = t +:+ p.
Proof.
  unfold HasSuffix. rewrite andb_true_iff, !bool_decide_eq_true. split.
  - intros [Hlen Hd]. exists (stake (slen s - slen p) s).
    by rewrite <-Hd at 2; rewrite stake_sdrop.
  - intros [t ->]. rewrite slen_app. split; [lia|].
    replace (slen t + slen p - slen p) with (slen t) by lia. apply sdrop_app.
Qed.

Lemma HasPrefix_app p t : HasPrefix (p +:+ t) p = true.
Proof. apply HasPrefix_spec. eauto. Qed.

Lemma TrimPrefix_app p t : TrimPrefix (p +:+ t) p = t.
Proof. unfold TrimPrefix. by rewrite HasPrefix_app, sdrop_app. Qed.

(** [Index] finds the leftmost occurrence. *)
Lemma Index_Some s sub i :
  Index s sub = Some i →
  ∃ u v, s = u +:+ sub +:+ v ∧ slen u = i ∧
         ∀ u' v', s = u' +:+ sub +:+ v' → i ≤ slen u'.
Proof.
  revert i. induction s as [|c s IH]; intros i; simpl.
  - destruct (HasPrefix "" sub) eqn:Hp; [|done]. intros [= <-].
    apply HasPrefix_spec in Hp as [t Ht]. exists "", t. split_and!; [done..|].
    intros; lia.
  - destruct (HasPrefix (String c s) sub) eqn:Hp.
    + intros [= <-]. apply HasPrefix_spec in Hp as [t Ht]. exists "", t.
      split_and!; [done..|]. intros; lia.
    + destruct (Index s sub) as [j|] eqn:Hi; simpl; [|done]. intros [= <-].
      destruct (IH j eq_refl) as (u & v & -> & Hlen & Hmin).
      exists (String c u), v. split_and!; [done|simpl; lia|].
      intros [|d u'] v' Heq.
      * assert (HasPrefix (String c (u +:+ sub +:+ v)) sub = true); [|congruence].
        apply HasPrefix_spec. exists v'. exact Heq.
      * rewrite sapp_cons in Heq. injection Heq as _ Heq. apply Hmin in Heq. simpl; lia.
Qed.

Lemma Index_None s sub : Index s sub = None → ∀ u v, s ≠ u +:+ sub +:+ v.
Proof.
  induction s as [|c s IH]; simpl; intros Hi u v Heq.
  - destruct (HasPrefix "" sub) eqn:Hp; [done|].
    assert (u = "") as -> by (destruct u; [done|by rewrite sapp_cons in Heq]).
    assert (HasPrefix "" sub = true); [|congruence]. apply HasPrefix_spec. by exists v.
  - destruct (HasPrefix (String c s) sub) eqn:Hp; [done|].
    destruct (Index s sub) eqn:Hi'; simpl in Hi; [done|].
    destruct u as [|d u].
    + assert (HasPrefix (String c s) sub = true); [|congruence].
      apply HasPrefix_spec. by exists v.
    + rewrite sapp_cons in Heq. injection Heq as _ Heq. by apply (IH eq_refl u v).
Qed.

Lemma Index_total s sub u v : s = u +:+ sub +:+ v → is_Some (Index s sub).
Proof.
  intros Heq. destruct (Index s sub) eqn:Hi; [done|].
  by destruct (Index_None _ _ Hi u v).
Qed.

Lemma ContainsByte_app s t c : ContainsByte (s +:+ t) c = ContainsByte s c || ContainsByte t c.
Proof.
  induction s as [|d s IH]; [done|]. rewrite sapp_cons. simpl. by rewrite IH, orb_assoc.
Qed.

Lemma ContainsByte_spec s c :
  ContainsByte s c = true ↔ ∃ a b, s = a +:+ String c b.
Proof.
  induction s as [|d s IH]; simpl.
  - split; [done|]. intros (a & b & Ha). destruct a; done.
  - rewrite orb_true_iff, bool_decide_eq_true, IH. split.
    + intros [-> | (a & b & ->)]; [by exists "", s|by exists (String d a), b].
    + intros (a & b & Ha). destruct a as [|x a].
      * injection Ha as -> ->. by left.
      * rewrite sapp_cons in Ha. injection Ha as -> ->. right. eauto.
Qed.

Lemma Cut_Some s c a b :
  Cut s c = Some (a, b) ↔ s = a +:+ String c b ∧ ContainsByte a c = false.
Proof.
  revert a. induction s as [|d s IH]; intros a; simpl.
  - split; [done|]. intros [Ha _]. by destruct a.
  - case_bool_decide as Hd.
    + subst. split.
      * intros [= <- <-]. done.
      * intros [Ha Hc]. destruct a as [|x a]; [by injection Ha as ->|].
        rewrite sapp_cons in Ha. injection Ha as -> Ha. simpl in Hc.
        by rewrite bool_decide_eq_true_2 in Hc.
    + split.
      * destruct (Cut s c) as [[a' b']|] eqn:Hcut; simpl; [|done].
        intros [= <- <-]. destruct (IH a') as [IH1 _].
        destruct (IH1 eq_refl) as [-> Hc]. split; [done|].
        simpl. by rewrite bool_decide_eq_false_2, Hc.
      * intros [Ha Hc]. destruct a as [|x a].
        { injection Ha as -> _. done. }
        rewrite sapp_cons in Ha. injection Ha as -> Ha. simpl in Hc.
        apply orb_false_iff in Hc as [_ Hc].
        destruct (IH a) as [_ IH2]. by rewrite IH2.
Qed.

Lemma Cut_None s c : Cut s c = None ↔ ContainsByte s c = false.
Proof.
  induction s as [|d s IH]; simpl; [done|].
  case_bool_decide; simpl; [done|].
  rewrite <-IH. destruct (Cut s c) as [[]|]; simpl; naive_solver.
Qed.

Lemma Cut_app a b c : ContainsByte a c = false → Cut (a +:+ String c b) c = Some (a, b).
Proof. intros. by apply Cut_Some. Qed.

Lemma Split_not_nil s c : Split s c ≠ [].
Proof. destruct s; simpl; [done|]. by repeat case_goal. Qed.

Lemma Split_app a b c :
  ContainsByte a c = false → Split (a +:+ String c b) c = a :: Split b c.
Proof.
  induction a as [|d a IH]; intros Hc.
  - simpl. by rewrite bool_decide_eq_true_2.
  - rewrite sapp_cons. simpl in *. apply orb_false_iff in Hc as [Hd Hc].
    rewrite Hd, (IH Hc). done.
Qed.

Lemma Split_single a c : ContainsByte a c = false → Split a c = [a].
Proof.
  induction a as [|d a IH]; intros Hc; [done|].
  simpl in *. apply orb_false_iff in Hc as [Hd Hc]. by rewrite Hd, (IH Hc).
Qed.

(** Induction over a separated string: either no separator, or a head and the rest. *)
Lemma sep_case s c :
  ContainsByte s c = false ∨
  ∃ a b, s = a +:+ String c b ∧ ContainsByte a c = false ∧ slen b < slen s.
Proof.
  destruct (Cut s c) as [[a b]|] eqn:Hc.
  - right. apply Cut_Some in Hc as [-> Ha]. exists a, b. split_and!; [done..|].
    rewrite slen_app; simpl; lia.
  - left. by apply Cut_None.
Qed.

(** The inverse of [Split]: [strings.Join] with a one-byte separator. *)
Fixpoint Join (parts : list string) (c : ascii) : string :=
  match parts with
  | [] => ""
  | [p] => p
  | p :: ps => p +:+ String c (Join ps c)
  end.

Lemma LastIndexByte_None s c : LastIndexByte s c = None ↔ ContainsByte s c = false.
Proof.
  induction s as [|d s IH]; simpl; [done|].
  destruct (LastIndexByte s c) as [i|].
  - split; [done|]. intros [_ H]%orb_false_iff. apply IH in H. done.
  - destruct IH as [IH _]. rewrite (IH eq_refl), orb_false_r. by case_bool_decide.
Qed.

Lemma LastIndexByte_app a b c :
  ContainsByte b c = false → LastIndexByte (a +:+ String c b) c = Some (slen a).
Proof.
  intros Hb. induction a as [|d a IH]; simpl.
  - apply LastIndexByte_None in Hb. by rewrite Hb, bool_decide_eq_true_2.
  - by rewrite IH.
Qed.

Lemma LastIndexByte_Some s c i :
  LastIndexByte s c = Some i →
  ∃ a b, s = a +:+ String c b ∧ slen a = i ∧ ContainsByte b c = false.
Proof.
  revert i. induction s as [|d s IH]; intros i; simpl; [done|].
  destruct (LastIndexByte s c) as [j|] eqn:Hl.
  - intros [= <-]. destruct (IH j eq_refl) as (a & b & -> & <- & Hb).
    by exists (String d a), b.
  - case_bool_decide; [|done]. intros [= <-]. subst.
    apply LastIndexByte_None in Hl. by exists "", s.
Qed.

#[export] Hint Rewrite sapp_nil_r slen_app sdrop_app stake_app TrimPrefix_app
  HasPrefix_app : gostrings.
