(* ===== verification/GoStrconv.v ===== *)
(** Go's [strconv] integer conversions, [net.JoinHostPort]/[net.SplitHostPort],
    [strings.TrimSpace] and the case mappings, with their round trips. *)

From S2P Require Import Prelude GoStrings.
Local Open Scope Z_scope.

(** ** Formatting *)

Definition digit_char (d : Z) : ascii := Stdlib.Strings.Ascii.ascii_of_N (48 + Z.to_N d).

(** Digits of [n], most significant first, in front of [acc]. *)
Fixpoint format_go (base : Z) (fuel : nat) (n : Z) (acc : string) : string :=
  match fuel with
  | O => acc
  | S f =>
      let acc' := String (digit_char (n `mod` base)) acc in
      if bool_decide (n < base) then acc' else format_go base f (n / base) acc'
  end.

(** Enough fuel for every base of at least two: one step per bit. *)
Definition format_fuel (n : Z) : nat := S (Z.to_nat (Z.log2 n)).

(** [strconv.FormatUint(n, base)] for the bases the code uses (8 and 10). *)
Definition FormatUint (n base : Z) : string := format_go base (format_fuel n) n "".

(** [strconv.FormatInt(n, 10)] and [strconv.Itoa]. *)
Definition FormatInt (n : Z) : string :=
  if bool_decide (n < 0) then String "-" (FormatUint (- n) 10) else FormatUint n 10.
Definition Itoa (n : Z) : string := FormatInt n.

(** ** Parsing *)

Definition digit_val (c : ascii) : option Z :=
  let n := Z.of_N (Stdlib.Strings.Ascii.N_of_ascii c) in
  if bool_decide (48 ≤ n ≤ 57) then Some (n - 48) else None.

Fixpoint parse_digits (base : Z) (acc : Z) (s : string) : option Z :=
  match s with
  | EmptyString => Some acc
  | String c s' =>
      d ← digit_val c;
      if bool_decide (d < base) then parse_digits base (acc * base + d) s' else None
  end.

(** [strconv.ParseUint(s, base, bits)] for a base of at most ten; [None] is any error. *)
Definition ParseUint (s : string) (base bits : Z) : option Z :=
  match s with
  | EmptyString => None
  | _ => n ← parse_digits base 0 s; if bool_decide (n < 2 ^ bits) then Some n else None
  end.

(** [strconv.ParseInt(s, base, bits)]: an optional sign, then the magnitude. *)
Definition ParseInt (s : string) (base bits : Z) : option Z :=
  let '(neg, rest) := match s with
                      | String "+" r => (false, r)
                      | String "-" r => (true, r)
                      | _ => (false, s)
                      end in
  un ← ParseUint rest base bits;
  let cutoff := 2 ^ (bits - 1) in
  if (negb neg && bool_decide (cutoff ≤ un)) || (neg && bool_decide (cutoff < un)) then None
  else Some (if neg : bool then - un else un).

Definition Atoi (s : string) : option Z := ParseInt s 10 64.

(** ** Round trips *)

Lemma digit_val_char d : 0 ≤ d < 10 → digit_val (digit_char d) = Some d.
Proof.
  intros Hd. unfold digit_val, digit_char.
  rewrite Stdlib.Strings.Ascii.N_ascii_embedding by lia.
  rewrite bool_decide_eq_true_2 by lia. f_equal. lia.
Qed.

Lemma format_go_parse base fuel n acc :
  2 ≤ base ≤ 10 → 0 ≤ n < 2 ^ Z.of_nat fuel →
  parse_digits base 0 (format_go base fuel n acc) = parse_digits base n acc.
Proof.
  intros Hb. revert n acc. induction fuel as [|f IH]; intros n acc Hn; simpl.
  - assert (n = 0) as -> by lia. done.
  - pose proof (Z.mod_pos_bound n base ltac:(lia)) as Hm.
    case_bool_decide as Hlt.
    + simpl. rewrite digit_val_char by lia. simpl.
      rewrite bool_decide_eq_true_2 by lia. f_equal. rewrite Z.mod_small; lia.
    + rewrite IH.
      * simpl. rewrite digit_val_char by lia. simpl.
        rewrite bool_decide_eq_true_2 by lia. f_equal.
        pose proof (Z.div_mod n base ltac:(lia)). lia.
      * split; [apply Z.div_pos; lia|].
        apply Z.div_lt_upper_bound; [lia|].
        rewrite Nat2Z.inj_succ, Z.pow_succ_r in Hn by lia.
        assert (2 * 2 ^ Z.of_nat f ≤ base * 2 ^ Z.of_nat f); [|lia].
        apply Z.mul_le_mono_nonneg_r; lia.
Qed.

Lemma format_fuel_enough n : 0 ≤ n → 0 ≤ n < 2 ^ Z.of_nat (format_fuel n).
Proof.
  intros Hn. split; [done|]. unfold format_fuel. rewrite Nat2Z.inj_succ, Z2Nat.id.
  - destruct (decide (n = 0)) as [->|]; [done|]. by apply Z.log2_spec; lia.
  - apply Z.log2_nonneg.
Qed.

Lemma FormatUint_not_nil n base : FormatUint n base ≠ "".
Proof.
  unfold FormatUint, format_fuel. simpl. case_bool_decide; [done|].
  generalize (Z.to_nat (Z.log2 n)) as f. intros f.
  assert (∀ f m c acc, format_go base f m (String c acc) ≠ "") as Hne; [|apply Hne].
  clear. induction f as [|f IH]; intros m c acc; simpl; [done|]. by case_bool_decide.
Qed.

Lemma ParseUint_FormatUint n base bits :
  2 ≤ base ≤ 10 → 0 ≤ n < 2 ^ bits → ParseUint (FormatUint n base) base bits = Some n.
Proof.
  intros Hb Hn. unfold ParseUint.
  destruct (FormatUint n base) as [|c s] eqn:Hf; [by apply FormatUint_not_nil in Hf|].
  rewrite <-Hf. unfold FormatUint.
  rewrite format_go_parse by (done || by apply format_fuel_enough; lia).
  simpl. by rewrite bool_decide_eq_true_2 by lia.
Qed.

Lemma FormatUint_inj m n : 0 ≤ m → 0 ≤ n → FormatUint m 10 = FormatUint n 10 → m = n.
Proof.
  intros Hm Hn Heq. set (b := Z.max (Z.log2_up (m + 1)) (Z.log2_up (n + 1)) + 1).
  assert (∀ k, 0 ≤ k → Z.log2_up (k + 1) < b → 0 ≤ k < 2 ^ b) as Hin.
  { intros k Hk Hlt. split; [done|].
    destruct (decide (k = 0)) as [->|].
    - apply Z.pow_pos_nonneg; [lia|]. pose proof (Z.log2_up_nonneg (0 + 1)). lia.
    - pose proof (Z.log2_up_spec (k + 1) ltac:(lia)) as [_ Hs].
      assert (2 ^ Z.log2_up (k + 1) ≤ 2 ^ b); [apply Z.pow_le_mono_r; lia|lia]. }
  assert (Some m = Some n) as [= ->]; [|done].
  rewrite <-(ParseUint_FormatUint m 10 b), <-(ParseUint_FormatUint n 10 b), Heq;
    (done || lia || apply Hin; lia).
Qed.

(** A formatted number has digits only. *)
Lemma digit_char_not d c :
  0 ≤ d < 10 → digit_val c = None → digit_char d ≠ c.
Proof. intros Hd Hc <-. by rewrite digit_val_char in Hc. Qed.

Lemma format_go_no_byte base fuel n acc c :
  2 ≤ base ≤ 10 → digit_val c = None → ContainsByte acc c = false →
  ContainsByte (format_go base fuel n acc) c = false.
Proof.
  intros Hb Hc. revert n acc. induction fuel as [|f IH]; intros n acc Hacc; simpl; [done|].
  assert (ContainsByte (String (digit_char (n `mod` base)) acc) c = false) as Hh.
  { simpl. rewrite bool_decide_eq_false_2; [done|].
    apply digit_char_not; [|done]. pose proof (Z.mod_pos_bound n base ltac:(lia)). lia. }
  case_bool_decide; [done|]. by apply IH.
Qed.

Lemma FormatUint_no_byte n base c :
  2 ≤ base ≤ 10 → digit_val c = None → ContainsByte (FormatUint n base) c = false.
Proof. intros. by apply format_go_no_byte. Qed.

(** Reading back an unsigned number as a signed one: out of range from half of the width on. *)
Lemma ParseInt_FormatUint_wide n base bits :
  2 ≤ base ≤ 10 → 0 ≤ n < 2 ^ bits →
  ParseInt (FormatUint n base) base bits = if bool_decide (2 ^ (bits - 1) ≤ n) then None else Some n.
Proof.
  intros Hb Hn. unfold ParseInt. pose proof (ParseUint_FormatUint n base bits Hb Hn) as HP.
  destruct (FormatUint n base) as [|c s] eqn:Hf; [by apply FormatUint_not_nil in Hf|].
  assert (c ≠ "+"%char ∧ c ≠ "-"%char) as [Hp Hm].
  { split; intros ->.
    - pose proof (FormatUint_no_byte n base "+" Hb eq_refl) as HN. by rewrite Hf in HN.
    - pose proof (FormatUint_no_byte n base "-" Hb eq_refl) as HN. by rewrite Hf in HN. }
  assert (match String c s with
          | String "+" r => (false, r)
          | String "-" r => (true, r)
          | _ => (false, String c s) end = (false, String c s)) as ->.
  { destruct c as [[] [] [] [] [] [] [] []]; done. }
  rewrite HP. simpl. by case_bool_decide.
Qed.

Lemma ParseInt_FormatUint n base bits :
  2 ≤ base ≤ 10 → 0 ≤ n < 2 ^ (bits - 1) → ParseInt (FormatUint n base) base bits = Some n.
Proof.
  intros Hb Hn. rewrite ParseInt_FormatUint_wide; [by rewrite bool_decide_eq_false_2 by lia|done|].
  destruct (decide (bits ≤ 0)).
  - rewrite Z.pow_neg_r in Hn; lia.
  - pose proof (Z.pow_le_mono_r 2 (bits - 1) bits). lia.
Qed.

(** ** [net] *)

Definition JoinHostPort (host port : string) : string :=
  if ContainsByte host ":" then "[" +:+ host +:+ "]:" +:+ port
  else host +:+ ":" +:+ port.

Definition IndexByte (s : string) (c : ascii) : option nat :=
  slen ∘ fst <$> Cut s c.

(** [net.SplitHostPort]; [None] is any of its errors. *)
Definition SplitHostPort (hostport : string) : option (string * string) :=
  i ← LastIndexByte hostport ":";
  '(host, j, k) ←
    match hostport with
    | String "[" _ =>
        e ← IndexByte hostport "]";
        if bool_decide (S e = i) then Some (stake (e - 1) (sdrop 1 hostport), 1%nat, S e) else None
    | _ =>
        let host := stake i hostport in
        if ContainsByte host ":" then None else Some (host, 0%nat, 0%nat)
    end;
  if ContainsByte (sdrop j hostport) "[" then None
  else if ContainsByte (sdrop k hostport) "]" then None
  else Some (host, sdrop (S i) hostport).

(** The key of a host and a numeric port determines both. *)
Lemma JoinHostPort_inj h1 p1 h2 p2 :
  ContainsByte p1 ":" = false → ContainsByte p2 ":" = false →
  JoinHostPort h1 p1 = JoinHostPort h2 p2 → h1 = h2 ∧ p1 = p2.
Proof.
  intros Hp1 Hp2 Heq.
  assert (∀ h p, ∃ x, JoinHostPort h p = x +:+ String ":" p ∧
            x = if ContainsByte h ":" then "[" +:+ h +:+ "]" else h) as Hform.
  { intros h p. unfold JoinHostPort.
    destruct (ContainsByte h ":"); eexists; (split; [|done]); [|done].
    by rewrite <-!sapp_assoc. }
  destruct (Hform h1 p1) as (x1 & E1 & Hx1), (Hform h2 p2) as (x2 & E2 & Hx2).
  rewrite E1, E2 in Heq.
  assert (slen x1 = slen x2) as Hlen.
  { pose proof (LastIndexByte_app x1 p1 ":" Hp1) as L1.
    pose proof (LastIndexByte_app x2 p2 ":" Hp2) as L2. congruence. }
  destruct (sapp_split _ _ _ _ Heq ltac:(lia)) as (w & -> & Hw).
  rewrite slen_app in Hlen. destruct w; [|simpl in Hlen; lia].
  rewrite sapp_nil_r in *. injection Hw as ->. split; [|done].
  destruct (ContainsByte h1 ":") eqn:C1, (ContainsByte h2 ":") eqn:C2.
  - rewrite Hx1 in Hx2. by apply sapp_inj_l, sapp_inj_r in Hx2.
  - subst x1. rewrite <-Hx2, !ContainsByte_app, C1 in C2. done.
  - subst x1. rewrite Hx2, !ContainsByte_app, C2 in C1. done.
  - congruence.
Qed.

(** [strings.Join] with a longer separator. *)
Fixpoint JoinWith (parts : list string) (sep : string) : string :=
  match parts with
  | [] => ""
  | [p] => p
  | p :: ps => p +:+ sep +:+ JoinWith ps sep
  end.

(** ** White space *)

Definition of_bytes (l : list N) : string :=
  foldr (fun n s => String (Stdlib.Strings.Ascii.ascii_of_N n) s) "" l.

(** The UTF-8 encodings of the runes of [unicode.IsSpace]. *)
Definition space_encodings : list string :=
  (of_bytes <$> [[9]; [10]; [11]; [12]; [13]; [32]; [194; 133]; [194; 160]; [225; 154; 128];
     [226; 128; 128]; [226; 128; 129]; [226; 128; 130]; [226; 128; 131]; [226; 128; 132];
     [226; 128; 133]; [226; 128; 134]; [226; 128; 135]; [226; 128; 136]; [226; 128; 137];
     [226; 128; 138]; [226; 128; 168]; [226; 128; 169]; [226; 128; 175]; [226; 129; 159];
     [227; 128; 128]])%N.

Fixpoint trim_left_go (fuel : nat) (s : string) : string :=
  match fuel with
  | O => s
  | S f => match find_first (HasPrefix s) space_encodings with
           | Some e => trim_left_go f (sdrop (slen e) s)
           | None => s
           end
  end.
Fixpoint trim_right_go (fuel : nat) (s : string) : string :=
  match fuel with
  | O => s
  | S f => match find_first (HasSuffix s) space_encodings with
           | Some e => trim_right_go f (stake (slen s - slen e) s)
           | None => s
           end
  end.

(** [strings.TrimSpace]: every step removes at least one byte, so the length is enough fuel. *)
Definition TrimSpace (s : string) : string :=
  let l := trim_left_go (slen s) s in trim_right_go (slen l) l.

Lemma trim_left_go_spec fuel s : ∃ u, s = u +:+ trim_left_go fuel s.
Proof.
  revert s. induction fuel as [|f IH]; intros s; simpl; [by exists ""|].
  destruct (find_first (HasPrefix s) space_encodings) as [e|] eqn:Hf; [|by exists ""].
  apply find_first_Some in Hf as [_ Hp]. apply HasPrefix_spec in Hp as [t ->].
  rewrite sdrop_app. destruct (IH t) as [u Hu]. exists (e +:+ u).
  by rewrite <-sapp_assoc, <-Hu.
Qed.

Lemma trim_right_go_spec fuel s : ∃ u, s = trim_right_go fuel s +:+ u.
Proof.
  revert s. induction fuel as [|f IH]; intros s; simpl; [exists ""; by rewrite sapp_nil_r|].
  destruct (find_first (HasSuffix s) space_encodings) as [e|] eqn:Hf;
    [|exists ""; by rewrite sapp_nil_r].
  apply find_first_Some in Hf as [_ Hp]. apply HasSuffix_spec in Hp as [t ->].
  rewrite slen_app. replace (slen t + slen e - slen e)%nat with (slen t) by lia.
  rewrite stake_app. destruct (IH t) as [u Hu]. exists (u +:+ e).
  by rewrite sapp_assoc, <-Hu.
Qed.

(** [TrimSpace] returns a contiguous part of its argument. *)
Lemma TrimSpace_infix s : ∃ u v, s = u +:+ TrimSpace s +:+ v.
Proof.
  unfold TrimSpace. destruct (trim_left_go_spec (slen s) s) as [u Hu].
  set (l := trim_left_go (slen s) s) in *.
  destruct (trim_right_go_spec (slen l) l) as [v Hv]. exists u, v. by rewrite <-Hv.
Qed.

(** [strings.Fields]: the maximal runs without white space; [cur] is the run being read. *)
Fixpoint fields_go (fuel : nat) (cur s : string) : list string :=
  let flush := if bool_decide (cur = "") then [] else [cur] in
  match fuel, s with
  | S f, String c s' =>
      match find_first (HasPrefix s) space_encodings with
      | Some e => flush ++ fields_go f "" (sdrop (slen e) s)
      | None => fields_go f (cur +:+ String c "") s'
      end
  | _, _ => flush
  end.
Definition Fields (s : string) : list string := fields_go (slen s) "" s.

(** ** Case *)

(** The Unicode tables behind the case mappings; ASCII strings never reach them. *)
Class UnicodeCase := {
  unicode_upper : string → string;
  unicode_lower : string → string;
  unicode_fold : string → string → bool;
}.

Definition is_ascii_byte (c : ascii) : bool :=
  bool_decide (Stdlib.Strings.Ascii.N_of_ascii c < 128)%N.
Definition ascii_upper (c : ascii) : ascii :=
  let n := Stdlib.Strings.Ascii.N_of_ascii c in
  if bool_decide (97 ≤ n ≤ 122)%N then Stdlib.Strings.Ascii.ascii_of_N (n - 32) else c.
Definition ascii_lower (c : ascii) : ascii :=
  let n := Stdlib.Strings.Ascii.N_of_ascii c in
  if bool_decide (65 ≤ n ≤ 90)%N then Stdlib.Strings.Ascii.ascii_of_N (n + 32) else c.

Fixpoint smap (f : ascii → ascii) (s : string) : string :=
  match s with EmptyString => "" | String c s' => String (f c) (smap f s') end.
Fixpoint is_ascii (s : string) : bool :=
  match s with EmptyString => true | String c s' => is_ascii_byte c && is_ascii s' end.

Section Case.
Context `{UnicodeCase}.
Definition ToUpper (s : string) : string :=
  if is_ascii s then smap ascii_upper s else unicode_upper s.
Definition ToLower (s : string) : string :=
  if is_ascii s then smap ascii_lower s else unicode_lower s.
Definition EqualFold (s t : string) : bool :=
  if is_ascii s && is_ascii t then bool_decide (smap ascii_lower s = smap ascii_lower t)
  else unicode_fold s t.
End Case.

(** A concrete instance (bytes outside ASCII are left alone), for evaluating the model. *)
Definition ascii_only : UnicodeCase := {|
  unicode_upper := smap ascii_upper;
  unicode_lower := smap ascii_lower;
  unicode_fold s t := bool_decide (smap ascii_lower s = smap ascii_lower t);
|}.
