(* ===== verification/GoPath.v ===== *)
(** Go's [path] and [path/filepath] on Unix: [Base], [Dir], [Clean] and [Join].

    [Clean] is given by the components it keeps: a stack on which an element [..] removes the name
    before it.  The lemmas say what joining a plain name does. *)

From S2P Require Import Prelude GoStrings.

(** ** Functions *)

Fixpoint strip_trailing_slashes (fuel : nat) (s : string) : string :=
  match fuel with
  | O => s
  | S fuel => if HasSuffix s "/" then strip_trailing_slashes fuel (stake (slen s - 1) s) else s
  end.

(** [path.Base] and [filepath.Base]. *)
Definition path_Base (path : string) : string :=
  if bool_decide (path = "") then "."
  else
    let p := strip_trailing_slashes (slen path) path in
    let p := match LastIndexByte p "/" with Some i => sdrop (i + 1) p | None => p end in
    if bool_decide (p = "") then "/" else p.

(** One path element against the elements kept so far, last first. *)
Definition clean_step (rooted : bool) (stack : list string) (c : string) : list string :=
  if bool_decide (c = "" ∨ c = ".") then stack
  else if bool_decide (c = "..") then
    match stack with
    | [] => if rooted then [] else [".."]
    | top :: rest => if bool_decide (top = "..") then ".." :: stack else rest
    end
  else c :: stack.

Definition clean_stack (rooted : bool) (stack comps : list string) : list string :=
  foldl (clean_step rooted) stack comps.

Definition is_rooted (path : string) : bool := HasPrefix path "/".

(** The elements of the cleaned path. *)
Definition Clean_components (path : string) : list string :=
  reverse (clean_stack (is_rooted path) [] (Split path "/")).

(** [path.Clean] and [filepath.Clean]. *)
Definition Clean (path : string) : string :=
  let comps := Clean_components path in
  if is_rooted path then "/" +:+ Join comps "/"
  else if bool_decide (comps = []) then "."
  else Join comps "/".

(** [path.Join] and [filepath.Join]. *)
Fixpoint path_Join (elems : list string) : string :=
  match elems with
  | [] => ""
  | e :: rest => if bool_decide (e = "") then path_Join rest else Clean (Join elems "/")
  end.

(** [path.Dir]. *)
Definition path_Dir (path : string) : string :=
  Clean (match LastIndexByte path "/" with Some i => stake (i + 1) path | None => "" end).

(** A name that is one path element and no reference to another directory. *)
Definition plain_name (name : string) : Prop :=
  name ≠ "" ∧ name ≠ "." ∧ name ≠ ".." ∧ ContainsByte name "/" = false.

#[export] Instance plain_name_dec name : Decision (plain_name name).
Proof. unfold plain_name. apply _. Defined.

(** ** Splitting and joining *)

Lemma Split_app_sep a b c : Split (a +:+ String c b) c = Split a c ++ Split b c.
Proof.
  induction a as [|d a IH]; simpl.
  - by rewrite bool_decide_eq_true_2.
  - rewrite IH. case_bool_decide; [done|].
    pose proof (Split_not_nil a c). by destruct (Split a c).
Qed.

Lemma Split_Join l c :
  l ≠ [] → Forall (fun x => ContainsByte x c = false) l → Split (Join l c) c = l.
Proof.
  intros Hne Hl. induction Hl as [|x l Hx Hl IH]; [done|]. destruct l as [|y l].
  - by apply Split_single.
  - change (Join (x :: y :: l) c) with (x +:+ String c (Join (y :: l) c)).
    rewrite Split_app by done. by rewrite IH.
Qed.

Lemma Join_app l x c : l ≠ [] → Join (l ++ [x]) c = Join l c +:+ String c x.
Proof.
  induction l as [|y l IH]; intros Hne; [done|]. destruct l as [|z l]; [done|].
  change ((y :: z :: l) ++ [x]) with (y :: (z :: l) ++ [x]).
  change (Join (y :: z :: l) c) with (y +:+ String c (Join (z :: l) c)).
  rewrite <-sapp_assoc, sapp_cons, <-IH by done. simpl. by destruct (l ++ [x]) eqn:E.
Qed.

Lemma Split_elements s c : Forall (fun x => ContainsByte x c = false) (Split s c).
Proof.
  induction s as [|d s IH]; simpl; [by constructor|]. case_bool_decide as Hd.
  - constructor; [done|exact IH].
  - destruct (Split s c) as [|p ps]; inversion IH; subst; repeat constructor; simpl; try done;
      by rewrite bool_decide_eq_false_2.
Qed.

(** ** Cleaning *)

Lemma clean_stack_app r st l1 l2 :
  clean_stack r st (l1 ++ l2) = clean_stack r (clean_stack r st l1) l2.
Proof. apply foldl_app. Qed.

Lemma clean_step_plain r st name : plain_name name → clean_step r st name = name :: st.
Proof.
  intros (Hn & Hd & Hdd & _). unfold clean_step.
  rewrite !bool_decide_eq_false_2 by naive_solver. done.
Qed.

(** An element that [Clean] can keep: not empty, not the dot. *)
Definition kept (c : string) : Prop := c ≠ "" ∧ c ≠ "." ∧ ContainsByte c "/" = false.

Lemma clean_step_kept r st c :
  ContainsByte c "/" = false → Forall kept st → Forall kept (clean_step r st c).
Proof.
  intros Hc Hst. unfold clean_step. repeat case_bool_decide; try done.
  - destruct st as [|top rest]; [destruct r; repeat constructor; done|].
    inversion Hst; subst. case_bool_decide; [|done]. by constructor.
  - constructor; [|done]. unfold kept. naive_solver.
Qed.

Lemma clean_stack_kept r st l :
  Forall (fun x => ContainsByte x "/" = false) l → Forall kept st →
  Forall kept (clean_stack r st l).
Proof.
  intros Hl. revert st. induction Hl as [|x l Hx Hl IH]; intros st Hst; [done|].
  apply IH. by apply clean_step_kept.
Qed.

Lemma Clean_components_kept path : Forall kept (Clean_components path).
Proof.
  unfold Clean_components. apply Forall_reverse, clean_stack_kept; [apply Split_elements|done].
Qed.

(** Cleaning relative to a directory [st] does not depend on whether the path was cleaned first:
    [b] holds the elements kept so far by the cleaning without a root. *)
Lemma clean_stack_clean st b l :
  Forall kept b → Forall (fun x => ContainsByte x "/" = false) l →
  clean_stack true st (reverse (clean_stack false b l)) =
  clean_stack true st (reverse b ++ l).
Proof.
  intros Hb Hl. revert b Hb. induction Hl as [|c l Hc Hl IH]; intros b Hb; [by rewrite app_nil_r|].
  change (clean_stack false b (c :: l)) with (clean_stack false (clean_step false b c) l).
  rewrite IH by by apply clean_step_kept. clear IH.
  change (c :: l) with ([c] ++ l). rewrite (assoc_L (++)), !(clean_stack_app _ _ _ l). f_equal.
  unfold clean_step. case_bool_decide as Hd.
  { rewrite clean_stack_app. simpl. unfold clean_step. by rewrite bool_decide_eq_true_2. }
  case_bool_decide as Hdd; [|by rewrite reverse_cons].
  subst c. destruct b as [|top rest]; [done|]. case_bool_decide as Ht; [by rewrite (reverse_cons _ "..")|].
  inversion Hb as [|?? (Hn & Hdt & Hs) _]; subst.
  rewrite reverse_cons, !clean_stack_app. simpl.
  rewrite (clean_step_plain true _ top) by done. unfold clean_step.
  rewrite bool_decide_eq_false_2 by naive_solver. rewrite bool_decide_eq_true_2 by done.
  by rewrite bool_decide_eq_false_2.
Qed.

Lemma clean_stack_rooted st l :
  Forall (fun c => c ≠ "..") st → Forall (fun c => c ≠ "..") (clean_stack true st l).
Proof.
  revert st. induction l as [|c l IH]; intros st Hst; [done|]. apply IH. unfold clean_step.
  repeat case_bool_decide; try done; [|by constructor].
  destruct st as [|top rest]; [done|]. inversion Hst; subst. by rewrite bool_decide_eq_false_2.
Qed.

(** Elements that are kept and no [..] pass unchanged. *)
Lemma clean_stack_plain r st l :
  Forall kept l → Forall (fun c => c ≠ "..") l → clean_stack r st l = reverse l ++ st.
Proof.
  intros Hk Hd. revert st. induction Hk as [|c l (Hn & Hdt & Hs) Hk IH]; intros st; [done|].
  inversion Hd; subst.
  change (clean_stack r st (c :: l)) with (clean_stack r (clean_step r st c) l).
  rewrite IH by done. rewrite clean_step_plain by done. by rewrite reverse_cons, <-(assoc_L (++)).
Qed.

(** ** Joining a plain name *)

Lemma plain_name_kept name : plain_name name → kept name ∧ name ≠ "..".
Proof. unfold plain_name, kept. naive_solver. Qed.

Lemma is_rooted_app a b : a ≠ "" → is_rooted (a +:+ b) = is_rooted a.
Proof. destruct a; [done|]. intros _. unfold is_rooted. simpl. by destruct b. Qed.

Lemma Clean_components_join root name :
  root ≠ "" → plain_name name →
  Clean_components (root +:+ String "/" name) = Clean_components root ++ [name].
Proof.
  intros Hr Hn. unfold Clean_components. rewrite is_rooted_app by done.
  rewrite Split_app_sep, (Split_single name) by apply Hn.
  rewrite clean_stack_app. simpl. rewrite clean_step_plain by done. by rewrite reverse_cons.
Qed.

Lemma path_Join_plain root name :
  root ≠ "" → plain_name name →
  path_Join [root; name] =
  let p := Join (Clean_components root ++ [name]) "/" in
  if is_rooted root then "/" +:+ p else p.
Proof.
  intros Hr Hn. cbn [path_Join]. rewrite bool_decide_eq_false_2 by done.
  cbn [Join]. unfold Clean. rewrite is_rooted_app, Clean_components_join by done.
  destruct (is_rooted root); [done|]. rewrite bool_decide_eq_false_2; [done|].
  by destruct (Clean_components root).
Qed.

(** The directory [path] names, for a process whose working directory has the elements [cwd]. *)
Definition resolve (cwd : list string) (path : string) : list string :=
  reverse (clean_stack true (if is_rooted path then [] else reverse cwd) (Split path "/")).

Lemma is_rooted_Join c l : kept c → is_rooted (Join (c :: l) "/") = false.
Proof.
  intros (Hne & _ & Hs). destruct c as [|a c]; [done|].
  simpl in Hs. apply orb_false_iff in Hs as [Ha _]. apply bool_decide_eq_false in Ha.
  assert (is_rooted (String a c) = false) as Hr.
  { unfold is_rooted. simpl. rewrite bool_decide_eq_false_2 by congruence. done. }
  destruct l as [|d l]; [done|].
  change (Join (String a c :: d :: l) "/") with (String a c +:+ String "/" (Join (d :: l) "/")).
  by rewrite is_rooted_app.
Qed.

(** Joining a plain name descends by one directory entry, from wherever the path started. *)
Lemma resolve_join cwd root name :
  root ≠ "" → plain_name name →
  resolve cwd (path_Join [root; name]) = resolve cwd root ++ [name].
Proof.
  intros Hr Hn. destruct (plain_name_kept _ Hn) as [Hk Hdd]. rewrite path_Join_plain by done.
  pose proof (Clean_components_kept root) as Hck. cbv zeta.
  set (comps := Clean_components root ++ [name]).
  assert (Forall kept comps) as Hcomps by (apply Forall_app; auto).
  assert (Split (Join comps "/") "/" = comps) as Hsplit.
  { apply Split_Join; [by destruct (Clean_components root)|].
    eapply Forall_impl; [exact Hcomps|]. by intros ? (_ & _ & ?). }
  destruct (is_rooted root) eqn:Hroot.
  - change ("/" +:+ Join comps "/") with (String "/" (Join comps "/")). unfold resolve at 1.
    change (is_rooted (String "/" (Join comps "/"))) with true. cbv iota.
    assert (clean_stack true [] (Split (String "/" (Join comps "/")) "/") = reverse comps) as ->.
    { simpl. rewrite Hsplit. unfold clean_step.
      rewrite bool_decide_eq_true_2 by by left. rewrite clean_stack_plain, app_nil_r; [done..|].
      apply Forall_app. split; [|by repeat constructor]. unfold Clean_components. rewrite Hroot.
      by apply Forall_reverse, clean_stack_rooted. }
    rewrite reverse_involutive. unfold comps, Clean_components, resolve. by rewrite Hroot.
  - unfold resolve. rewrite Hroot.
    assert (is_rooted (Join comps "/") = false) as ->.
    { unfold comps. destruct (Clean_components root); inversion Hcomps; subst;
        by apply is_rooted_Join. }
    rewrite Hsplit. unfold comps, Clean_components. rewrite Hroot, clean_stack_app.
    rewrite clean_stack_clean, reverse_nil by (done || apply Split_elements). simpl.
    rewrite clean_step_plain by done. by rewrite reverse_cons.
Qed.

Lemma path_Join_nonempty root name : root ≠ "" → plain_name name → path_Join [root; name] ≠ "".
Proof.
  intros Hr Hn. rewrite path_Join_plain by done. cbv zeta.
  destruct (is_rooted root); [done|].
  destruct (Clean_components root) as [|c l] eqn:E; [apply Hn|].
  pose proof (Clean_components_kept root) as Hk. rewrite E in Hk. inversion Hk as [|?? Hc _]; subst.
  destruct c as [|a c]; [by destruct Hc|]. simpl. by destruct (l ++ [name]).
Qed.

(** ** [Base] *)

Lemma HasSuffix_slash_name u name : ContainsByte name "/" = false → name ≠ "" →
  HasSuffix (u +:+ name) "/" = false.
Proof.
  intros Hs Hn. apply not_true_is_false. intros (t & Ht)%HasSuffix_spec.
  assert (slen name ≥ 1) as Hl by (destruct name; simpl; [done|lia]).
  destruct (sapp_split _ _ _ _ Ht) as (m & _ & Hm).
  { apply (f_equal slen) in Ht. rewrite !slen_app in Ht. simpl in Ht. lia. }
  by rewrite Hm, ContainsByte_app, orb_true_r in Hs.
Qed.

Lemma path_Base_plain u name : plain_name name → path_Base (u +:+ String "/" name) = name.
Proof.
  intros (Hn & _ & _ & Hs). unfold path_Base.
  rewrite bool_decide_eq_false_2 by by destruct u.
  assert (∀ fuel, strip_trailing_slashes fuel (u +:+ String "/" name) = u +:+ String "/" name) as ->.
  { intros [|fuel]; [done|]. simpl.
    replace (u +:+ String "/" name) with ((u +:+ "/") +:+ name) by by rewrite <-sapp_assoc.
    by rewrite HasSuffix_slash_name. }
  rewrite LastIndexByte_app by done.
  replace (u +:+ String "/" name) with ((u +:+ "/") +:+ name) by by rewrite <-sapp_assoc.
  replace (slen u + 1) with (slen (u +:+ "/")) by (rewrite slen_app; done).
  rewrite sdrop_app. by rewrite bool_decide_eq_false_2.
Qed.

Lemma path_Base_join root name : root ≠ "" → plain_name name → path_Base (path_Join [root; name]) = name.
Proof.
  intros Hr Hn. rewrite path_Join_plain by done. cbv zeta.
  assert (path_Base name = name) as Hself.
  { destruct Hn as (Hne & _ & _ & Hs). unfold path_Base. rewrite bool_decide_eq_false_2 by done.
    assert (∀ fuel, strip_trailing_slashes fuel name = name) as ->.
    { intros [|fuel]; [done|]. simpl. pose proof (HasSuffix_slash_name "" name Hs Hne) as H.
      rewrite sapp_nil_l in H. by rewrite H. }
    rewrite (proj2 (LastIndexByte_None name "/") Hs). by rewrite bool_decide_eq_false_2. }
  destruct (decide (Clean_components root = [])) as [->|Hc].
  - destruct (is_rooted root); [|done]. by apply (path_Base_plain "").
  - rewrite Join_app by done. destruct (is_rooted root); [|by apply path_Base_plain].
    rewrite sapp_assoc. by apply path_Base_plain.
Qed.

#[global] Arguments path_Join : simpl never.
#[global] Arguments resolve : simpl never.
