(* ===== verification/Wildcard.v ===== *)
(** Model of [src/pkg/wildcard/pattern.go]: asterisk matching.  [Match] is translated from the
    source; [glob] is the reference meaning of a pattern, and the two agree on every input. *)

From S2P Require Import Prelude GoStrings.

Definition star : ascii := "*"%char.

(** The loop over [parts[1 : len(parts)-1]]: each non-empty part is cut out at its leftmost
    occurrence; [None] is the early [return false]. *)
Fixpoint match_middle (middle : list string) (rest : string) : option string :=
  match middle with
  | [] => Some rest
  | part :: ps =>
      if bool_decide (part = "") then match_middle ps rest
      else match Index rest part with
           | None => None
           | Some idx => match_middle ps (sdrop (idx + slen part) rest)
           end
  end.

(** [wildcard.Match]. *)
Definition Match (pattern value : string) : bool :=
  if bool_decide (pattern = value) || bool_decide (pattern = "*") then true
  else if negb (ContainsByte pattern star) then false
  else
    let parts := Split pattern star in
    let first := default "" (head parts) in
    let rest := if bool_decide (first ≠ "")
                then if HasPrefix value first then Some (sdrop (slen first) value) else None
                else Some value in
    match rest with
    | None => false
    | Some rest =>
        match match_middle (removelast (tail parts)) rest with
        | None => false
        | Some rest =>
            let last := default "" (last parts) in
            bool_decide (last = "") || HasSuffix rest last
        end
    end.

(** [wildcard.MatchAny]. *)
Definition MatchAny (patterns : list string) (value : string) : bool :=
  existsb (fun candidate => Match candidate value) patterns.

(** ** Reference meaning: an asterisk stands for any byte sequence *)

Inductive glob : string → string → Prop :=
| glob_nil : glob "" ""
| glob_byte c p s : c ≠ star → glob p s → glob (String c p) (String c s)
| glob_star p u s : glob p s → glob (String star p) (u +:+ s).

(** A value matches the parts after a leading asterisk: the parts occur in order, anything
    between them, and the last part ends the value. *)
Fixpoint tail_match (parts : list string) (s : string) : Prop :=
  match parts with
  | [] => True
  | [l] => ∃ u, s = u +:+ l
  | p :: ps => ∃ u r, s = u +:+ p +:+ r ∧ tail_match ps r
  end.

Lemma tail_match_cons p ps s :
  ps ≠ [] → tail_match (p :: ps) s ↔ ∃ u r, s = u +:+ p +:+ r ∧ tail_match ps r.
Proof. by destruct ps. Qed.

(** Extra bytes in front of a match do no harm. *)
Lemma tail_match_prepend ps w s : tail_match ps s → tail_match ps (w +:+ s).
Proof.
  destruct ps as [|p [|q ps]]; [done|..].
  - simpl. intros [u ->]. exists (w +:+ u). by rewrite sapp_assoc.
  - rewrite !tail_match_cons by done. intros (u & r & -> & Hm).
    exists (w +:+ u), r. split; [by rewrite <-!sapp_assoc|done].
Qed.

(** Cutting a part at its leftmost occurrence loses no match. *)
Lemma tail_match_leftmost p ps s i :
  ps ≠ [] → Index s p = Some i →
  tail_match (p :: ps) s ↔ tail_match ps (sdrop (i + slen p) s).
Proof.
  intros Hps Hi. apply Index_Some in Hi as (u0 & r0 & -> & Hlen & Hmin).
  rewrite sapp_assoc, <-Hlen, <-slen_app, sdrop_app, <-sapp_assoc.
  rewrite tail_match_cons by done. split.
  - intros (u & r & Heq & Hm). pose proof (Hmin _ _ Heq) as Hle.
    rewrite !sapp_assoc in Heq.
    destruct (sapp_split (u0 +:+ p) r0 (u +:+ p) r Heq) as (w & _ & ->).
    { rewrite !slen_app. lia. }
    by apply tail_match_prepend.
  - intros Hm. by exists u0, r0.
Qed.

(** The middle loop decides the middle parts of [tail_match]. *)
Lemma match_middle_spec ms l s :
  tail_match (ms ++ [l]) s ↔ ∃ r, match_middle ms s = Some r ∧ ∃ u, r = u +:+ l.
Proof.
  revert s. induction ms as [|m ms IH]; intros s; cbn [app match_middle].
  - simpl. naive_solver.
  - assert (ms ++ [l] ≠ []) as Hne by (by destruct ms).
    case_bool_decide as Hm; [subst m|].
    + rewrite <-IH, tail_match_cons by done. split.
      * intros (u & r & -> & Ht). by apply tail_match_prepend.
      * intros Ht. by exists "", s.
    + destruct (Index s m) as [i|] eqn:Hi.
      * rewrite (tail_match_leftmost _ _ _ _ Hne Hi). apply IH.
      * rewrite tail_match_cons by done. split; [|naive_solver].
        intros (u & r & Heq & _). by destruct (Index_None _ _ Hi u r).
Qed.

(** ** Patterns as parts *)

Lemma glob_literal p s : ContainsByte p star = false → glob p s ↔ s = p.
Proof.
  revert s. induction p as [|c p IH]; intros s Hc; simpl in *.
  - split; [by inversion 1|]. intros ->. constructor.
  - apply orb_false_iff in Hc as [Hd Hc]. apply bool_decide_eq_false in Hd. split.
    + inversion 1; subst; [|done]. f_equal. by apply IH.
    + intros ->. constructor; [done|]. by apply IH.
Qed.

Lemma glob_head a q s :
  ContainsByte a star = false →
  glob (a +:+ String star q) s ↔ ∃ u r, s = a +:+ u +:+ r ∧ glob q r.
Proof.
  revert s. induction a as [|c a IH]; intros s Hc; cbn in *.
  - split.
    + inversion 1; subst; [done|]. by eexists _, _.
    + intros (u & r & -> & Hg). exact (glob_star q u r Hg).
  - apply orb_false_iff in Hc as [Hd Hc]. apply bool_decide_eq_false in Hd.
    rewrite sapp_cons. setoid_rewrite sapp_cons. split.
    + inversion 1 as [|c' p' s' Hne Hg|]; subst; [|done].
      apply IH in Hg as (u & r & -> & Hg); [|done]. by exists u, r.
    + intros (u & r & -> & Hg). constructor; [done|]. apply IH; [done|]. by exists u, r.
Qed.

Lemma glob_tail q s : (∃ u r, s = u +:+ r ∧ glob q r) ↔ tail_match (Split q star) s.
Proof.
  remember (slen q) as n eqn:Hn. revert q s Hn.
  induction n as [n IH] using lt_wf_ind; intros q s ->.
  destruct (sep_case q star) as [Hq|(a & b & -> & Ha & Hlen)].
  - rewrite Split_single by done. simpl. split.
    + intros (u & r & -> & ->%glob_literal); eauto.
    + intros [u ->]. exists u, q. split; [done|]. by apply glob_literal.
  - rewrite Split_app, tail_match_cons by (done || apply Split_not_nil).
    setoid_rewrite <-(IH _ Hlen b _ eq_refl). split.
    + intros (u & r & -> & (u' & r' & -> & Hg)%glob_head); [|done].
      exists u, (u' +:+ r'). eauto.
    + intros (u & r & -> & u' & r' & -> & Hg). exists u, (a +:+ u' +:+ r').
      split; [done|]. apply glob_head; eauto.
Qed.

Lemma Split_last_tail a b :
  ∃ ms l, Split b star = ms ++ [l] ∧
    removelast (tail (a :: Split b star)) = ms ∧ last (a :: Split b star) = Some l.
Proof.
  destruct (Split b star) as [|x xs _] eqn:Hs using rev_ind; [by apply Split_not_nil in Hs|].
  exists xs, x. split_and!; [done|simpl; by rewrite removelast_last|].
  by rewrite app_comm_cons, last_snoc.
Qed.

Lemma glob_refl p : glob p p.
Proof.
  induction p as [|c p IH]; [constructor|].
  destruct (decide (c = star)) as [->|]; [|by constructor].
  apply (glob_star p (String star "") p IH).
Qed.

Lemma HasSuffix_or_empty r l :
  bool_decide (l = "") || HasSuffix r l = true ↔ ∃ u, r = u +:+ l.
Proof.
  rewrite orb_true_iff, bool_decide_eq_true, HasSuffix_spec. split; [|naive_solver].
  intros [->|]; [|done]. exists r. by rewrite sapp_nil_r.
Qed.

(** The part of [Match] after the early returns, for a pattern [a*b]. *)
Lemma Match_parts a b v :
  ContainsByte a star = false →
  (∃ r, (if bool_decide (a ≠ "")
         then if HasPrefix v a then Some (sdrop (slen a) v) else None
         else Some v) = Some r ∧ tail_match (Split b star) r) ↔
  glob (a +:+ String star b) v.
Proof.
  intros Ha. rewrite glob_head by done. split.
  - intros (r & Hr & Ht). apply glob_tail in Ht as (u & r' & -> & Hg).
    case_bool_decide as Hne.
    + destruct (HasPrefix v a) eqn:Hp; [|done].
      apply HasPrefix_spec in Hp as [t ->]. rewrite sdrop_app in Hr. simplify_eq. eauto.
    + subst a. simplify_eq. eauto.
  - intros (u & r & -> & Hg). exists (u +:+ r). split.
    + rewrite HasPrefix_app, sdrop_app. case_bool_decide as Hne; [done|].
      by subst a.
    + apply glob_tail. eauto.
Qed.

Lemma Match_glob_iff pattern value : Match pattern value = true ↔ glob pattern value.
Proof.
  unfold Match. destruct (decide (pattern = value)) as [->|Hne].
  { rewrite bool_decide_eq_true_2 by done. split; [intros _; apply glob_refl|done]. }
  rewrite bool_decide_eq_false_2 by done. destruct (decide (pattern = "*")) as [->|Hns].
  - rewrite bool_decide_eq_true_2 by done. split; [intros _|done].
    rewrite <-(sapp_nil_r value). apply (glob_star "" value ""). constructor.
  - rewrite bool_decide_eq_false_2 by done. simpl orb. cbv iota.
    destruct (sep_case pattern star) as [Hc|(a & b & -> & Ha & _)].
    { rewrite Hc. simpl. rewrite glob_literal by done. naive_solver. }
    rewrite ContainsByte_app. cbn [ContainsByte].
    rewrite (bool_decide_eq_true_2 (star = star)), orb_true_r by done. simpl negb. cbv iota.
    rewrite Split_app by done. destruct (Split_last_tail a b) as (ms & l & Hs & -> & ->).
    rewrite <-Match_parts, Hs by done. setoid_rewrite match_middle_spec. simpl head. simpl default.
    setoid_rewrite <-HasSuffix_or_empty.
    destruct (if bool_decide (a ≠ "") then _ else _) as [rest|]; [|naive_solver].
    destruct (match_middle ms rest) eqn:Hm; naive_solver.
Qed.

(** C38: [wildcard.Match] decides exactly the language its comment describes: an asterisk matches
    any byte sequence, including the empty one, and every other byte matches itself.  In
    particular the greedy leftmost search of the middle parts never misses a match. *)
Theorem Match_correct pattern value : Match pattern value = true ↔ glob pattern value.
Proof. apply Match_glob_iff. Qed.

Lemma MatchAny_spec patterns value :
  MatchAny patterns value = true ↔ ∃ p, p ∈ patterns ∧ glob p value.
Proof.
  unfold MatchAny. rewrite existsb_exists. setoid_rewrite Match_glob_iff.
  by setoid_rewrite <-list_elem_of_In.
Qed.

Lemma MatchAny_star patterns value : "*" ∈ patterns → MatchAny patterns value = true.
Proof.
  intros Hin. apply MatchAny_spec. exists "*". split; [done|].
  rewrite <-(sapp_nil_r value). apply (glob_star "" value ""). constructor.
Qed.
