(* ===== verification/Kube.v ===== *)
(** The Kubernetes objects the repository reads ([corev1.Pod], [corev1.Secret]), with the fields
    it uses, and the custom resource of [src/apis/ssh/v1/access_types.go].  Go's typed strings
    stay strings, because the code compares them and handles unknown values; a Go map is a [gmap],
    a nil pointer is [None], and [metav1.Time] is nanoseconds since the zero time (zero is 0). *)

From S2P Require Import Prelude.

Record Pod := mkPod {
  pod_Namespace : string;
  pod_Name : string;
  pod_UID : string;
  pod_Labels : gmap string string;
  pod_Annotations : gmap string string;
  pod_CreationTimestamp : Z;
  pod_DeletionTimestamp : option Z;
  pod_NodeName : string;
  pod_Containers : list string;
  pod_Phase : string;
  pod_HostIP : string;
  pod_Conditions : list (string * string);
}.

Record Secret := mkSecret {
  secret_Data : gmap string string;
}.

(** ** [apis/ssh/v1] *)

Record LocalSecretKeyRef := mkRef {
  ref_Name : string;
  ref_Key : string;
}.

Definition AccessTypePod := "Pod".
Definition AccessTypeExternal := "External".

Record AccessEndpoint := mkEndpoint {
  ep_Name : string;
  ep_Address : string;
  ep_Port : Z;
  ep_Username : string;
  ep_Weight : option Z;
  ep_PrivateKeys : list string;
  ep_PrivateKeysFrom : list LocalSecretKeyRef;
  ep_Passwords : list string;
  ep_PasswordsFrom : list LocalSecretKeyRef;
  ep_PublicKeys : list string;
  ep_PublicKeysFrom : list LocalSecretKeyRef;
  ep_InsecureSkipVerification : bool;
}.

Definition AccessStrategyTypeRandom := "Random".
Definition AccessStrategyTypeRoundRobin := "RoundRobin".
Definition AccessStrategyTypeLeastConnections := "LeastConnections".
Definition AccessStrategyTypeNewest := "Newest".
Definition AccessStrategyTypeOldest := "Oldest".

Record AccessStrategyWeight := mkWeight {
  weight_Selector : gmap string string;
  weight_Weight : Z;
}.

Definition AccessSessionAffinityTypeUser := "User".
Definition AccessSessionAffinityTypeCredential := "Credential".
Definition AccessSessionAffinityTypeSourceIP := "SourceIP".
Definition AccessSessionAffinityTypeSSHUser := "SSHUser".

Record AccessSessionAffinity := mkAffinity {
  aff_Type : string;
  aff_TimeoutSeconds : option Z;
}.

Record AccessStrategy := mkStrategy {
  strat_Type : string;
  strat_Weights : list AccessStrategyWeight;
  strat_SessionAffinity : option AccessSessionAffinity;
}.

(** [EnvAllowlist] distinguishes nil ([None]) from the empty list. *)
Record SessionPolicy := mkSession {
  session_DefaultShell : string;
  session_EnvAllowlist : option (list string);
  session_IdleTimeout : option Z;
  session_MaxDuration : option Z;
}.

Definition CapabilityShell := "shell".
Definition CapabilityExec := "exec".
Definition CapabilitySCP := "scp".
Definition CapabilitySFTP := "sftp".
Definition CapabilityLocalForward := "local_forward".
Definition CapabilityRemoteForward := "remote_forward".
Definition CapabilityAgentForward := "agent_forward".
Definition CapabilitySSHExtension := "ssh_extension".

(** [LocalForward] and [RemoteForward] are pointers to a list of expressions. *)
Record CapabilityPolicy := mkCapabilityPolicy {
  cp_Allow : list string;
  cp_LocalForward : option (list string);
  cp_RemoteForward : option (list string);
}.

Record AccessCredential := mkCredential {
  cred_Username : string;
  cred_UID : string;
  cred_Groups : list string;
  cred_Extra : gmap string (list string);
  cred_Passwords : list string;
  cred_PasswordsFrom : list LocalSecretKeyRef;
  cred_PublicKeys : list string;
  cred_PublicKeysFrom : list LocalSecretKeyRef;
  cred_Containers : list string;
  cred_Capabilities : CapabilityPolicy;
}.

Record AccessSpec := mkSpec {
  spec_GatewayClassName : option string;
  spec_Type : string;
  spec_Selector : gmap string string;
  spec_Endpoints : list AccessEndpoint;
  spec_Strategy : option AccessStrategy;
  spec_Session : option SessionPolicy;
  spec_Containers : list string;
  spec_Credentials : list AccessCredential;
}.

Record AccessStatusEndpoint := mkStatusEndpoint {
  se_Address : string;
  se_Username : string;
}.

(** [metav1.Condition]. *)
Record Condition := mkCondition {
  cond_Type : string;
  cond_Status : string;
  cond_ObservedGeneration : Z;
  cond_LastTransitionTime : Z;
  cond_Reason : string;
  cond_Message : string * list string;
}.

Record AccessStatus := mkStatus {
  st_ObservedGeneration : Z;
  st_Endpoints : list AccessStatusEndpoint;
  st_Conditions : list Condition;
}.

Definition AccessConditionValid := "Valid".
Definition AccessConditionReady := "Ready".

Record Access := mkAccess {
  acc_Namespace : string;
  acc_Name : string;
  acc_UID : string;
  acc_Generation : Z;
  acc_CreationTimestamp : Z;
  acc_Spec : AccessSpec;
  acc_Status : AccessStatus;
}.

#[export] Instance LocalSecretKeyRef_eq_dec : EqDecision LocalSecretKeyRef.
Proof. solve_decision. Defined.
#[export] Instance AccessStatusEndpoint_eq_dec : EqDecision AccessStatusEndpoint.
Proof. solve_decision. Defined.
#[export] Instance Condition_eq_dec : EqDecision Condition.
Proof. solve_decision. Defined.

(** Zero values, for building examples. *)
Definition no_capabilities : CapabilityPolicy := mkCapabilityPolicy [] None None.
Definition empty_spec : AccessSpec := mkSpec None "" ∅ [] None None [] [].
Definition empty_status : AccessStatus := mkStatus 0 [] [].
Definition simple_pod (ns name uid : string) (containers : list string) : Pod :=
  mkPod ns name uid ∅ ∅ 0 None "node-1" containers "Running" "10.0.0.1" [("Ready", "True")].
Definition password_credential (user : string) (passwords : list string) : AccessCredential :=
  mkCredential user "" [] ∅ passwords [] [] [] [] no_capabilities.
Definition pod_access (ns name : string) (creds : list AccessCredential) : Access :=
  mkAccess ns name "uid-1" 1 0
    (mkSpec None AccessTypePod {["app" := "web"]} [] None None [] creds) empty_status.
