(* ===== verification/Target.v ===== *)
(** Models of [src/pkg/target/target.go] (targets, hints, the resolver chain) and of
    [src/pkg/podtarget] (Pod targets: construction, parsing, binding to a live Pod, container
    selection). A resolver is a function from the request and the state it owns to a result and
    the new state. *)

From S2P Require Import Prelude GoStrings Kube.

(** ** [pkg/target] *)

Definition KindPod := "kube".
Definition KindExternalSSH := "ssh".

Record TOption := mkOption { Key : string; Value : string }.

Record Target := mkTarget {
  Kind : string;
  Options : list TOption;
  Runtime : gmap string string;
}.

Record Hint := mkHint {
  hint_Kind : string;
  hint_Options : list TOption;
  hint_Aliases : list string;
}.

Record ResolveInput := mkResolveInput {
  in_SSHUser : string;
  in_UserName : string;
  in_AuthExtra : gmap string (list string);
  in_SourceIP : string;
  in_Hints : list Hint;
}.

#[export] Instance TOption_eq_dec : EqDecision TOption.
Proof. solve_decision. Defined.
#[export] Instance Target_eq_dec : EqDecision Target.
Proof. solve_decision. Defined.

(** [target.Resolver] over the state [S] the resolver mutates. *)
Definition Resolver (S : Type) : Type := ResolveInput → S → result Target * S.

(** [Chain.Resolve]: the first resolver that does not return [ErrNotProvided] decides.
    [lastErr] carries the error of the last resolver that passed. *)
Fixpoint chain_go {S} (c : list (Resolver S)) (lastErr : option error)
    (input : ResolveInput) (s : S) : result Target * S :=
  match c with
  | [] => (Err (default (ESentinel target_ErrNotProvided) lastErr), s)
  | r :: rs =>
      match r input s with
      | (Err e, s') => if errors_Is e target_ErrNotProvided
                       then chain_go rs (Some e) input s' else (Err e, s')
      | (Ok tgt, s') => (Ok tgt, s')
      end
  end.
Definition Chain_Resolve {S} (c : list (Resolver S)) : Resolver S := chain_go c None.

Fixpoint check_hint_options (kind : string) (options : list TOption) : result unit :=
  match options with
  | [] => Ok tt
  | o :: os =>
      if bool_decide (Key o = "") || bool_decide (Value o = "")
      then Err (EStatus BadRequest "target hint option requires key and value" [])
      else check_hint_options kind os
  end.

Definition newTargetFromHint (hint : Hint) : result Target :=
  if bool_decide (hint_Kind hint = "")
  then Err (EStatus BadRequest "target hint kind is required" [])
  else check_hint_options (hint_Kind hint) (hint_Options hint) ≫= fun _ =>
    if bool_decide (length (hint_Options hint) = 0)
    then Err (EStatus BadRequest "target hint %q requires options" [hint_Kind hint])
    else Ok (mkTarget (hint_Kind hint) (hint_Options hint) ∅).

(** [HintResolver.Resolve]. *)
Definition HintResolver_Resolve (input : ResolveInput) : result Target :=
  match in_Hints input with
  | [] => Err (ESentinel target_ErrNotProvided)
  | h :: hs =>
      let alias :=
        if bool_decide (in_SSHUser input ≠ "")
        then find_first (fun h => slices_Contains (hint_Aliases h) (in_SSHUser input)) (h :: hs)
        else None in
      match alias with
      | Some hint => newTargetFromHint hint
      | None =>
          match hs with
          | [] => newTargetFromHint h
          | _ => Err (EStatus BadRequest
                   "target alias %q did not match any authentication target hint"
                   [in_SSHUser input])
          end
      end
  end.

(** [Target.Option]: the first option with the key, or the empty string. *)
Definition options_get (options : list TOption) (key : string) : string :=
  default "" (Value <$> find_first (fun o => bool_decide (Key o = key)) options).
Definition Target_Option (t : Target) (key : string) : string := options_get (Options t) key.

(** [Target.String]. *)
Definition Target_String (t : Target) : string :=
  foldl (fun path o => path +:+ "/" +:+ Key o +:+ "/" +:+ Value o) (Kind t) (Options t).

(** ** [pkg/podtarget] *)

Definition OptionNamespaces := "namespaces".
Definition OptionPods := "pods".
Definition OptionContainers := "containers".
Definition runtimePodUID := "pod.uid".
Definition runtimeNodeName := "pod.nodeName".
Definition runtimeHostIP := "pod.hostIP".

(** [podtarget.New]. *)
Definition New (namespace pod container : string) : Target :=
  let options := [mkOption OptionNamespaces namespace; mkOption OptionPods pod] in
  let options := if bool_decide (container ≠ "")
                 then options ++ [mkOption OptionContainers container] else options in
  mkTarget KindPod options ∅.

(** [podtarget.bind]: the runtime identity of the live Pod. *)
Definition bind_runtime (pod : Pod) : gmap string string :=
  <[runtimePodUID := pod_UID pod]>
    (<[runtimeNodeName := pod_NodeName pod]> {[runtimeHostIP := pod_HostIP pod]}).
Definition bind (tgt : Target) (pod : Pod) : Target :=
  mkTarget (Kind tgt) (Options tgt) (bind_runtime pod).

Definition Bind (pod : Pod) (container : string) : Target :=
  bind (New (pod_Namespace pod) (pod_Name pod) container) pod.

Record Reference := mkReference {
  r_Namespace : string; r_Pod : string; r_Container : string;
}.

(** [podtarget.Parse]; [None] is the nil target. *)
Definition Parse (tgt : option Target) : result Reference :=
  match tgt with
  | None => Err (EStatus BadRequest "target is not specified" [])
  | Some tgt =>
      if bool_decide (Kind tgt ≠ KindPod)
      then Err (EStatus BadRequest "unsupported target kind %q" [Kind tgt])
      else
        let namespace := Target_Option tgt OptionNamespaces in
        let pod := Target_Option tgt OptionPods in
        if bool_decide (namespace = "") || bool_decide (pod = "")
        then Err (EStatus BadRequest "Pod target requires %q and %q options"
                    [OptionNamespaces; OptionPods])
        else Ok (mkReference namespace pod (Target_Option tgt OptionContainers))
  end.

Record Binding := mkBinding { b_UID : string; b_NodeName : string; b_HostIP : string }.

(** [podtarget.BoundIdentity]: a missing key of the Go map reads as the empty string. *)
Definition BoundIdentity (tgt : Target) : Binding :=
  mkBinding (default "" (Runtime tgt !! runtimePodUID))
            (default "" (Runtime tgt !! runtimeNodeName))
            (default "" (Runtime tgt !! runtimeHostIP)).

(** [UsernameResolver.Resolve]. *)
Definition UsernameResolver_Resolve (input : ResolveInput) : result Target :=
  let username := in_SSHUser input in
  if negb (ContainsByte username ".") then Err (ESentinel target_ErrNotProvided)
  else match Split username "." with
       | [ns; pod] =>
           if bool_decide (ns = "") || bool_decide (pod = "")
           then Err (EStatus BadRequest "invalid target %q: namespace and pod are required" [username])
           else Ok (New ns pod "")
       | [ns; pod; container] =>
           if bool_decide (ns = "") || bool_decide (pod = "") || bool_decide (container = "")
           then Err (EStatus BadRequest
                  "invalid target %q: namespace, pod, and container are required" [username])
           else Ok (New ns pod container)
       | _ => Err (EStatus BadRequest
                "invalid target %q: expected namespace.pod or namespace.pod.container" [username])
       end.

(** [ResolveContainer]: the container and the Pod's default container. *)
Definition defaultContainerOf (pod : Pod) : string :=
  let d := default "" (pod_Annotations pod !! "kubectl.kubernetes.io/default-container") in
  if bool_decide (d = "") then default "" (head (pod_Containers pod)) else d.

Definition ResolveContainer (pod : Pod) (requested : string) : result (string * string) :=
  let defaultContainer := defaultContainerOf pod in
  let container := if bool_decide (requested = "") then defaultContainer else requested in
  if bool_decide (container = "")
  then Err (EStatus BadRequest "pod %s/%s has no regular containers" [pod_Namespace pod; pod_Name pod])
  else if slices_Contains (pod_Containers pod) container
  then Ok (container, defaultContainer)
  else Err (EStatus BadRequest "pod %s/%s has no regular container %q"
              [pod_Namespace pod; pod_Name pod; container]).

Definition ContainerAllowed (mode : string) (explicit : bool) (container defaultContainer : string)
    : bool :=
  if bool_decide (mode = "") || bool_decide (mode = "All") then true
  else if bool_decide (mode = "KubernetesDefault")
  then negb explicit || bool_decide (container = defaultContainer)
  else false.

(** [BindingResolver.Resolve] around an inner resolver, with the Pod lookup as a parameter. *)
Section Binding.
Context {S : Type} (inner : Resolver S).
Context (pods_Get : string → string → result Pod).
Context (defaultMode limitMode : string).

Definition BindingResolver_Resolve : Resolver S := fun input s =>
  match inner input s with
  | (Err e, s') => (Err e, s')
  | (Ok tgt, s') =>
      if bool_decide (Kind tgt ≠ KindPod) then (Ok tgt, s')
      else if bool_decide (b_UID (BoundIdentity tgt) ≠ "") then (Ok tgt, s')
      else
        (podTarget ← Parse (Some tgt);
         pod ← match pods_Get (r_Namespace podTarget) (r_Pod podTarget) with
               | Ok pod => Ok pod
               | Err e => Err (Wrapf "get target pod %s/%s: %w"
                                 [r_Namespace podTarget; r_Pod podTarget] e)
               end;
         let explicit := bool_decide (r_Container podTarget ≠ "") in
         '(container, defaultContainer) ← ResolveContainer pod (r_Container podTarget);
         if negb (ContainerAllowed defaultMode explicit container defaultContainer) ||
            negb (ContainerAllowed limitMode explicit container defaultContainer)
         then Err (EStatus Forbidden "container %q is not allowed by global policy" [container])
         else
           let options := if explicit then Options tgt
                          else Options tgt ++ [mkOption OptionContainers container] in
           Ok (bind (mkTarget (Kind tgt) options (Runtime tgt)) pod), s')
  end.
End Binding.

(** ** Lemmas *)

Lemma check_hint_options_Ok k os u :
  check_hint_options k os = Ok u ↔ u = tt ∧ Forall (fun o => Key o ≠ "" ∧ Value o ≠ "") os.
Proof.
  induction os as [|o os IH]; simpl.
  - split; [intros [= <-]; by split|intros [-> _]; done].
  - rewrite Forall_cons. repeat case_bool_decide; simpl; rewrite ?IH; naive_solver.
Qed.

Lemma newTargetFromHint_Ok h t :
  newTargetFromHint h = Ok t ↔
  hint_Kind h ≠ "" ∧ hint_Options h ≠ [] ∧
  Forall (fun o => Key o ≠ "" ∧ Value o ≠ "") (hint_Options h) ∧
  t = mkTarget (hint_Kind h) (hint_Options h) ∅.
Proof.
  unfold newTargetFromHint. case_bool_decide; [naive_solver|].
  rewrite result_bind_Ok. setoid_rewrite check_hint_options_Ok.
  destruct (hint_Options h); simpl; repeat case_bool_decide; naive_solver.
Qed.

Lemma options_get_New ns pod c :
  Target_Option (New ns pod c) OptionNamespaces = ns ∧
  Target_Option (New ns pod c) OptionPods = pod ∧
  Target_Option (New ns pod c) OptionContainers = c.
Proof.
  unfold New, Target_Option, options_get. case_bool_decide; simpl; [done|].
  by subst c.
Qed.

Lemma ResolveContainer_Ok pod req c d :
  ResolveContainer pod req = Ok (c, d) ↔
  c ≠ "" ∧ c ∈ pod_Containers pod ∧ d = defaultContainerOf pod ∧
  c = (if bool_decide (req = "") then d else req).
Proof.
  unfold ResolveContainer. split.
  - intros H. repeat case_hyp H; simplify_eq; breflect; by split_and!.
  - intros (Hne & Hin & -> & Heq). subst c.
    rewrite (bool_decide_eq_false_2 (_ = "")) by done.
    apply slices_Contains_spec in Hin. by rewrite Hin.
Qed.

Lemma ContainerAllowed_spec mode explicit c d :
  ContainerAllowed mode explicit c d = true ↔
  mode = "" ∨ mode = "All" ∨ (mode = "KubernetesDefault" ∧ (explicit = false ∨ c = d)).
Proof.
  unfold ContainerAllowed. destruct explicit; repeat case_bool_decide; simpl; naive_solver.
Qed.

Lemma BoundIdentity_bind t pod :
  BoundIdentity (bind t pod) = mkBinding (pod_UID pod) (pod_NodeName pod) (pod_HostIP pod).
Proof. done. Qed.

Lemma Parse_Ok t ref :
  Parse (Some t) = Ok ref ↔
  Kind t = KindPod ∧ Target_Option t OptionNamespaces ≠ "" ∧ Target_Option t OptionPods ≠ "" ∧
  ref = mkReference (Target_Option t OptionNamespaces) (Target_Option t OptionPods)
          (Target_Option t OptionContainers).
Proof. unfold Parse. repeat case_bool_decide; simpl; naive_solver. Qed.

(** Parsing recovers what construction was given. *)
Lemma Parse_New_Ok ns pod c :
  ns ≠ "" → pod ≠ "" → Parse (Some (New ns pod c)) = Ok (mkReference ns pod c).
Proof.
  intros Hns Hpod. unfold Parse. destruct (options_get_New ns pod c) as (-> & -> & ->).
  simpl. by rewrite !bool_decide_eq_false_2.
Qed.

Lemma options_get_cons o l k :
  options_get (o :: l) k = if bool_decide (Key o = k) then Value o else options_get l k.
Proof.
  unfold options_get, find_first. cbn [find_index].
  destruct (bool_decide (Key o = k)); [done|]. by destruct (find_index _ l) as [[]|].
Qed.

Lemma options_get_app l1 l2 k :
  Forall (fun o => Value o ≠ "") l1 →
  options_get (l1 ++ l2) k =
  if bool_decide (options_get l1 k = "") then options_get l2 k else options_get l1 k.
Proof.
  induction 1 as [|o l1 Ho Hl IH]; [done|].
  rewrite <-app_comm_cons, !options_get_cons, IH. destruct (bool_decide (Key o = k)); [|done].
  by rewrite bool_decide_eq_false_2.
Qed.

(** ** Properties *)

(** The first resolver of a chain that has an opinion: every earlier one returned an error that
    wraps [ErrNotProvided], and the state is threaded through all of them. *)
Inductive chain_decides {S} (input : ResolveInput) :
    list (Resolver S) → S → result Target → S → Prop :=
| decides_here r rs s res s' :
    r input s = (res, s') →
    (∀ e, res = Err e → errors_Is e target_ErrNotProvided = false) →
    chain_decides input (r :: rs) s res s'
| decides_later r rs s e s1 res s' :
    r input s = (Err e, s1) → errors_Is e target_ErrNotProvided = true →
    chain_decides input rs s1 res s' →
    chain_decides input (r :: rs) s res s'.

Lemma chain_go_decides {S} (c : list (Resolver S)) last input s res s' :
  chain_decides input c s res s' → chain_go c last input s = (res, s').
Proof.
  intros Hd. revert last. induction Hd as [r rs s res s' Hr Hne|r rs s e s1 res s' Hr He _ IH];
    intros last; simpl; rewrite Hr.
  - destruct res as [t|e]; [done|]. by rewrite (Hne e eq_refl).
  - rewrite He. apply IH.
Qed.

Lemma chain_go_passes {S} (c : list (Resolver S)) last input s res s' :
  (∀ e, last = Some e → errors_Is e target_ErrNotProvided = true) →
  chain_go c last input s = (res, s') →
  chain_decides input c s res s' ∨
  ∃ e, res = Err e ∧ errors_Is e target_ErrNotProvided = true.
Proof.
  revert last s. induction c as [|r rs IH]; intros last s Hlast; simpl.
  - intros [= <- <-]. right. eexists. split; [done|].
    destruct last; simpl; [by apply Hlast|done].
  - destruct (r input s) as [[t|e] s1] eqn:Hr.
    + intros [= <- <-]. left. eapply decides_here; [done|naive_solver].
    + destruct (errors_Is e target_ErrNotProvided) eqn:He.
      * intros Hgo. apply IH in Hgo as [Hd|?]; [|by right|naive_solver].
        left. by eapply decides_later.
      * intros [= <- <-]. left. eapply decides_here; [done|naive_solver].
Qed.

(** [target.Chain] returns the outcome of the first resolver that decides (an error other
    than [ErrNotProvided] stops the chain), and an [ErrNotProvided] error exactly when every
    resolver passes. *)
Theorem Chain_Resolve_first_decision {S} (c : list (Resolver S)) input s res s' :
  Chain_Resolve c input s = (res, s') →
  if match res with Err e => errors_Is e target_ErrNotProvided | Ok _ => false end
  then ¬ ∃ r s2, chain_decides input c s r s2
  else chain_decides input c s res s'.
Proof.
  unfold Chain_Resolve. intros Hgo.
  destruct (match res with Err e => _ | Ok _ => _ end) eqn:Hnp.
  - intros (r & s2 & Hd). pose proof (chain_go_decides _ None _ _ _ _ Hd) as Heq.
    rewrite Hgo in Heq. simplify_eq. destruct r as [t|e]; [done|].
    clear Hgo. remember (Err e) as res eqn:Hres.
    induction Hd as [r rs s res s' Hr Hne|]; subst; [|auto].
    rewrite (Hne e eq_refl) in Hnp. done.
  - apply chain_go_passes in Hgo as [?|(e & -> & ?)]; [done|congruence|done].
Qed.

Definition witness_input : ResolveInput := mkResolveInput "default.web" "alice" ∅ "" [].

Lemma Chain_Resolve_first_decision_witness :
  chain_decides witness_input
    [fun i s => (HintResolver_Resolve i, s); fun i s => (UsernameResolver_Resolve i, s)]
    tt (Ok (New "default" "web" "")) tt.
Proof.
  exact (Chain_Resolve_first_decision
    [fun i s => (HintResolver_Resolve i, s); fun i s => (UsernameResolver_Resolve i, s)]
    witness_input tt (Ok (New "default" "web" "")) tt eq_refl).
Defined.

Lemma Split_three a b c :
  ContainsByte a "." = false → ContainsByte b "." = false → ContainsByte c "." = false →
  Split (a +:+ "." +:+ b +:+ "." +:+ c) "." = [a; b; c].
Proof.
  intros Ha Hb Hc. change ("." +:+ c) with (String "." c).
  change ("." +:+ b +:+ String "." c) with (String "." (b +:+ String "." c)).
  by rewrite !Split_app, Split_single.
Qed.

(** The SSH user name [namespace.pod.container] round-trips through the direct resolver:
    for non-empty parts without dots it resolves to a Pod target from which [Parse] reads back
    exactly the three parts. *)
Theorem username_roundtrip ns pod container input :
  ns ≠ "" → pod ≠ "" → container ≠ "" →
  ContainsByte ns "." = false → ContainsByte pod "." = false → ContainsByte container "." = false →
  in_SSHUser input = ns +:+ "." +:+ pod +:+ "." +:+ container →
  UsernameResolver_Resolve input ≫= (fun t => Parse (Some t)) =
  Ok (mkReference ns pod container).
Proof.
  intros Hn Hp Hc Dn Dp Dc Hu. unfold UsernameResolver_Resolve. rewrite Hu.
  rewrite ContainsByte_app, Split_three by done. cbn [ContainsByte].
  replace (ContainsByte ("." +:+ pod +:+ "." +:+ container) ".") with true by
    (by rewrite ContainsByte_app).
  rewrite orb_true_r. simpl negb. cbv iota.
  rewrite !bool_decide_eq_false_2 by done. simpl. by apply Parse_New_Ok.
Qed.

Lemma username_roundtrip_witness :
  UsernameResolver_Resolve (mkResolveInput "default.web-0.app" "" ∅ "" []) ≫=
    (fun t => Parse (Some t)) = Ok (mkReference "default" "web-0" "app").
Proof. apply username_roundtrip; (done || reflexivity). Defined.

(** Whatever the inner resolver, a Pod target that [BindingResolver] returns is either one
    the inner resolver had already bound to a Pod UID (returned unchanged), or names a Pod the API
    returned, carries that Pod's UID, node and host IP, and its container exists in the Pod and is
    permitted by both the default and the limit mode. *)
Theorem BindingResolver_bound {S} (inner : Resolver S) get dmode lmode input s tgt s' :
  BindingResolver_Resolve inner get dmode lmode input s = (Ok tgt, s') →
  Kind tgt = KindPod →
  (∀ t s1, inner input s = (Ok t, s1) → Forall (fun o => Value o ≠ "") (Options t)) →
  (inner input s = (Ok tgt, s') ∧ b_UID (BoundIdentity tgt) ≠ "") ∨
  ∃ ns name c pod d explicit,
    get ns name = Ok pod ∧ Parse (Some tgt) = Ok (mkReference ns name c) ∧
    BoundIdentity tgt = mkBinding (pod_UID pod) (pod_NodeName pod) (pod_HostIP pod) ∧
    c ∈ pod_Containers pod ∧ d = defaultContainerOf pod ∧ (explicit = false → c = d) ∧
    ContainerAllowed dmode explicit c d = true ∧ ContainerAllowed lmode explicit c d = true.
Proof.
  unfold BindingResolver_Resolve. intros Hres Hkind Hopts.
  destruct (inner input s) as [[t|e] s1] eqn:Hin; [|done].
  specialize (Hopts t s1 eq_refl).
  case_bool_decide; [naive_solver|]. case_bool_decide; [naive_solver|]. right.
  injection Hres as Hres Hs. apply result_bind_Ok in Hres as (ref & Hparse & Hres).
  apply result_bind_Ok in Hres as (pod & Hget & Hres).
  destruct (get (r_Namespace ref) (r_Pod ref)) as [pod'|] eqn:Hg; [|done].
  injection Hget as ->. apply result_bind_Ok in Hres as ([c d] & Hc & Hres).
  apply ResolveContainer_Ok in Hc as (Hne & Hmem & Hd & Hceq).
  destruct (negb _ || negb _) eqn:Hallow; [done|]. breflect. injection Hres as <-.
  exists (r_Namespace ref), (r_Pod ref), c, pod, d, (bool_decide (r_Container ref ≠ "")).
  apply Parse_Ok in Hparse as (Hk & Hns & Hpod & ->).
  cbn [r_Namespace r_Pod r_Container] in *.
  unfold Target_Option in *. split_and!; try done.
  - apply Parse_Ok. unfold Target_Option. cbn [bind Kind Options]. split; [done|].
    case_bool_decide as Hexp.
    + rewrite bool_decide_eq_false_2 in Hceq by done. by subst c.
    + rewrite !options_get_app, !options_get_cons by done. simpl.
      by rewrite Hexp, !(bool_decide_eq_false_2 (options_get _ _ = "")) by done.
  - intros Hexp. case_bool_decide; [done|]. by rewrite bool_decide_eq_true_2 in Hceq.
Qed.

Definition witness_pod : Pod := simple_pod "default" "web" "u-1" ["app"; "side"].

Lemma BindingResolver_bound_witness :
  ∃ tgt, BindingResolver_Resolve (fun i s => (UsernameResolver_Resolve i, s))
           (fun _ _ => Ok witness_pod) "KubernetesDefault" "All" witness_input tt = (Ok tgt, tt) ∧
  ∃ ns name c pod d explicit,
    Ok witness_pod = Ok pod ∧ Parse (Some tgt) = Ok (mkReference ns name c) ∧
    BoundIdentity tgt = mkBinding (pod_UID pod) (pod_NodeName pod) (pod_HostIP pod) ∧
    c ∈ pod_Containers pod ∧ d = defaultContainerOf pod ∧ (explicit = false → c = d) ∧
    ContainerAllowed "KubernetesDefault" explicit c d = true ∧
    ContainerAllowed "All" explicit c d = true.
Proof.
  eexists. split; [reflexivity|].
  assert (∀ t s1, (UsernameResolver_Resolve witness_input, tt) = (Ok t, s1) →
            Forall (fun o => Value o ≠ "") (Options t)) as Hopts.
  { intros t s1 [= <- <-]. repeat constructor; done. }
  destruct (BindingResolver_bound (fun i s => (UsernameResolver_Resolve i, s))
    (fun _ _ => Ok witness_pod) "KubernetesDefault" "All" witness_input tt _ tt
    eq_refl eq_refl Hopts) as [[H _]|H]; [discriminate H|exact H].
Defined.
