(* ===== verification/Strategy.v ===== *)
(** Model of [src/pkg/accesspolicy/strategy.go]: the target selection state shared by every
    connection (round-robin counters, live connection counts, session affinity) and the selection
    algorithms.  [time.Now()] and [rand.Intn] are arguments of each call; the mutex makes each
    operation one step.  A [release] closure is an index into [releases], the heap of closures
    handed out so far, each with the connection key it captured and the state of its
    [sync.Once]. *)

From S2P Require Import Prelude GoStrings Kube Target.
Local Open Scope Z_scope.

Record affinityEntry := mkAffinityEntry { ae_targetKey : string; ae_expiresAt : Z }.

Record strategySelector := mkSelector {
  roundRobin : gmap string Z;
  connections : gmap string Z;
  affinity : gmap string affinityEntry;
  releases : list (string * bool);
}.

Record targetCandidate := mkCandidate { tc_key : string; tc_weight : Z; tc_createdAt : Z }.

(** [targetSelection]: the index and the handle of the release closure. *)
Record targetSelection := mkTargetSelection { ts_index : nat; ts_release : nat }.

Definition newStrategySelector : strategySelector := mkSelector ∅ ∅ ∅ [].

Definition set_roundRobin (s : strategySelector) m :=
  mkSelector m (connections s) (affinity s) (releases s).
Definition set_connections (s : strategySelector) m :=
  mkSelector (roundRobin s) m (affinity s) (releases s).
Definition set_affinity (s : strategySelector) m :=
  mkSelector (roundRobin s) (connections s) m (releases s).
Definition set_releases (s : strategySelector) l :=
  mkSelector (roundRobin s) (connections s) (affinity s) l.

(** Reading a Go map of integers: a missing key is zero. *)
Definition zget (m : gmap string Z) (k : string) : Z := default 0 (m !! k).

(** ** Keys *)

Definition accessKey (namespace name : string) : string := namespace +:+ "/" +:+ name.
Definition NUL : string := String "000"%char "".
Definition targetConnectionKey (accessKeyValue targetKey : string) : string :=
  accessKeyValue +:+ NUL +:+ targetKey.
Definition podTargetKey (namespace : string) (pod : Pod) : string :=
  (if bool_decide (pod_Namespace pod ≠ "") then pod_Namespace pod else namespace)
    +:+ "/" +:+ pod_Name pod.

(** [GetExtra] and the identity keys of [context.go]. *)
Definition GetExtra (extra : gmap string (list string)) (key : string) : string :=
  default "" (head (default [] (extra !! key))).
Definition ExtraAccessNamespace := "kube-ssh/access.namespace".
Definition ExtraAccessName := "kube-ssh/access.name".
Definition ExtraCredentialUser := "kube-ssh/access.credential.username".
Definition ExtraCredentialType := "kube-ssh/access.credential.type".

Definition accessAffinityKey (access : Access) (req : ResolveInput) : string :=
  match spec_Strategy (acc_Spec access) with
  | None => ""
  | Some strategy =>
      match strat_SessionAffinity strategy with
      | None => ""
      | Some aff =>
          let t := aff_Type aff in
          let value :=
            if bool_decide (t = AccessSessionAffinityTypeUser) then Some (in_UserName req)
            else if bool_decide (t = AccessSessionAffinityTypeCredential)
            then Some (GetExtra (in_AuthExtra req) ExtraCredentialUser)
            else if bool_decide (t = AccessSessionAffinityTypeSourceIP) then Some (in_SourceIP req)
            else if bool_decide (t = AccessSessionAffinityTypeSSHUser) || bool_decide (t = "")
            then Some (in_SSHUser req)
            else None in
          match value with
          | None => ""
          | Some value =>
              if bool_decide (value = "") then ""
              else accessKey (acc_Namespace access) (acc_Name access) +:+ NUL +:+ t
                     +:+ NUL +:+ value
          end
      end
  end.

Definition time_Second : Z := 1000000000.
Definition defaultAffinityTimeout : Z := 3600 * time_Second.

Definition affinityTimeout (access : Access) : Z :=
  match (strategy ← spec_Strategy (acc_Spec access);
         aff ← strat_SessionAffinity strategy; aff_TimeoutSeconds aff) with
  | None => defaultAffinityTimeout
  | Some seconds => seconds * time_Second
  end.

(** ** Weights and strategies *)

Section Weights.
(** [labels.SelectorFromSet(selector).Matches(labels.Set(values))] of the Kubernetes library. *)
Context (labels_Matches : gmap string string → gmap string string → bool).

Definition selectorMatches (selector values : gmap string string) : bool :=
  if bool_decide (size selector = 0%nat) then true else labels_Matches selector values.

Definition podWeight (access : Access) (pod : Pod) : Z :=
  match spec_Strategy (acc_Spec access) with
  | None => 1
  | Some strategy =>
      match find_first (fun w => selectorMatches (weight_Selector w) (pod_Labels pod))
              (strat_Weights strategy) with
      | Some w => if bool_decide (weight_Weight w > 0) then weight_Weight w else 1
      | None => 1
      end
  end.
End Weights.

Definition endpointWeight (endpoint : AccessEndpoint) : Z := default 1 (ep_Weight endpoint).

Definition strategyType (access : Access) : string :=
  match spec_Strategy (acc_Spec access) with
  | None => AccessStrategyTypeRandom
  | Some strategy => if bool_decide (strat_Type strategy = "") then AccessStrategyTypeRandom
                     else strat_Type strategy
  end.

Definition endpointStrategyType (access : Access) : string :=
  let strategy := strategyType access in
  if bool_decide (strategy = AccessStrategyTypeRoundRobin) ||
     bool_decide (strategy = AccessStrategyTypeLeastConnections)
  then strategy else AccessStrategyTypeRandom.

(** ** Candidate choice *)

(** A weight is an [int32] of the resource and the sum a Go [int]: on a 64-bit platform it could only
    wrap with more than [2 ^ 32] candidates. *)
Definition totalCandidateWeight (candidates : list targetCandidate) : Z :=
  foldl (fun total c => total + tc_weight c) 0 candidates.

Fixpoint weighted_go (i : nat) (candidates : list targetCandidate) (weightIndex : Z) : nat :=
  match candidates with
  | [] => 0%nat
  | c :: cs => if bool_decide (weightIndex < tc_weight c) then i
               else weighted_go (S i) cs (weightIndex - tc_weight c)
  end.
Definition weightedCandidateIndex (candidates : list targetCandidate) (weightIndex : Z) : nat :=
  weighted_go 0 candidates weightIndex.

(** Go's [%] panics on zero and truncates towards zero. *)
Definition roundRobinCandidateIndex (s : strategySelector) (key : string)
    (candidates : list targetCandidate) : result nat * strategySelector :=
  let total := totalCandidateWeight candidates in
  if bool_decide (total = 0) then (Err (EPanic "integer divide by zero"), s)
  else
    let index := Z.rem (zget (roundRobin s) key) total in
    (Ok (weightedCandidateIndex candidates index),
     set_roundRobin s (<[key := wrap64 (zget (roundRobin s) key + 1)]> (roundRobin s))).

Definition randomCandidateIndex (rand_Intn : Z → Z) (candidates : list targetCandidate)
    : result nat :=
  let total := totalCandidateWeight candidates in
  if bool_decide (total ≤ 0) then Err (EPanic "invalid argument to Intn")
  else Ok (weightedCandidateIndex candidates (rand_Intn total)).

(** The loops [for i := 1; i < len(candidates); i++]: [better c best] is the loop's test. *)
Fixpoint best_go (better : targetCandidate → targetCandidate → bool)
    (i : nat) (best : nat * targetCandidate) (rest : list targetCandidate) : nat :=
  match rest with
  | [] => fst best
  | c :: cs => best_go better (S i) (if better c (snd best) then (i, c) else best) cs
  end.
Definition bestCandidateIndex better (candidates : list targetCandidate) : nat :=
  match candidates with
  | [] => 0%nat
  | c :: cs => best_go better 1 (0%nat, c) cs
  end.

Definition string_lt (a b : string) : bool := Stdlib.Strings.String.ltb a b.

Definition lc_better (conns : targetCandidate → Z) (c best : targetCandidate) : bool :=
  let left := wrap64 (conns c * tc_weight best) in
  let right := wrap64 (conns best * tc_weight c) in
  bool_decide (left < right) || (bool_decide (left = right) && string_lt (tc_key c) (tc_key best)).
Definition leastConnectionsCandidateIndex (s : strategySelector) (accessKeyValue : string)
    (candidates : list targetCandidate) : nat :=
  bestCandidateIndex
    (lc_better (fun c => zget (connections s) (targetConnectionKey accessKeyValue (tc_key c))))
    candidates.

Definition newest_better (c best : targetCandidate) : bool :=
  bool_decide (tc_createdAt best < tc_createdAt c) ||
  (bool_decide (tc_createdAt c = tc_createdAt best) && string_lt (tc_key c) (tc_key best)).
Definition newestCandidateIndex (candidates : list targetCandidate) : nat :=
  bestCandidateIndex newest_better candidates.

Definition oldest_better (c best : targetCandidate) : bool :=
  bool_decide (tc_createdAt c < tc_createdAt best) ||
  (bool_decide (tc_createdAt c = tc_createdAt best) && string_lt (tc_key c) (tc_key best)).
Definition oldestCandidateIndex (candidates : list targetCandidate) : nat :=
  bestCandidateIndex oldest_better candidates.

(** ** Affinity, tracking and release *)

Definition affinityCandidateIndex (s : strategySelector) (affinityKey : string)
    (candidates : list targetCandidate) (now : Z) : option nat * strategySelector :=
  if bool_decide (affinityKey = "") then (None, s)
  else match affinity s !! affinityKey with
       | None => (None, s)
       | Some entry =>
           if bool_decide (ae_expiresAt entry ≠ 0) && bool_decide (ae_expiresAt entry < now)
           then (None, set_affinity s (delete affinityKey (affinity s)))
           else match find_index (fun c => bool_decide (tc_key c = ae_targetKey entry)) candidates with
                | Some (i, _) => (Some i, s)
                | None => (None, set_affinity s (delete affinityKey (affinity s)))
                end
       end.

Definition trackTargetLocked (s : strategySelector) (accessKeyValue targetKey : string)
    (index : nat) : targetSelection * strategySelector :=
  let connectionKey := targetConnectionKey accessKeyValue targetKey in
  let s := set_connections s
             (<[connectionKey := zget (connections s) connectionKey + 1]> (connections s)) in
  (mkTargetSelection index (length (releases s)),
   set_releases s (releases s ++ [(connectionKey, false)])).

(** Calling a release closure: [once.Do] runs the body the first time only. *)
Definition release (s : strategySelector) (handle : nat) : strategySelector :=
  match releases s !! handle with
  | Some (connectionKey, false) =>
      let s := set_releases s (<[handle := (connectionKey, true)]> (releases s)) in
      if bool_decide (connections s !! connectionKey = Some 1)
      then set_connections s (delete connectionKey (connections s))
      else set_connections s
             (<[connectionKey := zget (connections s) connectionKey - 1]> (connections s))
  | _ => s
  end.

Section Select.
Context (now : Z) (rand_Intn : Z → Z).

(** The [switch strategy] of [selectTarget]. *)
Definition strategyIndex (s : strategySelector) (accessKeyValue : string)
    (candidates : list targetCandidate) (strategy : string) : result nat * strategySelector :=
  if bool_decide (strategy = AccessStrategyTypeRoundRobin)
  then roundRobinCandidateIndex s accessKeyValue candidates
  else if bool_decide (strategy = AccessStrategyTypeLeastConnections)
  then (Ok (leastConnectionsCandidateIndex s accessKeyValue candidates), s)
  else if bool_decide (strategy = AccessStrategyTypeNewest)
  then (Ok (newestCandidateIndex candidates), s)
  else if bool_decide (strategy = AccessStrategyTypeOldest)
  then (Ok (oldestCandidateIndex candidates), s)
  else (randomCandidateIndex rand_Intn candidates, s).

Definition selectTarget (s : strategySelector) (access : Access) (req : ResolveInput)
    (candidates : list targetCandidate) (strategy : string)
    : result targetSelection * strategySelector :=
  let accessKeyValue := accessKey (acc_Namespace access) (acc_Name access) in
  let affinityKey := accessAffinityKey access req in
  match affinityCandidateIndex s affinityKey candidates now with
  | (Some index, s) =>
      let '(sel, s) := trackTargetLocked s accessKeyValue
                         (default "" (tc_key <$> candidates !! index)) index in
      (Ok sel, s)
  | (None, s) =>
      match strategyIndex s accessKeyValue candidates strategy with
      | (Err e, s) => (Err e, s)
      | (Ok index, s) =>
          match candidates !! index with
          | None => (Err (EPanic "index out of range"), s)
          | Some c =>
              let s := if bool_decide (affinityKey ≠ "")
                       then set_affinity s
                              (<[affinityKey := mkAffinityEntry (tc_key c)
                                                  (now + affinityTimeout access)]> (affinity s))
                       else s in
              let '(sel, s) := trackTargetLocked s accessKeyValue (tc_key c) index in
              (Ok sel, s)
          end
      end
  end.
End Select.

(** ** Pods and endpoints *)

Definition activePod (pod : Pod) : bool :=
  negb (bool_decide (is_Some (pod_DeletionTimestamp pod)) ||
        bool_decide (pod_Phase pod = "Succeeded") || bool_decide (pod_Phase pod = "Failed")).

Definition podReady (pod : Pod) : bool :=
  existsb (fun c => bool_decide (c.1 = "Ready") && bool_decide (c.2 = "True")) (pod_Conditions pod).

(** The [less] of [sortPods], and the order it induces. *)
Definition podLess (p q : Pod) : bool :=
  if bool_decide (pod_Namespace p ≠ pod_Namespace q)
  then string_lt (pod_Namespace p) (pod_Namespace q)
  else string_lt (pod_Name p) (pod_Name q).
Definition podLe (p q : Pod) : Prop := podLess q p = false.
#[export] Instance podLe_dec : RelDecision podLe.
Proof. intros p q. unfold podLe. apply _. Defined.

(** [sort.Slice] promises a sorted permutation; merge sort is one such function (see
    [sortPods_unique] for the others). *)
Definition sortPods (pods : list Pod) : list Pod := merge_sort podLe pods.

Definition activePods (pods : list Pod) : list Pod :=
  sortPods (filter (fun p => activePod p = true) pods).

Definition candidatePods (pods : list Pod) : list Pod :=
  let active := activePods pods in
  let ready := filter (fun p => podReady p = true) active in
  sortPods (if bool_decide (0 < length ready)%nat then ready else active).

Definition endpointLe (a b : AccessEndpoint) : Prop := string_lt (ep_Name b) (ep_Name a) = false.
#[export] Instance endpointLe_dec : RelDecision endpointLe.
Proof. intros p q. unfold endpointLe. apply _. Defined.

Section SelectObjects.
Context (labels_Matches : gmap string string → gmap string string → bool).
Context (now : Z) (rand_Intn : Z → Z).

Definition podCandidate (access : Access) (pod : Pod) : targetCandidate :=
  mkCandidate (podTargetKey (acc_Namespace access) pod) (podWeight labels_Matches access pod)
    (pod_CreationTimestamp pod).

(** [selectPod]: [Ok None] is the result [false] (no candidate). *)
Definition selectPod (s : strategySelector) (access : Access) (pods : list Pod)
    (req : ResolveInput) : result (option (Pod * nat)) * strategySelector :=
  let pods := candidatePods pods in
  if bool_decide (length pods = 0%nat) then (Ok None, s)
  else
    match selectTarget now rand_Intn s access req (podCandidate access <$> pods)
            (strategyType access) with
    | (Err e, s) => (Err e, s)
    | (Ok sel, s) =>
        match pods !! ts_index sel with
        | Some pod => (Ok (Some (pod, ts_release sel)), s)
        | None => (Err (EPanic "index out of range"), s)
        end
    end.

Definition selectPodByName (s : strategySelector) (access : Access) (pods : list Pod)
    (name : string) : option (Pod * nat) * strategySelector :=
  match find_first (fun p => bool_decide (pod_Name p = name)) (activePods pods) with
  | None => (None, s)
  | Some pod =>
      let '(sel, s) := trackTargetLocked s (accessKey (acc_Namespace access) (acc_Name access))
                         (podTargetKey (acc_Namespace access) pod) 0 in
      (Some (pod, ts_release sel), s)
  end.

Definition endpointCandidate (endpoint : AccessEndpoint) : targetCandidate :=
  mkCandidate (ep_Name endpoint) (endpointWeight endpoint) 0.

Definition selectEndpoint (s : strategySelector) (access : Access) (req : ResolveInput)
    : result (option (AccessEndpoint * nat)) * strategySelector :=
  let endpoints := merge_sort endpointLe (spec_Endpoints (acc_Spec access)) in
  if bool_decide (length (spec_Endpoints (acc_Spec access)) = 0%nat) then (Ok None, s)
  else
    match selectTarget now rand_Intn s access req (endpointCandidate <$> endpoints)
            (endpointStrategyType access) with
    | (Err e, s) => (Err e, s)
    | (Ok sel, s) =>
        match endpoints !! ts_index sel with
        | Some endpoint => (Ok (Some (endpoint, ts_release sel)), s)
        | None => (Err (EPanic "index out of range"), s)
        end
    end.
End SelectObjects.
