(* ===== verification/StrategyProps.v ===== *)
(** Properties of the selection strategies of [Strategy]: fairness of the weighted round robin,
    minimality of the other strategies, exactness of the connection counts, session affinity, and
    totality of Pod selection. *)

From S2P Require Import Prelude GoStrings Kube Target Strategy.
Local Open Scope Z_scope.

(** ** Order on strings and Pods *)

Lemma string_lt_leb a b : string_lt a b = negb (Stdlib.Strings.String.leb b a).
Proof.
  unfold string_lt, Stdlib.Strings.String.ltb, Stdlib.Strings.String.leb.
  rewrite Stdlib.Strings.String.compare_antisym.
  by destruct (Stdlib.Strings.String.compare b a).
Qed.

Lemma leb_trans a b c :
  Stdlib.Strings.String.leb a b = true → Stdlib.Strings.String.leb b c = true →
  Stdlib.Strings.String.leb a c = true.
Proof.
  intros H1 H2. apply Is_true_true. eapply (transitivity (R := String.le)); by apply Is_true_true.
Qed.

Lemma string_lt_irrefl a : string_lt a a = false.
Proof.
  rewrite string_lt_leb. apply negb_false_iff.
  destruct (Stdlib.Strings.String.leb_total a a); done.
Qed.

Lemma string_lt_trans a b c : string_lt a b = true → string_lt b c = true → string_lt a c = true.
Proof.
  rewrite !string_lt_leb, !negb_true_iff. intros H1 H2.
  destruct (Stdlib.Strings.String.leb c a) eqn:H3; [|done].
  destruct (Stdlib.Strings.String.leb_total a b) as [H|H]; [|congruence].
  pose proof (leb_trans _ _ _ H3 H). congruence.
Qed.

Lemma string_lt_antisym a b : string_lt a b = false → string_lt b a = false → a = b.
Proof.
  rewrite !string_lt_leb, !negb_false_iff. intros H1 H2.
  by apply Stdlib.Strings.String.leb_antisym.
Qed.

Lemma string_ge_trans a b c :
  string_lt a b = false → string_lt b c = false → string_lt a c = false.
Proof.
  rewrite !string_lt_leb, !negb_false_iff. intros H1 H2. by eapply leb_trans.
Qed.

#[export] Instance podLe_trans : Transitive podLe.
Proof.
  intros p q r. unfold podLe, podLess. repeat case_bool_decide; intros L1 L2; try congruence.
  all: try (by eapply string_ge_trans).
  exfalso. replace (pod_Namespace r) with (pod_Namespace p) in * by congruence.
  pose proof (string_lt_antisym _ _ L1 L2). congruence.
Qed.
#[export] Instance podLe_total : Total podLe.
Proof.
  intros p q. unfold podLe, podLess. repeat case_bool_decide; try congruence.
  - destruct (string_lt (pod_Namespace q) (pod_Namespace p)) eqn:H1; [right|by left].
    destruct (string_lt (pod_Namespace p) (pod_Namespace q)) eqn:H2; [|done].
    pose proof (string_lt_trans _ _ _ H1 H2). by rewrite string_lt_irrefl in *.
  - destruct (string_lt (pod_Name q) (pod_Name p)) eqn:H1; [right|by left].
    destruct (string_lt (pod_Name p) (pod_Name q)) eqn:H2; [|done].
    pose proof (string_lt_trans _ _ _ H1 H2). by rewrite string_lt_irrefl in *.
Qed.

Lemma podLe_antisym p q :
  podLe p q → podLe q p → pod_Namespace p = pod_Namespace q ∧ pod_Name p = pod_Name q.
Proof.
  unfold podLe, podLess. repeat case_bool_decide; intros L1 L2; try congruence.
  - pose proof (string_lt_antisym _ _ L1 L2). congruence.
  - by pose proof (string_lt_antisym _ _ L1 L2).
Qed.

(** The result of [sort.Slice] is the same for every sorting algorithm when no two Pods share a
    namespace and name. *)
Lemma sortPods_unique pods l :
  (∀ p q, p ∈ pods → q ∈ pods → pod_Namespace p = pod_Namespace q → pod_Name p = pod_Name q → p = q) →
  l ≡ₚ pods → Sorted podLe l → l = sortPods pods.
Proof.
  intros Hinj Hp Hs. unfold sortPods.
  eapply (Sorted_unique_strong podLe).
  - intros x1 x2 H1 H2 L1 L2. destruct (podLe_antisym _ _ L1 L2).
    apply Hinj; [by rewrite <-Hp|by rewrite (merge_sort_Permutation podLe) in H2|done..].
  - done.
  - apply Sorted_merge_sort. apply _.
  - by rewrite merge_sort_Permutation.
Qed.

Lemma elem_of_activePods p pods : p ∈ activePods pods ↔ p ∈ pods ∧ activePod p = true.
Proof.
  unfold activePods, sortPods. rewrite merge_sort_Permutation, list_elem_of_filter. naive_solver.
Qed.

Lemma elem_of_candidatePods p pods :
  p ∈ candidatePods pods ↔
  p ∈ pods ∧ activePod p = true ∧
  ((∃ q, q ∈ pods ∧ activePod q = true ∧ podReady q = true) → podReady p = true).
Proof.
  unfold candidatePods, sortPods at 1. rewrite merge_sort_Permutation.
  set (ready := filter _ (activePods pods)).
  assert (∀ q, q ∈ ready ↔ (q ∈ pods ∧ activePod q = true) ∧ podReady q = true) as Hr.
  { intros q. unfold ready. rewrite list_elem_of_filter, elem_of_activePods. naive_solver. }
  case_bool_decide as Hlen.
  - rewrite Hr. split; [naive_solver|]. intros (? & ? & Himp). split; [done|]. apply Himp.
    destruct ready as [|q l]; [simpl in Hlen; lia|].
    exists q. destruct (Hr q) as [Hq _]. specialize (Hq ltac:(left)). naive_solver.
  - rewrite elem_of_activePods. split; [|naive_solver]. intros [? ?]. split_and!; [done..|].
    intros (q & ? & ? & ?). assert (q ∈ ready) as Hq by (apply Hr; done).
    destruct ready; [by apply elem_of_nil in Hq|simpl in Hlen; lia].
Qed.

(** ** Weights *)

Lemma total_foldl cs a : foldl (fun t c => t + tc_weight c) a cs = a + totalCandidateWeight cs.
Proof.
  unfold totalCandidateWeight. revert a. induction cs as [|c cs IH]; intros a; simpl; [lia|].
  rewrite (IH (a + tc_weight c)), (IH (0 + tc_weight c)). lia.
Qed.
Lemma total_cons c cs :
  totalCandidateWeight (c :: cs) = tc_weight c + totalCandidateWeight cs.
Proof. unfold totalCandidateWeight at 1. simpl. rewrite total_foldl. lia. Qed.

Definition positive_weights (cs : list targetCandidate) : Prop :=
  Forall (fun c => 0 < tc_weight c) cs.

Lemma total_nonneg cs : positive_weights cs → 0 ≤ totalCandidateWeight cs.
Proof.
  induction 1 as [|c cs Hc _ IH]; [done|]. rewrite total_cons. lia.
Qed.
Lemma total_pos cs : positive_weights cs → cs ≠ [] → 0 < totalCandidateWeight cs.
Proof.
  intros Hp Hne. destruct cs as [|c cs]; [done|].
  apply Forall_cons in Hp as [Hc Hp]. rewrite total_cons. pose proof (total_nonneg cs Hp). lia.
Qed.

Lemma weighted_go_shift i cs x :
  cs ≠ [] → x < totalCandidateWeight cs →
  weighted_go (S i) cs x = S (weighted_go i cs x).
Proof.
  revert i x. induction cs as [|c cs IH]; intros i x Hne Hx; [done|]. simpl.
  case_bool_decide; [done|]. rewrite total_cons in Hx. destruct cs as [|c' cs].
  - unfold totalCandidateWeight in Hx; simpl in Hx; lia.
  - apply IH; [done|lia].
Qed.

Lemma weighted_go_range i cs x : (weighted_go i cs x < i + length cs ∨ weighted_go i cs x = 0)%nat.
Proof.
  revert i x. induction cs as [|c cs IH]; intros i x; simpl; [by right|].
  case_bool_decide; [left; lia|]. destruct (IH (S i) (x - tc_weight c)); [left; lia|by right].
Qed.

Lemma weightedCandidateIndex_range cs x :
  cs ≠ [] → (weightedCandidateIndex cs x < length cs)%nat.
Proof.
  intros Hne. unfold weightedCandidateIndex.
  destruct (weighted_go_range 0 cs x) as [?|Heq]; [lia|]. rewrite Heq.
  destruct cs; simpl; [done|lia].
Qed.

(** Over all weight positions, candidate [i] owns exactly its weight. *)
Lemma weighted_count cs i c :
  positive_weights cs → cs !! i = Some c →
  length (filter (fun x => weightedCandidateIndex cs x = i) (seqZ 0 (totalCandidateWeight cs)))
  = Z.to_nat (tc_weight c).
Proof.
  intros Hp. revert i. unfold weightedCandidateIndex.
  induction Hp as [|c0 cs Hc0 Hp IH]; intros i Hi; [done|].
  rewrite total_cons. pose proof (total_nonneg cs Hp) as Htot.
  rewrite seqZ_app by lia. rewrite filter_app, length_app.
  replace (seqZ (0 + tc_weight c0) _) with (Z.add (tc_weight c0) <$> seqZ 0 (totalCandidateWeight cs))
    by (rewrite fmap_add_seqZ; f_equal; lia).
  assert (∀ x, x ∈ seqZ 0 (tc_weight c0) → weighted_go 0 (c0 :: cs) x = 0%nat) as Hhead.
  { intros x Hx. apply elem_of_seqZ in Hx. simpl. by rewrite bool_decide_eq_true_2 by lia. }
  assert (∀ x, x ∈ seqZ 0 (totalCandidateWeight cs) →
            weighted_go 0 (c0 :: cs) (tc_weight c0 + x) = S (weighted_go 0 cs x)) as Htail.
  { intros x Hx. apply elem_of_seqZ in Hx. simpl. rewrite bool_decide_eq_false_2 by lia.
    replace (tc_weight c0 + x - tc_weight c0) with x by lia.
    destruct cs as [|c1 cs1]; [unfold totalCandidateWeight in Hx; simpl in Hx; lia|].
    apply weighted_go_shift; [done|lia]. }
  destruct i as [|i]; simpl in Hi.
  - simplify_eq. rewrite (length_filter_fmap (Z.add _) _ (fun _ => False)).
    2:{ intros x Hx. cbv beta. rewrite (Htail x Hx). naive_solver. }
    rewrite filter_all by (intros; by apply Hhead). rewrite filter_none by naive_solver.
    rewrite length_seqZ. simpl. lia.
  - rewrite <-(IH i Hi). rewrite filter_none.
    2:{ intros x Hx. cbv beta. by rewrite (Hhead x Hx). }
    cbn [length Nat.add]. apply length_filter_fmap. intros x Hx. cbv beta. rewrite (Htail x Hx). naive_solver.
Qed.

Lemma zget_insert m k v : zget (<[k := v]> m) k = v.
Proof. unfold zget. by rewrite lookup_insert_eq. Qed.
Lemma zget_insert_ne m k k' v : k ≠ k' → zget (<[k := v]> m) k' = zget m k'.
Proof. intros. unfold zget. by rewrite lookup_insert_ne. Qed.

(** ** Weighted round robin *)

(** [n] consecutive round-robin choices for one Access over the same candidates. *)
Fixpoint rr_run (n : nat) (s : strategySelector) (key : string) (cs : list targetCandidate)
    : list (result nat) :=
  match n with
  | O => []
  | S n => let '(r, s) := roundRobinCandidateIndex s key cs in r :: rr_run n s key cs
  end.

Lemma rr_run_indices n s key cs :
  0 < totalCandidateWeight cs → 0 ≤ zget (roundRobin s) key →
  zget (roundRobin s) key + Z.of_nat n ≤ int64_max →
  rr_run n s key cs =
    (fun x => Ok (weightedCandidateIndex cs (x `mod` totalCandidateWeight cs)))
      <$> seqZ (zget (roundRobin s) key) (Z.of_nat n).
Proof.
  revert s. induction n as [|n IH]; intros s Htot Hc Hb; [done|].
  rewrite seqZ_cons by lia. cbn [rr_run]. unfold roundRobinCandidateIndex.
  rewrite bool_decide_eq_false_2 by lia. cbn [fmap list_fmap].
  rewrite Z.rem_mod_nonneg by lia. f_equal.
  assert (wrap64 (zget (roundRobin s) key + 1) = zget (roundRobin s) key + 1) as Hw.
  { apply wrap64_id. unfold in_int64, int64_min, int64_max in *. lia. }
  rewrite Hw. set (s' := set_roundRobin s _).
  assert (zget (roundRobin s') key = zget (roundRobin s) key + 1) as Hs' by apply zget_insert.
  rewrite IH; rewrite ?Hs'; [|lia..]. f_equal. f_equal; lia.
Qed.

(** The residues of [W] consecutive integers are a permutation of [0 .. W-1]. *)
Lemma seqZ_mod_perm c W :
  0 < W → (fun x => x `mod` W) <$> seqZ c W ≡ₚ seqZ 0 W.
Proof.
  intros HW. symmetry. apply submseteq_length_Permutation.
  - apply NoDup_submseteq; [apply NoDup_seqZ|]. intros x Hx. apply elem_of_seqZ in Hx.
    apply list_elem_of_fmap. exists (c + (x - c) `mod` W).
    pose proof (Z.mod_pos_bound (x - c) W HW). split; [|apply elem_of_seqZ; lia].
    rewrite Zplus_mod_idemp_r. replace (c + (x - c)) with x by lia.
    symmetry. apply Z.mod_small. lia.
  - by rewrite length_fmap, !length_seqZ.
Qed.

(** [roundRobinCandidateIndex] is fair: whatever the counter's value (short of the
    overflow of [int]), any [W] consecutive choices over the same candidates, [W] the total weight,
    choose candidate [i] exactly [weight i] times. *)
Theorem roundRobin_fair s key cs i c :
  positive_weights cs → cs !! i = Some c → 0 ≤ zget (roundRobin s) key →
  zget (roundRobin s) key + totalCandidateWeight cs ≤ int64_max →
  count_occ (fun a b => decide (a = b))
    (omap (fun r => match r with Ok j => Some j | Err _ => None end)
       (rr_run (Z.to_nat (totalCandidateWeight cs)) s key cs)) i = Z.to_nat (tc_weight c).
Proof.
  intros Hp Hi Hc Hb.
  assert (0 < totalCandidateWeight cs) as Htot by (apply total_pos; [done|by intros ->]).
  rewrite rr_run_indices by (rewrite ?Z2Nat.id; lia). rewrite Z2Nat.id by lia.
  rewrite <-(weighted_count cs i c Hp Hi).
  rewrite <-(seqZ_mod_perm (zget (roundRobin s) key)) by done.
  generalize (seqZ (zget (roundRobin s) key) (totalCandidateWeight cs)) as l.
  induction l as [|x l IH]; [done|].
  cbn [fmap list_fmap omap list_omap count_occ]. rewrite filter_cons.
  repeat case_decide; cbn [length]; first [by rewrite IH|done].
Qed.

Definition two_candidates : list targetCandidate := [mkCandidate "ns/a" 1 0; mkCandidate "ns/b" 3 0].
Lemma roundRobin_fair_witness :
  count_occ (fun a b => decide (a = b))
    (omap (fun r => match r with Ok j => Some j | Err _ => None end)
       (rr_run 4 newStrategySelector "ns/acc" two_candidates)) 1%nat = 3%nat.
Proof.
  apply (roundRobin_fair newStrategySelector "ns/acc" two_candidates 1 (mkCandidate "ns/b" 3 0));
    first [by repeat constructor|by vm_compute].
Defined.

(** ** The minimising strategies *)

(** A loop test whose negation is a total preorder on the candidates in play keeps the best one. *)
Section Best.
Context (better : targetCandidate → targetCandidate → bool) (D : targetCandidate → Prop).
Hypothesis better_irrefl : ∀ a, D a → better a a = false.
Hypothesis better_asym : ∀ a b, D a → D b → better a b = true → better b a = false.
Hypothesis worse_trans : ∀ a b c, D a → D b → D c →
  better c b = false → better b a = false → better c a = false.

Lemma best_go_spec cs pre rest best :
  cs = pre ++ rest → Forall D cs → cs !! best.1 = Some best.2 →
  (∀ c, c ∈ pre → better c best.2 = false) →
  ∃ b, cs !! best_go better (length pre) best rest = Some b ∧ ∀ c, c ∈ cs → better c b = false.
Proof.
  revert pre best. induction rest as [|r rest IH]; intros pre [k b] Hcs HD Hb Hpre; simpl in *.
  - rewrite app_nil_r in Hcs. subst pre. eauto.
  - assert (cs = (pre ++ [r]) ++ rest) as Hcs' by by rewrite <-app_assoc.
    assert (D r) as Hr. { eapply Forall_forall; [exact HD|]. subst. set_solver. }
    assert (D b) as Db. { eapply Forall_forall; [exact HD|]. by eapply list_elem_of_lookup_2. }
    replace (S (length pre)) with (length (pre ++ [r])) by (rewrite length_app; simpl; lia).
    apply IH; try done.
    + case_match; [|done]. simpl. subst cs. by apply list_lookup_middle.
    + intros c Hc. apply elem_of_app in Hc as [Hc|Hc%list_elem_of_singleton];
        destruct (better r b) eqn:Hrb; simpl; try (by subst; auto); try (by auto).
      eapply (worse_trans r b c); auto.
      eapply Forall_forall; [exact HD|]. subst. set_solver.
Qed.

Lemma bestCandidateIndex_spec cs :
  Forall D cs → cs ≠ [] →
  ∃ b, cs !! bestCandidateIndex better cs = Some b ∧ ∀ c, c ∈ cs → better c b = false.
Proof.
  intros HD Hne. destruct cs as [|c cs]; [done|].
  apply (best_go_spec (c :: cs) [c] cs (0%nat, c)); try done.
  intros c' ->%list_elem_of_singleton. apply better_irrefl. by apply Forall_cons in HD as [? ?].
Qed.
End Best.

(** Weights and connection counts whose cross products fit in [int]. *)
Definition lc_bounded (conns : targetCandidate → Z) (c : targetCandidate) : Prop :=
  0 < tc_weight c < 2 ^ 31 ∧ 0 ≤ conns c < 2 ^ 31.

Lemma lc_better_bounded conns a b :
  lc_bounded conns a → lc_bounded conns b →
  lc_better conns a b =
    bool_decide (conns a * tc_weight b < conns b * tc_weight a) ||
    (bool_decide (conns a * tc_weight b = conns b * tc_weight a) && string_lt (tc_key a) (tc_key b)).
Proof.
  intros [Ha1 Ha2] [Hb1 Hb2]. unfold lc_better.
  rewrite !wrap64_id by (unfold in_int64, int64_min, int64_max; nia). done.
Qed.

Lemma lc_worse_spec conns a b :
  lc_bounded conns a → lc_bounded conns b →
  lc_better conns a b = false ↔
  conns b * tc_weight a < conns a * tc_weight b ∨
  (conns a * tc_weight b = conns b * tc_weight a ∧ string_lt (tc_key a) (tc_key b) = false).
Proof.
  intros Ha Hb. rewrite lc_better_bounded by done.
  rewrite orb_false_iff, andb_false_iff, !bool_decide_eq_false. split.
  - intros [? [?|?]]; [left; lia|]. destruct (decide (conns b * tc_weight a < conns a * tc_weight b));
      [by left|right; split; [lia|done]].
  - intros [?|[? ?]]; (split; [lia|]); [left; lia|by right].
Qed.

(** [leastConnectionsCandidateIndex] picks a candidate with the smallest number of
    connections per unit of weight, and among those with the same load the smallest key; the
    comparison by cross multiplication in [int] does not overflow for [int32] weights and up to
    [2^31] connections. *)
Theorem leastConnections_minimal s ak cs :
  let conns c := zget (connections s) (targetConnectionKey ak (tc_key c)) in
  Forall (lc_bounded conns) cs → cs ≠ [] →
  ∃ b, cs !! leastConnectionsCandidateIndex s ak cs = Some b ∧
    ∀ c, c ∈ cs →
      conns b * tc_weight c < conns c * tc_weight b ∨
      (conns c * tc_weight b = conns b * tc_weight c ∧ string_lt (tc_key c) (tc_key b) = false).
Proof.
  intros conns HD Hne.
  destruct (bestCandidateIndex_spec (lc_better conns) (lc_bounded conns)) with (cs := cs)
    as (b & Hb & Hmin); try done.
  - intros a Ha. apply lc_worse_spec; [done..|]. right. by rewrite string_lt_irrefl.
  - intros a b Ha Hb. rewrite lc_better_bounded by done. rewrite lc_worse_spec by done.
    rewrite orb_true_iff, andb_true_iff, !bool_decide_eq_true. intros [?|[? Hlt]]; [left; lia|].
    right. split; [lia|]. destruct (string_lt (tc_key b) (tc_key a)) eqn:H'; [|done].
    pose proof (string_lt_trans _ _ _ Hlt H') as Hcon. by rewrite string_lt_irrefl in Hcon.
  - intros a b c Ha Hb Hc. rewrite !lc_worse_spec by done.
    destruct Ha, Hb, Hc. intros [?|[? ?]] [?|[? ?]]; [left; nia..|].
    right. split; [nia|]. by eapply string_ge_trans.
  - exists b. split; [done|]. intros c Hc. rewrite Forall_forall in HD.
    apply lc_worse_spec; auto. apply HD. by eapply list_elem_of_lookup_2.
Qed.

Definition busy_selector : strategySelector :=
  set_connections newStrategySelector
    {[targetConnectionKey "ns/acc" "ns/a" := 1; targetConnectionKey "ns/acc" "ns/b" := 2]}.
Lemma leastConnections_minimal_witness :
  ∃ b, two_candidates !! leastConnectionsCandidateIndex busy_selector "ns/acc" two_candidates
         = Some b ∧ tc_key b = "ns/b".
Proof.
  destruct (leastConnections_minimal busy_selector "ns/acc" two_candidates) as (b & Hb & _).
  - repeat constructor; vm_compute; done.
  - done.
  - exists b. split; [exact Hb|]. vm_compute in Hb. by injection Hb as <-.
Defined.

(** ** Totality of the selection *)

Lemma best_go_range better i best rest :
  (best.1 < i)%nat → (best_go better i best rest < i + length rest)%nat.
Proof.
  revert i best. induction rest as [|c rest IH]; intros i best Hb; simpl; [lia|].
  assert ((if better c best.2 then (i, c) else best).1 < S i)%nat as Hb' by (case_match; simpl; lia).
  specialize (IH (S i) _ Hb'). lia.
Qed.
Lemma bestCandidateIndex_range better cs :
  cs ≠ [] → (bestCandidateIndex better cs < length cs)%nat.
Proof.
  intros Hne. destruct cs as [|c cs]; [done|]. unfold bestCandidateIndex.
  apply (best_go_range better 1 (0%nat, c) cs). simpl. lia.
Qed.

Lemma strategyIndex_total rand s ak cs strategy :
  positive_weights cs → cs ≠ [] →
  ∃ i s', strategyIndex rand s ak cs strategy = (Ok i, s') ∧ (i < length cs)%nat.
Proof.
  intros Hp Hne. pose proof (total_pos cs Hp Hne). unfold strategyIndex.
  pose proof (weightedCandidateIndex_range cs).
  repeat case_match; try (by eexists _, _; split; [done|apply bestCandidateIndex_range]).
  - unfold roundRobinCandidateIndex. rewrite bool_decide_eq_false_2 by lia. eauto.
  - unfold randomCandidateIndex. rewrite bool_decide_eq_false_2 by lia. eauto.
Qed.

Lemma affinityCandidateIndex_Some s key cs now i s' :
  affinityCandidateIndex s key cs now = (Some i, s') → s' = s ∧ (i < length cs)%nat.
Proof.
  unfold affinityCandidateIndex. repeat case_match; intros; simplify_eq. split; [done|].
  match goal with H : find_index _ _ = Some _ |- _ => apply find_index_Some in H as (Hl & _ & _) end.
  by apply lookup_lt_Some in Hl.
Qed.

Lemma selectTarget_total now rand s access req cs strategy :
  positive_weights cs → cs ≠ [] →
  ∃ sel s', selectTarget now rand s access req cs strategy = (Ok sel, s') ∧
            (ts_index sel < length cs)%nat.
Proof.
  intros Hp Hne. unfold selectTarget.
  destruct (affinityCandidateIndex _ _ _ _) as [[i|] s1] eqn:Ha.
  - apply affinityCandidateIndex_Some in Ha as [-> Hi]. eexists _, _. split; [done|]. done.
  - destruct (strategyIndex_total rand s1 (accessKey (acc_Namespace access) (acc_Name access))
                cs strategy Hp Hne) as (i & s2 & -> & Hi).
    destruct (lookup_lt_is_Some_2 cs i Hi) as [c ->]. eexists _, _. split; [done|]. done.
Qed.

Lemma podWeight_pos labels access pod : 0 < podWeight labels access pod.
Proof. unfold podWeight. repeat case_match; breflect; lia. Qed.

Lemma selectPod_no_panic labels now rand s access pods req :
  ∃ r s', selectPod labels now rand s access pods req = (Ok r, s') ∧
    (r = None → candidatePods pods = []) ∧
    (∀ p h, r = Some (p, h) → p ∈ candidatePods pods).
Proof.
  unfold selectPod. case_bool_decide as Hlen.
  { apply nil_length_inv in Hlen. eexists _, _. split_and!; naive_solver. }
  destruct (selectTarget_total now rand s access req (podCandidate labels access <$> candidatePods pods)
              (strategyType access)) as (sel & s' & -> & Hi).
  - apply Forall_fmap, Forall_true. intros p. apply podWeight_pos.
  - destruct (candidatePods pods); [done|done].
  - rewrite length_fmap in Hi. destruct (lookup_lt_is_Some_2 _ _ Hi) as [p Hp]. rewrite Hp.
    eexists _, _. split_and!; [done..|]. intros ? ? [= -> _]. by eapply list_elem_of_lookup_2.
Qed.

Lemma selectTarget_index now rand s access req cs strategy sel s' :
  selectTarget now rand s access req cs strategy = (Ok sel, s') → (ts_index sel < length cs)%nat.
Proof.
  unfold selectTarget. destruct (affinityCandidateIndex _ _ _ _) as [[i|] s1] eqn:Ha.
  - apply affinityCandidateIndex_Some in Ha as [_ ?]. by intros [= <- _].
  - destruct (strategyIndex _ _ _ _ _) as [[i|e] s2]; [|done].
    destruct (cs !! i) eqn:Hi; [|done]. intros [= <- _]. simpl. by apply lookup_lt_Some in Hi.
Qed.

(** Pod selection never fails (no modulo by zero, no index out of range), whatever the
    strategy, weights, affinity state and random numbers: it reports no Pod exactly when no Pod is
    active, and otherwise returns an active Pod of the list which is ready whenever some active Pod
    is ready. *)
Theorem selectPod_total labels now rand s access pods req :
  (∃ s', selectPod labels now rand s access pods req = (Ok None, s') ∧
     ∀ p, p ∈ pods → activePod p = false) ∨
  (∃ p h s', selectPod labels now rand s access pods req = (Ok (Some (p, h)), s') ∧
     p ∈ pods ∧ activePod p = true ∧
     ((∃ q, q ∈ pods ∧ activePod q = true ∧ podReady q = true) → podReady p = true)).
Proof.
  destruct (selectPod_no_panic labels now rand s access pods req) as ([[p h]|] & s' & Hsel & Hnone & Hsome).
  - right. exists p, h, s'. split; [done|]. by eapply elem_of_candidatePods, Hsome.
  - left. exists s'. split; [done|]. intros p Hp. specialize (Hnone eq_refl).
    destruct (activePod p) eqn:Ha; [|done]. exfalso.
    assert (∃ q, q ∈ candidatePods pods) as [q Hq]; [|rewrite Hnone in Hq; by apply elem_of_nil in Hq].
    destruct (decide (Exists (fun q => activePod q = true ∧ podReady q = true) pods)) as [Hex|Hno];
      rewrite Exists_exists in *; [destruct Hex as (q & ?); exists q|exists p];
      apply elem_of_candidatePods; naive_solver.
Qed.

(** ** Connection counts *)

(** The operations that touch the selector, in any order and on any arguments. *)
Inductive selector_step : strategySelector → strategySelector → Prop :=
| step_selectPod labels now rand s access pods req :
    selector_step s (selectPod labels now rand s access pods req).2
| step_selectPodByName s access pods name :
    selector_step s (selectPodByName s access pods name).2
| step_selectEndpoint now rand s access req :
    selector_step s (selectEndpoint now rand s access req).2
| step_release s handle : selector_step s (release s handle).

(** Selections of target [k] whose release function has not run. *)
Definition live (s : strategySelector) (k : string) : Z :=
  Z.of_nat (length (filter (fun e => e = (k, false)) (releases s))).

Definition counts_live (s : strategySelector) : Prop :=
  ∀ k, connections s !! k = if bool_decide (live s k = 0) then None else Some (live s k).

Lemma counts_live_zget s k : counts_live s → zget (connections s) k = live s k.
Proof. intros Hc. unfold zget. rewrite Hc. by case_bool_decide; simpl. Qed.

Lemma counts_live_ext s s' :
  connections s' = connections s → releases s' = releases s → counts_live s → counts_live s'.
Proof. unfold counts_live, live. by intros -> ->. Qed.

Lemma affinityCandidateIndex_frame s key cs now :
  connections (affinityCandidateIndex s key cs now).2 = connections s ∧
  releases (affinityCandidateIndex s key cs now).2 = releases s ∧
  roundRobin (affinityCandidateIndex s key cs now).2 = roundRobin s.
Proof. unfold affinityCandidateIndex. by repeat case_match. Qed.

Lemma strategyIndex_frame rand s ak cs strategy :
  connections (strategyIndex rand s ak cs strategy).2 = connections s ∧
  releases (strategyIndex rand s ak cs strategy).2 = releases s ∧
  affinity (strategyIndex rand s ak cs strategy).2 = affinity s.
Proof. unfold strategyIndex, roundRobinCandidateIndex. by repeat case_match. Qed.

Lemma live_nonneg s k : 0 ≤ live s k.
Proof. unfold live. lia. Qed.

Lemma trackTargetLocked_counts s ak tk i :
  counts_live s → counts_live (trackTargetLocked s ak tk i).2.
Proof.
  intros Hc k. unfold trackTargetLocked. set (ck := targetConnectionKey ak tk).
  assert (live (trackTargetLocked s ak tk i).2 k = live s k + if decide (k = ck) then 1 else 0) as Hl.
  { unfold live, trackTargetLocked. simpl. fold ck.
    rewrite filter_app, length_app, filter_cons, filter_nil.
    repeat case_decide; simplify_eq; simpl; lia. }
  unfold trackTargetLocked in Hl. fold ck in Hl. rewrite Hl. simpl.
  rewrite counts_live_zget by done. pose proof (live_nonneg s k). case_decide; subst.
  - rewrite lookup_insert_eq, bool_decide_eq_false_2 by lia. done.
  - rewrite lookup_insert_ne, Z.add_0_r by done. apply Hc.
Qed.

Lemma filter_insert_length {A} (P : A → Prop) `{!∀ x, Decision (P x)} (l : list A) i x y :
  l !! i = Some x →
  Z.of_nat (length (filter P (<[i := y]> l))) =
  Z.of_nat (length (filter P l)) + (if decide (P y) then 1 else 0) - (if decide (P x) then 1 else 0).
Proof.
  intros Hi. pose proof (lookup_lt_Some _ _ _ Hi).
  rewrite insert_take_drop by done. rewrite <-(take_drop_middle l i x Hi) at 3.
  rewrite !filter_app, !filter_cons, !length_app. repeat case_decide; simpl; lia.
Qed.

Lemma release_counts s h : counts_live s → counts_live (release s h).
Proof.
  intros Hc. unfold release. destruct (releases s !! h) as [[ck [|]]|] eqn:Hh; [done| |done].
  set (s' := set_releases s _).
  assert (∀ k, live s' k = live s k - if decide (k = ck) then 1 else 0) as Hl.
  { intros k. unfold live. simpl. rewrite (filter_insert_length _ _ _ _ _ Hh).
    repeat case_decide; simplify_eq; lia. }
  assert (connections s' = connections s) as -> by done.
  pose proof (Hc ck) as Hck. pose proof (live_nonneg s' ck) as Hnn. rewrite Hl, decide_True in Hnn by done.
  rewrite bool_decide_eq_false_2 in Hck by lia.
  intros k. unfold live in *. pose proof (Hl k) as Hlk. rewrite counts_live_zget by done.
  destruct (decide (k = ck)) as [->|Hne]; case_bool_decide as H1; simpl in *; rewrite ?Hlk.
  - rewrite Hck in H1. injection H1 as H1. unfold live in H1. rewrite H1.
    by rewrite lookup_delete_eq, bool_decide_eq_true_2 by lia.
  - rewrite lookup_insert_eq. rewrite bool_decide_eq_false_2; [done|].
    intros ?. apply H1. rewrite Hck. f_equal. unfold live. lia.
  - rewrite lookup_delete_ne, Z.sub_0_r by done. apply Hc.
  - rewrite lookup_insert_ne, Z.sub_0_r by done. apply Hc.
Qed.

Lemma selectTarget_counts now rand s access req cs strategy :
  counts_live s → counts_live (selectTarget now rand s access req cs strategy).2.
Proof.
  intros Hc. unfold selectTarget. set (ak := accessKey _ _). set (fk := accessAffinityKey _ _).
  pose proof (affinityCandidateIndex_frame s fk cs now) as (E1 & E2 & _).
  destruct (affinityCandidateIndex s fk cs now) as [[i|] s1]; simpl in *.
  { refine (trackTargetLocked_counts s1 ak _ i _). by eapply counts_live_ext. }
  pose proof (strategyIndex_frame rand s1 ak cs strategy) as (E3 & E4 & _).
  destruct (strategyIndex rand s1 ak cs strategy) as [[i|e] s2]; simpl in *.
  2:{ eapply counts_live_ext; [| |exact Hc]; congruence. }
  destruct (cs !! i) as [c|]; simpl.
  2:{ eapply counts_live_ext; [| |exact Hc]; congruence. }
  refine (trackTargetLocked_counts (if bool_decide (fk ≠ "") then _ else s2) ak (tc_key c) i _).
  eapply counts_live_ext; [| |exact Hc]; case_bool_decide; simpl; congruence.
Qed.

Lemma selector_step_counts s s' : selector_step s s' → counts_live s → counts_live s'.
Proof.
  destruct 1 as [labels now rand s access pods req|s access pods name|now rand s access req|s h];
    intros Hc.
  - unfold selectPod. case_match; [done|].
    pose proof (selectTarget_counts now rand s access req
      (podCandidate labels access <$> candidatePods pods) (strategyType access) Hc).
    by repeat case_match.
  - unfold selectPodByName. case_match; [|done].
    exact (trackTargetLocked_counts s _ _ 0 Hc).
  - unfold selectEndpoint. case_match; [done|].
    pose proof (selectTarget_counts now rand s access req
      (endpointCandidate <$> merge_sort endpointLe (spec_Endpoints (acc_Spec access)))
      (endpointStrategyType access) Hc).
    by repeat case_match.
  - by apply release_counts.
Qed.

Lemma counts_live_reachable s : rtc selector_step newStrategySelector s → counts_live s.
Proof.
  intros Hs. eapply (rtc_ind_r counts_live newStrategySelector); [done| |exact Hs].
  intros x y _ Hstep. by apply selector_step_counts.
Qed.

(** In every reachable state of the selector the connection count of a target is exactly
    the number of its selections whose release function has not run yet (a second call of a release
    function counts nothing), and a target without such a selection has no map entry, so the map
    does not grow with the targets ever seen. *)
Theorem connections_count_live s k :
  rtc selector_step newStrategySelector s →
  connections s !! k = if bool_decide (live s k = 0) then None else Some (live s k).
Proof.
  intros Hs. by apply counts_live_reachable.
Qed.

Definition demo_access : Access := pod_access "ns" "web" [].
Definition demo_pods : list Pod := [simple_pod "ns" "a" "u1" ["main"]; simple_pod "ns" "b" "u2" ["main"]].
Definition demo_state : strategySelector :=
  (selectPodByName (selectPodByName newStrategySelector demo_access demo_pods "b").2
     demo_access demo_pods "b").2.

Lemma connections_count_live_witness :
  connections (release demo_state 0) !! targetConnectionKey "ns/web" "ns/b" = Some 1.
Proof.
  rewrite connections_count_live; [by vm_compute|].
  eapply rtc_l; [apply (step_selectPodByName _ demo_access demo_pods "b")|].
  eapply rtc_l; [apply (step_selectPodByName _ demo_access demo_pods "b")|].
  apply rtc_once, step_release.
Defined.

(** ** Session affinity *)

(** Steps that leave the affinity entry of [key] alone: selections for another affinity key or by
    name, releases, and selections for [key] itself that happen before the entry expires while its
    target is still a candidate. *)
Inductive affinity_kept (key : string) (e : affinityEntry) : strategySelector → strategySelector → Prop :=
| kept_other now rand s access req cs strategy :
    accessAffinityKey access req ≠ key →
    affinity_kept key e s (selectTarget now rand s access req cs strategy).2
| kept_same now rand s access req cs strategy :
    now ≤ ae_expiresAt e → ae_targetKey e ∈ tc_key <$> cs →
    affinity_kept key e s (selectTarget now rand s access req cs strategy).2
| kept_name s access pods name : affinity_kept key e s (selectPodByName s access pods name).2
| kept_release s handle : affinity_kept key e s (release s handle).

Lemma release_affinity s h : affinity (release s h) = affinity s.
Proof. unfold release. by repeat case_match. Qed.

(** An unexpired entry whose target is a candidate decides the selection. *)
Lemma affinity_hit now rand s access req cs strategy e :
  accessAffinityKey access req ≠ "" → affinity s !! accessAffinityKey access req = Some e →
  now ≤ ae_expiresAt e → ae_targetKey e ∈ tc_key <$> cs →
  ∃ sel s' c, selectTarget now rand s access req cs strategy = (Ok sel, s') ∧
    cs !! ts_index sel = Some c ∧ tc_key c = ae_targetKey e ∧ affinity s' = affinity s.
Proof.
  intros Hk He Hnow Hin. unfold selectTarget, affinityCandidateIndex.
  rewrite bool_decide_eq_false_2 by done. rewrite He.
  rewrite (bool_decide_eq_false_2 (ae_expiresAt e < now)) by lia. rewrite andb_false_r.
  destruct (find_index _ cs) as [[i c]|] eqn:Hf.
  - apply find_index_Some in Hf as (Hl & Hc & _). breflect. eexists _, _, c. done.
  - apply find_index_None in Hf. apply list_elem_of_fmap in Hin as (c & Hc & Hin).
    rewrite Forall_forall in Hf. specialize (Hf c Hin). breflect. congruence.
Qed.

Lemma selectTarget_affinity_other now rand s access req cs strategy key :
  accessAffinityKey access req ≠ key →
  affinity (selectTarget now rand s access req cs strategy).2 !! key = affinity s !! key.
Proof.
  intros Hk. unfold selectTarget. set (ak := accessKey _ _). set (fk := accessAffinityKey _ _) in *.
  assert (affinity (affinityCandidateIndex s fk cs now).2 !! key = affinity s !! key) as E1.
  { unfold affinityCandidateIndex. repeat case_match; simpl; rewrite ?lookup_delete_ne by done; done. }
  destruct (affinityCandidateIndex s fk cs now) as [[i|] s1]; simpl in *; [done|].
  pose proof (strategyIndex_frame rand s1 ak cs strategy) as (_ & _ & E2).
  destruct (strategyIndex rand s1 ak cs strategy) as [[i|e] s2]; simpl in *; [|congruence].
  destruct (cs !! i) as [c|]; simpl; [|congruence].
  case_bool_decide; simpl; rewrite ?lookup_insert_ne by done; congruence.
Qed.

Lemma affinity_kept_entry key e s s' :
  key ≠ "" → affinity_kept key e s s' → affinity s !! key = Some e → affinity s' !! key = Some e.
Proof.
  intros Hne. destruct 1 as [now rand s access req cs strategy Hk
    |now rand s access req cs strategy Hnow Hin|s access pods name|s h]; intros He.
  - by rewrite selectTarget_affinity_other.
  - destruct (decide (accessAffinityKey access req = key)) as [<-|Hk].
    + destruct (affinity_hit now rand s access req cs strategy e Hne He Hnow Hin)
        as (sel & s' & c & -> & _ & _ & Haff). simpl. by rewrite Haff.
    + by rewrite selectTarget_affinity_other.
  - unfold selectPodByName. by case_match.
  - by rewrite release_affinity.
Qed.

Lemma selectTarget_records now rand s access req cs strategy sel s' c :
  selectTarget now rand s access req cs strategy = (Ok sel, s') →
  accessAffinityKey access req ≠ "" → affinity s !! accessAffinityKey access req = None →
  cs !! ts_index sel = Some c →
  affinity s' !! accessAffinityKey access req
    = Some (mkAffinityEntry (tc_key c) (now + affinityTimeout access)).
Proof.
  unfold selectTarget, affinityCandidateIndex. set (ak := accessKey _ _).
  set (fk := accessAffinityKey _ _). intros Hsel Hk Hnone Hc.
  rewrite bool_decide_eq_false_2, Hnone in Hsel by done.
  destruct (strategyIndex rand s ak cs strategy) as [[i|e] s2]; [|done].
  destruct (cs !! i) as [c'|] eqn:Hi; [|done]. rewrite bool_decide_eq_true_2 in Hsel by done.
  simpl in Hsel. injection Hsel as <- <-. simpl in *. rewrite lookup_insert_eq. congruence.
Qed.

(** Session affinity.  After a first selection for an affinity key, every later selection
    with that key made before the timeout, whatever the strategy and the connections, releases and
    other clients' selections in between, goes to the target chosen first as long as that target is
    still a candidate; the timeout counts from the first selection. *)
Theorem session_affinity now rand s access req cs strategy sel s1 c s2
    now' rand' access' req' cs' strategy' :
  selectTarget now rand s access req cs strategy = (Ok sel, s1) →
  accessAffinityKey access req ≠ "" → affinity s !! accessAffinityKey access req = None →
  cs !! ts_index sel = Some c →
  rtc (affinity_kept (accessAffinityKey access req)
         (mkAffinityEntry (tc_key c) (now + affinityTimeout access))) s1 s2 →
  accessAffinityKey access' req' = accessAffinityKey access req →
  now' ≤ now + affinityTimeout access → tc_key c ∈ tc_key <$> cs' →
  ∃ sel' s3 c', selectTarget now' rand' s2 access' req' cs' strategy' = (Ok sel', s3) ∧
    cs' !! ts_index sel' = Some c' ∧ tc_key c' = tc_key c.
Proof.
  intros Hsel Hne Hnone Hc Hkept Hkey Hnow Hin.
  pose proof (selectTarget_records _ _ _ _ _ _ _ _ _ _ Hsel Hne Hnone Hc) as Hrec.
  assert (affinity s2 !! accessAffinityKey access req
          = Some (mkAffinityEntry (tc_key c) (now + affinityTimeout access))) as Hs2.
  { clear Hsel Hnone. induction Hkept; [done|]. apply IHHkept. by eapply affinity_kept_entry. }
  rewrite <-Hkey in Hs2, Hne.
  destruct (affinity_hit now' rand' s2 access' req' cs' strategy' _ Hne Hs2 Hnow Hin)
    as (sel' & s3 & c' & ? & ? & ? & _). eauto 10.
Qed.

Definition sticky_access : Access :=
  mkAccess "ns" "web" "u" 1 0
    (mkSpec None AccessTypePod ∅ [] (Some (mkStrategy AccessStrategyTypeRoundRobin []
       (Some (mkAffinity AccessSessionAffinityTypeUser (Some 60))))) None [] []) empty_status.
Definition alice_input : ResolveInput := mkResolveInput "ns.web" "alice" ∅ "10.0.0.9" [].
Lemma session_affinity_witness :
  ∃ sel' s3 c',
    selectTarget 5 (fun _ => 0)
      (release (selectTarget 0 (fun _ => 0) newStrategySelector sticky_access alice_input
                  two_candidates AccessStrategyTypeRoundRobin).2 0)
      sticky_access alice_input (rev two_candidates) AccessStrategyTypeRandom = (Ok sel', s3) ∧
    rev two_candidates !! ts_index sel' = Some c' ∧ tc_key c' = "ns/a".
Proof.
  eapply (session_affinity 0 (fun _ => 0) newStrategySelector sticky_access alice_input two_candidates
    AccessStrategyTypeRoundRobin (mkTargetSelection 0 0) _ (mkCandidate "ns/a" 1 0));
    [by vm_compute|by vm_compute|by vm_compute|by vm_compute| |done|by vm_compute|].
  - apply rtc_once. apply kept_release.
  - apply list_elem_of_fmap. exists (mkCandidate "ns/a" 1 0). split; [done|].
    right. left.
Defined.
