(* ===== verification/Authn.v ===== *)
(** Model of [src/pkg/authn]: identities, the static, anonymous and webhook authenticators and
    their chain.  SSH public keys, their parsing and their fingerprints belong to
    [golang.org/x/crypto/ssh] and are parameters; the webhook's HTTP exchange is a parameter that
    returns the decoded response. *)

From S2P Require Import Prelude GoStrings GoStrconv Target.

Record UserInfo := mkUser {
  user_ID : string;
  user_Name : string;
  user_Email : string;
  user_EmailVerified : bool;
  user_Groups : list string;
  user_Extra : gmap string (list string);
}.

Record AuthenticateInfo := mkAuthInfo {
  info_User : UserInfo;
  info_Method : string;
  info_TargetHints : list Hint;
  info_Extra : gmap string (list string);
}.

Record AuthorizedKeyEntry := mkKeyEntry {
  ke_Subject : string; ke_PublicKey : string; ke_Groups : list string }.
Record PasswordEntry := mkPasswordEntry {
  pe_Subject : string; pe_Password : string; pe_Groups : list string }.

(** The golang.org/x/crypto/ssh operations on public keys. *)
Class SSHKeys := {
  PublicKey : Type;
  ParseAuthorizedKey : string → result PublicKey;
  MarshalKey : PublicKey → string;
  MarshalAuthorizedKey : PublicKey → string;
  FingerprintSHA256 : PublicKey → string;
}.

Definition ParseAuthorizedKeyEntry (value : string) : result AuthorizedKeyEntry :=
  match Cut value "=" with
  | Some (subject, publicKey) =>
      if bool_decide (subject = "") || bool_decide (publicKey = "")
      then Err (Errorf "authorized key must be subject=authorized_keys-line" [])
      else Ok (mkKeyEntry subject publicKey [])
  | None => Err (Errorf "authorized key must be subject=authorized_keys-line" [])
  end.

Definition ParsePasswordEntry (value : string) : result PasswordEntry :=
  match Cut value "=" with
  | Some (subject, password) =>
      if bool_decide (subject = "") || bool_decide (password = "")
      then Err (Errorf "password must be subject=password" [])
      else Ok (mkPasswordEntry subject password [])
  | None => Err (Errorf "password must be subject=password" [])
  end.

Section Authn.
Context `{SSHKeys}.

(** [SSHAuthenticator]. *)
Record SSHAuthenticator := mkAuthenticator {
  AuthenticateBasic : string → string → result AuthenticateInfo;
  AuthenticatePublicKey : string → PublicKey → result AuthenticateInfo;
}.

(** The loop shared by both methods of [Chain]. *)
Fixpoint chain_try (attempts : list (result AuthenticateInfo)) : result AuthenticateInfo :=
  match attempts with
  | [] => Err (ESentinel authn_ErrNotProvided)
  | Ok info :: _ => Ok info
  | Err e :: rest => if errors_Is e authn_ErrNotProvided then chain_try rest else Err e
  end.
Definition authn_Chain (authenticators : list SSHAuthenticator) : SSHAuthenticator := {|
  AuthenticateBasic username password :=
    chain_try ((fun a => AuthenticateBasic a username password) <$> authenticators);
  AuthenticatePublicKey username pubkey :=
    chain_try ((fun a => AuthenticatePublicKey a username pubkey) <$> authenticators);
|}.

(** [anonymous.go] *)
Definition AnonymousUserName := "anonymous".
Definition anonymousInfo : AuthenticateInfo :=
  mkAuthInfo (mkUser "" AnonymousUserName "" false [] ∅) "anonymous" [] ∅.
Definition Anonymous : SSHAuthenticator := {|
  AuthenticateBasic _ _ := Ok anonymousInfo;
  AuthenticatePublicKey _ _ := Ok anonymousInfo;
|}.

(** [password.go] *)
Definition static_info (subject method : string) (groups : list string) : AuthenticateInfo :=
  mkAuthInfo (mkUser "" subject subject false groups ∅) method [] ∅.
Fixpoint static_passwords (entries : list PasswordEntry) : result (list (AuthenticateInfo * string)) :=
  match entries with
  | [] => Ok []
  | e :: es =>
      if bool_decide (pe_Subject e = "") || bool_decide (pe_Password e = "")
      then Err (Errorf "password entry requires subject and password" [])
      else parsed ← static_passwords es;
           Ok ((static_info (pe_Subject e) "password" (pe_Groups e), pe_Password e) :: parsed)
  end.
Definition StaticPassword_AuthenticateBasic (entries : list (AuthenticateInfo * string))
    (username password : string) : result AuthenticateInfo :=
  match find_first (fun e => bool_decide (e.2 = password)) entries with
  | Some e => Ok e.1
  | None => Err (Wrapf "%w: password rejected" [] (ESentinel authn_ErrNotProvided))
  end.
Definition NewStaticPasswordAuthenticator (entries : list PasswordEntry)
    : result SSHAuthenticator :=
  parsed ← static_passwords entries;
  Ok {| AuthenticateBasic := StaticPassword_AuthenticateBasic parsed;
        AuthenticatePublicKey _ _ := Err (ESentinel authn_ErrNotProvided) |}.

(** [publickey.go] *)
Fixpoint static_keys (entries : list AuthorizedKeyEntry) : result (list (AuthenticateInfo * string)) :=
  match entries with
  | [] => Ok []
  | e :: es =>
      match ParseAuthorizedKey (ke_PublicKey e) with
      | Err err => Err (Wrapf "parse authorized key for %q: %w" [ke_Subject e] err)
      | Ok key => parsed ← static_keys es;
                  Ok ((static_info (ke_Subject e) "publickey" (ke_Groups e), MarshalKey key) :: parsed)
      end
  end.
Definition StaticKey_AuthenticatePublicKey (entries : list (AuthenticateInfo * string))
    (username : string) (pubkey : PublicKey) : result AuthenticateInfo :=
  match find_first (fun e => bool_decide (e.2 = MarshalKey pubkey)) entries with
  | Some e => Ok e.1
  | None => Err (Wrapf "%w: public key %s" [FingerprintSHA256 pubkey]
                   (ESentinel authn_ErrNotProvided))
  end.
Definition NewStaticPublicKeyAuthenticator (entries : list AuthorizedKeyEntry)
    : result SSHAuthenticator :=
  parsed ← static_keys entries;
  Ok {| AuthenticateBasic _ _ := Err (ESentinel authn_ErrNotProvided);
        AuthenticatePublicKey := StaticKey_AuthenticatePublicKey parsed |}.

(** [webhook.go] *)
Definition WebhookCredentialPassword := "password".
Definition WebhookCredentialPublicKey := "publickey".
Record WebhookAuthenticateRequest := mkWebhookRequest {
  wr_Type : string;
  wr_SSHUser : string;
  wr_Password : option string;
  wr_PublicKey : option (string * string);
}.
Record WebhookTargetHint := mkWebhookHint {
  wh_Kind : string;
  wh_Options : list TOption;
  wh_Extra : gmap string (list string);
}.
Record WebhookAuthenticateResponse := mkWebhookResponse {
  wres_Authenticated : bool;
  wres_User : UserInfo;
  wres_Method : string;
  wres_TargetHints : list WebhookTargetHint;
  wres_Reason : string;
  wres_Error : string;
}.

Definition targetHintsFromWebhook (values : list WebhookTargetHint) : list Hint :=
  (fun v => mkHint (wh_Kind v) ((fun o => mkOption (Key o) (Value o)) <$> wh_Options v)
              (default [] (wh_Extra v !! "aliases"))) <$> values.

Section Webhook.
Context (Post : WebhookAuthenticateRequest → result WebhookAuthenticateResponse).

Definition webhook_authenticate (req : WebhookAuthenticateRequest) : result AuthenticateInfo :=
  resp ← Post req;
  if bool_decide (wres_Error resp ≠ "")
  then Err (Errorf "webhook authentication error: %s" [wres_Error resp])
  else if negb (wres_Authenticated resp)
  then Err (Errorf "%s" [if bool_decide (wres_Reason resp = "")
                         then "webhook authentication rejected" else wres_Reason resp])
  else if bool_decide (user_Name (wres_User resp) = "")
  then Err (Errorf "webhook authentication response requires user.name" [])
  else Ok (mkAuthInfo (wres_User resp)
             (if bool_decide (wres_Method resp = "") then "webhook" else wres_Method resp)
             (targetHintsFromWebhook (wres_TargetHints resp)) ∅).

Definition WebhookAuthenticator : SSHAuthenticator := {|
  AuthenticateBasic username password :=
    webhook_authenticate (mkWebhookRequest WebhookCredentialPassword username (Some password) None);
  AuthenticatePublicKey username pubkey :=
    webhook_authenticate (mkWebhookRequest WebhookCredentialPublicKey username None
      (Some (TrimSpace (MarshalAuthorizedKey pubkey), FingerprintSHA256 pubkey)));
|}.
End Webhook.

(** ** Properties *)

Lemma chain_try_Ok attempts info :
  chain_try attempts = Ok info ↔
  ∃ i, attempts !! i = Some (Ok info) ∧
    ∀ j, j < i → ∃ e, attempts !! j = Some (Err e) ∧ errors_Is e authn_ErrNotProvided = true.
Proof.
  induction attempts as [|[info'|e] rest IH]; simpl.
  - split; [done|]. by intros (i & ? & _).
  - split.
    + intros [= ->]. exists 0. split; [done|]. intros; lia.
    + intros ([|i] & Hi & Hall); [by simplify_eq/=|].
      destruct (Hall 0) as (e & He & _); [lia|done].
  - destruct (errors_Is e authn_ErrNotProvided) eqn:He; [rewrite IH; split|split].
    + intros (i & Hi & Hall). exists (S i). split; [done|].
      intros [|j] Hj; [by exists e|]. apply Hall. lia.
    + intros ([|i] & Hi & Hall); [done|]. exists i. split; [done|].
      intros j Hj. apply (Hall (S j)). lia.
    + done.
    + intros ([|i] & Hi & Hall); [done|]. destruct (Hall 0) as (e' & He' & ?); [lia|].
      simplify_eq/=. congruence.
Qed.

(** A chain of authenticators accepts a password with identity [info] exactly when one
    authenticator accepts it with [info] and every earlier one answered [ErrNotProvided]; in
    particular an authenticator that rejects the credential with any other error stops the chain,
    and an empty chain accepts nothing. *)
Theorem authn_Chain_first_accept authenticators username password info :
  AuthenticateBasic (authn_Chain authenticators) username password = Ok info ↔
  ∃ i a, authenticators !! i = Some a ∧ AuthenticateBasic a username password = Ok info ∧
    ∀ j b, j < i → authenticators !! j = Some b →
      ∃ e, AuthenticateBasic b username password = Err e ∧
           errors_Is e authn_ErrNotProvided = true.
Proof.
  simpl. rewrite chain_try_Ok. setoid_rewrite list_lookup_fmap. split.
  - intros (i & Hi & Hall). apply fmap_Some in Hi as (a & Ha & Hacc).
    exists i, a. split_and!; [done..|]. intros j b Hj Hb.
    destruct (Hall j Hj) as (e & He & ?). rewrite Hb in He. simplify_eq/=. eauto.
  - intros (i & a & Ha & Hacc & Hall). exists i. rewrite Ha. simpl. split; [by f_equal|].
    intros j Hj. destruct (lookup_lt_is_Some_2 authenticators j) as [b Hb].
    { apply lookup_lt_Some in Ha. lia. }
    destruct (Hall j b Hj Hb) as (e & He & ?). rewrite Hb. simpl. exists e. by rewrite He.
Qed.

Lemma static_passwords_Ok entries parsed :
  static_passwords entries = Ok parsed →
  parsed = (fun e => (static_info (pe_Subject e) "password" (pe_Groups e), pe_Password e)) <$> entries
  ∧ Forall (fun e => pe_Subject e ≠ "" ∧ pe_Password e ≠ "") entries.
Proof.
  revert parsed. induction entries as [|e es IH]; intros parsed; simpl.
  - intros [= <-]. by split.
  - destruct (bool_decide (pe_Subject e = "") || bool_decide (pe_Password e = "")) eqn:Hb; [done|].
    breflect. intros Hr. apply result_bind_Ok in Hr as (p & Hp & [= <-]).
    destruct (IH p Hp) as [-> Hall]. split; [done|]. by constructor.
Qed.

(** Static passwords.  The authenticator built from a valid configuration accepts exactly
    the configured passwords, with the identity of the first entry that has the password and
    whatever the SSH user name; it never accepts the empty password and never a public key, and a
    rejection lets the chain continue. *)
Theorem StaticPassword_exact entries a username password :
  NewStaticPasswordAuthenticator entries = Ok a →
  (∀ info, AuthenticateBasic a username password = Ok info ↔
     password ≠ "" ∧
     ∃ i e, entries !! i = Some e ∧ pe_Password e = password ∧
       info = static_info (pe_Subject e) "password" (pe_Groups e) ∧
       ∀ j e', j < i → entries !! j = Some e' → pe_Password e' ≠ password) ∧
  (∀ err, AuthenticateBasic a username password = Err err → errors_Is err authn_ErrNotProvided = true) ∧
  (∀ key, AuthenticatePublicKey a username key = Err (ESentinel authn_ErrNotProvided)).
Proof.
  unfold NewStaticPasswordAuthenticator. intros Ha.
  apply result_bind_Ok in Ha as (parsed & Hp & [= <-]). simpl.
  destruct (static_passwords_Ok _ _ Hp) as [-> Hne]. rewrite Forall_forall in Hne.
  unfold StaticPassword_AuthenticateBasic, find_first. split_and!; [intros info| |done].
  - destruct (find_index _ _) as [[i x]|] eqn:Hf; simpl.
    + apply find_index_Some in Hf as (Hi & Hx & Hmin). breflect.
      rewrite list_lookup_fmap in Hi. apply fmap_Some in Hi as (e & Hi & ->). simpl in *.
      assert (∀ j e', j < i → entries !! j = Some e' → pe_Password e' ≠ password) as Hmin'.
      { intros j e' Hj He' Hpe.
        specialize (Hmin j (static_info (pe_Subject e') "password" (pe_Groups e'), pe_Password e') Hj).
        rewrite list_lookup_fmap, He' in Hmin. specialize (Hmin eq_refl). by breflect. }
      split.
      * intros [= <-]. split; [|by eauto 10].
        subst password. apply Hne. by eapply list_elem_of_lookup_2.
      * intros (_ & k & e' & Hk & Hpe & -> & Hmin2).
        destruct (Nat.lt_trichotomy i k) as [Hlt|[->|Hlt]]; [|by simplify_eq|].
        -- by destruct (Hmin2 i e Hlt Hi).
        -- by destruct (Hmin' k e' Hlt Hk).
    + apply find_index_None in Hf. split; [done|]. intros (_ & i & e & Hi & Hpe & _).
      rewrite Forall_fmap, Forall_forall in Hf. specialize (Hf e). simpl in Hf.
      rewrite bool_decide_eq_true_2 in Hf by done. discriminate Hf.
      by eapply list_elem_of_lookup_2.
  - intros err. case_match; [done|]. by intros [= <-].
Qed.
End Authn.

(** Toy keys, for witnesses: a key is its authorized_keys line. *)
Definition toy_keys : SSHKeys := {|
  PublicKey := string;
  ParseAuthorizedKey s := if bool_decide (s = "") then Err (EExternal "no key") else Ok s;
  MarshalKey s := s;
  MarshalAuthorizedKey s := s;
  FingerprintSHA256 s := "SHA256:" +:+ s;
|}.

Lemma StaticPassword_exact_witness :
  ∃ a : @SSHAuthenticator toy_keys,
    NewStaticPasswordAuthenticator [mkPasswordEntry "alice" "pw" ["dev"]] = Ok a ∧
    AuthenticateBasic a "ns.pod" "pw" = Ok (static_info "alice" "password" ["dev"]).
Proof.
  eexists. split; [reflexivity|].
  apply (proj2 (proj1 (@StaticPassword_exact toy_keys [mkPasswordEntry "alice" "pw" ["dev"]] _
    "ns.pod" "pw" eq_refl) _)).
  split; [done|]. exists 0, (mkPasswordEntry "alice" "pw" ["dev"]).
  split_and!; [done..|]. intros; lia.
Defined.
