(* ===== verification/AccessStore.v ===== *)
(** Models of [src/pkg/accesspolicy]: [store.go] (the in-memory store), [policy_cache.go] (the
    informer-backed store and the matching of credentials), the Access locators of [resolver.go],
    [authenticator.go], [context.go] and [authentication_methods.go].

    An informer indexer (client-go) is a parameter: a lookup by key and a list, both of objects
    that may have an unexpected type. *)

From S2P Require Import Prelude GoStrings GoStrconv Kube Target Strategy StrategyProps Authn.

Definition ErrAccessNotFound_at (namespace name : string) : error :=
  Wrapf "%w: %s/%s" [namespace; name] (ESentinel ErrAccessNotFound).

(** ** [types.go] *)

(** [AccessGetter.Get]. *)
Definition AccessGetter : Type := string → string → result Access.

(** What every store promises its clients: the object found is the one asked for. *)
Class AccessGetterLaws (Get : AccessGetter) : Prop := {
  Get_identity : ∀ ns name a, Get ns name = Ok a → acc_Namespace a = ns ∧ acc_Name a = name;
}.

Record CredentialMatch := mkMatch {
  match_Access : Access;
  match_Credential : AccessCredential;
}.

(** ** [store.go] *)

Definition accessLess (a b : Access) : bool :=
  if bool_decide (acc_CreationTimestamp a ≠ acc_CreationTimestamp b)
  then bool_decide (acc_CreationTimestamp a < acc_CreationTimestamp b)%Z
  else if bool_decide (acc_Namespace a ≠ acc_Namespace b)
  then string_lt (acc_Namespace a) (acc_Namespace b)
  else string_lt (acc_Name a) (acc_Name b).
Definition accessLe (a b : Access) : Prop := accessLess b a = false.
#[export] Instance accessLe_dec : RelDecision accessLe.
Proof. intros p q. unfold accessLe. apply _. Defined.
Definition sortAccesses (accesses : list Access) : list Access := merge_sort accessLe accesses.

Definition isPodAccess (access : Access) : bool :=
  bool_decide (spec_Type (acc_Spec access) = "") ||
  bool_decide (spec_Type (acc_Spec access) = AccessTypePod).

(** [MemoryStore]; the entries are deep copies, so plain values (shown in [AccessHeapProps]). *)
Definition MemoryStore : Type := gmap string Access.
Definition MemoryStore_Set (s : MemoryStore) (access : Access) : MemoryStore :=
  <[accessKey (acc_Namespace access) (acc_Name access) := access]> s.
Definition NewMemoryStore (accesses : list Access) : MemoryStore :=
  foldl MemoryStore_Set ∅ accesses.
Definition MemoryStore_Get (s : MemoryStore) : AccessGetter := fun namespace name =>
  match s !! accessKey namespace name with
  | None => Err (ErrAccessNotFound_at namespace name)
  | Some access => Ok access
  end.
Definition MemoryStore_List (s : MemoryStore) : list Access :=
  sortAccesses ((map_to_list s).*2).

(** ** Locators ([resolver.go]) *)

Record accessLocator := mkLocator {
  loc_namespace : string;
  loc_access : string;
  loc_pod : string;
  loc_container : string;
}.

Section Locators.
Context (Get : AccessGetter).

(** A lookup whose [ErrAccessNotFound] means "not provided". *)
Definition get_located (namespace name : string) (locator : accessLocator)
    : result (option (accessLocator * Access)) :=
  match Get namespace name with
  | Ok access => Ok (Some (locator, access))
  | Err e => if errors_Is e ErrAccessNotFound then Ok None else Err e
  end.

Definition resolveAccessContainerLocator (namespace remainder : string)
    : result (option (accessLocator * Access)) :=
  match LastIndexByte remainder "." with
  | None => Ok None
  | Some idx =>
      if bool_decide (idx = 0) || bool_decide (idx = slen remainder - 1) then Ok None
      else
        let name := stake idx remainder in
        let container := sdrop (idx + 1) remainder in
        get_located namespace name (mkLocator namespace name "" container)
  end.

Definition resolveAccessLocator (sshUser : string) : result (option (accessLocator * Access)) :=
  match Cut sshUser "." with
  | None => Ok None
  | Some (namespace, remainder) =>
      if bool_decide (namespace = "") || bool_decide (remainder = "") then Ok None
      else match Cut remainder "~" with
           | Some (name, pod) =>
               if bool_decide (name = "") || bool_decide (pod = "") then Ok None
               else get_located namespace name (mkLocator namespace name pod "")
           | None =>
               match Get namespace remainder with
               | Ok access => Ok (Some (mkLocator namespace remainder "" "", access))
               | Err e => if errors_Is e ErrAccessNotFound
                          then resolveAccessContainerLocator namespace remainder else Err e
               end
           end
  end.

Definition parseAccessLocatorFor (sshUser namespace name : string) : option accessLocator :=
  let prefix := namespace +:+ "." +:+ name in
  if bool_decide (sshUser = prefix) then Some (mkLocator namespace name "" "")
  else if HasPrefix sshUser (prefix +:+ "~")
  then let pod := TrimPrefix sshUser (prefix +:+ "~") in
       if bool_decide (pod ≠ "") then Some (mkLocator namespace name pod "") else None
  else if HasPrefix sshUser (prefix +:+ ".")
  then let container := TrimPrefix sshUser (prefix +:+ ".") in
       if bool_decide (container ≠ "") && negb (ContainsByte container ".")
       then Some (mkLocator namespace name "" container) else None
  else None.

Definition resolveRequestedAccess (sshUser : string) (extra : gmap string (list string))
    : result (option (accessLocator * Access)) :=
  let authNamespace := GetExtra extra ExtraAccessNamespace in
  let authName := GetExtra extra ExtraAccessName in
  if bool_decide (authNamespace ≠ "") || bool_decide (authName ≠ "")
  then
    if bool_decide (authNamespace = "") || bool_decide (authName = "")
    then Err (EStatus BadRequest "authenticated access identity is incomplete" [])
    else match parseAccessLocatorFor sshUser authNamespace authName with
         | None => Err (EStatus BadRequest "target %q does not match authenticated access %s/%s"
                          [sshUser; authNamespace; authName])
         | Some locator => get_located authNamespace authName locator
         end
  else resolveAccessLocator sshUser.
End Locators.

(** ** [policy_cache.go] *)

(** An object of an informer cache: [any] in Go. *)
Inductive cached (A : Type) :=
| CObj (a : A)
| COther (type : string).
Arguments CObj {A} a.
Arguments COther {A} type.

(** [cache.Indexer], as far as it is used. *)
Record Indexer (A : Type) := mkIndexer {
  GetByKey : string → result (option (cached A));
  Indexer_List : list (cached A);
}.
Arguments mkIndexer {A}.
Arguments GetByKey {A}.
Arguments Indexer_List {A}.

(** A nil indexer is [None]. *)
Record PolicyCache := mkPolicyCache {
  accessIndexer : option (Indexer Access);
  secretIndexer : option (Indexer Secret);
  pc_namespace : string;
  pc_gatewayClassName : string;
}.

Definition gatewayClassName (access : Access) : string :=
  default "" (spec_GatewayClassName (acc_Spec access)).

Definition acceptAccess (c : PolicyCache) (access : Access) : bool :=
  if bool_decide (pc_namespace c ≠ "") && bool_decide (acc_Namespace access ≠ pc_namespace c)
  then false
  else bool_decide (gatewayClassName access = pc_gatewayClassName c).

Definition PolicyCache_Get (c : PolicyCache) : AccessGetter := fun namespace name =>
  match accessIndexer c with
  | None => Err (Errorf "access policy cache requires an access indexer" [])
  | Some indexer =>
      if bool_decide (pc_namespace c ≠ "") && bool_decide (namespace ≠ pc_namespace c)
      then Err (ErrAccessNotFound_at namespace name)
      else
        obj ← GetByKey indexer (accessKey namespace name);
        match obj with
        | None => Err (ErrAccessNotFound_at namespace name)
        | Some (COther t) =>
            Err (Errorf "access cache object %s/%s has unexpected type %T" [namespace; name; t])
        | Some (CObj access) =>
            if negb (acceptAccess c access) then Err (ErrAccessNotFound_at namespace name)
            else Ok access
        end
  end.

Fixpoint accepted_accesses (c : PolicyCache) (objects : list (cached Access)) : result (list Access) :=
  match objects with
  | [] => Ok []
  | COther t :: _ => Err (Errorf "access cache object has unexpected type %T" [t])
  | CObj access :: rest =>
      accesses ← accepted_accesses c rest;
      Ok (if acceptAccess c access then access :: accesses else accesses)
  end.
Definition PolicyCache_List (c : PolicyCache) : result (list Access) :=
  match accessIndexer c with
  | None => Err (Errorf "access policy cache requires an access indexer" [])
  | Some indexer => accesses ← accepted_accesses c (Indexer_List indexer); Ok (sortAccesses accesses)
  end.

(** [SecretValue]. *)
Definition SecretValue (c : PolicyCache) (namespace : string) (ref : LocalSecretKeyRef) : result string :=
  if bool_decide (ref_Name ref = "") || bool_decide (ref_Key ref = "")
  then Err (Errorf "incomplete secret reference in namespace %q" [namespace])
  else match secretIndexer c with
       | None => Err (Errorf "access policy cache requires a secret indexer" [])
       | Some indexer =>
           obj ← GetByKey indexer (accessKey namespace (ref_Name ref));
           match obj with
           | None => Err (Errorf "secret %s/%s not found" [namespace; ref_Name ref])
           | Some (COther t) => Err (Errorf "secret cache object %s/%s has unexpected type %T"
                                       [namespace; ref_Name ref; t])
           | Some (CObj secret) =>
               match secret_Data secret !! ref_Key ref with
               | None => Err (Errorf "secret %s/%s has no key %q"
                                [namespace; ref_Name ref; ref_Key ref])
               | Some value => Ok value
               end
           end
       end.

Definition LF : ascii := "010"%char.
Definition splitSecretLines (value : string) : list string :=
  filter (fun line => line ≠ "") (TrimSpace <$> Split value LF).

Section Credentials.
Context `{SSHKeys} (c : PolicyCache).

Definition keyFingerprint (line : string) : string :=
  let line := TrimSpace line in
  if bool_decide (line = "") then ""
  else match ParseAuthorizedKey line with
       | Err _ => ""
       | Ok pubkey => FingerprintSHA256 pubkey
       end.

Definition credentialPasswords (namespace : string) (credential : AccessCredential)
    : result (gset string) :=
  let values : gset string := list_to_set (filter (fun v => v ≠ "") (cred_Passwords credential)) in
  foldM (fun values ref =>
           value ← SecretValue c namespace ref;
           Ok (values ∪ list_to_set (splitSecretLines value)))
    values (cred_PasswordsFrom credential).

Definition add_fingerprint (err : error) (values : gset string) (line : string) : result (gset string) :=
  let fingerprint := keyFingerprint line in
  if bool_decide (fingerprint = "") then Err err else Ok (values ∪ {[fingerprint]}).

Definition credentialPublicKeys (namespace : string) (credential : AccessCredential)
    : result (gset string) :=
  values ← foldM (add_fingerprint
             (Errorf "credential %q in namespace %q contains an invalid public key"
                [cred_Username credential; namespace])) ∅ (cred_PublicKeys credential);
  foldM (fun values ref =>
           value ← SecretValue c namespace ref;
           foldM (add_fingerprint
                    (Errorf "credential %q public key reference %s/%s:%s contains an invalid public key"
                       [cred_Username credential; namespace; ref_Name ref; ref_Key ref]))
             values (splitSecretLines value))
    values (cred_PublicKeysFrom credential).

Definition credentialMatch (access : Access) (matches : list nat) (kind : string)
    : result CredentialMatch :=
  match matches with
  | [] => Err (ESentinel authn_ErrNotProvided)
  | [i] => match spec_Credentials (acc_Spec access) !! i with
           | Some credential => Ok (mkMatch access credential)
           | None => Err (EPanic "index out of range")
           end
  | _ => Err (Errorf "%s maps to multiple credential identities in access %s/%s"
                [kind; acc_Namespace access; acc_Name access])
  end.

(** The loop over the credentials, which collects the indices whose material has [token].  The
    scan of a Go map in an unspecified order stops at an equal value: a membership test. *)
Fixpoint collect_matches (values : AccessCredential → result (gset string)) (token : string)
    (i : nat) (credentials : list AccessCredential) (matches : list nat) : result (list nat) :=
  match credentials with
  | [] => Ok matches
  | credential :: rest =>
      vs ← values credential;
      collect_matches values token (S i) rest
        (if bool_decide (token ∈ vs) then matches ++ [i] else matches)
  end.

Definition MatchPassword (sshUser token : string) : result CredentialMatch :=
  if bool_decide (token = "") then Err (ESentinel authn_ErrNotProvided)
  else
    located ← resolveAccessLocator (PolicyCache_Get c) sshUser;
    match located with
    | None => Err (ESentinel authn_ErrNotProvided)
    | Some (_, access) =>
        matches ← collect_matches (credentialPasswords (acc_Namespace access)) token 0
                    (spec_Credentials (acc_Spec access)) [];
        credentialMatch access matches "password"
    end.

(** The nil public key is [None]. *)
Definition MatchPublicKey (sshUser : string) (pubkey : option PublicKey) : result CredentialMatch :=
  match pubkey with
  | None => Err (ESentinel authn_ErrNotProvided)
  | Some pubkey =>
      located ← resolveAccessLocator (PolicyCache_Get c) sshUser;
      match located with
      | None => Err (ESentinel authn_ErrNotProvided)
      | Some (_, access) =>
          matches ← collect_matches (credentialPublicKeys (acc_Namespace access))
                      (FingerprintSHA256 pubkey) 0 (spec_Credentials (acc_Spec access)) [];
          credentialMatch access matches "public key"
      end
  end.

(** ** [authenticator.go] and [context.go] *)

Definition CredentialTypePassword := "password".
Definition CredentialTypePublicKey := "publickey".

Definition authExtra (m : CredentialMatch) (credentialType : string) : gmap string (list string) :=
  <[ExtraAccessNamespace := [acc_Namespace (match_Access m)]]>
  (<[ExtraAccessName := [acc_Name (match_Access m)]]>
  (<[ExtraCredentialUser := [cred_Username (match_Credential m)]]>
  {[ExtraCredentialType := [credentialType]]})).

Definition matchUser (m : CredentialMatch) : UserInfo :=
  mkUser (cred_UID (match_Credential m)) (cred_Username (match_Credential m)) "" false
    (cred_Groups (match_Credential m)) (cred_Extra (match_Credential m)).

Definition AccessAuthenticator : SSHAuthenticator := {|
  AuthenticateBasic sshUser password :=
    m ← MatchPassword sshUser password;
    Ok (mkAuthInfo (matchUser m) "crd-password" [] (authExtra m CredentialTypePassword));
  AuthenticatePublicKey sshUser pubkey :=
    m ← MatchPublicKey sshUser (Some pubkey);
    Ok (mkAuthInfo (matchUser m) "crd-publickey" [] (authExtra m CredentialTypePublicKey));
|}.
End Credentials.

(** ** [authentication_methods.go] *)

(** [Ok None] is [found = false]. *)
Definition AuthenticationMethods (Get : AccessGetter) (sshUser : string)
    : result (option (list string)) :=
  located ← resolveAccessLocator Get sshUser;
  match located with
  | None => Ok None
  | Some (_, access) =>
      let credentials := spec_Credentials (acc_Spec access) in
      let publicKey := existsb (fun cr =>
        bool_decide (0 < length (cred_PublicKeysFrom cr)) ||
        existsb (fun v => bool_decide (v ≠ "")) (cred_PublicKeys cr)) credentials in
      let password := existsb (fun cr =>
        bool_decide (0 < length (cred_PasswordsFrom cr)) ||
        existsb (fun v => bool_decide (v ≠ "")) (cred_Passwords cr)) credentials in
      Ok (Some ((if publicKey then [CredentialTypePublicKey] else []) ++
                (if password then [CredentialTypePassword] else [])))
  end.
