(* ===== verification/AccessStoreProps.v ===== *)
(** Properties of the Access stores, locators and credential matching of [AccessStore]. *)

From S2P Require Import Prelude GoStrings GoStrconv Kube Target Strategy StrategyProps Authn AccessStore.

(** ** Stores *)

Lemma accessKey_inj ns name ns' name' :
  ContainsByte ns' "/" = false → ContainsByte name' "/" = false →
  accessKey ns name = accessKey ns' name' → ns = ns' ∧ name = name'.
Proof.
  intros Hns Hname Heq. unfold accessKey in Heq.
  assert (Cut (ns' +:+ String "/" name') "/" = Some (ns', name')) as Hcut by by apply Cut_app.
  destruct (sep_case ns "/") as [Hn|(a & b & -> & Ha & _)].
  - assert (Cut (ns +:+ String "/" name) "/" = Some (ns, name)) as Hcut' by by apply Cut_app.
    change ("/" +:+ name) with (String "/" name) in Heq.
    change ("/" +:+ name') with (String "/" name') in Heq.
    rewrite Heq, Hcut in Hcut'. by simplify_eq.
  - exfalso. assert (Cut ((a +:+ String "/" b) +:+ String "/" name) "/"
                     = Some (a, b +:+ String "/" name)) as Hcut'.
    { rewrite <-sapp_assoc. by apply Cut_app. }
    change ("/" +:+ name) with (String "/" name) in Heq.
    change ("/" +:+ name') with (String "/" name') in Heq.
    rewrite Heq, Hcut in Hcut'. simplify_eq.
    rewrite ContainsByte_app, orb_false_iff in Hname. destruct Hname as [_ Hname].
    simpl in Hname. done.
Qed.

(** Kubernetes names have no slash. *)
Definition valid_name (a : Access) : Prop :=
  ContainsByte (acc_Namespace a) "/" = false ∧ ContainsByte (acc_Name a) "/" = false.

(** What client-go's informer promises with the standard key function. *)
Definition keyed_accesses (c : PolicyCache) : Prop :=
  ∀ indexer k a, accessIndexer c = Some indexer → GetByKey indexer k = Ok (Some (CObj a)) →
    k = accessKey (acc_Namespace a) (acc_Name a) ∧ valid_name a.

Lemma PolicyCache_Get_Ok c ns name a :
  PolicyCache_Get c ns name = Ok a →
  acceptAccess c a = true ∧ ∃ indexer, accessIndexer c = Some indexer ∧
    GetByKey indexer (accessKey ns name) = Ok (Some (CObj a)).
Proof.
  unfold PolicyCache_Get. destruct (accessIndexer c) as [indexer|]; [|done].
  case_match; [done|]. intros Hr. apply result_bind_Ok in Hr as (obj & Hobj & Hr).
  destruct obj as [[a'|t]|]; [|done..]. destruct (acceptAccess c a') eqn:Hacc; simpl in Hr; [|done].
  injection Hr as ->. eauto.
Qed.

#[export] Instance PolicyCache_laws c : keyed_accesses c → AccessGetterLaws (PolicyCache_Get c).
Proof.
  intros Hk. split. intros ns name a Ha. apply PolicyCache_Get_Ok in Ha as (_ & ix & Hix & Hg).
  destruct (Hk _ _ _ Hix Hg) as [Heq [Hn Hm]].
  destruct (accessKey_inj _ _ _ _ Hn Hm Heq) as [-> ->]. done.
Qed.

Lemma MemoryStore_fold accesses s k a :
  foldl MemoryStore_Set s accesses !! k = Some a →
  s !! k = Some a ∨ (a ∈ accesses ∧ k = accessKey (acc_Namespace a) (acc_Name a)).
Proof.
  revert s. induction accesses as [|b l IH]; intros s; simpl; [by left|].
  intros Hk. apply IH in Hk as [Hk|[? ?]]; [|right; split; [by right|done]].
  unfold MemoryStore_Set in Hk. apply lookup_insert_Some in Hk as [[<- ->]|[_ ?]]; [|by left].
  right. split; [left|done].
Qed.

#[export] Instance MemoryStore_laws accesses :
  Forall valid_name accesses → AccessGetterLaws (MemoryStore_Get (NewMemoryStore accesses)).
Proof.
  intros Hv. split. intros ns name a. unfold MemoryStore_Get.
  destruct (_ !! _) as [b|] eqn:Hb; [|done]. intros [= ->].
  apply MemoryStore_fold in Hb as [Hb|[Hin Heq]]; [by destruct (lookup_empty_Some (M := gmap string) _ _ Hb)|].
  rewrite Forall_forall in Hv. destruct (Hv a Hin) as [Hn Hm].
  destruct (accessKey_inj _ _ _ _ Hn Hm Heq) as [-> ->]. done.
Qed.

(** ** Locators *)

Section Locators.
Context (Get : AccessGetter).

Lemma get_located_Some ns name l l' a :
  get_located Get ns name l = Ok (Some (l', a)) ↔ l' = l ∧ Get ns name = Ok a.
Proof.
  unfold get_located. destruct (Get ns name) as [b|e]; [naive_solver|].
  destruct (errors_Is e ErrAccessNotFound); naive_solver.
Qed.

(** The user name a locator stands for. *)
Definition locator_user (l : accessLocator) : string :=
  loc_namespace l +:+ "." +:+ loc_access l +:+
  (if bool_decide (loc_pod l ≠ "") then "~" +:+ loc_pod l else "") +:+
  (if bool_decide (loc_container l ≠ "") then "." +:+ loc_container l else "").

Definition wf_locator (l : accessLocator) : Prop :=
  loc_namespace l ≠ "" ∧ loc_access l ≠ "" ∧ ContainsByte (loc_namespace l) "." = false ∧
  ContainsByte (loc_access l) "~" = false ∧ ContainsByte (loc_container l) "." = false ∧
  (loc_pod l = "" ∨ loc_container l = "").

Lemma resolveAccessLocator_Some sshUser l a :
  resolveAccessLocator Get sshUser = Ok (Some (l, a)) →
  wf_locator l ∧ sshUser = locator_user l ∧ Get (loc_namespace l) (loc_access l) = Ok a ∧
  (loc_container l ≠ "" →
     ∃ e, Get (loc_namespace l) (loc_access l +:+ "." +:+ loc_container l) = Err e ∧
          errors_Is e ErrAccessNotFound = true).
Proof.
  unfold resolveAccessLocator. destruct (Cut sshUser ".") as [[ns rem]|] eqn:Hcut; [|done].
  apply Cut_Some in Hcut as [-> Hns].
  destruct (bool_decide (ns = "") || bool_decide (rem = "")) eqn:Hb; [done|]. breflect.
  destruct (Cut rem "~") as [[name pod]|] eqn:Htilde.
  - apply Cut_Some in Htilde as [-> Hname].
    destruct (bool_decide (name = "") || bool_decide (pod = "")) eqn:Hb; [done|]. breflect.
    intros Hl. apply get_located_Some in Hl as [-> Hget].
    unfold wf_locator, locator_user. cbn [loc_namespace loc_access loc_pod loc_container].
    rewrite bool_decide_eq_true_2, (bool_decide_eq_false_2 ("" ≠ "")), sapp_nil_r by naive_solver.
    split_and!; try done. by right.
  - apply Cut_None in Htilde. destruct (Get ns rem) as [b|e] eqn:Hget.
    + intros [= <- <-]. unfold wf_locator, locator_user.
      cbn [loc_namespace loc_access loc_pod loc_container].
      rewrite !(bool_decide_eq_false_2 ("" ≠ "")), !sapp_nil_r by naive_solver.
      split_and!; try done. by left.
    + destruct (errors_Is e ErrAccessNotFound) eqn:He; [|done].
      unfold resolveAccessContainerLocator.
      destruct (LastIndexByte rem ".") as [idx|] eqn:Hidx; [|done].
      apply LastIndexByte_Some in Hidx as (name & container & -> & Hlen & Hc).
      rewrite slen_app. cbn [slen String.length].
      destruct (bool_decide (idx = 0) || _) eqn:Hb; [done|]. breflect.
      rewrite <-Hlen, stake_app.
      change (name +:+ String "." container) with (name +:+ ("." +:+ container)).
      rewrite sapp_assoc.
      replace (slen name + 1) with (slen (name +:+ ".")) by by rewrite slen_app.
      rewrite sdrop_app, <-sapp_assoc.
      intros Hl. apply get_located_Some in Hl as [-> Hget'].
      assert (container ≠ "") as Hne.
      { intros ->. simpl in *. lia. }
      unfold wf_locator, locator_user. cbn [loc_namespace loc_access loc_pod loc_container].
      rewrite (bool_decide_eq_false_2 ("" ≠ "")), bool_decide_eq_true_2, sapp_nil_l by naive_solver.
      rewrite ContainsByte_app, orb_false_iff in Htilde. destruct Htilde.
      split_and!; try done.
      * intros ->. simpl in *. lia.
      * by left.
      * intros _. by exists e.
Qed.
(** A parsed user name is parsed the same way when the Access it names is already known. *)
Lemma parseAccessLocatorFor_user l :
  wf_locator l → parseAccessLocatorFor (locator_user l) (loc_namespace l) (loc_access l) = Some l.
Proof.
  destruct l as [ns name pod container]. unfold wf_locator, locator_user, parseAccessLocatorFor.
  cbn [loc_namespace loc_access loc_pod loc_container].
  intros (Hns & Hname & _ & _ & Hcont & Hpc). rewrite !(sapp_assoc ns), !(sapp_assoc (ns +:+ ".")).
  set (prefix := (ns +:+ ".") +:+ name).
  assert (∀ t, t ≠ "" → prefix +:+ t ≠ prefix) as Hneq.
  { intros t Ht Heq. apply Ht. apply (sapp_inj_l prefix). by rewrite Heq, sapp_nil_r. }
  destruct (decide (pod = "")) as [->|Hpod].
  - rewrite (bool_decide_eq_false_2 ("" ≠ "")), sapp_nil_l by naive_solver.
    destruct (decide (container = "")) as [->|Hc].
    + by rewrite (bool_decide_eq_false_2 ("" ≠ "")), sapp_nil_r, bool_decide_eq_true_2 by naive_solver.
    + rewrite (bool_decide_eq_true_2 (container ≠ "")), bool_decide_eq_false_2 by auto.
      assert (HasPrefix (prefix +:+ "." +:+ container) (prefix +:+ "~") = false) as ->.
      { apply not_true_iff_false. rewrite HasPrefix_spec. intros [t Ht].
        rewrite <-sapp_assoc in Ht. apply sapp_inj_l in Ht. done. }
      rewrite sapp_assoc, HasPrefix_app, TrimPrefix_app.
      by rewrite bool_decide_eq_true_2, Hcont by done.
  - destruct Hpc as [?| ->]; [done|].
    rewrite (bool_decide_eq_true_2 (pod ≠ "")), (bool_decide_eq_false_2 ("" ≠ "")), sapp_nil_r
      by naive_solver.
    rewrite bool_decide_eq_false_2 by auto. rewrite sapp_assoc, HasPrefix_app, TrimPrefix_app.
    by rewrite bool_decide_eq_true_2.
Qed.
End Locators.

(** Locator round trips.  For an Access [ns/name] of the store whose parts are well formed
    (no dot in the namespace, no tilde in the name), the SSH users [ns.name], [ns.name~pod] and
    [ns.name.container] are resolved to exactly that Access, Pod and container; the last form
    needs the dotted name not to be an Access of its own, which wins. *)
Theorem locator_roundtrip (Get : AccessGetter) l a :
  wf_locator l → ContainsByte (loc_container l) "~" = false →
  Get (loc_namespace l) (loc_access l) = Ok a →
  (loc_container l ≠ "" →
     ∃ e, Get (loc_namespace l) (loc_access l +:+ "." +:+ loc_container l) = Err e ∧
          errors_Is e ErrAccessNotFound = true) →
  resolveAccessLocator Get (locator_user l) = Ok (Some (l, a)).
Proof.
  destruct l as [ns name pod container]. unfold wf_locator, locator_user, resolveAccessLocator.
  cbn [loc_namespace loc_access loc_pod loc_container].
  intros (Hns & Hname & Hdot & Htilde & Hcdot & Hpc) Hctilde Hget Hdotted.
  change ("." +:+ ?x) with (String "." x). rewrite Cut_app by done.
  destruct (decide (pod = "")) as [->|Hpod].
  - rewrite (bool_decide_eq_false_2 ("" ≠ "")), !sapp_nil_l by naive_solver.
    destruct (decide (container = "")) as [->|Hc].
    + rewrite (bool_decide_eq_false_2 ("" ≠ "")), sapp_nil_r by naive_solver.
      rewrite !bool_decide_eq_false_2 by done. simpl.
      by rewrite (proj2 (Cut_None name "~") Htilde), Hget.
    + rewrite (bool_decide_eq_true_2 (container ≠ "")) by done.
      change ("." +:+ container) with (String "." container) in *. destruct (Hdotted Hc) as (e & He & Hnf).
      rewrite (bool_decide_eq_false_2 (ns = "")) by done.
      rewrite bool_decide_eq_false_2 by (by destruct name). simpl orb. cbv iota.
      assert (Cut (name +:+ String "." container) "~" = None) as ->.
      { apply Cut_None. by rewrite ContainsByte_app, Htilde. }
      change (name +:+ "." +:+ container) with (name +:+ String "." container) in He.
      rewrite He, Hnf. unfold resolveAccessContainerLocator.
      rewrite LastIndexByte_app by done. rewrite slen_app. cbn [slen String.length].
      rewrite !bool_decide_eq_false_2.
      2:{ intros ?. destruct container; [done|]. simpl in *. unfold slen in *. lia. }
      2:{ by destruct name. }
      simpl orb. cbv iota. rewrite stake_app.
      replace (name +:+ String "." container) with ((name +:+ ".") +:+ container)
        by (by rewrite <-sapp_assoc).
      replace (slen name + 1) with (slen (name +:+ ".")) by by rewrite slen_app.
      rewrite sdrop_app. by apply get_located_Some.
  - destruct Hpc as [?| ->]; [done|].
    rewrite (bool_decide_eq_true_2 (pod ≠ "")), (bool_decide_eq_false_2 ("" ≠ "")), sapp_nil_r
      by naive_solver.
    rewrite (bool_decide_eq_false_2 (ns = "")), bool_decide_eq_false_2 by (by try destruct name).
    simpl orb. cbv iota. change ("~" +:+ pod) with (String "~" pod). rewrite Cut_app by done.
    rewrite !bool_decide_eq_false_2 by done. by apply get_located_Some.
Qed.

Definition demo_store : AccessGetter := MemoryStore_Get (NewMemoryStore [pod_access "team" "web.v1" []]).
Lemma locator_roundtrip_witness :
  resolveAccessLocator demo_store "team.web.v1.sidecar" =
    Ok (Some (mkLocator "team" "web.v1" "" "sidecar", pod_access "team" "web.v1" [])).
Proof.
  apply (locator_roundtrip demo_store (mkLocator "team" "web.v1" "" "sidecar")).
  - repeat split; try done. by left.
  - done.
  - by vm_compute.
  - intros _. eexists. split; [by vm_compute|done].
Defined.

(** ** Matching credentials *)

Section Matching.
Context `{SSHKeys} (c : PolicyCache).

(** [credential] offers [token] among its material. *)
Definition offers (values : AccessCredential → result (gset string)) (token : string)
    (credential : AccessCredential) : Prop :=
  ∃ vs, values credential = Ok vs ∧ token ∈ vs.

Lemma collect_matches_Ok values token i creds ms r :
  collect_matches values token i creds ms = Ok r →
  (∀ cr, cr ∈ creds → is_ok (values cr) = true) ∧
  (∀ k, k ∈ r ↔ k ∈ ms ∨ ∃ j cr, creds !! j = Some cr ∧ k = i + j ∧ offers values token cr) ∧
  (NoDup ms → (∀ k, k ∈ ms → k < i) → NoDup r).
Proof.
  revert i ms. induction creds as [|cr creds IH]; intros i ms; cbn [collect_matches].
  { intros [= <-]. split_and!; [by intros cr ?%elem_of_nil| |done].
    intros k. split; [by left|]. intros [?|(j & cr & ? & _)]; [done|]. by rewrite lookup_nil in *. }
  intros Hr. apply result_bind_Ok in Hr as (vs & Hvs & Hr). apply IH in Hr as (Hok & Hmem & Hnd).
  split_and!.
  - intros cr' [->|?]%elem_of_cons; [by rewrite Hvs|auto].
  - intros k. rewrite Hmem. split.
    + intros [Hk|(j & cr' & Hj & -> & Ho)].
      * case_bool_decide as Hin; [|by left].
        apply elem_of_app in Hk as [?|Hk'%list_elem_of_singleton]; [by left|subst k].
        right. exists 0, cr. split_and!; [done|lia|]. by exists vs.
      * right. exists (S j), cr'. split_and!; [done|lia|done].
    + intros [Hk|([|j] & cr' & Hj & -> & Ho)].
      * left. case_bool_decide; [apply elem_of_app; by left|done].
      * simplify_eq/=. destruct Ho as (vs' & Hvs' & Hin). rewrite Hvs in Hvs'. simplify_eq.
        left. rewrite bool_decide_eq_true_2 by done. apply elem_of_app. right.
        rewrite Nat.add_0_r. left.
      * right. exists j, cr'. split_and!; [done|lia|done].
  - intros Hms Hlt. apply Hnd; case_bool_decide; try done.
    + apply NoDup_app. split_and!; [done| |apply NoDup_singleton].
      intros k Hk ->%list_elem_of_singleton. specialize (Hlt i Hk). lia.
    + intros k [Hk|Hk%list_elem_of_singleton]%elem_of_app; [specialize (Hlt k Hk); lia|lia].
    + intros k Hk. specialize (Hlt k Hk). lia.
Qed.

Lemma collect_matches_total values token i creds ms :
  (∀ cr, cr ∈ creds → is_ok (values cr) = true) →
  ∃ r, collect_matches values token i creds ms = Ok r.
Proof.
  revert i ms. induction creds as [|cr creds IH]; intros i ms Hok; cbn [collect_matches]; [eauto|].
  specialize (Hok cr ltac:(left)) as Hcr. destruct (values cr) as [vs|e]; [|done]. simpl.
  apply IH. intros. apply Hok. by right.
Qed.

(** The credential of [access] at index [i] is the only one that offers [token], and the material
    of every credential could be read. *)
Definition unique_owner values (access : Access) (token : string) (i : nat) (cr : AccessCredential) :=
  spec_Credentials (acc_Spec access) !! i = Some cr ∧ offers values token cr ∧
  (∀ j cr', spec_Credentials (acc_Spec access) !! j = Some cr' → offers values token cr' → j = i) ∧
  (∀ cr', cr' ∈ spec_Credentials (acc_Spec access) → is_ok (values cr') = true).

Lemma match_material values token access kind m :
  (matches ← collect_matches values token 0 (spec_Credentials (acc_Spec access)) [];
   credentialMatch access matches kind) = Ok m ↔
  match_Access m = access ∧ ∃ i, unique_owner values access token i (match_Credential m).
Proof.
  rewrite result_bind_Ok. split.
  - intros (r & Hr & Hm). apply collect_matches_Ok in Hr as (Hok & Hmem & Hnd).
    destruct r as [|i [|i' r]]; [done| |done]. simpl in Hm.
    destruct (spec_Credentials (acc_Spec access) !! i) as [cr|] eqn:Hi; [|done].
    injection Hm as <-. split; [done|]. exists i. split_and!; [done| | |done].
    + destruct (proj1 (Hmem i) ltac:(left)) as [?%elem_of_nil|(j & cr' & Hj & -> & ?)]; [done|].
      simpl in *. by simplify_eq.
    + intros j cr' Hj Ho. apply list_elem_of_singleton, Hmem. right. eauto.
  - intros (Ha & i & Hi & Ho & Huniq & Hok).
    destruct (collect_matches_total values token 0 _ [] Hok) as [r Hr].
    exists r. split; [done|]. apply collect_matches_Ok in Hr as (_ & Hmem & Hnd).
    assert (r = [i]) as ->.
    { specialize (Hnd ltac:(constructor) ltac:(by intros ? ?%elem_of_nil)).
      assert (∀ k, k ∈ r ↔ k = i) as Hr.
      { intros k. rewrite Hmem. split.
        - intros [?%elem_of_nil|(j & cr' & ? & -> & ?)]; [done|]. simpl. eauto.
        - intros ->. right. eauto 10. }
      destruct r as [|k [|k' r]].
      - by destruct (not_elem_of_nil (A := nat) i); apply Hr.
      - f_equal. apply Hr. left.
      - apply NoDup_cons in Hnd as [Hnd _]. exfalso. apply Hnd.
        rewrite (proj1 (Hr k) ltac:(left)), <-(proj1 (Hr k') ltac:(right; left)). left. }
    simpl. rewrite Hi, <-Ha. by destruct m.
Qed.

(** C8: password authentication against Access resources.  [MatchPassword] succeeds exactly
    when the password is not empty, the SSH user locates an Access, every credential's material can
    be read, and exactly one credential of that Access holds the password; the match is that
    credential of that Access. A password shared by two credentials never authenticates.  The user
    names of the credentials do not enter: two credentials of one name, which the documentation calls a
    conflict that must not authenticate, each authenticate ([duplicate_username_authenticates]). *)
Theorem MatchPassword_exact sshUser token m :
  MatchPassword c sshUser token = Ok m ↔
  token ≠ "" ∧ ∃ l i,
    resolveAccessLocator (PolicyCache_Get c) sshUser = Ok (Some (l, match_Access m)) ∧
    unique_owner (credentialPasswords c (acc_Namespace (match_Access m))) (match_Access m) token i
      (match_Credential m).
Proof.
  unfold MatchPassword. destruct (decide (token = "")) as [->|Hne].
  { rewrite bool_decide_eq_true_2 by done. split; [done|]. by intros [? _]. }
  rewrite bool_decide_eq_false_2 by done. rewrite result_bind_Ok. split.
  - intros ([[l a]|] & Hl & Hm); [|done]. apply match_material in Hm as (<- & i & Hu).
    split; [done|]. eauto.
  - intros (_ & l & i & Hl & Hu). eexists. split; [exact Hl|]. simpl.
    apply match_material. eauto.
Qed.

Lemma MatchPassword_located sshUser token m :
  MatchPassword c sshUser token = Ok m →
  ∃ l, resolveAccessLocator (PolicyCache_Get c) sshUser = Ok (Some (l, match_Access m)) ∧
    ∃ i, unique_owner (credentialPasswords c (acc_Namespace (match_Access m))) (match_Access m)
           token i (match_Credential m).
Proof.
  unfold MatchPassword. case_bool_decide; [done|]. intros Hr.
  apply result_bind_Ok in Hr as ([[l a]|] & Hl & Hm); [|done].
  apply match_material in Hm as (<- & i & Hu). eauto.
Qed.

Lemma MatchPublicKey_located sshUser key m :
  MatchPublicKey c sshUser (Some key) = Ok m →
  ∃ l, resolveAccessLocator (PolicyCache_Get c) sshUser = Ok (Some (l, match_Access m)) ∧
    ∃ i, unique_owner (credentialPublicKeys c (acc_Namespace (match_Access m))) (match_Access m)
           (FingerprintSHA256 key) i (match_Credential m).
Proof.
  unfold MatchPublicKey. intros Hr.
  apply result_bind_Ok in Hr as ([[l a]|] & Hl & Hm); [|done].
  apply match_material in Hm as (<- & i & Hu). eauto.
Qed.

Lemma GetExtra_authExtra m t :
  GetExtra (authExtra m t) ExtraAccessNamespace = acc_Namespace (match_Access m) ∧
  GetExtra (authExtra m t) ExtraAccessName = acc_Name (match_Access m) ∧
  GetExtra (authExtra m t) ExtraCredentialUser = cred_Username (match_Credential m).
Proof. done. Qed.

(** Authentication and target resolution agree.  If a password or a public key
    authenticates an SSH user against an Access, then resolving the same SSH user with the identity
    attached by the authenticator finds that same Access, with the Pod and container the user name
    asked for; no other Access can be reached with that identity. *)
Theorem authenticated_identity_resolves sshUser info :
  keyed_accesses c →
  (∃ password, AuthenticateBasic (AccessAuthenticator c) sshUser password = Ok info) ∨
  (∃ key, AuthenticatePublicKey (AccessAuthenticator c) sshUser key = Ok info) →
  ∃ l a, resolveAccessLocator (PolicyCache_Get c) sshUser = Ok (Some (l, a)) ∧
    resolveRequestedAccess (PolicyCache_Get c) sshUser (info_Extra info) = Ok (Some (l, a)).
Proof.
  intros Hk Hauth. pose proof (PolicyCache_laws c Hk) as Hlaws.
  assert (∃ m t l, info_Extra info = authExtra m t ∧
            resolveAccessLocator (PolicyCache_Get c) sshUser = Ok (Some (l, match_Access m)))
    as (m & t & l & -> & Hl).
  { destruct Hauth as [[p Ha]|[k Ha]]; apply result_bind_Ok in Ha as (m & Hm & [= <-]).
    - destruct (MatchPassword_located _ _ _ Hm) as (l & ? & _). eauto.
    - destruct (MatchPublicKey_located _ _ _ Hm) as (l & ? & _). eauto. }
  exists l, (match_Access m). split; [done|].
  apply resolveAccessLocator_Some in Hl as (Hwf & -> & Hget & _).
  destruct (Get_identity _ _ _ Hget) as [Hns Hname].
  unfold resolveRequestedAccess. destruct (GetExtra_authExtra m t) as (-> & -> & _).
  rewrite Hns, Hname. pose proof Hwf as (Hne1 & Hne2 & _).
  rewrite (bool_decide_eq_true_2 (loc_namespace l ≠ "")), (bool_decide_eq_false_2 (_ l = "")),
    (bool_decide_eq_false_2 (_ l = "")) by done. simpl.
  rewrite parseAccessLocatorFor_user by done. by apply get_located_Some.
Qed.

Lemma passwords_declared ns cr token :
  offers (credentialPasswords c ns) token cr →
  bool_decide (0 < length (cred_PasswordsFrom cr)) ||
  existsb (fun v => bool_decide (v ≠ "")) (cred_Passwords cr) = true.
Proof.
  intros (vs & Hvs & Hin). unfold credentialPasswords in Hvs.
  destruct (cred_PasswordsFrom cr) as [|r refs]; [|done]. simpl in *. injection Hvs as <-.
  rewrite elem_of_list_to_set, list_elem_of_filter in Hin. destruct Hin as [Hne Hin].
  apply existsb_exists. exists token. split; [by apply list_elem_of_In|].
  by apply bool_decide_eq_true_2.
Qed.

Lemma add_fingerprint_origin err vs0 lines vs token :
  foldM (add_fingerprint err) vs0 lines = Ok vs → token ∈ vs →
  token ∈ vs0 ∨ ∃ line, line ∈ lines ∧ keyFingerprint line = token ∧ token ≠ "".
Proof.
  revert vs0. induction lines as [|line lines IH]; intros vs0; simpl; [intros [= <-]; by left|].
  intros Hr Hin. apply result_bind_Ok in Hr as (vs1 & Hvs1 & Hr).
  destruct (IH vs1 Hr Hin) as [Hin1|(l & ? & ?)]; [|right; exists l; split; [by right|done]].
  unfold add_fingerprint in Hvs1. case_bool_decide; [done|]. injection Hvs1 as <-.
  apply elem_of_union in Hin1 as [?|Heq%elem_of_singleton]; [by left|subst token].
  right. exists line. split; [left|done].
Qed.

Lemma publickeys_declared ns cr token :
  offers (credentialPublicKeys c ns) token cr →
  bool_decide (0 < length (cred_PublicKeysFrom cr)) ||
  existsb (fun v => bool_decide (v ≠ "")) (cred_PublicKeys cr) = true.
Proof.
  intros (vs & Hvs & Hin). unfold credentialPublicKeys in Hvs.
  destruct (cred_PublicKeysFrom cr) as [|r refs]; [|done].
  apply result_bind_Ok in Hvs as (vs1 & Hvs1 & [= <-]).
  destruct (add_fingerprint_origin _ _ _ _ _ Hvs1 Hin) as [Hin'|(line & Hl & Hf & Hne)].
  { by apply not_elem_of_empty in Hin'. }
  apply existsb_exists. exists line. split; [by apply list_elem_of_In|].
  apply bool_decide_eq_true_2. intros ->. apply Hne. rewrite <-Hf. done.
Qed.

(** No credential is hidden from clients.  Whenever a password (or a public key) would
    authenticate an SSH user, [AuthenticationMethods] finds the Access for that user and lists the
    corresponding SSH method, whether the material is inline or in a Secret. *)
Theorem AuthenticationMethods_complete sshUser :
  (∀ token m, MatchPassword c sshUser token = Ok m →
     ∃ ms, AuthenticationMethods (PolicyCache_Get c) sshUser = Ok (Some ms) ∧
           CredentialTypePassword ∈ ms) ∧
  (∀ key m, MatchPublicKey c sshUser (Some key) = Ok m →
     ∃ ms, AuthenticationMethods (PolicyCache_Get c) sshUser = Ok (Some ms) ∧
           CredentialTypePublicKey ∈ ms).
Proof.
  split; [intros token m Hm|intros key m Hm].
  - apply MatchPassword_located in Hm as (l & Hl & i & Hi & Ho & _).
    unfold AuthenticationMethods. rewrite Hl. eexists. split; [done|].
    apply elem_of_app. right. apply passwords_declared in Ho.
    rewrite (proj2 (existsb_exists _ _)); [left|]. exists (match_Credential m).
    split; [|done]. apply list_elem_of_In. by eapply list_elem_of_lookup_2.
  - apply MatchPublicKey_located in Hm as (l & Hl & i & Hi & Ho & _).
    unfold AuthenticationMethods. rewrite Hl. eexists. split; [done|].
    apply elem_of_app. left. apply publickeys_declared in Ho.
    rewrite (proj2 (existsb_exists _ _)); [left|]. exists (match_Credential m).
    split; [|done]. apply list_elem_of_In. by eapply list_elem_of_lookup_2.
Qed.
End Matching.

(** A cache with one Access, for witnesses. *)
Definition cache_of (a : Access) (secrets : string → result (option (cached Secret))) : PolicyCache :=
  mkPolicyCache
    (Some (mkIndexer (fun k => Ok (if bool_decide (k = accessKey (acc_Namespace a) (acc_Name a))
                                   then Some (CObj a) else None)) [CObj a]))
    (Some (mkIndexer secrets [])) "" "".
Lemma cache_of_keyed a secrets : valid_name a → keyed_accesses (cache_of a secrets).
Proof.
  intros Hv ix k b [= <-]. simpl. case_bool_decide; [|done]. by intros [= <-].
Qed.

Definition demo_cache : PolicyCache :=
  cache_of (pod_access "team" "web" [password_credential "alice" ["s3cret"]]) (fun _ => Ok None).

Lemma authenticated_identity_resolves_witness :
  ∃ info, AuthenticateBasic (@AccessAuthenticator toy_keys demo_cache) "team.web~web-0" "s3cret" = Ok info ∧
  ∃ l a, resolveAccessLocator (PolicyCache_Get demo_cache) "team.web~web-0" = Ok (Some (l, a)) ∧
    resolveRequestedAccess (PolicyCache_Get demo_cache) "team.web~web-0" (info_Extra info)
      = Ok (Some (l, a)).
Proof.
  eexists. split; [vm_compute; reflexivity|].
  eapply (@authenticated_identity_resolves toy_keys demo_cache).
  - by apply cache_of_keyed.
  - left. exists "s3cret". vm_compute. reflexivity.
Defined.
