(* ===== verification/AccessResolver.v ===== *)
(** Model of [Resolver.Resolve] of [src/pkg/accesspolicy/resolver.go] and of
    [src/pkg/sshproxy/target.go]: from an SSH user to a bound Pod or External endpoint.  The state
    is the selector shared by all connections plus the release handles registered with
    [context.AfterFunc] on the connection's context. *)

From S2P Require Import Prelude GoStrings GoStrconv Wildcard Kube Target Strategy StrategyProps Authn AccessStore AccessStoreProps.

(** ** [sshproxy/target.go] *)

Definition optionNamespaces := "namespaces".
Definition optionAccesses := "accesses".
Definition optionEndpoints := "endpoints".
Definition runtimeAccessUID := "ssh.accessUID".
Definition runtimeAccessGeneration := "ssh.accessGeneration".

Record boundTarget := mkBoundTarget {
  bt_Namespace : string;
  bt_Access : string;
  bt_Endpoint : string;
  bt_AccessUID : string;
  bt_Generation : Z;
}.

Definition NewTarget (access : Access) (endpoint : string) : Target :=
  mkTarget KindExternalSSH
    [mkOption optionNamespaces (acc_Namespace access);
     mkOption optionAccesses (acc_Name access);
     mkOption optionEndpoints endpoint]
    (<[runtimeAccessUID := acc_UID access]>
       {[runtimeAccessGeneration := FormatInt (acc_Generation access)]}).

Definition parseTarget (tgt : option Target) : result boundTarget :=
  match tgt with
  | None => Err (EStatus BadRequest "target is not specified" [])
  | Some tgt =>
      if bool_decide (Kind tgt ≠ KindExternalSSH)
      then Err (EStatus BadRequest "unsupported target kind %q" [Kind tgt])
      else
        let ns := Target_Option tgt optionNamespaces in
        let access := Target_Option tgt optionAccesses in
        let endpoint := Target_Option tgt optionEndpoints in
        let uid := default "" (Runtime tgt !! runtimeAccessUID) in
        if bool_decide (ns = "") || bool_decide (access = "") || bool_decide (endpoint = "") ||
           bool_decide (uid = "")
        then Err (EStatus BadRequest "ssh target requires a bound Access and endpoint" [])
        else match ParseInt (default "" (Runtime tgt !! runtimeAccessGeneration)) 10 64 with
             | None => Err (EStatus BadRequest "ssh target has invalid Access generation" [])
             | Some generation => Ok (mkBoundTarget ns access endpoint uid generation)
             end
  end.

(** ** [resolver.go] *)

Record ContainerPolicy := mkContainerPolicy { DefaultMode : string; LimitMode : string }.
Definition defaultContainerPolicy := mkContainerPolicy "KubernetesDefault" "All".

Definition containerAllowed (allow : list string) (container : string) : bool :=
  bool_decide (length allow = 0) || MatchAny allow container.

Definition findCredential (access : Access) (username : string) : option AccessCredential :=
  find_first (fun cr => bool_decide (cred_Username cr = username)) (spec_Credentials (acc_Spec access)).

Definition resolveExplicitPodLocator (pods : list Pod) (locator : string)
    : option (string * string) :=
  let active := activePods pods in
  let has name := existsb (fun p => bool_decide (pod_Name p = name)) active in
  if has locator then Some (locator, "")
  else match Cut locator "." with
       | None => None
       | Some (pod, container) =>
           if bool_decide (pod = "") || bool_decide (container = "") then None
           else
             let '(pod, container) :=
               if ContainsByte container "."
               then match LastIndexByte locator "." with
                    | Some idx => (stake idx locator, sdrop (idx + 1) locator)
                    | None => (pod, container)
                    end
               else (pod, container) in
             if bool_decide (pod = "") || bool_decide (container = "") then None
             else if has pod then Some (pod, container) else None
       end.

Record resolverState := mkResolverState {
  rs_selector : strategySelector;
  rs_afterFuncs : list nat;
}.

Section Resolver.
Context (Get : AccessGetter).
Context (pods_List : option (string → gmap string string → result (list Pod))).
Context (policy : ContainerPolicy).
Context (labels_Matches : gmap string string → gmap string string → bool).
Context (now : Z) (rand_Intn : Z → Z).

(** The tail of [Resolve] once a Pod is selected: the container, the three container policies and
    the binding.  Every error path releases the selection. *)
Definition bindSelection (input : ResolveInput) (locator : accessLocator) (access : Access)
    (pod : Pod) (handle : nat) (s : resolverState) : result Target * resolverState :=
  let released := mkResolverState (release (rs_selector s) handle) (rs_afterFuncs s) in
  let explicit := bool_decide (loc_container locator ≠ "") in
  match ResolveContainer pod (loc_container locator) with
  | Err e => (Err e, released)
  | Ok (container, defaultContainer) =>
      let credential := findCredential access (GetExtra (in_AuthExtra input) ExtraCredentialUser) in
      let accessAllowed :=
        if bool_decide (0 < length (spec_Containers (acc_Spec access)))
        then containerAllowed (spec_Containers (acc_Spec access)) container
        else ContainerAllowed (DefaultMode policy) explicit container defaultContainer in
      if negb accessAllowed ||
         negb (ContainerAllowed (LimitMode policy) explicit container defaultContainer) ||
         match credential with
         | Some cr => negb (containerAllowed (cred_Containers cr) container)
         | None => false
         end
      then (Err (EStatus Forbidden "container %q is not allowed by access %s/%s"
                   [container; loc_namespace locator; loc_access locator]), released)
      else (Ok (Bind pod container),
            mkResolverState (rs_selector s) (rs_afterFuncs s ++ [handle]))
  end.

Definition resolvePod (input : ResolveInput) (locator : accessLocator) (access : Access)
    (pods : list Pod) (s : resolverState) : result Target * resolverState :=
  let unavailable l := EStatus ServiceUnavailable "pod %q is not available through access %s/%s"
                         [loc_pod l; loc_namespace l; loc_access l] in
  match (if bool_decide (loc_pod locator ≠ "")
         then match resolveExplicitPodLocator pods (loc_pod locator) with
              | None => Err (unavailable locator)
              | Some (podName, container) =>
                  Ok (mkLocator (loc_namespace locator) (loc_access locator) podName container)
              end
         else Ok locator) with
  | Err e => (Err e, s)
  | Ok locator =>
      let '(selection, sel) :=
        if bool_decide (loc_pod locator ≠ "")
        then let '(r, sel) := selectPodByName (rs_selector s) access pods (loc_pod locator) in
             (Ok r, sel)
        else selectPod labels_Matches now rand_Intn (rs_selector s) access pods input in
      let s := mkResolverState sel (rs_afterFuncs s) in
      match selection with
      | Err e => (Err e, s)
      | Ok None =>
          (Err (if bool_decide (loc_pod locator ≠ "") then unavailable locator
                else EStatus ServiceUnavailable "access %s/%s matched no available pods"
                       [loc_namespace locator; loc_access locator]), s)
      | Ok (Some (pod, handle)) => bindSelection input locator access pod handle s
      end
  end.

Definition resolveExternal (input : ResolveInput) (locator : accessLocator) (access : Access)
    (s : resolverState) : result Target * resolverState :=
  if bool_decide (loc_pod locator ≠ "") || bool_decide (loc_container locator ≠ "")
  then (Err (EStatus BadRequest "External Access %s/%s does not accept a Pod suffix"
               [loc_namespace locator; loc_access locator]), s)
  else
    match selectEndpoint now rand_Intn (rs_selector s) access input with
    | (Err e, sel) => (Err e, mkResolverState sel (rs_afterFuncs s))
    | (Ok None, sel) =>
        (Err (EStatus ServiceUnavailable "access %s/%s has no external endpoints"
                [loc_namespace locator; loc_access locator]), mkResolverState sel (rs_afterFuncs s))
    | (Ok (Some (endpoint, handle)), sel) =>
        (Ok (NewTarget access (ep_Name endpoint)),
         mkResolverState sel (rs_afterFuncs s ++ [handle]))
    end.

Definition Resolver_Resolve : Resolver resolverState := fun input s =>
  match resolveRequestedAccess Get (in_SSHUser input) (in_AuthExtra input) with
  | Err e => (Err e, s)
  | Ok None => (Err (ESentinel target_ErrNotProvided), s)
  | Ok (Some (locator, access)) =>
      if bool_decide (spec_Type (acc_Spec access) = AccessTypeExternal)
      then resolveExternal input locator access s
      else if negb (isPodAccess access)
      then (Err (EStatus BadRequest "access %s/%s has unsupported type %q"
                   [loc_namespace locator; loc_access locator; spec_Type (acc_Spec access)]), s)
      else match pods_List with
           | None => (Err (Errorf "access resolver requires a pod lister" []), s)
           | Some list =>
               match list (loc_namespace locator) (spec_Selector (acc_Spec access)) with
               | Err e => (Err e, s)
               | Ok pods => resolvePod input locator access pods s
               end
           end
  end.
End Resolver.

(** ** Lemmas *)

Lemma findCredential_Some access username cr :
  findCredential access username = Some cr →
  cr ∈ spec_Credentials (acc_Spec access) ∧ cred_Username cr = username.
Proof. intros Hf. apply find_first_Some in Hf as [? ?]. by breflect. Qed.

Lemma containerAllowed_spec allow c :
  containerAllowed allow c = true ↔ allow = [] ∨ ∃ p, p ∈ allow ∧ glob p c.
Proof.
  unfold containerAllowed. rewrite orb_true_iff, bool_decide_eq_true, MatchAny_spec.
  by rewrite length_zero_iff_nil.
Qed.

Lemma existsb_pod_name name pods :
  existsb (fun p => bool_decide (pod_Name p = name)) pods = true → ∃ p, p ∈ pods ∧ pod_Name p = name.
Proof.
  intros Hex. apply existsb_exists in Hex as (p & Hin & Hp). breflect.
  exists p. split; [by apply list_elem_of_In|done].
Qed.

Lemma resolveExplicitPodLocator_Some pods locator name container :
  resolveExplicitPodLocator pods locator = Some (name, container) → locator ≠ "" →
  name ≠ "" ∧ (∃ p, p ∈ activePods pods ∧ pod_Name p = name) ∧
  ((container = "" ∧ locator = name) ∨ (container ≠ "" ∧ locator = name +:+ "." +:+ container)).
Proof.
  unfold resolveExplicitPodLocator. intros Hr Hne.
  destruct (existsb _ _) eqn:Hex.
  { injection Hr as <- <-. split_and!; [done|by apply existsb_pod_name|by left]. }
  destruct (Cut locator ".") as [[pod cont]|] eqn:Hcut; [|done].
  apply Cut_Some in Hcut as [Heq _].
  destruct (bool_decide (pod = "") || _); [done|].
  assert (∃ pod' cont', locator = pod' +:+ "." +:+ cont' ∧
    (if ContainsByte cont "."
     then match LastIndexByte locator "." with
          | Some idx => (stake idx locator, sdrop (idx + 1) locator)
          | None => (pod, cont)
          end
     else (pod, cont)) = (pod', cont')) as (pod' & cont' & Hloc & Hpair).
  { destruct (ContainsByte cont "."); [|by exists pod, cont].
    destruct (LastIndexByte locator ".") as [idx|] eqn:Hidx; [|by exists pod, cont].
    apply LastIndexByte_Some in Hidx as (a & b & Hab & <- & _). exists a, b. split; [done|].
    rewrite Hab, stake_app. f_equal.
    replace (a +:+ String "." b) with ((a +:+ ".") +:+ b) by (by rewrite <-sapp_assoc).
    replace (slen a + 1) with (slen (a +:+ ".")) by by rewrite slen_app.
    apply sdrop_app. }
  rewrite Hpair in Hr. destruct (bool_decide (pod' = "") || _) eqn:Hb; [done|]. breflect.
  destruct (existsb (fun p => bool_decide (pod_Name p = pod')) _) eqn:Hex2; [|done]. injection Hr as <- <-.
  split_and!; [done|by apply existsb_pod_name|by right].
Qed.

Lemma selectPodByName_Some s access pods name p h s' :
  selectPodByName s access pods name = (Some (p, h), s') →
  p ∈ pods ∧ activePod p = true ∧ pod_Name p = name.
Proof.
  unfold selectPodByName. destruct (find_first _ _) as [q|] eqn:Hf; [|done]. simpl.
  intros [= -> _ _]. apply find_first_Some in Hf as [Hin Hn]. breflect.
  apply elem_of_activePods in Hin as [? ?]. done.
Qed.

Lemma selectPod_Some labels now rand s access pods req p h s' :
  selectPod labels now rand s access pods req = (Ok (Some (p, h)), s') →
  p ∈ pods ∧ activePod p = true.
Proof.
  unfold selectPod. case_bool_decide; [done|].
  destruct (selectTarget _ _ _ _ _ _ _) as [[sel|e] s1]; [|done].
  destruct (candidatePods pods !! ts_index sel) as [q|] eqn:Hq; [|done]. intros [= -> _ _].
  apply list_elem_of_lookup_2 in Hq. by apply elem_of_candidatePods in Hq as (? & ? & _).
Qed.

Lemma selectEndpoint_Some now rand s access req ep h s' :
  selectEndpoint now rand s access req = (Ok (Some (ep, h)), s') →
  ep ∈ spec_Endpoints (acc_Spec access).
Proof.
  unfold selectEndpoint. case_bool_decide; [done|].
  destruct (selectTarget _ _ _ _ _ _ _) as [[sel|e] s1]; [|done].
  destruct (merge_sort _ _ !! ts_index sel) as [q|] eqn:Hq; [|done]. intros [= -> _ _].
  apply list_elem_of_lookup_2 in Hq. by rewrite merge_sort_Permutation in Hq.
Qed.

(** ** Where a connection can go *)

Section Confinement.
Context (Get : AccessGetter).
Context (pods_List : option (string → gmap string string → result (list Pod))).
Context (policy : ContainerPolicy).
Context (labels_Matches : gmap string string → gmap string string → bool).
Context (now : Z) (rand_Intn : Z → Z).

(** The container rules for a Pod of [access] reached through [locator]. *)
Definition container_permitted (input : ResolveInput) (access : Access) (pod : Pod)
    (requested container : string) : Prop :=
  container ∈ pod_Containers pod ∧
  (requested ≠ "" → container = requested) ∧ (requested = "" → container = defaultContainerOf pod) ∧
  (spec_Containers (acc_Spec access) ≠ [] → containerAllowed (spec_Containers (acc_Spec access)) container = true) ∧
  (spec_Containers (acc_Spec access) = [] →
     ContainerAllowed (DefaultMode policy) (bool_decide (requested ≠ "")) container
       (defaultContainerOf pod) = true) ∧
  ContainerAllowed (LimitMode policy) (bool_decide (requested ≠ "")) container
    (defaultContainerOf pod) = true ∧
  (∀ cr, findCredential access (GetExtra (in_AuthExtra input) ExtraCredentialUser) = Some cr →
     containerAllowed (cred_Containers cr) container = true).

Lemma bindSelection_Ok input l access pod h s tgt s' :
  bindSelection policy input l access pod h s = (Ok tgt, s') →
  ∃ container, tgt = Bind pod container ∧
    container_permitted input access pod (loc_container l) container.
Proof.
  unfold bindSelection. destruct (ResolveContainer _ _) as [[container d]|] eqn:Hc; [|done].
  apply ResolveContainer_Ok in Hc as (Hne & Hin & -> & Hreq).
  destruct (negb _ || negb _ || _) eqn:Hpol; [done|]. intros [= <- _].
  apply orb_false_iff in Hpol as [Hpol Hcred]. apply orb_false_iff in Hpol as [Hacc Hlim]. breflect.
  exists container. split; [done|]. unfold container_permitted. split_and!.
  - done.
  - intros. by rewrite bool_decide_eq_false_2 in Hreq.
  - intros. by rewrite bool_decide_eq_true_2 in Hreq.
  - intros Hcs. rewrite bool_decide_eq_true_2 in Hacc; [done|].
    destruct (spec_Containers _); [done|simpl; lia].
  - intros Hcs. rewrite bool_decide_eq_false_2 in Hacc; [done|]. rewrite Hcs. simpl. lia.
  - done.
  - intros cr Hcr. rewrite Hcr in Hcred. by breflect.
Qed.

Lemma resolvePod_Ok input l access pods s tgt s' :
  resolvePod policy labels_Matches now rand_Intn input l access pods s = (Ok tgt, s') →
  ∃ pod container requested,
    pod ∈ pods ∧ activePod pod = true ∧ tgt = Bind pod container ∧
    container_permitted input access pod requested container ∧
    (loc_pod l = "" → requested = loc_container l) ∧
    (loc_pod l ≠ "" → (requested = "" ∧ loc_pod l = pod_Name pod) ∨
                      (requested ≠ "" ∧ loc_pod l = pod_Name pod +:+ "." +:+ requested)).
Proof.
  unfold resolvePod. destruct (decide (loc_pod l = "")) as [Hp|Hp].
  - rewrite (bool_decide_eq_false_2 (loc_pod l ≠ "")) by naive_solver. cbv beta iota zeta.
    rewrite (bool_decide_eq_false_2 (loc_pod l ≠ "")) by naive_solver.
    destruct (selectPod _ _ _ _ _ _ _) as [[[[pod h]|]|e] sel] eqn:Hsel; [|done..].
    apply selectPod_Some in Hsel as [Hin Hact]. intros Hb. apply bindSelection_Ok in Hb as (c & -> & Hc).
    exists pod, c, (loc_container l). split_and!; done.
  - rewrite (bool_decide_eq_true_2 (loc_pod l ≠ "")) by done.
    destruct (resolveExplicitPodLocator _ _) as [[name cont]|] eqn:Hexp; [|done].
    apply resolveExplicitPodLocator_Some in Hexp as (Hne & _ & Hform); [|done].
    cbn beta iota zeta delta [loc_pod]. rewrite (bool_decide_eq_true_2 (name ≠ "")) by done.
    destruct (selectPodByName _ _ _ _) as [[[pod h]|] sel] eqn:Hsel; [|done].
    apply selectPodByName_Some in Hsel as (Hin & Hact & Hname). intros Hb.
    apply bindSelection_Ok in Hb as (c & -> & Hc). cbn [loc_container] in Hc.
    exists pod, c, cont. split_and!; try done. intros _. subst name. naive_solver.
Qed.

Lemma resolveRequestedAccess_identity user extra l a :
  resolveRequestedAccess Get user extra = Ok (Some (l, a)) →
  Get (loc_namespace l) (loc_access l) = Ok a ∧
  ((GetExtra extra ExtraAccessNamespace ≠ "" ∨ GetExtra extra ExtraAccessName ≠ "") →
   loc_namespace l = GetExtra extra ExtraAccessNamespace ∧
   loc_access l = GetExtra extra ExtraAccessName).
Proof.
  unfold resolveRequestedAccess. set (ns := GetExtra _ ExtraAccessNamespace).
  set (name := GetExtra _ ExtraAccessName).
  destruct (bool_decide (ns ≠ "") || bool_decide (name ≠ "")) eqn:Hid.
  - destruct (bool_decide (ns = "") || _); [done|].
    destruct (parseAccessLocatorFor user ns name) as [l'|] eqn:Hp; [|done].
    intros Hl. apply get_located_Some in Hl as [-> Hget].
    assert (loc_namespace l' = ns ∧ loc_access l' = name) as [-> ->].
    { unfold parseAccessLocatorFor in Hp. repeat case_match; by simplify_eq/=. }
    done.
  - intros Hl. apply resolveAccessLocator_Some in Hl as (_ & _ & Hget & _). split; [done|].
    apply orb_false_iff in Hid as [H1 H2]. breflect. naive_solver.
Qed.

(** A target of the Access that [input] names (for a caller authenticated against an Access: exactly
    that Access): an endpoint of its own, or an active Pod among those its selector lists in its own
    namespace, the one named by the locator when it names one, with a container that all rules
    permit. *)
Definition confined (input : ResolveInput) (tgt : Target) : Prop :=
  ∃ l a, resolveRequestedAccess Get (in_SSHUser input) (in_AuthExtra input) = Ok (Some (l, a)) ∧
    Get (loc_namespace l) (loc_access l) = Ok a ∧
    ((GetExtra (in_AuthExtra input) ExtraAccessNamespace ≠ "" ∨
      GetExtra (in_AuthExtra input) ExtraAccessName ≠ "") →
     loc_namespace l = GetExtra (in_AuthExtra input) ExtraAccessNamespace ∧
     loc_access l = GetExtra (in_AuthExtra input) ExtraAccessName) ∧
    ((spec_Type (acc_Spec a) = AccessTypeExternal ∧ loc_pod l = "" ∧ loc_container l = "" ∧
      ∃ ep, ep ∈ spec_Endpoints (acc_Spec a) ∧ tgt = NewTarget a (ep_Name ep)) ∨
     (isPodAccess a = true ∧ ∃ list pods pod container requested,
        pods_List = Some list ∧ list (loc_namespace l) (spec_Selector (acc_Spec a)) = Ok pods ∧
        pod ∈ pods ∧ activePod pod = true ∧ tgt = Bind pod container ∧
        container_permitted input a pod requested container ∧
        (loc_pod l = "" → requested = loc_container l) ∧
        (loc_pod l ≠ "" → (requested = "" ∧ loc_pod l = pod_Name pod) ∨
                          (requested ≠ "" ∧ loc_pod l = pod_Name pod +:+ "." +:+ requested)))).

Lemma Resolver_Resolve_Ok input s tgt s' :
  Resolver_Resolve Get pods_List policy labels_Matches now rand_Intn input s = (Ok tgt, s') →
  confined input tgt.
Proof.
  unfold Resolver_Resolve.
  destruct (resolveRequestedAccess _ _ _) as [[[l a]|]|e] eqn:Hreq; [|done..].
  intros Hr. exists l, a. destruct (resolveRequestedAccess_identity _ _ _ _ Hreq) as [Hget Hid].
  split_and!; [done..|]. destruct (bool_decide (spec_Type (acc_Spec a) = AccessTypeExternal)) eqn:Ht.
  - left. breflect. unfold resolveExternal in Hr.
    destruct (bool_decide (loc_pod l ≠ "") || _) eqn:Hsuf; [done|].
    apply orb_false_iff in Hsuf as [H1 H2]. apply bool_decide_eq_false, dec_stable in H1, H2.
    destruct (selectEndpoint _ _ _ _ _) as [[[[ep h]|]|e] sel] eqn:Hsel; [|done..].
    injection Hr as <- _. apply selectEndpoint_Some in Hsel. eauto 10.
  - right. destruct (isPodAccess a) eqn:Hpa; [|done]. split; [done|]. simpl in Hr.
    destruct pods_List as [list|]; [|done].
    destruct (list _ _) as [pods|] eqn:Hlist; [|done].
    apply resolvePod_Ok in Hr as (pod & c & req & ? & ? & ? & ? & ? & ?).
    by exists list, pods, pod, c, req.
Qed.

(** C6: confinement of Access connections.  Whatever [Resolver.Resolve] returns comes from the
    Access the request names (for a caller authenticated against an Access: exactly that Access).
    An External Access yields one of its own endpoints and accepts no suffix; a Pod Access yields
    an active Pod among those its selector lists in its own namespace, the one named by the
    locator when it names one, and a container of that Pod which the Access's list, the gateway's
    default and limit modes and the credential's list all permit. *)
Theorem Resolve_confined input s tgt s' :
  Resolver_Resolve Get pods_List policy labels_Matches now rand_Intn input s = (Ok tgt, s') →
  confined input tgt.
Proof. apply Resolver_Resolve_Ok. Qed.
End Confinement.

(** ** No connection is leaked *)

(** What one operation does to the selector's counts: selecting a target under [key] adds one to the
    count of [key] in [connections] and appends the release closure [h] that captured [key]; any other
    outcome leaves both alone. *)
Definition tracked (s s' : strategySelector) (o : option (string * nat)) : Prop :=
  match o with
  | Some (key, h) =>
      h = length (releases s) ∧ releases s' = releases s ++ [(key, false)] ∧
      connections s' = <[key := (zget (connections s) key + 1)%Z]> (connections s)
  | None => releases s' = releases s ∧ connections s' = connections s
  end.

(** The connection key of a target selected for [access]. *)
Definition selection_key (access : Access) (targetKey : string) : string :=
  targetConnectionKey (accessKey (acc_Namespace access) (acc_Name access)) targetKey.

Lemma selectTarget_tracked now rand s access req cs strategy :
  tracked s (selectTarget now rand s access req cs strategy).2
    (match (selectTarget now rand s access req cs strategy).1 with
     | Ok sel => Some (selection_key access (default "" (tc_key <$> cs !! ts_index sel)), ts_release sel)
     | Err _ => None
     end).
Proof.
  unfold selectTarget, selection_key. set (ak := accessKey _ _). set (fk := accessAffinityKey _ _).
  pose proof (affinityCandidateIndex_frame s fk cs now) as (E1 & E2 & _).
  destruct (affinityCandidateIndex s fk cs now) as [[i|] s1]; simpl in *; [by rewrite E1, E2|].
  pose proof (strategyIndex_frame rand s1 ak cs strategy) as (E3 & E4 & _).
  destruct (strategyIndex rand s1 ak cs strategy) as [[i|e] s2]; simpl in *; [|split; congruence].
  destruct (cs !! i) as [c|] eqn:Hc; simpl; [|split; congruence].
  rewrite Hc. case_bool_decide; simpl; by rewrite E3, E4, E1, E2.
Qed.

Lemma selectPod_tracked labels now rand s access pods req r s' :
  selectPod labels now rand s access pods req = (r, s') →
  match r with
  | Ok o => tracked s s' ((fun x => (selection_key access (podTargetKey (acc_Namespace access) x.1), x.2)) <$> o)
  | Err _ => True
  end.
Proof.
  unfold selectPod. case_bool_decide; [intros [= <- <-]; done|].
  pose proof (selectTarget_tracked now rand s access req
    (podCandidate labels access <$> candidatePods pods) (strategyType access)) as Ht.
  destruct (selectTarget _ _ _ _ _ _ _) as [[sel|e] s1]; [|by intros [= <- <-]].
  cbn [fst snd] in Ht. rewrite list_lookup_fmap in Ht. destruct (_ !! _); by intros [= <- <-].
Qed.

Lemma selectEndpoint_tracked now rand s access req r s' :
  selectEndpoint now rand s access req = (r, s') →
  match r with
  | Ok o => tracked s s' ((fun x => (selection_key access (ep_Name x.1), x.2)) <$> o)
  | Err _ => tracked s s' None
  end.
Proof.
  unfold selectEndpoint. case_bool_decide; [intros [= <- <-]; done|].
  pose proof (selectTarget_tracked now rand s access req
    (endpointCandidate <$> merge_sort endpointLe (spec_Endpoints (acc_Spec access)))
    (endpointStrategyType access)) as Ht.
  destruct (selectTarget _ _ _ _ _ _ _) as [[sel|e] s1] eqn:Hsel; [|by intros [= <- <-]].
  apply selectTarget_index in Hsel. rewrite length_fmap in Hsel. cbn [fst snd] in Ht. rewrite list_lookup_fmap in Ht.
  destruct (lookup_lt_is_Some_2 _ _ Hsel) as [ep Hep]. rewrite Hep in *. by intros [= <- <-].
Qed.

Lemma selectPodByName_tracked s access pods name r s' :
  selectPodByName s access pods name = (r, s') →
  tracked s s' ((fun x => (selection_key access (podTargetKey (acc_Namespace access) x.1), x.2)) <$> r).
Proof. unfold selectPodByName. destruct (find_first _ _); by intros [= <- <-]. Qed.

Lemma release_live s s' key h k : tracked s s' (Some (key, h)) → live (release s' h) k = live s k.
Proof.
  intros (-> & Hr & _). unfold release.
  assert (releases s' !! length (releases s) = Some (key, false)) as ->.
  { rewrite Hr, lookup_app_r, Nat.sub_diag by lia. done. }
  assert (filter (fun e => e = (k, false)) (<[length (releases s):=(key, true)]> (releases s'))
          = filter (fun e => e = (k, false)) (releases s)) as Hf.
  { rewrite Hr. rewrite insert_app_r_alt, Nat.sub_diag by lia. simpl.
    rewrite filter_app, filter_cons_False, filter_nil, app_nil_r by done. done. }
  unfold live. case_bool_decide; simpl; by rewrite Hf.
Qed.

Lemma tracked_counts s s' key h : tracked s s' (Some (key, h)) → counts_live s → counts_live s'.
Proof.
  intros (_ & Hr & Hm) Hc k.
  assert (live s' k = (live s k + if decide (k = key) then 1 else 0)%Z) as Hl.
  { unfold live. rewrite Hr, filter_app, length_app, filter_cons, filter_nil.
    repeat case_decide; simplify_eq; simpl; lia. }
  rewrite Hl, Hm, counts_live_zget by done. pose proof (live_nonneg s k). case_decide; subst.
  - rewrite lookup_insert_eq, bool_decide_eq_false_2 by lia. done.
  - rewrite lookup_insert_ne, Z.add_0_r by done. apply Hc.
Qed.

(** Releasing a selection at once undoes it: the counts are those from before, and so is the set of
    targets that have a count. *)
Lemma release_undoes s s' key h :
  counts_live s → tracked s s' (Some (key, h)) → connections (release s' h) = connections s.
Proof.
  intros Hc Ht. apply map_eq. intros k.
  assert (counts_live (release s' h)) as -> by by eapply release_counts, tracked_counts.
  by rewrite (release_live _ _ _ _ _ Ht), Hc.
Qed.

(** What may happen to the selector between a selection and its release [h]: selections for other
    connections, and other releases. *)
Inductive other_step (h : nat) : strategySelector → strategySelector → Prop :=
| other_selectPod labels now rand s access pods req :
    other_step h s (selectPod labels now rand s access pods req).2
| other_selectPodByName s access pods name : other_step h s (selectPodByName s access pods name).2
| other_selectEndpoint now rand s access req : other_step h s (selectEndpoint now rand s access req).2
| other_release s h' : h' ≠ h → other_step h s (release s h').

Lemma tracked_releases s s' o h x :
  tracked s s' o → releases s !! h = Some x → releases s' !! h = Some x.
Proof. destruct o as [[key h']|]; [intros (_ & -> & _)|intros [-> _]; done]. apply lookup_app_l_Some. Qed.

Lemma release_releases s h h' x :
  h' ≠ h ∨ x.2 = true → releases s !! h = Some x → releases (release s h') !! h = Some x.
Proof.
  intros Hne Hx. unfold release. destruct (releases s !! h') as [[key [|]]|] eqn:Hh'; [done| |done].
  assert (h' ≠ h). { destruct Hne as [?|?]; [done|]. intros ->. by simplify_eq/=. }
  case_bool_decide; simpl; by rewrite list_lookup_insert_ne.
Qed.

Lemma select_releases s s' h x :
  (∃ labels now rand access pods req, s' = (selectPod labels now rand s access pods req).2) ∨
  (∃ access pods name, s' = (selectPodByName s access pods name).2) ∨
  (∃ now rand access req, s' = (selectEndpoint now rand s access req).2) →
  releases s !! h = Some x → releases s' !! h = Some x.
Proof.
  intros [(labels & now & rand & access & pods & req & ->)|[(access & pods & name & ->)|(now & rand & access & req & ->)]].
  - destruct (selectPod_no_panic labels now rand s access pods req) as (r & sel & Hsel & _).
    rewrite Hsel. apply selectPod_tracked in Hsel. by eapply tracked_releases.
  - destruct (selectPodByName _ _ _ _) as [r sel] eqn:Hsel. apply selectPodByName_tracked in Hsel.
    by eapply tracked_releases.
  - destruct (selectEndpoint _ _ _ _ _) as [r sel] eqn:Hsel. apply selectEndpoint_tracked in Hsel.
    destruct r; by eapply tracked_releases.
Qed.

Lemma other_step_releases h s s' x :
  rtc (other_step h) s s' → releases s !! h = Some x → releases s' !! h = Some x.
Proof.
  induction 1 as [|s s1 s' Hs _ IH]; [done|]. intros Hx. apply IH. destruct Hs.
  - eapply select_releases; [left; eauto 10|done].
  - eapply select_releases; [right; left; eauto|done].
  - eapply select_releases; [right; right; eauto|done].
  - apply release_releases; [by left|done].
Qed.

Lemma spent_release h s s' key :
  rtc selector_step s s' → releases s !! h = Some (key, true) → release s' h = s'.
Proof.
  intros Hrtc Hx. assert (releases s' !! h = Some (key, true)) as Hs'; [|unfold release; by rewrite Hs'].
  revert Hx. induction Hrtc as [|s s1 s' Hs _ IH]; [done|]. intros Hx. apply IH. destruct Hs.
  - eapply select_releases; [left; eauto 10|done].
  - eapply select_releases; [right; left; eauto|done].
  - eapply select_releases; [right; right; eauto|done].
  - apply release_releases; [by right|done].
Qed.

Lemma release_decrements s h key :
  releases s !! h = Some (key, false) →
  releases (release s h) !! h = Some (key, true) ∧
  ∀ k, zget (connections (release s h)) k
       = (zget (connections s) k - if bool_decide (k = key) then 1 else 0)%Z.
Proof.
  intros Hh. pose proof (lookup_lt_Some _ _ _ Hh). unfold release. rewrite Hh.
  case_bool_decide as H1; simpl in *; (split; [by rewrite list_lookup_insert_eq|]); intros k; unfold zget;
    case_bool_decide; subst.
  - by rewrite lookup_delete_eq, H1.
  - by rewrite lookup_delete_ne, Z.sub_0_r by done.
  - by rewrite lookup_insert_eq.
  - by rewrite lookup_insert_ne, Z.sub_0_r by done.
Qed.

Section NoLeak.
Context (Get : AccessGetter).
Context (pods_List : option (string → gmap string string → result (list Pod))).
Context (policy : ContainerPolicy).
Context (labels_Matches : gmap string string → gmap string string → bool).
Context (now : Z) (rand_Intn : Z → Z).

(** [key] is the connection key of [tgt] as a target of [access]. *)
Definition target_key (access : Access) (tgt : Target) (key : string) : Prop :=
  (∃ pod container, tgt = Bind pod container ∧
     key = selection_key access (podTargetKey (acc_Namespace access) pod)) ∨
  (∃ endpoint, tgt = NewTarget access (ep_Name endpoint) ∧ key = selection_key access (ep_Name endpoint)).

(** The accounting of one resolution for [access] in terms of the [connections] map.  A failure leaves
    the map as it was and registers nothing.  A success adds one to the count of the target it returns
    and registers one release closure; that closure run at once restores the map; run after any other
    selections and releases it takes one from that count and from no other; and run again, whenever,
    it does nothing. *)
Definition accounted (access : Access) (s : resolverState) (r : result Target) (s' : resolverState) : Prop :=
  match r with
  | Err _ => rs_afterFuncs s' = rs_afterFuncs s ∧
             connections (rs_selector s') = connections (rs_selector s)
  | Ok tgt => ∃ key h,
      target_key access tgt key ∧ rs_afterFuncs s' = rs_afterFuncs s ++ [h] ∧
      connections (rs_selector s') =
        <[key := (zget (connections (rs_selector s)) key + 1)%Z]> (connections (rs_selector s)) ∧
      connections (release (rs_selector s') h) = connections (rs_selector s) ∧
      ∀ sel, rtc (other_step h) (rs_selector s') sel →
        (∀ k, zget (connections (release sel h)) k
              = (zget (connections sel) k - if bool_decide (k = key) then 1 else 0)%Z) ∧
        ∀ sel', rtc selector_step (release sel h) sel' → release sel' h = sel'
  end.

Lemma tracked_accounted access s tgt s' key h :
  counts_live (rs_selector s) → tracked (rs_selector s) (rs_selector s') (Some (key, h)) →
  target_key access tgt key → rs_afterFuncs s' = rs_afterFuncs s ++ [h] → accounted access s (Ok tgt) s'.
Proof.
  intros Hc Ht Hk Ha. exists key, h. split_and!; [done..|apply Ht|by eapply release_undoes|].
  intros sel Hsel. destruct Ht as (-> & Hr & _).
  apply (other_step_releases _ _ _ (key, false)) in Hsel.
  2:{ rewrite Hr, lookup_app_r, Nat.sub_diag by lia. done. }
  apply release_decrements in Hsel as [Hspent Hdec]. split; [done|].
  intros sel' Hsel'. by eapply spent_release.
Qed.

Lemma bindSelection_accounted input l access pod h s0 s :
  counts_live (rs_selector s0) →
  tracked (rs_selector s0) (rs_selector s)
    (Some (selection_key access (podTargetKey (acc_Namespace access) pod), h)) →
  rs_afterFuncs s = rs_afterFuncs s0 →
  accounted access s0 (bindSelection policy input l access pod h s).1
    (bindSelection policy input l access pod h s).2.
Proof.
  intros Hc Ht Ha. unfold bindSelection.
  repeat case_match; first
    [split; [done|]; by eapply release_undoes
    |eapply tracked_accounted; [done|exact Ht| |simpl; congruence]; left; eauto].
Qed.

Lemma resolvePod_accounted input l access pods s :
  counts_live (rs_selector s) →
  let r := resolvePod policy labels_Matches now rand_Intn input l access pods s in
  accounted access s r.1 r.2.
Proof.
  intros Hc. unfold resolvePod. destruct (if bool_decide _ then _ else _) as [l'|e]; [|done].
  destruct (bool_decide (loc_pod l' ≠ "")).
  - destruct (selectPodByName _ _ _ _) as [r sel] eqn:Hsel.
    apply selectPodByName_tracked in Hsel. destruct r as [[pod h]|]; simpl in *.
    + by apply bindSelection_accounted.
    + by destruct Hsel.
  - destruct (selectPod_no_panic labels_Matches now rand_Intn (rs_selector s) access pods input)
      as (r & sel & Hsel & _). rewrite Hsel. apply selectPod_tracked in Hsel.
    destruct r as [[p h]|]; simpl in *.
    + by apply bindSelection_accounted.
    + by destruct Hsel.
Qed.

(** C31: no leaked connection counts.  In every state of the selector that its operations reach, a
    failed [Resolver.Resolve] (even after a Pod was selected, when its container is missing or
    forbidden) leaves the [connections] map as it was and registers nothing on the connection's
    context.  A successful one adds one to the count of exactly the target it returns, keyed by the
    Access, and registers one release function; that function run at once restores the map, run after
    any other selections and releases it takes one from that count only, and run again it does
    nothing. *)
Theorem Resolve_accounted input s :
  rtc selector_step newStrategySelector (rs_selector s) →
  let r := Resolver_Resolve Get pods_List policy labels_Matches now rand_Intn input s in
  match resolveRequestedAccess Get (in_SSHUser input) (in_AuthExtra input) with
  | Ok (Some (_, access)) => accounted access s r.1 r.2
  | _ => is_ok r.1 = false ∧ r.2 = s
  end.
Proof.
  intros Hrtc. assert (counts_live (rs_selector s)) as Hc by (intros k; by apply counts_live_reachable).
  unfold Resolver_Resolve. destruct (resolveRequestedAccess _ _ _) as [[[l a]|]|e]; [|done..].
  destruct (bool_decide (spec_Type (acc_Spec a) = AccessTypeExternal)).
  - unfold resolveExternal. destruct (bool_decide (loc_pod l ≠ "") || _); [done|].
    destruct (selectEndpoint _ _ _ _ _) as [r sel] eqn:Hsel. apply selectEndpoint_tracked in Hsel.
    destruct r as [[[ep h]|]|e]; simpl in *; [|by destruct Hsel..].
    apply (tracked_accounted a s (NewTarget a (ep_Name ep)) (mkResolverState sel (rs_afterFuncs s ++ [h]))
      (selection_key a (ep_Name ep)) h Hc Hsel); [right; eauto|done].
  - destruct (isPodAccess a); [|done]. destruct pods_List as [list|]; [|done].
    destruct (list _ _); [|done]. by apply resolvePod_accounted.
Qed.
End NoLeak.

(** An External target round-trips: what the connector parses from the target bound by the
    resolver is the Access's namespace, name, UID and generation and the endpoint's name. *)
Theorem NewTarget_roundtrip access endpoint :
  acc_Namespace access ≠ "" → acc_Name access ≠ "" → acc_UID access ≠ "" → endpoint ≠ "" →
  (0 ≤ acc_Generation access < 2 ^ 63)%Z →
  parseTarget (Some (NewTarget access endpoint)) =
    Ok (mkBoundTarget (acc_Namespace access) (acc_Name access) endpoint (acc_UID access)
          (acc_Generation access)).
Proof.
  intros Hns Hname Huid Hep Hgen. unfold parseTarget.
  change (Target_Option _ optionNamespaces) with (acc_Namespace access).
  change (Target_Option _ optionAccesses) with (acc_Name access).
  change (Target_Option _ optionEndpoints) with endpoint.
  change (default "" (Runtime (NewTarget access endpoint) !! runtimeAccessUID)) with (acc_UID access).
  change (default "" (Runtime (NewTarget access endpoint) !! runtimeAccessGeneration))
    with (FormatInt (acc_Generation access)).
  rewrite (bool_decide_eq_false_2 (Kind _ ≠ _)) by naive_solver.
  rewrite !bool_decide_eq_false_2 by done. simpl. unfold FormatInt.
  rewrite bool_decide_eq_false_2 by lia. by rewrite ParseInt_FormatUint by lia.
Qed.

Lemma NewTarget_roundtrip_witness :
  parseTarget (Some (NewTarget (pod_access "ns" "ext" []) "node-a")) =
    Ok (mkBoundTarget "ns" "ext" "node-a" "uid-1" 1).
Proof. apply (NewTarget_roundtrip (pod_access "ns" "ext" []) "node-a"); done. Defined.

Definition demo_resolve (user : string) : result Target * resolverState :=
  Resolver_Resolve (PolicyCache_Get demo_cache)
    (Some (fun ns _ => Ok [simple_pod ns "web-0" "u0" ["app"; "side"]]))
    defaultContainerPolicy (fun _ _ => true) 0 (fun _ => 0%Z)
    (mkResolveInput user "" ∅ "" []) (mkResolverState newStrategySelector []).
Lemma Resolve_confined_witness :
  ∃ s', demo_resolve "team.web~web-0" = (Ok (Bind (simple_pod "team" "web-0" "u0" ["app"; "side"]) "app"), s') ∧
  ∃ l a, resolveRequestedAccess (PolicyCache_Get demo_cache) "team.web~web-0" ∅ = Ok (Some (l, a)) ∧
         PolicyCache_Get demo_cache (loc_namespace l) (loc_access l) = Ok a.
Proof.
  eexists. split; [vm_compute; reflexivity|].
  destruct (Resolve_confined (PolicyCache_Get demo_cache)
    (Some (fun ns _ => Ok [simple_pod ns "web-0" "u0" ["app"; "side"]]))
    defaultContainerPolicy (fun _ _ => true) 0 (fun _ => 0%Z)
    (mkResolveInput "team.web~web-0" "" ∅ "" []) (mkResolverState newStrategySelector [])
    (Bind (simple_pod "team" "web-0" "u0" ["app"; "side"]) "app")
    (demo_resolve "team.web~web-0").2)
    as (l & a & Hl & Hget & _); [vm_compute; reflexivity|].
  by exists l, a.
Defined.

Lemma Resolve_accounted_witness :
  let key := targetConnectionKey "team/web" "team/web-0" in
  connections (rs_selector (demo_resolve "team.web~web-0").2) = {[key := 1%Z]} ∧
  connections (release (rs_selector (demo_resolve "team.web~web-0").2) 0) = ∅.
Proof.
  pose proof (Resolve_accounted (PolicyCache_Get demo_cache)
    (Some (fun ns _ => Ok [simple_pod ns "web-0" "u0" ["app"; "side"]]))
    defaultContainerPolicy (fun _ _ => true) 0 (fun _ => 0%Z)
    (mkResolveInput "team.web~web-0" "" ∅ "" []) (mkResolverState newStrategySelector []) (rtc_refl _ _)) as Hacc.
  split; [vm_compute; reflexivity|].
  destruct Hacc as (key & h & _ & Hh & _ & Hrel & _).
  assert (h = 0) as -> by (vm_compute in Hh; congruence). exact Hrel.
Defined.
