(* ===== verification/Options.v ===== *)
(** Model of [src/pkg/gateway/options.go] and of [Options] of [src/pkg/webhook]: the gateway's
    configuration.  Durations are nanoseconds. *)

From S2P Require Import Prelude Strategy Authn.
Local Open Scope Z_scope.

Definition PodSSHTransportAPIServer := "apiserver".
Definition PodSSHTransportCRI := "cri".

(** [webhook.Options] and [Enabled]. *)
Record WebhookOptions := mkWebhookOptions {
  wo_Server : string;
  wo_ProxyURL : string;
  wo_Token : string;
  wo_Username : string;
  wo_Password : string;
  wo_CertFile : string;
  wo_KeyFile : string;
  wo_CAFile : string;
  wo_InsecureSkipTLSVerify : bool;
  wo_Timeout : Z;
}.
Definition webhook_Enabled (o : WebhookOptions) : bool := bool_decide (wo_Server o ≠ "").
Definition webhook_DefaultTimeout : Z := 2 * time_Second.
Definition no_webhook : WebhookOptions :=
  mkWebhookOptions "" "" "" "" "" "" "" "" false webhook_DefaultTimeout.

Record CRITransportOptions := mkCRIOptions {
  cri_Port : Z;
  cri_ServerName : string;
  cri_CAFile : string;
  cri_CertFile : string;
  cri_KeyFile : string;
}.

Record PolicyRuleOptions := mkPolicyRule {
  ContainerMode : string;
  Capabilities : list string;
  EnvAllowlist : list string;
  LocalForwardDestinations : list string;
  RemoteForwardBinds : list string;
  DefaultShell : string;
  Shells : list string;
  IdleTimeout : Z;
  MaxDuration : Z;
}.

Record AuthenticationOptions := mkAuthenticationOptions {
  ao_Methods : option (list string);
  ao_Anonymous : bool;
  ao_AuthorizedKeys : list AuthorizedKeyEntry;
  ao_Passwords : list PasswordEntry;
  ao_Webhook : WebhookOptions;
}.

Record AuthorizationOptions := mkAuthorizationOptions {
  zo_AllowAll : bool;
  zo_KubernetesSAR : bool;
  zo_Webhook : WebhookOptions;
}.

Record Options := mkOptions {
  ListenAddress : string;
  GatewayClassName : string;
  AdvertiseAddresses : list string;
  HostKeyFile : string;
  Kubeconfig : string;
  PodSSH_Transport : string;
  PodSSH_CRI : CRITransportOptions;
  Helper_Path : string;
  Helper_RemoteDir : string;
  AccessPolicy_Enabled : bool;
  AccessPolicy_Namespace : string;
  Policy_Defaults : PolicyRuleOptions;
  Policy_Limits : PolicyRuleOptions;
  Metrics_ListenAddress : string;
  Metrics_Path : string;
  Audit_QueueSize : Z;
  Audit_FlushTimeout : Z;
  Authentication : AuthenticationOptions;
  Authorization : AuthorizationOptions;
  SSHProxy_ConnectTimeout : Z;
}.

Definition DefaultConnectTimeout : Z := 30 * time_Second.

Definition NewDefaultOptions : Options := {|
  ListenAddress := ":2222";
  GatewayClassName := "";
  AdvertiseAddresses := [];
  HostKeyFile := "";
  Kubeconfig := "";
  PodSSH_Transport := PodSSHTransportAPIServer;
  PodSSH_CRI := mkCRIOptions 10443 "kube-ssh-node.kube-ssh.svc" "" "" "";
  Helper_Path := "";
  Helper_RemoteDir := "/tmp";
  AccessPolicy_Enabled := false;
  AccessPolicy_Namespace := "";
  Policy_Defaults := mkPolicyRule "KubernetesDefault"
    ["shell"; "exec"; "scp"; "sftp"; "local_forward"; "remote_forward"; "agent_forward"]
    ["*"] ["*"] ["*"] "/bin/sh" [] 0 0;
  Policy_Limits := mkPolicyRule "All" ["*"] ["*"] ["*"] ["*"] "" ["*"] 0 0;
  Metrics_ListenAddress := "";
  Metrics_Path := "/metrics";
  Audit_QueueSize := 4096;
  Audit_FlushTimeout := 5 * time_Second;
  Authentication := mkAuthenticationOptions (Some ["publickey"; "password"]) false [] [] no_webhook;
  Authorization := mkAuthorizationOptions true false no_webhook;
  SSHProxy_ConnectTimeout := DefaultConnectTimeout;
|}.
