(* ===== verification/Authz.v ===== *)
(** Models of [src/pkg/authz] (capabilities, decisions, the authorizer chain, the static, policy
    limit, Kubernetes and webhook authorizers), of [src/pkg/accesspolicy/authorizer.go] and of the
    authorizer assembly of [src/pkg/gateway/dependencies.go]. *)

From S2P Require Import Prelude GoStrings GoStrconv Wildcard Kube Target Strategy Authn AccessStore AccessStoreProps AccessResolver Options.

(** ** [authz.go] *)

Inductive Decision := DecisionNoOpinion | DecisionDeny | DecisionAllow.
#[export] Instance Decision_eq_dec : EqDecision Decision.
Proof. solve_decision. Defined.

Definition all_capabilities : list string :=
  [CapabilityShell; CapabilityExec; CapabilitySCP; CapabilitySFTP; CapabilityLocalForward;
   CapabilityRemoteForward; CapabilityAgentForward; CapabilitySSHExtension].

Definition ParseCapability (value : string) : result string :=
  if slices_Contains all_capabilities value then Ok value
  else Err (Errorf "unknown capability %q" [value]).

Record AttributeResource := mkResource { res_Resource : string; res_Name : string }.

Record Attributes := mkAttributes {
  attr_Action : string;
  attr_Resources : list AttributeResource;
  attr_Path : string;
  attr_Extra : gmap string (list string);
}.

Record Request := mkRequest {
  req_User : UserInfo;
  req_AuthMethod : string;
  req_AuthExtra : gmap string (list string);
  req_Attributes : Attributes;
}.

(** The decision, the user-visible reason and the error. *)
Definition verdict : Type := Decision * string * option error.
Definition Authorizer : Type := Request → verdict.

Fixpoint authz_Chain (c : list Authorizer) (req : Request) : verdict :=
  match c with
  | [] => (DecisionNoOpinion, "", None)
  | a :: rest =>
      match a req with
      | (decision, reason, Some err) => (decision, reason, Some err)
      | (DecisionAllow, reason, None) => (DecisionAllow, reason, None)
      | (DecisionDeny, reason, None) => (DecisionDeny, reason, None)
      | (DecisionNoOpinion, _, None) => authz_Chain rest req
      end
  end.

(** ** [static.go] *)

Definition AllowAll : Authorizer := fun _ => (DecisionAllow, "", None).
Definition DenyAll : Authorizer := fun _ => (DecisionDeny, "", None).

Definition StaticCapabilities (Allow Deny : list string) : Authorizer := fun req =>
  let capability := attr_Action (req_Attributes req) in
  if slices_Contains Deny capability then (DecisionDeny, "capability denied", None)
  else if slices_Contains Allow capability then (DecisionNoOpinion, "", None)
  else if bool_decide (length Allow = 0) then (DecisionNoOpinion, "", None)
  else (DecisionDeny, "capability not allowed", None).

(** ** [policy.go] *)

Definition extraValue (extra : gmap string (list string)) (key : string) : string :=
  default "" (head (default [] (extra !! key))).

Definition containsOrWildcard (values : list string) (value : string) : bool :=
  slices_Contains values "*" || slices_Contains values value.

Record PolicyLimits := mkPolicyLimits {
  pl_Capabilities : list string;
  pl_LocalForwardDestinations : list string;
  pl_RemoteForwardBinds : list string;
  pl_SkipAccess : bool;
}.

Definition destination_of (attrs : Attributes) : string :=
  JoinHostPort (extraValue (attr_Extra attrs) "destination_host")
    (extraValue (attr_Extra attrs) "destination_port").
Definition bind_of (attrs : Attributes) : string :=
  JoinHostPort (extraValue (attr_Extra attrs) "bind_host") (extraValue (attr_Extra attrs) "bind_port").

Definition is_access_request (req : Request) : bool :=
  bool_decide (0 < length (default [] (req_AuthExtra req !! "kube-ssh/access.name"))).

Definition PolicyLimits_Authorize (p : PolicyLimits) : Authorizer := fun req =>
  if pl_SkipAccess p && is_access_request req then (DecisionNoOpinion, "", None)
  else
    let capability := attr_Action (req_Attributes req) in
    if negb (containsOrWildcard (pl_Capabilities p) capability)
    then (DecisionDeny, "capability exceeds global policy limits", None)
    else if bool_decide (capability = CapabilityLocalForward) &&
            negb (MatchAny (pl_LocalForwardDestinations p) (destination_of (req_Attributes req)))
    then (DecisionDeny, "local forward destination exceeds global policy limits", None)
    else if bool_decide (capability = CapabilityRemoteForward) &&
            negb (MatchAny (pl_RemoteForwardBinds p) (bind_of (req_Attributes req)))
    then (DecisionDeny, "remote forward bind exceeds global policy limits", None)
    else (DecisionNoOpinion, "", None).

(** ** [authorizer_sar.go] *)

Definition resourceValue (resources : list AttributeResource) (resource : string) : string :=
  default "" (res_Name <$> find_first (fun r => bool_decide (res_Resource r = resource)) resources).

Section SAR.
Context `{UnicodeCase}.

Definition isKubernetesPodLocalForwardHost (host : string) : bool :=
  slices_Contains [""; "localhost"; "127.0.0.1"; "::1"] (ToLower host).

Definition kubernetesSARSubresource (attrs : Attributes) : option string :=
  if slices_Contains [CapabilityShell; CapabilityExec; CapabilitySFTP; CapabilitySCP;
       CapabilityRemoteForward; CapabilityAgentForward] (attr_Action attrs)
  then Some "exec"
  else if bool_decide (attr_Action attrs = CapabilityLocalForward)
  then if isKubernetesPodLocalForwardHost (extraValue (attr_Extra attrs) "destination_host")
       then Some "portforward" else Some "exec"
  else None.

(** The review the authorizer creates, and the status the API server answers. *)
Record SubjectAccessReviewSpec := mkSARSpec {
  sar_User : string; sar_Groups : list string; sar_Namespace : string; sar_Verb : string;
  sar_Resource : string; sar_Subresource : string; sar_Name : string }.
Record SubjectAccessReviewStatus := mkSARStatus {
  sar_Allowed : bool; sar_Reason : string; sar_EvaluationError : string }.

(** A nil client is [None]. *)
Definition KubernetesSAR_Authorize
    (client : option (SubjectAccessReviewSpec → result SubjectAccessReviewStatus)) : Authorizer := fun req =>
  match client with
  | None => (DecisionNoOpinion, "", Some (Errorf "kubernetes SAR authorizer requires a client" []))
  | Some Create =>
      let attrs := req_Attributes req in
      if bool_decide (resourceValue (attr_Resources attrs) "targets" ≠ "kube")
      then (DecisionNoOpinion, "", None)
      else match kubernetesSARSubresource attrs with
           | None => (DecisionNoOpinion, "", None)
           | Some subresource =>
               let namespace := resourceValue (attr_Resources attrs) "namespaces" in
               let pod := resourceValue (attr_Resources attrs) "pods" in
               if bool_decide (namespace = "") || bool_decide (pod = "")
               then (DecisionDeny, "kubernetes target requires namespace and pod",
                     Some (Errorf "kubernetes SAR requires namespace and pod" []))
               else if bool_decide (user_Name (req_User req) = "")
               then (DecisionDeny, "kubernetes user is required", None)
               else match Create (mkSARSpec (user_Name (req_User req)) (user_Groups (req_User req))
                                    namespace "create" "pods" subresource pod) with
                    | Err e => (DecisionNoOpinion, "", Some e)
                    | Ok status =>
                        if sar_Allowed status then (DecisionAllow, "", None)
                        else
                          let reason := if bool_decide (sar_Reason status = "")
                                        then sar_EvaluationError status else sar_Reason status in
                          (DecisionDeny,
                           if bool_decide (reason = "") then "kubernetes rbac denied" else reason, None)
                    end
           end
  end.
End SAR.

(** ** [webhook.go] *)

Record WebhookAuthorizeResponse := mkWebhookAuthorizeResponse {
  war_Decision : string; war_Reason : string; war_Error : string }.

Definition WebhookAuthorizer_Authorize
    (Post : UserInfo → Attributes → result WebhookAuthorizeResponse) : Authorizer := fun req =>
  match Post (req_User req) (req_Attributes req) with
  | Err e => (DecisionNoOpinion, "", Some e)
  | Ok resp =>
      let d := war_Decision resp in
      if bool_decide (war_Error resp ≠ "")
      then (DecisionNoOpinion, war_Reason resp,
            Some (Errorf "webhook authorization error: %s" [war_Error resp]))
      else if bool_decide (d = "Allow") then (DecisionAllow, war_Reason resp, None)
      else if bool_decide (d = "Deny") then (DecisionDeny, war_Reason resp, None)
      else if bool_decide (d = "NoOpinion") || bool_decide (d = "")
      then (DecisionNoOpinion, war_Reason resp, None)
      else (DecisionNoOpinion, war_Reason resp, Some (Errorf "webhook returned invalid decision %q" [d]))
  end.

(** ** [accesspolicy/authorizer.go] *)

Record CapabilityDefaults := mkCapabilityDefaults {
  cd_Allow : list string;
  cd_LocalForwardDestinations : list string;
  cd_RemoteForwardBinds : list string;
}.

(** [None] is allowed; [Some reason] is the denial. *)
Definition capabilityAllowed (policy : CapabilityPolicy) (defaults : CapabilityDefaults)
    (attrs : Attributes) : option string :=
  let capability := attr_Action attrs in
  let allowedCapabilities := if bool_decide (length (cp_Allow policy) = 0)
                             then cd_Allow defaults else cp_Allow policy in
  if bool_decide (0 < length allowedCapabilities) &&
     negb (slices_Contains allowedCapabilities capability) &&
     negb (slices_Contains allowedCapabilities "*")
  then Some "capability not allowed"
  else if bool_decide (capability = CapabilityLocalForward)
  then
    let allow := match cp_LocalForward policy with
                 | Some ((_ :: _) as own) => own
                 | _ => cd_LocalForwardDestinations defaults
                 end in
    if bool_decide (0 < length allow) && negb (MatchAny allow (destination_of attrs))
    then Some "local forward destination not allowed" else None
  else if bool_decide (capability = CapabilityRemoteForward)
  then
    let allow := match cp_RemoteForward policy with
                 | Some ((_ :: _) as own) => own
                 | _ => cd_RemoteForwardBinds defaults
                 end in
    if bool_decide (0 < length allow) && negb (MatchAny allow (bind_of attrs))
    then Some "remote forward bind not allowed" else None
  else None.

Definition AccessAuthorizer_Authorize (store : option AccessGetter) (defaults : CapabilityDefaults)
    : Authorizer := fun req =>
  let namespace := GetExtra (req_AuthExtra req) ExtraAccessNamespace in
  let name := GetExtra (req_AuthExtra req) ExtraAccessName in
  let username := GetExtra (req_AuthExtra req) ExtraCredentialUser in
  if bool_decide (namespace = "") || bool_decide (name = "") || bool_decide (username = "")
  then (DecisionNoOpinion, "", None)
  else match store with
       | None => (DecisionNoOpinion, "", Some (Errorf "access authorizer requires a store" []))
       | Some Get =>
           match Get namespace name with
           | Err _ => (DecisionDeny, "authenticated access no longer exists", None)
           | Ok access =>
               match findCredential access username with
               | None => (DecisionDeny, "authenticated credential no longer exists", None)
               | Some credential =>
                   let container := resourceValue (attr_Resources (req_Attributes req)) "containers" in
                   if bool_decide (container ≠ "") &&
                      (negb (containerAllowed (spec_Containers (acc_Spec access)) container) ||
                       negb (containerAllowed (cred_Containers credential) container))
                   then (DecisionDeny, "container not allowed", None)
                   else match capabilityAllowed (cred_Capabilities credential) defaults
                                (req_Attributes req) with
                        | Some reason => (DecisionDeny, reason, None)
                        | None => (DecisionAllow, "", None)
                        end
               end
           end
       end.

(** ** Assembly ([gateway/dependencies.go]) *)

Fixpoint parseCapabilities (values : list string) : result (list string) :=
  match values with
  | [] => Ok []
  | value :: rest =>
      capability ← (if bool_decide (value = "*") then Ok value else ParseCapability value);
      capabilities ← parseCapabilities rest;
      Ok (capability :: capabilities)
  end.

Definition withPolicyGuards (opts : Options) (next : Authorizer) : result Authorizer :=
  limits ← parseCapabilities (Capabilities (Policy_Limits opts));
  defaults ← parseCapabilities (Capabilities (Policy_Defaults opts));
  Ok (authz_Chain
        [PolicyLimits_Authorize
           (mkPolicyLimits limits (LocalForwardDestinations (Policy_Limits opts))
              (RemoteForwardBinds (Policy_Limits opts)) false);
         PolicyLimits_Authorize
           (mkPolicyLimits defaults (LocalForwardDestinations (Policy_Defaults opts))
              (RemoteForwardBinds (Policy_Defaults opts)) true);
         next]).

(** [buildAuthorizer]; the webhook constructor may fail, the SAR authorizer may not. *)
Definition buildAuthorizer (opts : Options) (webhook : result Authorizer) (sar : Authorizer)
    (accessAuthorizer : option Authorizer) : result Authorizer :=
  let chain := match accessAuthorizer with Some a => [a] | None => [] end in
  let hook := webhook_Enabled (zo_Webhook (Authorization opts)) in
  if zo_KubernetesSAR (Authorization opts)
  then
    chain ← (if hook then w ← webhook; Ok (chain ++ [w]) else Ok chain);
    withPolicyGuards opts (authz_Chain (chain ++ [sar]))
  else if hook
  then w ← webhook; withPolicyGuards opts (authz_Chain (chain ++ [w]))
  else if zo_AllowAll (Authorization opts)
  then withPolicyGuards opts (authz_Chain (chain ++ [AllowAll]))
  else if bool_decide (0 < length chain)
  then withPolicyGuards opts (authz_Chain chain)
  else Err (Errorf "authorization is not configured" []).
