(* ===== verification/AuthzProps.v ===== *)
(** Properties of the authorizers of [Authz]: the global policy limits cannot be bypassed, what an
    Access credential permits, and who decides for which caller. *)

From S2P Require Import Prelude GoStrings GoStrconv Wildcard Kube Target Strategy Authn AccessStore AccessStoreProps AccessResolver Options Authz.

(** ** Policy limits *)

(** A request within a rule set, stated with the semantics of the patterns. *)
Definition within (p : PolicyLimits) (req : Request) : Prop :=
  let attrs := req_Attributes req in
  ("*" ∈ pl_Capabilities p ∨ attr_Action attrs ∈ pl_Capabilities p) ∧
  (attr_Action attrs = CapabilityLocalForward →
     ∃ pat, pat ∈ pl_LocalForwardDestinations p ∧ glob pat (destination_of attrs)) ∧
  (attr_Action attrs = CapabilityRemoteForward →
     ∃ pat, pat ∈ pl_RemoteForwardBinds p ∧ glob pat (bind_of attrs)).

Lemma PolicyLimits_Authorize_spec p req :
  (PolicyLimits_Authorize p req = (DecisionNoOpinion, "", None) ∧
   ((pl_SkipAccess p = true ∧ is_access_request req = true) ∨ within p req)) ∨
  (∃ reason, PolicyLimits_Authorize p req = (DecisionDeny, reason, None) ∧
   ¬ (pl_SkipAccess p = true ∧ is_access_request req = true) ∧ ¬ within p req).
Proof.
  unfold PolicyLimits_Authorize, within.
  destruct (pl_SkipAccess p && is_access_request req) eqn:Hskip.
  { left. apply andb_true_iff in Hskip. tauto. }
  assert (¬ (pl_SkipAccess p = true ∧ is_access_request req = true)) as Hns.
  { rewrite <-andb_true_iff, Hskip. done. }
  pose proof (MatchAny_spec (pl_LocalForwardDestinations p) (destination_of (req_Attributes req))) as Hl.
  pose proof (MatchAny_spec (pl_RemoteForwardBinds p) (bind_of (req_Attributes req))) as Hr.
  assert (containsOrWildcard (pl_Capabilities p) (attr_Action (req_Attributes req)) = true ↔
    ("*" ∈ pl_Capabilities p ∨ attr_Action (req_Attributes req) ∈ pl_Capabilities p)) as Hc.
  { unfold containsOrWildcard. by rewrite orb_true_iff, !slices_Contains_spec. }
  destruct (containsOrWildcard _ _); simpl; [|right; eexists; split; [done|]; intuition congruence].
  destruct (MatchAny (pl_LocalForwardDestinations p) _), (MatchAny (pl_RemoteForwardBinds p) _);
    repeat case_bool_decide; simpl;
    first [left; split; [done|]; right; intuition congruence
          |right; eexists; split; [done|]; intuition congruence].
Qed.

Lemma withPolicyGuards_Ok opts next a :
  withPolicyGuards opts next = Ok a →
  ∃ limits defaults,
    parseCapabilities (Capabilities (Policy_Limits opts)) = Ok limits ∧
    parseCapabilities (Capabilities (Policy_Defaults opts)) = Ok defaults ∧
    ∀ req,
      let pl := mkPolicyLimits limits (LocalForwardDestinations (Policy_Limits opts))
                  (RemoteForwardBinds (Policy_Limits opts)) false in
      let pd := mkPolicyLimits defaults (LocalForwardDestinations (Policy_Defaults opts))
                  (RemoteForwardBinds (Policy_Defaults opts)) true in
      (within pl req ∧ (is_access_request req = true ∨ within pd req) ∧
       a req = match next req with
               | (DecisionNoOpinion, _, None) => (DecisionNoOpinion, "", None)
               | v => v
               end) ∨
      (¬ (within pl req ∧ (is_access_request req = true ∨ within pd req)) ∧
       ∃ reason, a req = (DecisionDeny, reason, None)).
Proof.
  intros Ha. apply result_bind_Ok in Ha as (limits & Hl & Ha).
  apply result_bind_Ok in Ha as (defaults & Hd & [= <-]).
  exists limits, defaults. split_and!; [done..|]. intros req pl pd. cbn [authz_Chain].
  fold pl. fold pd.
  destruct (PolicyLimits_Authorize_spec pl req) as [(-> & [[? _]|Hpl])|(r & -> & _ & Hpl)];
    [done| |right; split; [tauto|by eexists]].
  destruct (PolicyLimits_Authorize_spec pd req) as [(-> & Hpd)|(r & -> & Hs & Hpd)].
  - left. split_and!; [done| |].
    + destruct Hpd as [[_ ?]|?]; tauto.
    + by destruct (next req) as [[[] ?] [?|]].
  - right. split; [|by eexists]. intros (_ & [?|?]); [apply Hs; by split|done].
Qed.

(** The authorizer that the options build allows only what both guards let through. *)
Lemma buildAuthorizer_Ok opts webhook sar access a :
  buildAuthorizer opts webhook sar access = Ok a →
  ∃ limits defaults,
    parseCapabilities (Capabilities (Policy_Limits opts)) = Ok limits ∧
    parseCapabilities (Capabilities (Policy_Defaults opts)) = Ok defaults ∧
    ∀ req reason err, a req = (DecisionAllow, reason, err) →
      within (mkPolicyLimits limits (LocalForwardDestinations (Policy_Limits opts))
                (RemoteForwardBinds (Policy_Limits opts)) false) req ∧
      (is_access_request req = true ∨
       within (mkPolicyLimits defaults (LocalForwardDestinations (Policy_Defaults opts))
                 (RemoteForwardBinds (Policy_Defaults opts)) true) req).
Proof.
  intros Hb. assert (∃ next, withPolicyGuards opts next = Ok a) as [next Hg].
  { unfold buildAuthorizer in Hb. repeat case_match; try done; eauto;
      apply result_bind_Ok in Hb as (? & _ & Hb); eauto. }
  apply withPolicyGuards_Ok in Hg as (limits & defaults & Hl & Hd & Hcases).
  exists limits, defaults. split_and!; [done..|]. intros req reason err Hallow.
  destruct (Hcases req) as [(? & ? & _)|(_ & r & Hr)]; congruence || done.
Qed.

(** C1: the configured limits cannot be bypassed.  Whatever authorizers the configuration
    assembles (Access, webhook, Kubernetes SAR, AllowAll), a request it allows names a capability
    of the global limits and, for forwards, a destination or bind address matching a limit pattern;
    a caller not authenticated through an Access is also within the gateway defaults. *)
Theorem limits_not_bypassable opts webhook sar access a req reason err :
  buildAuthorizer opts webhook sar access = Ok a →
  a req = (DecisionAllow, reason, err) →
  ∃ limits defaults,
    parseCapabilities (Capabilities (Policy_Limits opts)) = Ok limits ∧
    parseCapabilities (Capabilities (Policy_Defaults opts)) = Ok defaults ∧
    within (mkPolicyLimits limits (LocalForwardDestinations (Policy_Limits opts))
              (RemoteForwardBinds (Policy_Limits opts)) false) req ∧
    (is_access_request req = true ∨
     within (mkPolicyLimits defaults (LocalForwardDestinations (Policy_Defaults opts))
               (RemoteForwardBinds (Policy_Defaults opts)) true) req).
Proof.
  intros Hb Hallow. destruct (buildAuthorizer_Ok _ _ _ _ _ Hb) as (limits & defaults & Hl & Hd & Hcases).
  exists limits, defaults. split_and!; [done..| |]; by destruct (Hcases req reason err Hallow).
Qed.

Definition alice : UserInfo := mkUser "" "alice" "" false [] ∅.
Definition shell_request : Request := mkRequest alice "password" ∅ (mkAttributes "shell" [] "" ∅).

Lemma limits_not_bypassable_witness :
  ∃ a, buildAuthorizer NewDefaultOptions (Err (EExternal "unused")) DenyAll None = Ok a ∧
  ∃ limits defaults,
    parseCapabilities (Capabilities (Policy_Limits NewDefaultOptions)) = Ok limits ∧
    parseCapabilities (Capabilities (Policy_Defaults NewDefaultOptions)) = Ok defaults ∧
    within (mkPolicyLimits limits ["*"] ["*"] false) shell_request ∧
    (is_access_request shell_request = true ∨
     within (mkPolicyLimits defaults ["*"] ["*"] true) shell_request).
Proof.
  eexists. split; [reflexivity|].
  eapply (limits_not_bypassable NewDefaultOptions (Err (EExternal "unused")) DenyAll None _
    shell_request "" None); vm_compute; reflexivity.
Defined.

(** ** What an Access credential permits *)

(** The capability lists of a credential, falling back to the gateway's defaults. *)
Definition effective {A} (own fallback : list A) : list A :=
  match own with [] => fallback | _ => own end.

Definition capability_permitted (policy : CapabilityPolicy) (defaults : CapabilityDefaults)
    (attrs : Attributes) : Prop :=
  let caps := effective (cp_Allow policy) (cd_Allow defaults) in
  let dests := effective (default [] (cp_LocalForward policy)) (cd_LocalForwardDestinations defaults) in
  let binds := effective (default [] (cp_RemoteForward policy)) (cd_RemoteForwardBinds defaults) in
  (caps = [] ∨ "*" ∈ caps ∨ attr_Action attrs ∈ caps) ∧
  (attr_Action attrs = CapabilityLocalForward →
     dests = [] ∨ ∃ pat, pat ∈ dests ∧ glob pat (destination_of attrs)) ∧
  (attr_Action attrs = CapabilityRemoteForward →
     binds = [] ∨ ∃ pat, pat ∈ binds ∧ glob pat (bind_of attrs)).

Lemma guard_list {A} (l : list A) (b : bool) (P : Prop) :
  (b = true ↔ P) → bool_decide (0 < length l) && negb b = false ↔ l = [] ∨ P.
Proof.
  intros HP. destruct l; simpl; [naive_solver|].
  rewrite negb_false_iff, HP. naive_solver.
Qed.

Lemma capabilityAllowed_spec policy defaults attrs :
  capabilityAllowed policy defaults attrs = None ↔ capability_permitted policy defaults attrs.
Proof.
  unfold capabilityAllowed, capability_permitted.
  assert ((if bool_decide (length (cp_Allow policy) = 0) then cd_Allow defaults else cp_Allow policy)
          = effective (cp_Allow policy) (cd_Allow defaults)) as -> by by destruct (cp_Allow policy).
  assert (match cp_LocalForward policy with
          | Some ((_ :: _) as own) => own | _ => cd_LocalForwardDestinations defaults end
          = effective (default [] (cp_LocalForward policy)) (cd_LocalForwardDestinations defaults)) as ->
    by by destruct (cp_LocalForward policy) as [[]|].
  assert (match cp_RemoteForward policy with
          | Some ((_ :: _) as own) => own | _ => cd_RemoteForwardBinds defaults end
          = effective (default [] (cp_RemoteForward policy)) (cd_RemoteForwardBinds defaults)) as ->
    by by destruct (cp_RemoteForward policy) as [[]|].
  set (caps := effective _ (cd_Allow defaults)).
  set (dests := effective _ (cd_LocalForwardDestinations defaults)).
  set (binds := effective _ (cd_RemoteForwardBinds defaults)).
  pose proof (guard_list dests _ _ (MatchAny_spec dests (destination_of attrs))) as Hd.
  pose proof (guard_list binds _ _ (MatchAny_spec binds (bind_of attrs))) as Hb.
  assert (bool_decide (0 < length caps) && negb (slices_Contains caps (attr_Action attrs)) &&
          negb (slices_Contains caps "*") = false ↔
          caps = [] ∨ "*" ∈ caps ∨ attr_Action attrs ∈ caps) as Hc.
  { rewrite <-andb_assoc, <-negb_orb. apply guard_list.
    rewrite orb_true_iff, !slices_Contains_spec. tauto. }
  destruct (bool_decide (0 < length caps) && _ && _).
  { split; [done|]. intros [Hp _]. by apply Hc in Hp. }
  assert (CapabilityLocalForward ≠ CapabilityRemoteForward) as Hlr by done.
  destruct (decide (attr_Action attrs = CapabilityLocalForward)) as [H1|H1];
    [rewrite (bool_decide_eq_true_2 (_ = CapabilityLocalForward)) by done
    |rewrite (bool_decide_eq_false_2 (_ = CapabilityLocalForward)) by done;
     destruct (decide (attr_Action attrs = CapabilityRemoteForward)) as [H2|H2];
     [rewrite (bool_decide_eq_true_2 (_ = CapabilityRemoteForward)) by done
     |rewrite (bool_decide_eq_false_2 (_ = CapabilityRemoteForward)) by done]]; split.
  - intros Hn. split_and!; [by apply Hc| |intros; congruence]. intros _. apply Hd. by destruct (bool_decide (0 < length dests) && _).
  - intros (_ & Hp & _). by rewrite (proj2 Hd (Hp H1)).
  - intros Hn. split_and!; [by apply Hc|intros; congruence|]. intros _. apply Hb. by destruct (bool_decide (0 < length binds) && _).
  - intros (_ & _ & Hp). by rewrite (proj2 Hb (Hp H2)).
  - intros _. split_and!; [by apply Hc|intros; congruence..].
  - done.
Qed.

(** C9: what an Access permits.  The Access authorizer allows a request exactly when the caller
    carries a complete Access identity, the Access and the credential still exist, a container
    named by the target is permitted by both their lists, and the capability (with the destination
    or bind address of a forward) is permitted by the credential's policy or, where that is silent,
    by the gateway's defaults. *)
Theorem AccessAuthorizer_allow_iff Get defaults req :
  AccessAuthorizer_Authorize (Some Get) defaults req = (DecisionAllow, "", None) ↔
  let ns := GetExtra (req_AuthExtra req) ExtraAccessNamespace in
  let name := GetExtra (req_AuthExtra req) ExtraAccessName in
  let user := GetExtra (req_AuthExtra req) ExtraCredentialUser in
  let container := resourceValue (attr_Resources (req_Attributes req)) "containers" in
  ns ≠ "" ∧ name ≠ "" ∧ user ≠ "" ∧
  ∃ access cr, Get ns name = Ok access ∧ findCredential access user = Some cr ∧
    (container ≠ "" → containerAllowed (spec_Containers (acc_Spec access)) container = true ∧
                      containerAllowed (cred_Containers cr) container = true) ∧
    capability_permitted (cred_Capabilities cr) defaults (req_Attributes req).
Proof.
  unfold AccessAuthorizer_Authorize. cbv zeta.
  set (ns := GetExtra _ ExtraAccessNamespace). set (name := GetExtra _ ExtraAccessName).
  set (user := GetExtra _ ExtraCredentialUser). set (container := resourceValue _ _).
  destruct (bool_decide (ns = "") || bool_decide (name = "") || bool_decide (user = "")) eqn:Hid.
  { split; [done|]. intros (? & ? & ? & _). by rewrite !bool_decide_eq_false_2 in Hid. }
  breflect. destruct (Get ns name) as [access|e]; [|naive_solver].
  destruct (findCredential access user) as [cr|] eqn:Hcr; [|naive_solver].
  setoid_rewrite <-capabilityAllowed_spec.
  destruct (bool_decide (container ≠ "") && _) eqn:Hcont.
  - split; [done|]. intros (_ & _ & _ & access' & cr' & [= <-] & Hcr' & Himp & _).
    rewrite Hcr in Hcr'. injection Hcr' as <-. apply andb_true_iff in Hcont as [Hne Hor]. breflect.
    destruct (Himp Hne) as [E1 E2]. by rewrite E1, E2 in Hor.
  - split.
    + intros Hcap. destruct (capabilityAllowed _ _ _) eqn:Hca; [done|]. split_and!; [done..|].
      exists access, cr. split_and!; [done..| |done]. intros Hne.
      rewrite bool_decide_eq_true_2 in Hcont by done. simpl in Hcont.
      apply orb_false_iff in Hcont as [? ?]. by breflect.
    + intros (_ & _ & _ & access' & cr' & [= <-] & Hcr' & _ & Hcap).
      rewrite Hcr in Hcr'. injection Hcr' as <-. by rewrite Hcap.
Qed.

(** A caller that carries a complete Access identity. *)
Definition access_caller (req : Request) : Prop :=
  GetExtra (req_AuthExtra req) ExtraAccessNamespace ≠ "" ∧
  GetExtra (req_AuthExtra req) ExtraAccessName ≠ "" ∧
  GetExtra (req_AuthExtra req) ExtraCredentialUser ≠ "".

Lemma AccessAuthorizer_decides Get defaults req :
  access_caller req →
  ∃ reason, AccessAuthorizer_Authorize (Some Get) defaults req = (DecisionDeny, reason, None) ∨
            AccessAuthorizer_Authorize (Some Get) defaults req = (DecisionAllow, "", None).
Proof.
  intros (H1 & H2 & H3). unfold AccessAuthorizer_Authorize.
  rewrite !bool_decide_eq_false_2 by done. simpl.
  repeat case_match; first [eexists; by left|exists ""; by right].
Qed.

Lemma access_caller_is_access req : access_caller req → is_access_request req = true.
Proof.
  intros (_ & Hn & _). unfold is_access_request. apply bool_decide_eq_true_2.
  unfold GetExtra, ExtraAccessName in Hn.
  destruct (req_AuthExtra req !! "kube-ssh/access.name") as [[|v l]|]; simpl in *; [done|lia|done].
Qed.

(** C10: for a caller authenticated through an Access, the Access alone decides.  However the
    webhook, Kubernetes SAR and AllowAll are configured, the assembled authorizer allows the
    request exactly when it is within the global limits and the Access authorizer allows it. *)
Theorem access_decides_alone opts webhook sar Get defaults a req :
  buildAuthorizer opts webhook sar (Some (AccessAuthorizer_Authorize (Some Get) defaults)) = Ok a →
  access_caller req →
  (∃ reason err, a req = (DecisionAllow, reason, err)) ↔
  (∃ limits, parseCapabilities (Capabilities (Policy_Limits opts)) = Ok limits ∧
     within (mkPolicyLimits limits (LocalForwardDestinations (Policy_Limits opts))
               (RemoteForwardBinds (Policy_Limits opts)) false) req) ∧
  AccessAuthorizer_Authorize (Some Get) defaults req = (DecisionAllow, "", None).
Proof.
  intros Hb Hcaller. set (acc := AccessAuthorizer_Authorize (Some Get) defaults) in *.
  assert (∃ rest, withPolicyGuards opts (authz_Chain (acc :: rest)) = Ok a) as [rest Hg].
  { unfold buildAuthorizer in Hb.
    destruct (zo_KubernetesSAR _); [apply result_bind_Ok in Hb as (ch & Hch & Hb)|].
    - destruct (webhook_Enabled _); [apply result_bind_Ok in Hch as (w & _ & [= <-])|injection Hch as <-];
        by eexists.
    - destruct (webhook_Enabled _); [apply result_bind_Ok in Hb as (w & _ & Hb); by eexists|].
      destruct (zo_AllowAll _); [by eexists|].
      rewrite bool_decide_eq_true_2 in Hb by (simpl; lia). by eexists. }
  apply withPolicyGuards_Ok in Hg as (limits & dfl & Hl & _ & Hcases).
  pose proof (access_caller_is_access req Hcaller) as Hacc.
  destruct (AccessAuthorizer_decides Get defaults req Hcaller) as [r Hr]. fold acc in Hr.
  destruct (Hcases req) as [(Hw & _ & Ha)|(Hw & reason & Ha)]; rewrite Ha; cbn [authz_Chain].
  - destruct Hr as [->| ->]; split; try naive_solver.
  - split; [naive_solver|]. intros ((l' & Hl' & Hw') & _). exfalso. apply Hw.
    rewrite Hl in Hl'. injection Hl' as <-. split; [done|by left].
Qed.

Definition alice_identity : gmap string (list string) :=
  {[ExtraAccessNamespace := ["team"]; ExtraAccessName := ["web"]; ExtraCredentialUser := ["alice"]]}.
Definition alice_shell : Request :=
  mkRequest alice "crd-password" alice_identity (mkAttributes "shell" [] "" ∅).

Lemma access_decides_alone_witness :
  ∃ a, buildAuthorizer NewDefaultOptions (Err (EExternal "unused")) DenyAll
         (Some (AccessAuthorizer_Authorize (Some (PolicyCache_Get demo_cache))
                  (mkCapabilityDefaults ["exec"] [] []))) = Ok a ∧
  ¬ ∃ reason err, a alice_shell = (DecisionAllow, reason, err).
Proof.
  eexists. split; [reflexivity|].
  rewrite (access_decides_alone NewDefaultOptions (Err (EExternal "unused")) DenyAll
    (PolicyCache_Get demo_cache) (mkCapabilityDefaults ["exec"] [] []) _ alice_shell eq_refl).
  - intros [_ H]. vm_compute in H. discriminate H.
  - by vm_compute.
Defined.

(** ** Access callers and empty defaults *)

(** When neither the credential nor the gateway's defaults list capabilities, an Access
    credential may use every capability, including [ssh_extension], while a directly authenticated
    caller may use none: the two readings of an empty default list differ. *)
Theorem empty_defaults_diverge policy attrs user method extra :
  cp_Allow policy = [] → cp_LocalForward policy = None → cp_RemoteForward policy = None →
  extra !! ExtraAccessName = None →
  capabilityAllowed policy (mkCapabilityDefaults [] [] []) attrs = None ∧
  ∃ reason, PolicyLimits_Authorize (mkPolicyLimits [] [] [] true)
              (mkRequest user method extra attrs)
            = (DecisionDeny, reason, None).
Proof.
  intros H1 H2 H3 Hextra. split.
  - apply capabilityAllowed_spec. unfold capability_permitted. rewrite H1, H2, H3. simpl.
    split_and!; [by left|by left..].
  - unfold PolicyLimits_Authorize, is_access_request. simpl.
    unfold ExtraAccessName in Hextra. rewrite Hextra. simpl. eauto.
Qed.

Lemma empty_defaults_diverge_witness :
  capabilityAllowed no_capabilities (mkCapabilityDefaults [] [] [])
    (mkAttributes CapabilitySSHExtension [] "" ∅) = None.
Proof.
  apply (empty_defaults_diverge no_capabilities (mkAttributes CapabilitySSHExtension [] "" ∅)
    alice "password" ∅); done.
Defined.
