(* ===== verification/SessionPolicy.v ===== *)
(** Models of [src/pkg/gateway/session_policy.go] (the effective shell, environment and duration
    policy of a connection) and of [src/pkg/gateway/session_policy_conn.go] (the connection wrapper
    that enforces the durations with one timer). *)

From S2P Require Import Prelude Runs GoStrings GoStrconv Wildcard Kube Target Strategy StrategyProps Authn AccessStore AccessStoreProps AccessResolver Options.
Local Open Scope Z_scope.

(** ** [session_policy.go] *)

Record effectiveSessionPolicy := mkEffective {
  esp_DefaultShell : string;
  globalEnvAllowlist : list string;
  accessEnvAllowlist : list string;
  accessEnvConfigured : bool;
  esp_IdleTimeout : Z;
  esp_MaxDuration : Z;
}.

Definition positiveDuration (duration : Z) : Z := Z.max duration 0.

Definition boundedDuration (value limit : Z) : Z :=
  let value := positiveDuration value in
  let limit := positiveDuration limit in
  if bool_decide (value = 0) then limit
  else if bool_decide (limit = 0) then value
  else Z.min value limit.

Definition buildGlobalSessionPolicy (opts : Options) : effectiveSessionPolicy :=
  mkEffective (DefaultShell (Policy_Defaults opts))
    (EnvAllowlist (Policy_Limits opts)) (EnvAllowlist (Policy_Defaults opts)) true
    (boundedDuration (IdleTimeout (Policy_Defaults opts)) (IdleTimeout (Policy_Limits opts)))
    (boundedDuration (MaxDuration (Policy_Defaults opts)) (MaxDuration (Policy_Limits opts))).

(** A duration of the Access that overrides [current] when it is set and positive. *)
Definition overrideDuration (current : Z) (own : option Z) (limit : Z) : Z :=
  match own with
  | None => current
  | Some d => if bool_decide (positiveDuration d > 0)
              then boundedDuration (positiveDuration d) limit else current
  end.

Definition buildAccessSessionPolicy (opts : Options) (access : option Access) : effectiveSessionPolicy :=
  let policy := buildGlobalSessionPolicy opts in
  match (a ← access; spec_Session (acc_Spec a)) with
  | None => policy
  | Some session =>
      mkEffective
        (if bool_decide (session_DefaultShell session ≠ "") then session_DefaultShell session
         else esp_DefaultShell policy)
        (globalEnvAllowlist policy)
        (match session_EnvAllowlist session with Some l => l | None => accessEnvAllowlist policy end)
        (match session_EnvAllowlist session with Some _ => true | None => accessEnvConfigured policy end)
        (overrideDuration (esp_IdleTimeout policy) (session_IdleTimeout session)
           (IdleTimeout (Policy_Limits opts)))
        (overrideDuration (esp_MaxDuration policy) (session_MaxDuration session)
           (MaxDuration (Policy_Limits opts)))
  end.

Section Env.
Context `{UnicodeCase}.

(** The test of one pattern in the loop of [envAllowlistAllows]. *)
Definition envPatternAllows (upper pattern : string) : bool :=
  let p := ToUpper pattern in
  if bool_decide (p = "*") then true
  else if HasSuffix p "*" then HasPrefix upper (stake (slen p - 1) p)
  else bool_decide (upper = p).

Definition envAllowlistAllows (allowlist : list string) (key : string) : bool :=
  if bool_decide (length allowlist = 0%nat) then false
  else existsb (envPatternAllows (ToUpper key)) allowlist.

Definition envAllowed (p : effectiveSessionPolicy) (key : string) : bool :=
  if negb (envAllowlistAllows (globalEnvAllowlist p) key) then false
  else if accessEnvConfigured p && negb (envAllowlistAllows (accessEnvAllowlist p) key) then false
  else true.
End Env.

Definition parseAccessSSHUser (sshUser : string) : option (string * string) :=
  match Cut sshUser "." with
  | None => None
  | Some (namespace, name) =>
      if bool_decide (namespace = "") || bool_decide (name = "") then None else Some (namespace, name)
  end.

(** The nil store is [None]; [Ok None] is the nil Access. *)
Definition sessionPolicyAccess (accessPolicy : option AccessGetter) (sshUser : string)
    (infoExtra : gmap string (list string)) : result (option Access) :=
  match accessPolicy with
  | None => Ok None
  | Some Get =>
      let namespace := GetExtra infoExtra ExtraAccessNamespace in
      let name := GetExtra infoExtra ExtraAccessName in
      if bool_decide (namespace ≠ "") || bool_decide (name ≠ "")
      then if bool_decide (namespace = "") || bool_decide (name = "")
           then Err (Errorf "incomplete access policy identity" [])
           else access ← Get namespace name; Ok (Some access)
      else match parseAccessSSHUser sshUser with
           | None => Ok None
           | Some (namespace, name) =>
               match Get namespace name with
               | Err _ => Ok None
               | Ok access => Ok (Some access)
               end
           end
  end.

Definition stringAllowed (patterns : list string) (value : string) : bool := MatchAny patterns value.

Definition resolveSessionPolicy (opts : Options) (accessPolicy : option AccessGetter)
    (sshUser : string) (infoExtra : gmap string (list string)) : result effectiveSessionPolicy :=
  access ← sessionPolicyAccess accessPolicy sshUser infoExtra;
  let policy := buildAccessSessionPolicy opts access in
  if negb (stringAllowed (Shells (Policy_Limits opts)) (esp_DefaultShell policy))
  then Err (Errorf "shell %q exceeds global policy limits" [esp_DefaultShell policy])
  else Ok policy.

(** ** [session_policy_conn.go] *)

(** The wrapper's state.  Instants are nanoseconds on one line, on which [Time.Add] does not wrap; a
    [Duration] is an [int64].  The zero [time.Time] is [None]; [timer] is the instant the timer is armed
    for, [None] when it was never made, was stopped or has fired. *)
Record sessionPolicyConn := mkConn {
  started : Z;
  lastActivityNS : Z;
  closed : bool;
  policy : effectiveSessionPolicy;
  timer : option Z;
}.

(** [Time.Sub] and [time.Since] saturate. *)
Definition duration_between (later earlier : Z) : Z := Z.max int64_min (Z.min int64_max (later - earlier)).

(** The sum of the recorded activity and the idle timeout is one of [Duration]s, so it wraps. *)
Definition nextDeadlineLocked (c : sessionPolicyConn) : option Z :=
  let deadline := if bool_decide (esp_MaxDuration (policy c) > 0)
                  then Some (started c + esp_MaxDuration (policy c)) else None in
  if bool_decide (esp_IdleTimeout (policy c) > 0)
  then
    let idleDeadline := started c + wrap64 (lastActivityNS c + esp_IdleTimeout (policy c)) in
    match deadline with
    | None => Some idleDeadline
    | Some d => if bool_decide (idleDeadline < d) then Some idleDeadline else Some d
    end
  else deadline.

Definition set_timer (c : sessionPolicyConn) (t : option Z) : sessionPolicyConn :=
  mkConn (started c) (lastActivityNS c) (closed c) (policy c) t.

(** [scheduleLocked]: whether the current policy has already expired.  The timer counts its delay from
    a clock reading of its own, after [now]; arming it from [now] leaves open how late it fires. *)
Definition scheduleLocked (c : sessionPolicyConn) (now : Z) : bool * sessionPolicyConn :=
  match nextDeadlineLocked c with
  | None => (false, set_timer c None)
  | Some deadline =>
      let delay := duration_between deadline now in
      if bool_decide (delay ≤ 0) then (true, c)
      else (false, set_timer c (Some (now + delay)))
  end.

Definition conn_Close (c : sessionPolicyConn) : sessionPolicyConn :=
  if closed c then c else mkConn (started c) (lastActivityNS c) true (policy c) None.

(** The regions of [ApplyPolicy] and [onTimer] under the mutex, which say whether [Close] is called
    after it was released. *)
Definition ApplyPolicy_locked (c : sessionPolicyConn) (p : effectiveSessionPolicy) (now : Z)
    : bool * sessionPolicyConn :=
  if closed c then (false, c)
  else scheduleLocked (mkConn (started c) (lastActivityNS c) (closed c) p (timer c)) now.
Definition onTimer_locked (c : sessionPolicyConn) (now : Z) : bool * sessionPolicyConn :=
  if closed c then (false, c) else scheduleLocked c now.

Definition close_if_expired (r : bool * sessionPolicyConn) : sessionPolicyConn :=
  if r.1 then conn_Close r.2 else r.2.

(** Both functions when nothing comes between the region and the call of [Close]. *)
Definition ApplyPolicy (c : sessionPolicyConn) (p : effectiveSessionPolicy) (now : Z) : sessionPolicyConn :=
  close_if_expired (ApplyPolicy_locked c p now).
Definition onTimer (c : sessionPolicyConn) (now : Z) : sessionPolicyConn :=
  close_if_expired (onTimer_locked c now).

(** The connection before its first policy, and with it. *)
Definition fresh_conn (now : Z) : sessionPolicyConn :=
  mkConn now 0 false (mkEffective "" [] [] false 0 0) None.
Definition newSessionPolicyConn (p : effectiveSessionPolicy) (now : Z) : sessionPolicyConn :=
  ApplyPolicy (fresh_conn now) p now.

(** [touch] after a [Read] or [Write] that moved bytes: reading the clock, and the atomic store. *)
Definition touch_value (c : sessionPolicyConn) (now : Z) : Z := duration_between now (started c).
Definition touch_store (c : sessionPolicyConn) (ns : Z) : sessionPolicyConn :=
  mkConn (started c) ns (closed c) (policy c) (timer c).
Definition touch (c : sessionPolicyConn) (now : Z) : sessionPolicyConn := touch_store c (touch_value c now).

(** ** Properties of the effective policy *)

(** C27: session policies stay within the global limits, whatever an Access asks for: a positive
    idle or total limit is a bound that is always set and never exceeded, the shell of a resolved
    policy matches the permitted shells, and an environment variable passes only if the global
    allow list and, when the Access has its own list, that list too let it pass. *)
Theorem session_policy_within_limits `{UnicodeCase} opts accessPolicy sshUser extra p :
  resolveSessionPolicy opts accessPolicy sshUser extra = Ok p →
  (0 < IdleTimeout (Policy_Limits opts) → 0 < esp_IdleTimeout p ≤ IdleTimeout (Policy_Limits opts)) ∧
  (0 < MaxDuration (Policy_Limits opts) → 0 < esp_MaxDuration p ≤ MaxDuration (Policy_Limits opts)) ∧
  (∃ pat, pat ∈ Shells (Policy_Limits opts) ∧ glob pat (esp_DefaultShell p)) ∧
  (∀ key, envAllowed p key = true →
     envAllowlistAllows (EnvAllowlist (Policy_Limits opts)) key = true ∧
     ∃ access, sessionPolicyAccess accessPolicy sshUser extra = Ok access ∧
       envAllowlistAllows
         (default (EnvAllowlist (Policy_Defaults opts))
            (a ← access; s ← spec_Session (acc_Spec a); session_EnvAllowlist s)) key = true).
Proof.
  unfold resolveSessionPolicy. intros Hr. apply result_bind_Ok in Hr as (access & Ha & Hr).
  set (q := buildAccessSessionPolicy opts access) in *.
  destruct (stringAllowed _ _) eqn:Hsh; simpl in Hr; [|done]. injection Hr as <-.
  assert (∀ v l, 0 < l → 0 < boundedDuration v l ≤ l) as Hb.
  { intros v l Hl. unfold boundedDuration, positiveDuration. repeat case_bool_decide; lia. }
  assert (∀ v o l, 0 < l → 0 < overrideDuration (boundedDuration v l) o l ≤ l) as Ho.
  { intros v o l Hl. unfold overrideDuration. repeat case_match; auto. }
  split_and!.
  - intros Hl. unfold q, buildAccessSessionPolicy. case_match; [by apply Ho|by apply Hb].
  - intros Hl. unfold q, buildAccessSessionPolicy. case_match; [by apply Ho|by apply Hb].
  - by apply MatchAny_spec.
  - intros key. unfold envAllowed.
    assert (globalEnvAllowlist q = EnvAllowlist (Policy_Limits opts)) as ->.
    { unfold q, buildAccessSessionPolicy. by case_match. }
    assert (accessEnvConfigured q = true) as ->.
    { unfold q, buildAccessSessionPolicy. repeat case_match; done. }
    assert (accessEnvAllowlist q = default (EnvAllowlist (Policy_Defaults opts))
              (a ← access; s ← spec_Session (acc_Spec a); session_EnvAllowlist s)) as ->.
    { unfold q, buildAccessSessionPolicy. destruct access as [a|]; [|done]. simpl.
      destruct (spec_Session (acc_Spec a)) as [s|]; [|done]. simpl.
      by destruct (session_EnvAllowlist s). }
    repeat case_match; try done. intros _. breflect. split; [done|]. exists access. split; [done|].
    match goal with Hx : true && _ = false |- _ => simpl in Hx end. by breflect.
Qed.

Lemma session_policy_within_limits_witness :
  ∃ p, resolveSessionPolicy NewDefaultOptions None "ns.pod" ∅ = Ok p ∧
    ∃ pat, pat ∈ Shells (Policy_Limits NewDefaultOptions) ∧ glob pat (esp_DefaultShell p).
Proof.
  eexists. split; [reflexivity|].
  apply (@session_policy_within_limits ascii_only NewDefaultOptions None "ns.pod" ∅ _ eq_refl).
Defined.

(** The session policy of an Access is not applied to callers without an Access identity who
    name a Pod or a container: when the user name [ns.access~pod] or [ns.access.container] resolves
    to an Access, and no Access carries the whole remainder as its name, the policy lookup finds no
    Access and the gateway-wide policy is used instead of the Access's. *)
Theorem suffix_bypasses_session_policy Get sshUser extra l a :
  GetExtra extra ExtraAccessNamespace = "" → GetExtra extra ExtraAccessName = "" →
  resolveAccessLocator Get sshUser = Ok (Some (l, a)) →
  loc_pod l ≠ "" ∨ loc_container l ≠ "" →
  (loc_pod l ≠ "" → is_ok (Get (loc_namespace l) (loc_access l +:+ "~" +:+ loc_pod l)) = false) →
  resolveRequestedAccess Get sshUser extra = Ok (Some (l, a)) ∧
  sessionPolicyAccess (Some Get) sshUser extra = Ok None ∧
  ∀ opts, buildAccessSessionPolicy opts None = buildGlobalSessionPolicy opts.
Proof.
  intros Hns Hname Hl Hsuffix Hpod. split_and!; [| |done].
  { unfold resolveRequestedAccess. rewrite Hns, Hname.
    by rewrite (bool_decide_eq_false_2 ("" ≠ "")) by naive_solver. }
  apply resolveAccessLocator_Some in Hl as (Hwf & -> & _ & Hcont).
  destruct Hwf as (Hn1 & Hn2 & Hdot & _ & _ & Hexcl).
  unfold sessionPolicyAccess. rewrite Hns, Hname.
  rewrite (bool_decide_eq_false_2 ("" ≠ "")) by naive_solver. simpl.
  unfold parseAccessSSHUser, locator_user. change ("." +:+ ?x) with (String "." x).
  rewrite Cut_app by done.
  rewrite (bool_decide_eq_false_2 (loc_namespace l = "")) by done.
  rewrite (bool_decide_eq_false_2 (loc_access l +:+ _ = "")) by (by destruct (loc_access l)). simpl.
  destruct (decide (loc_pod l = "")) as [Hp|Hp].
  - destruct Hsuffix as [?|Hc]; [done|]. rewrite (bool_decide_eq_false_2 (loc_pod l ≠ "")) by naive_solver.
    rewrite bool_decide_eq_true_2, sapp_nil_l by done.
    destruct (Hcont Hc) as (e & He & _). by rewrite He.
  - destruct Hexcl as [?|Hc]; [done|]. rewrite (bool_decide_eq_true_2 (loc_pod l ≠ "")) by done.
    rewrite bool_decide_eq_false_2, sapp_nil_r by naive_solver. specialize (Hpod Hp).
    by destruct (Get (loc_namespace l) (loc_access l +:+ "~" +:+ loc_pod l)).
Qed.

Definition strict_access : Access :=
  mkAccess "team" "web" "uid" 1 0
    (mkSpec None AccessTypePod ∅ [] None
       (Some (mkSession "/bin/rbash" (Some []) (Some (60 * time_Second)) None)) [] []) empty_status.
Definition strict_store : AccessGetter := MemoryStore_Get (NewMemoryStore [strict_access]).

Lemma suffix_bypasses_session_policy_witness :
  sessionPolicyAccess (Some strict_store) "team.web" ∅ = Ok (Some strict_access) ∧
  sessionPolicyAccess (Some strict_store) "team.web~web-0" ∅ = Ok None.
Proof.
  split; [by vm_compute|].
  apply (suffix_bypasses_session_policy strict_store "team.web~web-0" ∅
    (mkLocator "team" "web" "web-0" "") strict_access); try by vm_compute.
  by left.
Defined.

(** ** The timer *)

(** A connection under observation, its goroutines at the granularity of the mutex.  [w_firing] counts
    the timer callbacks that have started and not yet locked, [w_closing] holds the calls of [Close] that
    an expired policy has decided on and that have not locked yet, each with the instant and the state of
    its decision, [w_stores] the activities whose clock was read and whose store is outstanding.
    [w_latest] is the instant of the last activity and [w_closedBy] who closed the connection. *)
Record expired_check := mkCheck { ck_now : Z; ck_conn : sessionPolicyConn }.
Inductive closer := ByPolicy (ck : expired_check) | ByCaller.

Record watched := mkWatched {
  w_now : Z;
  w_conn : sessionPolicyConn;
  w_firing : nat;
  w_closing : list expired_check;
  w_stores : list Z;
  w_latest : Z;
  w_closedBy : option closer;
}.

Definition watch_start (now : Z) : watched := mkWatched now (fresh_conn now) 0 [] [] now None.

Definition w_with (w : watched) (c : sessionPolicyConn) (firing : nat) (closing : list expired_check) : watched :=
  mkWatched (w_now w) c firing closing (w_stores w) (w_latest w) (w_closedBy w).
(** The end of a locked region that checked the policy. *)
Definition w_checked (w : watched) (firing : nat) (r : bool * sessionPolicyConn) : watched :=
  w_with w r.2 firing (if r.1 then w_closing w ++ [mkCheck (w_now w) r.2] else w_closing w).
(** A call of [Close], which only the first finds open. *)
Definition w_close (w : watched) (by_ : closer) (closing : list expired_check) : watched :=
  mkWatched (w_now w) (conn_Close (w_conn w)) (w_firing w) closing (w_stores w) (w_latest w)
    (if closed (w_conn w) then w_closedBy w else Some by_).

Definition timer_due (now : Z) (c : sessionPolicyConn) : bool :=
  match timer c with Some t => bool_decide (t ≤ now) | None => false end.

(** What the wrapper does by itself: its timer fires, a callback runs its locked region, an expired
    policy closes the connection. *)
Inductive watch_own : watched → watched → Prop :=
| wo_fire w :
    timer_due (w_now w) (w_conn w) = true →
    watch_own w (w_with w (set_timer (w_conn w) None) (S (w_firing w)) (w_closing w))
| wo_callback w n :
    w_firing w = S n → watch_own w (w_checked w n (onTimer_locked (w_conn w) (w_now w)))
| wo_close w i ck :
    w_closing w !! i = Some ck → watch_own w (w_close w (ByPolicy ck) (delete i (w_closing w))).

(** What others do: time passes (by any amount, so that the timer and its callback may be late),
    traffic reads the clock and stores it later, in any order, the policy is changed, and the
    connection is closed by its user. *)
Inductive watch_env : watched → watched → Prop :=
| we_tick w now :
    w_now w ≤ now →
    watch_env w (mkWatched now (w_conn w) (w_firing w) (w_closing w) (w_stores w) (w_latest w) (w_closedBy w))
| we_io w :
    watch_env w (mkWatched (w_now w) (w_conn w) (w_firing w) (w_closing w)
                   (w_stores w ++ [touch_value (w_conn w) (w_now w)]) (w_now w) (w_closedBy w))
| we_store w i ns :
    w_stores w !! i = Some ns →
    watch_env w (mkWatched (w_now w) (touch_store (w_conn w) ns) (w_firing w) (w_closing w)
                   (delete i (w_stores w)) (w_latest w) (w_closedBy w))
| we_apply w p :
    watch_env w (w_checked w (w_firing w) (ApplyPolicy_locked (w_conn w) p (w_now w)))
| we_close w : watch_env w (w_close w ByCaller (w_closing w)).

Definition watch_step (w w' : watched) : Prop := watch_own w w' ∨ watch_env w w'.

(** The bounds of the policy in force, without wrapping: the total duration since the start and the
    idle timeout since the last activity. *)
Definition within_bounds (w : watched) : Prop :=
  let p := policy (w_conn w) in
  (0 < esp_MaxDuration p → w_now w < started (w_conn w) + esp_MaxDuration p) ∧
  (0 < esp_IdleTimeout p → w_now w < w_latest w + esp_IdleTimeout p).

(** A bound of the policy was reached by [now] in the state [c]: the total duration, the idle timeout
    after the recorded activity, or an idle timeout whose sum with that activity is no [int64]. *)
Definition bound_reached (now : Z) (c : sessionPolicyConn) : Prop :=
  (0 < esp_MaxDuration (policy c) ∧ started c + esp_MaxDuration (policy c) ≤ now) ∨
  (0 < esp_IdleTimeout (policy c) ∧
   (started c + lastActivityNS c + esp_IdleTimeout (policy c) ≤ now ∨
    int64_max < lastActivityNS c + esp_IdleTimeout (policy c))).

Definition watch_measure (w : watched) : nat :=
  ((if timer_due (w_now w) (w_conn w) then 3 else 0) + 2 * w_firing w + length (w_closing w))%nat.

(** *** Deadlines *)

Lemma duration_between_le now c :
  started c ≤ now → 0 ≤ touch_value c now ≤ int64_max ∧ touch_value c now ≤ now - started c.
Proof. unfold touch_value, duration_between, int64_min, int64_max. lia. Qed.

Lemma delay_pos d now : (0 < duration_between d now ↔ now < d) ∧ (now < d → now + duration_between d now ≤ d).
Proof. unfold duration_between, int64_min, int64_max. lia. Qed.

(** A non-negative sum wraps downwards only. *)
Lemma wrap64_le x : 0 ≤ x → wrap64 x ≤ x.
Proof.
  intros Hx. unfold wrap64.
  pose proof (Z.mod_le (x + 2 ^ 63) (2 ^ 64) ltac:(lia) ltac:(lia)). lia.
Qed.

Lemma nextDeadline_upper c :
  0 ≤ lastActivityNS c →
  (0 < esp_MaxDuration (policy c) →
     ∃ d, nextDeadlineLocked c = Some d ∧ d ≤ started c + esp_MaxDuration (policy c)) ∧
  (0 < esp_IdleTimeout (policy c) →
     ∃ d, nextDeadlineLocked c = Some d ∧ d ≤ started c + lastActivityNS c + esp_IdleTimeout (policy c)).
Proof.
  intros Hla. unfold nextDeadlineLocked.
  split; intros Hpos; [|pose proof (wrap64_le (lastActivityNS c + esp_IdleTimeout (policy c)) ltac:(lia))];
    repeat case_bool_decide; try lia; eexists; (split; [done|lia]).
Qed.

Lemma nextDeadline_reached c d now :
  0 ≤ lastActivityNS c → nextDeadlineLocked c = Some d → d ≤ now → bound_reached now c.
Proof.
  intros Hla Hd Hle. unfold bound_reached.
  assert ((0 < esp_MaxDuration (policy c) ∧ d = started c + esp_MaxDuration (policy c)) ∨
    (0 < esp_IdleTimeout (policy c) ∧ d = started c + wrap64 (lastActivityNS c + esp_IdleTimeout (policy c))))
    as [?|[Hi ->]].
  { unfold nextDeadlineLocked in Hd. repeat case_bool_decide; simplify_eq; first [left; lia|right; lia]. }
  - left. lia.
  - right. split; [done|].
    destruct (decide (lastActivityNS c + esp_IdleTimeout (policy c) ≤ int64_max)) as [Hb|]; [left|right; lia].
    rewrite wrap64_id in Hle; [lia|]. unfold in_int64, int64_min in *. lia.
Qed.

Lemma nextDeadline_timer c t : nextDeadlineLocked (set_timer c t) = nextDeadlineLocked c.
Proof. done. Qed.

(** *** The invariant *)

(** Recorded and outstanding activities are real; an open connection whose policy has a deadline will
    check it: the timer is armed for no later than the bound, or a callback is on its way, or a call of
    [Close] is; and whoever decided to close by policy had seen a bound reached. *)
Definition justified (w : watched) (ck : expired_check) : Prop :=
  ck_now ck ≤ w_now w ∧ started (ck_conn ck) = started (w_conn w) ∧ bound_reached (ck_now ck) (ck_conn ck).

Definition bound_watched (w : watched) (bound : Z) : Prop :=
  (∃ t, timer (w_conn w) = Some t ∧ t ≤ bound) ∨ (0 < w_firing w)%nat ∨ w_closing w ≠ [].

Record watch_inv (w : watched) : Prop := mkWatchInv {
  wi_latest : started (w_conn w) ≤ w_latest w ≤ w_now w;
  wi_last : 0 ≤ lastActivityNS (w_conn w) ≤ w_latest w - started (w_conn w);
  wi_stores : ∀ ns, ns ∈ w_stores w → 0 ≤ ns ≤ w_latest w - started (w_conn w);
  wi_max : closed (w_conn w) = false → 0 < esp_MaxDuration (policy (w_conn w)) →
           bound_watched w (started (w_conn w) + esp_MaxDuration (policy (w_conn w)));
  wi_idle : closed (w_conn w) = false → 0 < esp_IdleTimeout (policy (w_conn w)) →
            bound_watched w (w_latest w + esp_IdleTimeout (policy (w_conn w)));
  wi_closing : ∀ ck, ck ∈ w_closing w → justified w ck;
  wi_closedBy : ∀ ck, w_closedBy w = Some (ByPolicy ck) → justified w ck;
  wi_closed : closed (w_conn w) = true ↔ is_Some (w_closedBy w);
}.

Lemma bound_watched_le w b b' : b ≤ b' → bound_watched w b → bound_watched w b'.
Proof. intros Hle [(t & Ht & ?)|?]; [left; exists t; split; [done|lia]|by right]. Qed.

(** A check of the policy in force on an open connection keeps its bounds watched. *)
Lemma schedule_watched w firing c :
  0 ≤ lastActivityNS c →
  let w' := w_checked w firing (scheduleLocked c (w_now w)) in
  (0 < esp_MaxDuration (policy c) → bound_watched w' (started c + esp_MaxDuration (policy c))) ∧
  (0 < esp_IdleTimeout (policy c) → bound_watched w' (started c + lastActivityNS c + esp_IdleTimeout (policy c))).
Proof.
  intros Hla. destruct (nextDeadline_upper c Hla) as [Hmax Hidle].
  assert (∀ d bound, nextDeadlineLocked c = Some d → d ≤ bound →
            bound_watched (w_checked w firing (scheduleLocked c (w_now w))) bound) as Hg.
  { intros d bound Hd Hle. unfold scheduleLocked. rewrite Hd. destruct (delay_pos d (w_now w)) as [Hp Hq].
    case_bool_decide as Hb; simpl.
    - right. right. simpl. by destruct (w_closing w).
    - left. exists (w_now w + duration_between d (w_now w)). split; [done|]. lia. }
  split; intros Hpos; [destruct (Hmax Hpos) as (d & ? & ?)|destruct (Hidle Hpos) as (d & ? & ?)]; by eapply Hg.
Qed.

Lemma schedule_frame c now :
  started (scheduleLocked c now).2 = started c ∧ lastActivityNS (scheduleLocked c now).2 = lastActivityNS c ∧
  policy (scheduleLocked c now).2 = policy c ∧ closed (scheduleLocked c now).2 = closed c ∧
  nextDeadlineLocked (scheduleLocked c now).2 = nextDeadlineLocked c.
Proof. unfold scheduleLocked. repeat case_match; done. Qed.

Lemma schedule_expired c now :
  0 ≤ lastActivityNS c → (scheduleLocked c now).1 = true → bound_reached now (scheduleLocked c now).2.
Proof.
  intros Hla. destruct (schedule_frame c now) as (_ & El & _ & _ & En).
  unfold scheduleLocked in *. destruct (nextDeadlineLocked c) as [d|] eqn:Hd; [|done].
  case_bool_decide as Hb; [|done]. intros _. simpl in *.
  apply (nextDeadline_reached c d); [done..|]. destruct (delay_pos d now) as [Hp _]. lia.
Qed.

Lemma checked_inv w firing c :
  watch_inv w → closed (w_conn w) = false → started c = started (w_conn w) →
  lastActivityNS c = lastActivityNS (w_conn w) → closed c = false →
  watch_inv (w_checked w firing (scheduleLocked c (w_now w))).
Proof.
  intros [Hlat Hlast Hst _ _ Hcl Hby Hc] Hopen Es El Eo.
  destruct (schedule_frame c (w_now w)) as (F1 & F2 & F3 & F4 & _).
  destruct (schedule_watched w firing c ltac:(lia)) as [Hmax Hidle].
  split; simpl; rewrite ?F1, ?F2, ?F3, ?F4, ?Es, ?El.
  - done.
  - done.
  - done.
  - intros _ Hpos. rewrite <-Es. by apply Hmax.
  - intros _ Hpos. eapply bound_watched_le; [|by apply Hidle]. lia.
  - intros ck Hck. unfold justified. simpl. rewrite F1, Es.
    destruct ((scheduleLocked c (w_now w)).1) eqn:Hexp; [|by apply Hcl].
    apply elem_of_app in Hck as [Hck| ->%list_elem_of_singleton]; [by apply Hcl|]. simpl.
    split_and!; [lia|congruence|]. apply schedule_expired; [lia|done].
  - intros ck Hck. unfold justified. simpl. rewrite F1, Es. by apply Hby.
  - rewrite Eo, <-Hc, Hopen. done.
Qed.

Lemma close_inv w by_ closing :
  watch_inv w → (∀ ck, ck ∈ closing → ck ∈ w_closing w) →
  (closed (w_conn w) = false → ∀ ck, by_ = ByPolicy ck → ck ∈ w_closing w) →
  watch_inv (w_close w by_ closing).
Proof.
  intros [Hlat Hlast Hst Hmax Hidle Hcl Hby Hc] Hsub Hwho.
  assert (started (conn_Close (w_conn w)) = started (w_conn w)) as Es by (unfold conn_Close; by case_match).
  assert (closed (conn_Close (w_conn w)) = true) as Ec by (unfold conn_Close; by case_match).
  assert (lastActivityNS (conn_Close (w_conn w)) = lastActivityNS (w_conn w)) as El
    by (unfold conn_Close; by case_match).
  split; simpl; rewrite ?Es, ?El, ?Ec; try done.
  - intros ck Hck. unfold justified. simpl. rewrite Es. by apply Hcl, Hsub.
  - intros ck. unfold justified. simpl. rewrite Es. destruct (closed (w_conn w)); [apply Hby|].
    intros [= ->]. by apply Hcl, Hwho.
  - destruct (closed (w_conn w)) eqn:Ho; [by rewrite <-Hc|]. split; [by eauto|done].
Qed.

Lemma closed_noop_inv w firing :
  watch_inv w → closed (w_conn w) = true → watch_inv (w_with w (w_conn w) firing (w_closing w)).
Proof. intros [] Ho. split; simpl; try done; intros; congruence. Qed.

Lemma watch_own_inv w w' : watch_inv w → watch_own w w' → watch_inv w'.
Proof.
  intros Hinv. destruct 1 as [w Hdue|w n Hn|w i ck Hck].
  - destruct Hinv. split; simpl; try done; intros; right; left; simpl; lia.
  - unfold onTimer_locked. destruct (closed (w_conn w)) eqn:Ho; [by apply closed_noop_inv|].
    by apply checked_inv.
  - apply close_inv; [done| |].
    + intros ck' (j & Hj)%list_elem_of_lookup_1. apply list_elem_of_lookup. rewrite list_lookup_delete in Hj. eauto.
    + intros _ ck' [= ->]. by eapply list_elem_of_lookup_2.
Qed.

Lemma watch_env_inv w w' : watch_inv w → watch_env w w' → watch_inv w'.
Proof.
  intros Hinv. destruct 1 as [w now Hle|w|w i ns Hns|w p|w].
  - destruct Hinv as [Hlat Hlast Hst Hmax Hidle Hcl Hby Hc]. split; simpl; try done; [lia|..].
    + intros ck Hck. destruct (Hcl ck Hck) as (? & ? & ?). unfold justified. simpl. split_and!; [lia|done..].
    + intros ck Hck. destruct (Hby ck Hck) as (? & ? & ?). unfold justified. simpl. split_and!; [lia|done..].
  - destruct Hinv as [Hlat Hlast Hst Hmax Hidle Hcl Hby Hc]. split; simpl; try done; [lia|lia|..].
    + intros ns [Hns| ->%list_elem_of_singleton]%elem_of_app; [specialize (Hst ns Hns); lia|].
      destruct (duration_between_le (w_now w) (w_conn w)); lia.
    + intros Ho Hpos. eapply bound_watched_le; [|exact (Hidle Ho Hpos)]. lia.
  - destruct Hinv as [Hlat Hlast Hst Hmax Hidle Hcl Hby Hc]. split; simpl; try done.
    + apply Hst. by eapply list_elem_of_lookup_2.
    + intros ns' (j & Hj)%list_elem_of_lookup_1. apply Hst, list_elem_of_lookup.
      rewrite list_lookup_delete in Hj. eauto.
  - unfold ApplyPolicy_locked. destruct (closed (w_conn w)) eqn:Ho; [by apply closed_noop_inv|].
    apply checked_inv; done.
  - apply close_inv; [done..|]. by intros _ ck [=].
Qed.

Lemma watch_start_inv now : watch_inv (watch_start now).
Proof.
  split; simpl; try lia; try done; [by intros ns ?%elem_of_nil|by intros ck ?%elem_of_nil].
Qed.

Lemma watch_own_measure w w' : watch_own w w' → (watch_measure w' < watch_measure w)%nat.
Proof.
  destruct 1 as [w Hdue|w n Hn|w i ck Hck]; unfold watch_measure; simpl.
  - rewrite Hdue. unfold timer_due. simpl. lia.
  - rewrite Hn. unfold onTimer_locked. destruct (closed (w_conn w)); simpl; [lia|].
    unfold scheduleLocked. destruct (nextDeadlineLocked (w_conn w)) as [d|]; simpl; [|lia].
    case_bool_decide; simpl; [rewrite length_app; simpl; lia|].
    unfold timer_due at 1. simpl. rewrite bool_decide_eq_false_2 by lia. lia.
  - pose proof (lookup_lt_Some _ _ _ Hck). rewrite length_delete by (by eexists).
    unfold conn_Close, timer_due. destruct (closed (w_conn w)); simpl; [lia|].
    destruct (timer (w_conn w)); [case_bool_decide|]; lia.
Qed.

(** C26: the connection wrapper enforces its policy.  The wrapper and its goroutines run at the
    granularity of the mutex, with traffic, policy changes and closes by the user in between, with
    stores of activity that may be reordered, and with timers and callbacks that may be late by any
    amount.  In every reachable state: what the wrapper still has to do at the present instant is
    bounded (a due timer, a running callback, a pending [Close]); once nothing is left to do, an open
    connection is within the total duration since it started and within the idle timeout since its last
    activity, so it is never kept past a bound for another reason than a late timer; and when the
    policy closed the connection, the check that decided it had seen a bound reached, the total
    duration, the idle timeout after the recorded activity, or an idle timeout so large that its sum
    with the activity wraps ([huge_idle_timeout_closes]). *)
Theorem session_deadlines_enforced now0 w :
  rtc watch_step (watch_start now0) w →
  (∀ n w', nsteps watch_own n w w' → (n ≤ 3 + 2 * w_firing w + length (w_closing w))%nat) ∧
  (nf watch_own w → closed (w_conn w) = false → within_bounds w) ∧
  (closed (w_conn w) = true ↔ is_Some (w_closedBy w)) ∧
  (∀ ck, w_closedBy w = Some (ByPolicy ck) →
     ck_now ck ≤ w_now w ∧ started (ck_conn ck) = started (w_conn w) ∧ bound_reached (ck_now ck) (ck_conn ck)).
Proof.
  intros Hrtc. assert (watch_inv w) as Hinv.
  { eapply (rtc_invariant watch_step watch_inv); [|apply watch_start_inv|exact Hrtc].
    intros x y Hx [?|?]; [by eapply watch_own_inv|by eapply watch_env_inv]. }
  split_and!; [| |apply Hinv..].
  - intros n w' Hn. pose proof (nsteps_bounded watch_own (fun _ => True) watch_measure
      (fun _ _ _ _ => I) (fun x y _ Hs => watch_own_measure x y Hs) n w w' I Hn) as Hb.
    unfold watch_measure in Hb at 2. destruct (timer_due _ _); lia.
  - intros Hnf Ho. assert (∀ bound, bound_watched w bound → w_now w < bound) as Hg.
    { intros bound [(t & Ht & Hle)|[Hf|Hc]].
      - destruct (decide (t ≤ w_now w)); [|lia]. exfalso. apply Hnf. eexists. apply wo_fire.
        unfold timer_due. rewrite Ht. by apply bool_decide_eq_true_2.
      - exfalso. apply Hnf. destruct (w_firing w) as [|n] eqn:Hn; [lia|]. eexists. by apply (wo_callback w n).
      - exfalso. apply Hnf. destruct (w_closing w) as [|ck l] eqn:Hl; [done|]. eexists.
        apply (wo_close w 0 ck). by rewrite Hl. }
    split; intros Hpos; apply Hg; [by apply (wi_max w)|by apply (wi_idle w)].
Qed.

Definition one_minute : effectiveSessionPolicy := mkEffective "/bin/sh" [] [] true 60 0.
(** A connection whose timer fires late, ten units after the idle timeout. *)
Definition idle_run (stage : nat) : watched :=
  let w0 := watch_start 0 in
  let w1 := w_checked w0 0 (ApplyPolicy_locked (w_conn w0) one_minute 0) in
  let w2 := mkWatched 70 (w_conn w1) 0 (w_closing w1) [] 0 None in
  let w3 := w_with w2 (set_timer (w_conn w2) None) 1 (w_closing w2) in
  let w4 := w_checked w3 0 (onTimer_locked (w_conn w3) 70) in
  match stage with
  | 0%nat => w0 | 1%nat => w1 | 2%nat => w2 | 3%nat => w3 | 4%nat => w4
  | _ => w_close w4 (ByPolicy (mkCheck 70 (w_conn w4))) []
  end.
Lemma session_deadlines_enforced_witness :
  timer (w_conn (idle_run 1)) = Some 60 ∧ closed (w_conn (idle_run 5)) = true ∧
  bound_reached 70 (w_conn (idle_run 4)).
Proof.
  split_and!; [by vm_compute..|].
  destruct (session_deadlines_enforced 0 (idle_run 5)) as (_ & _ & _ & Hby).
  - eapply rtc_l. { right. apply (we_apply (idle_run 0) one_minute). }
    eapply rtc_l. { right. apply (we_tick (idle_run 1) 70). vm_compute. done. }
    eapply rtc_l. { left. apply (wo_fire (idle_run 2)). by vm_compute. }
    eapply rtc_l. { left. by apply (wo_callback (idle_run 3) 0). }
    apply rtc_once. left. by apply (wo_close (idle_run 4) 0 (mkCheck 70 (w_conn (idle_run 4)))).
  - exact (proj2 (proj2 (Hby _ eq_refl))).
Defined.

(** A huge idle timeout closes the connection.  The idle deadline adds the recorded activity to the
    timeout as [Duration]s: once there was activity, a timeout near the largest [Duration] (a usual way
    to ask for none) wraps to a deadline before the start, and the next check, at the latest the one
    that applies the resolved policy after authentication, closes the connection. *)
Theorem huge_idle_timeout_closes c p now :
  0 ≤ lastActivityNS c ≤ int64_max → esp_IdleTimeout p ≤ int64_max →
  int64_max < lastActivityNS c + esp_IdleTimeout p → started c ≤ now →
  closed (ApplyPolicy c p now) = true.
Proof.
  intros Hla Hi Hover Hnow. unfold ApplyPolicy, ApplyPolicy_locked.
  destruct (closed c) eqn:Hc; [done|]. set (c' := mkConn _ _ _ _ _).
  assert (∃ d, nextDeadlineLocked c' = Some d ∧ d ≤ now) as (d & Hd & Hle).
  { assert (wrap64 (lastActivityNS c + esp_IdleTimeout p) < 0).
    { unfold wrap64, int64_max in *.
      rewrite <-(Z.mod_unique _ _ 1 (lastActivityNS c + esp_IdleTimeout p + 2 ^ 63 - 2 ^ 64)); lia. }
    unfold int64_max in *. unfold nextDeadlineLocked, c'. simpl.
    repeat case_bool_decide; try lia; eexists; (split; [done|lia]). }
  unfold scheduleLocked. rewrite Hd. destruct (delay_pos d now) as [Hp _].
  rewrite bool_decide_eq_true_2 by lia. unfold close_if_expired, conn_Close. done.
Qed.

Lemma huge_idle_timeout_closes_witness :
  closed (newSessionPolicyConn (mkEffective "/bin/sh" [] [] true int64_max 0) 0) = false ∧
  closed (ApplyPolicy (touch (newSessionPolicyConn (mkEffective "/bin/sh" [] [] true int64_max 0) 0) 1)
            (mkEffective "/bin/sh" [] [] true int64_max 0) 2) = true.
Proof.
  split; [by vm_compute|]. apply huge_idle_timeout_closes; vm_compute; done.
Defined.
