(* ===== verification/StatusController.v ===== *)
(** Model of [src/pkg/accesspolicy/status_controller.go]: the validation of Access objects and the
    projection of validity and readiness into their status.

    [apimeta.SetStatusCondition] belongs to apimachinery and is a class whose laws are its
    documentation; [equality.Semantic.DeepEqual] on the slices compared here is list equality. *)

From S2P Require Import Prelude GoStrings GoStrconv Wildcard Kube Target Strategy StrategyProps Authn AccessStore AccessStoreProps AccessResolver.

(** A message: format and arguments. *)
Definition message : Type := string * list string.

(** A validation step: a value, or the reason and message of the rejection. *)
Inductive check (A : Type) :=
| Pass (a : A)
| Reject (reason : string) (msg : message).
Arguments Pass {A} a.
Arguments Reject {A} reason msg.
#[export] Instance check_bind : MBind check := fun A B f r =>
  match r with Pass a => f a | Reject reason msg => Reject reason msg end.

Lemma check_bind_Pass {A B} (r : check A) (f : A → check B) b :
  (r ≫= f) = Pass b ↔ ∃ a, r = Pass a ∧ f a = Pass b.
Proof. destruct r; simpl; naive_solver. Qed.

Fixpoint check_fold {A B} (f : B → A → check B) (acc : B) (l : list A) : check B :=
  match l with
  | [] => Pass acc
  | x :: l => acc ← f acc x; check_fold f acc l
  end.

Definition nat_str (n : nat) : string := FormatUint (Z.of_nat n) 10.

(** ** Forward expressions *)

Definition validForwardExpression (expression : string) : bool :=
  if bool_decide (expression = "*") || bool_decide (expression = "*:*") then true
  else match SplitHostPort expression with
       | None => false
       | Some (host, port) => bool_decide (host ≠ "") && bool_decide (port ≠ "")
       end.

Definition validateCapabilityPolicy (policy : CapabilityPolicy) : option message :=
  match find_first (fun e => negb (validForwardExpression e)) (default [] (cp_LocalForward policy)) with
  | Some expression => Some ("invalid local forward destination %q", [expression])
  | None =>
      match find_first (fun e => negb (validForwardExpression e)) (default [] (cp_RemoteForward policy)) with
      | Some expression => Some ("invalid remote forward bind %q", [expression])
      | None => None
      end
  end.

(** ** Credentials *)

Record credentialMaterial := mkMaterial {
  passwords : gset string;
  publicKeys : gset string;
}.

Section Validation.
Context `{SSHKeys} (secretIndexer : option (Indexer Secret)).

Definition secretValue (namespace username : string) (ref : LocalSecretKeyRef) : check string :=
  if bool_decide (ref_Name ref = "") || bool_decide (ref_Key ref = "")
  then Reject "InvalidSecretRef" ("Credential %q has an incomplete secret reference.", [username])
  else match secretIndexer with
       | None => Reject "SecretCacheUnavailable" ("Secret informer cache is not available.", [])
       | Some indexer =>
           match GetByKey indexer (accessKey namespace (ref_Name ref)) with
           | Err _ => Reject "SecretReadFailed" ("%s", [])
           | Ok None => Reject "SecretNotFound"
                          ("Credential %q references missing secret %s/%s.",
                           [username; namespace; ref_Name ref])
           | Ok (Some (COther t)) =>
               Reject "SecretReadFailed" ("Secret cache object %s/%s has unexpected type %T.",
                                          [namespace; ref_Name ref; t])
           | Ok (Some (CObj secret)) =>
               match secret_Data secret !! ref_Key ref with
               | None => Reject "SecretKeyNotFound"
                           ("Credential %q references missing secret key %s/%s:%s.",
                            [username; namespace; ref_Name ref; ref_Key ref])
               | Some value => Pass value
               end
           end
       end.

Definition addPassword (username : string) (ps : gset string) (password : string) : check (gset string) :=
  if bool_decide (password = "")
  then Reject "InvalidCredential" ("Credential %q has an empty password token.", [username])
  else Pass (ps ∪ {[password]}).

Definition addKey (reason : string) (msg : message) (ks : gset string) (line : string)
    : check (gset string) :=
  let fingerprint := keyFingerprint line in
  if bool_decide (fingerprint = "") then Reject reason msg else Pass (ks ∪ {[fingerprint]}).

Definition addPasswordRef (namespace username : string) (ps : gset string) (ref : LocalSecretKeyRef)
    : check (gset string) :=
  value ← secretValue namespace username ref;
  let tokens := splitSecretLines value in
  if bool_decide (length tokens = 0)
  then Reject "InvalidSecretRef" ("Credential %q password secret %s/%s key %q contains no tokens.",
                                  [username; namespace; ref_Name ref; ref_Key ref])
  else Pass (ps ∪ list_to_set tokens).

Definition addKeyRef (namespace username : string) (ks : gset string) (ref : LocalSecretKeyRef)
    : check (gset string) :=
  value ← secretValue namespace username ref;
  let lines := splitSecretLines value in
  if bool_decide (length lines = 0)
  then Reject "InvalidSecretRef" ("Credential %q public key secret %s/%s key %q contains no keys.",
                                  [username; namespace; ref_Name ref; ref_Key ref])
  else check_fold (addKey "InvalidSecretRef"
         ("Credential %q public key secret %s/%s key %q contains an invalid public key.",
          [username; namespace; ref_Name ref; ref_Key ref])) ks lines.

Definition validateCredential (namespace : string) (index : nat) (credential : AccessCredential)
    : check credentialMaterial :=
  let username := cred_Username credential in
  ps ← check_fold (addPassword username) ∅ (cred_Passwords credential);
  ks ← check_fold (addKey "InvalidCredential" ("Credential %q has an invalid public key.", [username]))
         ∅ (cred_PublicKeys credential);
  ps ← check_fold (addPasswordRef namespace username) ps (cred_PasswordsFrom credential);
  ks ← check_fold (addKeyRef namespace username) ks (cred_PublicKeysFrom credential);
  let hasMaterial :=
    bool_decide (0 < length (cred_Passwords credential)) ||
    bool_decide (0 < length (cred_PublicKeys credential)) ||
    bool_decide (0 < length (cred_PasswordsFrom credential)) ||
    bool_decide (0 < length (cred_PublicKeysFrom credential)) in
  if negb hasMaterial
  then Reject "InvalidCredential" ("Credential %d/%q has no password or public key material.",
                                   [nat_str index; username])
  else Pass (mkMaterial ps ks).

(** [duplicateMaterialOwner]: the first owner in conflict, or the updated owners.  Go ranges over
    the set in an unspecified order, here that of [elements]; whether there is a conflict does not
    depend on it. *)
Fixpoint duplicate_go (owners : gmap string string) (values : list string) (username : string)
    : string + gmap string string :=
  match values with
  | [] => inr owners
  | value :: rest =>
      match owners !! value with
      | Some owner => if bool_decide (owner ≠ username) then inl owner
                      else duplicate_go (<[value := username]> owners) rest username
      | None => duplicate_go (<[value := username]> owners) rest username
      end
  end.
Definition duplicateMaterialOwner (owners : gmap string string) (values : gset string)
    (username : string) : string + gmap string string :=
  duplicate_go owners (elements values) username.

(** The state of the loop of [validateAccess]. *)
Record validation := mkValidation {
  usernames : gset string;
  passwordOwners : gmap string string;
  publicKeyOwners : gmap string string;
}.

Definition validate_one (namespace : string) (v : validation) (i : nat) (credential : AccessCredential)
    : check validation :=
  let username := cred_Username credential in
  if bool_decide (TrimSpace username = "")
  then Reject "InvalidCredential" ("Credential at index %d requires username.", [nat_str i])
  else if bool_decide (username ∈ usernames v)
  then Reject "DuplicateCredentialIdentity"
         ("Credential username %q must be unique within the Access.", [username])
  else
    material ← validateCredential namespace i credential;
    match duplicateMaterialOwner (passwordOwners v) (passwords material) username with
    | inl first => Reject "DuplicateCredentialMaterial"
        ("Password material is assigned to credential identities %q and %q within the Access.",
         [first; username])
    | inr pOwners =>
        match duplicateMaterialOwner (publicKeyOwners v) (publicKeys material) username with
        | inl first => Reject "DuplicateCredentialMaterial"
            ("Public key material is assigned to credential identities %q and %q within the Access.",
             [first; username])
        | inr kOwners =>
            match validateCapabilityPolicy (cred_Capabilities credential) with
            | Some msg => Reject "InvalidCapabilityPolicy" ("Credential %q: " +:+ msg.1, username :: msg.2)
            | None => Pass (mkValidation (usernames v ∪ {[username]}) pOwners kOwners)
            end
        end
    end.

Fixpoint validate_credentials (namespace : string) (v : validation) (i : nat)
    (credentials : list AccessCredential) : check validation :=
  match credentials with
  | [] => Pass v
  | credential :: rest =>
      v ← validate_one namespace v i credential;
      validate_credentials namespace v (S i) rest
  end.

(** The container a credential names although the Access does not expose it. *)
Definition hidden_container (access : Access) : option (string * string) :=
  let hidden := fun container => bool_decide (container ≠ "*") &&
                  negb (containerAllowed (spec_Containers (acc_Spec access)) container) in
  if bool_decide (0 < length (spec_Containers (acc_Spec access)))
  then head (omap (fun cr => (fun c => (cred_Username cr, c)) <$> find_first hidden (cred_Containers cr))
               (spec_Credentials (acc_Spec access)))
  else None.

Definition ConditionTrue := "True".
Definition ConditionFalse := "False".
Definition ConditionUnknown := "Unknown".

(** [validateAccess]: the status, reason and message of the Valid condition. *)
Definition validateAccess (access : Access) : string * string * message :=
  if bool_decide (length (spec_Credentials (acc_Spec access)) = 0)
  then (ConditionFalse, "NoCredentials", ("Access requires at least one credential entry.", []))
  else
    match validate_credentials (acc_Namespace access) (mkValidation ∅ ∅ ∅) 0
            (spec_Credentials (acc_Spec access)) with
    | Reject reason msg => (ConditionFalse, reason, msg)
    | Pass _ =>
        if bool_decide (spec_Type (acc_Spec access) = AccessTypeExternal)
        then (ConditionTrue, "Valid", ("Access spec is valid.", []))
        else match hidden_container access with
             | Some (username, container) =>
                 (ConditionFalse, "InvalidContainerPolicy",
                  ("Credential %q container %q is not exposed by the Access.", [username; container]))
             | None => (ConditionTrue, "Valid", ("Access spec and referenced credentials are valid.", []))
             end
    end.
End Validation.

(** ** Status *)

(** [FindStatusCondition]: the first condition of a type. *)
Definition find_condition (conditions : list Condition) (type : string) : option Condition :=
  find_first (fun c => bool_decide (cond_Type c = type)) conditions.

(** Equal but for the transition time. *)
Definition same_condition (a b : Condition) : Prop :=
  cond_Type a = cond_Type b ∧ cond_Status a = cond_Status b ∧
  cond_ObservedGeneration a = cond_ObservedGeneration b ∧
  cond_Reason a = cond_Reason b ∧ cond_Message a = cond_Message b.

(** [apimeta.SetStatusCondition], at an instant: the new condition is in the list, the others are
    untouched, and setting what is already there changes nothing. *)
Class StatusConditions := {
  SetStatusCondition : Z → list Condition → Condition → list Condition;
  Set_found now l n : ∃ c, find_condition (SetStatusCondition now l n) (cond_Type n) = Some c ∧
                           same_condition c n;
  Set_other now l n t : t ≠ cond_Type n →
    find_condition (SetStatusCondition now l n) t = find_condition l t;
  Set_same now l n c : find_condition l (cond_Type n) = Some c → same_condition c n →
    SetStatusCondition now l n = l;
}.

Definition accessStatusEndpoints (access : Access) (advertised : list AccessStatusEndpoint)
    : list AccessStatusEndpoint :=
  let username := acc_Namespace access +:+ "." +:+ acc_Name access in
  (fun e => mkStatusEndpoint (se_Address e) username) <$> advertised.

(** [statusContainer]: the loop over the containers and credentials. *)
Definition statusContainer (policy : ContainerPolicy) (pod : Pod) (access : Access) : string :=
  match ResolveContainer pod "" with
  | Err _ => ""
  | Ok (_, defaultContainer) =>
      let usable container :=
        let explicit := bool_decide (container ≠ defaultContainer) in
        let accessAllowed :=
          if bool_decide (0 < length (spec_Containers (acc_Spec access)))
          then containerAllowed (spec_Containers (acc_Spec access)) container
          else ContainerAllowed (DefaultMode policy) explicit container defaultContainer in
        accessAllowed && ContainerAllowed (LimitMode policy) explicit container defaultContainer &&
        existsb (fun cr => containerAllowed (cred_Containers cr) container)
          (spec_Credentials (acc_Spec access)) in
      default "" (find_first usable (pod_Containers pod))
  end.

Record AccessStatusController := mkController {
  sc_Get : AccessGetter;
  sc_List : result (list Access);
  sc_pods : option (string → gmap string string → result (list Pod));
  sc_secretIndexer : option (Indexer Secret);
  sc_policy : ContainerPolicy;
  sc_endpoints : list AccessStatusEndpoint;
}.

Section Controller.
Context `{SSHKeys} `{StatusConditions} (c : AccessStatusController) (now : Z).

(** The Ready condition of a valid Access. *)
Definition readiness (access : Access) : string * string * message :=
  if bool_decide (spec_Type (acc_Spec access) = AccessTypeExternal)
  then (ConditionTrue, "EndpointsConfigured", ("External endpoints are configured.", []))
  else match sc_pods c with
       | None => (ConditionUnknown, "PodCacheUnavailable", ("Pod informer cache is not available.", []))
       | Some list =>
           match list (acc_Namespace access) (spec_Selector (acc_Spec access)) with
           | Err _ => (ConditionUnknown, "ListFailed", ("%s", []))
           | Ok pods =>
               let selectablePods := filter (fun p => statusContainer (sc_policy c) p access ≠ "") pods in
               if bool_decide (length (candidatePods selectablePods) = 0)
               then (ConditionFalse, "NoTargets", ("Access selector matches no active Pods.", []))
               else (ConditionTrue, "TargetAvailable",
                     ("Access has at least one active Pod target.", []))
           end
       end.

Definition condition (type : string) (access : Access) (v : string * string * message) : Condition :=
  mkCondition type v.1.1 (acc_Generation access) 0 v.1.2 v.2.

Definition statusFor (access : Access) : AccessStatus :=
  let valid := validateAccess (sc_secretIndexer c) access in
  let conditions := SetStatusCondition now (st_Conditions (acc_Status access))
                      (condition AccessConditionValid access valid) in
  let ready := if bool_decide (valid.1.1 ≠ ConditionTrue)
               then (ConditionFalse, "Invalid", ("Access is not valid.", []))
               else readiness access in
  mkStatus (acc_Generation access) (accessStatusEndpoints access (sc_endpoints c))
    (SetStatusCondition now conditions (condition AccessConditionReady access ready)).

Definition set_status (access : Access) (status : AccessStatus) : Access :=
  mkAccess (acc_Namespace access) (acc_Name access) (acc_UID access) (acc_Generation access)
    (acc_CreationTimestamp access) (acc_Spec access) status.

(** [sync]: the status update it sends, if any, and its error.  [updateStatus] is nil as [None]. *)
Definition sync (SplitMetaNamespaceKey : string → option (string * string))
    (updateStatus : option (Access → option error)) (key : string) : option Access * option error :=
  match updateStatus with
  | None => (None, None)
  | Some update =>
      match SplitMetaNamespaceKey key with
      | None => (None, None)
      | Some (namespace, name) =>
          match sc_Get c namespace name with
          | Err _ => (None, None)
          | Ok access =>
              let status := statusFor access in
              if bool_decide (st_ObservedGeneration (acc_Status access) = st_ObservedGeneration status) &&
                 bool_decide (st_Endpoints (acc_Status access) = st_Endpoints status) &&
                 bool_decide (st_Conditions (acc_Status access) = st_Conditions status)
              then (None, None)
              else
                let updated := set_status access status in
                match update updated with
                | Some e => if apierrors_IsNotFound e then (Some updated, None) else (Some updated, Some e)
                | None => (Some updated, None)
                end
          end
      end
  end.
End Controller.

(** [processNext] once a key has been taken from the queue: the calls it makes on the work queue. *)
Inductive queueCall := AddRateLimited (key : string) | Forget (key : string) | Done (key : string).
Definition processNext (syncError : option error) (NumRequeues : Z) (key : string) : list queueCall :=
  match syncError with
  | Some _ => if bool_decide (NumRequeues < 5)%Z then [AddRateLimited key; Done key]
              else [Forget key; Done key]
  | None => [Forget key; Done key]
  end.

(** [enqueueAll]: the keys added to the queue. *)
Definition enqueueAll (c : AccessStatusController) : list string :=
  match sc_List c with
  | Err _ => []
  | Ok accesses => (fun a => accessKey (acc_Namespace a) (acc_Name a)) <$> accesses
  end.
