(* ===== verification/StatusProps.v ===== *)
(** Properties of the status controller: what validation guarantees to authentication and
    resolution, and that the projection converges. *)

From S2P Require Import Prelude GoStrings GoStrconv Wildcard Kube Target Strategy StrategyProps Authn AccessStore AccessStoreProps AccessResolver StatusController.

(** ** Validation reads the same material as authentication *)

Lemma check_fold_foldM {A B} (f : B → A → check B) (g : B → A → result B) acc l r :
  (∀ acc x acc', f acc x = Pass acc' → g acc x = Ok acc') →
  check_fold f acc l = Pass r → foldM g acc l = Ok r.
Proof.
  intros Hfg. revert acc. induction l as [|x l IH]; intros acc; simpl; [by intros [= ->]|].
  intros Hr. apply check_bind_Pass in Hr as (acc' & Hx & Hr).
  apply result_bind_Ok. exists acc'. auto.
Qed.

Section Material.
Context `{SSHKeys} (pc : PolicyCache).
Let ix := secretIndexer pc.

Lemma secretValue_SecretValue ns user ref v :
  secretValue ix ns user ref = Pass v → SecretValue pc ns ref = Ok v.
Proof.
  unfold secretValue, SecretValue, ix. case_match; [done|].
  destruct (secretIndexer pc) as [i|]; [|done].
  destruct (GetByKey _ _) as [[[s|t]|]|]; [|done..]. simpl. case_match; [|done]. by intros [= ->].
Qed.

Lemma addPassword_fold user ps l r :
  check_fold (addPassword user) ps l = Pass r →
  r = ps ∪ list_to_set (filter (fun v => v ≠ "") l) ∧ filter (fun v => v ≠ "") l = l.
Proof.
  revert ps. induction l as [|x l IH]; intros ps; cbn [check_fold].
  { intros [= ->]. split; [set_solver|done]. }
  intros Hr. apply check_bind_Pass in Hr as (ps' & Hx & Hr). unfold addPassword in Hx.
  case_bool_decide; [done|]. injection Hx as <-. apply IH in Hr as [-> Hf].
  rewrite filter_cons_True by done. split; [set_solver|by rewrite Hf].
Qed.

Lemma addKey_fold reason msg err ks l r :
  check_fold (addKey reason msg) ks l = Pass r → foldM (add_fingerprint err) ks l = Ok r.
Proof.
  apply check_fold_foldM. intros acc x acc'. unfold addKey, add_fingerprint.
  case_bool_decide; [done|]. by intros [= <-].
Qed.

Lemma validateCredential_material ns i cr m :
  validateCredential ix ns i cr = Pass m →
  credentialPasswords pc ns cr = Ok (passwords m) ∧ credentialPublicKeys pc ns cr = Ok (publicKeys m).
Proof.
  unfold validateCredential. intros Hv.
  apply check_bind_Pass in Hv as (ps & Hps & Hv). apply check_bind_Pass in Hv as (ks & Hks & Hv).
  apply check_bind_Pass in Hv as (ps' & Hps' & Hv). apply check_bind_Pass in Hv as (ks' & Hks' & Hv).
  case_match; [done|]. injection Hv as <-. simpl.
  apply addPassword_fold in Hps as [-> _]. rewrite (left_id_L ∅ (∪)) in Hps'. split.
  - unfold credentialPasswords. revert Hps'. apply check_fold_foldM.
    intros acc ref acc'. unfold addPasswordRef. intros Hr.
    apply check_bind_Pass in Hr as (v & Hs & Hr). rewrite (secretValue_SecretValue _ _ _ _ Hs). simpl.
    case_match; [done|]. by injection Hr as <-.
  - unfold credentialPublicKeys. erewrite addKey_fold by exact Hks. simpl.
    revert Hks'. apply check_fold_foldM. intros acc ref acc'. unfold addKeyRef. intros Hr.
    apply check_bind_Pass in Hr as (v & Hs & Hr). rewrite (secretValue_SecretValue _ _ _ _ Hs). simpl.
    case_match; [done|]. by eapply addKey_fold.
Qed.

(** ** Uniqueness of owners *)

Lemma duplicate_go_inr owners values u owners' :
  duplicate_go owners values u = inr owners' →
  (∀ v o, v ∈ values → owners !! v = Some o → o = u) ∧
  (∀ v, v ∈ values → owners' !! v = Some u) ∧
  (∀ v, v ∉ values → owners' !! v = owners !! v).
Proof.
  revert owners. induction values as [|x values IH]; intros owners; cbn [duplicate_go].
  { intros [= ->]. split_and!; [by intros v o ?%elem_of_nil|by intros v ?%elem_of_nil|done]. }
  intros Hd.
  assert ((∀ o, owners !! x = Some o → o = u) ∧ duplicate_go (<[x:=u]> owners) values u = inr owners')
    as [Hx Hrec].
  { destruct (owners !! x) as [o|]; [|done]. case_bool_decide as Ho; [done|].
    split; [by intros ? [= <-]|done]. }
  apply IH in Hrec as (H1 & H2 & H3). split_and!.
  - intros v o [->|Hv]%elem_of_cons Hvo; [by apply Hx|].
    destruct (decide (v = x)) as [->|Hne]; [by apply Hx|].
    apply (H1 v o Hv). by rewrite lookup_insert_ne.
  - intros v Hv. destruct (decide (v ∈ values)) as [Hin|Hin]; [by apply H2|].
    apply elem_of_cons in Hv as [->|?]; [|done]. rewrite H3 by done. by rewrite lookup_insert_eq.
  - intros v [Hne Hin]%not_elem_of_cons. rewrite H3 by done. by rewrite lookup_insert_ne.
Qed.

Section Unique.
Context (ns : string).
Let P := credentialPasswords pc ns.
Let K := credentialPublicKeys pc ns.

(** No material belongs to two credentials. *)
Definition disjoint_material (vals : AccessCredential → result (gset string)) (l : list AccessCredential) :=
  ∀ i j cr cr' tok, l !! i = Some cr → l !! j = Some cr' →
    offers vals tok cr → offers vals tok cr' → i = j.

Definition owners_cover (vals : AccessCredential → result (gset string)) (owners : gmap string string)
    (l : list AccessCredential) :=
  ∀ cr tok, cr ∈ l → offers vals tok cr → owners !! tok = Some (cred_Username cr).

Definition names_unique (l : list AccessCredential) : Prop :=
  ∀ i j cr cr', l !! i = Some cr → l !! j = Some cr' → cred_Username cr = cred_Username cr' → i = j.

Lemma lookup_snoc_cases {A} (l : list A) x i y :
  (l ++ [x]) !! i = Some y → l !! i = Some y ∨ (i = length l ∧ y = x).
Proof.
  intros Hi. apply lookup_app_Some in Hi as [?|[Hle Hi]]; [by left|]. right.
  destruct (i - length l) eqn:Hd; simpl in Hi; [|done]. split; [lia|congruence].
Qed.

Lemma owners_step vals owners owners' l cr vs :
  owners_cover vals owners l → disjoint_material vals l → vals cr = Ok vs →
  (∀ cr', cr' ∈ l → cred_Username cr' ≠ cred_Username cr) →
  duplicateMaterialOwner owners vs (cred_Username cr) = inr owners' →
  owners_cover vals owners' (l ++ [cr]) ∧ disjoint_material vals (l ++ [cr]).
Proof.
  intros Hcov Hdis Hvs Hnames Hdup. apply duplicate_go_inr in Hdup as (H1 & H2 & H3).
  assert (∀ cr' tok, cr' ∈ l → offers vals tok cr' → tok ∉ vs) as Hfresh.
  { intros cr' tok Hin Ho Htok. apply (Hnames cr' Hin).
    apply (H1 tok); [by apply elem_of_elements|]. by apply Hcov. }
  assert (∀ tok, offers vals tok cr → tok ∈ vs) as Hown.
  { intros tok (vs' & Hvs' & ?). rewrite Hvs in Hvs'. by injection Hvs' as <-. }
  split.
  - intros cr' tok [Hin|Heq%list_elem_of_singleton]%elem_of_app Ho.
    + rewrite H3; [by apply Hcov|]. rewrite elem_of_elements. by eapply Hfresh.
    + subst cr'. apply H2. apply elem_of_elements. by apply Hown.
  - intros i j a b tok Hi Hj Ha Hb.
    apply lookup_snoc_cases in Hi as [Hi|[-> ->]], Hj as [Hj|[-> ->]].
    + by eapply Hdis.
    + exfalso. by eapply (Hfresh a); [eapply list_elem_of_lookup_2| |apply Hown].
    + exfalso. by eapply (Hfresh b); [eapply list_elem_of_lookup_2| |apply Hown].
    + done.
Qed.

Lemma validate_credentials_spec rest l v i v' :
  validate_credentials ix ns v i rest = Pass v' →
  (∀ cr, cr ∈ l → cred_Username cr ∈ usernames v) → names_unique l →
  owners_cover P (passwordOwners v) l → disjoint_material P l →
  owners_cover K (publicKeyOwners v) l → disjoint_material K l →
  (∀ cr, cr ∈ l → is_ok (P cr) = true ∧ is_ok (K cr) = true) →
  names_unique (l ++ rest) ∧ disjoint_material P (l ++ rest) ∧ disjoint_material K (l ++ rest) ∧
  (∀ cr, cr ∈ l ++ rest → is_ok (P cr) = true ∧ is_ok (K cr) = true).
Proof.
  revert l v i. induction rest as [|cr rest IH]; intros l v i; cbn [validate_credentials].
  { intros _ _ Hn _ HP _ HK Hok. by rewrite app_nil_r. }
  intros Hv Hun Hn HcP HdP HcK HdK Hok. apply check_bind_Pass in Hv as (v1 & Hone & Hv).
  unfold validate_one in Hone. case_bool_decide; [done|].
  case_bool_decide as Hfresh; [done|]. apply check_bind_Pass in Hone as (m & Hm & Hone).
  apply validateCredential_material in Hm as [HmP HmK].
  destruct (duplicateMaterialOwner (passwordOwners v) _ _) as [|pO] eqn:HpO; [done|].
  destruct (duplicateMaterialOwner (publicKeyOwners v) _ _) as [|kO] eqn:HkO; [done|].
  case_match; [done|]. injection Hone as <-.
  assert (∀ cr', cr' ∈ l → cred_Username cr' ≠ cred_Username cr) as Hnames.
  { intros cr' Hin Heq. apply Hfresh. rewrite <-Heq. auto. }
  destruct (owners_step P _ _ _ _ _ HcP HdP HmP Hnames HpO) as [HcP' HdP'].
  destruct (owners_step K _ _ _ _ _ HcK HdK HmK Hnames HkO) as [HcK' HdK'].
  rewrite cons_middle, app_assoc. eapply IH; try done.
  - intros cr' [Hin|Heq%list_elem_of_singleton]%elem_of_app; simpl; [set_solver|subst; set_solver].
  - intros a b ca cb Ha Hb Heq. apply lookup_snoc_cases in Ha as [Ha|[-> ->]], Hb as [Hb|[-> ->]].
    + by eapply Hn.
    + apply list_elem_of_lookup_2 in Ha. by destruct (Hnames ca Ha).
    + apply list_elem_of_lookup_2 in Hb. by destruct (Hnames cb Hb).
    + done.
  - intros cr' [Hin|Heq%list_elem_of_singleton]%elem_of_app; [auto|]. subst.
    unfold P, K. by rewrite HmP, HmK.
Qed.
End Unique.

Lemma validateAccess_True a reason msg :
  validateAccess ix a = (ConditionTrue, reason, msg) →
  let P := credentialPasswords pc (acc_Namespace a) in
  let K := credentialPublicKeys pc (acc_Namespace a) in
  names_unique (spec_Credentials (acc_Spec a)) ∧
  disjoint_material P (spec_Credentials (acc_Spec a)) ∧
  disjoint_material K (spec_Credentials (acc_Spec a)) ∧
  (∀ cr, cr ∈ spec_Credentials (acc_Spec a) → is_ok (P cr) = true ∧ is_ok (K cr) = true).
Proof.
  unfold validateAccess. case_bool_decide; [done|].
  destruct (validate_credentials _ _ _ _ _) as [v|] eqn:Hv; [|done]. intros _.
  apply (validate_credentials_spec (acc_Namespace a) _ [] _ _ _ Hv).
  all: first [by intros ? ?%elem_of_nil|by intros ? ? ?%elem_of_nil|idtac].
  all: intros i j cr; by rewrite lookup_nil.
Qed.

(** C23: a valid Access authenticates each of its credentials.  If the status controller reports
    an Access as valid, then every password and every public key held by one of its credentials
    (inline or through Secrets) authenticates an SSH user of that Access as exactly that
    credential: validation rules out the ambiguous, duplicated and unreadable material that would
    make matching fail. *)
Theorem valid_access_authenticates sshUser l a reason msg cr :
  resolveAccessLocator (PolicyCache_Get pc) sshUser = Ok (Some (l, a)) →
  validateAccess (secretIndexer pc) a = (ConditionTrue, reason, msg) →
  cr ∈ spec_Credentials (acc_Spec a) →
  (∀ token, token ≠ "" → offers (credentialPasswords pc (acc_Namespace a)) token cr →
     MatchPassword pc sshUser token = Ok (mkMatch a cr)) ∧
  (∀ key, offers (credentialPublicKeys pc (acc_Namespace a)) (FingerprintSHA256 key) cr →
     MatchPublicKey pc sshUser (Some key) = Ok (mkMatch a cr)).
Proof.
  intros Hl Hvalid Hin. apply validateAccess_True in Hvalid as (_ & HdP & HdK & Hok).
  apply list_elem_of_lookup_1 in Hin as [i Hi]. split.
  - intros token Hne Ho. unfold MatchPassword. rewrite bool_decide_eq_false_2, Hl by done.
    cbn [mbind result_bind]. apply match_material. split; [done|]. exists i. split_and!; try done.
    + intros j cr' Hj Ho'. by eapply HdP.
    + intros cr' Hcr'. by apply Hok.
  - intros key Ho. unfold MatchPublicKey. rewrite Hl.
    cbn [mbind result_bind]. apply match_material. split; [done|]. exists i. split_and!; try done.
    + intros j cr' Hj Ho'. by eapply HdK.
    + intros cr' Hcr'. by apply Hok.
Qed.
End Material.

Definition secrets_of (name key value : string) : string → result (option (cached Secret)) := fun k =>
  Ok (if bool_decide (k = name) then Some (CObj (mkSecret {[key := value]})) else None).
Definition bob_credential : AccessCredential :=
  mkCredential "bob" "" [] ∅ [] [mkRef "pw" "token"] [] [] [] no_capabilities.
Definition two_user_access : Access :=
  pod_access "team" "web" [password_credential "alice" ["s3cret"]; bob_credential].
Definition two_user_cache : PolicyCache :=
  cache_of two_user_access (secrets_of "team/pw" "token" "hunter2").

Lemma valid_access_authenticates_witness :
  MatchPassword two_user_cache "team.web" "hunter2" = Ok (mkMatch two_user_access bob_credential).
Proof.
  destruct (@valid_access_authenticates toy_keys two_user_cache "team.web"
    (mkLocator "team" "web" "" "") two_user_access "Valid"
    ("Access spec and referenced credentials are valid.", []) bob_credential) as [Hpw _].
  - vm_compute. reflexivity.
  - vm_compute. reflexivity.
  - right. left.
  - apply Hpw; [done|]. exists {["hunter2"]}. split; [vm_compute; reflexivity|].
    by apply elem_of_singleton.
Defined.

(** Duplicate user names authenticate.  The design and the comment on [AccessCredential] want the
    user names of the credentials of one Access to be unique, a conflict to fail authentication and to
    show in the status.  The status shows it; matching compares material only, so each of two
    credentials of the same user name still authenticates, as itself. *)
Definition twin_access : Access :=
  pod_access "team" "web" [password_credential "alice" ["s3cret"]; password_credential "alice" ["hunter2"]].
Definition twin_cache : PolicyCache := cache_of twin_access (fun _ => Ok None).

Theorem duplicate_username_authenticates `{SSHKeys} :
  validateAccess (secretIndexer twin_cache) twin_access =
    (ConditionFalse, "DuplicateCredentialIdentity",
     ("Credential username %q must be unique within the Access.", ["alice"])) ∧
  ∀ token, token = "s3cret" ∨ token = "hunter2" →
    MatchPassword twin_cache "team.web" token = Ok (mkMatch twin_access (password_credential "alice" [token])).
Proof. split; [by vm_compute|]. intros token [->| ->]; by vm_compute. Qed.

(** ** Readiness *)

Section Status.
Context `{SSHKeys} `{StatusConditions}.

Lemma statusContainer_Some policy pod access container :
  statusContainer policy pod access = container → container ≠ "" →
  ∃ cr, cr ∈ spec_Credentials (acc_Spec access) ∧ container ∈ pod_Containers pod ∧
    containerAllowed (cred_Containers cr) container = true ∧
    (spec_Containers (acc_Spec access) ≠ [] →
       containerAllowed (spec_Containers (acc_Spec access)) container = true) ∧
    (spec_Containers (acc_Spec access) = [] →
       ContainerAllowed (DefaultMode policy) (bool_decide (container ≠ defaultContainerOf pod))
         container (defaultContainerOf pod) = true) ∧
    ContainerAllowed (LimitMode policy) (bool_decide (container ≠ defaultContainerOf pod))
      container (defaultContainerOf pod) = true.
Proof.
  unfold statusContainer. destruct (ResolveContainer pod "") as [[c0 d]|] eqn:Hc; [|by intros <-].
  apply ResolveContainer_Ok in Hc as (_ & _ & -> & _).
  destruct (find_first _ _) as [c|] eqn:Hf; [|by intros <-]. simpl. intros <- Hne.
  apply find_first_Some in Hf as [Hin Hu].
  apply andb_true_iff in Hu as [Hu Hcr]. apply andb_true_iff in Hu as [Hacc Hlim].
  apply existsb_exists in Hcr as (cr & Hcr & Hcc). exists cr.
  split_and!; [by apply list_elem_of_In|done|done| | |done].
  - intros Hcs. rewrite bool_decide_eq_true_2 in Hacc; [done|].
    destruct (spec_Containers _); [done|simpl; lia].
  - intros Hcs. rewrite bool_decide_eq_false_2 in Hacc; [done|]. rewrite Hcs. simpl. lia.
Qed.

Lemma ContainerAllowed_explicit mode c d :
  ContainerAllowed mode (bool_decide (c ≠ d)) c d = true → ContainerAllowed mode true c d = true.
Proof.
  rewrite !ContainerAllowed_spec, bool_decide_eq_false. intros [?|[?|[? [Heq|?]]]];
    [by left|by right; left|right; right|right; right]; (split; [done|]); right; [|done].
  by apply dec_stable in Heq.
Qed.

Lemma findCredential_unique access cr :
  names_unique (spec_Credentials (acc_Spec access)) → cr ∈ spec_Credentials (acc_Spec access) →
  findCredential access (cred_Username cr) = Some cr.
Proof.
  intros Hn Hin. unfold findCredential.
  destruct (find_first_is_Some (fun c => bool_decide (cred_Username c = cred_Username cr))
              (spec_Credentials (acc_Spec access)) cr Hin) as [cr' Hf].
  { by apply bool_decide_eq_true_2. }
  rewrite Hf. apply find_first_Some in Hf as [Hin' Heq]. breflect.
  apply list_elem_of_lookup_1 in Hin as [i Hi]. apply list_elem_of_lookup_1 in Hin' as [j Hj].
  pose proof (Hn j i cr' cr Hj Hi Heq). congruence.
Qed.

Lemma statusFor_ready c now access :
  ∃ cond, find_condition (st_Conditions (statusFor c now access)) AccessConditionReady = Some cond ∧
    cond_Status cond =
      (if bool_decide ((validateAccess (sc_secretIndexer c) access).1.1 ≠ ConditionTrue)
       then ConditionFalse else (readiness c access).1.1).
Proof.
  unfold statusFor. cbn [st_Conditions].
  match goal with |- context [SetStatusCondition now ?l ?n] =>
    destruct (Set_found now l n) as (cond & Hf & _ & Hs & _) end.
  exists cond. split; [exact Hf|]. rewrite Hs. simpl. by case_bool_decide.
Qed.

(** Readiness is not an empty promise.  When a Pod Access is reported Ready, there are an
    active Pod among those its selector lists, a container of that Pod and a credential of the
    Access such that every connection authenticated as that credential and asking for that
    container passes all the container rules of target resolution. *)
Theorem ready_access_has_target c now access cond pc :
  sc_secretIndexer c = secretIndexer pc →
  find_condition (st_Conditions (statusFor c now access)) AccessConditionReady = Some cond →
  cond_Status cond = ConditionTrue → spec_Type (acc_Spec access) ≠ AccessTypeExternal →
  ∃ list pods pod container cr,
    sc_pods c = Some list ∧ list (acc_Namespace access) (spec_Selector (acc_Spec access)) = Ok pods ∧
    pod ∈ pods ∧ activePod pod = true ∧ cr ∈ spec_Credentials (acc_Spec access) ∧
    ∀ input, GetExtra (in_AuthExtra input) ExtraCredentialUser = cred_Username cr →
      container_permitted (sc_policy c) input access pod container container.
Proof.
  intros Hix Hcond Htrue Hext.
  destruct (statusFor_ready c now access) as (cond' & Hcond' & Hst).
  rewrite Hcond in Hcond'. injection Hcond' as <-. rewrite Htrue in Hst.
  destruct (validateAccess (sc_secretIndexer c) access) as [[vs reason] msg] eqn:Hv. simpl in Hst.
  case_bool_decide as Hvs; [done|]. subst vs.
  rewrite Hix in Hv. apply validateAccess_True in Hv as (Hn & _).
  unfold readiness in Hst. rewrite bool_decide_eq_false_2 in Hst by done.
  destruct (sc_pods c) as [list|]; [|done].
  destruct (list _ _) as [pods|] eqn:Hlist; [|done].
  case_bool_decide as Hlen; [done|].
  destruct (candidatePods (filter _ pods)) as [|pod rest] eqn:Hcand; [done|].
  assert (pod ∈ candidatePods (filter (fun p => statusContainer (sc_policy c) p access ≠ "") pods))
    as Hpod by (rewrite Hcand; left).
  apply elem_of_candidatePods in Hpod as (Hpod & Hact & _).
  apply list_elem_of_filter in Hpod as [Hsc Hpod].
  destruct (statusContainer_Some _ _ _ _ eq_refl Hsc) as (cr & Hcr & Hc & Hcc & Hs1 & Hs2 & Hs3).
  exists list, pods, pod, (statusContainer (sc_policy c) pod access), cr.
  split_and!; [done..|]. intros input Huser. unfold container_permitted.
  rewrite bool_decide_eq_true_2 by done. split_and!; try done.
  - intros Hcs. by apply ContainerAllowed_explicit, Hs2.
  - by apply ContainerAllowed_explicit.
  - intros cr'. rewrite Huser, findCredential_unique by done. by intros [= <-].
Qed.

(** ** Convergence *)

Lemma readiness_set_status c access st : readiness c (set_status access st) = readiness c access.
Proof. done. Qed.
Lemma validateAccess_set_status ix access st :
  validateAccess ix (set_status access st) = validateAccess ix access.
Proof. done. Qed.

Lemma statusFor_fixpoint c now now' access :
  statusFor c now' (set_status access (statusFor c now access)) = statusFor c now access.
Proof.
  unfold statusFor at 1. rewrite validateAccess_set_status. unfold statusFor at 3. f_equal.
  set (valid := validateAccess _ access).
  assert (∀ r, condition AccessConditionReady (set_status access (statusFor c now access)) r
             = condition AccessConditionReady access r) as Hcr by done.
  assert (∀ r, condition AccessConditionValid (set_status access (statusFor c now access)) r
             = condition AccessConditionValid access r) as Hcv by done.
  rewrite Hcr, Hcv, readiness_set_status. cbn [st_Conditions acc_Status set_status].
  set (conds := st_Conditions (statusFor c now access)).
  assert (conds = SetStatusCondition now
    (SetStatusCondition now (st_Conditions (acc_Status access)) (condition AccessConditionValid access valid))
    (condition AccessConditionReady access
       (if bool_decide (valid.1.1 ≠ ConditionTrue)
        then (ConditionFalse, "Invalid", ("Access is not valid.", [])) else readiness c access))) as Hconds
    by done.
  destruct (Set_found now (st_Conditions (acc_Status access)) (condition AccessConditionValid access valid))
    as (cv & Hv & Hvs).
  erewrite (Set_same now' conds (condition AccessConditionValid access valid) cv); [|..|exact Hvs].
  - destruct (Set_found now
      (SetStatusCondition now (st_Conditions (acc_Status access)) (condition AccessConditionValid access valid))
      (condition AccessConditionReady access
         (if bool_decide (valid.1.1 ≠ ConditionTrue)
          then (ConditionFalse, "Invalid", ("Access is not valid.", [])) else readiness c access)))
      as (cr & Hr & Hrs). rewrite <-Hconds in Hr.
    by rewrite (Set_same now' conds _ cr Hr Hrs).
  - rewrite Hconds, Set_other by done. exact Hv.
Qed.

(** C32: the status projection converges.  When [sync] sends an update for an Access, a later
    [sync] that reads the updated object (with the same Pods and Secrets) sends nothing: the
    controller does not loop on its own updates. *)
Theorem sync_converges c c' now now' split update update' key updated err :
  sync c now split update key = (Some updated, err) →
  sc_pods c' = sc_pods c → sc_secretIndexer c' = sc_secretIndexer c →
  sc_policy c' = sc_policy c → sc_endpoints c' = sc_endpoints c →
  (∀ ns name a, sc_Get c ns name = Ok a → acc_Namespace a = ns ∧ acc_Name a = name) →
  sc_Get c' (acc_Namespace updated) (acc_Name updated) = Ok updated →
  sync c' now' split (Some update') key = (None, None).
Proof.
  unfold sync. destruct update as [upd|]; [|done]. destruct (split key) as [[ns name]|]; [|done].
  destruct (sc_Get c ns name) as [a|] eqn:Hget; [|done]. case_match; [done|].
  intros Hu Hpods Hsec Hpol Hend Hlaw Hget'.
  assert (updated = set_status a (statusFor c now a)) as -> by (repeat case_match; by simplify_eq).
  destruct (Hlaw _ _ _ Hget) as [Hns Hname]. cbn [acc_Namespace acc_Name set_status] in Hget'.
  rewrite Hns, Hname in Hget'. rewrite Hget'.
  assert (∀ x, statusFor c' now' x = statusFor c now' x) as Hsf.
  { intros x. unfold statusFor, readiness. by rewrite Hpods, Hsec, Hpol, Hend. }
  rewrite Hsf, statusFor_fixpoint. by rewrite !bool_decide_eq_true_2.
Qed.
End Status.

(** apimachinery's [SetStatusCondition], as an instance of its documentation. *)
Fixpoint set_condition (now : Z) (l : list Condition) (n : Condition) : list Condition :=
  match l with
  | [] => [mkCondition (cond_Type n) (cond_Status n) (cond_ObservedGeneration n) now (cond_Reason n)
             (cond_Message n)]
  | c :: l' =>
      if bool_decide (cond_Type c = cond_Type n)
      then mkCondition (cond_Type c) (cond_Status n) (cond_ObservedGeneration n)
             (if bool_decide (cond_Status c = cond_Status n) then cond_LastTransitionTime c else now)
             (cond_Reason n) (cond_Message n) :: l'
      else c :: set_condition now l' n
  end.

Lemma find_condition_cons c l t :
  find_condition (c :: l) t = if bool_decide (cond_Type c = t) then Some c else find_condition l t.
Proof.
  unfold find_condition, find_first. simpl. case_bool_decide; [done|].
  by destruct (find_index _ l) as [[]|].
Qed.

#[export] Instance apimeta_conditions : StatusConditions.
Proof.
  refine {| SetStatusCondition := set_condition |}.
  - intros now l n. induction l as [|c l (c' & IH & Hs)]; simpl.
    + eexists. rewrite find_condition_cons. simpl. rewrite bool_decide_eq_true_2 by done. done.
    + case_bool_decide as Hc.
      * eexists. rewrite find_condition_cons. simpl. rewrite bool_decide_eq_true_2 by done.
        split; [done|]. done.
      * exists c'. by rewrite find_condition_cons, bool_decide_eq_false_2.
  - intros now l n t Ht. induction l as [|c l IH]; simpl.
    + rewrite find_condition_cons. simpl. by rewrite bool_decide_eq_false_2.
    + case_bool_decide as Hc; rewrite !find_condition_cons; [|by rewrite IH]. simpl.
      by rewrite bool_decide_eq_false_2 by congruence.
  - intros now l n c. induction l as [|x l IH]; [done|]. rewrite find_condition_cons. simpl.
    case_bool_decide as Hx.
    + intros [= ->] (_ & H2 & H3 & H4 & H5). rewrite (bool_decide_eq_true_2 (_ = cond_Status n)) by done.
      destruct c; simpl in *. by subst.
    + intros Hf Hs. f_equal. by apply IH.
Defined.

Definition demo_controller (Get : AccessGetter) : AccessStatusController :=
  mkController Get (Ok []) (Some (fun ns _ => Ok [simple_pod ns "web-0" "u0" ["app"]]))
    (secretIndexer two_user_cache) defaultContainerPolicy [mkStatusEndpoint "ssh.example.com:22" ""].
Definition demo_updated : Access :=
  set_status two_user_access
    (@statusFor toy_keys _ (demo_controller (PolicyCache_Get two_user_cache)) 7 two_user_access).

Lemma ready_access_has_target_witness :
  ∃ list pods pod container cr,
    sc_pods (demo_controller (PolicyCache_Get two_user_cache)) = Some list ∧
    list "team" {["app" := "web"]} = Ok pods ∧ pod ∈ pods ∧ activePod pod = true ∧
    cr ∈ spec_Credentials (acc_Spec two_user_access) ∧
    ∀ input, GetExtra (in_AuthExtra input) ExtraCredentialUser = cred_Username cr →
      container_permitted defaultContainerPolicy input two_user_access pod container container.
Proof.
  exact (@ready_access_has_target toy_keys _ (demo_controller (PolicyCache_Get two_user_cache)) 7
    two_user_access
    (mkCondition "Ready" "True" 1 7 "TargetAvailable" ("Access has at least one active Pod target.", []))
    two_user_cache eq_refl eq_refl eq_refl ltac:(done)).
Defined.

Definition updated_controller : AccessStatusController :=
  demo_controller (PolicyCache_Get (cache_of demo_updated (fun _ => Ok None))).
Lemma sync_converges_witness :
  @sync toy_keys _ updated_controller 99 (fun _ => Some ("team", "web"))
    (Some (fun _ => Some (EExternal "conflict"))) "team/web" = (None, None).
Proof.
  refine (@sync_converges toy_keys _ (demo_controller (PolicyCache_Get two_user_cache))
    updated_controller 7 99 (fun _ => Some ("team", "web"))
    (Some (fun _ => None)) _ "team/web" demo_updated None _ eq_refl eq_refl eq_refl eq_refl _ _).
  - vm_compute. reflexivity.
  - intros ns name a. apply (@Get_identity (PolicyCache_Get two_user_cache)).
    by apply PolicyCache_laws, cache_of_keyed.
  - vm_compute. reflexivity.
Defined.
