(* ===== verification/AuditLog.v ===== *)
(** Model of [src/pkg/audit]: the audit event schema and the asynchronous recorder.

    The recorder is shared by request handlers, its worker goroutine and the closer: it is a step
    relation on the buffered channel, with the lists of events accepted, handed to the sink and
    dropped as observations.  [NewID] (a UUID) and the clock are arguments. *)

From S2P Require Import Prelude.

(** ** [audit.go] *)

Record Correlation := mkCorrelation { ConnectionID : string; OperationID : string }.
Record Connection := mkConnection {
  ac_SSHUsername : string; ac_RemoteAddress : string; ac_LocalAddress : string;
  ac_ClientVersion : string; ac_ServerVersion : string }.
Record Actor := mkActor {
  actor_ID : string; actor_Name : string; actor_Email : string; actor_EmailVerified : bool;
  actor_Groups : list string; AuthenticationMethod : string; PublicKeyFingerprint : string }.
Record AccessBinding := mkAccessBinding {
  ab_Namespace : string; ab_Name : string; ab_CredentialUsername : string; ab_CredentialType : string }.
Record AuditTarget := mkAuditTarget {
  at_Kind : string; at_Path : string; at_Namespace : string; at_Name : string;
  at_Container : string; at_Endpoint : string }.
Record AuditOperation := mkAuditOperation {
  aop_Name : string; aop_Capability : string; aop_Command : string }.
Record Authorization := mkAuthorization { az_Decision : string; az_Reason : string }.
Record Outcome := mkOutcome {
  out_Result : string; out_Reason : string; out_Error : string; out_ExitCode : option Z;
  out_DurationMS : Z }.

Record Event := mkEvent {
  SchemaVersion : string;
  ev_ID : string;
  ev_Time : Z;
  ev_Type : string;
  ev_Correlation : Correlation;
  ev_Connection : option Connection;
  ev_Actor : option Actor;
  ev_Access : option AccessBinding;
  ev_Target : option AuditTarget;
  ev_Operation : option AuditOperation;
  ev_Authorization : option Authorization;
  ev_Outcome : option Outcome;
  ev_Fields : gmap string string;
}.

Definition schemaVersion := "1.0".

(** [NewEvent], with the identifier and the time it draws. *)
Definition NewEvent (id : string) (now : Z) (eventType : string) : Event :=
  mkEvent schemaVersion id now eventType (mkCorrelation "" "") None None None None None None None ∅.

(** ** [async.go] *)

Definition DefaultQueueSize : Z := 4096.
Definition ResultWritten := "written".
Definition ResultDropped := "dropped".
Definition ResultSinkError := "sink_error".

(** [prepare]: fill the identifier, version and time that are missing. *)
Definition prepare (id : string) (now : Z) (e : Event) : Event :=
  mkEvent (if bool_decide (SchemaVersion e = "") then schemaVersion else SchemaVersion e)
    (if bool_decide (ev_ID e = "") then id else ev_ID e)
    (if bool_decide (ev_Time e = 0%Z) then now else ev_Time e)
    (ev_Type e) (ev_Correlation e) (ev_Connection e) (ev_Actor e) (ev_Access e) (ev_Target e)
    (ev_Operation e) (ev_Authorization e) (ev_Outcome e) (ev_Fields e).

(** The recorder.  [queue] is the buffered channel; [observed] the results given to the observer,
    in order; [delivered] the events passed to the sink; [accepted] those that entered the queue;
    [sinkClosed] whether the sink's [Close] was called. *)
Record AsyncRecorder := mkRecorder {
  capacity : nat;
  queue : list Event;
  rec_closed : bool;
  rec_done : bool;
  sinkClosed : bool;
  accepted : list Event;
  delivered : list Event;
  observed : list string;
}.

Definition NewAsyncRecorder (queueSize : Z) : AsyncRecorder :=
  let queueSize := if bool_decide (queueSize ≤ 0)%Z then DefaultQueueSize else queueSize in
  mkRecorder (Z.to_nat queueSize) [] false false false [] [] [].

(** [Record]: never blocks; a full queue drops the event. *)
Definition Record_ (r : AsyncRecorder) (id : string) (now : Z) (event : Event) : AsyncRecorder :=
  if rec_closed r then r
  else
    let event := prepare id now event in
    if bool_decide (length (queue r) < capacity r)
    then mkRecorder (capacity r) (queue r ++ [event]) (rec_closed r) (rec_done r) (sinkClosed r)
           (accepted r ++ [event]) (delivered r) (observed r)
    else mkRecorder (capacity r) (queue r) (rec_closed r) (rec_done r) (sinkClosed r)
           (accepted r) (delivered r) (observed r ++ [ResultDropped]).

(** The body of [queueCloseOnce]. *)
Definition closeQueue (r : AsyncRecorder) : AsyncRecorder :=
  mkRecorder (capacity r) (queue r) true (rec_done r) (sinkClosed r) (accepted r) (delivered r)
    (observed r).

(** One iteration of [run]: take the next event and write it; on a closed and empty channel, end. *)
Definition run_step (r : AsyncRecorder) (sink_Write : Event → option error) : option AsyncRecorder :=
  if rec_done r then None
  else match queue r with
       | event :: rest =>
           Some (mkRecorder (capacity r) rest (rec_closed r) false (sinkClosed r) (accepted r)
                   (delivered r ++ [event])
                   (observed r ++ [match sink_Write event with
                                   | Some _ => ResultSinkError | None => ResultWritten end]))
       | [] => if rec_closed r
               then Some (mkRecorder (capacity r) [] true true (sinkClosed r) (accepted r)
                            (delivered r) (observed r))
               else None
       end.

(** The loop of [run], for at most [fuel] iterations. *)
Fixpoint run (fuel : nat) (r : AsyncRecorder) (sink_Write : Event → option error) : AsyncRecorder :=
  match fuel with
  | O => r
  | S fuel => match run_step r sink_Write with Some r' => run fuel r' sink_Write | None => r end
  end.

(** [Close] closes the sink once the worker has ended. *)
Definition closeSink (r : AsyncRecorder) : option AsyncRecorder :=
  if rec_done r
  then Some (mkRecorder (capacity r) (queue r) (rec_closed r) true true (accepted r) (delivered r)
               (observed r))
  else None.

Inductive recorder_step : AsyncRecorder → AsyncRecorder → Prop :=
| rec_record r id now e : recorder_step r (Record_ r id now e)
| rec_close r : recorder_step r (closeQueue r)
| rec_run r sink r' : run_step r sink = Some r' → recorder_step r r'
| rec_close_sink r r' : closeSink r = Some r' → recorder_step r r'.

(** Results of the worker among those observed. *)
Definition worker_results (r : AsyncRecorder) : list string :=
  filter (fun x => x ≠ ResultDropped) (observed r).

Definition recorder_inv (r : AsyncRecorder) : Prop :=
  accepted r = delivered r ++ queue r ∧ length (queue r) ≤ capacity r ∧
  length (worker_results r) = length (delivered r) ∧
  (rec_done r = true → rec_closed r = true ∧ queue r = []) ∧
  (sinkClosed r = true → rec_done r = true).

Lemma recorder_step_inv r r' : recorder_step r r' → recorder_inv r → recorder_inv r'.
Proof.
  destruct 1 as [r id now e|r|r sink r' Hrun|r r' Hclose]; intros Hinv;
    pose proof Hinv as (Hacc & Hcap & Hres & Hdone & Hsink).
  - unfold Record_. destruct (rec_closed r) eqn:Hc; [done|].
    unfold recorder_inv. case_bool_decide; split_and!; simpl; try done.
    + by rewrite Hacc, app_assoc.
    + rewrite length_app. simpl. lia.
    + intros Hd. destruct (Hdone Hd). congruence.
    + unfold worker_results in *. simpl. by rewrite filter_app, filter_cons_False, app_nil_r by naive_solver.
  - unfold recorder_inv. split_and!; try done. simpl. intros Hd. by destruct (Hdone Hd).
  - unfold run_step in Hrun. destruct (rec_done r) eqn:Hd; [done|].
    destruct (queue r) as [|e rest] eqn:Hq.
    + destruct (rec_closed r); [|done]. injection Hrun as <-. unfold recorder_inv. by split_and!; simpl.
    + injection Hrun as <-. unfold recorder_inv. split_and!; simpl.
      * by rewrite Hacc, <-app_assoc.
      * simpl in Hcap. lia.
      * unfold worker_results in *. simpl. rewrite filter_app, !length_app, Hres.
        rewrite filter_cons_True by (by case_match). done.
      * done.
      * intros Hs. by specialize (Hsink Hs).
  - unfold closeSink in Hclose. destruct (rec_done r) eqn:Hd; [|done]. injection Hclose as <-.
    unfold recorder_inv. by split_and!; simpl; auto.
Qed.

Lemma run_drains r sink :
  rec_closed r = true → rec_done r = false →
  rec_done (run (S (length (queue r))) r sink) = true ∧
  delivered (run (S (length (queue r))) r sink) = delivered r ++ queue r ∧
  accepted (run (S (length (queue r))) r sink) = accepted r.
Proof.
  remember (queue r) as q eqn:Hq. revert r Hq. induction q as [|e q IH]; intros r Hq Hc Hd.
  - cbn [run length]. unfold run_step. rewrite Hd, <-Hq, Hc. simpl. by rewrite app_nil_r.
  - cbn [length]. remember (S (length q)) as n eqn:Hn. cbn [run]. unfold run_step.
    rewrite Hd, <-Hq. subst n. rewrite Hc.
    destruct (IH (mkRecorder (capacity r) q true false (sinkClosed r) (accepted r) (delivered r ++ [e])
      (observed r ++ [match sink e with Some _ => ResultSinkError | None => ResultWritten end])))
      as (H1 & H2 & H3); [done..|]. split_and!; [exact H1| |exact H3].
    rewrite H2. simpl. by rewrite <-app_assoc.
Qed.

(** C35: the audit recorder loses no event that it accepted and reorders nothing.  Under any interleaving
    of recording handlers, the worker and the closer: the events accepted are exactly those handed
    to the sink followed by those still queued, in order; the queue never exceeds its capacity;
    every event handed to the sink was reported as written or failed; the worker ends only with an
    empty closed queue, and the sink is closed only after that, so after every accepted event was
    handed to it.  Once closed, the worker does end, after one iteration per queued event and a
    last one. *)
Theorem audit_conserved queueSize r :
  rtc recorder_step (NewAsyncRecorder queueSize) r →
  accepted r = delivered r ++ queue r ∧ length (queue r) ≤ capacity r ∧
  length (worker_results r) = length (delivered r) ∧
  (sinkClosed r = true → delivered r = accepted r) ∧
  (rec_done r = true → delivered r = accepted r) ∧
  (rec_closed r = true → rec_done r = false → ∀ sink,
     rec_done (run (S (length (queue r))) r sink) = true ∧
     delivered (run (S (length (queue r))) r sink) = accepted r).
Proof.
  intros Hr. assert (recorder_inv r) as (Hacc & Hcap & Hres & Hdone & Hsink).
  { eapply (rtc_ind_r recorder_inv (NewAsyncRecorder queueSize)); [..|exact Hr].
    - split_and!; simpl; try done; lia.
    - intros x y _ Hs. by apply recorder_step_inv. }
  assert (rec_done r = true → delivered r = accepted r) as Hd.
  { intros Hd. destruct (Hdone Hd) as [_ Hq]. by rewrite Hacc, Hq, app_nil_r. }
  split_and!; auto. intros Hc Hnd sink. destruct (run_drains r sink Hc Hnd) as (? & Hdel & _).
  by rewrite Hdel, Hacc.
Qed.

Lemma audit_conserved_witness :
  let e := NewEvent "id" 1 "connection.start" in
  let r := Record_ (Record_ (NewAsyncRecorder 1) "x" 2 e) "y" 3 e in
  accepted r = delivered r ++ queue r ∧ observed r = [ResultDropped].
Proof.
  split; [|by vm_compute].
  eapply (audit_conserved 1). eapply rtc_l; [apply rec_record|]. apply rtc_once, rec_record.
Defined.
