(* ===== verification/Operation.v ===== *)
(** Models of [src/pkg/gateway/operation.go] and [src/pkg/gateway/protocol.go] (the specification,
    authorization and audited life of one SSH operation), of
    [src/pkg/gateway/audit_fields.go] and [connectionEvent] of [connection_audit.go], and of
    [Operation] of [src/pkg/sshprotocol].

    Effects are a log of the audit events and metrics emitted, in order.  [shlex.Split] is a
    parameter; identifiers and the clock are arguments. *)

From S2P Require Import Prelude GoStrings GoStrconv GoPath Wildcard Kube Target Strategy Authn AccessStore AccessResolver Authz AuthzProps AuditLog.

(** ** [sshprotocol] *)

Definition ChannelSession := "session".
Definition ChannelDirectTCPIP := "direct-tcpip".
Definition ChannelForwardedTCPIP := "forwarded-tcpip".
Definition ChannelAgent := "auth-agent@openssh.com".
Definition RequestShell := "shell".
Definition RequestExec := "exec".
Definition RequestSubsystem := "subsystem".
Definition RequestEnvironment := "env".
Definition RequestPTY := "pty-req".
Definition RequestWindowChange := "window-change".
Definition RequestSignal := "signal".
Definition RequestBreak := "break".
Definition RequestExitStatus := "exit-status".
Definition RequestExitSignal := "exit-signal".
Definition RequestTCPIPForward := "tcpip-forward".
Definition RequestCancelTCPIPForward := "cancel-tcpip-forward".
Definition RequestAgentForward := "auth-agent-req@openssh.com".
Definition RequestKeepalive := "keepalive@openssh.com".
Definition RequestNoMoreSessions := "no-more-sessions@openssh.com".
Definition SubsystemSFTP := "sftp".
Definition EnvironmentSSHAuthSock := "SSH_AUTH_SOCK".

Record Operation := mkOperation {
  op_ChannelType : string;
  op_RequestType : string;
  op_Command : string;
  op_Subsystem : string;
  op_DestinationHost : string;
  op_DestinationPort : Z;
  op_OriginHost : string;
  op_OriginPort : Z;
  op_BindHost : string;
  op_BindPort : Z;
}.

Record OperationResult := mkOperationResult {
  or_Err : option error;
  or_ExitCode : option Z;
  or_ActualBindPort : option Z;
}.

(** ** Operation specifications ([protocol.go]) *)

Record operationSpec := mkOpSpec {
  spec_name : string;
  spec_capability : string;
  spec_attrs : Attributes;
  spec_auditFields : gmap string string;
}.

Definition targetResources (tgt : Target) : list AttributeResource :=
  mkResource "targets" (Kind tgt) :: ((fun o => mkResource (Key o) (Value o)) <$> Options tgt).

Definition isSCPCommand (argv : list string) : bool :=
  match argv with
  | [] => false
  | program :: args =>
      if bool_decide (path_Base program ≠ "scp") then false
      else existsb (fun arg => HasPrefix arg "-t" || HasPrefix arg "-f") args
  end.

Definition uint_str (n : Z) : string := FormatUint n 10.

Definition localForwardOperationSpec (tgt : Target) (o : Operation) : operationSpec :=
  let destinationPort := uint_str (op_DestinationPort o) in
  let originPort := uint_str (op_OriginPort o) in
  mkOpSpec "portforward" CapabilityLocalForward
    (mkAttributes CapabilityLocalForward
       (targetResources tgt ++ [mkResource "hosts" (op_DestinationHost o); mkResource "ports" destinationPort])
       (Target_String tgt +:+ "/hosts/" +:+ op_DestinationHost o +:+ "/ports/" +:+ destinationPort)
       (<["destination_host" := [op_DestinationHost o]]> (<["destination_port" := [destinationPort]]>
         (<["origin_host" := [op_OriginHost o]]> {["origin_port" := [originPort]]}))))
    (<["destination_host" := op_DestinationHost o]> (<["destination_port" := destinationPort]>
       (<["origin_host" := op_OriginHost o]> {["origin_port" := originPort]}))).

Definition connectionRemoteForwardOperationSpec (tgt : Target) (o : Operation) : operationSpec :=
  let port := uint_str (op_BindPort o) in
  mkOpSpec "remote_forward" CapabilityRemoteForward
    (mkAttributes CapabilityRemoteForward
       (targetResources tgt ++ [mkResource "bind_hosts" (op_BindHost o); mkResource "bind_ports" port])
       (Target_String tgt +:+ "/remote-forwards/" +:+ op_BindHost o +:+ "/" +:+ port)
       (<["bind_host" := [op_BindHost o]]> {["bind_port" := [port]]}))
    (<["bind_host" := op_BindHost o]> {["bind_port" := port]}).

Definition connectionAgentForwardOperationSpec (tgt : Target) : operationSpec :=
  mkOpSpec "agent_forward" CapabilityAgentForward
    (mkAttributes CapabilityAgentForward (targetResources tgt) (Target_String tgt +:+ "/agent-forward") ∅) ∅.

Definition connectionSessionOperationSpec (tgt : Target) (requestType : string) (argv : list string)
    (command : string) : operationSpec :=
  let capability :=
    if bool_decide (requestType = RequestShell) then CapabilityShell
    else if bool_decide (requestType = RequestExec)
    then if isSCPCommand argv then CapabilitySCP else CapabilityExec
    else CapabilityExec in
  mkOpSpec (if bool_decide (capability = CapabilitySCP) then "scp" else "session") capability
    (mkAttributes capability (targetResources tgt) (Target_String tgt)
       (if bool_decide (command ≠ "") then {["command" := [command]]} else ∅))
    {["command" := command]}.

Definition connectionSFTPOperationSpec (tgt : Target) : operationSpec :=
  mkOpSpec "sftp" CapabilitySFTP
    (mkAttributes CapabilitySFTP (targetResources tgt) (Target_String tgt) ∅) ∅.

(** The closure [add] of [connectionExtensionOperationSpec]. *)
Definition add_field (key value : string) (m : gmap string string) : gmap string string :=
  if bool_decide (value = "") then m else <[key := value]> m.
Definition connectionExtensionOperationSpec (tgt : Target) (o : Operation) : operationSpec :=
  let auditFields := add_field "subsystem" (op_Subsystem o)
    (add_field "request_type" (op_RequestType o) (add_field "channel_type" (op_ChannelType o) ∅)) in
  let path := Target_String tgt
    +:+ (if bool_decide (op_ChannelType o ≠ "") then "/channels/" +:+ op_ChannelType o else "")
    +:+ (if bool_decide (op_RequestType o ≠ "") then "/requests/" +:+ op_RequestType o else "") in
  mkOpSpec "ssh_extension" CapabilitySSHExtension
    (mkAttributes CapabilitySSHExtension (targetResources tgt) path ((fun v => [v]) <$> auditFields))
    auditFields.

Section Spec.
Context (shlex_Split : string → list string).

Definition connectionOperationSpec (tgt : Target) (o : Operation) : operationSpec :=
  if bool_decide (op_ChannelType o = ChannelDirectTCPIP) then localForwardOperationSpec tgt o
  else if bool_decide (op_RequestType o = RequestTCPIPForward)
  then connectionRemoteForwardOperationSpec tgt o
  else if bool_decide (op_RequestType o = RequestAgentForward)
  then connectionAgentForwardOperationSpec tgt
  else if bool_decide (op_ChannelType o = ChannelSession) &&
          (bool_decide (op_RequestType o = RequestShell) || bool_decide (op_RequestType o = RequestExec))
  then connectionSessionOperationSpec tgt (op_RequestType o) (shlex_Split (op_Command o)) (op_Command o)
  else if bool_decide (op_ChannelType o = ChannelSession) &&
          bool_decide (op_RequestType o = RequestSubsystem) &&
          bool_decide (op_Subsystem o = SubsystemSFTP)
  then connectionSFTPOperationSpec tgt
  else connectionExtensionOperationSpec tgt o.
End Spec.

(** ** Audit fields ([audit_fields.go], [connection_audit.go]) *)

Definition auditActor (info : AuthenticateInfo) (fingerprint : string) : Actor :=
  let u := info_User info in
  mkActor (user_ID u) (user_Name u) (user_Email u) (user_EmailVerified u) (user_Groups u)
    (info_Method info) fingerprint.

Definition firstTargetOption (tgt : Target) (keys : list string) : string :=
  default "" (find_first (fun v => bool_decide (v ≠ "")) (Target_Option tgt <$> keys)).

Definition auditTarget (tgt : Target) : AuditTarget :=
  mkAuditTarget (Kind tgt) (Target_String tgt)
    (firstTargetOption tgt ["namespace"; "namespaces"])
    (firstTargetOption tgt ["name"; "pod"; "pods"; "accesses"])
    (firstTargetOption tgt ["container"; "containers"])
    (firstTargetOption tgt ["endpoint"; "endpoints"]).

Definition auditAccess (info : AuthenticateInfo) : option AccessBinding :=
  let extra := info_Extra info in
  let namespace := GetExtra extra ExtraAccessNamespace in
  let name := GetExtra extra ExtraAccessName in
  let '(namespace, name) :=
    if bool_decide (namespace = "") && bool_decide (name = "")
    then match extra !! "access" with
         | Some (v :: _) => default (v, "") (Cut v "/")
         | _ => (namespace, name)
         end
    else (namespace, name) in
  if bool_decide (namespace = "") || bool_decide (name = "") then None
  else
    let user := GetExtra extra ExtraCredentialUser in
    let type := GetExtra extra ExtraCredentialType in
    Some (mkAccessBinding namespace name
            (if bool_decide (user = "") then user_Name (info_User info) else user)
            (if bool_decide (type = "") then info_Method info else type)).

(** The published authentication result and the connection's metadata. *)
Record authenticatedConnection := mkAuthenticated {
  auth_info : AuthenticateInfo;
  auth_target : Target;
  auth_fingerprint : string;
}.
Record connectionState := mkConnectionState {
  conn_metadata : Connection;
  conn_authenticated : option authenticatedConnection;
  conn_established : bool;
  conn_auditID : string;
}.

Definition connectionEvent (ctx : connectionState) (id : string) (now : Z) (eventType : string) : Event :=
  let e := NewEvent id now eventType in
  mkEvent (SchemaVersion e) (ev_ID e) (ev_Time e) (ev_Type e)
    (mkCorrelation (conn_auditID ctx) "") (Some (conn_metadata ctx))
    ((fun r => auditActor (auth_info r) (auth_fingerprint r)) <$> conn_authenticated ctx)
    (r ← conn_authenticated ctx; auditAccess (auth_info r))
    ((fun r => auditTarget (auth_target r)) <$> conn_authenticated ctx)
    None None None ∅.

(** ** The life of an operation ([operation.go]) *)

Definition ResultSuccess := "success".
Definition ResultDenied := "denied".
Definition ResultError := "error".
Definition ResultCanceled := "canceled".
Definition ResultNonzeroExit := "nonzero_exit".

(** What the gateway emits. *)
Inductive effect :=
| AuditRecord (e : Event)
| OperationStarted (kind capability : string)
| OperationFinished (kind capability result : string) (duration : Z).

(** The operation context and the closure returned to the protocol, with the state of its
    [sync.Once]. *)
Record operationContext := mkOpContext {
  sc_ctx : connectionState;
  sc_info : AuthenticateInfo;
  sc_target : Target;
  sc_fields : gmap string string;
  sc_operationID : string;
}.
Record operationHandle := mkHandle {
  h_sc : operationContext;
  h_spec : operationSpec;
  h_start : Z;
  h_allowed : bool;
  h_finished : bool;
}.

Definition set_fields (sc : operationContext) (fields : gmap string string) : operationContext :=
  mkOpContext (sc_ctx sc) (sc_info sc) (sc_target sc) fields (sc_operationID sc).

(** [newOperationContext]: the user, the kind and the target's options (a later option with the
    same key wins). *)
Definition newOperationContext (ctx : connectionState) (auth : authenticatedConnection) : operationContext :=
  let info := auth_info auth in
  let tgt := auth_target auth in
  mkOpContext ctx info tgt
    (foldl (fun m o => <[Key o := Value o]> m)
       (<["user" := user_Name (info_User info)]> {["kind" := Kind tgt]}) (Options tgt)) "".

Definition fget (m : gmap string string) (k : string) : string := default "" (m !! k).

(** [operationEvent]. *)
Definition hidden_fields : list string := ["capability"; "decision"; "reason"; "error"; "exit_code"].
Definition operationEvent (sc : operationContext) (spec : operationSpec) (id : string) (now : Z)
    (eventType : string) (outcome : option Outcome) : Event :=
  let e := connectionEvent (sc_ctx sc) id now eventType in
  let decision := fget (sc_fields sc) "decision" in
  mkEvent (SchemaVersion e) (ev_ID e) (ev_Time e) (ev_Type e)
    (mkCorrelation (ConnectionID (ev_Correlation e)) (sc_operationID sc))
    (ev_Connection e) (ev_Actor e) (ev_Access e) (Some (auditTarget (sc_target sc)))
    (Some (mkAuditOperation (spec_name spec) (spec_capability spec)
             (fget (spec_auditFields spec) "command")))
    (if bool_decide (decision ≠ "")
     then Some (mkAuthorization decision (fget (sc_fields sc) "reason")) else None)
    outcome
    (filter (fun kv => kv.1 ∉ hidden_fields) (sc_fields sc) ∪ spec_auditFields spec).

Definition decision_string (d : Decision) : string :=
  match d with
  | DecisionNoOpinion => "NoOpinion" | DecisionDeny => "Deny" | DecisionAllow => "Allow"
  end.

Section Lifecycle.
(** [err.Error()]. *)
Context (error_string : error → string).
Context (authz : Authorizer).
Context (shlex_Split : string → list string).

(** [authorizeOperation]: the new context, and [None] when allowed or the reason of the denial. *)
Definition authorizeOperation (sc : operationContext) (spec : operationSpec)
    : operationContext * option string :=
  let fields := spec_auditFields spec ∪ <["capability" := spec_capability spec]> (sc_fields sc) in
  let '(decision, reason, err) :=
    authz (mkRequest (info_User (sc_info sc)) (info_Method (sc_info sc)) (info_Extra (sc_info sc))
             (spec_attrs spec)) in
  let reason := match err with Some e => error_string e | None => reason end in
  let fields := <["reason" := reason]> (<["decision" := decision_string decision]> fields) in
  if bool_decide (decision = DecisionAllow) then (set_fields sc fields, None)
  else
    let reason := if bool_decide (reason = "") then "access denied" else reason in
    (set_fields sc (<["reason" := reason]> fields), Some reason).

Definition resultFromError (err : option error) : string :=
  match err with
  | Some e => if errors_Is e context_Canceled then ResultCanceled else ResultError
  | None => ResultSuccess
  end.
Definition resultFromExit (exitCode : Z) (err : option error) : string :=
  match err with
  | Some _ => resultFromError err
  | None => if bool_decide (exitCode ≠ 0%Z) then ResultNonzeroExit else ResultSuccess
  end.

(** [beginConnectionOperation]: start the audited operation, then authorize it.  The error is the
    reason of a denial. *)
Definition beginConnectionOperation (ctx : connectionState) (auth : authenticatedConnection)
    (operationID eventID : string) (now : Z) (o : Operation)
    : operationHandle * list effect * option error :=
  let sc := newOperationContext ctx auth in
  let spec := connectionOperationSpec shlex_Split (sc_target sc) o in
  let sc := mkOpContext (sc_ctx sc) (sc_info sc) (sc_target sc) (sc_fields sc) operationID in
  let log := [AuditRecord (operationEvent sc spec eventID now "operation.start" None);
              OperationStarted (Kind (sc_target sc)) (spec_capability spec)] in
  let '(sc, denied) := authorizeOperation sc spec in
  (mkHandle sc spec now (bool_decide (denied = None)) false, log,
   (fun reason => Errorf "%s" [reason]) <$> denied).

(** The closure returned by [startOperation]: once only. *)
Definition finish (h : operationHandle) (eventID : string) (now : Z) (result : string)
    : operationHandle * list effect :=
  if h_finished h then (h, [])
  else
    let sc := h_sc h in
    let duration := (now - h_start h)%Z in
    let exit_code := fget (sc_fields sc) "exit_code" in
    let outcome := mkOutcome result (fget (sc_fields sc) "reason") (fget (sc_fields sc) "error")
                     (if bool_decide (exit_code ≠ "") then Atoi exit_code else None)
                     (Z.quot duration 1000000) in
    (mkHandle sc (h_spec h) (h_start h) (h_allowed h) true,
     [OperationFinished (Kind (sc_target sc)) (spec_capability (h_spec h)) result duration;
      AuditRecord (operationEvent sc (h_spec h) eventID now "operation.end" (Some outcome))]).

(** The closure [complete] of [beginConnectionOperation]. *)
Definition complete (h : operationHandle) (eventID : string) (now : Z) (r : OperationResult)
    : operationHandle * list effect :=
  let fields := sc_fields (h_sc h) in
  let fields := match or_Err r with Some e => <["error" := error_string e]> fields | None => fields end in
  let with_fields fields := mkHandle (set_fields (h_sc h) fields) (h_spec h) (h_start h) (h_allowed h)
                              (h_finished h) in
  match or_ExitCode r with
  | Some code =>
      let h' := with_fields (<["exit_code" := Itoa code]> fields) in
      finish h' eventID now (if h_allowed h then resultFromExit code (or_Err r) else ResultDenied)
  | None =>
      let fields := match or_ActualBindPort r with
                    | Some p => <["actual_port" := uint_str p]> fields | None => fields end in
      finish (with_fields fields) eventID now
        (if h_allowed h then resultFromError (or_Err r) else ResultDenied)
  end.
End Lifecycle.

(** ** Classification *)

(** A transfer in either direction: the program [scp], in any directory, with a sink or source
    option. *)
Definition scp_transfer (argv : list string) : Prop :=
  ∃ program args arg rest, argv = program :: args ∧ path_Base program = "scp" ∧ arg ∈ args ∧
    (arg = "-t" +:+ rest ∨ arg = "-f" +:+ rest).

Lemma isSCPCommand_spec argv : isSCPCommand argv = true ↔ scp_transfer argv.
Proof.
  unfold isSCPCommand, scp_transfer. destruct argv as [|program args]; [naive_solver|].
  destruct (decide (path_Base program = "scp")) as [Hp|Hp].
  2:{ rewrite bool_decide_eq_true_2 by done. naive_solver. }
  rewrite bool_decide_eq_false_2 by tauto. rewrite existsb_exists. split.
  - intros (arg & Hin%list_elem_of_In & Hb). apply orb_true_iff in Hb.
    destruct Hb as [[r Hr]%HasPrefix_spec|[r Hr]%HasPrefix_spec]; exists program, args, arg, r; auto.
  - intros (? & ? & arg & r & [= <- <-] & _ & Hin & Hr). exists arg.
    split; [by apply list_elem_of_In|]. apply orb_true_iff.
    destruct Hr as [->| ->]; [left|right]; apply HasPrefix_app.
Qed.

(** Every operation is authorized as what it is.  The capability checked is the action of
    the authorization request, the request names the whole resolved target, and the capability
    follows from the operation alone: shell, exec, scp and sftp only for the matching session
    requests, local forwards for direct-tcpip channels with exactly the requested destination,
    remote forwards with exactly the requested bind address, agent forwarding, and
    [ssh_extension] for everything else. *)
Theorem operation_classification shlex tgt o :
  let s := connectionOperationSpec shlex tgt o in
  let ch := op_ChannelType o in
  let rq := op_RequestType o in
  let scp := scp_transfer (shlex (op_Command o)) in
  attr_Action (spec_attrs s) = spec_capability s ∧
  take (length (targetResources tgt)) (attr_Resources (spec_attrs s)) = targetResources tgt ∧
  (spec_capability s = CapabilityShell ↔ ch = ChannelSession ∧ rq = RequestShell) ∧
  (spec_capability s = CapabilityExec ↔ ch = ChannelSession ∧ rq = RequestExec ∧ ¬ scp) ∧
  (spec_capability s = CapabilitySCP ↔ ch = ChannelSession ∧ rq = RequestExec ∧ scp) ∧
  (spec_capability s = CapabilitySFTP ↔
     ch = ChannelSession ∧ rq = RequestSubsystem ∧ op_Subsystem o = SubsystemSFTP) ∧
  (spec_capability s = CapabilityLocalForward ↔ ch = ChannelDirectTCPIP) ∧
  (spec_capability s = CapabilityRemoteForward ↔ ch ≠ ChannelDirectTCPIP ∧ rq = RequestTCPIPForward) ∧
  (spec_capability s = CapabilityAgentForward ↔ ch ≠ ChannelDirectTCPIP ∧ rq = RequestAgentForward) ∧
  (ch = ChannelDirectTCPIP →
     destination_of (spec_attrs s) = JoinHostPort (op_DestinationHost o) (uint_str (op_DestinationPort o))) ∧
  (ch ≠ ChannelDirectTCPIP → rq = RequestTCPIPForward →
     bind_of (spec_attrs s) = JoinHostPort (op_BindHost o) (uint_str (op_BindPort o))).
Proof.
  cbv zeta. unfold connectionOperationSpec.
  destruct (decide (op_ChannelType o = ChannelDirectTCPIP)) as [Hd|Hd].
  { rewrite bool_decide_eq_true_2 by done. rewrite Hd. cbn.
    split_and!; try done; try (rewrite take_app_length; done); naive_solver. }
  rewrite bool_decide_eq_false_2 by done.
  destruct (decide (op_RequestType o = RequestTCPIPForward)) as [Hr|Hr].
  { rewrite bool_decide_eq_true_2 by done. rewrite Hr. cbn.
    split_and!; try done; try (rewrite take_app_length; done); naive_solver. }
  rewrite bool_decide_eq_false_2 by done.
  destruct (decide (op_RequestType o = RequestAgentForward)) as [Ha|Ha].
  { rewrite bool_decide_eq_true_2 by done. rewrite Ha. cbn.
    split_and!; try done; try (by rewrite firstn_all); naive_solver. }
  rewrite bool_decide_eq_false_2 by done.
  destruct (bool_decide (op_ChannelType o = ChannelSession)) eqn:Hs; simpl; breflect.
  2:{ split_and!; try done; try (by rewrite firstn_all); naive_solver. }
  rewrite Hs. destruct (decide (op_RequestType o = RequestShell)) as [H1|H1].
  { rewrite H1. simpl. split_and!; try done; try (by rewrite firstn_all); naive_solver. }
  rewrite (bool_decide_eq_false_2 (_ = RequestShell)) by done. simpl.
  destruct (decide (op_RequestType o = RequestExec)) as [H2|H2].
  { rewrite H2. simpl. unfold connectionSessionOperationSpec. simpl.
    pose proof (isSCPCommand_spec (shlex (op_Command o))) as Hscp.
    destruct (isSCPCommand (shlex (op_Command o))); simpl;
      split_and!; try done; try (by rewrite firstn_all); naive_solver. }
  rewrite (bool_decide_eq_false_2 (_ = RequestExec)) by done. simpl.
  destruct (decide (op_RequestType o = RequestSubsystem)) as [H3|H3].
  - rewrite H3. simpl. destruct (decide (op_Subsystem o = SubsystemSFTP)) as [H4|H4].
    + rewrite bool_decide_eq_true_2 by done. simpl.
      split_and!; try done; try (by rewrite firstn_all); naive_solver.
    + rewrite bool_decide_eq_false_2 by done. simpl.
      split_and!; try done; try (by rewrite firstn_all); naive_solver.
  - rewrite (bool_decide_eq_false_2 (_ = RequestSubsystem)) by done. simpl.
    split_and!; try done; try (by rewrite firstn_all); naive_solver.
Qed.

(** ** Exactly one end *)

Section Once.
Context (error_string : error → string) (authz : Authorizer) (shlex : string → list string).

(** The protocol may report a result several times. *)
Fixpoint completes (h : operationHandle) (rs : list (string * Z * OperationResult))
    : operationHandle * list effect :=
  match rs with
  | [] => (h, [])
  | (id, now, r) :: rs =>
      let '(h, log) := complete error_string h id now r in
      let '(h, log') := completes h rs in (h, log ++ log')
  end.

Definition starts (log : list effect) : nat :=
  length (omap (fun e => match e with OperationStarted k _ => Some k | _ => None end) log).
Definition finish_results (log : list effect) : list string :=
  omap (fun e => match e with OperationFinished _ _ result _ => Some result | _ => None end) log.
Definition audit_results (log : list effect) : list (string * string) :=
  omap (fun e => match e with
                 | AuditRecord ev => Some (ev_Type ev, default "" (out_Result <$> ev_Outcome ev))
                 | _ => None end) log.

Lemma complete_finished h id now r :
  h_finished h = true →
  ∃ h', complete error_string h id now r = (h', []) ∧ h_finished h' = true.
Proof.
  intros Hf. unfold complete, finish. case_match; simpl; rewrite Hf; eexists; done.
Qed.

Lemma completes_finished h rs :
  h_finished h = true → (completes h rs).2 = [].
Proof.
  revert h. induction rs as [|[[id now] r] rs IH]; intros h Hf; [done|]. simpl.
  destruct (complete_finished h id now r Hf) as (h' & -> & Hf').
  specialize (IH h' Hf'). destruct (completes h' rs). simpl in *. by subst.
Qed.

(** The result reported for an operation: denial wins over whatever the protocol reports. *)
Definition reported (allowed : bool) (r : OperationResult) : string :=
  if allowed
  then match or_ExitCode r with
       | Some code => resultFromExit code (or_Err r)
       | None => resultFromError (or_Err r)
       end
  else ResultDenied.

Lemma complete_first h id now r :
  h_finished h = false →
  ∃ h' log, complete error_string h id now r = (h', log) ∧ h_finished h' = true ∧
    starts log = 0 ∧ finish_results log = [reported (h_allowed h) r] ∧
    audit_results log = [("operation.end", reported (h_allowed h) r)].
Proof.
  intros Hf. unfold complete, finish, reported. destruct (or_ExitCode r) as [code|]; simpl; rewrite Hf;
    eexists _, _; (split_and!; [done..| |]); by destruct (h_allowed h).
Qed.

(** An operation is allowed exactly on the decision Allow. *)
Lemma authorizeOperation_allowed sc spec sc' denied :
  authorizeOperation error_string authz sc spec = (sc', denied) →
  denied = None ↔ ∃ reason e,
    authz (mkRequest (info_User (sc_info sc)) (info_Method (sc_info sc)) (info_Extra (sc_info sc)) (spec_attrs spec))
    = (DecisionAllow, reason, e).
Proof.
  unfold authorizeOperation. destruct (authz _) as [[d reason] e]. cbv beta iota zeta.
  destruct (decide (d = DecisionAllow)) as [Hd|Hd].
  - rewrite bool_decide_eq_true_2 by done. intros [= _ <-]. subst d. split; [intros _; by eexists _, _|done].
  - rewrite bool_decide_eq_false_2 by done. intros [= _ <-]. split; [done|]. by intros (? & ? & [= ? _ _]).
Qed.

(** C11: the life of an operation.  The operation is allowed exactly when the authorizer's
    decision for its request is Allow; it emits one start (audit event and metric) before it is
    authorized; and however many times the protocol reports a result, it emits exactly one end,
    with the first report's outcome, which is always [denied] for a denied operation. *)
Theorem operation_lifecycle ctx auth opID evID now o h log err id0 now0 r0 rs :
  beginConnectionOperation error_string authz shlex ctx auth opID evID now o = (h, log, err) →
  (err = None ↔ ∃ reason e,
     authz (mkRequest (info_User (auth_info auth)) (info_Method (auth_info auth))
              (info_Extra (auth_info auth))
              (spec_attrs (connectionOperationSpec shlex (auth_target auth) o)))
     = (DecisionAllow, reason, e)) ∧
  (err = None ↔ h_allowed h = true) ∧
  starts (log ++ (completes h ((id0, now0, r0) :: rs)).2) = 1 ∧
  finish_results (log ++ (completes h ((id0, now0, r0) :: rs)).2) = [reported (h_allowed h) r0] ∧
  audit_results (log ++ (completes h ((id0, now0, r0) :: rs)).2) =
    [("operation.start", ""); ("operation.end", reported (h_allowed h) r0)].
Proof.
  unfold beginConnectionOperation.
  destruct (authorizeOperation _ _ _ _) as [sc denied] eqn:Hauth. intros [= <- <- <-].
  destruct (complete_first (mkHandle sc (connectionOperationSpec shlex (auth_target auth) o) now
    (bool_decide (denied = None)) false) id0 now0 r0 eq_refl) as (h' & log' & Hc & Hf & Hs & Hfr & Har).
  pose proof (completes_finished h' rs Hf) as Hrest.
  cbn [completes]. cbn [sc_target newOperationContext] in *. rewrite Hc.
  destruct (completes h' rs) as [h2 l2]. simpl in Hrest. subst l2. rewrite app_nil_r.
  split_and!.
  - rewrite fmap_None. apply (authorizeOperation_allowed _ _ _ _ Hauth).
  - simpl. destruct denied; simpl; split; done.
  - change (S (starts log') = 1). by rewrite Hs.
  - exact Hfr.
  - change (("operation.start", "") :: audit_results log' = ("operation.start", "") ::
      [("operation.end", reported (bool_decide (denied = None)) r0)]). by rewrite Har.
Qed.
End Once.

Definition demo_connection : connectionState :=
  mkConnectionState (mkConnection "ns.pod" "10.0.0.9:5022" "" "SSH-2.0-x" "SSH-2.0-y") None true "conn-1".
Definition demo_auth : authenticatedConnection :=
  mkAuthenticated anonymousInfo (New "ns" "pod" "app") "".
Definition shell_operation : Operation := mkOperation ChannelSession RequestShell "" "" "" 0 "" 0 "" 0.

Lemma operation_lifecycle_witness :
  let '(h, log, err) := beginConnectionOperation (fun _ => "e") DenyAll (fun _ => []) demo_connection
                          demo_auth "op-1" "ev-1" 5 shell_operation in
  finish_results (log ++ (completes (fun _ => "e") h
    [("ev-2", 6%Z, mkOperationResult None (Some 0%Z) None);
     ("ev-3", 7%Z, mkOperationResult None None None)]).2) = [ResultDenied].
Proof.
  refine (proj1 (proj2 (proj2 (proj2 (operation_lifecycle (fun _ => "e") DenyAll (fun _ => [])
    demo_connection demo_auth "op-1" "ev-1" 5 shell_operation _ _ _ "ev-2" 6%Z
    (mkOperationResult None (Some 0%Z) None) [("ev-3", 7%Z, mkOperationResult None None None)] eq_refl))))).
Defined.
