(* ===== verification/GoNet.v ===== *)
(** [net.ParseIP] (through [netip.ParseAddr], which refuses zones here): which strings are IP
    addresses.  Only the outcome matters to the callers, so the parsers return [bool]. *)

From S2P Require Import Prelude GoStrings GoStrconv.

Local Open Scope Z_scope.

(** [parseIPv4Fields]: the state is the current octet, its number of digits and the number of
    finished octets. *)
Fixpoint ipv4_go (s : string) (first : bool) (prevDot : bool) (val : Z) (digLen pos : nat) : bool :=
  match s with
  | EmptyString => bool_decide (pos = 3)%nat
  | String ch rest =>
      match digit_val ch with
      | Some d =>
          if bool_decide (digLen = 1)%nat && bool_decide (val = 0) then false
          else
            let val := val * 10 + d in
            if bool_decide (255 < val) then false else ipv4_go rest false false val (S digLen) pos
      | None =>
          if bool_decide (ch = ".")%char
          then if first || bool_decide (rest = "") || prevDot then false
               else if bool_decide (pos = 3)%nat then false
               else ipv4_go rest false true 0 0 (S pos)
          else false
      end
  end.
Definition parseIPv4Fields (s : string) : bool := ipv4_go s true false 0 0 0.

Definition is_hex (ch : ascii) : bool :=
  let n := Ascii.nat_of_ascii ch in
  (48 <=? n)%nat && (n <=? 57)%nat || (97 <=? n)%nat && (n <=? 102)%nat ||
  (65 <=? n)%nat && (n <=? 70)%nat.

(** The number of leading hexadecimal digits.  Four of them always fit 16 bits. *)
Fixpoint hex_len (s : string) : nat :=
  match s with
  | String ch rest => if is_hex ch then S (hex_len rest) else 0%nat
  | EmptyString => 0%nat
  end.

(** The loop of [parseIPv6]: [i] bytes are filled, [ellipsis] says whether [::] was seen.  Every
    round fills at least two of the 16 bytes, so eight rounds are enough. *)
Fixpoint ipv6_go (rounds : nat) (s : string) (i : nat) (ellipsis : bool) : bool :=
  let finish s i :=
    bool_decide (s = "") && (if bool_decide (i < 16)%nat then ellipsis else negb ellipsis) in
  match rounds with
  | O => finish s i
  | S rounds =>
      let off := hex_len s in
      if bool_decide (off = 0)%nat || bool_decide (4 < off)%nat then false
      else
        let after := sdrop off s in
        match after with
        | String "." _ =>
            if negb ellipsis && bool_decide (i ≠ 12)%nat then false
            else if bool_decide (16 < i + 4)%nat then false
            else parseIPv4Fields s && finish "" (i + 4)%nat
        | EmptyString => finish "" (i + 2)%nat
        | String ":" EmptyString => false
        | String ":" (String ":" rest) =>
            if ellipsis then false
            else if bool_decide (rest = "") then finish "" (i + 2)%nat
            else ipv6_go rounds rest (i + 2) true
        | String ":" rest => ipv6_go rounds rest (i + 2) ellipsis
        | _ => false
        end
  end.

Definition parseIPv6 (s : string) : bool :=
  if ContainsByte s "%" then false
  else match s with
       | String ":" (String ":" rest) =>
           if bool_decide (rest = "") then true else ipv6_go 8 rest 0 true
       | _ => ipv6_go 8 s 0 false
       end.

(** [net.ParseIP(s) != nil]: the first of [.], [:] and [%] decides the family. *)
Fixpoint ip_family (s whole : string) : bool :=
  match s with
  | EmptyString => false
  | String "." _ => parseIPv4Fields whole
  | String ":" _ => parseIPv6 whole
  | String "%" _ => false
  | String _ rest => ip_family rest whole
  end.
Definition ParseIP_ok (s : string) : bool := ip_family s s.

Example ip_examples :
  ParseIP_ok <$> ["10.0.0.1"; "::"; "::1"; "fe80::1:2"; "1:2:3:4:5:6:7:8"; "::ffff:1.2.3.4"] =
    [true; true; true; true; true; true] ∧
  ParseIP_ok <$> [""; "host"; "10.0.0"; "10.0.0.01"; "256.0.0.1"; "1:2:3:4:5:6:7::8"; "fe80::1%eth0";
                  "1::2::3"; "1.2.3.4.5"; "12345::"; "1:2:3:4:5:6:7:8:9"] =
    [false; false; false; false; false; false; false; false; false; false; false].
Proof. split; vm_compute; reflexivity. Qed.
