(* ===== verification/Connector.v ===== *)
(** Model of [src/pkg/sshproxy/connector.go]: from a bound External target to an authenticated
    upstream SSH transport.  The network and the SSH client of [golang.org/x/crypto/ssh] are the
    class [SSHClient]; what the connector opens and closes is a log. *)

From S2P Require Import Prelude GoStrings GoStrconv GoNet Kube Target Authn AccessStore AccessResolver.

(** Parsed signing keys, dialling, deadlines and the client handshake.  [hostKeyOf] is the key the
    server proved to own during the handshake. *)
Class SSHClient `{SSHKeys} := {
  Signer : Type;
  ParsePrivateKey : string → result Signer;
  RawConn : Type;
  SSHConn : Type;
  DialTCP : string → result RawConn;
  SetDeadline : RawConn → option error;
  ClearDeadline : RawConn → option error;
  hostKeyOf : SSHConn → PublicKey;
  IsDNS1123Subdomain : string → bool;
}.

Section Connector.
Context `{SSHClient}.

(** ** Authentication and trust material *)

(** [PublicKeys(signers...)], or [RetryableAuthMethod(PasswordCallback(...), maxTries)] with the
    passwords the callback walks through. *)
Inductive AuthMethod :=
| PublicKeys (signers : list Signer)
| RetryablePasswords (passwords : list string) (maxTries : nat).

(** Call number [next] of the password callback: an index out of range panics. *)
Definition passwordCallback (passwords : list string) (next : nat) : result string :=
  match passwords !! next with
  | Some password => Ok password
  | None => Err (EPanic "index out of range")
  end.

(** [RetryableAuthMethod] runs its method again after a failure: at most [maxTries] times in one use,
    and without a bound when [maxTries] is not positive.  [tries] is the number of runs so far. *)
Definition retry_allows (maxTries tries : nat) : bool := bool_decide (maxTries = 0) || bool_decide (tries < maxTries).

Definition HostKeyCallback : Type := PublicKey → option error.

Record ClientConfig := mkClientConfig {
  cc_User : string;
  cc_Auth : list AuthMethod;
  cc_HostKeyCallback : HostKeyCallback;
}.

(** [NewClientConn]: an argument, with its contract stated at the theorem that needs it. *)
Context (NewClientConn : RawConn → string → ClientConfig → result SSHConn).
(** The [Source] interface. *)
Context (Get : AccessGetter) (SourceSecretValue : string → LocalSecretKeyRef → result string).

Definition findEndpoint (endpoints : list AccessEndpoint) (name : string) : option AccessEndpoint :=
  find_first (fun e => bool_decide (ep_Name e = name)) endpoints.

Definition splitLines (value : string) : list string :=
  filter (fun line => line ≠ "") (TrimSpace <$> Split value LF).

Definition endpointAddress (endpoint : AccessEndpoint) : result string :=
  if negb (ParseIP_ok (ep_Address endpoint)) && negb (IsDNS1123Subdomain (ep_Address endpoint))
  then Err (Errorf "address must be a DNS name or IP" [])
  else Ok (JoinHostPort (ep_Address endpoint) (Itoa (ep_Port endpoint))).

(** Append the value of every reference, the loops over [...From]. *)
Definition append_refs (namespace : string) (f : string → list string) (acc : list string)
    (refs : list LocalSecretKeyRef) : result (list string) :=
  foldM (fun acc ref => value ← SourceSecretValue namespace ref; Ok (acc ++ f value)) acc refs.

Definition parse_all {A} (parse : string → result A) (format : string) (values : list string)
    : result (list A) :=
  foldM (fun acc value => match parse value with
                          | Err e => Err (Wrapf format [] e)
                          | Ok a => Ok (acc ++ [a])
                          end) [] values.

Definition authMethod (namespace : string) (endpoint : AccessEndpoint) : result AuthMethod :=
  if bool_decide (0 < length (ep_PrivateKeys endpoint)) ||
     bool_decide (0 < length (ep_PrivateKeysFrom endpoint))
  then
    privateKeys ← append_refs namespace (fun v => [v]) (ep_PrivateKeys endpoint)
                    (ep_PrivateKeysFrom endpoint);
    signers ← parse_all ParsePrivateKey "parse private key: %w" privateKeys;
    Ok (PublicKeys signers)
  else
    passwords ← append_refs namespace (fun v => [v]) (ep_Passwords endpoint) (ep_PasswordsFrom endpoint);
    Ok (RetryablePasswords passwords (length passwords)).

Definition hostKeyCallback (namespace : string) (endpoint : AccessEndpoint) : result HostKeyCallback :=
  if ep_InsecureSkipVerification endpoint then Ok (fun _ => None)
  else
    lines ← append_refs namespace splitLines (ep_PublicKeys endpoint) (ep_PublicKeysFrom endpoint);
    keys ← parse_all ParseAuthorizedKey "parse public key: %w" lines;
    if bool_decide (length keys = 0)
    then Err (Errorf "at least one public key is required unless insecureSkipVerification is true" [])
    else Ok (fun presented =>
      if existsb (fun expected => bool_decide (MarshalKey expected = MarshalKey presented)) keys
      then None
      else Some (Errorf "upstream host key %s is not pinned" [FingerprintSHA256 presented])).

Record endpointConfig := mkEndpointConfig {
  cfg_address : string;
  cfg_auth : AuthMethod;
  cfg_hostKey : HostKeyCallback;
}.

Definition wrap_endpoint {A} (what : string) (endpoint : AccessEndpoint) (r : result A) : result A :=
  match r with
  | Ok a => Ok a
  | Err e => Err (Wrapf ("load endpoint %q " +:+ what +:+ ": %w") [ep_Name endpoint] e)
  end.

Definition endpoint_config (namespace : string) (endpoint : AccessEndpoint) : result endpointConfig :=
  address ← wrap_endpoint "address" endpoint (endpointAddress endpoint);
  auth ← wrap_endpoint "authentication" endpoint (authMethod namespace endpoint);
  hostKey ← wrap_endpoint "host keys" endpoint (hostKeyCallback namespace endpoint);
  Ok (mkEndpointConfig address auth hostKey).

(** ** [Connect] *)

Inductive netEffect :=
| Dialed (raw : RawConn) (address : string)
| RawClosed (raw : RawConn)
| HandshakeDone (raw : RawConn) (conn : SSHConn) (config : ClientConfig)
| SSHClosed (conn : SSHConn).

Definition resolveEndpoint (tgt : option Target) : result (AccessEndpoint * endpointConfig) :=
  bound ← parseTarget tgt;
  access ← match Get (bt_Namespace bound) (bt_Access bound) with
           | Ok access => Ok access
           | Err e => Err (Wrapf "get External Access: %w" [] e)
           end;
  if bool_decide (acc_UID access ≠ bt_AccessUID bound) ||
     bool_decide (acc_Generation access ≠ bt_Generation bound)
  then Err (EStatus Conflict "external Access %s/%s changed after target resolution"
              [bt_Namespace bound; bt_Access bound])
  else if bool_decide (spec_Type (acc_Spec access) ≠ AccessTypeExternal)
  then Err (Errorf "access %s/%s is not External" [bt_Namespace bound; bt_Access bound])
  else match findEndpoint (spec_Endpoints (acc_Spec access)) (bt_Endpoint bound) with
       | None => Err (Errorf "endpoint %q no longer exists in Access %s/%s"
                        [bt_Endpoint bound; bt_Namespace bound; bt_Access bound])
       | Some endpoint =>
           config ← endpoint_config (acc_Namespace access) endpoint;
           Ok (endpoint, config)
       end.

Definition Connect (tgt : option Target) : result SSHConn * list netEffect :=
  match resolveEndpoint tgt with
  | Err e => (Err e, [])
  | Ok (endpoint, config) =>
      match DialTCP (cfg_address config) with
      | Err e => (Err (Wrapf "dial endpoint %q: %w" [ep_Name endpoint] e), [])
      | Ok conn =>
          let log := [Dialed conn (cfg_address config)] in
          match SetDeadline conn with
          | Some e => (Err (Wrapf "set endpoint %q handshake deadline: %w" [ep_Name endpoint] e),
                       log ++ [RawClosed conn])
          | None =>
              let client := mkClientConfig (ep_Username endpoint) [cfg_auth config] (cfg_hostKey config) in
              match NewClientConn conn (cfg_address config) client with
              | Err e => (Err (Wrapf "authenticate endpoint %q: %w" [ep_Name endpoint] e),
                          log ++ [RawClosed conn])
              | Ok sshConn =>
                  let log := log ++ [HandshakeDone conn sshConn client] in
                  match ClearDeadline conn with
                  | Some e => (Err (Wrapf "clear endpoint %q handshake deadline: %w"
                                      [ep_Name endpoint] e), log ++ [SSHClosed sshConn])
                  | None => (Ok sshConn, log)
                  end
              end
          end
      end
  end.
End Connector.

(** ** What a connection rests on *)

Section Pinned.
Context `{SSHClient} (NewClientConn : RawConn → string → ClientConfig → result SSHConn).
Context (Get : AccessGetter) (SourceSecretValue : string → LocalSecretKeyRef → result string).

(** A value the endpoint declares, inline or through a Secret of the Access's namespace. *)
Definition declared (namespace : string) (f : string → list string) (inline : list string)
    (refs : list LocalSecretKeyRef) (v : string) : Prop :=
  v ∈ inline ∨ ∃ ref value, ref ∈ refs ∧ SourceSecretValue namespace ref = Ok value ∧ v ∈ f value.

Lemma append_refs_declared ns f acc refs vs v :
  append_refs SourceSecretValue ns f acc refs = Ok vs → v ∈ vs → declared ns f acc refs v.
Proof.
  unfold append_refs. revert acc. induction refs as [|ref refs IH]; intros acc; simpl.
  - intros [= <-] Hv. by left.
  - rewrite result_bind_Ok. intros (acc' & Hacc & Hrest) Hv.
    apply result_bind_Ok in Hacc as (value & Hval & [= <-]).
    destruct (IH _ Hrest Hv) as [Hin|(ref' & value' & Hr & Hs & Hin)].
    + apply elem_of_app in Hin as [Hin|Hin]; [by left|right].
      exists ref, value. split_and!; [left|done|done].
    + right. exists ref', value'. split_and!; [by right|done|done].
Qed.

Lemma parse_all_spec {A} (parse : string → result A) fmt vs rs r :
  parse_all parse fmt vs = Ok rs → r ∈ rs → ∃ v, v ∈ vs ∧ parse v = Ok r.
Proof.
  unfold parse_all. cut (∀ acc, foldM (fun acc value => match parse value with
      | Err e => Err (Wrapf fmt [] e) | Ok a => Ok (acc ++ [a]) end) acc vs = Ok rs → r ∈ rs →
      r ∈ acc ∨ ∃ v, v ∈ vs ∧ parse v = Ok r).
  { intros Hgen Hf Hr. destruct (Hgen [] Hf Hr) as [Hin|?]; [by apply elem_of_nil in Hin|done]. }
  induction vs as [|v vs IH]; intros acc; simpl; [intros [= ->] ?; by left|].
  destruct (parse v) as [a|e] eqn:Hp; simpl; [|done]. intros Hf Hr.
  destruct (IH _ Hf Hr) as [[Hin|Hin%list_elem_of_singleton]%elem_of_app|(w & Hw & Hpw)].
  - by left.
  - subst. right. exists v. split; [left|done].
  - right. exists w. split; [by right|done].
Qed.

(** The credentials an authentication method offers are the endpoint's own.  Every password that the
    callback hands out is declared; it hands out one exactly for the first calls, as many as there are
    passwords, and panics after them; and an endpoint that declares a password has one for every run
    that one use of the method makes. *)
Definition auth_declared (namespace : string) (e : AccessEndpoint) (auth : AuthMethod) : Prop :=
  match auth with
  | PublicKeys signers => ∀ signer, signer ∈ signers → ∃ v,
      declared namespace (fun v => [v]) (ep_PrivateKeys e) (ep_PrivateKeysFrom e) v ∧
      ParsePrivateKey v = Ok signer
  | RetryablePasswords passwords maxTries =>
      (∀ next v, passwordCallback passwords next = Ok v →
         declared namespace (fun v => [v]) (ep_Passwords e) (ep_PasswordsFrom e) v) ∧
      (∀ next, is_ok (passwordCallback passwords next) = true ↔ next < length passwords) ∧
      (ep_Passwords e ≠ [] ∨ ep_PasswordsFrom e ≠ [] →
         ∀ next, retry_allows maxTries next = true → is_ok (passwordCallback passwords next) = true)
  end.

Lemma append_refs_length ns f acc refs vs :
  (∀ v, f v ≠ []) → append_refs SourceSecretValue ns f acc refs = Ok vs →
  acc ≠ [] ∨ refs ≠ [] → vs ≠ [].
Proof.
  intros Hf. unfold append_refs. revert acc. induction refs as [|ref refs IH]; intros acc; simpl.
  - intros [= <-] [?|?]; done.
  - rewrite result_bind_Ok. intros (acc' & Hacc & Hrest) _.
    apply result_bind_Ok in Hacc as (value & _ & [= <-]).
    apply (IH _ Hrest). left. specialize (Hf value). destruct acc; [done|]. by simpl.
Qed.

Lemma passwordCallback_ok passwords next :
  is_ok (passwordCallback passwords next) = true ↔ next < length passwords.
Proof.
  unfold passwordCallback. rewrite <-lookup_lt_is_Some. destruct (passwords !! next) as [v|]; split; try done.
Qed.

Lemma authMethod_declared ns e auth :
  authMethod SourceSecretValue ns e = Ok auth → auth_declared ns e auth.
Proof.
  unfold authMethod. case_match.
  - rewrite result_bind_Ok. intros (pks & Hpks & Hs). apply result_bind_Ok in Hs as (ss & Hss & [= <-]).
    intros s Hs. destruct (parse_all_spec _ _ _ _ _ Hss Hs) as (v & Hv & Hp).
    exists v. split; [|done]. by eapply append_refs_declared.
  - rewrite result_bind_Ok. intros (ps & Hps & [= <-]). split_and!; [|apply passwordCallback_ok|].
    + intros next v. unfold passwordCallback. destruct (ps !! next) as [w|] eqn:Hw; [|done]. intros [= <-].
      eapply append_refs_declared; [done|]. by eapply list_elem_of_lookup_2.
    + intros Hne next Hn. apply passwordCallback_ok.
      assert (ps ≠ []) as Hps' by (eapply append_refs_length; [|exact Hps|exact Hne]; by intros v).
      unfold retry_allows in Hn. apply orb_true_iff in Hn as [Hn|Hn]; apply bool_decide_eq_true in Hn; [|done].
      by apply length_zero_iff_nil in Hn.
Qed.

(** An endpoint without keys and passwords panics.  The connector makes a password method of no
    passwords for it, which may be tried without a bound, and the first time the server asks for a
    password the callback's index is out of range.  The schema of the resource excludes such an
    endpoint; the connector itself does not. *)
Theorem no_credentials_panics ns e :
  ep_PrivateKeys e = [] → ep_PrivateKeysFrom e = [] → ep_Passwords e = [] → ep_PasswordsFrom e = [] →
  ∃ maxTries, authMethod SourceSecretValue ns e = Ok (RetryablePasswords [] maxTries) ∧
    ∀ next, retry_allows maxTries next = true ∧
            passwordCallback [] next = Err (EPanic "index out of range").
Proof. intros H1 H2 H3 H4. exists 0. unfold authMethod. rewrite H1, H2, H3, H4. done. Qed.

Definition pinned (namespace : string) (e : AccessEndpoint) (key : PublicKey) : Prop :=
  ∃ line expected, declared namespace splitLines (ep_PublicKeys e) (ep_PublicKeysFrom e) line ∧
    ParseAuthorizedKey line = Ok expected ∧ MarshalKey expected = MarshalKey key.

Lemma hostKeyCallback_pinned ns e cb key :
  hostKeyCallback SourceSecretValue ns e = Ok cb → cb key = None →
  ep_InsecureSkipVerification e = true ∨ pinned ns e key.
Proof.
  unfold hostKeyCallback. case_match; [by left|]. rewrite result_bind_Ok.
  intros (lines & Hlines & Hk). apply result_bind_Ok in Hk as (keys & Hkeys & Hk).
  case_match; [done|]. injection Hk as <-. case_match eqn:Hex; [|done]. intros _. right.
  apply existsb_exists in Hex as (ex & Hin%list_elem_of_In & Hb). apply bool_decide_eq_true in Hb.
  destruct (parse_all_spec _ _ _ _ _ Hkeys Hin) as (line & Hl & Hp).
  exists line, ex. split_and!; [|done|done]. by eapply append_refs_declared.
Qed.

Definition current_endpoint (bound : boundTarget) (access : Access) (e : AccessEndpoint) : Prop :=
  Get (bt_Namespace bound) (bt_Access bound) = Ok access ∧
  acc_UID access = bt_AccessUID bound ∧ acc_Generation access = bt_Generation bound ∧
  spec_Type (acc_Spec access) = AccessTypeExternal ∧
  e ∈ spec_Endpoints (acc_Spec access) ∧ ep_Name e = bt_Endpoint bound.

Lemma resolveEndpoint_Ok tgt e cfg :
  resolveEndpoint Get SourceSecretValue tgt = Ok (e, cfg) →
  ∃ bound access, parseTarget tgt = Ok bound ∧ current_endpoint bound access e ∧
    cfg_address cfg = JoinHostPort (ep_Address e) (Itoa (ep_Port e)) ∧
    auth_declared (acc_Namespace access) e (cfg_auth cfg) ∧
    hostKeyCallback SourceSecretValue (acc_Namespace access) e = Ok (cfg_hostKey cfg).
Proof.
  unfold resolveEndpoint. rewrite result_bind_Ok. intros (bound & Hb & Hr).
  destruct (Get _ _) as [access|] eqn:Hget; simpl in Hr; [|done].
  destruct (bool_decide _ || bool_decide _) eqn:Hsame; [done|].
  apply orb_false_iff in Hsame as [Huid Hgen].
  apply bool_decide_eq_false, dec_stable in Huid, Hgen.
  destruct (bool_decide (spec_Type _ ≠ _)) eqn:Hty; [done|].
  apply bool_decide_eq_false, dec_stable in Hty.
  destruct (findEndpoint _ _) as [ep|] eqn:Hf; [|done].
  apply result_bind_Ok in Hr as (c & Hc & [= -> ->]).
  apply find_first_Some in Hf as [Hin Hname]. apply bool_decide_eq_true in Hname.
  unfold endpoint_config, wrap_endpoint, endpointAddress in Hc.
  destruct (negb (ParseIP_ok _) && _); simpl in Hc; [done|].
  destruct (authMethod _ _ _) as [auth|] eqn:Ha; simpl in Hc; [|done].
  destruct (hostKeyCallback _ _ _) as [hk|] eqn:Hh; simpl in Hc; [|done].
  injection Hc as <-. exists bound, access. simpl. unfold current_endpoint.
  split_and!; try done. by apply authMethod_declared.
Qed.

(** The documented contract of [NewClientConn]: the handshake fails unless the callback accepts the
    key the server proved to own. *)
Definition host_key_checked : Prop :=
  ∀ raw address config conn, NewClientConn raw address config = Ok conn →
    cc_HostKeyCallback config (hostKeyOf conn) = None.

(** C39: the upstream connector talks only to the endpoint the target was bound to and only with
    the credentials and the trust that endpoint declares.  A connection exists only if the current
    Access still has the UID and generation seen at resolution, is External and has the endpoint;
    the transport was dialled to that endpoint's address and authenticated as its user with its
    own keys or passwords, of which there is one for every try when the endpoint declares any (see
    [no_credentials_panics] for one that declares none); and the server's host key is one of the keys
    the endpoint declares, unless the endpoint sets insecureSkipVerification, which accepts any.  On
    every failure what was opened is closed again. *)
Theorem Connect_pinned tgt :
  host_key_checked → match Connect NewClientConn Get SourceSecretValue tgt with
  | (Ok conn, log) => ∃ bound access e raw auth hostKey,
      parseTarget tgt = Ok bound ∧ current_endpoint bound access e ∧
      log = [Dialed raw (JoinHostPort (ep_Address e) (Itoa (ep_Port e)));
             HandshakeDone raw conn (mkClientConfig (ep_Username e) [auth] hostKey)] ∧
      auth_declared (acc_Namespace access) e auth ∧
      (ep_InsecureSkipVerification e = false → pinned (acc_Namespace access) e (hostKeyOf conn))
  | (Err _, log) => log = [] ∨
      (∃ raw address, log = [Dialed raw address; RawClosed raw]) ∨
      (∃ raw address conn config,
         log = [Dialed raw address; HandshakeDone raw conn config; SSHClosed conn])
  end.
Proof.
  intros Hcheck. unfold Connect. destruct (resolveEndpoint _ _ _) as [[e cfg]|] eqn:Hr; [|by left].
  apply resolveEndpoint_Ok in Hr as (bound & access & Hb & Hcur & Haddr & Hauth & Hhk).
  destruct (DialTCP _) as [raw|] eqn:Hd; [|by left].
  destruct (SetDeadline raw); [right; left; by eexists _, _|].
  destruct (NewClientConn _ _ _) as [conn|] eqn:Hn; [|right; left; by eexists _, _].
  destruct (ClearDeadline raw); [right; right; by eexists _, _, _, _|].
  exists bound, access, e, raw, (cfg_auth cfg), (cfg_hostKey cfg). rewrite Haddr.
  split_and!; [done..|]. intros Hv.
  destruct (hostKeyCallback_pinned _ _ _ _ Hhk (Hcheck _ _ _ _ Hn)) as [?|?]; [congruence|done].
Qed.
End Pinned.

(** A client whose servers present their own address as host key. *)
Definition toy_client : @SSHClient toy_keys :=
  @Build_SSHClient toy_keys string (fun s => Ok s) string string (fun a => Ok a) (fun _ => None)
    (fun _ => None) (fun c => c) (fun _ => true).
Definition toy_handshake (raw address : string) (config : @ClientConfig toy_keys toy_client)
    : result string :=
  match cc_HostKeyCallback config raw with None => Ok raw | Some e => Err e end.
Definition demo_external : Access :=
  mkAccess "team" "ext" "uid-9" 3 0
    (mkSpec None AccessTypeExternal ∅
       [mkEndpoint "node" "node.local" 22 "root" None [] [] ["pw"] [] ["node.local:22"] [] false]
       None None [] []) (acc_Status (pod_access "ns" "x" [])).

Lemma Connect_pinned_witness :
  ∃ log, @Connect toy_keys toy_client toy_handshake (fun _ _ => Ok demo_external)
           (fun _ _ => Err (EExternal "no secret")) (Some (NewTarget demo_external "node")) =
         (Ok "node.local:22", log) ∧ length log = 2.
Proof.
  pose proof (@Connect_pinned toy_keys toy_client toy_handshake (fun _ _ => Ok demo_external)
    (fun _ _ => Err (EExternal "no secret")) (Some (NewTarget demo_external "node"))) as Hpin.
  assert (∃ log, @Connect toy_keys toy_client toy_handshake (fun _ _ => Ok demo_external)
           (fun _ _ => Err (EExternal "no secret")) (Some (NewTarget demo_external "node")) =
         (Ok "node.local:22", log)) as [log Hlog] by (eexists; vm_compute; reflexivity).
  exists log. split; [exact Hlog|]. rewrite Hlog in Hpin.
  destruct Hpin as (? & ? & ? & ? & ? & ? & _ & _ & -> & _).
  - intros raw address config conn. unfold toy_handshake. simpl.
    destruct (cc_HostKeyCallback config raw) eqn:E; [discriminate|]. intros Hok.
    injection Hok as <-. exact E.
  - reflexivity.
Defined.
