(* ===== verification/SSHProxy.v ===== *)
(** Model of [src/pkg/sshproxy/proxy.go] and [protocol.go]: the proxy between a client connection
    and an upstream SSH server.

    The code runs as goroutines that share the proxy's maps under a mutex.  Every function is a
    program over [call]s: a call is either one locked region of the shared state or one effect on
    the outside (the operation callback, a message to a peer), and a step of the system runs one
    call of one goroutine, so that all interleavings of locked regions are covered.  Answers of the
    outside are arbitrary.  Finish functions are numbered in the order [begin] returns them.

    [cryptossh.Unmarshal] is the class [SSHWire]. *)

From S2P Require Import Prelude GoStrings GoStrconv Kube Target Authn AccessStore AccessResolver Authz Operation.

(** ** Wire data *)

Record channelForwardData := mkChannelForward {
  cfd_Host : string; cfd_Port : Z; cfd_OriginHost : string; cfd_OriginPort : Z;
}.
Record globalForwardData := mkGlobalForward { gfd_Host : string; gfd_Port : Z }.

(** Decoding of the payload structs: [None] is a decoding error. *)
Class SSHWire := {
  Unmarshal_channelForward : string → option channelForwardData;
  Unmarshal_globalForward : string → option globalForwardData;
  Unmarshal_value : string → option string;
  Unmarshal_keyValue : string → option (string * string);
  Unmarshal_uint32 : string → option Z;
}.

Definition unmarshalError : error := EExternal "ssh: unmarshal error".

Definition channel_operation (channelType : string) : Operation :=
  mkOperation channelType "" "" "" "" 0 "" 0 "" 0.
Definition request_operation (requestType : string) : Operation :=
  mkOperation "" requestType "" "" "" 0 "" 0 "" 0.
Definition session_operation (requestType command subsystem : string) : Operation :=
  mkOperation ChannelSession requestType command subsystem "" 0 "" 0 "" 0.
Definition forward_operation (host : string) (port : Z) : Operation :=
  mkOperation "" RequestTCPIPForward "" "" "" 0 "" 0 host port.

Definition result_of (err : option error) : OperationResult := mkOperationResult err None None.

(** ** Pure parts: what each message asks for *)

Section Plans.
Context `{SSHWire} (envAllowed : string → bool).

Definition parseChannelOperation (channelType payload : string) : result (option Operation) :=
  if bool_decide (channelType = ChannelSession) then Ok None
  else if bool_decide (channelType = ChannelDirectTCPIP)
  then match Unmarshal_channelForward payload with
       | None => Err (Wrapf "parse direct-tcpip request: %w" [] unmarshalError)
       | Some data => Ok (Some (mkOperation channelType "" "" "" (cfd_Host data) (cfd_Port data)
                                  (cfd_OriginHost data) (cfd_OriginPort data) "" 0))
       end
  else Ok (Some (channel_operation channelType)).

Definition forwardKey (data : globalForwardData) : string :=
  JoinHostPort (gfd_Host data) (uint_str (gfd_Port data)).

Record globalRequestPlan := mkGlobalPlan {
  gp_operation : option Operation;
  gp_forwardKey : string;
}.

Definition planGlobalRequest (requestType payload : string) : result globalRequestPlan :=
  if bool_decide (requestType = RequestTCPIPForward)
  then match Unmarshal_globalForward payload with
       | None => Err (Wrapf "parse tcpip-forward request: %w" [] unmarshalError)
       | Some data => Ok (mkGlobalPlan (Some (forward_operation (gfd_Host data) (gfd_Port data)))
                            (forwardKey data))
       end
  else if bool_decide (requestType = RequestCancelTCPIPForward)
  then match Unmarshal_globalForward payload with
       | None => Err (Wrapf "parse cancel-tcpip-forward request: %w" [] unmarshalError)
       | Some data => Ok (mkGlobalPlan None (forwardKey data))
       end
  else if bool_decide (requestType = RequestKeepalive) || bool_decide (requestType = RequestNoMoreSessions)
  then Ok (mkGlobalPlan None "")
  else Ok (mkGlobalPlan (Some (request_operation requestType)) "").

Definition actualRemoteForwardKey (requested payload : string) : string :=
  match SplitHostPort requested with
  | Some (host, port) =>
      if bool_decide (port ≠ "0") then requested
      else match Unmarshal_uint32 payload with
           | None => requested
           | Some p => JoinHostPort host (uint_str p)
           end
  | None => requested
  end.

Inductive downstreamRequestEffect :=
| downstreamRequestNone | downstreamRequestSession | downstreamRequestAgentForward.
Record downstreamRequestPlan := mkRequestPlan {
  rp_operation : option Operation;
  rp_effect : downstreamRequestEffect;
}.

Definition planDownstreamRequest (requestType payload : string) : result downstreamRequestPlan :=
  if bool_decide (requestType = RequestShell)
  then Ok (mkRequestPlan (Some (session_operation requestType "" "")) downstreamRequestSession)
  else if bool_decide (requestType = RequestExec)
  then match Unmarshal_value payload with
       | None => Err (Wrapf "parse exec request: %w" [] unmarshalError)
       | Some v => Ok (mkRequestPlan (Some (session_operation requestType v "")) downstreamRequestSession)
       end
  else if bool_decide (requestType = RequestSubsystem)
  then match Unmarshal_value payload with
       | None => Err (Wrapf "parse subsystem request: %w" [] unmarshalError)
       | Some v => Ok (mkRequestPlan (Some (session_operation requestType "" v)) downstreamRequestSession)
       end
  else if bool_decide (requestType = RequestAgentForward)
  then Ok (mkRequestPlan (Some (session_operation requestType "" "")) downstreamRequestAgentForward)
  else if bool_decide (requestType = RequestEnvironment)
  then match Unmarshal_keyValue payload with
       | None => Err (Wrapf "parse env request: %w" [] unmarshalError)
       | Some (key, _) =>
           if negb (envAllowed key) then Err (Errorf "environment variable %q is not allowed" [key])
           else Ok (mkRequestPlan None downstreamRequestNone)
       end
  else if slices_Contains [RequestPTY; RequestWindowChange; RequestSignal; RequestBreak] requestType
  then Ok (mkRequestPlan None downstreamRequestNone)
  else Ok (mkRequestPlan (Some (session_operation requestType "" "")) downstreamRequestNone).
End Plans.

(** ** Shared state *)

(** The client is downstream, the External server upstream. *)
Inductive side := Upstream | Downstream.
#[export] Instance side_eq_dec : EqDecision side.
Proof. solve_decision. Defined.

Inductive onceState := OnceNew | OnceRunning | OnceDone.

(** [proxiedChannel]: its finish function and exit code, whether the upstream requests have all
    been forwarded, and two ghosts: [serve] took the finish function; a finish function was
    registered after that. *)
Record proxiedChannel := mkProxied {
  pc_terminalRequest : bool;
  pc_finish : option nat;
  pc_exitCode : option Z;
  pc_requestsForwarded : bool;
  pc_ended : bool;
  pc_late : bool;
}.

(** What the proxy did, in order.  [EvServe] is the pairing of an accepted channel with the one that was
    opened for it. *)
Inductive event :=
| EvBegin (o : Operation) (h : option nat) (err : option error)
| EvFinish (h : nat) (r : OperationResult)
| EvOpen (to : side) (channelType extraData : string)
| EvRequest (to : side) (requestType payload : string)
| EvServe (channel : nat) (to : side) (channelType extraData : string)
| EvChannelRequest (channel : nat) (to : side) (requestType payload : string).

(** The fields of [Protocol] and [proxy], and the objects they own.  A nil map is [None];
    [lost] is a ghost: finish functions that a map update overwrote. *)
Record proxyState := mkProxy {
  protocolClosed : bool;
  proxyCreated : bool;
  connectOnce : onceState;
  upstreamSet : bool;
  connectErr : option error;
  proxyClosed : bool;
  remoteForwards : option (gmap string (option nat));
  agentForward : option nat;
  channels : list proxiedChannel;
  begun : nat;
  lost : list nat;
  log : list event;
}.

Definition newProtocol : proxyState :=
  mkProxy false false OnceNew false None false (Some ∅) None [] 0 [] [].

(** ** Calls *)

(** The goroutines of a connection. *)
Inductive label :=
| GlobalRequests
| ClientChannel (channelType extraData : string)
| ProtocolClose
| UpstreamChannels
| UpstreamRequests
| UpstreamWait
| ServeChannel (channel : nat)
| ForwardRequests (channel : nat) (from : side).

(** An SSH request as read from a request stream; [None] is the end of the stream. *)
Record SSHRequest := mkSSHRequest { rq_Type : string; rq_WantReply : bool; rq_Payload : string }.

(** Why a channel is rejected. *)
Inductive rejection := Prohibited | ConnectionFailed | PeerReason (reason : Z).
Inductive openResult := Opened | OpenRefused (reason : Z) (message : string) | OpenFailed (err : error).
(** [ioproxy.Proxy] returns nil when the context is cancelled, or the first error once both
    directions are done and a terminal channel's requests have been forwarded. *)
Inductive proxyOutcome := ProxyCancelled | ProxyDone (err : option error).
Inductive published := PublishedError | PublishedClosed | PublishedUpstream.

Inductive call :=
(* the outside *)
| Begin (o : Operation)
| Finish (h : nat) (r : OperationResult)
| Dial
| CloseTransport (which : side)
| OpenChannel (to : side) (channelType extraData : string)
| AcceptChannel (from : side)
| RejectChannel (from : side) (why : rejection) (message : string)
| CloseOpened (which : side)
| SendRequest (to : side) (r : SSHRequest)
| SendChannelRequest (channel : nat) (to : side) (r : SSHRequest)
| Reply (from : side) (accepted : bool) (payload : string)
| ReceiveRequest
| ReceiveChannel
| WaitTransport
| ProxyStreams (channel : nat)
| Go_ (l : label)
| Panic
(* locked regions *)
| ConnectionProxy
| CloseProtocol
| OnceEnter
| PublishUpstream (dialed : option error)
| OnceExit
| ReadUpstream
| CloseProxy
| HasRemoteForward (key : string)
| AddRemoteForward (key : string) (finish : option nat)
| RemoveRemoteForward (key : string)
| HasAgentForward
| SetAgentForward (finish : nat)
| NewChannel (finish : option nat) (to : side) (channelType extraData : string)
| RecordExit (channel : nat) (code : Z)
| ReplaceFinish (channel : nat) (finish : nat)
| RequestsForwarded (channel : nat)
| TakeFinish (channel : nat).

Definition resp (c : call) : Type :=
  match c with
  | Begin _ => option nat * option error
  | Dial => option error
  | OpenChannel _ _ _ => openResult
  | AcceptChannel _ => option error
  | SendRequest _ _ => result (bool * string)
  | SendChannelRequest _ _ _ => result bool
  | ReceiveRequest => option SSHRequest
  | ReceiveChannel => option (string * string)
  | ProxyStreams _ => proxyOutcome
  | ConnectionProxy => bool
  | CloseProtocol => bool
  | OnceEnter => bool
  | PublishUpstream _ => published
  | ReadUpstream => option error * bool
  | CloseProxy => option (bool * list nat)
  | HasRemoteForward _ => bool
  | AddRemoteForward _ _ => bool
  | RemoveRemoteForward _ => option nat
  | HasAgentForward => bool
  | SetAgentForward _ => bool * option nat
  | NewChannel _ _ _ _ => nat
  | ReplaceFinish _ _ => option nat
  | TakeFinish _ => option nat * option Z
  | _ => unit
  end.

Inductive prog (A : Type) : Type :=
| Ret (a : A)
| Call (c : call) (k : resp c → prog A).
Arguments Ret {A} a.
Arguments Call {A} c k.

Fixpoint prog_bind_ {A B} (f : A → prog B) (p : prog A) : prog B :=
  match p with
  | Ret a => f a
  | Call c k => Call c (fun r => prog_bind_ f (k r))
  end.
#[export] Instance prog_ret : MRet prog := @Ret.
#[export] Instance prog_bind : MBind prog := @prog_bind_.

Definition do (c : call) : prog (resp c) := Call c Ret.
Definition when (b : bool) (p : prog unit) : prog unit := if b then p else mret tt.
Fixpoint each {A} (f : A → prog unit) (l : list A) : prog unit :=
  match l with
  | [] => mret tt
  | x :: l => f x;; each f l
  end.

(** ** The functions of [proxy.go] *)

Section Proxy.
Context `{SSHWire} (envAllowed : string → bool).
(** [err.Error()]. *)
Context (error_string : error → string).

Definition proxy_finish (h : option nat) (r : OperationResult) : prog unit :=
  match h with
  | None => mret tt
  | Some h => do (Finish h r)
  end.

Definition beginOperation (operation : option Operation) : prog (result (option nat)) :=
  match operation with
  | None => mret (Ok None)
  | Some operation =>
      '(h, err) ← do (Begin operation);
      match err with
      | Some e => proxy_finish h (result_of None);; mret (Err e)
      | None => mret (Ok h)
      end
  end.

Definition close : prog unit :=
  closed ← do CloseProxy;
  match closed with
  | None => mret tt
  | Some (upstream, finishes) =>
      when upstream (do (CloseTransport Upstream));;
      do (CloseTransport Downstream);;
      each (fun h => do (Finish h (result_of (Some (ESentinel context_Canceled))))) finishes
  end.

(** [connect]: the upstream is dialled once; others wait for the first caller. *)
Definition connect : prog (option error * bool) :=
  first ← do OnceEnter;
  when first (
    dialed ← do Dial;
    p ← do (PublishUpstream dialed);
    match p with
    | PublishedError => mret tt
    | PublishedClosed => do (CloseTransport Upstream)
    | PublishedUpstream =>
        do (Go_ UpstreamChannels);; do (Go_ UpstreamRequests);; do (Go_ UpstreamWait)
    end;;
    do OnceExit);;
  do ReadUpstream.

Definition addRemoteForward (key : string) (h : option nat) : prog unit :=
  added ← do (AddRemoteForward key h);
  when (negb added) (proxy_finish h (result_of (Some (ESentinel context_Canceled)))).

Definition removeRemoteForward (key : string) (r : OperationResult) : prog unit :=
  h ← do (RemoveRemoteForward key);
  proxy_finish h r.

Definition setAgentForward (h : nat) : prog unit :=
  '(set, previous) ← do (SetAgentForward h);
  if (set : bool)
  then proxy_finish previous (result_of (Some (Errorf "agent forwarding was requested more than once" [])))
  else proxy_finish (Some h) (result_of (Some (ESentinel context_Canceled))).

Definition replaceFinish (channel h : nat) : prog unit :=
  previous ← do (ReplaceFinish channel h);
  proxy_finish previous
    (result_of (Some (Errorf "another session operation started on the same channel" []))).

(** [handleChannel]. *)
Definition handleChannel (channelType extraData : string) : prog unit :=
  match parseChannelOperation channelType extraData with
  | Err e => do (RejectChannel Downstream ConnectionFailed (error_string e))
  | Ok operation =>
      begun ← beginOperation operation;
      match begun with
      | Err e => do (RejectChannel Downstream Prohibited (error_string e))
      | Ok h =>
          '(err, upstream) ← connect;
          match err with
          | Some e =>
              proxy_finish h (result_of (Some e));;
              do (RejectChannel Downstream ConnectionFailed "upstream SSH connection failed");;
              close
          | None =>
              if negb upstream then do Panic
              else
                opened ← do (OpenChannel Upstream channelType extraData);
                match opened with
                | OpenRefused reason message =>
                    proxy_finish h (result_of (Some (EExternal "ssh: open channel")));;
                    do (RejectChannel Downstream (PeerReason reason) message)
                | OpenFailed e =>
                    proxy_finish h (result_of (Some e));;
                    do (RejectChannel Downstream ConnectionFailed "upstream rejected channel")
                | Opened =>
                    accepted ← do (AcceptChannel Downstream);
                    match accepted with
                    | Some e => do (CloseOpened Upstream);; proxy_finish h (result_of (Some e))
                    | None =>
                        channel ← do (NewChannel h Upstream channelType extraData);
                        do (Go_ (ServeChannel channel))
                    end
                end
          end
      end
  end.

(** [handleRequest]: the answer given to the client. *)
Definition handleRequest (request : SSHRequest) : prog (bool * string) :=
  match planGlobalRequest (rq_Type request) (rq_Payload request) with
  | Err _ => mret (false, "")
  | Ok plan =>
      begun ← beginOperation (gp_operation plan);
      match begun with
      | Err _ => mret (false, "")
      | Ok h =>
          let isForward := bool_decide (rq_Type request = RequestTCPIPForward) in
          let isCancel := bool_decide (rq_Type request = RequestCancelTCPIPForward) in
          exists_ ← (if isForward then do (HasRemoteForward (gp_forwardKey plan)) else mret false);
          if (exists_ : bool)
          then proxy_finish h (result_of (Some (Errorf "remote forward already exists" [])));; mret (false, "")
          else
            known ← (if isCancel then do (HasRemoteForward (gp_forwardKey plan)) else mret true);
            if negb known then mret (false, "")
            else
              '(err, upstream) ← connect;
              match err with
              | Some e => proxy_finish h (result_of (Some e));; close;; mret (false, "")
              | None =>
                  if negb upstream then do Panic;; mret (false, "")
                  else
                    sent ← do (SendRequest Upstream request);
                    match sent with
                    | Err e => proxy_finish h (result_of (Some e));; mret (false, "")
                    | Ok (ok, payload) =>
                        if rq_WantReply request && negb ok
                        then
                          proxy_finish h (result_of (Some (Errorf "upstream rejected %s" [rq_Type request])));;
                          mret (false, payload)
                        else
                          h ← (if isForward
                               then
                                 addRemoteForward
                                   (actualRemoteForwardKey (gp_forwardKey plan) payload) h;;
                                 mret None
                               else if isCancel
                               then removeRemoteForward (gp_forwardKey plan) (result_of None);; mret h
                               else mret h);
                          proxy_finish h (result_of None);;
                          mret (negb (rq_WantReply request) || ok, payload)
                    end
              end
      end
  end.

Definition operationForUpstreamChannel (channelType extraData : string)
    : prog (result (option Operation)) :=
  if bool_decide (channelType = ChannelForwardedTCPIP)
  then match Unmarshal_channelForward extraData with
       | None => mret (Err (Wrapf "parse forwarded-tcpip channel: %w" [] unmarshalError))
       | Some data =>
           known ← do (HasRemoteForward (JoinHostPort (cfd_Host data) (uint_str (cfd_Port data))));
           if negb known
           then mret (Err (Errorf "forwarded-tcpip channel has no authorized remote forward" []))
           else mret (Ok None)
       end
  else if bool_decide (channelType = ChannelAgent)
  then
    set ← do HasAgentForward;
    if negb set then mret (Err (Errorf "agent forwarding was not authorized" [])) else mret (Ok None)
  else mret (Ok (Some (channel_operation channelType))).

(** One round of [serveUpstreamChannels]; the result says whether the loop goes on. *)
Definition serveUpstreamChannel : prog bool :=
  newChannel ← do ReceiveChannel;
  match newChannel with
  | None => mret false
  | Some (channelType, extraData) =>
      operation ← operationForUpstreamChannel channelType extraData;
      match operation with
      | Err e => do (RejectChannel Upstream Prohibited (error_string e));; mret true
      | Ok operation =>
          begun ← beginOperation operation;
          match begun with
          | Err e => do (RejectChannel Upstream Prohibited (error_string e));; mret true
          | Ok h =>
              opened ← do (OpenChannel Downstream channelType extraData);
              let failed e :=
                proxy_finish h (result_of (Some e));;
                do (RejectChannel Upstream ConnectionFailed "downstream rejected channel");; mret true in
              match opened with
              | OpenRefused _ _ => failed (EExternal "ssh: open channel")
              | OpenFailed e => failed e
              | Opened =>
                  accepted ← do (AcceptChannel Upstream);
                  match accepted with
                  | Some e => do (CloseOpened Downstream);; proxy_finish h (result_of (Some e));; mret true
                  | None =>
                      channel ← do (NewChannel h Downstream channelType extraData);
                      do (Go_ (ServeChannel channel));; mret true
                  end
              end
          end
      end
  end.

(** One round of [serveUpstreamRequests]. *)
Definition serveUpstreamRequest : prog bool :=
  received ← do ReceiveRequest;
  match received with
  | None => mret false
  | Some request =>
      begun ← (if bool_decide (rq_Type request ≠ RequestKeepalive) &&
                  bool_decide (rq_Type request ≠ RequestNoMoreSessions)
               then beginOperation (Some (request_operation (rq_Type request)))
               else mret (Ok None));
      match begun with
      | Err _ => when (rq_WantReply request) (do (Reply Upstream false ""));; mret true
      | Ok h =>
          sent ← do (SendRequest Downstream request);
          let '(err, accepted, payload) := match sent with
                                           | Ok (ok, payload) => (None, ok, payload)
                                           | Err e => (Some e, false, "")
                                           end in
          proxy_finish h (result_of err);;
          when (rq_WantReply request) (do (Reply Upstream accepted payload));;
          mret true
      end
  end.

Definition other (s : side) : side := match s with Upstream => Downstream | Downstream => Upstream end.

(** The plan of one channel request from either side: the finish function and the effect of a
    request that may be forwarded, or [None]. *)
Definition admitRequest (channel : nat) (from : side) (request : SSHRequest)
    : prog (option (option nat * downstreamRequestEffect)) :=
  match from with
  | Downstream =>
      match planDownstreamRequest envAllowed (rq_Type request) (rq_Payload request) with
      | Err _ => mret None
      | Ok plan =>
          begun ← beginOperation (rp_operation plan);
          match begun with
          | Err _ => mret None
          | Ok h => mret (Some (h, rp_effect plan))
          end
      end
  | Upstream =>
      (if bool_decide (rq_Type request = RequestExitStatus)
       then match Unmarshal_uint32 (rq_Payload request) with
            | Some code => do (RecordExit channel code)
            | None => mret tt
            end
       else mret tt);;
      mret (Some (None, downstreamRequestNone))
  end.

(** What becomes of the finish function of a forwarded request. *)
Definition settleRequest (channel : nat) (request : SSHRequest) (h : nat)
    (effect : downstreamRequestEffect) (sent : result bool) : prog unit :=
  match sent with
  | Err e => proxy_finish (Some h) (result_of (Some e))
  | Ok ok =>
      if rq_WantReply request && negb ok
      then proxy_finish (Some h) (result_of (Some (Errorf "upstream rejected %s" [rq_Type request])))
      else match effect with
           | downstreamRequestAgentForward => setAgentForward h
           | downstreamRequestSession => replaceFinish channel h
           | downstreamRequestNone => proxy_finish (Some h) (result_of None)
           end
  end.

(** One round of [forwardRequests]. *)
Definition forwardRequest (channel : nat) (from : side) : prog bool :=
  received ← do ReceiveRequest;
  match received with
  | None => mret false
  | Some request =>
      admitted ← admitRequest channel from request;
      match admitted with
      | None => when (rq_WantReply request) (do (Reply from false ""));; mret true
      | Some (h, effect) =>
          sent ← do (SendChannelRequest channel (other from) request);
          match h with
          | None => mret tt
          | Some h => settleRequest channel request h effect sent
          end;;
          when (rq_WantReply request)
            (do (Reply from (match sent with Ok ok => ok | Err _ => false end) ""));;
          mret (negb (bool_decide (from = Upstream) &&
                      (bool_decide (rq_Type request = RequestExitStatus) ||
                       bool_decide (rq_Type request = RequestExitSignal))))
      end
  end.

(** The goroutine that forwards requests; the upstream one announces its end. *)
Definition forwardRequests (channel : nat) (from : side) : prog bool :=
  continue_ ← forwardRequest channel from;
  when (bool_decide (from = Upstream) && negb continue_) (do (RequestsForwarded channel));;
  mret continue_.

(** [serve]; copying the extended data streams is input/output only. *)
Definition serve (channel : nat) : prog unit :=
  do (Go_ (ForwardRequests channel Downstream));;
  do (Go_ (ForwardRequests channel Upstream));;
  outcome ← do (ProxyStreams channel);
  let proxyErr := match outcome with ProxyCancelled => None | ProxyDone err => err end in
  '(h, exitCode) ← do (TakeFinish channel);
  proxy_finish h (mkOperationResult proxyErr exitCode None).

(** [Protocol.HandleChannel], [HandleGlobalRequest] (in the gateway's request loop) and [Close]. *)
Definition HandleChannel (channelType extraData : string) : prog unit :=
  available ← do ConnectionProxy;
  if (available : bool) then handleChannel channelType extraData
  else do (RejectChannel Downstream ConnectionFailed "SSH connection is closed").

Definition HandleGlobalRequest (request : SSHRequest) : prog (bool * string) :=
  available ← do ConnectionProxy;
  if (available : bool) then handleRequest request else mret (false, "").

Definition globalRequest : prog bool :=
  received ← do ReceiveRequest;
  match received with
  | None => mret false
  | Some request =>
      '(ok, payload) ← HandleGlobalRequest request;
      do (Reply Downstream ok payload);; mret true
  end.

Definition Protocol_Close : prog unit :=
  created ← do CloseProtocol;
  when created close.

(** The body of every goroutine: a loop runs again as long as it returns [true]. *)
Definition code (l : label) : prog bool :=
  match l with
  | GlobalRequests => globalRequest
  | ClientChannel channelType extraData => HandleChannel channelType extraData;; mret false
  | ProtocolClose => Protocol_Close;; mret false
  | UpstreamChannels => serveUpstreamChannel
  | UpstreamRequests => serveUpstreamRequest
  | UpstreamWait => do WaitTransport;; close;; mret false
  | ServeChannel channel => serve channel;; mret false
  | ForwardRequests channel from => forwardRequests channel from
  end.
End Proxy.

(** ** Meaning of the calls *)

Definition set_log (s : proxyState) (e : event) : proxyState :=
  mkProxy (protocolClosed s) (proxyCreated s) (connectOnce s) (upstreamSet s) (connectErr s)
    (proxyClosed s) (remoteForwards s) (agentForward s) (channels s) (begun s) (lost s) (log s ++ [e]).
Definition set_once (s : proxyState) (o : onceState) : proxyState :=
  mkProxy (protocolClosed s) (proxyCreated s) o (upstreamSet s) (connectErr s)
    (proxyClosed s) (remoteForwards s) (agentForward s) (channels s) (begun s) (lost s) (log s).
Definition set_upstream (s : proxyState) (set : bool) (err : option error) : proxyState :=
  mkProxy (protocolClosed s) (proxyCreated s) (connectOnce s) set err
    (proxyClosed s) (remoteForwards s) (agentForward s) (channels s) (begun s) (lost s) (log s).
Definition set_protocol (s : proxyState) (closed created : bool) : proxyState :=
  mkProxy closed created (connectOnce s) (upstreamSet s) (connectErr s)
    (proxyClosed s) (remoteForwards s) (agentForward s) (channels s) (begun s) (lost s) (log s).
Definition set_forwards (s : proxyState) (m : option (gmap string (option nat))) (gone : list nat)
    : proxyState :=
  mkProxy (protocolClosed s) (proxyCreated s) (connectOnce s) (upstreamSet s) (connectErr s)
    (proxyClosed s) m (agentForward s) (channels s) (begun s) (lost s ++ gone) (log s).
Definition set_agent (s : proxyState) (a : option nat) : proxyState :=
  mkProxy (protocolClosed s) (proxyCreated s) (connectOnce s) (upstreamSet s) (connectErr s)
    (proxyClosed s) (remoteForwards s) a (channels s) (begun s) (lost s) (log s).
Definition set_channels (s : proxyState) (cs : list proxiedChannel) : proxyState :=
  mkProxy (protocolClosed s) (proxyCreated s) (connectOnce s) (upstreamSet s) (connectErr s)
    (proxyClosed s) (remoteForwards s) (agentForward s) cs (begun s) (lost s) (log s).
Definition set_begun (s : proxyState) (n : nat) : proxyState :=
  mkProxy (protocolClosed s) (proxyCreated s) (connectOnce s) (upstreamSet s) (connectErr s)
    (proxyClosed s) (remoteForwards s) (agentForward s) (channels s) n (lost s) (log s).
Definition close_proxy (s : proxyState) : proxyState :=
  mkProxy (protocolClosed s) (proxyCreated s) (connectOnce s) (upstreamSet s) (connectErr s)
    true None None (channels s) (begun s) (lost s) (log s).

(** Lookup in a possibly nil Go map; the value of a missing key is the nil function. *)
Definition forward_at (s : proxyState) (key : string) : option (option nat) :=
  m ← remoteForwards s; m !! key.
(** The finish functions a map of forwards holds. *)
Definition held (m : gmap string (option nat)) : list nat := omap snd (map_to_list m).

Definition update_channel (s : proxyState) (channel : nat) (f : proxiedChannel → proxiedChannel)
    : proxyState := set_channels s (alter f channel (channels s)).

Definition guarded (b : bool) (s : proxyState) : option proxyState := if b then Some s else None.

Definition opt_list {A} (o : option A) : list A := match o with Some a => [a] | None => [] end.

(** The state after a call was answered by [r]; [None] when that answer is not possible now.  Calls
    of the outside may be answered in any way. *)
Definition answer (s : proxyState) (c : call) : resp c → option proxyState :=
  match c with
  | Begin o => fun '(h, err) =>
      match h with
      | None => Some (set_log s (EvBegin o h err))
      | Some n => guarded (bool_decide (n = begun s))
                    (set_log (set_begun s (S (begun s))) (EvBegin o h err))
      end
  | Finish h r => fun _ => Some (set_log s (EvFinish h r))
  | OpenChannel to channelType extraData => fun _ => Some (set_log s (EvOpen to channelType extraData))
  | SendRequest to r => fun _ => Some (set_log s (EvRequest to (rq_Type r) (rq_Payload r)))
  | SendChannelRequest ch to r => fun _ =>
      Some (set_log s (EvChannelRequest ch to (rq_Type r) (rq_Payload r)))
  | ProxyStreams ch => fun outcome =>
      match outcome, channels s !! ch with
      | ProxyDone _, Some c => guarded (negb (pc_terminalRequest c) || pc_requestsForwarded c) s
      | _, _ => Some s
      end
  | ConnectionProxy => fun available =>
      if protocolClosed s then guarded (negb available) s
      else guarded available (set_protocol s false true)
  | CloseProtocol => fun created =>
      guarded (bool_decide (created = proxyCreated s)) (set_protocol s true false)
  | OnceEnter => fun first =>
      match connectOnce s with
      | OnceNew => guarded first (set_once s OnceRunning)
      | OnceRunning => None
      | OnceDone => guarded (negb first) s
      end
  | OnceExit => fun _ => Some (set_once s OnceDone)
  | PublishUpstream dialed => fun p =>
      match dialed, p with
      | Some e, PublishedError => Some (set_upstream s (upstreamSet s) (Some e))
      | None, PublishedClosed => guarded (proxyClosed s)
          (set_upstream s (upstreamSet s) (Some (ESentinel context_Canceled)))
      | None, PublishedUpstream => guarded (negb (proxyClosed s)) (set_upstream s true (connectErr s))
      | _, _ => None
      end
  | ReadUpstream => fun '(err, set) =>
      guarded (bool_decide (err = connectErr s) && bool_decide (set = upstreamSet s)) s
  | CloseProxy => fun r =>
      match r with
      | None => guarded (proxyClosed s) s
      | Some (upstream, finishes) =>
          guarded (negb (proxyClosed s) && bool_decide (upstream = upstreamSet s) &&
                   bool_decide (finishes ≡ₚ held (default ∅ (remoteForwards s)) ++ opt_list (agentForward s)))
            (close_proxy s)
      end
  | HasRemoteForward key => fun known => guarded (bool_decide (known = bool_decide (is_Some (forward_at s key)))) s
  | AddRemoteForward key h => fun added =>
      if proxyClosed s then guarded (negb added) s
      else match remoteForwards s with
           | None => None
           | Some m => guarded added
               (set_forwards s (Some (<[key := h]> m)) (opt_list (default None (m !! key))))
           end
  | RemoveRemoteForward key => fun h =>
      guarded (bool_decide (h = default None (forward_at s key)))
        (set_forwards s (delete key <$> remoteForwards s) [])
  | HasAgentForward => fun set => guarded (bool_decide (set = bool_decide (is_Some (agentForward s)))) s
  | SetAgentForward h => fun '(set, previous) =>
      if proxyClosed s then guarded (negb set && bool_decide (previous = None)) s
      else guarded (set && bool_decide (previous = agentForward s)) (set_agent s (Some h))
  | NewChannel h to channelType extraData => fun ch =>
      let terminal := bool_decide (channelType = ChannelSession) in
      guarded (bool_decide (ch = length (channels s)))
        (set_log (set_channels s (channels s ++ [mkProxied terminal h None false false false]))
           (EvServe ch to channelType extraData))
  | RecordExit ch status => fun _ =>
      Some (update_channel s ch (fun c => mkProxied (pc_terminalRequest c) (pc_finish c) (Some status)
                                            (pc_requestsForwarded c) (pc_ended c) (pc_late c)))
  | ReplaceFinish ch h => fun previous =>
      match channels s !! ch with
      | None => None
      | Some c => guarded (bool_decide (previous = pc_finish c))
          (update_channel s ch (fun c => mkProxied (pc_terminalRequest c) (Some h) (pc_exitCode c)
                                           (pc_requestsForwarded c) (pc_ended c)
                                           (pc_late c || pc_ended c)))
      end
  | RequestsForwarded ch => fun _ =>
      Some (update_channel s ch (fun c => mkProxied (pc_terminalRequest c) (pc_finish c) (pc_exitCode c)
                                            true (pc_ended c) (pc_late c)))
  | TakeFinish ch => fun '(h, exitCode) =>
      match channels s !! ch with
      | None => None
      | Some c => guarded (bool_decide (h = pc_finish c) && bool_decide (exitCode = pc_exitCode c))
          (update_channel s ch (fun c => mkProxied (pc_terminalRequest c) None (pc_exitCode c)
                                           (pc_requestsForwarded c) true (pc_late c)))
      end
  | Panic => fun _ => None
  | _ => fun _ => Some s
  end.

(** ** Goroutines *)

Record thread := mkThread { th_label : label; th_prog : prog bool }.
Record config := mkConfig { cf_state : proxyState; cf_threads : list thread }.

Section Steps.
Context `{SSHWire} (envAllowed : string → bool) (error_string : error → string).

Definition start (l : label) : thread := mkThread l (code envAllowed error_string l).
Definition spawned (c : call) : list thread :=
  match c with Go_ l => [start l] | _ => [] end.

(** One call of one goroutine, the next round of a loop, a channel opened by the client, or the
    gateway closing the protocol. *)
Inductive step : config → config → Prop :=
| step_call s s' ts i l c k r :
    ts !! i = Some (mkThread l (Call c k)) → answer s c r = Some s' →
    step (mkConfig s ts) (mkConfig s' (<[i := mkThread l (k r)]> ts ++ spawned c))
| step_loop s ts i l :
    ts !! i = Some (mkThread l (Ret true)) →
    step (mkConfig s ts) (mkConfig s (<[i := start l]> ts))
| step_channel s ts channelType extraData :
    step (mkConfig s ts) (mkConfig s (ts ++ [start (ClientChannel channelType extraData)]))
| step_close s ts :
    step (mkConfig s ts) (mkConfig s (ts ++ [start ProtocolClose])).

Definition initial : config := mkConfig newProtocol [start GlobalRequests].
Definition reachable (c : config) : Prop := rtc step initial c.
End Steps.

(** ** Running a schedule *)

(** Answers without their call, so that a schedule is a plain list. *)
Inductive ans :=
| AUnit
| ABool (b : bool)
| ANat (n : nat)
| ABegin (h : option nat) (err : option error)
| AError (err : option error)
| AOpened (r : openResult)
| ASent (r : result (bool * string))
| AChannelSent (r : result bool)
| ARequest (r : option SSHRequest)
| AChannel (r : option (string * string))
| AProxied (r : proxyOutcome)
| APublished (p : published)
| AUpstream (err : option error) (set : bool)
| AClosed (r : option (bool * list nat))
| AFinish (h : option nat)
| ASet (set : bool) (previous : option nat)
| ATaken (h : option nat) (exitCode : option Z).

Definition pick (a : ans) (c : call) : option (resp c) :=
  match c with
  | Begin _ => match a with ABegin h err => Some (h, err) | _ => None end
  | Dial => match a with AError e => Some e | _ => None end
  | OpenChannel _ _ _ => match a with AOpened r => Some r | _ => None end
  | AcceptChannel _ => match a with AError e => Some e | _ => None end
  | SendRequest _ _ => match a with ASent r => Some r | _ => None end
  | SendChannelRequest _ _ _ => match a with AChannelSent r => Some r | _ => None end
  | ReceiveRequest => match a with ARequest r => Some r | _ => None end
  | ReceiveChannel => match a with AChannel r => Some r | _ => None end
  | ProxyStreams _ => match a with AProxied r => Some r | _ => None end
  | ConnectionProxy => match a with ABool b => Some b | _ => None end
  | CloseProtocol => match a with ABool b => Some b | _ => None end
  | OnceEnter => match a with ABool b => Some b | _ => None end
  | PublishUpstream _ => match a with APublished p => Some p | _ => None end
  | ReadUpstream => match a with AUpstream e set => Some (e, set) | _ => None end
  | CloseProxy => match a with AClosed r => Some r | _ => None end
  | HasRemoteForward _ => match a with ABool b => Some b | _ => None end
  | AddRemoteForward _ _ => match a with ABool b => Some b | _ => None end
  | RemoveRemoteForward _ => match a with AFinish h => Some h | _ => None end
  | HasAgentForward => match a with ABool b => Some b | _ => None end
  | SetAgentForward _ => match a with ASet set previous => Some (set, previous) | _ => None end
  | NewChannel _ _ _ _ => match a with ANat n => Some n | _ => None end
  | ReplaceFinish _ _ => match a with AFinish h => Some h | _ => None end
  | TakeFinish _ => match a with ATaken h e => Some (h, e) | _ => None end
  | _ => match a with AUnit => Some tt | _ => None end
  end.

Section Run.
Context `{SSHWire} (envAllowed : string → bool) (error_string : error → string).

(** Goroutine [i] performs its next call, answered by [a], or starts the next round of its loop. *)
Definition perform (c : config) (i : nat) (a : ans) : option config :=
  match cf_threads c !! i with
  | Some (mkThread l (Call cl k)) =>
      r ← pick a cl;
      s' ← answer (cf_state c) cl r;
      Some (mkConfig s' (<[i := mkThread l (k r)]> (cf_threads c) ++ spawned envAllowed error_string cl))
  | Some (mkThread l (Ret true)) =>
      Some (mkConfig (cf_state c) (<[i := start envAllowed error_string l]> (cf_threads c)))
  | _ => None
  end.

Fixpoint run_schedule (c : config) (sched : list (nat * ans)) : option config :=
  match sched with
  | [] => Some c
  | (i, a) :: sched => c' ← perform c i a; run_schedule c' sched
  end.

Lemma run_schedule_steps c sched c' :
  run_schedule c sched = Some c' → rtc (step envAllowed error_string) c c'.
Proof.
  revert c. induction sched as [|[i a] sched IH]; intros c; simpl; [intros [= ->]; done|].
  destruct (perform c i a) as [c1|] eqn:Hp; simpl; [|done]. intros Hr.
  eapply rtc_l; [|by apply IH]. unfold perform in Hp. destruct c as [s ts]. simpl in Hp.
  destruct (ts !! i) as [[l [b|cl k]]|] eqn:Hi; [|destruct (pick a cl) as [r|]; simpl in Hp; [|done]|done].
  - destruct b; [|done]. injection Hp as <-. by constructor.
  - destruct (answer s cl r) as [s'|] eqn:Ha; simpl in Hp; [|done]. injection Hp as <-.
    by econstructor.
Qed.
End Run.
