(* ===== verification/SSHProxyProps.v ===== *)
(** Properties of the SSH proxy under every interleaving of its goroutines.

    The proofs use a small program logic: while a goroutine runs it knows [fact]s that no other
    goroutine can invalidate and owns [token]s, the finish functions and channels it is responsible
    for.  [wp] follows a program call by call; the calls' meaning is shown once to respect facts
    and tokens, and each function of the proxy is specified once. *)

From S2P Require Import Prelude GoStrings GoStrconv Kube Target Authn AccessStore AccessResolver Authz Operation SSHProxy.

(** ** What may be forwarded *)

Definition agent_operation : Operation := session_operation RequestAgentForward "" "".

(** A forwarded listener rests on an allowed operation for its address, or for port 0 of its host
    when the server chose the port. *)
Definition forward_ok (A : Operation → Prop) (key : string) : Prop :=
  ∃ host port, A (forward_operation host port) ∧
    (key = JoinHostPort host (uint_str port) ∨
     ∃ h p, SplitHostPort (JoinHostPort host (uint_str port)) = Some (h, "0") ∧
            key = JoinHostPort h (uint_str p)).

Lemma forward_ok_mono (A A' : Operation → Prop) key :
  (∀ o, A o → A' o) → forward_ok A key → forward_ok A' key.
Proof. unfold forward_ok. naive_solver. Qed.

Section Permission.
Context `{SSHWire} (envAllowed : string → bool).

(** What the client may send on a channel, given the allowed operations [A]. *)
Definition channel_request_permitted (A : Operation → Prop) (ty payload : string) : Prop :=
  if bool_decide (ty = RequestEnvironment)
  then ∃ key value, Unmarshal_keyValue payload = Some (key, value) ∧ envAllowed key = true
  else if bool_decide (ty = RequestExec)
  then ∃ command, Unmarshal_value payload = Some command ∧ A (session_operation ty command "")
  else if bool_decide (ty = RequestSubsystem)
  then ∃ name, Unmarshal_value payload = Some name ∧ A (session_operation ty "" name)
  else ty ∈ [RequestPTY; RequestWindowChange; RequestSignal; RequestBreak] ∨
       A (session_operation ty "" "").

(** What the proxy may rest on when it does something: the allowed operations, the listeners the server
    may open channels for, whether agent channels are allowed, the channels it has asked a side to open,
    and the channels it serves. *)
Record grants := mkGrants {
  g_allowed : Operation → Prop;
  g_forward : string → Prop;
  g_agent : Prop;
  g_opened : side → string → string → Prop;
  g_served : nat → Prop;
}.

(** What each event needs.  Channels are opened and global requests sent, in both directions, only with
    permission; a channel is served only if its counterpart was opened; requests on a channel are sent
    only on a channel that is served, and to the server only with permission.  Requests of the server on
    such a channel are passed to the client whatever they are: that is all the proxy checks.  The reports
    to the operation callback are no messages. *)
Definition permitted (g : grants) (ev : event) : Prop :=
  match ev with
  | EvOpen Upstream ty data =>
      if bool_decide (ty = ChannelSession) then True
      else if bool_decide (ty = ChannelDirectTCPIP)
      then ∃ d, Unmarshal_channelForward data = Some d ∧
             g_allowed g (mkOperation ty "" "" "" (cfd_Host d) (cfd_Port d) (cfd_OriginHost d) (cfd_OriginPort d) "" 0)
      else g_allowed g (channel_operation ty)
  | EvOpen Downstream ty data =>
      if bool_decide (ty = ChannelForwardedTCPIP)
      then ∃ d, Unmarshal_channelForward data = Some d ∧
             g_forward g (JoinHostPort (cfd_Host d) (uint_str (cfd_Port d)))
      else if bool_decide (ty = ChannelAgent) then g_agent g
      else g_allowed g (channel_operation ty)
  | EvRequest Upstream ty payload =>
      if bool_decide (ty = RequestTCPIPForward)
      then ∃ d, Unmarshal_globalForward payload = Some d ∧ g_allowed g (forward_operation (gfd_Host d) (gfd_Port d))
      else if bool_decide (ty = RequestCancelTCPIPForward)
      then ∃ d, Unmarshal_globalForward payload = Some d ∧ g_forward g (forwardKey d)
      else ty ∈ [RequestKeepalive; RequestNoMoreSessions] ∨ g_allowed g (request_operation ty)
  | EvRequest Downstream ty _ =>
      ty ∈ [RequestKeepalive; RequestNoMoreSessions] ∨ g_allowed g (request_operation ty)
  | EvServe _ to ty data => g_opened g to ty data
  | EvChannelRequest ch Upstream ty payload =>
      g_served g ch ∧ channel_request_permitted (g_allowed g) ty payload
  | EvChannelRequest ch Downstream _ _ => g_served g ch
  | EvBegin _ _ _ | EvFinish _ _ => True
  end.

Record grants_le (g g' : grants) : Prop := mkGrantsLe {
  gl_allowed : ∀ o, g_allowed g o → g_allowed g' o;
  gl_forward : ∀ k, g_forward g k → g_forward g' k;
  gl_agent : g_agent g → g_agent g';
  gl_opened : ∀ to ty d, g_opened g to ty d → g_opened g' to ty d;
  gl_served : ∀ ch, g_served g ch → g_served g' ch;
}.

Lemma permitted_mono g g' ev : grants_le g g' → permitted g ev → permitted g' ev.
Proof.
  intros [HA HF HG HO HC]. destruct ev as [| |[] ty d|[] ty d|? [] ty d|? [] ty d]; simpl; try done;
    unfold channel_request_permitted; repeat case_match; naive_solver.
Qed.
End Permission.

(** ** Facts and tokens *)

Inductive fact :=
| FAllowed (o : Operation)
| FForward (key : string)
| FAgent
| FOpened (to : side) (channelType extraData : string)
| FServed (channel : nat)
| FPublished
| FOnceDone.

Inductive token := TOp (h : nat) | TChan (c : nat).

Definition op_tokens (o : option nat) : list token := TOp <$> opt_list o.

Definition gained (c : call) : resp c → fact → Prop :=
  match c with
  | Begin o => fun r f => r.2 = None ∧ f = FAllowed o
  | HasRemoteForward key => fun known f => known = true ∧ f = FForward key
  | HasAgentForward => fun set f => set = true ∧ f = FAgent
  | OpenChannel to ty data => fun _ f => f = FOpened to ty data
  | NewChannel _ _ _ _ => fun ch f => f = FServed ch
  | PublishUpstream _ => fun _ f => f = FPublished
  | OnceEnter => fun first f => first = false ∧ f = FOnceDone
  | OnceExit => fun _ f => f = FOnceDone
  | _ => fun _ _ => False
  end.

Definition consumed (c : call) : resp c → list token :=
  match c with
  | Finish h _ => fun _ => [TOp h]
  | AddRemoteForward _ h => fun added => if (added : bool) then op_tokens h else []
  | SetAgentForward h => fun r => if r.1 then [TOp h] else []
  | NewChannel h _ _ _ => fun _ => op_tokens h
  | ReplaceFinish _ h => fun _ => [TOp h]
  | TakeFinish ch => fun _ => [TChan ch]
  | Go_ (ServeChannel ch) => fun _ => [TChan ch]
  | _ => fun _ => []
  end.

Definition produced (c : call) : resp c → list token :=
  match c with
  | Begin _ => fun r => op_tokens r.1
  | CloseProxy => fun r => match r with Some (_, hs) => TOp <$> hs | None => [] end
  | RemoveRemoteForward _ => fun h => op_tokens h
  | SetAgentForward _ => fun r => if r.1 then op_tokens r.2 else []
  | NewChannel _ _ _ _ => fun ch => [TChan ch]
  | ReplaceFinish _ _ => fun previous => op_tokens previous
  | TakeFinish _ => fun r => op_tokens r.1
  | _ => fun _ => []
  end.

Section Logic.
Context `{SSHWire} (envAllowed : string → bool).

(** The grants of known facts. *)
Definition granted (K : fact → Prop) : grants :=
  mkGrants (K ∘ FAllowed) (K ∘ FForward) (K FAgent) (fun to ty data => K (FOpened to ty data)) (K ∘ FServed).

Definition need (c : call) (K : fact → Prop) : Prop :=
  let ok := permitted envAllowed (granted K) in
  match c with
  | OpenChannel to ty data => ok (EvOpen to ty data)
  | SendRequest to r => ok (EvRequest to (rq_Type r) (rq_Payload r))
  | SendChannelRequest ch to r => ok (EvChannelRequest ch to (rq_Type r) (rq_Payload r))
  | AddRemoteForward key _ => forward_ok (K ∘ FAllowed) key
  | SetAgentForward _ => K (FAllowed agent_operation)
  | NewChannel _ to ty data => K (FOpened to ty data)
  | Go_ (ServeChannel ch) | Go_ (ForwardRequests ch _) => K (FServed ch)
  | OnceExit => K FPublished
  | Panic => False
  | _ => True
  end.

(** After the once is done, the upstream or the error is there. *)
Definition possible (c : call) (K : fact → Prop) : resp c → Prop :=
  match c with
  | ReadUpstream => fun r => K FOnceDone → r ≠ (None, false)
  | _ => fun _ => True
  end.

Fixpoint wp {A} (p : prog A) (K : fact → Prop) (own : list token)
    (Q : (fact → Prop) → list token → A → Prop) : Prop :=
  match p with
  | Ret a => Q K own a
  | Call c k => need c K ∧ ∀ r, possible c K r → ∃ rest, own ≡ₚ consumed c r ++ rest ∧
      wp (k r) (fun f => gained c r f ∨ K f) (produced c r ++ rest) Q
  end.

Lemma wp_bind {A B} (p : prog A) (f : A → prog B) K own Q :
  wp p K own (fun K own a => wp (f a) K own Q) → wp (p ≫= f) K own Q.
Proof.
  revert K own. induction p as [a|c k IH]; intros K own; [done|]. simpl.
  intros [Hn Hr]. split; [done|]. intros r Hp. destruct (Hr r Hp) as (rest & Ho & Hw).
  exists rest. split; [done|]. by apply IH.
Qed.

Lemma wp_call {B} (c : call) (k : resp c → prog B) K own Q :
  need c K →
  (∀ r, possible c K r → ∃ rest, own ≡ₚ consumed c r ++ rest ∧
     wp (k r) (fun f => gained c r f ∨ K f) (produced c r ++ rest) Q) →
  wp (do c ≫= k) K own Q.
Proof. intros Hn Hr. split; [done|]. exact Hr. Qed.

Lemma wp_do (c : call) K own (Q : (fact → Prop) → list token → resp c → Prop) :
  need c K →
  (∀ r, possible c K r → ∃ rest, own ≡ₚ consumed c r ++ rest ∧
     Q (fun f => gained c r f ∨ K f) (produced c r ++ rest) r) →
  wp (do c) K own Q.
Proof. intros Hn Hr. split; [done|]. exact Hr. Qed.

(** Knowledge only grows. *)
Definition knows (K K' : fact → Prop) : Prop := ∀ f, K f → K' f.

Ltac kn := unfold knows in *; naive_solver.
(** Simplify the bookkeeping of a call without unfolding programs. *)
Ltac tidy := cbn [gained consumed produced possible need app fst snd].
(** Run one call: its need, its answer, the tokens it leaves. *)
Ltac call_as r := first [apply wp_call | apply wp_do]; [try done|intros r ?; eexists; split; [tidy; reflexivity|tidy]].
Ltac call := let r := fresh "r" in call_as r.

Lemma finish_spec h r K own rest Q :
  own ≡ₚ op_tokens h ++ rest → (∀ K' own', knows K K' → own' ≡ₚ rest → Q K' own' tt) →
  wp (proxy_finish h r) K own Q.
Proof.
  intros Ho HQ. destruct h as [h|]; simpl.
  - split; [done|]. intros [] _. exists rest. split; [done|]. apply HQ; [kn|done].
  - apply HQ; [kn|done].
Qed.

Lemma finishes_spec r hs K own rest Q :
  own ≡ₚ (TOp <$> hs) ++ rest → (∀ K' own', knows K K' → own' ≡ₚ rest → Q K' own' tt) →
  wp (each (fun h => do (Finish h r)) hs) K own Q.
Proof.
  revert K own. induction hs as [|h hs IH]; intros K own Ho HQ; simpl.
  - apply HQ; [kn|done].
  - split; [done|]. intros [] _. exists ((TOp <$> hs) ++ rest). split; [done|]. simpl.
    apply IH; [done|]. intros K' own' HK Hown. apply HQ; [kn|done].
Qed.

Lemma beginOperation_spec o K own Q :
  (∀ K' own' h, knows K K' → (∀ o', o = Some o' → K' (FAllowed o')) → (o = None → h = None) →
     own' ≡ₚ op_tokens h ++ own → Q K' own' (Ok h)) →
  (∀ K' own' e, knows K K' → own' ≡ₚ own → Q K' own' (Err e)) →
  wp (beginOperation o) K own Q.
Proof.
  intros Hok Herr. unfold beginOperation. destruct o as [o|].
  2:{ apply Hok; [kn|done|done|done]. }
  apply wp_call; [done|]. intros [h err] _. exists own. split; [done|]. simpl.
  destruct err as [e|].
  - apply wp_bind. eapply finish_spec; [done|]. intros K' own' HK Hown. simpl.
    apply Herr; [kn|done].
  - simpl. apply Hok; [kn| |done|done]. intros o' [= ->]. left. done.
Qed.

Lemma close_spec K own Q :
  (∀ K' own', knows K K' → own' ≡ₚ own → Q K' own' tt) → wp close K own Q.
Proof.
  intros HQ. unfold close. apply wp_call; [done|]. intros r _. exists own. split; [done|]. simpl.
  destruct r as [[up hs]|]; [|apply HQ; [kn|done]].
  apply wp_bind. unfold when. assert (∀ K0, knows K K0 →
    wp (do (CloseTransport Downstream);; each (fun h => do (Finish h
        (result_of (Some (ESentinel context_Canceled))))) hs) K0 ((TOp <$> hs) ++ own) Q) as Hrest.
  { intros K0 HK0. call. eapply finishes_spec; [done|]. intros. apply HQ; [kn|done]. }
  destruct up; cbn iota.
  - call_as u. apply Hrest. kn.
  - apply Hrest. kn.
Qed.

Lemma connect_spec K own Q :
  (∀ K' own' r, knows K K' → r ≠ (None, false) → own' ≡ₚ own → Q K' own' r) → wp connect K own Q.
Proof.
  intros HQ. unfold connect. apply wp_call; [done|]. intros first _. exists own. split; [done|]. tidy.
  apply wp_bind. unfold when.
  assert (∀ K0 own', knows K K0 → K0 FOnceDone → own' ≡ₚ own → wp (do ReadUpstream) K0 own' Q) as Hread.
  { intros K0 own' HK Hd Ho. apply wp_do; [done|]. intros r Hr. exists own'. split; [done|].
    apply HQ; [kn|by apply Hr|done]. }
  destruct first; cbn iota; [|apply Hread; [kn|kn|done]].
  call_as d. call_as p. apply wp_bind. destruct p; cbn iota.
  - apply wp_do; [simpl; kn|]. intros [] _. exists own. split; [done|]. apply Hread; kn || done.
  - call. apply wp_do; [simpl; kn|]. intros [] _. exists own. split; [done|]. apply Hread; kn || done.
  - call. call. call. apply wp_do; [simpl; kn|]. intros [] _. exists own.
    split; [done|]. apply Hread; kn || done.
Qed.

(** What the plans ask for is what the messages need. *)

Lemma parseChannelOperation_permitted g ty data o :
  parseChannelOperation ty data = Ok o → (∀ o', o = Some o' → g_allowed g o') →
  permitted envAllowed g (EvOpen Upstream ty data).
Proof.
  unfold parseChannelOperation. simpl. repeat case_match; intros [= <-] HA; eauto.
Qed.

Lemma planGlobalRequest_permitted g ty payload plan :
  planGlobalRequest ty payload = Ok plan → (∀ o', gp_operation plan = Some o' → g_allowed g o') →
  (ty = RequestCancelTCPIPForward → g_forward g (gp_forwardKey plan)) →
  permitted envAllowed g (EvRequest Upstream ty payload).
Proof.
  unfold planGlobalRequest. simpl.
  destruct (bool_decide (ty = RequestTCPIPForward)); [case_match; intros [= <-]; eauto|].
  destruct (bool_decide (ty = RequestCancelTCPIPForward)) eqn:Hc; breflect.
  { case_match; intros [= <-] _ HF. eauto. }
  destruct (bool_decide (ty = RequestKeepalive)) eqn:Hk; breflect; simpl.
  { intros [= <-] _ _. left. set_solver. }
  destruct (bool_decide (ty = RequestNoMoreSessions)) eqn:Hs; breflect; simpl.
  { intros [= <-] _ _. left. set_solver. }
  intros [= <-] HA _. right. by apply HA.
Qed.

Lemma planGlobalRequest_cancel payload plan :
  planGlobalRequest RequestCancelTCPIPForward payload = Ok plan → gp_operation plan = None.
Proof.
  unfold planGlobalRequest. rewrite bool_decide_eq_false_2 by done.
  rewrite bool_decide_eq_true_2 by done. case_match; by intros [= <-].
Qed.

(** The key under which a forward is registered belongs to the allowed operation. *)
Lemma planGlobalRequest_forward (A : Operation → Prop) payload plan reply :
  planGlobalRequest RequestTCPIPForward payload = Ok plan → (∀ o', gp_operation plan = Some o' → A o') →
  forward_ok A (actualRemoteForwardKey (gp_forwardKey plan) reply).
Proof.
  unfold planGlobalRequest. rewrite bool_decide_eq_true_2 by done. case_match eqn:Hd; [|done].
  intros [= <-] HA. simpl. eexists _, _. split; [by apply HA|].
  unfold actualRemoteForwardKey, forwardKey.
  destruct (SplitHostPort _) as [[h p]|] eqn:Hs; [|by left].
  destruct (bool_decide (p ≠ "0")) eqn:Hp; [by left|]. apply bool_decide_eq_false, dec_stable in Hp.
  case_match; [|by left]. right. subst p. eauto.
Qed.

Lemma planDownstreamRequest_permitted (A : Operation → Prop) ty payload plan :
  planDownstreamRequest envAllowed ty payload = Ok plan → (∀ o', rp_operation plan = Some o' → A o') →
  channel_request_permitted envAllowed A ty payload.
Proof.
  unfold planDownstreamRequest. simpl. unfold channel_request_permitted.
  destruct (decide (ty = RequestEnvironment)) as [->|He].
  { rewrite !(bool_decide_eq_true_2 (RequestEnvironment = RequestEnvironment)) by done.
    rewrite !bool_decide_eq_false_2 by done.
    destruct (Unmarshal_keyValue payload) as [[k v]|]; [|done].
    destruct (envAllowed k) eqn:Hk; simpl; [|done]. eauto. }
  rewrite !(bool_decide_eq_false_2 (ty = RequestEnvironment)) by done.
  destruct (decide (ty = RequestExec)) as [->|Hx].
  { rewrite !(bool_decide_eq_true_2 (RequestExec = RequestExec)) by done.
    rewrite !bool_decide_eq_false_2 by done.
    destruct (Unmarshal_value payload); [|done]. intros [= <-] HA. eauto. }
  rewrite !(bool_decide_eq_false_2 (ty = RequestExec)) by done.
  destruct (decide (ty = RequestSubsystem)) as [->|Hs].
  { rewrite !(bool_decide_eq_true_2 (RequestSubsystem = RequestSubsystem)) by done.
    rewrite !bool_decide_eq_false_2 by done.
    destruct (Unmarshal_value payload); [|done]. intros [= <-] HA. eauto. }
  rewrite !(bool_decide_eq_false_2 (ty = RequestSubsystem)) by done.
  destruct (slices_Contains _ ty) eqn:Hc; [left; by apply slices_Contains_spec|].
  repeat case_match; intros [= <-] HA; right; by apply HA.
Qed.

Lemma planDownstreamRequest_agent ty payload plan :
  planDownstreamRequest envAllowed ty payload = Ok plan →
  rp_effect plan = downstreamRequestAgentForward → rp_operation plan = Some agent_operation.
Proof.
  unfold planDownstreamRequest. repeat case_match; intros [= <-]; try done.
  simpl. intros _. by breflect; subst.
Qed.

(** ** Specifications of the handlers *)

Context (error_string : error → string).

Lemma granted_mono (K K' : fact → Prop) : knows K K' → grants_le (granted K) (granted K').
Proof. intros HK. split; simpl; unfold compose; kn. Qed.
Lemma permitted_knows (K K' : fact → Prop) ev :
  knows K K' → permitted envAllowed (granted K) ev → permitted envAllowed (granted K') ev.
Proof. intros HK. by apply permitted_mono, granted_mono. Qed.

(** A freshly accepted channel takes the finish function, its [serve] the channel. *)
Lemma newChannel_spec {B} (k : prog B) h to ty data K own Q :
  own ≡ₚ op_tokens h → K (FOpened to ty data) →
  (∀ K' own', knows K K' → own' ≡ₚ [] → wp k K' own' Q) →
  wp (channel ← do (NewChannel h to ty data); do (Go_ (ServeChannel channel));; k) K own Q.
Proof.
  intros Ho Hop Hk. split; [done|]. intros ch _. exists []. tidy. rewrite app_nil_r. split; [done|].
  split; [by left|]. intros [] _. exists []. tidy. split; [done|]. apply Hk; [kn|done].
Qed.

Lemma newChannel_spec' h to ty data K own Q :
  own ≡ₚ op_tokens h → K (FOpened to ty data) → (∀ K' own', knows K K' → own' ≡ₚ [] → Q K' own' tt) →
  wp (channel ← do (NewChannel h to ty data); do (Go_ (ServeChannel channel))) K own Q.
Proof.
  intros Ho Hop Hk. split; [done|]. intros ch _. exists []. tidy. rewrite app_nil_r. split; [done|].
  split; [by left|]. intros [] _. exists []. tidy. split; [done|]. apply Hk; [kn|done].
Qed.

Lemma handleChannel_spec ty data K Q :
  (∀ K' own' u, own' ≡ₚ [] → Q K' own' u) → wp (handleChannel error_string ty data) K [] Q.
Proof.
  intros HQ. unfold handleChannel. destruct (parseChannelOperation ty data) as [o|] eqn:Hp.
  2:{ call. by apply HQ. }
  apply wp_bind, beginOperation_spec.
  2:{ intros K1 own1 e _ Ho. cbn iota. call. by apply HQ. }
  intros K1 own1 h HK1 HA _ Ho1. cbn iota. apply wp_bind, connect_spec.
  intros K2 own2 [err up] HK2 Hne Ho2. cbn iota beta.
  rewrite Ho1, app_nil_r in Ho2.
  assert (∀ K0 own0 r (p : prog unit), own0 ≡ₚ op_tokens h →
            (∀ K' own', own' ≡ₚ [] → wp p K' own' Q) → wp (proxy_finish h r;; p) K0 own0 Q) as Hfin.
  { intros K0 own0 r p Ho Hk. apply wp_bind. eapply finish_spec.
    - by rewrite app_nil_r. - intros. by apply Hk. }
  destruct err as [e|].
  { apply Hfin; [done|]. intros K3 own3 Ho3. call. apply close_spec. intros. apply HQ.
    etrans; [done|done]. }
  destruct up; [|done]. cbn [negb]. cbn iota.
  apply wp_call. { eapply permitted_knows; [exact HK2|]. eapply parseChannelOperation_permitted; [done|].
    simpl. unfold compose. naive_solver. }
  intros opened _. exists own2. split; [done|]. tidy. destruct opened.
  - call_as acc. destruct acc as [e|].
    + call. eapply finish_spec; [by rewrite app_nil_r|]. intros. by apply HQ.
    + eapply newChannel_spec'; [done|naive_solver|]. intros. by apply HQ.
  - apply Hfin; [done|]. intros. call. by apply HQ.
  - apply Hfin; [done|]. intros. call. by apply HQ.
Qed.

Lemma finish_then {B} h r (p : prog B) K own Q :
  own ≡ₚ op_tokens h → (∀ K' own', knows K K' → own' ≡ₚ [] → wp p K' own' Q) →
  wp (proxy_finish h r;; p) K own Q.
Proof.
  intros Ho Hk. apply wp_bind. eapply finish_spec; [by rewrite app_nil_r|]. intros. by apply Hk.
Qed.

Lemma addRemoteForward_spec key h K own Q :
  own ≡ₚ op_tokens h → forward_ok (K ∘ FAllowed) key →
  (∀ K' own', own' ≡ₚ [] → Q K' own' tt) → wp (addRemoteForward key h) K own Q.
Proof.
  intros Ho Hf HQ. split; [done|]. intros [] _; tidy.
  - exists []. rewrite app_nil_r. split; [done|]. by apply HQ.
  - exists own. split; [done|]. eapply finish_spec; [by rewrite app_nil_r|]. intros. by apply HQ.
Qed.

Lemma removeRemoteForward_spec key r K own Q :
  (∀ K' own', own' ≡ₚ own → Q K' own' tt) → wp (removeRemoteForward key r) K own Q.
Proof.
  intros HQ. split; [done|]. intros h _. exists own. split; [done|]. tidy.
  eapply finish_spec; [done|]. intros. by apply HQ.
Qed.

(** The check of an existing forward, made for one request type only. *)
Lemma checked_spec (b : bool) key (d : bool) K own Q :
  (∀ K' (r : bool), knows K K' → (b = true → r = true → K' (FForward key)) → (b = false → r = d) →
     Q K' own r) →
  wp (if b then do (HasRemoteForward key) else mret d) K own Q.
Proof.
  intros HQ. destruct b.
  - split; [done|]. intros r _. exists own. split; [done|]. tidy. apply HQ; kn.
  - apply HQ; kn.
Qed.

Lemma handleRequest_spec request K Q :
  (∀ K' own' a, own' ≡ₚ [] → Q K' own' a) → wp (handleRequest request) K [] Q.
Proof.
  intros HQ. unfold handleRequest. destruct (planGlobalRequest _ _) as [plan|] eqn:Hp; [|by apply HQ].
  apply wp_bind, beginOperation_spec; [|intros; by apply HQ].
  intros K1 own1 h HK1 HA Hnil Ho1. cbn iota. rewrite app_nil_r in Ho1.
  apply wp_bind, checked_spec. intros K2 ex HK2 _ _. destruct ex.
  { apply finish_then; [done|]. intros. by apply HQ. }
  apply wp_bind, checked_spec. intros K3 known HK3 Hknown Hd.
  destruct (negb known) eqn:Hneg.
  { apply negb_true_iff in Hneg. subst known.
    destruct (bool_decide (rq_Type request = RequestCancelTCPIPForward)) eqn:Hc; [|by discriminate Hd].
    apply bool_decide_eq_true in Hc. rewrite Hc in Hp.
    rewrite (Hnil (planGlobalRequest_cancel _ _ Hp)) in Ho1. by apply HQ. }
  apply wp_bind, connect_spec. intros K4 own4 [err up] HK4 Hne Ho4. cbn iota beta. rewrite Ho1 in Ho4.
  destruct err as [e|].
  { apply finish_then; [done|]. intros. apply wp_bind, close_spec. intros. apply HQ. by etrans. }
  destruct up; [|done]. cbn [negb]. cbn iota. apply wp_call.
  { eapply planGlobalRequest_permitted; [done| |]; simpl; unfold compose; [kn|].
    intros Hc. apply HK4, Hknown; [by apply bool_decide_eq_true|].
    by apply negb_false_iff in Hneg. }
  intros sent _. exists own4. split; [done|]. tidy. destruct sent as [[ok payload]|e].
  2:{ apply finish_then; [done|]. intros. by apply HQ. }
  destruct (rq_WantReply request && negb ok).
  { apply finish_then; [done|]. intros. by apply HQ. }
  apply wp_bind.
  destruct (bool_decide (rq_Type request = RequestTCPIPForward)) eqn:Hf; [|destruct (bool_decide _)].
  - apply wp_bind, addRemoteForward_spec; [done| |].
    + apply bool_decide_eq_true in Hf. rewrite Hf in Hp.
      eapply planGlobalRequest_forward; [done|]. unfold compose. kn.
    + intros K5 own5 Ho5. by apply HQ.
  - apply wp_bind, removeRemoteForward_spec. intros K5 own5 Ho5. apply finish_then; [by etrans|].
    intros. by apply HQ.
  - apply finish_then; [done|]. intros. by apply HQ.
Qed.

Lemma operationForUpstreamChannel_spec ty data K Q :
  (∀ K' o, (∀ K'', knows K' K'' → (∀ o', o = Some o' → K'' (FAllowed o')) →
      permitted envAllowed (granted K'') (EvOpen Downstream ty data)) →
     Q K' [] (Ok o)) →
  (∀ K' e, Q K' [] (Err e)) →
  wp (operationForUpstreamChannel ty data) K [] Q.
Proof.
  intros Hok Herr. unfold operationForUpstreamChannel.
  destruct (bool_decide (ty = ChannelForwardedTCPIP)) eqn:Hf.
  { destruct (Unmarshal_channelForward data) as [d|] eqn:Hd; [|apply Herr].
    apply wp_call; [done|]. intros known _. exists []. split; [done|]. tidy.
    destruct known; [|apply Herr]. apply Hok. intros K'' HK _. simpl. rewrite Hf.
    exists d. split; [done|]. apply HK. by left. }
  destruct (bool_decide (ty = ChannelAgent)) eqn:Ha.
  { apply wp_call; [done|]. intros set _. exists []. split; [done|]. tidy.
    destruct set; [|apply Herr]. apply Hok. intros K'' HK _. simpl. rewrite Hf, Ha.
    apply HK. by left. }
  apply Hok. intros K'' HK HA. simpl. rewrite Hf, Ha. by apply HA.
Qed.

Lemma serveUpstreamChannel_spec K Q :
  (∀ K' own' b, own' ≡ₚ [] → Q K' own' b) → wp (serveUpstreamChannel error_string) K [] Q.
Proof.
  intros HQ. unfold serveUpstreamChannel. call_as nc. destruct nc as [[ty data]|]; [|by apply HQ].
  apply wp_bind, operationForUpstreamChannel_spec.
  2:{ intros K1 e. cbn iota. call. by apply HQ. }
  intros K1 o Hperm. cbn iota. apply wp_bind, beginOperation_spec.
  2:{ intros K2 own2 e _ Ho. cbn iota. call. by apply HQ. }
  intros K2 own2 h HK2 HA _ Ho. cbn iota. rewrite app_nil_r in Ho.
  apply wp_call; [by apply Hperm|]. intros opened _. exists own2. split; [done|]. tidy.
  assert (∀ e K0, wp (proxy_finish h (result_of (Some e));;
      do (RejectChannel Upstream ConnectionFailed "downstream rejected channel");; mret true) K0 own2 Q) as Hfail.
  { intros e K0. apply finish_then; [done|]. intros. call. by apply HQ. }
  destruct opened; [|apply Hfail|apply Hfail].
  call_as acc. destruct acc as [e|].
  - call. apply finish_then; [done|]. intros. by apply HQ.
  - apply newChannel_spec; [done|naive_solver|]. intros. by apply HQ.
Qed.

Lemma serveUpstreamRequest_spec K Q :
  (∀ K' own' b, own' ≡ₚ [] → Q K' own' b) → wp serveUpstreamRequest K [] Q.
Proof.
  intros HQ. unfold serveUpstreamRequest. call_as req. destruct req as [request|]; [|by apply HQ].
  assert (∀ b (p : prog unit) K0 own0, own0 ≡ₚ [] →
    (∀ Q', (∀ K' u, Q' K' own0 u) → wp p K0 own0 Q') → wp (when b p;; mret true) K0 own0 Q) as Hwhen.
  { intros b p K0 own0 Ho Hp. destruct b; [|by apply HQ]. apply wp_bind, Hp. intros. by apply HQ. }
  apply wp_bind. set (Q1 := fun K own a => wp _ K own Q).
  assert (∀ K' h own', own' ≡ₚ op_tokens h →
     (rq_Type request ∈ [RequestKeepalive; RequestNoMoreSessions] ∨
      K' (FAllowed (request_operation (rq_Type request)))) → Q1 K' own' (Ok h)) as Hsend.
  { intros K' h own' Ho Hp. subst Q1. cbn iota beta. apply wp_call; [exact Hp|].
    intros sent _. exists own'. split; [done|]. tidy.
    destruct (match sent with Ok (ok, payload) => _ | Err e => _ end) as [[err accepted] payload].
    apply finish_then; [done|]. intros. apply Hwhen; [done|]. intros Q' HQ'. call. apply HQ'. }
  destruct (bool_decide (rq_Type request ≠ RequestKeepalive)) eqn:H1; cbn [andb].
  2:{ apply bool_decide_eq_false, dec_stable in H1. apply Hsend; [done|]. left. rewrite H1. set_solver. }
  destruct (bool_decide (rq_Type request ≠ RequestNoMoreSessions)) eqn:H2.
  2:{ apply bool_decide_eq_false, dec_stable in H2. apply Hsend; [done|]. left. rewrite H2. set_solver. }
  apply beginOperation_spec.
  - intros K' own' h HK HA _ Ho. rewrite app_nil_r in Ho. apply Hsend; [done|]. right. by apply HA.
  - intros K' own' e _ Ho. subst Q1. cbn iota beta. apply Hwhen; [done|]. intros Q' HQ'. call. apply HQ'.
Qed.

Lemma when_spec b (p : prog unit) K own Q :
  (∀ Q', (∀ K' u, knows K K' → Q' K' own u) → wp p K own Q') → (∀ K' u, knows K K' → Q K' own u) →
  wp (when b p) K own Q.
Proof. intros Hp HQ. destruct b; [by apply Hp|]. apply HQ. kn. Qed.

Lemma setAgentForward_spec h K own Q :
  own ≡ₚ [TOp h] → K (FAllowed agent_operation) → (∀ K' own', own' ≡ₚ [] → Q K' own' tt) →
  wp (setAgentForward h) K own Q.
Proof.
  intros Ho Ha HQ. apply wp_call; [done|]. intros [set previous] _. destruct set; tidy.
  - exists []. split; [done|]. eapply finish_spec; [done|]. intros. by apply HQ.
  - exists own. split; [done|]. eapply (finish_spec (Some h)); [exact Ho|]. intros. by apply HQ.
Qed.

Lemma replaceFinish_spec ch h K own Q :
  own ≡ₚ [TOp h] → (∀ K' own', own' ≡ₚ [] → Q K' own' tt) → wp (replaceFinish ch h) K own Q.
Proof.
  intros Ho HQ. apply wp_call; [done|]. intros previous _. exists []. split; [done|]. tidy.
  eapply finish_spec; [done|]. intros. by apply HQ.
Qed.

Lemma settleRequest_spec ch request h effect sent K own Q :
  own ≡ₚ [TOp h] → (effect = downstreamRequestAgentForward → K (FAllowed agent_operation)) →
  (∀ K' own', own' ≡ₚ [] → Q K' own' tt) → wp (settleRequest ch request h effect sent) K own Q.
Proof.
  intros Ho Ha HQ. unfold settleRequest.
  assert (∀ r, wp (proxy_finish (Some h) r) K own Q) as Hfin.
  { intros r. eapply (finish_spec (Some h)); [exact Ho|]. intros. by apply HQ. }
  destruct sent as [ok|e]; [|apply Hfin]. destruct (rq_WantReply request && negb ok); [apply Hfin|].
  destruct effect; [apply Hfin|by apply replaceFinish_spec|]. apply setAgentForward_spec; auto.
Qed.

Lemma admitRequest_spec ch from request (K : fact → Prop) Q :
  K (FServed ch) →
  (∀ K' own' h effect, own' ≡ₚ op_tokens h →
     permitted envAllowed (granted K')
       (EvChannelRequest ch (other from) (rq_Type request) (rq_Payload request)) →
     (effect = downstreamRequestAgentForward → K' (FAllowed agent_operation)) →
     Q K' own' (Some (h, effect))) →
  (∀ K' own', own' ≡ₚ [] → Q K' own' None) →
  wp (admitRequest envAllowed ch from request) K [] Q.
Proof.
  intros Hserved Hok Hno. unfold admitRequest. destruct from.
  - apply wp_bind. assert (∀ K', knows K K' → Q K' [] (Some (None, downstreamRequestNone))) as Hup.
    { intros K' HK. apply Hok; [done| |done]. by apply HK. }
    repeat case_match; try (apply Hup; kn). split; [done|]. intros u _. exists []. split; [done|]. apply Hup. kn.
  - destruct (planDownstreamRequest _ _ _) as [plan|] eqn:Hp; [|by apply Hno].
    apply wp_bind, beginOperation_spec; [|intros; by apply Hno].
    intros K1 own1 h HK HA _ Ho. cbn iota. rewrite app_nil_r in Ho. apply Hok; [done| |].
    + split; [by apply HK|]. eapply planDownstreamRequest_permitted; [done|]. exact HA.
    + intros He. apply HA. by eapply planDownstreamRequest_agent.
Qed.

Lemma forwardRequest_spec ch from (K : fact → Prop) Q :
  K (FServed ch) → (∀ K' own' b, own' ≡ₚ [] → Q K' own' b) → wp (forwardRequest envAllowed ch from) K [] Q.
Proof.
  intros Hserved HQ. unfold forwardRequest. call_as req. destruct req as [request|]; [|by apply HQ].
  apply wp_bind, admitRequest_spec; [by right| |].
  2:{ intros K1 own1 Ho. cbn iota. apply wp_bind, when_spec.
      - intros Q' HQ'. call. apply HQ'. kn.
      - intros. by apply HQ. }
  intros K1 own1 h effect Ho Hperm Ha. cbn iota beta. apply wp_call; [exact Hperm|].
  intros sent _. exists own1. split; [done|]. tidy.
  assert (∀ K0 own0 b a, own0 ≡ₚ [] →
    wp (when (rq_WantReply request) (do (Reply from a ""));; mret b) K0 own0 Q) as Hreply.
  { intros K0 own0 b a Ho0. apply wp_bind, when_spec.
    - intros Q' HQ'. call. apply HQ'. kn.
    - intros. by apply HQ. }
  apply wp_bind. destruct h as [h|]; [|by apply Hreply].
  apply settleRequest_spec; [exact Ho|naive_solver|]. intros. by apply Hreply.
Qed.

Lemma serve_spec ch (K : fact → Prop) Q :
  K (FServed ch) → (∀ K' own' u, own' ≡ₚ [] → Q K' own' u) → wp (serve ch) K [TChan ch] Q.
Proof.
  intros Hserved HQ. unfold serve. call. call; [naive_solver|]. call_as outcome. apply wp_call; [done|].
  intros [h exitCode] _. exists []. split; [done|]. tidy. eapply finish_spec; [done|].
  intros. by apply HQ.
Qed.

(** Every goroutine body keeps its tokens in order; only [serve] starts with one. *)
Definition start_tokens (l : label) : list token :=
  match l with ServeChannel ch => [TChan ch] | _ => [] end.

(** What a goroutine knows when it starts: its channel is served. *)
Definition start_facts (l : label) (f : fact) : Prop :=
  match l with ServeChannel ch | ForwardRequests ch _ => f = FServed ch | _ => False end.

Lemma code_spec l (Q : (fact → Prop) → list token → bool → Prop) :
  (∀ K' own' b, own' ≡ₚ [] → Q K' own' b) →
  wp (code envAllowed error_string l) (start_facts l) (start_tokens l) Q.
Proof.
  intros HQ. destruct l; cbn [code start_tokens].
  - unfold globalRequest. call_as req. destruct req as [request|]; [|by apply HQ].
    apply wp_bind. unfold HandleGlobalRequest. call_as avail.
    assert (∀ K own (a : bool * string), own ≡ₚ [] → wp (let '(ok, payload) := a in
        do (Reply Downstream ok payload);; mret true) K own Q) as Hreply.
    { intros K own [ok payload] Ho. call. by apply HQ. }
    destruct avail; [apply handleRequest_spec; intros; by apply Hreply|by apply (Hreply _ _ (false, ""))].
  - apply wp_bind. unfold HandleChannel. call_as avail.
    destruct avail; [apply handleChannel_spec; intros; by apply HQ|call; by apply HQ].
  - apply wp_bind. unfold Protocol_Close. call_as created. apply when_spec.
    + intros Q' HQ'. apply close_spec. intros K' own' HK Ho. apply Permutation_nil_r in Ho as ->. by apply HQ'.
    + intros. by apply HQ.
  - by apply serveUpstreamChannel_spec.
  - by apply serveUpstreamRequest_spec.
  - call. apply wp_bind, close_spec. intros. by apply HQ.
  - apply wp_bind, serve_spec; [done|]. intros. by apply HQ.
  - unfold forwardRequests. apply wp_bind, forwardRequest_spec; [done|]. intros K own b Ho.
    apply wp_bind, when_spec.
    + intros Q' HQ'. call. apply HQ'. kn.
    + intros. by apply HQ.
Qed.
End Logic.

(** ** The calls respect facts and tokens *)

Definition allowed_in (l : list event) (o : Operation) : Prop := ∃ h, EvBegin o h None ∈ l.
Definition opened_in (l : list event) (to : side) (ty data : string) : Prop := EvOpen to ty data ∈ l.
Definition served_in (l : list event) (ch : nat) : Prop := ∃ to ty data, EvServe ch to ty data ∈ l.
Definition finished (l : list event) : list nat :=
  omap (fun e => match e with EvFinish h _ => Some h | _ => None end) l.

Definition isPublished (s : proxyState) : Prop := upstreamSet s = true ∨ is_Some (connectErr s).

Definition holds (s : proxyState) (f : fact) : Prop :=
  match f with
  | FAllowed o => allowed_in (log s) o
  | FForward key => forward_ok (allowed_in (log s)) key
  | FAgent => allowed_in (log s) agent_operation
  | FOpened to ty data => opened_in (log s) to ty data
  | FServed ch => served_in (log s) ch
  | FPublished => isPublished s
  | FOnceDone => connectOnce s = OnceDone ∧ isPublished s
  end.

(** The finish functions somebody may still call: registered ones, and the lost ones. *)
Definition stored (s : proxyState) : list nat :=
  held (default ∅ (remoteForwards s)) ++ opt_list (agentForward s) ++
  omap pc_finish (channels s) ++ lost s.

Lemma guarded_Some b s s' : guarded b s = Some s' ↔ b = true ∧ s' = s.
Proof. unfold guarded. destruct b; naive_solver. Qed.

(** Case analysis of an answered call. *)
Ltac answered H :=
  simpl in H; repeat (case_match; simpl in H; try discriminate H);
  rewrite ?guarded_Some in H; destruct_and?; simplify_eq/=.

Lemma answer_log s c r s' : answer s c r = Some s' → ∃ evs, log s' = log s ++ evs.
Proof.
  intros Ha. destruct c; answered Ha; first [by eexists | exists []; by rewrite app_nil_r].
Qed.

Lemma allowed_in_app l l' o : allowed_in l o → allowed_in (l ++ l') o.
Proof. intros [h Hh]. exists h. apply elem_of_app. by left. Qed.

Lemma opened_in_app l l' to ty data : opened_in l to ty data → opened_in (l ++ l') to ty data.
Proof. intros Ho. apply elem_of_app. by left. Qed.
Lemma served_in_app l l' ch : served_in l ch → served_in (l ++ l') ch.
Proof. intros (to & ty & data & Ho). exists to, ty, data. apply elem_of_app. by left. Qed.

(** What a log grants to the event that follows it. *)
Definition granted_by (l : list event) : grants :=
  mkGrants (allowed_in l) (forward_ok (allowed_in l)) (allowed_in l agent_operation) (opened_in l) (served_in l).

Lemma granted_holds s : grants_le (granted (holds s)) (granted_by (log s)).
Proof. by split. Qed.

Lemma answer_published s c r s' : answer s c r = Some s' → isPublished s → isPublished s'.
Proof.
  unfold isPublished. intros Ha Hp. destruct c; answered Ha; first [done | naive_solver].
Qed.

Lemma answer_once s c r s' :
  answer s c r = Some s' → connectOnce s = OnceDone → connectOnce s' = OnceDone.
Proof. intros Ha Hp. destruct c; answered Ha; first [done | naive_solver]. Qed.

Lemma answer_holds s c r s' f : answer s c r = Some s' → holds s f → holds s' f.
Proof.
  intros Ha. destruct (answer_log _ _ _ _ Ha) as [evs Hl].
  destruct f; simpl; rewrite ?Hl; eauto using allowed_in_app, answer_published, opened_in_app, served_in_app.
  - apply forward_ok_mono. intros o Ho. by apply allowed_in_app.
  - intros []. eauto using answer_published, answer_once.
Qed.

(** ** Accounting of finish functions *)

Definition op_of (t : token) : option nat := match t with TOp h => Some h | TChan _ => None end.
Definition ops (ts : list token) : list nat := omap op_of ts.

Lemma ops_app ts ts' : ops (ts ++ ts') = ops ts ++ ops ts'.
Proof. apply omap_app. Qed.
Lemma ops_map hs : ops (TOp <$> hs) = hs.
Proof. unfold ops. induction hs as [|h hs IH]; [done|]. csimpl. by rewrite IH. Qed.
Lemma ops_tokens o : ops (op_tokens o) = opt_list o.
Proof. apply ops_map. Qed.

Lemma held_insert m key h :
  held (<[key := h]> m) ++ opt_list (default None (m !! key)) ≡ₚ held m ++ opt_list h.
Proof.
  unfold held. rewrite <-(insert_delete_eq m key h).
  rewrite map_to_list_insert by apply lookup_delete_eq.
  destruct (m !! key) as [h'|] eqn:Hm.
  - rewrite <-(insert_id m key h' Hm) at 2. rewrite <-(insert_delete_eq m key h').
    rewrite (map_to_list_insert (delete key m)) by apply lookup_delete_eq.
    simpl. destruct h, h'; simpl; solve_Permutation.
  - rewrite delete_id by done. simpl. destruct h; simpl; solve_Permutation.
Qed.

Lemma held_delete m key :
  held (delete key m) ++ opt_list (default None (m !! key)) ≡ₚ held m.
Proof.
  unfold held. destruct (m !! key) as [h|] eqn:Hm.
  - rewrite <-(insert_id m key h Hm) at 2. rewrite <-(insert_delete_eq m key h).
    rewrite (map_to_list_insert (delete key m)) by apply lookup_delete_eq.
    simpl. destruct h; simpl; solve_Permutation.
  - rewrite delete_id by done. simpl. by rewrite app_nil_r.
Qed.

Lemma finish_alter (cs : list proxiedChannel) (ch : nat) c f :
  cs !! ch = Some c →
  omap pc_finish (alter f ch cs) ++ opt_list (pc_finish c) ≡ₚ
  omap pc_finish cs ++ opt_list (pc_finish (f c)).
Proof.
  revert ch. induction cs as [|c0 cs IH]; intros [|ch]; simpl; try done.
  - intros [= ->]. destruct (pc_finish (f c)), (pc_finish c); simpl; solve_Permutation.
  - intros Hc. specialize (IH ch Hc). destruct (pc_finish c0); simpl; [by rewrite IH|done].
Qed.

Lemma finish_alter_same (cs : list proxiedChannel) (ch : nat) f :
  (∀ c, pc_finish (f c) = pc_finish c) → omap pc_finish (alter f ch cs) = omap pc_finish cs.
Proof.
  intros Hf. revert ch. induction cs as [|c0 cs IH]; intros [|ch]; simpl; try done.
  - by rewrite Hf.
  - destruct (pc_finish c0); [f_equal|]; apply IH.
Qed.

Lemma finished_app l l' : finished (l ++ l') = finished l ++ finished l'.
Proof. apply omap_app. Qed.

(** How the locked regions move finish functions in and out of the proxy's fields. *)
Lemma stored_add s m key h :
  remoteForwards s = Some m →
  stored (set_forwards s (Some (<[key := h]> m)) (opt_list (default None (m !! key)))) ≡ₚ
  stored s ++ opt_list h.
Proof.
  intros Hm. unfold stored. rewrite Hm. simpl. pose proof (held_insert m key h) as Hi.
  trans ((held (<[key := h]> m) ++ opt_list (default None (m !! key))) ++
         opt_list (agentForward s) ++ omap pc_finish (channels s) ++ lost s); [solve_Permutation|].
  rewrite Hi. solve_Permutation.
Qed.

Lemma stored_remove s key :
  stored (set_forwards s (delete key <$> remoteForwards s) []) ++ opt_list (default None (forward_at s key))
  ≡ₚ stored s.
Proof.
  unfold stored, forward_at. simpl. rewrite app_nil_r.
  destruct (remoteForwards s) as [m|]; simpl; [|solve_Permutation].
  pose proof (held_delete m key) as Hi.
  trans ((held (delete key m) ++ opt_list (default None (m !! key))) ++
         opt_list (agentForward s) ++ omap pc_finish (channels s) ++ lost s); [solve_Permutation|].
  by rewrite Hi.
Qed.

Lemma stored_update s ch c f :
  channels s !! ch = Some c →
  stored (update_channel s ch f) ++ opt_list (pc_finish c) ≡ₚ stored s ++ opt_list (pc_finish (f c)).
Proof.
  intros Hc. unfold stored. simpl. pose proof (finish_alter _ _ _ f Hc) as Hi.
  trans (held (default ∅ (remoteForwards s)) ++ opt_list (agentForward s) ++ lost s ++
         omap pc_finish (alter f ch (channels s)) ++ opt_list (pc_finish c)); [solve_Permutation|].
  rewrite Hi. solve_Permutation.
Qed.

Lemma stored_update_same s ch f :
  (∀ c, pc_finish (f c) = pc_finish c) → stored (update_channel s ch f) = stored s.
Proof. intros Hf. unfold stored. simpl. by rewrite finish_alter_same. Qed.

(** Every call moves finish functions between the tokens of the caller, the proxy's fields and the
    finished ones, and nothing is created but by [Begin]. *)
Definition balanced (s s' : proxyState) (P C : list nat) : Prop :=
  begun s ≤ begun s' ∧
  finished (log s') ++ stored s' ++ P ≡ₚ
  (finished (log s) ++ stored s ++ C) ++ seq (begun s) (begun s' - begun s).

Lemma balanced_stored s s' evs P C :
  begun s' = begun s → log s' = log s ++ evs → finished evs = [] →
  stored s' ++ P ≡ₚ stored s ++ C → balanced s s' P C.
Proof.
  intros Hb Hl Hev Hperm. unfold balanced.
  rewrite Hb, Hl, Nat.sub_diag, finished_app, Hev, !app_nil_r, Hperm. done.
Qed.

Lemma balanced_same s s' :
  begun s' = begun s → log s' = log s → stored s' = stored s → balanced s s' [] [].
Proof.
  intros Hb Hl Hs. apply (balanced_stored s s' []); [done|by rewrite Hl, app_nil_r|done|by rewrite Hs].
Qed.

Lemma balanced_begin s o err :
  balanced s (set_log (set_begun s (S (begun s))) (EvBegin o (Some (begun s)) err)) [begun s] [].
Proof.
  split; [simpl; lia|].
  change (log (set_log _ _)) with (log s ++ [EvBegin o (Some (begun s)) err]).
  change (begun (set_log _ _)) with (S (begun s)).
  rewrite finished_app. replace (S (begun s) - begun s) with 1 by lia. simpl.
  change (stored (set_log _ _)) with (stored s). solve_Permutation.
Qed.

Lemma balanced_finish s h r : balanced s (set_log s (EvFinish h r)) [] [h].
Proof.
  split; [done|]. change (begun (set_log s _)) with (begun s).
  rewrite Nat.sub_diag. change (stored (set_log s _)) with (stored s).
  change (log (set_log s _)) with (log s ++ [EvFinish h r]). rewrite finished_app. simpl.
  solve_Permutation.
Qed.

(** The calls that store or hand out finish functions. *)
Lemma answer_stored s c r s' :
  answer s c r = Some s' →
  match c with
  | CloseProxy | AddRemoteForward _ _ | RemoveRemoteForward _ | SetAgentForward _ | NewChannel _ _ _ _
  | ReplaceFinish _ _ | TakeFinish _ => stored s' ++ ops (produced c r) ≡ₚ stored s ++ ops (consumed c r)
  | _ => True
  end.
Proof.
  intros Ha. destruct c; try done; cbn [answer produced consumed] in *.
  - destruct r as [[up hs]|]; apply guarded_Some in Ha as [Hb ->]; [|done].
    apply andb_true_iff in Hb as [_ Hb]. apply bool_decide_eq_true in Hb.
    rewrite ops_map, Hb. unfold stored. simpl. solve_Permutation.
  - destruct (proxyClosed s); [apply guarded_Some in Ha as [Hb ->]; by destruct r|].
    destruct (remoteForwards s) as [m|] eqn:Hm; [|done]. apply guarded_Some in Ha as [-> ->].
    rewrite ops_tokens, app_nil_r. by apply stored_add.
  - apply guarded_Some in Ha as [Hb ->]. apply bool_decide_eq_true in Hb. subst r.
    rewrite ops_tokens, app_nil_r. apply stored_remove.
  - destruct r as [set previous]. destruct (proxyClosed s); apply guarded_Some in Ha as [Hb ->];
      apply andb_true_iff in Hb as [Hb Hp]; [by destruct set|].
    rewrite Hb. apply bool_decide_eq_true in Hp. subst previous. cbn [fst snd].
    rewrite ops_tokens. unfold stored. simpl. solve_Permutation.
  - apply guarded_Some in Ha as [_ ->]. rewrite ops_tokens. unfold stored. simpl.
    rewrite omap_app. simpl. destruct finish; simpl; solve_Permutation.
  - destruct (channels s !! channel) as [c|] eqn:Hc; [|done]. apply guarded_Some in Ha as [Hb ->].
    apply bool_decide_eq_true in Hb. subst r. rewrite ops_tokens. by rewrite (stored_update s channel c).
  - destruct r as [h exitCode]. destruct (channels s !! channel) as [c|] eqn:Hc; [|done].
    apply guarded_Some in Ha as [Hb ->]. apply andb_true_iff in Hb as [Hb _].
    apply bool_decide_eq_true in Hb. subst h. cbn [fst]. rewrite ops_tokens.
    by rewrite (stored_update s channel c).
Qed.

Lemma answer_ops s c r s' :
  answer s c r = Some s' → balanced s s' (ops (produced c r)) (ops (consumed c r)).
Proof.
  intros Ha. pose proof (answer_stored _ _ _ _ Ha) as Hst.
  assert (log s' = log s → begun s' = begun s → stored s' ++ ops (produced c r) ≡ₚ
    stored s ++ ops (consumed c r) → balanced s s' (ops (produced c r)) (ops (consumed c r))) as Hmove.
  { intros Hl Hb. apply (balanced_stored s s' []); [done|by rewrite Hl, app_nil_r|done]. }
  destruct c; cbn [answer] in Ha; try discriminate Ha;
    try (injection Ha as <-; by apply balanced_same);
    try (injection Ha as <-; by eapply balanced_stored);
    try (apply guarded_Some in Ha as [_ ->]; by apply balanced_same);
    try (apply Hmove; [| |done];
         repeat case_match; rewrite ?guarded_Some in Ha; destruct_and?; simplify_eq; done).
  - destruct r as [[h|] err]; [apply guarded_Some in Ha as [Hb ->]|injection Ha as <-; by eapply balanced_stored].
    breflect. subst h. apply balanced_begin.
  - injection Ha as <-. apply balanced_finish.
  - repeat case_match; rewrite ?guarded_Some in Ha; destruct_and?; simplify_eq; by apply balanced_same.
  - injection Ha as <-. destruct l; by apply balanced_same.
  - case_match; apply guarded_Some in Ha as [_ ->]; by apply balanced_same.
  - case_match; try done; apply guarded_Some in Ha as [_ ->]; by apply balanced_same.
  - repeat case_match; rewrite ?guarded_Some in Ha; destruct_and?; simplify_eq; by apply balanced_same.
  - destruct r. apply guarded_Some in Ha as [_ ->]. by apply balanced_same.
  - apply guarded_Some in Ha as [_ ->]. by eapply balanced_stored.
  - injection Ha as <-. apply balanced_same; [done|done|]. by apply stored_update_same.
  - injection Ha as <-. apply balanced_same; [done|done|]. by apply stored_update_same.
Qed.

Section Invariant.
Context `{SSHWire} (envAllowed : string → bool).

Definition log_ok (l : list event) : Prop :=
  ∀ l1 ev l2, l = l1 ++ ev :: l2 → permitted envAllowed (granted_by l1) ev.

Lemma log_ok_snoc l ev :
  log_ok l → permitted envAllowed (granted_by l) ev → log_ok (l ++ [ev]).
Proof.
  intros Hl Hev l1 ev' l2 Heq. destruct l2 as [|e2 l2 _] using rev_ind.
  - apply app_inj_tail in Heq as [-> ->]. done.
  - rewrite app_comm_cons, app_assoc in Heq. apply app_inj_tail in Heq as [-> _].
    by eapply Hl.
Qed.

Record state_ok (s : proxyState) : Prop := mkStateOk {
  so_forwards : ∀ key h, forward_at s key = Some h → forward_ok (allowed_in (log s)) key;
  so_agent : is_Some (agentForward s) → allowed_in (log s) agent_operation;
  so_once : connectOnce s = OnceDone → isPublished s;
  so_closed : if proxyClosed s then remoteForwards s = None ∧ agentForward s = None
              else is_Some (remoteForwards s);
  so_log : log_ok (log s);
  so_ended : ∀ i c, channels s !! i = Some c → pc_ended c = true → pc_late c = false → pc_finish c = None;
}.

Lemma answer_gained s c r s' f :
  state_ok s → need envAllowed c (holds s) → answer s c r = Some s' → gained c r f → holds s' f.
Proof.
  intros Hs Hn Ha Hg. destruct c; try done; simpl in Hg.
  - destruct Hg as [Herr ->]. destruct r as [h err]. simpl in Herr. subst err. simpl.
    exists h. answered Ha; set_solver.
  - subst f. simpl. unfold opened_in. answered Ha. set_solver.
  - destruct Hg as [-> ->]. answered Ha. split; [done|]. by apply so_once.
  - subst f. simpl. unfold isPublished. answered Ha; naive_solver.
  - subst f. answered Ha; split; done.
  - destruct Hg as [-> ->]. answered Ha. breflect. destruct (forward_at s key) eqn:Hf; [|done].
    by eapply so_forwards.
  - destruct Hg as [-> ->]. answered Ha. breflect. destruct (agentForward s) eqn:Hf; [|done].
    apply so_agent; [done|]. by rewrite Hf.
  - subst f. simpl. unfold served_in. answered Ha. eexists _, _, _. apply elem_of_app. right. by left.
Qed.

Lemma answer_possible s c r s' (K : fact → Prop) :
  (∀ f, K f → holds s f) → answer s c r = Some s' → possible c K r.
Proof.
  intros HK Ha. destruct c; try done. intros Hd ->. apply HK in Hd as [_ [Hp|[e Hp]]]; answered Ha; breflect; congruence.
Qed.

Lemma answer_need s c (K : fact → Prop) :
  (∀ f, K f → holds s f) → need envAllowed c K → need envAllowed c (holds s).
Proof.
  intros HK. destruct c; cbn [need]; try done;
    try (by apply permitted_mono, granted_mono); try apply HK;
    try (case_match; [done..| |]; apply HK).
  apply forward_ok_mono. unfold compose. intros; by apply HK.
Qed.

(** Updates of a channel keep the invariant of ended channels. *)
Lemma ended_alter (f : proxiedChannel → proxiedChannel) (cs : list proxiedChannel) (ch : nat) :
  (∀ c, (pc_ended c = true → pc_late c = false → pc_finish c = None) →
        pc_ended (f c) = true → pc_late (f c) = false → pc_finish (f c) = None) →
  (∀ i c, cs !! i = Some c → pc_ended c = true → pc_late c = false → pc_finish c = None) →
  ∀ i c, alter f ch cs !! i = Some c → pc_ended c = true → pc_late c = false → pc_finish c = None.
Proof.
  intros Hf Hcs i c. destruct (decide (i = ch)) as [->|Hne].
  - rewrite list_lookup_alter_eq. destruct (cs !! ch) as [c0|] eqn:Hc; [|done].
    intros [= <-]. exact (Hf c0 (Hcs ch c0 Hc)).
  - rewrite list_lookup_alter_ne by done. apply Hcs.
Qed.

(** An event added to the log keeps everything else. *)
Lemma state_ok_event s ev :
  state_ok s → permitted envAllowed (granted_by (log s)) ev → state_ok (set_log s ev).
Proof.
  intros [Hf Ha Ho Hc Hl He] Hev. split; try done; simpl.
  - intros key h Hk. eapply forward_ok_mono; [intros o; apply allowed_in_app|by eapply Hf].
  - intros Hx. by apply allowed_in_app, Ha.
  - by apply log_ok_snoc.
Qed.

(** One lemma per field the calls update. *)
Lemma state_ok_fields s s' :
  state_ok s → remoteForwards s' = remoteForwards s → agentForward s' = agentForward s →
  log s' = log s → proxyClosed s' = proxyClosed s → channels s' = channels s →
  (connectOnce s' = OnceDone → isPublished s') → state_ok s'.
Proof.
  intros [Hf Ha Ho Hc Hl He] E1 E2 E3 E4 E5 Hp. unfold forward_at in *.
  split; unfold forward_at; rewrite ?E1, ?E2, ?E3, ?E4, ?E5; done.
Qed.

Lemma state_ok_forwards s m gone :
  state_ok s → (∀ key h, m ≫= (.!! key) = Some h → forward_ok (allowed_in (log s)) key) →
  (is_Some m ↔ is_Some (remoteForwards s)) → state_ok (set_forwards s m gone).
Proof.
  intros [Hf Ha Ho Hc Hl He] Hm Hs. split; try done. simpl. destruct (proxyClosed s).
  - destruct Hc as [Hc ?]. split; [|done]. rewrite Hc in Hs. apply eq_None_not_Some.
    rewrite Hs. by intros [].
  - by apply Hs.
Qed.

Lemma state_ok_channels s cs :
  state_ok s →
  (∀ i c, cs !! i = Some c → pc_ended c = true → pc_late c = false → pc_finish c = None) →
  state_ok (set_channels s cs).
Proof. intros [Hf Ha Ho Hc Hl He] Hcs. by split. Qed.

Lemma state_ok_update s ch f :
  state_ok s →
  (∀ c, (pc_ended c = true → pc_late c = false → pc_finish c = None) →
        pc_ended (f c) = true → pc_late (f c) = false → pc_finish (f c) = None) →
  state_ok (update_channel s ch f).
Proof.
  intros Hs Hf. apply state_ok_channels; [done|]. apply ended_alter; [done|]. by destruct Hs.
Qed.

Lemma answer_state s c r s' :
  state_ok s → need envAllowed c (holds s) → answer s c r = Some s' → state_ok s'.
Proof.
  intros Hs Hn Ha. destruct c; cbn [answer] in Ha; try discriminate Ha; try (injection Ha as <-; done).
  - destruct r as [[h|] err]; [apply guarded_Some in Ha as [_ ->]|injection Ha as <-].
    + apply state_ok_event; [|done]. apply (state_ok_fields s); try done. by apply Hs.
    + by apply state_ok_event.
  - injection Ha as <-. by apply state_ok_event.
  - injection Ha as <-. by apply state_ok_event.
  - injection Ha as <-. by apply state_ok_event.
  - injection Ha as <-. by apply state_ok_event.
  - repeat case_match; rewrite ?guarded_Some in Ha; by simplify_eq/=; destruct_and?; subst.
  - case_match; apply guarded_Some in Ha as [_ ->]; [done|].
    apply (state_ok_fields s); try done. by apply Hs.
  - apply guarded_Some in Ha as [_ ->]. apply (state_ok_fields s); try done. by apply Hs.
  - case_match; try done; apply guarded_Some in Ha as [_ ->]; [|done]. by apply (state_ok_fields s).
  - repeat case_match; rewrite ?guarded_Some in Ha; destruct_and?; simplify_eq/=;
      apply (state_ok_fields s); try done; intros _; [right|right|left]; done.
  - injection Ha as <-. apply (state_ok_fields s); done.
  - destruct r as [err set]. by apply guarded_Some in Ha as [_ ->].
  - destruct r as [[up hs]|]; apply guarded_Some in Ha as [_ ->]; [|done].
    destruct Hs. split; try done. simpl. by intros [].
  - by apply guarded_Some in Ha as [_ ->].
  - destruct (proxyClosed s) eqn:Hcl; [by apply guarded_Some in Ha as [_ ->]|].
    destruct (remoteForwards s) as [m|] eqn:Hm; [|done]. apply guarded_Some in Ha as [_ ->].
    apply state_ok_forwards; [done| |by rewrite Hm]. simpl. intros k h.
    destruct (decide (k = key)) as [->|Hk]; [intros _; exact Hn|].
    rewrite lookup_insert_ne by done. intros Hk'. eapply (so_forwards s Hs k h).
    unfold forward_at. by rewrite Hm.
  - apply guarded_Some in Ha as [_ ->]. apply state_ok_forwards; [done| |by rewrite fmap_is_Some].
    intros k h Hk. apply (so_forwards s Hs k h). unfold forward_at.
    destruct (remoteForwards s) as [m|]; [|done]. simpl in *.
    apply lookup_delete_Some in Hk as [_ Hk]. done.
  - by apply guarded_Some in Ha as [_ ->].
  - destruct r as [set previous]. destruct (proxyClosed s) eqn:Hcl; apply guarded_Some in Ha as [_ ->]; [done|].
    destruct Hs as [Hf Hag Ho Hc Hl He]. split; try done. simpl. rewrite Hcl in *. done.
  - apply guarded_Some in Ha as [_ ->]. apply state_ok_event; [|exact Hn]. apply state_ok_channels; [done|].
    intros i c [Hi|[_ Hi]]%lookup_app_Some; [by eapply so_ended|].
    apply list_lookup_singleton_Some in Hi as [_ <-]. done.
  - injection Ha as <-. apply state_ok_update; [done|]. naive_solver.
  - case_match; [|done]. apply guarded_Some in Ha as [_ ->]. apply state_ok_update; [done|].
    simpl. intros c0 _ ->. by destruct (pc_late c0).
  - injection Ha as <-. apply state_ok_update; [done|]. naive_solver.
  - destruct r. case_match; [|done]. apply guarded_Some in Ha as [_ ->]. by apply state_ok_update.
Qed.
End Invariant.

(** ** The invariant of the running proxy *)

Definition open_channel (s : proxyState) (i : nat) : Prop :=
  ∃ c, channels s !! i = Some c ∧ pc_ended c = false.

Lemma open_alter (f : proxiedChannel → proxiedChannel) s ch i :
  (∀ c, pc_ended (f c) = false → pc_ended c = false) →
  open_channel (update_channel s ch f) i →
  open_channel s i ∧ (i = ch → ∃ c, pc_ended (f c) = false).
Proof.
  intros Hf (c & Hc & He). simpl in Hc. destruct (decide (i = ch)) as [->|Hne].
  - rewrite list_lookup_alter_eq in Hc. destruct (channels s !! ch) as [c0|] eqn:H0; [|done].
    simpl in Hc. injection Hc as <-. split; [|eauto]. exists c0. auto.
  - rewrite list_lookup_alter_ne in Hc by done. split; [by exists c|done].
Qed.

(** A channel stays open only if it was and its [serve] did not end; new ones belong to the
    caller. *)
Lemma answer_open s c r s' i :
  answer s c r = Some s' → open_channel s' i →
  TChan i ∈ produced c r ∨ open_channel s i ∧ c ≠ TakeFinish i.
Proof.
  intros Ha Hop.
  assert (channels s' = channels s → TChan i ∈ produced c r ∨ open_channel s i) as Hsame.
  { intros E. right. unfold open_channel. by rewrite <-E. }
  destruct c; cbn [answer] in Ha; try discriminate Ha;
    try (destruct Hsame as [?|?]; [|by left|by right];
         repeat case_match; rewrite ?guarded_Some in Ha; destruct_and?; simplify_eq/=; done).
  - apply guarded_Some in Ha as [Hb ->]. apply bool_decide_eq_true in Hb. subst r.
    destruct Hop as (c & Hc & He). simpl in Hc.
    apply lookup_app_Some in Hc as [Hc|[Hle Hc]]; [right; split; [by exists c|done]|].
    left. apply list_lookup_singleton_Some in Hc as [Hi _].
    cbn [produced]. assert (i = length (channels s)) as -> by lia. by left.
  - injection Ha as <-. right. split; [|done]. by apply open_alter in Hop as [? _].
  - case_match; [|done]. apply guarded_Some in Ha as [_ ->]. right. split; [|done].
    by apply open_alter in Hop as [? _].
  - injection Ha as <-. right. split; [|done]. by apply open_alter in Hop as [? _].
  - destruct r. case_match; [|done]. apply guarded_Some in Ha as [_ ->]. right.
    apply open_alter in Hop as [? Hch]; [|done]. split; [done|]. intros [= <-].
    by destruct Hch as [? ?].
Qed.

Lemma op_tokens_chan o j : TChan j ∉ op_tokens o.
Proof. unfold op_tokens. rewrite list_elem_of_fmap. naive_solver. Qed.

Lemma consumed_chan c r j : TChan j ∈ consumed c r → c = TakeFinish j ∨ c = Go_ (ServeChannel j).
Proof.
  destruct c as [| | | | | | | | | | | | | | |l| | | | | | | | | | | | | | | | | |]; simpl;
    try (intros Hin; exfalso; set_solver);
    try (repeat case_match; intros Hin; exfalso; (by eapply op_tokens_chan) || set_solver).
  - destruct l; set_solver.
  - set_solver.
Qed.

Lemma produced_chan c r j : TChan j ∈ produced c r → ∃ h to ty data, c = NewChannel h to ty data.
Proof.
  destruct c; simpl; try (intros Hin; exfalso; set_solver); eauto;
    intros Hin; exfalso; repeat case_match; first [by eapply op_tokens_chan | set_solver].
Qed.

Lemma concat_insert {A} (ls : list (list A)) i l l' :
  ls !! i = Some l → concat (<[i := l']> ls) ++ l ≡ₚ concat ls ++ l'.
Proof.
  revert i. induction ls as [|x ls IH]; intros [|i]; simpl; try done.
  - intros [= ->]. solve_Permutation.
  - intros Hi. rewrite <-!app_assoc. by rewrite (IH i Hi).
Qed.

Section Running.
Context `{SSHWire} (envAllowed : string → bool) (error_string : error → string).

Definition thread_ok (s : proxyState) (t : thread) (own : list token) : Prop :=
  (∀ f, start_facts (th_label t) f → holds s f) ∧
  ∃ K : fact → Prop, (∀ f, K f → holds s f) ∧
    wp envAllowed (th_prog t) K own (fun _ own _ => own ≡ₚ []).

Lemma start_ok s l :
  (∀ f, start_facts l f → holds s f) → thread_ok s (start envAllowed error_string l) (start_tokens l).
Proof. intros Hf. split; [done|]. exists (start_facts l). split; [done|]. by apply code_spec. Qed.

Lemma thread_ok_answer s c r s' t own :
  answer s c r = Some s' → thread_ok s t own → thread_ok s' t own.
Proof.
  intros Ha (Hs & K & HK & Hw). split; [intros f Hf; by eapply answer_holds, Hs|].
  exists K. split; [|done]. intros f Hf. by eapply answer_holds, HK.
Qed.

Definition spawn_tokens (c : call) : list (list token) :=
  match c with Go_ l => [start_tokens l] | _ => [] end.

Record proxy_inv (s : proxyState) (ts : list thread) (owns : list (list token)) : Prop := mkInv {
  inv_state : state_ok envAllowed s;
  inv_threads : Forall2 (thread_ok s) ts owns;
  inv_ops : (finished (log s) ++ stored s) ++ ops (concat owns) ≡ₚ seq 0 (begun s);
  inv_open : ∀ i, open_channel s i → TChan i ∈ concat owns;
}.

(** A goroutine with no operation of its own joins. *)
Lemma inv_spawn s ts owns l :
  start_tokens l = [] → (∀ f, start_facts l f → holds s f) → proxy_inv s ts owns →
  proxy_inv s (ts ++ [start envAllowed error_string l]) (owns ++ [start_tokens l]).
Proof.
  intros Hl Hf [Hs Ht Ho Hop]. split; [done| | |].
  - apply Forall2_app; [done|]. constructor; [by apply start_ok|done].
  - by rewrite concat_app, Hl, app_nil_r.
  - intros i Hi. rewrite concat_app, Hl, app_nil_r. by apply Hop.
Qed.

(** The rest of a goroutine after one call, and the goroutine it started. *)
Lemma inv_call s s' ts owns i l c k r :
  proxy_inv s ts owns → ts !! i = Some (mkThread l (Call c k)) → answer s c r = Some s' →
  ∃ owns', proxy_inv s' (<[i := mkThread l (k r)]> ts ++ spawned envAllowed error_string c) owns'.
Proof.
  intros [Hs Ht Ho Hop] Hi Ha.
  destruct (Forall2_lookup_l _ _ _ _ _ Ht Hi) as (own & Hown & Hfacts & K & HK & Hn & Hw).
  assert (need envAllowed c (holds s)) as Hneed by (by eapply answer_need).
  destruct (Hw r) as (rest & Hperm & Hrest); [by eapply answer_possible|].
  exists (<[i := produced c r ++ rest]> owns ++ spawn_tokens c).
  pose proof (concat_insert owns i own (produced c r ++ rest) Hown) as Hci. rewrite Hperm in Hci.
  assert (concat (<[i := produced c r ++ rest]> owns) ++ consumed c r ≡ₚ concat owns ++ produced c r) as Hmove.
  { apply (Permutation_app_inv_r rest). rewrite <-!app_assoc. by rewrite Hci. }
  split.
  - by eapply answer_state.
  - apply Forall2_app.
    + apply Forall2_insert; [eapply Forall2_impl; [done|]; intros; by eapply thread_ok_answer|].
      split; [intros f Hf; by eapply answer_holds, Hfacts|].
      exists (fun f => gained c r f ∨ K f). split; [|done].
      intros f [Hg|Hk]; [by eapply answer_gained|]. by eapply answer_holds, HK.
    + destruct c; try constructor; [|done]. apply start_ok. intros f Hf. injection Ha as <-.
      destruct l0; try done; simpl in Hf; by subst f.
  - rewrite concat_app, ops_app. assert (ops (concat (spawn_tokens c)) = []) as ->.
    { destruct c; try done. by destruct l0. }
    destruct (answer_ops _ _ _ _ Ha) as [Hle Hb]. rewrite app_nil_r.
    assert (ops (concat (<[i := produced c r ++ rest]> owns)) ++ ops (consumed c r) ≡ₚ
            ops (concat owns) ++ ops (produced c r)) as Hops.
    { rewrite <-!ops_app. unfold ops. by rewrite Hmove. }
    apply (Permutation_app_inv_r (ops (produced c r) ++ ops (consumed c r))).
    trans ((finished (log s') ++ stored s' ++ ops (produced c r)) ++
           (ops (concat (<[i := produced c r ++ rest]> owns)) ++ ops (consumed c r))); [solve_Permutation|].
    rewrite Hb, Hops. replace (begun s') with (begun s + (begun s' - begun s)) by lia.
    rewrite seq_app, <-Ho. replace (begun s + (begun s' - begun s) - begun s) with (begun s' - begun s) by lia.
    simpl. solve_Permutation.
  - intros j Hj. rewrite concat_app. apply elem_of_app.
    assert (TChan j ∈ concat (<[i := produced c r ++ rest]> owns) ++ consumed c r ∧ c ≠ TakeFinish j)
      as [[Hin|Hin]%elem_of_app Hc].
    { rewrite Hmove. destruct (answer_open _ _ _ _ _ Ha Hj) as [Hp|[Hopen Hc]].
      - apply produced_chan in Hp as Hnew. destruct Hnew as (h & to & ty & data & ->). set_solver.
      - split; [|done]. apply elem_of_app. left. by apply Hop. }
    + by left.
    + right. apply consumed_chan in Hin as [->| ->]; [done|]. simpl. set_solver.
Qed.

Lemma step_inv c c' owns :
  step envAllowed error_string c c' → proxy_inv (cf_state c) (cf_threads c) owns →
  ∃ owns', proxy_inv (cf_state c') (cf_threads c') owns'.
Proof.
  intros Hstep Hinv. destruct Hstep as [s s' ts i l c k r Hi Ha|s ts i l Hi|s ts ty d|s ts]; simpl in *.
  - by eapply inv_call.
  - destruct Hinv as [Hs Ht Ho Hop].
    destruct (Forall2_lookup_l _ _ _ _ _ Ht Hi) as (own & Hown & Hfacts & K & HK & Hw). simpl in Hw.
    pose proof (concat_insert owns i own (start_tokens l) Hown) as Hci.
    assert (own = []) as -> by (by apply Permutation_nil_r).
    rewrite app_nil_r in Hci. exists (<[i := start_tokens l]> owns). split; [done| | |].
    + apply Forall2_insert; [done|by apply start_ok].
    + assert (ops (concat (<[i := start_tokens l]> owns)) ≡ₚ ops (concat owns)) as ->; [|done].
      unfold ops. rewrite Hci, omap_app. destruct l; simpl; by rewrite app_nil_r.
    + intros j Hj. rewrite Hci. apply elem_of_app. left. by apply Hop.
  - eexists. by apply inv_spawn.
  - eexists. by apply inv_spawn.
Qed.

Lemma reachable_inv c :
  reachable envAllowed error_string c → ∃ owns, proxy_inv (cf_state c) (cf_threads c) owns.
Proof.
  apply (rtc_ind_r (R := step envAllowed error_string)
    (fun c => ∃ owns, proxy_inv (cf_state c) (cf_threads c) owns) (initial envAllowed error_string)).
  - exists [[]]. split.
    + split; simpl; try done. intros l1 ev l2 E. by destruct l1.
    + constructor; [by apply (start_ok _ GlobalRequests)|done].
    + done.
    + by intros i (c0 & Hc & _).
  - intros c1 c2 _ Hstep [owns Hinv]. by eapply step_inv.
Qed.

(** ** Theorems *)

(** C28: nothing reaches the server through the SSH proxy without permission, under every interleaving
    of its goroutines and whatever the client, the server and the authorizer answer.  Every channel
    opened, every global request and every channel request sent to the server is harmless by protocol
    (session channels, keepalives, terminal requests) or was preceded by an allowed operation that
    describes exactly that message: the forwarded destination, the command, the subsystem, the bind
    address, the extension's type; environment variables pass only if the session policy allows their
    name.  Towards the client, channels need an allowed forward for their address, allowed agent
    forwarding or an allowed extension, and global requests an allowed operation; a channel request of
    the server is passed on as it is, but only on a channel that the proxy serves, whose counterpart was
    opened under these rules ([server_extension_passes]).  No goroutine ever panics on a missing
    upstream. *)
Theorem proxy_authorized c :
  reachable envAllowed error_string c →
  (∀ before ev after, log (cf_state c) = before ++ ev :: after →
     permitted envAllowed (granted_by before) ev) ∧
  (∀ l k, mkThread l (Call Panic k) ∉ cf_threads c).
Proof.
  intros (owns & [Hs Ht _ _])%reachable_inv. split; [apply Hs|].
  intros l k [i Hi]%list_elem_of_lookup_1.
  by destruct (Forall2_lookup_l _ _ _ _ _ Ht Hi) as (own & _ & _ & K & _ & Hn & _).
Qed.

(** All goroutines have ended. *)
Definition quiescent (c : config) : Prop := Forall (fun t => th_prog t = Ret false) (cf_threads c).

Lemma quiescent_owns s ts owns :
  Forall2 (thread_ok s) ts owns → Forall (fun t => th_prog t = Ret false) ts → concat owns = [].
Proof.
  intros Ht Hq. induction Ht as [|t own ts owns (_ & K & _ & Hw) _ IH]; [done|].
  apply Forall_cons in Hq as [Hr Hq]. rewrite Hr in Hw. simpl in *.
  apply Permutation_nil_r in Hw as ->. by apply IH.
Qed.

Lemma no_late_finish (cs : list proxiedChannel) :
  (∀ i c, cs !! i = Some c → pc_finish c = None) → omap pc_finish cs = [].
Proof.
  induction cs as [|c cs IH]; intros Hc; [done|]. simpl. rewrite (Hc 0 c eq_refl).
  apply IH. intros i c' Hi. by apply (Hc (S i)).
Qed.

(** C29: the proxy ends every operation it began, and ends it once.  In every reachable state no
    operation has been finished twice or without having been begun.  Once the proxy is closed and
    its goroutines have ended, every begun operation is finished, except those whose registration
    the proxy itself dropped: an overwritten forward, or a session operation registered on a
    channel after its [serve] returned.  Without such a drop all operations are finished exactly
    once. *)
Theorem proxy_operations_end c :
  reachable envAllowed error_string c →
  let s := cf_state c in
  NoDup (finished (log s)) ∧ (∀ h, h ∈ finished (log s) → h < begun s) ∧
  (quiescent c → proxyClosed s = true →
     finished (log s) ++ omap pc_finish (channels s) ++ lost s ≡ₚ seq 0 (begun s) ∧
     (lost s = [] → Forall (fun ch => pc_late ch = false) (channels s) →
        finished (log s) ≡ₚ seq 0 (begun s))).
Proof.
  intros (owns & [Hs Ht Ho Hop])%reachable_inv. simpl. rewrite <-app_assoc in Ho.
  assert (NoDup (finished (log (cf_state c)) ++ stored (cf_state c) ++ ops (concat owns))) as Hnd
    by (rewrite Ho; apply NoDup_seq).
  split; [by apply NoDup_app in Hnd as [? _]|]. split.
  { intros h Hh. assert (h ∈ seq 0 (begun (cf_state c))) as Hin by (rewrite <-Ho; set_solver).
    apply elem_of_seq in Hin. lia. }
  intros Hq Hcl. pose proof (quiescent_owns _ _ _ Ht Hq) as Hown.
  pose proof (so_closed _ _ Hs) as Hc. rewrite Hcl in Hc. destruct Hc as [Hf Hag].
  rewrite Hown in Ho, Hop. unfold stored in Ho. rewrite Hf, Hag in Ho. simpl in Ho.
  rewrite app_nil_r in Ho. split; [done|]. intros Hlost Hlate. rewrite Hlost, no_late_finish in Ho.
  { by rewrite app_nil_r in Ho. }
  intros i ch Hi. destruct (pc_ended ch) eqn:He.
  - apply (so_ended _ _ Hs i ch Hi He). by eapply Forall_lookup in Hlate.
  - exfalso. by apply (not_elem_of_nil (TChan i)), Hop; exists ch.
Qed.
End Running.

(** ** A concrete connection *)

Definition toy_wire : SSHWire := {|
  Unmarshal_channelForward _ := Some (mkChannelForward "db" 5432 "localhost" 40000);
  Unmarshal_globalForward _ := Some (mkGlobalForward "0.0.0.0" 8080);
  Unmarshal_value s := Some s;
  Unmarshal_keyValue _ := Some ("LANG", "C");
  Unmarshal_uint32 _ := Some 0%Z;
|}.
Definition toy_open (channelType : string) : config :=
  mkConfig newProtocol [@start toy_wire (fun _ => true) (fun _ => "") GlobalRequests;
                        @start toy_wire (fun _ => true) (fun _ => "") (ClientChannel channelType "")].

(** The client opens a channel, the upstream is dialled and the channel opened there. *)
Definition connect_schedule : list (nat * ans) :=
  [(1, ABool true); (1, AError None); (1, APublished PublishedUpstream); (1, AUnit); (1, AUnit);
   (1, AUnit); (1, AUnit); (1, AUpstream None true); (1, AOpened Opened); (1, AError None);
   (1, ANat 0); (1, AUnit)].

(** An exec request whose finish function is registered after [serve] took the channel's, and then
    the end of the whole connection. *)
Definition late_schedule : list (nat * ans) :=
  (1, ABool true) :: connect_schedule ++
  [(5, AUnit); (5, AUnit);
   (6, ARequest (Some (mkSSHRequest RequestExec true "ls"))); (6, ABegin (Some 0) None);
   (6, AChannelSent (Ok true));
   (5, AProxied ProxyCancelled); (5, ATaken None None);
   (6, AFinish None); (6, AUnit); (6, AUnit); (6, ARequest None);
   (7, ARequest None); (7, AUnit); (2, AChannel None); (3, ARequest None);
   (4, AUnit); (4, AClosed (Some (true, []))); (4, AUnit); (4, AUnit); (0, ARequest None)].

Definition toy_run (channelType : string) (sched : list (nat * ans)) : option config :=
  @run_schedule toy_wire (fun _ => true) (fun _ => "") (toy_open channelType) sched.

Lemma toy_run_reachable ty sched c :
  toy_run ty sched = Some c → @reachable toy_wire (fun _ => true) (fun _ => "") c.
Proof.
  intros Hr. eapply rtc_l; [apply (@step_channel toy_wire _ _ _ _ ty "")|].
  by apply run_schedule_steps in Hr.
Qed.

Definition all_ended (c : config) : bool :=
  forallb (fun t => match th_prog t with Ret false => true | _ => false end) (cf_threads c).
Lemma all_ended_quiescent c : all_ended c = true → quiescent c.
Proof.
  unfold all_ended, quiescent. rewrite forallb_forall. intros Hall. apply Forall_forall.
  intros t Ht%list_elem_of_In. specialize (Hall t Ht). by repeat case_match.
Qed.

Lemma late_run :
  ∃ c, toy_run ChannelSession late_schedule = Some c ∧ all_ended c = true ∧
    proxyClosed (cf_state c) = true ∧ begun (cf_state c) = 1 ∧ finished (log (cf_state c)) = [] ∧
    lost (cf_state c) = [].
Proof.
  destruct (toy_run ChannelSession late_schedule) as [c|] eqn:Hr; [|vm_compute in Hr; discriminate Hr].
  exists c. split; [done|]. vm_compute in Hr. by injection Hr as <-.
Qed.

(** The proxy can lose the end of a session operation.  When the connection ends between the
    server's reply to an exec request and the registration of its finish function, [serve] has
    already taken the channel's (empty) finish function; the late registration is never finished,
    although the proxy is closed and all its goroutines have ended. *)
Theorem late_session_operation_lost :
  ∃ c, @reachable toy_wire (fun _ => true) (fun _ => "") c ∧ quiescent c ∧
    proxyClosed (cf_state c) = true ∧ begun (cf_state c) = 1 ∧ finished (log (cf_state c)) = [].
Proof.
  destruct late_run as (c & Hr & Hq & Hc & Hb & Hf & _). exists c.
  split_and!; [by eapply toy_run_reachable|by apply all_ended_quiescent|done..].
Qed.

(** The usual order: registered, exit status forwarded, streams done, connection closed. *)
Definition exec_schedule : list (nat * ans) :=
  (1, ABool true) :: connect_schedule ++
  [(5, AUnit); (5, AUnit);
   (6, ARequest (Some (mkSSHRequest RequestExec true "ls"))); (6, ABegin (Some 0) None);
   (6, AChannelSent (Ok true)); (6, AFinish None); (6, AUnit); (6, AUnit); (6, ARequest None);
   (7, ARequest (Some (mkSSHRequest RequestExitStatus false "0"))); (7, AUnit);
   (7, AChannelSent (Ok true)); (7, AUnit);
   (5, AProxied (ProxyDone None)); (5, ATaken (Some 0) (Some 0%Z)); (5, AUnit);
   (2, AChannel None); (3, ARequest None);
   (4, AUnit); (4, AClosed (Some (true, []))); (4, AUnit); (4, AUnit); (0, ARequest None)].

Lemma exec_run :
  ∃ c, toy_run ChannelSession exec_schedule = Some c ∧ all_ended c = true ∧
    proxyClosed (cf_state c) = true ∧ begun (cf_state c) = 1 ∧ lost (cf_state c) = [] ∧
    forallb (fun ch => negb (pc_late ch)) (channels (cf_state c)) = true.
Proof.
  destruct (toy_run ChannelSession exec_schedule) as [c|] eqn:Hr; [|vm_compute in Hr; discriminate Hr].
  exists c. split; [done|]. vm_compute in Hr. by injection Hr as <-.
Qed.

Lemma proxy_operations_end_witness :
  ∃ c, toy_run ChannelSession exec_schedule = Some c ∧ finished (log (cf_state c)) ≡ₚ [0].
Proof.
  destruct exec_run as (c & Hr & Hq & Hc & Hb & Hl & Hlate). exists c. split; [exact Hr|].
  pose proof (toy_run_reachable _ _ _ Hr) as Hreach.
  destruct (@proxy_operations_end toy_wire (fun _ => true) (fun _ => "") c Hreach) as (_ & _ & Hend).
  destruct (Hend (all_ended_quiescent c Hq) Hc) as [_ Hall]. rewrite Hb in Hall.
  apply Hall; [exact Hl|]. apply Forall_forall. intros ch Hch%list_elem_of_In.
  rewrite forallb_forall in Hlate. specialize (Hlate ch Hch). by apply negb_true_iff.
Defined.

Lemma forward_run :
  ∃ c, toy_run ChannelDirectTCPIP ((1, ABool true) :: (1, ABegin (Some 0) None) :: connect_schedule) = Some c ∧
    ∃ o, log (cf_state c) = [EvBegin o (Some 0) None; EvOpen Upstream ChannelDirectTCPIP "";
                             EvServe 0 Upstream ChannelDirectTCPIP ""].
Proof.
  destruct (toy_run _ _) as [c|] eqn:Hr; [|vm_compute in Hr; discriminate Hr].
  exists c. split; [done|]. vm_compute in Hr. injection Hr as <-. eexists. vm_compute. reflexivity.
Qed.

Lemma proxy_authorized_witness :
  ∃ c o, toy_run ChannelDirectTCPIP ((1, ABool true) :: (1, ABegin (Some 0) None) :: connect_schedule) = Some c ∧
    @permitted toy_wire (fun _ => true) (granted_by [EvBegin o (Some 0) None])
      (EvOpen Upstream ChannelDirectTCPIP "").
Proof.
  destruct forward_run as (c & Hr & o & Hl). exists c, o. split; [exact Hr|].
  pose proof (toy_run_reachable _ _ _ Hr) as Hreach.
  destruct (@proxy_authorized toy_wire (fun _ => true) (fun _ => "") c Hreach) as [Hperm _].
  exact (Hperm [EvBegin o (Some 0) None] (EvOpen Upstream ChannelDirectTCPIP "") _ Hl).
Defined.

(** An unknown request of the server on a session channel. *)
Definition extension_schedule : list (nat * ans) :=
  (1, ABool true) :: connect_schedule ++
  [(5, AUnit); (5, AUnit);
   (7, ARequest (Some (mkSSHRequest "extension@example.com" false ""))); (7, AChannelSent (Ok true))].

(** Unknown channel requests of the server need no permission.  The design lets unknown channels and
    requests pass only if the capability [ssh_extension] is allowed; the proxy asks for it in the other
    three directions, but an unknown request that the server sends on a channel reaches the client
    although no operation was ever allowed or even begun. *)
Theorem server_extension_passes :
  ∃ c, @reachable toy_wire (fun _ => true) (fun _ => "") c ∧
    EvChannelRequest 0 Downstream "extension@example.com" "" ∈ log (cf_state c) ∧
    begun (cf_state c) = 0 ∧ ∀ o, ¬ allowed_in (log (cf_state c)) o.
Proof.
  assert ((fun c => (log (cf_state c), begun (cf_state c))) <$> toy_run ChannelSession extension_schedule =
    Some ([EvOpen Upstream ChannelSession ""; EvServe 0 Upstream ChannelSession "";
           EvChannelRequest 0 Downstream "extension@example.com" ""], 0)) as Hrun by (vm_compute; reflexivity).
  apply fmap_Some in Hrun as (c & Hr & [= Hl Hb]). exists c. split; [by eapply toy_run_reachable|].
  rewrite <-Hl, <-Hb. split_and!; [right; right; left|done|].
  intros o [h Hh]. clear Hr. apply list_elem_of_In in Hh as [Hh|[Hh|[Hh|[]]]]; discriminate Hh.
Qed.
