(* ===== verification/PodSession.v ===== *)
(** Models of [src/pkg/podssh/session_handler.go] (the session state machine),
    [session.go] (from a session to the backend call), [operation.go] (one authorized operation) and
    [directtcpip.go].

    Requests of one channel are handled in order by one goroutine, so the session is a state machine
    over its inputs; reads of the resize queue by the backend are inputs too.  What a handler does
    is a log of effects.  The backend, [shlex.Split] and the decoding of payloads are parameters. *)

From S2P Require Import Prelude GoStrings GoStrconv GoPath Kube Target Authn AccessStore AccessResolver Authz Operation SSHProxy.

(** ** [sshprotocol/session.go] *)

Record Window := mkWindow { w_Width : Z; w_Height : Z }.
Record PTY := mkPTY { pty_Term : string; pty_Window : Window }.

Class PodWire `{SSHWire} := {
  (** term, width and height of a pty-req; width and height of a window-change *)
  Unmarshal_pty : string → option (string * Z * Z);
  Unmarshal_window : string → option (Z * Z);
}.

(** ** The session state machine ([session_handler.go]) *)

(** [winch] is a channel of capacity one; it exists once a terminal was accepted. *)
Record serverSession := mkSession {
  ss_started : bool;
  ss_pty : option PTY;
  ss_winch : list Window;
  ss_env : list string;
  ss_rawCmd : string;
  ss_requestType : string;
  ss_agentForward : option string;
  ss_cancelled : bool;
}.
Definition newSession : serverSession := mkSession false None [] [] "" "" None false.

Inductive sessionHandler := handlerSession | handlerSFTP.
Inductive sessionEffect :=
| SessionReply (ok : bool)
| SessionStart (h : sessionHandler).

Section Requests.
Context `{PodWire}.

Definition parseSessionPTYRequest (payload : string) : option PTY :=
  '(term, width, height) ← Unmarshal_pty payload;
  if bool_decide (uint16_max < width)%Z || bool_decide (uint16_max < height)%Z then None
  else Some (mkPTY term (mkWindow width height)).

Definition parseSessionWindowChangeRequest (payload : string) : option Window :=
  '(width, height) ← Unmarshal_window payload;
  if bool_decide (width < 1)%Z || bool_decide (height < 1)%Z ||
     bool_decide (uint16_max < width)%Z || bool_decide (uint16_max < height)%Z then None
  else Some (mkWindow width height).

Definition refuse (s : serverSession) : serverSession * list sessionEffect := (s, [SessionReply false]).

(** [handleStartRequest]; [replied] says whether the reply could be sent. *)
Definition handleStartRequest (s : serverSession) (r : SSHRequest) (replied : bool)
    : serverSession * list sessionEffect :=
  if ss_started s then refuse s
  else
    let start rawCmd h :=
      let s := mkSession true (ss_pty s) (ss_winch s) (ss_env s) rawCmd (rq_Type r)
                 (ss_agentForward s) (ss_cancelled s) in
      if replied then (s, [SessionReply true; SessionStart h])
      else (mkSession true (ss_pty s) (ss_winch s) (ss_env s) rawCmd (rq_Type r)
              (ss_agentForward s) true, [SessionReply true]) in
    if bool_decide (rq_Type r = RequestShell)
    then if bool_decide (rq_Payload r ≠ "") then refuse s else start (ss_rawCmd s) handlerSession
    else match Unmarshal_value (rq_Payload r) with
         | None => refuse s
         | Some value =>
             if bool_decide (rq_Type r = RequestSubsystem)
             then if bool_decide (value ≠ SubsystemSFTP) then refuse s
                  else start (ss_rawCmd s) handlerSFTP
             else start value handlerSession
         end.

Definition handleEnvRequest (s : serverSession) (r : SSHRequest) : serverSession * list sessionEffect :=
  if ss_started s then refuse s
  else match Unmarshal_keyValue (rq_Payload r) with
       | None => refuse s
       | Some (key, value) =>
           (mkSession (ss_started s) (ss_pty s) (ss_winch s) (ss_env s ++ [key +:+ "=" +:+ value])
              (ss_rawCmd s) (ss_requestType s) (ss_agentForward s) (ss_cancelled s), [SessionReply true])
       end.

Definition handlePTYRequest (s : serverSession) (r : SSHRequest) : serverSession * list sessionEffect :=
  if ss_started s || bool_decide (is_Some (ss_pty s)) then refuse s
  else match parseSessionPTYRequest (rq_Payload r) with
       | None => refuse s
       | Some pty =>
           (mkSession (ss_started s) (Some pty) [] (ss_env s) (ss_rawCmd s) (ss_requestType s)
              (ss_agentForward s) (ss_cancelled s), [SessionReply true])
       end.

Definition set_winch (s : serverSession) (q : list Window) : serverSession :=
  mkSession (ss_started s) (ss_pty s) q (ss_env s) (ss_rawCmd s) (ss_requestType s)
    (ss_agentForward s) (ss_cancelled s).

(** Draining the queue and sending; a send on a full channel would block the request loop, which
    the option type makes visible. *)
Definition send_window (q : list Window) (w : Window) : option (list Window) :=
  if bool_decide (length q < 1) then Some (q ++ [w]) else None.
Definition handleWindowChangeRequest (s : serverSession) (r : SSHRequest)
    : option (serverSession * list sessionEffect) :=
  match ss_pty s with
  | None => Some (refuse s)
  | Some _ =>
      match parseSessionWindowChangeRequest (rq_Payload r) with
      | None => Some (refuse s)
      | Some window =>
          q ← send_window (drop 1 (ss_winch s)) window;
          Some (set_winch s q, [SessionReply true])
      end
  end.

(** [forward] is the answer of [acceptAgentForward]: the socket of an accepted forward. *)
Definition handleAgentForwardRequest (s : serverSession) (r : SSHRequest) (forward : option string)
    : serverSession * list sessionEffect :=
  if ss_started s || bool_decide (is_Some (ss_agentForward s)) || bool_decide (rq_Payload r ≠ "")
  then refuse s
  else match forward with
       | Some socket =>
           (mkSession (ss_started s) (ss_pty s) (ss_winch s) (ss_env s) (ss_rawCmd s)
              (ss_requestType s) (Some socket) (ss_cancelled s), [SessionReply true])
       | None => refuse s
       end.

(** One input: a request with the answers of the outside, or a read of the resize queue. *)
Inductive sessionInput :=
| InRequest (r : SSHRequest) (replied : bool) (forward : option string)
| InWindowRead.

(** The body of the loop of [handleRequests]; [None] would be a blocked loop. *)
Definition handle_input (s : serverSession) (i : sessionInput)
    : option (serverSession * list sessionEffect) :=
  match i with
  | InRequest r replied forward =>
      if slices_Contains [RequestShell; RequestExec; RequestSubsystem] (rq_Type r)
      then Some (handleStartRequest s r replied)
      else if bool_decide (rq_Type r = RequestEnvironment) then Some (handleEnvRequest s r)
      else if bool_decide (rq_Type r = RequestPTY) then Some (handlePTYRequest s r)
      else if bool_decide (rq_Type r = RequestWindowChange) then handleWindowChangeRequest s r
      else if bool_decide (rq_Type r = RequestAgentForward)
      then Some (handleAgentForwardRequest s r forward)
      else Some (refuse s)
  | InWindowRead => Some (set_winch s (drop 1 (ss_winch s)), [])
  end.

Fixpoint handle_inputs (s : serverSession) (l : list sessionInput)
    : option (serverSession * list sessionEffect) :=
  match l with
  | [] => Some (s, [])
  | i :: l => '(s, e) ← handle_input s i; '(s, e') ← handle_inputs s l; Some (s, e ++ e')
  end.
End Requests.

(** [Write] on a terminal session: LF becomes CR LF, an existing CR LF stays.  ([bytes.ReplaceAll]
    twice: first every LF, then every CR CR LF.) *)
Definition CR : ascii := "013"%char.
Fixpoint replace_lf (p : string) : string :=
  match p with
  | EmptyString => ""
  | String c rest => if bool_decide (c = LF) then String CR (String LF (replace_lf rest))
                     else String c (replace_lf rest)
  end.
Fixpoint replace_crcrlf (p : string) : string :=
  match p with
  | String c1 (String c2 (String c3 rest) as tail) =>
      if bool_decide (c1 = CR) && bool_decide (c2 = CR) && bool_decide (c3 = LF)
      then String CR (String LF (replace_crcrlf rest))
      else String c1 (replace_crcrlf tail)
  | String c rest => String c (replace_crcrlf rest)
  | EmptyString => ""
  end.
Definition session_bytes (pty : option PTY) (p : string) : string :=
  match pty with
  | None => p
  | Some _ => replace_crcrlf (replace_lf p)
  end.

(** ** From a session to the backend ([session.go]) *)

Record ExecRequest := mkExecRequest {
  er_Target : Target;
  er_Command : list string;
  er_TTY : bool;
  er_Stderr : bool;
  er_initialSize : option (Z * Z);
}.

Inductive backendCall :=
| BackendExec (r : ExecRequest)
| BackendSCP (tgt : Target) (args : list string)
| BackendSFTP (tgt : Target)
| BackendPortForward (tgt : Target) (host : string) (port : Z)
| BackendRemoteForward (tgt : Target) (host : string) (port : Z)
| BackendAgentForward (tgt : Target).

(** What a handler does.  [PodBegin] records the answer of the operation callback. *)
Inductive podEffect :=
| PodBegin (o : Operation) (err : option error)
| PodBackend (c : backendCall)
| PodFinish (r : OperationResult)
| PodWriteError (tty : bool) (e : error)
| PodReject (why : rejection) (message : string)
| PodAccept
| PodStreamClose
| PodProxy
| PodPanic.

Definition buildCommand (isExec : bool) (rawCmd : string) (env : list string) (defaultShell : string)
    : list string :=
  let argv := if bool_decide (0 < length env) then "env" :: env else [] in
  if isExec then argv ++ [defaultShell; "-c"; rawCmd] else argv ++ [defaultShell].

Definition appendEnvOverride (env : list string) (key value : string) : list string :=
  filter (fun item => HasPrefix item (key +:+ "=") = false) env ++ [key +:+ "=" +:+ value].

(** [isSCPCommand] of this package, the same test as the gateway's. *)
Definition pod_isSCPCommand (argv : list string) : bool :=
  match argv with
  | [] => false
  | program :: args =>
      if bool_decide (path_Base program ≠ "scp") then false
      else existsb (fun arg => bool_decide (arg = "-t") || bool_decide (arg = "-f") ||
                               HasPrefix arg "-t" || HasPrefix arg "-f") args
  end.

Definition sessionOperation (requestType command : string) : Operation :=
  session_operation requestType command "".

(** [windowSizeQueue.Next] with the channel's next value ([None] when it is closed). *)
Record windowSizeQueue := mkWindowQueue { initialSent : bool; initW : Z; initH : Z }.
Definition Next (q : windowSizeQueue) (ch : option Window) : windowSizeQueue * option (Z * Z) :=
  if negb (initialSent q) then (mkWindowQueue true (initW q) (initH q), Some (initW q, initH q))
  else (q, (fun w => (to_uint16 (w_Width w), to_uint16 (w_Height w))) <$> ch).

Section Sessions.
Context `{UnicodeCase} (tgt : Target) (defaultShell : string) (envAllowed : string → bool).
Context (shlex_Split : string → list string).
(** The operation callback ([None] error when allowed; it always returns a finish function), the
    backend's answers and [err.Error()]. *)
Context (begin : Operation → option error).
Context (error_string : error → string).

Definition filterEnv (envs : list string) : list string :=
  filter (fun env => match Cut env "=" with
                     | Some (key, _) => negb (EqualFold key EnvironmentSSHAuthSock) && envAllowed key
                     | None => false
                     end = true) envs.

Definition resolveSession (s : serverSession) : Operation * ExecRequest :=
  let env := filterEnv (ss_env s) in
  let socket := default "" (ss_agentForward s) in
  let env := if bool_decide (socket ≠ "") then appendEnvOverride env EnvironmentSSHAuthSock socket
             else env in
  let env := match ss_pty s with
             | Some pty => if bool_decide (pty_Term pty ≠ "") then env ++ ["TERM=" +:+ pty_Term pty] else env
             | None => env
             end in
  (sessionOperation (ss_requestType s) (ss_rawCmd s),
   mkExecRequest tgt
     (buildCommand (bool_decide (ss_requestType s = RequestExec)) (ss_rawCmd s) env defaultShell)
     (bool_decide (is_Some (ss_pty s))) (negb (bool_decide (is_Some (ss_pty s))))
     ((fun p => (to_uint16 (w_Width (pty_Window p)), to_uint16 (w_Height (pty_Window p)))) <$> ss_pty s)).

(** [runSessionOperation]: the exit code and the effects; [answer] is the backend's. *)
Definition runSessionOperation (o : Operation) (tty : bool) (execute : backendCall)
    (answer : Z * option error) : Z * list podEffect :=
  match begin o with
  | Some e => (1%Z, [PodBegin o (Some e); PodFinish (mkOperationResult None (Some 1%Z) None);
                     PodWriteError tty e])
  | None =>
      let '(exitCode, execErr) := answer in
      (exitCode, [PodBegin o None; PodBackend execute] ++
                 match execErr with Some e => [PodWriteError tty e] | None => [] end ++
                 [PodFinish (mkOperationResult execErr (Some exitCode) None)])
  end.

(** [sess.Command()[1:]] panics on an empty command. *)
Definition handleSCP (s : serverSession) (answer : Z * option error) : Z * list podEffect :=
  let o := sessionOperation RequestExec (ss_rawCmd s) in
  match shlex_Split (ss_rawCmd s) with
  | [] => match begin o with
          | Some _ => runSessionOperation o false (BackendSCP tgt []) answer
          | None => (0%Z, [PodBegin o None; PodPanic])
          end
  | _ :: args => runSessionOperation o false (BackendSCP tgt args) answer
  end.

Definition handleSession (s : serverSession) (answer : Z * option error) : Z * list podEffect :=
  if bool_decide (ss_requestType s = RequestExec) && pod_isSCPCommand (shlex_Split (ss_rawCmd s))
  then handleSCP s answer
  else
    let '(o, r) := resolveSession s in
    runSessionOperation o (er_TTY r) (BackendExec r) answer.

Definition handleSFTP (s : serverSession) (answer : Z * option error) : Z * list podEffect :=
  runSessionOperation (session_operation RequestSubsystem "" SubsystemSFTP) false (BackendSFTP tgt) answer.

Definition run_handler (h : sessionHandler) (s : serverSession) (answer : Z * option error)
    : Z * list podEffect :=
  match h with
  | handlerSession => handleSession s answer
  | handlerSFTP => handleSFTP s answer
  end.

(** ** [directtcpip.go] *)

Definition direct_operation (d : channelForwardData) : Operation :=
  mkOperation ChannelDirectTCPIP "" "" "" (cfd_Host d) (cfd_Port d) (cfd_OriginHost d)
    (cfd_OriginPort d) "" 0.

Definition handleDirectTCPIP `{SSHWire} (extraData : string) (remote : option error)
    (accepted : option error) (proxyErr : option error) : list podEffect :=
  match Unmarshal_channelForward extraData with
  | None => [PodReject ConnectionFailed
               ("error parsing direct-tcpip data: " +:+ error_string unmarshalError)]
  | Some data =>
      let o := direct_operation data in
      match begin o with
      | Some e => [PodBegin o (Some e); PodFinish (result_of None); PodReject Prohibited (error_string e)]
      | None =>
          [PodBegin o None; PodBackend (BackendPortForward tgt (cfd_Host data) (cfd_Port data))] ++
          match remote with
          | Some e => [PodFinish (result_of (Some e)); PodReject ConnectionFailed (error_string e)]
          | None =>
              match accepted with
              | Some e => [PodStreamClose; PodFinish (result_of (Some e))]
              | None => [PodAccept; PodProxy; PodFinish (result_of proxyErr)]
              end
          end
      end
  end.
End Sessions.
