(* ===== verification/PodSessionProps.v ===== *)
(** Properties of Pod sessions: the state machine, the command that is run, and that what runs is
    what was authorized. *)

From S2P Require Import Prelude GoStrings GoStrconv Kube Target Authn AccessStore AccessResolver Authz Operation SSHProxy PodSession.

(** ** The state machine *)

(** The parameters fixed before execution starts. *)
Definition session_params (s : serverSession) :=
  (ss_pty s, ss_env s, ss_rawCmd s, ss_requestType s, ss_agentForward s).
Definition session_starts (log : list sessionEffect) : list sessionHandler :=
  omap (fun e => match e with SessionStart h => Some h | _ => None end) log.
Definition replies (log : list sessionEffect) : list bool :=
  omap (fun e => match e with SessionReply b => Some b | _ => None end) log.
Definition requests (l : list sessionInput) : list SSHRequest :=
  omap (fun i => match i with InRequest r _ _ => Some r | InWindowRead => None end) l.

(** The handler that belongs to a request type. *)
Definition handler_for (h : sessionHandler) (requestType : string) : Prop :=
  match h with
  | handlerSFTP => requestType = RequestSubsystem
  | handlerSession => requestType = RequestShell ∨ requestType = RequestExec
  end.

Section Machine.
Context `{PodWire}.

Definition params_of (i : sessionInput) (s s' : serverSession) (e : list sessionEffect) : Prop :=
  length (replies e) = length (requests [i]) ∧ length (ss_winch s') ≤ 1 ∧
  (ss_started s = true → session_params s' = session_params s ∧ ss_started s' = true ∧ session_starts e = []) ∧
  (ss_started s = false → session_starts e = [] ∨
     ∃ h, session_starts e = [h] ∧ ss_started s' = true ∧ handler_for h (ss_requestType s')).

Lemma handleStartRequest_spec s r replied fwd s' e :
  length (ss_winch s) ≤ 1 → rq_Type r ∈ [RequestShell; RequestExec; RequestSubsystem] →
  handleStartRequest s r replied = (s', e) → params_of (InRequest r replied fwd) s s' e.
Proof.
  intros Hw Hty. unfold handleStartRequest, params_of, refuse.
  destruct (ss_started s) eqn:Hst; [by intros [= <- <-]|].
  destruct (decide (rq_Type r = RequestShell)) as [Hs|Hs].
  { rewrite (bool_decide_eq_true_2 (_ = RequestShell)) by done.
    repeat case_match; intros [= <- <-]; simpl; split_and!; try done; intros _; eauto.
    right. eexists. split_and!; try done. by left. }
  rewrite (bool_decide_eq_false_2 (_ = RequestShell)) by done.
  destruct (decide (rq_Type r = RequestSubsystem)) as [Hb|Hb].
  - rewrite (bool_decide_eq_true_2 (_ = RequestSubsystem)) by done.
    repeat case_match; intros [= <- <-]; simpl; split_and!; try done; intros _; eauto.
  - rewrite (bool_decide_eq_false_2 (_ = RequestSubsystem)) by done.
    assert (rq_Type r = RequestExec) as Hx by set_solver.
    repeat case_match; intros [= <- <-]; simpl; split_and!; try done; intros _; eauto.
    right. eexists. split_and!; try done. by right.
Qed.

Lemma handle_input_spec s i :
  length (ss_winch s) ≤ 1 →
  ∃ s' e, handle_input s i = Some (s', e) ∧ params_of i s s' e.
Proof.
  intros Hw. destruct i as [r replied fwd|].
  2:{ eexists _, _. split; [done|]. split_and!; simpl; try done; [rewrite length_drop; lia|by left]. }
  assert (∀ s' e, (s', e) = refuse s → params_of (InRequest r replied fwd) s s' e) as Hrefuse.
  { intros s' e [= -> ->]. split_and!; simpl; try done. by left. }
  simpl. destruct (slices_Contains _ _) eqn:Hc.
  { apply slices_Contains_spec in Hc. destruct (handleStartRequest s r replied) as [s' e] eqn:Hst.
    eexists _, _. split; [done|]. by eapply handleStartRequest_spec. }
  unfold handleEnvRequest, handlePTYRequest, handleWindowChangeRequest, handleAgentForwardRequest.
  destruct (bool_decide (rq_Type r = RequestEnvironment)).
  { repeat case_match; eexists _, _; (split; [reflexivity|]); try by apply Hrefuse.
    split_and!; simpl; try done; [congruence|by left]. }
  destruct (bool_decide (rq_Type r = RequestPTY)).
  { destruct (ss_started s) eqn:Hst; simpl; [eexists _, _; split; [done|]; by apply Hrefuse|].
    repeat case_match; eexists _, _; (split; [reflexivity|]); try by apply Hrefuse.
    split_and!; simpl; try done; [lia|congruence|by left]. }
  destruct (bool_decide (rq_Type r = RequestWindowChange)).
  { destruct (ss_pty s) eqn:Hp; [|eexists _, _; split; [done|]; by apply Hrefuse].
    destruct (parseSessionWindowChangeRequest _) as [w|]; [|eexists _, _; split; [done|]; by apply Hrefuse].
    assert (drop 1 (ss_winch s) = []) as -> by (destruct (ss_winch s) as [|? []]; simpl in *; done || lia).
    eexists _, _. split; [reflexivity|]. split_and!; simpl; try done. by left. }
  destruct (bool_decide (rq_Type r = RequestAgentForward)); [|eexists _, _; split; [done|]; by apply Hrefuse].
  destruct (ss_started s) eqn:Hst; simpl; [eexists _, _; split; [done|]; by apply Hrefuse|].
  repeat case_match; eexists _, _; (split; [reflexivity|]); try by apply Hrefuse.
  split_and!; simpl; try done; [congruence|by left].
Qed.

Lemma handle_inputs_spec s l :
  length (ss_winch s) ≤ 1 →
  ∃ s' e, handle_inputs s l = Some (s', e) ∧ length (ss_winch s') ≤ 1 ∧
    length (replies e) = length (requests l) ∧
    (ss_started s = true → session_params s' = session_params s ∧ ss_started s' = true ∧ session_starts e = []) ∧
    (ss_started s = false → session_starts e = [] ∨
       ∃ h, session_starts e = [h] ∧ ss_started s' = true ∧ handler_for h (ss_requestType s')).
Proof.
  revert s. induction l as [|i l IH]; intros s Hw.
  { eexists _, _. split; [done|]. split_and!; try done. by left. }
  destruct (handle_input_spec s i Hw) as (s1 & e1 & H1 & Hr1 & Hw1 & Ht1 & Hf1).
  destruct (IH s1 Hw1) as (s2 & e2 & H2 & Hw2 & Hr2 & Ht2 & Hf2).
  exists s2, (e1 ++ e2). simpl. rewrite H1. simpl. rewrite H2. simpl. split; [done|].
  unfold replies, session_starts, requests in *. rewrite !omap_app, length_app.
  split_and!; [done| | |].
  - rewrite Hr1, Hr2. destruct i; done.
  - intros Hst. destruct (Ht1 Hst) as (Hp & Hs1 & ->). destruct (Ht2 Hs1) as (Hp2 & Hs2 & ->).
    split_and!; [congruence|done|done].
  - intros Hst. destruct (Hf1 Hst) as [->|(h & -> & Hs1 & Hh)].
    + simpl. destruct (ss_started s1) eqn:Hs1; [left; by destruct (Ht2 eq_refl) as (_ & _ & ->)|by apply Hf2].
    + right. destruct (Ht2 Hs1) as (Hp & Hs2 & ->). exists h. split; [done|]. split; [done|].
      injection Hp as _ _ _ Hrt _. by rewrite Hrt.
Qed.
End Machine.

(** A Pod session is a well-behaved state machine.  Whatever requests the client sends and
    whenever the backend reads resizes, the request loop never blocks (the resize queue holds at
    most one size), every request gets exactly one reply, at most one operation is started, with the
    handler of its request type, and once it started the terminal, the environment, the command,
    the request type and the agent socket never change again. *)
Theorem session_machine `{PodWire} l l' :
  ∃ s e s' e', handle_inputs newSession l = Some (s, e) ∧ handle_inputs s l' = Some (s', e') ∧
    length (ss_winch s') ≤ 1 ∧
    length (replies e) = length (requests l) ∧ length (replies e') = length (requests l') ∧
    (session_starts e = [] ∨ ∃ h, session_starts e = [h] ∧ ss_started s = true ∧ handler_for h (ss_requestType s)) ∧
    (ss_started s = true → session_params s' = session_params s ∧ session_starts e' = []).
Proof.
  destruct (handle_inputs_spec newSession l) as (s & e & He & Hw & Hr & _ & Hst); [simpl; lia|].
  destruct (handle_inputs_spec s l' Hw) as (s' & e' & He' & Hw' & Hr' & Ht & _).
  exists s, e, s', e'. split_and!; try done; [by apply Hst|].
  intros Hs. destruct (Ht Hs) as (? & _ & ?). done.
Qed.

(** ** The command *)

Section Command.
Context `{UnicodeCase} (tgt : Target) (defaultShell : string) (envAllowed : string → bool).

Lemma Cut_key key rest : ContainsByte key "=" = false → Cut (key +:+ "=" +:+ rest) "=" = Some (key, rest).
Proof. intros Hk. change (key +:+ "=" +:+ rest) with (key +:+ String "=" rest). by apply Cut_app. Qed.

Lemma filterEnv_elem envs a :
  a ∈ filterEnv envAllowed envs →
  a ∈ envs ∧ ∃ key v, Cut a "=" = Some (key, v) ∧ key ≠ EnvironmentSSHAuthSock ∧ envAllowed key = true.
Proof.
  intros [Ha Hin]%list_elem_of_filter. split; [done|]. destruct (Cut a "=") as [[key v]|]; [|done].
  apply andb_true_iff in Ha as [Hf He]. exists key, v. split_and!; try done.
  intros ->. by vm_compute in Hf.
Qed.

(** What may be assigned in the environment of a session. *)
Definition assignment_ok (s : serverSession) (a : string) : Prop :=
  ∃ key value, Cut a "=" = Some (key, value) ∧
    ((a ∈ ss_env s ∧ envAllowed key = true ∧ key ≠ EnvironmentSSHAuthSock) ∨
     (key = EnvironmentSSHAuthSock ∧ ss_agentForward s = Some value ∧ value ≠ "") ∨
     (key = "TERM" ∧ ∃ pty, ss_pty s = Some pty ∧ pty_Term pty = value ∧ value ≠ "")).

(** The command a session runs is the policy's shell with exactly the permitted environment.
    The argv is the default shell, with [-c] and the client's command verbatim for exec requests,
    preceded by [env] and assignments only if there are any; every assignment is a variable the
    client sent whose name the session policy allows, the socket of an accepted agent forward, or
    the terminal type of an accepted terminal.  [SSH_AUTH_SOCK] never comes from the client. *)
Theorem session_command_confined s :
  let '(o, r) := resolveSession tgt defaultShell envAllowed s in
  o = sessionOperation (ss_requestType s) (ss_rawCmd s) ∧ er_Target r = tgt ∧
  (er_TTY r = true ↔ is_Some (ss_pty s)) ∧
  ∃ env, er_Command r =
    (match env with [] => [] | _ => "env" :: env end) ++
    (if bool_decide (ss_requestType s = RequestExec) then [defaultShell; "-c"; ss_rawCmd s]
     else [defaultShell]) ∧
    Forall (assignment_ok s) env.
Proof.
  unfold resolveSession. split_and!; try done; simpl; [by rewrite bool_decide_eq_true|].
  set (env0 := filterEnv envAllowed (ss_env s)).
  set (env1 := if bool_decide (default "" (ss_agentForward s) ≠ "") then _ else env0).
  set (env2 := match ss_pty s with Some _ => _ | None => env1 end).
  exists env2. split.
  { unfold buildCommand. destruct env2; simpl; by case_match. }
  assert (Forall (assignment_ok s) env0) as H0.
  { apply Forall_forall. intros a Ha. destruct (filterEnv_elem _ _ Ha) as (Hin & key & v & Hc & Hk & He).
    exists key, v. split; [done|]. by left. }
  assert (Forall (assignment_ok s) env1) as H1.
  { unfold env1. destruct (ss_agentForward s) as [socket|] eqn:Hag; simpl; [|done].
    destruct (decide (socket = "")) as [->|Hne]; [done|]. rewrite bool_decide_eq_true_2 by done.
    apply Forall_app. split.
    - apply Forall_forall. intros a [_ Ha]%list_elem_of_filter. by eapply Forall_forall in H0.
    - constructor; [|done]. exists EnvironmentSSHAuthSock, socket. split; [by apply Cut_key|]. by right; left. }
  unfold env2. destruct (ss_pty s) as [pty|] eqn:Hp; [|done].
  destruct (decide (pty_Term pty = "")) as [->|Hne]; [done|]. rewrite bool_decide_eq_true_2 by done.
  apply Forall_app. split; [done|]. constructor; [|done].
  exists "TERM", (pty_Term pty). split; [by apply (Cut_key "TERM")|]. right. right. eauto.
Qed.
End Command.

(** ** What runs is what was authorized *)

Definition begins (fx : list podEffect) : list Operation :=
  omap (fun e => match e with PodBegin o _ => Some o | _ => None end) fx.
Definition finishes (fx : list podEffect) : list OperationResult :=
  omap (fun e => match e with PodFinish r => Some r | _ => None end) fx.

Lemma pod_isSCPCommand_same argv : pod_isSCPCommand argv = isSCPCommand argv.
Proof.
  destruct argv as [|program args]; [done|]. unfold pod_isSCPCommand, isSCPCommand. case_match; [done|].
  induction args as [|a args IH]; [done|]. cbn [existsb]. rewrite IH. f_equal.
  destruct (bool_decide (a = "-t")) eqn:H1; breflect; subst; [done|].
  destruct (bool_decide (a = "-f")) eqn:H2; breflect; subst; done.
Qed.

Section Authorized.
Context `{UnicodeCase} `{PodWire} (tgt : Target) (defaultShell : string) (envAllowed : string → bool).
Context (shlex : string → list string) (begin : Operation → option error) (error_string : error → string).

(** A backend call that the capability authorized for operation [o] stands for. *)
Definition authorized_call (o : Operation) (c : backendCall) : Prop :=
  let spec := connectionOperationSpec shlex tgt o in
  match c with
  | BackendExec r => er_Target r = tgt ∧
      ((spec_capability spec = CapabilityShell ∧ ∃ env, er_Command r = env ++ [defaultShell]) ∨
       (spec_capability spec = CapabilityExec ∧
        ∃ env, er_Command r = env ++ [defaultShell; "-c"; op_Command o]))
  | BackendSCP t args => t = tgt ∧ spec_capability spec = CapabilitySCP ∧
      ∃ program, shlex (op_Command o) = program :: args
  | BackendSFTP t => t = tgt ∧ spec_capability spec = CapabilitySFTP
  | BackendPortForward t host port => t = tgt ∧ spec_capability spec = CapabilityLocalForward ∧
      destination_of (spec_attrs spec) = JoinHostPort host (uint_str port)
  | BackendRemoteForward t host port => t = tgt ∧ spec_capability spec = CapabilityRemoteForward ∧
      bind_of (spec_attrs spec) = JoinHostPort host (uint_str port)
  | BackendAgentForward t => t = tgt ∧ spec_capability spec = CapabilityAgentForward
  end.

(** At most one operation, finished as often as begun, every backend call after an allowed
    operation that covers it, and no panic. *)
Definition disciplined (fx : list podEffect) : Prop :=
  length (begins fx) ≤ 1 ∧ length (finishes fx) = length (begins fx) ∧ PodPanic ∉ fx ∧
  ∀ before c after, fx = before ++ PodBackend c :: after →
    ∃ o, PodBegin o None ∈ before ∧ authorized_call o c.

Lemma runSessionOperation_disciplined o tty c answer :
  authorized_call o c → disciplined (runSessionOperation begin o tty c answer).2.
Proof.
  intros Hc. unfold runSessionOperation, disciplined. destruct (begin o) as [e|]; simpl.
  - split_and!; [lia|done|set_solver|]. intros before c' after Heq.
    destruct before as [|? [|? [|? before]]]; simplify_eq/=. by destruct before.
  - destruct answer as [code [e|]]; simpl.
    + split_and!; [lia|done|set_solver|]. intros before c' after Heq.
      destruct before as [|? [|? [|? [|? before]]]]; simplify_eq/=; [|by destruct before].
      exists o. split; [set_solver|done].
    + split_and!; [lia|done|set_solver|]. intros before c' after Heq.
      destruct before as [|? [|? [|? before]]]; simplify_eq/=; [|by destruct before].
      exists o. split; [set_solver|done].
Qed.

Lemma handleSession_disciplined s answer :
  handler_for handlerSession (ss_requestType s) →
  disciplined (handleSession tgt defaultShell envAllowed shlex begin s answer).2.
Proof.
  intros Hty. unfold handleSession, handleSCP. rewrite pod_isSCPCommand_same.
  destruct Hty as [Hty|Hty]; rewrite Hty.
  - rewrite bool_decide_eq_false_2 by done. simpl. apply runSessionOperation_disciplined. simpl.
    rewrite Hty. split; [done|]. left. split; [done|]. unfold buildCommand. simpl. eauto.
  - rewrite bool_decide_eq_true_2 by done. simpl.
    destruct (isSCPCommand (shlex (ss_rawCmd s))) eqn:Hscp.
    + destruct (shlex (ss_rawCmd s)) as [|program args] eqn:Hsx; [done|].
      apply runSessionOperation_disciplined. simpl. split; [done|]. split; [|eauto].
      unfold connectionOperationSpec. simpl. unfold connectionSessionOperationSpec. simpl.
      by rewrite Hsx, Hscp.
    + apply runSessionOperation_disciplined. simpl. rewrite Hty. split; [done|]. right.
      unfold connectionOperationSpec. simpl. unfold connectionSessionOperationSpec. simpl.
      rewrite Hscp. split; [done|]. unfold buildCommand. simpl. eauto.
Qed.

Lemma handleDirectTCPIP_disciplined extraData remote accepted proxyErr :
  disciplined (handleDirectTCPIP tgt begin error_string extraData remote accepted proxyErr).
Proof.
  unfold handleDirectTCPIP, disciplined. destruct (Unmarshal_channelForward extraData) as [d|].
  2:{ simpl. split_and!; [lia|done|set_solver|]. intros before c after Heq.
      destruct before as [|? []]; simplify_eq/=. }
  destruct (begin _) as [e|]; simpl.
  { split_and!; [lia|done|set_solver|]. intros before c after Heq.
    destruct before as [|? [|? [|? []]]]; simplify_eq/=. }
  assert (∀ rest before c after, (∀ x, x ∈ rest → ∀ c, x ≠ PodBackend c) →
    PodBegin (direct_operation d) None :: PodBackend (BackendPortForward tgt (cfd_Host d) (cfd_Port d)) ::
      rest = before ++ PodBackend c :: after →
    ∃ o, PodBegin o None ∈ before ∧ authorized_call o c) as Hb.
  { intros rest before c after Hrest Heq. destruct before as [|? [|? before]]; simplify_eq/=.
    - exists (direct_operation d). split; [set_solver|]. done.
    - by destruct (Hrest (PodBackend c) ltac:(set_solver) c). }
  destruct remote as [e|]; [|destruct accepted as [e|]]; simpl;
    (split_and!; [lia|done|set_solver|]; intros before c after; apply Hb; set_solver).
Qed.

(** An operation that a session starts. *)
Lemma started_disciplined l s e h answer :
  handle_inputs newSession l = Some (s, e) → h ∈ session_starts e →
  disciplined (run_handler tgt defaultShell envAllowed shlex begin h s answer).2.
Proof.
  intros Hi Hh.
  destruct (handle_inputs_spec newSession l) as (s0 & e0 & He & _ & _ & _ & Hst); [simpl; lia|].
  rewrite Hi in He. injection He as <- <-.
  destruct (Hst eq_refl) as [Hnone|(h0 & Hone & _ & Hf)]; [rewrite Hnone in Hh; set_solver|].
  rewrite Hone in Hh. apply list_elem_of_singleton in Hh as ->.
  destruct h0; [by apply handleSession_disciplined|]. simpl. unfold handleSFTP.
  by apply runSessionOperation_disciplined.
Qed.

(** A Pod target runs exactly what was authorized.  For every operation a session starts and
    every direct-tcpip channel: the operation callback is asked once, before anything is done; the
    backend is called only if it allowed the operation, on the connection's target, and with the
    very call the authorized capability stands for: the policy's shell for [shell], the client's
    command for [exec], the SCP helper with the command's arguments for [scp], SFTP for [sftp], the
    authorized destination for a local forward; and the operation is finished exactly once on every
    path. *)
Theorem pod_runs_what_was_authorized l s e h answer extraData remote accepted proxyErr :
  handle_inputs newSession l = Some (s, e) → h ∈ session_starts e →
  disciplined (run_handler tgt defaultShell envAllowed shlex begin h s answer).2 ∧
  disciplined (handleDirectTCPIP tgt begin error_string extraData remote accepted proxyErr).
Proof.
  intros Hi Hh. split; [by eapply started_disciplined|apply handleDirectTCPIP_disciplined].
Qed.
End Authorized.

(** ** A concrete session *)

Definition demo_wire : SSHWire := {|
  Unmarshal_channelForward _ := Some (mkChannelForward "localhost" 80 "10.0.0.9" 40000);
  Unmarshal_globalForward _ := Some (mkGlobalForward "0.0.0.0" 8080);
  Unmarshal_value s := Some s;
  Unmarshal_keyValue s := Some (s, "1");
  Unmarshal_uint32 _ := Some 0%Z;
|}.
Definition demo_pod_wire : @PodWire demo_wire :=
  @Build_PodWire demo_wire (fun s => Some (s, 80, 24)%Z) (fun _ => Some (100, 30)%Z).
Definition demo_inputs : list sessionInput :=
  [InRequest (mkSSHRequest RequestEnvironment true "LANG") true None;
   InRequest (mkSSHRequest RequestPTY true "xterm") true None;
   InRequest (mkSSHRequest RequestWindowChange false "") true None;
   InRequest (mkSSHRequest RequestExec true "id -u") true None;
   InRequest (mkSSHRequest RequestExec true "second") true None].
Definition demo_session : serverSession :=
  mkSession true (Some (mkPTY "xterm" (mkWindow 80 24))) [mkWindow 100 30] ["LANG=1"] "id -u"
    RequestExec None false.
Definition demo_target : Target := mkTarget KindPod [] ∅.

Lemma pod_runs_what_was_authorized_witness :
  @handle_inputs demo_wire demo_pod_wire newSession demo_inputs =
    Some (demo_session, [SessionReply true; SessionReply true; SessionReply true; SessionReply true;
                         SessionStart handlerSession; SessionReply false]) ∧
  disciplined demo_target "/bin/sh" (fun _ => [])
    (@run_handler ascii_only demo_target "/bin/sh" (fun _ => true) (fun _ => []) (fun _ => None)
       handlerSession demo_session (0%Z, None)).2.
Proof.
  split; [vm_compute; reflexivity|].
  apply (@pod_runs_what_was_authorized ascii_only demo_wire demo_pod_wire demo_target "/bin/sh"
    (fun _ => true) (fun _ => []) (fun _ => None) (fun _ => "") demo_inputs demo_session
    [SessionReply true; SessionReply true; SessionReply true; SessionReply true;
     SessionStart handlerSession; SessionReply false] handlerSession (0%Z, None) "" None None None).
  - vm_compute. reflexivity.
  - left.
Defined.

Example demo_command :
  er_Command (@resolveSession ascii_only demo_target "/bin/sh" (fun _ => true) demo_session).2 =
    ["env"; "LANG=1"; "TERM=xterm"; "/bin/sh"; "-c"; "id -u"].
Proof. vm_compute. reflexivity. Qed.
