(* ===== verification/PodForward.v ===== *)
(** Models of [src/pkg/podssh/client_state.go] and [remotetcpip.go] (remote forwards of a Pod
    connection) and of [agentforward.go].

    Global requests of a connection are handled one after the other; every accepted forward is
    served by its own goroutine, and the connection may be closed at any time.  A step of the
    system is one locked region of the client state, or one call of the operation callback or of a
    forward outside the lock, so that whatever the code does between two regions can happen between
    two steps.  Forwards are numbered in the order the backend opens them. *)

From S2P Require Import Prelude GoStrings GoStrconv Kube Target Authn AccessStore AccessResolver Authz Operation SSHProxy PodSession PodSessionProps.

(** ** [client_state.go] *)

(** A nil map is [None]. *)
Record clientState := mkClientState {
  cs_closed : bool;
  cs_remoteForwards : option (gmap string nat);
}.
Definition newClientState : clientState := mkClientState false (Some ∅).

Definition cs_lookup (s : clientState) (bind : string) : option nat :=
  m ← cs_remoteForwards s; m !! bind.

Definition AddRemoteForward_ (s : clientState) (bind : string) (forward : nat) : clientState * bool :=
  if cs_closed s then (s, false)
  else match cs_lookup s bind with
       | Some _ => (s, false)
       | None => (mkClientState (cs_closed s) (<[bind := forward]> <$> cs_remoteForwards s), true)
       end.

Definition RemoveRemoteForward_ (s : clientState) (bind : string) : clientState * option nat :=
  match cs_lookup s bind with
  | Some forward => (mkClientState (cs_closed s) (delete bind <$> cs_remoteForwards s), Some forward)
  | None => (s, None)
  end.

(** [Close]: the forwards to close after the lock is released. *)
Definition clientState_Close (s : clientState) : clientState * list nat :=
  if cs_closed s then (s, [])
  else (mkClientState true None, (map_to_list (default ∅ (cs_remoteForwards s))).*2).

(** ** [remotetcpip.go] *)

Definition newRemoteForwardBind (host : string) (port : Z) : string := JoinHostPort host (uint_str port).

(** The target-side listener of a forward: closed for good, or cancelled and draining. *)
Inductive listener := ListenerOpen | ListenerCancelled | ListenerClosed.
#[export] Instance listener_eq_dec : EqDecision listener.
Proof. solve_decision. Defined.

(** Where the goroutine of a forward is: not started, accepting, returning with its result, past the
    locked region of its deferred function with what it removed there and has not yet closed, or done. *)
Inductive servePhase :=
| Unserved | Serving | Returning (r : OperationResult) | Removed (r : OperationResult) (current : option nat) | Served.

Record remoteForward := mkRemoteForward {
  rf_host : string;
  rf_port : Z;
  rf_listener : listener;
  rf_phase : servePhase;
  rf_finished : list OperationResult;
}.
Definition rf_bind (f : remoteForward) : string := newRemoteForwardBind (rf_host f) (rf_port f).

(** Where the goroutine of the global requests is: the backend is opening a forward; a forward is open
    and not yet added; it was refused and has to be closed, and then finished; a forward was removed and
    is being cancelled; its cancellation failed and it has to be closed. *)
Inductive requestPhase :=
| RequestIdle
| RequestOpening (host : string) (port : Z)
| RequestAdding (n : nat)
| RequestRefused (n : nat)
| RequestRefusedClosed (n : nat)
| RequestCancelling (n : nat)
| RequestCancelFailed (n : nat).

(** [pf_closing] are the forwards that [clientState.Close] took and has not yet closed. *)
Record podForwards := mkPodForwards {
  pf_client : clientState;
  pf_forwards : list remoteForward;
  pf_log : list podEffect;
  pf_request : requestPhase;
  pf_closing : list nat;
}.
Definition newPodForwards : podForwards := mkPodForwards newClientState [] [] RequestIdle [].

Definition set_listener (l : listener) (f : remoteForward) : remoteForward :=
  mkRemoteForward (rf_host f) (rf_port f) l (rf_phase f) (rf_finished f).
Definition set_servePhase (p : servePhase) (f : remoteForward) : remoteForward :=
  mkRemoteForward (rf_host f) (rf_port f) (rf_listener f) p (rf_finished f).
Definition finish_forward (r : OperationResult) (f : remoteForward) : remoteForward :=
  mkRemoteForward (rf_host f) (rf_port f) (rf_listener f) Served (rf_finished f ++ [r]).

Definition pf_update (st : podForwards) (fs : list remoteForward) (p : requestPhase) : podForwards :=
  mkPodForwards (pf_client st) fs (pf_log st) p (pf_closing st).
Definition pf_logged (st : podForwards) (e : list podEffect) (p : requestPhase) : podForwards :=
  mkPodForwards (pf_client st) (pf_forwards st) (pf_log st ++ e) p (pf_closing st).
(** [forward.Close()] of forward [n]. *)
Definition close_forward (fs : list remoteForward) (n : nat) : list remoteForward :=
  alter (set_listener ListenerClosed) n fs.

Section Forwards.
Context `{SSHWire} (tgt : Target).

(** *** [handleTCPIPForward] *)

(** The operation callback; [denied] is its answer. *)
Definition forward_begin (st : podForwards) (payload : string) (denied : option error) : podForwards :=
  match Unmarshal_globalForward payload with
  | None => st
  | Some data =>
      let o := forward_operation (gfd_Host data) (gfd_Port data) in
      match denied with
      | Some e => pf_logged st [PodBegin o (Some e); PodFinish (result_of None)] RequestIdle
      | None => pf_logged st [PodBegin o None] (RequestOpening (gfd_Host data) (gfd_Port data))
      end
  end.

(** The backend; [opened] is the port it bound or its error. *)
Definition forward_open (st : podForwards) (opened : result Z) : podForwards :=
  match pf_request st with
  | RequestOpening host port =>
      let call := BackendRemoteForward tgt host port in
      match opened with
      | Err e => pf_logged st [PodBackend call; PodFinish (result_of (Some e))] RequestIdle
      | Ok actualPort =>
          mkPodForwards (pf_client st)
            (pf_forwards st ++ [mkRemoteForward host actualPort ListenerOpen Unserved []])
            (pf_log st ++ [PodBackend call]) (RequestAdding (length (pf_forwards st))) (pf_closing st)
      end
  | _ => st
  end.

(** The locked region of [AddRemoteForward], and the start of the goroutine. *)
Definition forward_add (st : podForwards) : podForwards :=
  match pf_request st with
  | RequestAdding n =>
      match pf_forwards st !! n with
      | None => st
      | Some f =>
          match AddRemoteForward_ (pf_client st) (rf_bind f) n with
          | (client, true) =>
              mkPodForwards client (alter (set_servePhase Serving) n (pf_forwards st)) (pf_log st) RequestIdle (pf_closing st)
          | (client, false) =>
              mkPodForwards client (pf_forwards st) (pf_log st) (RequestRefused n) (pf_closing st)
          end
      end
  | _ => st
  end.

Definition forward_refuse_close (st : podForwards) : podForwards :=
  match pf_request st with
  | RequestRefused n => pf_update st (close_forward (pf_forwards st) n) (RequestRefusedClosed n)
  | _ => st
  end.
Definition forward_refuse_finish (st : podForwards) : podForwards :=
  match pf_request st with
  | RequestRefusedClosed n =>
      let r := result_of (Some (Errorf "remote forward already exists" [])) in
      pf_logged (pf_update st (alter (finish_forward r) n (pf_forwards st)) RequestIdle) [PodFinish r] RequestIdle
  | _ => st
  end.

(** The whole handler when nothing comes between its steps, with the reply: the bound port. *)
Definition handleTCPIPForward (st : podForwards) (payload : string) (denied : option error)
    (opened : result Z) : podForwards * option Z :=
  let opened_st := forward_open (forward_begin st payload denied) opened in
  let added := forward_add opened_st in
  match pf_request opened_st, pf_request added with
  | RequestAdding n, RequestIdle => (added, rf_port <$> pf_forwards added !! n)
  | _, RequestRefused _ => (forward_refuse_finish (forward_refuse_close added), None)
  | _, _ => (added, None)
  end.

(** *** [handleCancelTCPIPForward] *)

(** The locked region of [RemoveRemoteForward]. *)
Definition cancel_remove (st : podForwards) (payload : string) : podForwards :=
  match Unmarshal_globalForward payload with
  | None => st
  | Some data =>
      match RemoveRemoteForward_ (pf_client st) (newRemoteForwardBind (gfd_Host data) (gfd_Port data)) with
      | (client, Some n) => mkPodForwards client (pf_forwards st) (pf_log st) (RequestCancelling n) (pf_closing st)
      | (client, None) => mkPodForwards client (pf_forwards st) (pf_log st) RequestIdle (pf_closing st)
      end
  end.
(** [Cancel] returns; [failed] says that it returned an error. *)
Definition cancel_call (st : podForwards) (failed : bool) : podForwards :=
  match pf_request st with
  | RequestCancelling n =>
      if failed then pf_update st (pf_forwards st) (RequestCancelFailed n)
      else pf_update st (alter (set_listener ListenerCancelled) n (pf_forwards st)) RequestIdle
  | _ => st
  end.
Definition cancel_close (st : podForwards) : podForwards :=
  match pf_request st with
  | RequestCancelFailed n => pf_update st (close_forward (pf_forwards st) n) RequestIdle
  | _ => st
  end.

Definition handleCancelTCPIPForward (st : podForwards) (payload : string) (failed : bool)
    : podForwards * bool :=
  (cancel_close (cancel_call (cancel_remove st payload) failed),
   bool_decide (is_Some (Unmarshal_globalForward payload))).

(** *** [serveRemoteForward] *)

(** [Accept] of forward [n] failed with [err]; a cancelled context is no error. *)
Definition accept_failed (st : podForwards) (n : nat) (err : error) (ctxDone : bool) : podForwards :=
  let result f :=
    mkOperationResult (if ctxDone || errors_Is err context_Canceled then None else Some err) None
      (Some (rf_port f)) in
  pf_update st
    (alter (fun f => match rf_phase f with Serving => set_servePhase (Returning (result f)) f | _ => f end)
       n (pf_forwards st)) (pf_request st).

(** The deferred function: unregister whatever is registered under the forward's address, close it, and
    finish the operation. *)
Definition serve_remove (st : podForwards) (n : nat) : podForwards :=
  match pf_forwards st !! n with
  | Some f =>
      match rf_phase f with
      | Returning r =>
          let '(client, current) := RemoveRemoteForward_ (pf_client st) (rf_bind f) in
          mkPodForwards client (alter (set_servePhase (Removed r current)) n (pf_forwards st)) (pf_log st)
            (pf_request st) (pf_closing st)
      | _ => st
      end
  | None => st
  end.
Definition serve_close (st : podForwards) (n : nat) : podForwards :=
  match pf_forwards st !! n with
  | Some f =>
      match rf_phase f with
      | Removed r (Some m) =>
          pf_update st (alter (set_servePhase (Removed r None)) n (close_forward (pf_forwards st) m)) (pf_request st)
      | _ => st
      end
  | None => st
  end.
Definition serve_finish (st : podForwards) (n : nat) : podForwards :=
  match pf_forwards st !! n with
  | Some f =>
      match rf_phase f with
      | Removed r None =>
          pf_logged (pf_update st (alter (finish_forward r) n (pf_forwards st)) (pf_request st)) [PodFinish r]
            (pf_request st)
      | _ => st
      end
  | None => st
  end.

(** *** [Protocol.Close] *)

(** The locked region of [clientState.Close], and the loop after it. *)
Definition forwards_Close (st : podForwards) : podForwards :=
  let '(client, closing) := clientState_Close (pf_client st) in
  mkPodForwards client (pf_forwards st) (pf_log st) (pf_request st) (pf_closing st ++ closing).
Definition close_next (st : podForwards) : podForwards :=
  match pf_closing st with
  | n :: rest =>
      mkPodForwards (pf_client st) (close_forward (pf_forwards st) n) (pf_log st) (pf_request st) rest
  | [] => st
  end.

(** The data of a forwarded-tcpip channel opened for a connection accepted from forward [f]. *)
Definition forwardedChannelData (f : remoteForward) (originHost : string) (originPort : Z)
    : channelForwardData :=
  mkChannelForward (rf_host f) (rf_port f) originHost originPort.

(** What the code does by itself once it has begun, the return of a call of [Cancel] included. *)
Inductive forwards_own : podForwards → podForwards → Prop :=
| fo_add st n : pf_request st = RequestAdding n → n < length (pf_forwards st) → forwards_own st (forward_add st)
| fo_refuse_close st n : pf_request st = RequestRefused n → forwards_own st (forward_refuse_close st)
| fo_refuse_finish st n : pf_request st = RequestRefusedClosed n → forwards_own st (forward_refuse_finish st)
| fo_cancel_call st n failed : pf_request st = RequestCancelling n → forwards_own st (cancel_call st failed)
| fo_cancel_close st n : pf_request st = RequestCancelFailed n → forwards_own st (cancel_close st)
| fo_serve_remove st n f r :
    pf_forwards st !! n = Some f → rf_phase f = Returning r → forwards_own st (serve_remove st n)
| fo_serve_close st n f r m :
    pf_forwards st !! n = Some f → rf_phase f = Removed r (Some m) → forwards_own st (serve_close st n)
| fo_serve_finish st n f r :
    pf_forwards st !! n = Some f → rf_phase f = Removed r None → forwards_own st (serve_finish st n)
| fo_close_next st n rest : pf_closing st = n :: rest → forwards_own st (close_next st).

(** What the client, the backend and the end of the connection make happen. *)
Inductive forwards_env : podForwards → podForwards → Prop :=
| fe_begin st payload denied : pf_request st = RequestIdle → forwards_env st (forward_begin st payload denied)
| fe_open st host port opened : pf_request st = RequestOpening host port → forwards_env st (forward_open st opened)
| fe_cancel st payload : pf_request st = RequestIdle → forwards_env st (cancel_remove st payload)
| fe_accept_failed st n err ctxDone : forwards_env st (accept_failed st n err ctxDone)
| fe_close st : forwards_env st (forwards_Close st).

Definition forwards_step (st st' : podForwards) : Prop := forwards_own st st' ∨ forwards_env st st'.
End Forwards.

(** ** [agentforward.go] *)

(** [acceptAgentForward]: the socket of the opened forward, whose operation ends with its serving
    goroutine; otherwise the operation is finished here. *)
Definition acceptAgentForward (tgt : Target) (denied : option error) (opened : result string)
    : option string * list podEffect :=
  let o := session_operation RequestAgentForward "" "" in
  match denied with
  | Some e => (None, [PodBegin o (Some e); PodFinish (result_of None)])
  | None =>
      match opened with
      | Err e => (None, [PodBegin o None; PodBackend (BackendAgentForward tgt);
                         PodFinish (result_of (Some e))])
      | Ok socket => (Some socket, [PodBegin o None; PodBackend (BackendAgentForward tgt)])
      end
  end.

(** The end of [serveAgentForward] after [Accept] failed. *)
Definition serveAgentForward_end (closing ctxDone : bool) (err : error) : list podEffect :=
  [PodFinish (result_of (if closing || ctxDone || errors_Is err context_Canceled then None else Some err))].
