(* ===== verification/PodForwardProps.v ===== *)
(** Properties of the remote forwards of a Pod connection. *)

From S2P Require Import Prelude Runs GoStrings GoStrconv Kube Target Authn AccessStore AccessResolver Authz Operation SSHProxy PodSession PodSessionProps PodForward.

(** ** Open listeners and who holds them *)

Definition is_open (f : remoteForward) : bool := bool_decide (rf_listener f = ListenerOpen).

(** The numbers of the forwards whose listener is open. *)
Definition opens (fs : list remoteForward) : list nat :=
  filter (fun n => (is_open <$> fs !! n) = Some true) (seq 0 (length fs)).

(** Those held by the registry, by the goroutine of the requests, by the deferred functions of serving
    goroutines, and by the loop of [clientState.Close]. *)
Definition registry_holds (c : clientState) : list nat := (map_to_list (default ∅ (cs_remoteForwards c))).*2.
Definition request_holds (p : requestPhase) : list nat :=
  match p with
  | RequestAdding n | RequestRefused n | RequestCancelling n | RequestCancelFailed n => [n]
  | RequestIdle | RequestOpening _ _ | RequestRefusedClosed _ => []
  end.
Definition removed_by (f : remoteForward) : option nat :=
  match rf_phase f with Removed _ current => current | _ => None end.
Definition in_progress (st : podForwards) : list nat :=
  request_holds (pf_request st) ++ omap removed_by (pf_forwards st) ++ pf_closing st.
Definition holders (st : podForwards) : list nat := registry_holds (pf_client st) ++ in_progress st.

Lemma lookup_alter_cases {A} (g : A → A) (l : list A) (n i : nat) x :
  alter g n l !! i = Some x → (i ≠ n ∧ l !! i = Some x) ∨ (i = n ∧ ∃ y, l !! n = Some y ∧ x = g y).
Proof.
  rewrite list_lookup_alter. case_decide; [subst|naive_solver].
  destruct (l !! i); simpl; naive_solver.
Qed.

Lemma elem_of_opens fs n : n ∈ opens fs ↔ ∃ f, fs !! n = Some f ∧ rf_listener f = ListenerOpen.
Proof.
  unfold opens. rewrite list_elem_of_filter, elem_of_seq. unfold is_open. split.
  - intros [Ho _]. destruct (fs !! n) as [f|]; [|done]. simpl in Ho. exists f. split; [done|].
    injection Ho as Ho. by apply bool_decide_eq_true in Ho.
  - intros (f & Hf & Ho). rewrite Hf. simpl. rewrite bool_decide_eq_true_2 by done. split; [done|].
    apply lookup_lt_Some in Hf. lia.
Qed.

Lemma NoDup_opens fs : NoDup (opens fs).
Proof. apply NoDup_filter, NoDup_seq. Qed.

Lemma opens_app fs f : rf_listener f = ListenerOpen → opens (fs ++ [f]) ≡ₚ length fs :: opens fs.
Proof.
  intros Ho. apply NoDup_Permutation; [apply NoDup_opens|constructor; [|apply NoDup_opens]|].
  - rewrite elem_of_opens. intros (g & Hg & _). apply lookup_lt_Some in Hg. lia.
  - intros n. rewrite elem_of_cons, !elem_of_opens. split.
    + intros (g & [Hg|[Hle Hg]]%lookup_app_Some & Hgo); [right; eauto|].
      apply list_lookup_singleton_Some in Hg as [Hn _]. left. lia.
    + intros [->|(g & Hg & Hgo)].
      * exists f. split; [by apply list_lookup_middle|done].
      * exists g. split; [by apply lookup_app_l_Some|done].
Qed.

(** Stopping an open listener. *)
Lemma opens_stop fs n l :
  n ∈ opens fs → l ≠ ListenerOpen → opens fs ≡ₚ n :: opens (alter (set_listener l) n fs).
Proof.
  intros Hn Hl. apply NoDup_Permutation; [apply NoDup_opens|constructor; [|apply NoDup_opens]|].
  - rewrite elem_of_opens. intros (g & [[? _]|(_ & y & _ & ->)]%lookup_alter_cases & Hg); done.
  - intros m. rewrite elem_of_cons, !elem_of_opens. split.
    + intros (f & Hf & Ho). destruct (decide (m = n)) as [->|Hne]; [by left|]. right. exists f.
      by rewrite list_lookup_alter_ne.
    + intros [->|(g & [[Hne Hg]|(-> & y & Hy & ->)]%lookup_alter_cases & Ho)]; [by apply elem_of_opens|eauto|done].
Qed.

Lemma opens_alter fs n g :
  (∀ f, rf_listener (g f) = rf_listener f) → opens (alter g n fs) = opens fs.
Proof.
  intros Hg. unfold opens. rewrite length_alter. apply list_filter_iff. intros m. unfold is_open.
  rewrite list_lookup_alter. case_decide; [subst|done].
  destruct (fs !! m); simpl; [by rewrite Hg|done].
Qed.

(** A serving goroutine takes or gives up the forward it removed. *)
Lemma removed_alter g (fs : list remoteForward) (n : nat) f :
  fs !! n = Some f →
  omap removed_by (alter g n fs) ++ opt_list (removed_by f) ≡ₚ
  omap removed_by fs ++ opt_list (removed_by (g f)).
Proof.
  revert n. induction fs as [|f0 fs IH]; intros [|n]; simpl; try done.
  - intros [= ->]. destruct (removed_by (g f)), (removed_by f); simpl; solve_Permutation.
  - intros Hf. specialize (IH n Hf). destruct (removed_by f0); simpl; [by rewrite IH|done].
Qed.

Lemma removed_alter_same g (fs : list remoteForward) (n : nat) :
  (∀ f, fs !! n = Some f → removed_by (g f) = removed_by f) → omap removed_by (alter g n fs) = omap removed_by fs.
Proof.
  revert n. induction fs as [|f0 fs IH]; intros [|n] Hg; simpl; try done.
  - by rewrite (Hg f0 eq_refl).
  - specialize (IH n Hg). destruct (removed_by f0); [f_equal|]; exact IH.
Qed.

(** ** Counting operations *)

Definition finished_once (f : remoteForward) : Prop :=
  match rf_phase f with Served => length (rf_finished f) = 1 | _ => rf_finished f = [] end.

Definition served (f : remoteForward) : bool := match rf_phase f with Served => true | _ => false end.
Definition pending (fs : list remoteForward) : nat := length (filter (fun f => served f = false) fs).

Lemma pending_app fs f : pending (fs ++ [f]) = pending fs + if served f then 0 else 1.
Proof.
  unfold pending. rewrite filter_app, length_app. f_equal. simpl.
  rewrite filter_cons. simpl. destruct (served f); done.
Qed.

Lemma pending_alter g fs n f :
  fs !! n = Some f →
  pending (alter g n fs) + (if served f then 0 else 1) = pending fs + (if served (g f) then 0 else 1).
Proof.
  unfold pending. revert n. induction fs as [|f0 fs IH]; intros [|n]; simpl; try done.
  - intros [= ->]. rewrite !filter_cons. destruct (served f), (served (g f)); simpl; lia.
  - intros Hf. rewrite !filter_cons. specialize (IH n Hf). case_decide; simpl; unfold alter in IH; lia.
Qed.

Lemma pending_alter_same g fs n :
  (∀ f, fs !! n = Some f → served (g f) = served f) → pending (alter g n fs) = pending fs.
Proof.
  unfold pending. revert n. induction fs as [|f0 fs IH]; intros [|n] Hg; simpl; try done.
  - rewrite !filter_cons, (Hg f0 eq_refl). by case_decide.
  - rewrite !filter_cons. specialize (IH n Hg). unfold alter in IH. case_decide; simpl; by rewrite IH.
Qed.

(** An operation that was begun and whose backend call has not returned. *)
Definition opening (p : requestPhase) : nat := match p with RequestOpening _ _ => 1 | _ => 0 end.

Section Inv.
Context `{SSHWire} (tgt : Target) (shell : string) (shlex : string → list string).

Definition calls_authorized (log : list podEffect) : Prop :=
  ∀ before c after, log = before ++ PodBackend c :: after →
    ∃ o, PodBegin o None ∈ before ∧ authorized_call tgt shell shlex o c.

Record forwards_inv (st : podForwards) : Prop := mkForwardsInv {
  fi_holders : holders st ≡ₚ opens (pf_forwards st);
  fi_registered : ∀ b n, cs_lookup (pf_client st) b = Some n →
    ∃ f, pf_forwards st !! n = Some f ∧ rf_bind f = b ∧ (rf_phase f = Serving ∨ ∃ r, rf_phase f = Returning r);
  fi_once : ∀ n f, pf_forwards st !! n = Some f → finished_once f;
  fi_request : match pf_request st with
               | RequestAdding n | RequestRefused n | RequestRefusedClosed n =>
                   ∃ f, pf_forwards st !! n = Some f ∧ rf_phase f = Unserved
               | RequestOpening host port => PodBegin (forward_operation host port) None ∈ pf_log st
               | _ => True
               end;
  fi_closed : if cs_closed (pf_client st) then cs_remoteForwards (pf_client st) = None
              else is_Some (cs_remoteForwards (pf_client st));
  fi_count : length (begins (pf_log st)) =
             length (finishes (pf_log st)) + pending (pf_forwards st) + opening (pf_request st);
  fi_calls : calls_authorized (pf_log st);
}.

Lemma calls_authorized_app log log' :
  calls_authorized log →
  (∀ before c after, log' = before ++ PodBackend c :: after →
     ∃ o, PodBegin o None ∈ log ++ before ∧ authorized_call tgt shell shlex o c) →
  calls_authorized (log ++ log').
Proof.
  intros Hl Hl' before c after Heq. apply app_eq_inv in Heq as [(k & -> & Hk)|(k & -> & Hk)].
  - destruct k as [|x k]; simplify_eq/=.
    + destruct (Hl' [] c after eq_refl) as (o & Ho & Ha). rewrite !app_nil_r in Ho. eauto.
    + by eapply (Hl before c k).
  - by apply (Hl' k c after).
Qed.

Lemma begins_app l l' : begins (l ++ l') = begins l ++ begins l'.
Proof. apply omap_app. Qed.
Lemma finishes_app l l' : finishes (l ++ l') = finishes l ++ finishes l'.
Proof. apply omap_app. Qed.

(** Effects that call no backend, or one covered by the operation allowed just before. *)
Lemma quiet_log log e :
  calls_authorized log → (∀ x, x ∈ e → ∀ c, x ≠ PodBackend c) → calls_authorized (log ++ e).
Proof.
  intros Hl He. apply calls_authorized_app; [done|]. intros before c after ->.
  by destruct (He (PodBackend c) ltac:(set_solver) c).
Qed.

Lemma called_log log o c e :
  calls_authorized log → PodBegin o None ∈ log → authorized_call tgt shell shlex o c →
  (∀ x, x ∈ e → ∀ c, x ≠ PodBackend c) → calls_authorized (log ++ PodBackend c :: e).
Proof.
  intros Hl Ho Hc He. apply calls_authorized_app; [done|]. intros before c' after Heq.
  destruct before as [|? before]; simplify_eq/=.
  - exists o. split; [set_solver|done].
  - by destruct (He (PodBackend c') ltac:(set_solver) c').
Qed.

(** ** The registry *)

Lemma RemoveRemoteForward_spec (s s' : clientState) b n :
  RemoveRemoteForward_ s b = (s', n) →
  n = cs_lookup s b ∧ cs_closed s' = cs_closed s ∧
  (is_Some (cs_remoteForwards s') ↔ is_Some (cs_remoteForwards s)) ∧
  ∀ b', cs_lookup s' b' = if bool_decide (b' = b) then None else cs_lookup s b'.
Proof.
  unfold RemoveRemoteForward_. destruct (cs_lookup s b) as [m|] eqn:Hl; intros [= <- <-].
  - split_and!; [done|done|simpl; by rewrite fmap_is_Some|]. intros b'. unfold cs_lookup in *. simpl.
    destruct (cs_remoteForwards s) as [mp|]; [|done]. simpl in *. case_bool_decide as Hb.
    + subst. apply lookup_delete_eq.
    + by apply lookup_delete_ne.
  - split_and!; [done..|]. intros b'. case_bool_decide; by subst.
Qed.

Lemma registered_remove s s' b n :
  RemoveRemoteForward_ s b = (s', n) → registry_holds s ≡ₚ opt_list n ++ registry_holds s'.
Proof.
  unfold RemoveRemoteForward_, registry_holds, cs_lookup. destruct (cs_remoteForwards s) as [m|] eqn:Hm; simpl.
  - destruct (m !! b) as [n'|] eqn:Hb; intros [= <- <-]; [|by rewrite Hm]. simpl.
    rewrite <-(map_to_list_delete m b n' Hb). done.
  - intros [= <- <-]. by rewrite Hm.
Qed.

Lemma AddRemoteForward_spec s b n s' ok :
  AddRemoteForward_ s b n = (s', ok) →
  (if cs_closed s then cs_remoteForwards s = None else is_Some (cs_remoteForwards s)) →
  (ok = false ∧ s' = s) ∨
  (ok = true ∧ cs_closed s' = cs_closed s ∧ cs_closed s = false ∧ is_Some (cs_remoteForwards s') ∧
   registry_holds s' ≡ₚ n :: registry_holds s ∧
   ∀ b', cs_lookup s' b' = if bool_decide (b' = b) then Some n else cs_lookup s b').
Proof.
  unfold AddRemoteForward_. destruct (cs_closed s) eqn:Hc; [intros [= <- <-]; by left|].
  destruct (cs_lookup s b) as [x|] eqn:Hl; intros [= <- <-]; [by left|]. intros [m Hm]. right.
  unfold registry_holds, cs_lookup in *. rewrite Hm in *. simpl in *. split_and!; try done.
  - by rewrite map_to_list_insert.
  - intros b'. case_bool_decide; [subst; apply lookup_insert_eq|by apply lookup_insert_ne].
Qed.

(** ** Steps *)

(** A listener held outside the registry is stopped by its holder. *)
Lemma held_open st n rest :
  holders st ≡ₚ opens (pf_forwards st) → holders st ≡ₚ n :: rest → n ∈ opens (pf_forwards st).
Proof. intros Hh Hn. rewrite <-Hh, Hn. left. Qed.

Lemma stop_holders st n rest l :
  holders st ≡ₚ opens (pf_forwards st) → holders st ≡ₚ n :: rest → l ≠ ListenerOpen →
  rest ≡ₚ opens (alter (set_listener l) n (pf_forwards st)).
Proof.
  intros Hh Hn Hl. pose proof (held_open _ _ _ Hh Hn) as Hin.
  rewrite Hh, (opens_stop _ _ _ Hin Hl) in Hn. by apply Permutation_cons_inv in Hn.
Qed.

Lemma registered_alter (look : string → option nat) (fs : list remoteForward) (n : nat) g :
  (∀ b m, look b = Some m → ∃ f, fs !! m = Some f ∧ rf_bind f = b ∧ (rf_phase f = Serving ∨ ∃ r, rf_phase f = Returning r)) →
  (∀ f, fs !! n = Some f → rf_bind (g f) = rf_bind f ∧
     ((∃ b, look b = Some n) → rf_phase (g f) = Serving ∨ ∃ r, rf_phase (g f) = Returning r)) →
  ∀ b m, look b = Some m → ∃ f, alter g n fs !! m = Some f ∧ rf_bind f = b ∧
     (rf_phase f = Serving ∨ ∃ r, rf_phase f = Returning r).
Proof.
  intros Hreg Hg b m Hb. destruct (Hreg b m Hb) as (f & Hf & Hfb & Hp). rewrite list_lookup_alter.
  case_decide; [subst n|by exists f]. rewrite Hf. simpl. destruct (Hg f Hf) as [E Hph].
  exists (g f). split_and!; [done|congruence|]. apply Hph. eauto.
Qed.

Lemma once_alter (fs : list remoteForward) (n : nat) g :
  (∀ m f, fs !! m = Some f → finished_once f) →
  (∀ f, fs !! n = Some f → finished_once f → finished_once (g f)) →
  ∀ m f, alter g n fs !! m = Some f → finished_once f.
Proof.
  intros H1 Hg m f [[_ Hf]|(-> & y & Hy & ->)]%lookup_alter_cases; [by eapply H1|].
  apply Hg; [done|]. by eapply H1.
Qed.

(** Stopping a listener changes nothing else. *)
Lemma stop_inv st n l p closing :
  forwards_inv st → l ≠ ListenerOpen →
  holders st ≡ₚ n :: registry_holds (pf_client st) ++ request_holds p ++ omap removed_by (pf_forwards st) ++ closing →
  match p with
  | RequestAdding m | RequestRefused m | RequestRefusedClosed m =>
      ∃ f, pf_forwards st !! m = Some f ∧ rf_phase f = Unserved
  | RequestOpening host port => PodBegin (forward_operation host port) None ∈ pf_log st
  | _ => True
  end → opening p = opening (pf_request st) →
  forwards_inv (mkPodForwards (pf_client st) (alter (set_listener l) n (pf_forwards st)) (pf_log st) p closing).
Proof.
  intros [Hh Hreg H1 Hrq Hc Hn Hl] Hne Hholds Hp Hop. split; simpl; [| | | |done| |done].
  - unfold holders, in_progress. simpl. rewrite removed_alter_same by done.
    by apply (stop_holders st).
  - apply registered_alter; [done|]. intros f Hf. split; [done|]. intros [b Hb].
    destruct (Hreg b n Hb) as (f' & Hf' & _ & Hph). by simplify_eq.
  - apply once_alter; [done|]. by intros f _ Hf.
  - assert (∀ m f, pf_forwards st !! m = Some f → rf_phase f = Unserved →
      ∃ f', alter (set_listener l) n (pf_forwards st) !! m = Some f' ∧ rf_phase f' = Unserved) as Hun.
    { intros m f Hf Hph. rewrite list_lookup_alter. case_decide; [subst; rewrite Hf; simpl; eauto|eauto]. }
    destruct p; try done; destruct Hp as (f & Hf & Hph); by eapply Hun.
  - rewrite Hop, pending_alter_same by done. done.
Qed.

Lemma begin_inv st payload denied :
  forwards_inv st → pf_request st = RequestIdle → forwards_inv (forward_begin st payload denied).
Proof.
  intros [Hh Hreg H1 Hrq Hc Hn Hl] Hidle. unfold forward_begin.
  destruct (Unmarshal_globalForward payload) as [d|]; [|done].
  unfold holders, in_progress in Hh. rewrite Hidle in *.
  destruct denied as [e|]; (split; simpl; try done; [..|apply quiet_log; [done|set_solver]]).
  - rewrite begins_app, finishes_app, !length_app. simpl in *. lia.
  - set_solver.
  - rewrite begins_app, finishes_app, !length_app. simpl in *. lia.
Qed.

Lemma open_inv st host port opened :
  forwards_inv st → pf_request st = RequestOpening host port → forwards_inv (forward_open tgt st opened).
Proof.
  intros [Hh Hreg H1 Hrq Hc Hn Hl] Hreq. unfold forward_open. unfold holders, in_progress in Hh.
  rewrite Hreq in *. assert (authorized_call tgt shell shlex (forward_operation host port)
    (BackendRemoteForward tgt host port)) as Hcall by done.
  destruct opened as [p|e].
  2:{ split; simpl; try done; [|by eapply called_log; [..|set_solver]].
      rewrite begins_app, finishes_app, !length_app. simpl in *. lia. }
  split; simpl; [| | | |done| |by eapply called_log; [..|set_solver]].
  - unfold holders, in_progress. simpl. rewrite opens_app by done. rewrite omap_app, app_nil_r.
    simpl in Hh. rewrite <-Hh. solve_Permutation.
  - intros b n (f & Hf & ?)%Hreg. exists f. split; [by apply lookup_app_l_Some|done].
  - intros n f [Hf|[_ Hf]]%lookup_app_Some; [by eapply H1|].
    apply list_lookup_singleton_Some in Hf as [_ <-]. done.
  - eexists. split; [by apply list_lookup_middle|done].
  - rewrite pending_app, begins_app, finishes_app, !length_app. simpl in *. lia.
Qed.

Lemma add_inv st n : forwards_inv st → pf_request st = RequestAdding n → forwards_inv (forward_add st).
Proof.
  intros [Hh Hreg H1 Hrq Hc Hn Hl] Hreq. unfold forward_add. unfold holders, in_progress in Hh. rewrite Hreq in *.
  destruct Hrq as (f & Hf & Hph). rewrite Hf.
  destruct (AddRemoteForward_ _ _ _) as [client ok] eqn:Hadd.
  destruct (AddRemoteForward_spec _ _ _ _ _ Hadd Hc) as [[-> ->]|(-> & Ecl & Hcl & Hsome & Hrg & Hlk)].
  { split; simpl; try done. eauto. }
  split; simpl; [| | |done| | |done].
  - unfold holders, in_progress. simpl. rewrite opens_alter, removed_alter_same, Hrg by
      (intros g; intros; simplify_eq; unfold removed_by; by rewrite ?Hph). rewrite <-Hh. simpl. solve_Permutation.
  - intros b m. rewrite Hlk. case_bool_decide as Hb.
    + intros [= <-]. exists (set_servePhase Serving f). rewrite list_lookup_alter_eq, Hf. split_and!; [done|by rewrite Hb|by left].
    + apply (registered_alter (cs_lookup (pf_client st))); [done|]. intros g Hg. split; [done|]. by left.
  - apply once_alter; [done|]. intros g Hg. simplify_eq. unfold finished_once. by rewrite Hph.
  - by rewrite Ecl, Hcl.
  - match goal with |- context [pending (alter ?g n ?fs)] => pose proof (pending_alter g fs n f Hf) as Hp end.
    unfold served in Hp. rewrite Hph in Hp. simpl in *. lia.
Qed.

Lemma cancel_remove_inv st payload :
  forwards_inv st → pf_request st = RequestIdle → forwards_inv (cancel_remove st payload).
Proof.
  intros [Hh Hreg H1 Hrq Hc Hn Hl] Hidle. unfold cancel_remove.
  destruct (Unmarshal_globalForward payload) as [d|]; [|done].
  destruct (RemoveRemoteForward_ _ _) as [client n] eqn:Hrem. pose proof (registered_remove _ _ _ _ Hrem) as Hrg.
  apply RemoveRemoteForward_spec in Hrem as (-> & Hcl & Hs & Hlk).
  unfold holders, in_progress in Hh. rewrite Hidle in *.
  assert (if cs_closed client then cs_remoteForwards client = None else is_Some (cs_remoteForwards client)) as Hc'.
  { rewrite Hcl. destruct (cs_closed _); [|by apply Hs]. apply eq_None_not_Some. rewrite Hs, Hc. by intros []. }
  assert (∀ b n, cs_lookup client b = Some n → ∃ f, pf_forwards st !! n = Some f ∧ rf_bind f = b ∧
            (rf_phase f = Serving ∨ ∃ r, rf_phase f = Returning r)) as Hreg'.
  { intros b n. rewrite Hlk. case_bool_decide; [done|]. apply Hreg. }
  destruct (cs_lookup _ _) as [n|]; split; simpl; try done;
    unfold holders, in_progress; simpl; rewrite <-Hh, Hrg; simpl; solve_Permutation.
Qed.

(** What the serving goroutine removed under its address is its own to close. *)
Lemma serve_remove_inv st n f r :
  forwards_inv st → pf_forwards st !! n = Some f → rf_phase f = Returning r → forwards_inv (serve_remove st n).
Proof.
  intros [Hh Hreg H1 Hrq Hc Hn Hl] Hf Hph. unfold serve_remove. rewrite Hf, Hph.
  destruct (RemoveRemoteForward_ _ _) as [client cur] eqn:Hrem. pose proof (registered_remove _ _ _ _ Hrem) as Hrg.
  apply RemoveRemoteForward_spec in Hrem as (Hcur & Hcl & Hs & Hlk).
  assert (removed_by f = None) as Hnone by (unfold removed_by; by rewrite Hph).
  split; simpl; [| | | | | |done].
  - unfold holders, in_progress in *. simpl. rewrite opens_alter, <-Hh by done.
    pose proof (removed_alter (set_servePhase (Removed r cur)) _ _ _ Hf) as Hr. rewrite Hnone, app_nil_r in Hr.
    rewrite Hr, Hrg. unfold removed_by at 2. simpl. destruct cur; simpl; solve_Permutation.
  - apply registered_alter.
    + intros b m. rewrite Hlk. case_bool_decide; [done|]. apply Hreg.
    + intros g Hg. split; [done|]. simplify_eq. intros [b Hb]. exfalso.
      rewrite Hlk in Hb. case_bool_decide as Hne; [done|]. destruct (Hreg b n Hb) as (g' & Hg' & Hbind & _).
      simplify_eq.
  - apply once_alter; [done|]. intros g Hg. simplify_eq. unfold finished_once. by rewrite Hph.
  - assert (∀ m f', pf_forwards st !! m = Some f' → rf_phase f' = Unserved →
      ∃ f'', alter (set_servePhase (Removed r cur)) n (pf_forwards st) !! m = Some f'' ∧ rf_phase f'' = Unserved) as Hun.
    { intros m f' Hf' Hu. exists f'. rewrite list_lookup_alter_ne; [done|]. intros ->. congruence. }
    destruct (pf_request st); try done; destruct Hrq as (f' & Hf' & Hu); by eapply Hun.
  - rewrite Hcl. destruct (cs_closed _); [|by apply Hs]. apply eq_None_not_Some. rewrite Hs, Hc. by intros [].
  - rewrite pending_alter_same; [done|]. intros g Hg. simplify_eq. unfold served. by rewrite Hph.
Qed.

(** A goroutine that has left its locked region moves on. *)
Lemma removed_step_inv st n f r cur g log :
  forwards_inv st → pf_forwards st !! n = Some f → rf_phase f = Removed r cur → cur = None →
  (∀ f, rf_listener (g f) = rf_listener f ∧ rf_bind (g f) = rf_bind f ∧ removed_by (g f) = None) →
  (finished_once f → finished_once (g f)) →
  length (begins (pf_log st ++ log)) = length (finishes (pf_log st ++ log)) +
    pending (alter g n (pf_forwards st)) + opening (pf_request st) →
  (∀ x, x ∈ log → ∀ c, x ≠ PodBackend c) →
  forwards_inv (mkPodForwards (pf_client st) (alter g n (pf_forwards st)) (pf_log st ++ log) (pf_request st) (pf_closing st)).
Proof.
  intros [Hh Hreg H1 Hrq Hc Hn Hl] Hf Hph -> Hg Ho Hcount Hq. split; simpl; [| | | |done|done|by apply quiet_log].
  - unfold holders, in_progress in *. simpl. rewrite opens_alter by apply Hg. rewrite removed_alter_same; [done|].
    intros f' Hf'. simplify_eq. rewrite (proj2 (proj2 (Hg _))). unfold removed_by. by rewrite Hph.
  - apply registered_alter; [done|]. intros f' Hf'. split; [apply Hg|]. simplify_eq. intros [b Hb].
    destruct (Hreg b n Hb) as (f' & Hf' & _ & [?|[? ?]]); congruence.
  - apply once_alter; [done|]. intros f' Hf'. by simplify_eq.
  - assert (∀ m f', pf_forwards st !! m = Some f' → rf_phase f' = Unserved →
      ∃ f'', alter g n (pf_forwards st) !! m = Some f'' ∧ rf_phase f'' = Unserved) as Hun.
    { intros m f' Hf' Hu. exists f'. rewrite list_lookup_alter_ne; [done|]. intros ->. congruence. }
    destruct (pf_request st); try done; [set_solver|..]; destruct Hrq as (f' & Hf' & Hu); by eapply Hun.
Qed.

Lemma serve_close_inv st n f r m :
  forwards_inv st → pf_forwards st !! n = Some f → rf_phase f = Removed r (Some m) → forwards_inv (serve_close st n).
Proof.
  intros Hinv Hf Hph. unfold serve_close. rewrite Hf, Hph. pose proof Hinv as [Hh Hreg H1 Hrq Hc Hn Hl].
  assert (removed_by f = Some m) as Hrm by (unfold removed_by; by rewrite Hph).
  pose proof (removed_alter (set_servePhase (Removed r None)) _ _ _ Hf) as Hr. rewrite Hrm in Hr.
  unfold removed_by at 3 in Hr. simpl in Hr. rewrite app_nil_r in Hr.
  set (fs := alter (set_servePhase (Removed r None)) n (pf_forwards st)) in *.
  assert (alter (set_servePhase (Removed r None)) n (close_forward (pf_forwards st) m) = close_forward fs m) as ->.
  { unfold fs, close_forward. apply list_eq. intros i. rewrite !list_lookup_alter.
    repeat case_decide; subst; rewrite ?list_lookup_alter; repeat case_decide; subst; try done;
      by destruct (pf_forwards st !! i). }
  assert (opens fs = opens (pf_forwards st)) as Hopens by (by apply opens_alter).
  split; simpl; [| | | |done| |done].
  - unfold holders, in_progress in *. simpl. unfold close_forward at 1. rewrite removed_alter_same by done.
    rewrite <-Hopens, <-Hr in Hh.
    assert (m ∈ opens fs) as Hin by (rewrite <-Hh; set_solver).
    rewrite (opens_stop fs m ListenerClosed Hin ltac:(done)) in Hh.
    apply (Permutation_cons_inv (a := m)). rewrite <-Hh. solve_Permutation.
  - unfold close_forward, fs. intros b k Hb. pose proof (Hreg b k Hb) as (f' & Hf' & Hfb & Hp).
    assert (k ≠ n) as Hkn by (intros ->; simplify_eq; destruct Hp as [?|[? ?]]; congruence).
    rewrite list_lookup_alter. case_decide as Hk; [subst k|];
      rewrite list_lookup_alter_ne, Hf' by done; simpl; eexists; (split_and!; [done..|exact Hp]).
  - unfold close_forward, fs. apply once_alter; [apply once_alter; [done|]|by intros ? _].
    intros f' Hf'. simplify_eq. unfold finished_once. by rewrite Hph.
  - assert (∀ k f', pf_forwards st !! k = Some f' → rf_phase f' = Unserved →
      ∃ f'', close_forward fs m !! k = Some f'' ∧ rf_phase f'' = Unserved) as Hun.
    { intros k f' Hf' Hu. unfold close_forward, fs. rewrite list_lookup_alter.
      assert (k ≠ n) by (intros ->; congruence).
      case_decide; [subst k|]; rewrite list_lookup_alter_ne, Hf' by done; simpl; eauto. }
    destruct (pf_request st); try done; destruct Hrq as (f' & Hf' & Hu); by eapply Hun.
  - unfold close_forward, fs. rewrite !pending_alter_same; [done| |done].
    intros f' Hf'. simplify_eq. unfold served. by rewrite Hph.
Qed.

Lemma forward_accept_failed_inv st n err ctxDone : forwards_inv st → forwards_inv (accept_failed st n err ctxDone).
Proof.
  intros [Hh Hreg H1 Hrq Hc Hn Hl]. unfold accept_failed, pf_update.
  set (g := fun f => match rf_phase f with Serving => _ | _ => f end).
  assert (∀ f, rf_phase (g f) = rf_phase f ∨ (rf_phase f = Serving ∧ ∃ r, rf_phase (g f) = Returning r)) as Hg.
  { intros f. unfold g. destruct (rf_phase f) eqn:Hp; rewrite ?Hp; eauto. }
  assert (∀ f, rf_listener (g f) = rf_listener f ∧ rf_bind (g f) = rf_bind f ∧ rf_finished (g f) = rf_finished f)
    as Hsame by (intros f; unfold g; by destruct (rf_phase f)).
  split; simpl; [| | | |done| |done].
  - unfold holders, in_progress in *. simpl. rewrite opens_alter by apply Hsame. rewrite removed_alter_same; [done|].
    intros f _. unfold removed_by. destruct (Hg f) as [->|[-> [r ->]]]; done.
  - apply registered_alter; [done|]. intros f Hf. split; [apply Hsame|]. intros [b Hb].
    destruct (Hreg b n Hb) as (f' & Hf' & _ & Hp). simplify_eq. destruct (Hg f) as [->|[_ Hr]]; [done|by right].
  - apply once_alter; [done|]. intros f _. unfold finished_once. destruct (Hsame f) as (_ & _ & ->).
    destruct (Hg f) as [->|[-> [r ->]]]; done.
  - assert (∀ m f', pf_forwards st !! m = Some f' → rf_phase f' = Unserved →
      ∃ f'', alter g n (pf_forwards st) !! m = Some f'' ∧ rf_phase f'' = Unserved) as Hun.
    { intros m f' Hf' Hu. rewrite list_lookup_alter. case_decide; [subst; rewrite Hf'; simpl|eauto].
      eexists. split; [done|]. unfold g. by rewrite Hu. }
    destruct (pf_request st); try done; destruct Hrq as (f' & Hf' & Hu); by eapply Hun.
  - rewrite pending_alter_same; [done|]. intros f _. unfold served. destruct (Hg f) as [->|[-> [r ->]]]; done.
Qed.

Lemma Close_inv st : forwards_inv st → forwards_inv (forwards_Close st).
Proof.
  intros [Hh Hreg H1 Hrq Hc Hn Hl]. unfold forwards_Close, clientState_Close.
  destruct (cs_closed (pf_client st)) eqn:Hcl.
  - rewrite app_nil_r. split; simpl; by rewrite ?Hcl.
  - split; simpl; try done. rewrite <-Hh. unfold holders, in_progress. simpl. unfold registry_holds. simpl. solve_Permutation.
Qed.

(** The holdings with the forward of the request, of a serving goroutine or of the closing loop first. *)
Lemma holders_request st n rest :
  request_holds (pf_request st) = n :: rest →
  holders st ≡ₚ n :: registry_holds (pf_client st) ++ rest ++ omap removed_by (pf_forwards st) ++ pf_closing st.
Proof. intros E. unfold holders, in_progress. rewrite E. simpl. solve_Permutation. Qed.

Lemma forwards_own_inv st st' : forwards_inv st → forwards_own st st' → forwards_inv st'.
Proof.
  intros Hinv Hs. pose proof Hinv as [Hh Hreg H1 Hrq Hc Hn Hl].
  destruct Hs as [st n Hp _|st n Hp|st n Hp|st n failed Hp|st n Hp|st n f r Hf Hph|st n f r m Hf Hph|st n f r Hf Hph|st n rest Hcl].
  - by eapply add_inv.
  - unfold forward_refuse_close. rewrite Hp in *.
    apply (stop_inv st n ListenerClosed (RequestRefusedClosed n) (pf_closing st)); [done|done| |done|by rewrite Hp].
    apply holders_request. by rewrite Hp.
  - unfold forward_refuse_finish. rewrite Hp in *. destruct Hrq as (f & Hf & Hph).
    set (r := result_of _). split; simpl; [| | |done|done| |apply quiet_log; [done|set_solver]].
    + unfold holders, in_progress in *. rewrite Hp in Hh. simpl in *.
      rewrite opens_alter, removed_alter_same by (intros g; intros; simplify_eq; unfold removed_by; by rewrite ?Hph).
      done.
    + apply registered_alter; [done|]. intros g Hg. split; [done|]. simplify_eq. intros [b Hb].
      destruct (Hreg b n Hb) as (g & Hg & _ & [?|[? ?]]); congruence.
    + apply once_alter; [done|]. intros g Hg. simplify_eq. unfold finished_once. rewrite Hph. simpl. by intros ->.
    + match goal with |- context [pending (alter ?g n ?fs)] => pose proof (pending_alter g fs n f Hf) as Hq end.
      unfold served in Hq. rewrite Hph in Hq. rewrite begins_app, finishes_app, !length_app. simpl in *. lia.
  - unfold cancel_call. rewrite Hp in *. destruct failed.
    + split; simpl; try done. unfold holders, in_progress in *. by rewrite Hp in Hh.
    + apply (stop_inv st n ListenerCancelled RequestIdle (pf_closing st)); [done|done| |done|by rewrite Hp].
      apply holders_request. by rewrite Hp.
  - unfold cancel_close. rewrite Hp in *.
    apply (stop_inv st n ListenerClosed RequestIdle (pf_closing st)); [done|done| |done|by rewrite Hp].
    apply holders_request. by rewrite Hp.
  - by eapply serve_remove_inv.
  - by eapply serve_close_inv.
  - unfold serve_finish. rewrite Hf, Hph.
    apply (removed_step_inv st n f r None (finish_forward r) [PodFinish r]); try done; [| |set_solver].
    + unfold finished_once. rewrite Hph. simpl. by intros ->.
    + pose proof (pending_alter (finish_forward r) _ _ _ Hf) as Hq. unfold served in Hq. rewrite Hph in Hq.
      rewrite begins_app, finishes_app, !length_app. simpl in *. lia.
  - unfold close_next. rewrite Hcl.
    apply (stop_inv st n ListenerClosed (pf_request st) rest); [done|done| |done|done].
    unfold holders, in_progress. rewrite Hcl. solve_Permutation.
Qed.

Lemma forwards_env_inv st st' : forwards_inv st → forwards_env tgt st st' → forwards_inv st'.
Proof.
  intros Hinv. destruct 1; [by apply begin_inv|by eapply open_inv|by apply cancel_remove_inv|
    by apply forward_accept_failed_inv|by apply Close_inv].
Qed.

(** ** What is in progress ends *)

Definition request_weight (p : requestPhase) : nat :=
  match p with
  | RequestAdding _ => 3
  | RequestRefused _ | RequestCancelling _ => 2
  | RequestRefusedClosed _ | RequestCancelFailed _ => 1
  | RequestIdle | RequestOpening _ _ => 0
  end.
Definition serve_weight (f : remoteForward) : nat :=
  match rf_phase f with
  | Returning _ => 3
  | Removed _ (Some _) => 2
  | Removed _ None => 1
  | Unserved | Serving | Served => 0
  end.
Definition progress_weight (st : podForwards) : nat :=
  request_weight (pf_request st) + sum_list_with serve_weight (pf_forwards st) + length (pf_closing st).

Lemma weight_stop l fs n : sum_list_with serve_weight (alter (set_listener l) n fs) = sum_list_with serve_weight fs.
Proof. by apply sum_list_with_alter. Qed.

Lemma weight_alter g fs n f :
  fs !! n = Some f →
  sum_list_with serve_weight (alter g n fs) + serve_weight f = sum_list_with serve_weight fs + serve_weight (g f).
Proof.
  intros Hf. rewrite <-(sum_list_with_insert serve_weight fs n f (g f) Hf). f_equal. f_equal.
  apply list_eq. intros i. rewrite list_lookup_alter, list_lookup_insert. case_decide as E.
  - subst i. rewrite Hf, decide_True by (split; [done|by apply lookup_lt_Some in Hf]). done.
  - rewrite decide_False by naive_solver. done.
Qed.

Lemma forwards_own_weight st st' :
  forwards_inv st → forwards_own st st' → progress_weight st' < progress_weight st.
Proof.
  intros [Hh Hreg H1 Hrq Hc Hn Hl] Hs. unfold progress_weight.
  destruct Hs as [st n Hp Hlt|st n Hp|st n Hp|st n failed Hp|st n Hp|st n f r Hf Hph|st n f r m Hf Hph|st n f r Hf Hph|st n rest Hcl].
  - unfold forward_add. rewrite Hp in *. destruct Hrq as (f & Hf & Hph). rewrite Hf.
    destruct (AddRemoteForward_ _ _ _) as [client [|]]; simpl; [|lia].
    pose proof (weight_alter (set_servePhase Serving) _ _ _ Hf) as Hw. unfold serve_weight in Hw at 2 4. simpl in Hw. lia.
  - unfold forward_refuse_close, close_forward. rewrite Hp. simpl. rewrite weight_stop. lia.
  - unfold forward_refuse_finish. rewrite Hp in *. destruct Hrq as (f & Hf & Hph). simpl.
    match goal with |- context [alter ?g n ?fs] => pose proof (weight_alter g fs n f Hf) as Hw end.
    unfold serve_weight in Hw at 2 4. simpl in Hw. lia.
  - unfold cancel_call. rewrite Hp. destruct failed; simpl; rewrite ?weight_stop; lia.
  - unfold cancel_close, close_forward. rewrite Hp. simpl. rewrite weight_stop. lia.
  - unfold serve_remove. rewrite Hf, Hph. destruct (RemoveRemoteForward_ _ _) as [client cur]. simpl.
    pose proof (weight_alter (set_servePhase (Removed r cur)) _ _ _ Hf) as Hw. unfold serve_weight in Hw at 2 4.
    rewrite Hph in Hw. simpl in Hw. destruct cur; lia.
  - unfold serve_close, close_forward. rewrite Hf, Hph. simpl.
    assert (∃ f', alter (set_listener ListenerClosed) m (pf_forwards st) !! n = Some f' ∧
              serve_weight f' = 2) as (f' & Hf' & Hw').
    { rewrite list_lookup_alter. case_decide; subst; rewrite Hf; simpl; eexists; (split; [reflexivity|]); unfold serve_weight; simpl; by rewrite Hph. }
    pose proof (weight_alter (set_servePhase (Removed r None)) _ _ _ Hf') as Hw. rewrite Hw', weight_stop in Hw.
    unfold serve_weight in Hw at 3. simpl in Hw. lia.
  - unfold serve_finish. rewrite Hf, Hph. simpl.
    pose proof (weight_alter (finish_forward r) _ _ _ Hf) as Hw. unfold serve_weight in Hw at 2 4.
    rewrite Hph in Hw. simpl in Hw. lia.
  - unfold close_next, close_forward. rewrite Hcl. simpl. rewrite weight_stop. lia.
Qed.

Lemma weight_bound fs : sum_list_with serve_weight fs ≤ 3 * length fs.
Proof.
  induction fs as [|f fs IH]; simpl; [done|]. assert (serve_weight f ≤ 3); [|lia].
  unfold serve_weight. repeat case_match; lia.
Qed.

(** Whoever holds a listener outside the registry has something left to do. *)
Lemma progress_enabled st n : forwards_inv st → n ∈ in_progress st → ∃ st', forwards_own st st'.
Proof.
  intros Hinv [Hr|[Hd|Hc]%elem_of_app]%elem_of_app.
  - pose proof (fi_request _ Hinv) as Hrq. destruct (pf_request st) as [| |m|m|m|m|m] eqn:Hp; simpl in Hr.
    3:{ destruct Hrq as (f & Hf & _). apply lookup_lt_Some in Hf. eexists. by eapply fo_add. }
    3:{ eexists. by eapply fo_refuse_close. }
    4:{ eexists. by eapply (fo_cancel_call st m true). }
    4:{ eexists. by eapply fo_cancel_close. }
    all: by apply elem_of_nil in Hr.
  - apply list_elem_of_omap in Hd as (f & Hf & Hrm). apply list_elem_of_lookup_1 in Hf as [i Hi].
    unfold removed_by in Hrm. destruct (rf_phase f) as [| | |r [m|]|] eqn:Hph; simplify_eq.
    eexists. by eapply fo_serve_close.
  - destruct (pf_closing st) as [|m rest] eqn:Hcl; [by apply elem_of_nil in Hc|]. eexists. by eapply fo_close_next.
Qed.
End Inv.

Lemma forwards_reachable_inv `{SSHWire} tgt shell shlex st :
  rtc (forwards_step tgt) newPodForwards st → forwards_inv tgt shell shlex st.
Proof.
  intros Hr. eapply (rtc_invariant (forwards_step tgt) (forwards_inv tgt shell shlex)); [| |exact Hr].
  - intros x y Hx [?|?]; [by eapply forwards_own_inv|by eapply forwards_env_inv].
  - split; simpl; try done. unfold calls_authorized. intros before c after Heq. by destruct before.
Qed.

(** C30: remote forwards of a Pod connection are never lost and end once.  The steps are the locked
    regions of the client state and the calls between them, in every order: requests, failing
    listeners, returning goroutines and the close of the connection.  In every reachable state the open
    listeners are exactly those that the registry, the request in progress, a returning goroutine or the
    loop of [Close] holds, each held by one of them, so that none is lost or closed twice; a registered
    forward is being served under its address.  What is in progress ends after a bounded number of
    steps, and when the connection is closed and nothing is in progress no listener is open.  An operation
    is finished exactly once, when its goroutine has ended; begun operations are finished or belong to a
    forward not yet ended or to one that is being opened; and the backend opens listeners only after an
    allowed operation for exactly that address. *)
Theorem pod_forwards_released `{SSHWire} tgt shell shlex st :
  rtc (forwards_step tgt) newPodForwards st →
  NoDup (holders st) ∧
  (∀ n, n ∈ holders st ↔ ∃ f, pf_forwards st !! n = Some f ∧ rf_listener f = ListenerOpen) ∧
  (∀ b n, cs_lookup (pf_client st) b = Some n →
     ∃ f, pf_forwards st !! n = Some f ∧ rf_bind f = b ∧ (rf_phase f = Serving ∨ ∃ r, rf_phase f = Returning r)) ∧
  (∀ k st', nsteps forwards_own k st st' → k ≤ 3 + 3 * length (pf_forwards st) + length (pf_closing st)) ∧
  (cs_closed (pf_client st) = true → nf forwards_own st →
     ∀ n f, pf_forwards st !! n = Some f → rf_listener f ≠ ListenerOpen) ∧
  (∀ n f, pf_forwards st !! n = Some f →
     match rf_phase f with Served => length (rf_finished f) = 1 | _ => rf_finished f = [] end) ∧
  length (begins (pf_log st)) =
    length (finishes (pf_log st)) + pending (pf_forwards st) + opening (pf_request st) ∧
  calls_authorized tgt shell shlex (pf_log st).
Proof.
  intros Hr. pose proof (forwards_reachable_inv tgt shell shlex st Hr) as Hinv.
  pose proof Hinv as [Hh Hreg H1 _ Hc Hn Hcalls].
  assert (∀ n, n ∈ holders st ↔ ∃ f, pf_forwards st !! n = Some f ∧ rf_listener f = ListenerOpen) as Hiff.
  { intros n. by rewrite Hh, elem_of_opens. }
  split_and!; [rewrite Hh; apply NoDup_opens|done|done| | |done|done|done].
  - intros k st' Hk. pose proof (nsteps_bounded forwards_own (forwards_inv tgt shell shlex) progress_weight
      (fun x y Hx Hs => forwards_own_inv _ _ _ x y Hx Hs)
      (fun x y Hx Hs => forwards_own_weight _ _ _ x y Hx Hs) k st st' Hinv Hk) as Hb.
    assert (progress_weight st ≤ 3 + 3 * length (pf_forwards st) + length (pf_closing st)); [|lia].
    unfold progress_weight. pose proof (weight_bound (pf_forwards st)).
    assert (request_weight (pf_request st) ≤ 3) by (clear; destruct (pf_request st); simpl; lia). lia.
  - intros Hcl Hnf n f Hf Ho. assert (n ∈ holders st) as Hin by (apply Hiff; eauto).
    rewrite Hcl in Hc. unfold holders, registry_holds in Hin. rewrite Hc in Hin.
    apply Hnf. by eapply progress_enabled.
Qed.

(** ** A cancelled forward and its successor *)

Definition demo_tgt := demo_target.
(** The steps of a request for the address of the demonstration, and of its cancellation. *)
Definition demo_forward (st : podForwards) : podForwards :=
  forward_add (@forward_open demo_tgt (@forward_begin demo_wire st "" None) (Ok 8080%Z)).
Definition demo_cancel (st : podForwards) : podForwards := cancel_call (@cancel_remove demo_wire st "") false.
Definition forward_once : podForwards := demo_forward newPodForwards.
Definition forward_twice : podForwards := demo_forward (demo_cancel forward_once).
Definition first_returns : podForwards :=
  serve_finish (serve_close (serve_remove (accept_failed forward_twice 0 (ESentinel context_Canceled) false) 0) 0) 0.

Lemma demo_forward_steps st :
  pf_request st = RequestIdle → rtc (@forwards_step demo_wire demo_tgt) st (demo_forward st).
Proof.
  intros Hp. eapply rtc_l; [right; by apply (fe_begin demo_tgt st "" None)|].
  eapply rtc_l; [right; by apply (fe_open demo_tgt _ "0.0.0.0" 8080 (Ok 8080%Z))|].
  apply rtc_once. left. eapply fo_add; [done|]. simpl. rewrite length_app. simpl. lia.
Qed.

Lemma demo_cancel_steps st n :
  pf_request st = RequestIdle → pf_request (@cancel_remove demo_wire st "") = RequestCancelling n →
  rtc (@forwards_step demo_wire demo_tgt) st (demo_cancel st).
Proof.
  intros Hp Hc. eapply rtc_l; [right; by apply (fe_cancel demo_tgt st "")|].
  apply rtc_once. left. by eapply fo_cancel_call.
Qed.

Lemma forward_twice_reachable : rtc (@forwards_step demo_wire demo_tgt) newPodForwards forward_twice.
Proof.
  etrans; [by apply demo_forward_steps|]. etrans; [by apply (demo_cancel_steps _ 0); vm_compute|].
  apply demo_forward_steps. by vm_compute.
Qed.

Lemma first_returns_reachable : rtc (@forwards_step demo_wire demo_tgt) newPodForwards first_returns.
Proof.
  etrans; [apply forward_twice_reachable|].
  eapply rtc_l; [right; apply (fe_accept_failed demo_tgt _ 0 (ESentinel context_Canceled) false)|].
  eapply rtc_l; [left; eapply (fo_serve_remove _ 0); [vm_compute; reflexivity|reflexivity]|].
  eapply rtc_l; [left; eapply (fo_serve_close _ 0); [vm_compute; reflexivity|reflexivity]|].
  apply rtc_once. left. eapply (fo_serve_finish _ 0); [vm_compute; reflexivity|reflexivity].
Qed.

Lemma pod_forwards_released_witness :
  holders forward_twice = [1] ∧
  ∃ f, pf_forwards forward_twice !! 1 = Some f ∧ rf_listener f = ListenerOpen.
Proof.
  split; [vm_compute; reflexivity|].
  destruct (@pod_forwards_released demo_wire demo_tgt "/bin/sh" (fun _ => []) forward_twice
    forward_twice_reachable) as (_ & Hheld & _).
  apply (proj1 (Hheld 1)). assert (holders forward_twice = [1]) as -> by (vm_compute; reflexivity). left.
Defined.

(** The goroutine of a cancelled forward can close its successor.  A client that cancels a
    forward and requests the same address again gets a second listener; when the first goroutine
    returns afterwards, it unregisters and closes whatever is registered under the address.  The
    second forward was accepted, was never cancelled, is still being served on an open connection,
    and its listener is closed. *)
Theorem cancelled_forward_closes_successor :
  rtc (@forwards_step demo_wire demo_tgt) newPodForwards first_returns ∧
  (∃ f, pf_forwards forward_twice !! 1 = Some f ∧ rf_listener f = ListenerOpen) ∧
  (∃ f, pf_forwards first_returns !! 1 = Some f ∧ rf_phase f = Serving ∧
        rf_listener f = ListenerClosed) ∧
  cs_closed (pf_client first_returns) = false ∧
  cs_lookup (pf_client first_returns) "0.0.0.0:8080" = None.
Proof.
  split_and!; [apply first_returns_reachable|eexists; split_and!; vm_compute; reflexivity..| |];
    vm_compute; reflexivity.
Qed.

(** A cancelled forward and the end of its goroutine and of the connection. *)
Definition cancelled_end : podForwards :=
  forwards_Close (serve_finish (serve_remove (accept_failed (demo_cancel forward_once) 0 (ESentinel context_Canceled) false) 0) 0).

(** The helper session of a cancelled forward is never closed.  [Cancel] stops the listener; the forward
    has then left the registry, so that neither its returning goroutine nor [Close] of the connection
    finds it, and nobody calls its [Close], which owns the helper session.  The session ends only with
    the context of the connection. *)
Theorem cancelled_session_not_closed :
  rtc (@forwards_step demo_wire demo_tgt) newPodForwards cancelled_end ∧
  cs_closed (pf_client cancelled_end) = true ∧ in_progress cancelled_end = [] ∧
  ∃ f, pf_forwards cancelled_end !! 0 = Some f ∧ rf_phase f = Served ∧ rf_listener f = ListenerCancelled.
Proof.
  split_and!; [|vm_compute; reflexivity..|eexists; split_and!; vm_compute; reflexivity].
  etrans; [by apply demo_forward_steps|]. etrans; [by apply (demo_cancel_steps _ 0); vm_compute|].
  eapply rtc_l; [right; apply (fe_accept_failed demo_tgt _ 0 (ESentinel context_Canceled) false)|].
  eapply rtc_l; [left; eapply (fo_serve_remove _ 0); [vm_compute; reflexivity|reflexivity]|].
  eapply rtc_l; [left; eapply (fo_serve_finish _ 0); [vm_compute; reflexivity|reflexivity]|].
  apply rtc_once. right. apply (fe_close demo_tgt).
Qed.
