(* ===== verification/Handshake.v ===== *)
(** Models of [src/pkg/gateway/authentication.go] (the callbacks of the SSH handshake),
    [acceptAuthenticated], [connectionEstablished] and [remoteHost] of [gateway.go],
    [connection_context.go], the rest of [connection_audit.go] and [selectConnectionProtocol] of
    [protocol.go].

    The handshake itself is [golang.org/x/crypto/ssh].  Its documented contract is the step relation
    [handshake_step]: after the [none] callback it only uses the callbacks handed out there and the
    same user name; [VerifiedPublicKeyCallback] runs after a valid signature, with permissions that
    the public key callback returned for that key; the handshake ends with the permissions of the
    password or of the verified callback. *)

From S2P Require Import Prelude GoStrings GoStrconv Wildcard Kube Target Authn AccessStore AccessResolver Options Authz SessionPolicy AuditLog Operation.

Definition CredentialPublicKey := "publickey".
Definition CredentialPassword := "password".
Definition ResultRejected := "rejected".
Definition errAuthenticationRejected : error := Errorf "permission denied" [].

Definition enabledAuthenticationMethods (methods : option (list string)) : result (list string) :=
  let methods := default ["publickey"; "password"] methods in
  if bool_decide (length methods = 0)
  then Err (Errorf "authentication methods must contain at least one of publickey or password" [])
  else
    _ ← foldM (fun (seen : gset string) method =>
           if negb (slices_Contains ["publickey"; "password"] method)
           then Err (Errorf "unsupported authentication method %q; use publickey or password" [method])
           else if bool_decide (method ∈ seen)
           then Err (Errorf "duplicate authentication method %q" [method])
           else Ok (seen ∪ {[method]})) ∅ methods;
    Ok methods.

Definition remoteHost (addr : string) : string :=
  match SplitHostPort addr with
  | Some (host, _) => host
  | None => addr
  end.

(** ** [connection_context.go] *)

Definition setMetadata (c : connectionState) (m : Connection) : connectionState :=
  mkConnectionState m (conn_authenticated c) (conn_established c) (conn_auditID c).
Definition publishAuthenticated (c : connectionState) (r : authenticatedConnection) : connectionState :=
  mkConnectionState (conn_metadata c) (Some r) (conn_established c) (conn_auditID c).
Definition markEstablished (c : connectionState) : connectionState :=
  mkConnectionState (conn_metadata c) (conn_authenticated c) true (conn_auditID c).
Definition conn_User (c : connectionState) : string := ac_SSHUsername (conn_metadata c).

(** ** State *)

Section Gateway.
Context `{SSHKeys}.

Record authenticationResult := mkAuthResult {
  ar_info : AuthenticateInfo;
  ar_fingerprint : string;
  ar_credential : string;
}.

Inductive handshakeEffect :=
| HandshakeAudit (e : Event)
| AuthAttempt (credential result : string)
| ConnectionOpened (method : string).

(** The gateway's collaborators: [None] and [false] are nil. *)
Record gateway := mkGateway {
  gw_opts : Options;
  gw_authn : SSHAuthenticator;
  gw_resolve : ResolveInput → result Target;
  gw_accessPolicy : option AccessGetter;
  gw_podBackend : bool;
  gw_sshProxy : bool;
}.

(** The connection during its handshake: the closure variables of [authenticationConfig], the
    policy wrapper, the callbacks handed out ([next], for [user]), and what was done. *)
Record handshake := mkHandshake {
  hk_ctx : connectionState;
  hk_conn : sessionPolicyConn;
  hk_fingerprint : string;
  hk_reported : bool;
  hk_user : option string;
  hk_nextPublicKey : bool;
  hk_nextPassword : bool;
  hk_issued : list (PublicKey * authenticationResult);
  hk_log : list handshakeEffect;
}.

Context (s : gateway) (enabled : list string) (error_string : error → string).
(** Identifiers of audit events and the clock. *)
Context (newID : nat → string) (clock : nat → Z).

Definition hk_event (h : handshake) (eventType : string) : Event :=
  connectionEvent (hk_ctx h) (newID (length (hk_log h))) (clock (length (hk_log h))) eventType.
Definition with_actor (e : Event) (actor : option Actor) (access : option AccessBinding)
    (tgt : option AuditTarget) (outcome : Outcome) : Event :=
  mkEvent (SchemaVersion e) (ev_ID e) (ev_Time e) (ev_Type e) (ev_Correlation e) (ev_Connection e)
    actor access tgt (ev_Operation e) (ev_Authorization e) (Some outcome) (ev_Fields e).

Definition emit (h : handshake) (e : list handshakeEffect) : handshake :=
  mkHandshake (hk_ctx h) (hk_conn h) (hk_fingerprint h) (hk_reported h) (hk_user h)
    (hk_nextPublicKey h) (hk_nextPassword h) (hk_issued h) (hk_log h ++ e).
Definition set_ctx (h : handshake) (c : connectionState) : handshake :=
  mkHandshake c (hk_conn h) (hk_fingerprint h) (hk_reported h) (hk_user h)
    (hk_nextPublicKey h) (hk_nextPassword h) (hk_issued h) (hk_log h).
Definition set_conn (h : handshake) (c : sessionPolicyConn) : handshake :=
  mkHandshake (hk_ctx h) c (hk_fingerprint h) (hk_reported h) (hk_user h)
    (hk_nextPublicKey h) (hk_nextPassword h) (hk_issued h) (hk_log h).
Definition set_reported (h : handshake) (fingerprint : string) (reported : bool) : handshake :=
  mkHandshake (hk_ctx h) (hk_conn h) fingerprint reported (hk_user h)
    (hk_nextPublicKey h) (hk_nextPassword h) (hk_issued h) (hk_log h).
Definition set_next (h : handshake) (user : string) (publicKey password : bool) : handshake :=
  mkHandshake (hk_ctx h) (hk_conn h) (hk_fingerprint h) (hk_reported h) (Some user)
    publicKey password (hk_issued h) (hk_log h).
Definition issue (h : handshake) (key : PublicKey) (r : authenticationResult) : handshake :=
  mkHandshake (hk_ctx h) (hk_conn h) (hk_fingerprint h) (hk_reported h) (hk_user h)
    (hk_nextPublicKey h) (hk_nextPassword h) (hk_issued h ++ [(key, r)]) (hk_log h).

(** [recordAuthentication]. *)
Definition recordAuthentication (h : handshake) (method fingerprint result : string)
    (info : option AuthenticateInfo) (err : option error) : handshake :=
  let e := hk_event h "authentication.result" in
  let outcome := mkOutcome result (match err with Some _ => "authentication rejected" | None => "" end)
                   "" None 0 in
  let actor := match info with
               | Some i => Some (auditActor i fingerprint)
               | None => match ev_Actor e with
                         | Some a => Some a
                         | None => Some (mkActor "" "" "" false [] method fingerprint)
                         end
               end in
  let access := match info with Some i => auditAccess i | None => ev_Access e end in
  emit h [HandshakeAudit (with_actor e actor access (ev_Target e) outcome)].

(** [selectConnectionProtocol]: which protocol serves the target. *)
Definition selectConnectionProtocol (tgt : Target) : result unit :=
  if bool_decide (Kind tgt = KindPod)
  then if gw_podBackend s then Ok tt else Err (Errorf "pod SSH backend is not configured" [])
  else if bool_decide (Kind tgt = KindExternalSSH)
  then if gw_sshProxy s then Ok tt else Err (Errorf "upstream SSH connector is not configured" [])
  else Err (Errorf "target kind %q has no SSH protocol implementation" [Kind tgt]).

(** The input of the resolver for an authenticated user. *)
Definition resolve_input (c : connectionState) (info : AuthenticateInfo) : ResolveInput :=
  mkResolveInput (conn_User c) (user_Name (info_User info)) (info_Extra info)
    (remoteHost (ac_RemoteAddress (conn_metadata c))) (info_TargetHints info).

Definition acceptAuthenticated (h : handshake) (info : AuthenticateInfo) (fingerprint credential : string)
    : handshake * bool :=
  let e := hk_event h "target_resolution.result" in
  match gw_resolve s (resolve_input (hk_ctx h) info) with
  | Err err =>
      (emit h [HandshakeAudit (with_actor e (Some (auditActor info fingerprint)) (auditAccess info)
                 (ev_Target e) (mkOutcome ResultRejected "" (error_string err) None 0));
               AuthAttempt credential "target_rejected"], false)
  | Ok tgt =>
      let h := emit h [HandshakeAudit (with_actor e (Some (auditActor info fingerprint)) (auditAccess info)
                         (Some (auditTarget tgt)) (mkOutcome ResultSuccess "" "" None 0))] in
      match resolveSessionPolicy (gw_opts s) (gw_accessPolicy s) (conn_User (hk_ctx h)) (info_Extra info) with
      | Err _ => (emit h [AuthAttempt credential "session_policy_rejected"], false)
      | Ok policy =>
          let h := set_conn h (ApplyPolicy (hk_conn h) policy (clock (length (hk_log h)))) in
          match selectConnectionProtocol tgt with
          | Err _ => (emit h [AuthAttempt credential "protocol_rejected"], false)
          | Ok _ => (set_ctx h (publishAuthenticated (hk_ctx h) (mkAuthenticated info tgt fingerprint)), true)
          end
      end
  end.

(** The closures [finish], [publicKey] and [password] and the callbacks built from them.  The
    second component is the permissions' result, or the error. *)
Definition auth_finish (h : handshake) (r : authenticationResult)
    : handshake * result authenticationResult :=
  let h := recordAuthentication h (ar_credential r) (ar_fingerprint r) ResultSuccess (Some (ar_info r)) None in
  let h := set_reported h (hk_fingerprint h) true in
  match acceptAuthenticated h (ar_info r) (ar_fingerprint r) (ar_credential r) with
  | (h, true) => (h, Ok r)
  | (h, false) => (h, Err errAuthenticationRejected)
  end.

Definition publicKeyCallback (h : handshake) (user : string) (key : PublicKey)
    : handshake * result authenticationResult :=
  let fingerprint := FingerprintSHA256 key in
  let h := set_reported h fingerprint false in
  match AuthenticatePublicKey (gw_authn s) user key with
  | Err e => (h, Err e)
  | Ok info =>
      let r := mkAuthResult info fingerprint CredentialPublicKey in
      (issue h key r, Ok r)
  end.

Definition auth_passwordCallback (h : handshake) (user value : string)
    : handshake * result authenticationResult :=
  let h := set_reported h (hk_fingerprint h) false in
  match AuthenticateBasic (gw_authn s) user value with
  | Err e => (h, Err e)
  | Ok info => auth_finish h (mkAuthResult info "" CredentialPassword)
  end.

(** [NoClientAuthCallback]: it never accepts; [Ok] is the partial success with the callbacks. *)
Definition noClientAuthCallback (h : handshake) (m : Connection) : handshake * result unit :=
  let h := set_ctx h (setMetadata (hk_ctx h) m) in
  let user := ac_SSHUsername m in
  let methods : result (list string) :=
    match gw_accessPolicy s with
    | None => Ok enabled
    | Some get =>
        match AuthenticationMethods get user with
        | Err _ => Err errAuthenticationRejected
        | Ok None => Ok enabled
        | Ok (Some accessMethods) => Ok accessMethods
        end
    end in
  match methods with
  | Err e => (h, Err e)
  | Ok methods =>
      let publicKey := slices_Contains enabled "publickey" && slices_Contains methods "publickey" in
      let password := slices_Contains enabled "password" && slices_Contains methods "password" in
      if negb publicKey && negb password then (h, Err errAuthenticationRejected)
      else (set_next h user publicKey password, Ok tt)
  end.

Definition authLogCallback (h : handshake) (method : string) (err : option error) : handshake :=
  let h' :=
    match err with
    | Some e =>
        if bool_decide (method = "none") || hk_reported h then h
        else
          let attemptFingerprint := if bool_decide (method = "publickey") then hk_fingerprint h else "" in
          emit (recordAuthentication h method attemptFingerprint ResultRejected None (Some e))
            [AuthAttempt method ResultRejected]
    | None => h
    end in
  set_reported h' (hk_fingerprint h') false.

(** [connectionEstablished]. *)
Definition connectionEstablished (h : handshake) (credential : string) : handshake :=
  let h := set_ctx h (markEstablished (hk_ctx h)) in
  match conn_authenticated (hk_ctx h) with
  | None => h
  | Some r =>
      let e := hk_event h "connection.ready" in
      emit h [HandshakeAudit (with_actor e (ev_Actor e) (ev_Access e) (ev_Target e)
                                (mkOutcome ResultSuccess "" "" None 0));
              AuthAttempt credential ResultSuccess; ConnectionOpened (info_Method (auth_info r))]
  end.

(** ** The handshake *)

(** The running handshake, or its end with the permissions' result. *)
Inductive progress :=
| Negotiating (h : handshake)
| Established (h : handshake) (r : authenticationResult).

Inductive handshake_step : progress → progress → Prop :=
| hs_none h m h' r :
    hk_user h = None → noClientAuthCallback h m = (h', r) →
    handshake_step (Negotiating h) (Negotiating h')
| hs_probe h user key h' r :
    hk_user h = Some user → hk_nextPublicKey h = true → publicKeyCallback h user key = (h', r) →
    handshake_step (Negotiating h) (Negotiating h')
| hs_verified h user key r h' :
    hk_user h = Some user → (key, r) ∈ hk_issued h → auth_finish h r = (h', Ok r) →
    handshake_step (Negotiating h) (Established h' r)
| hs_verified_rejected h user key r h' e :
    hk_user h = Some user → (key, r) ∈ hk_issued h → auth_finish h r = (h', Err e) →
    handshake_step (Negotiating h) (Negotiating h')
| hs_password h user value h' r :
    hk_user h = Some user → hk_nextPassword h = true → auth_passwordCallback h user value = (h', Ok r) →
    handshake_step (Negotiating h) (Established h' r)
| hs_password_rejected h user value h' e :
    hk_user h = Some user → hk_nextPassword h = true → auth_passwordCallback h user value = (h', Err e) →
    handshake_step (Negotiating h) (Negotiating h')
| hs_log h method err : handshake_step (Negotiating h) (Negotiating (authLogCallback h method err)).
End Gateway.
