(* ===== verification/HandshakeProps.v ===== *)
(** Properties of the SSH handshake of the gateway. *)

From S2P Require Import Prelude GoStrings GoStrconv Wildcard Kube Target Authn AccessStore AccessStoreProps AccessResolver Options Authz SessionPolicy AuditLog Operation Handshake.

Section Sound.
Context `{SSHKeys} (s : gateway) (enabled : list string) (error_string : error → string).
Context (newID : nat → string) (clock : nat → Z).

(** A method the gateway enables and, when the user names an Access, the Access has credentials
    for. *)
Definition offered (user method : string) : Prop :=
  method ∈ enabled ∧
  ∀ get ms, gw_accessPolicy s = Some get → AuthenticationMethods get user = Ok (Some ms) → method ∈ ms.

(** The proof of identity behind a result. *)
Definition proven (user : string) (r : authenticationResult) : Prop :=
  (ar_credential r = CredentialPassword ∧ ar_fingerprint r = "" ∧ offered user "password" ∧
   ∃ value, AuthenticateBasic (gw_authn s) user value = Ok (ar_info r)) ∨
  (ar_credential r = CredentialPublicKey ∧ offered user "publickey" ∧
   ∃ key, ar_fingerprint r = FingerprintSHA256 key ∧
          AuthenticatePublicKey (gw_authn s) user key = Ok (ar_info r)).

Record negotiating (h : handshake) : Prop := mkNegotiating {
  ng_unpublished : conn_authenticated (hk_ctx h) = None;
  ng_user : ∀ user, hk_user h = Some user → conn_User (hk_ctx h) = user;
  ng_publicKey : ∀ user, hk_user h = Some user → hk_nextPublicKey h = true → offered user "publickey";
  ng_password : ∀ user, hk_user h = Some user → hk_nextPassword h = true → offered user "password";
  ng_issued : ∀ key r, (key, r) ∈ hk_issued h → ∃ user, hk_user h = Some user ∧
    offered user "publickey" ∧ ar_credential r = CredentialPublicKey ∧
    ar_fingerprint r = FingerprintSHA256 key ∧
    AuthenticatePublicKey (gw_authn s) user key = Ok (ar_info r);
}.

(** What holds when the handshake has ended with [r]. *)
Definition established (h : handshake) (r : authenticationResult) : Prop :=
  ∃ user tgt p, conn_User (hk_ctx h) = user ∧ proven user r ∧
    conn_authenticated (hk_ctx h) = Some (mkAuthenticated (ar_info r) tgt (ar_fingerprint r)) ∧
    gw_resolve s (resolve_input (hk_ctx h) (ar_info r)) = Ok tgt ∧
    resolveSessionPolicy (gw_opts s) (gw_accessPolicy s) user (info_Extra (ar_info r)) = Ok p ∧
    selectConnectionProtocol s tgt = Ok tt ∧
    (closed (hk_conn h) = true ∨ policy (hk_conn h) = p).

(** The fields the invariant is about. *)
Definition same_core (h h' : handshake) : Prop :=
  hk_ctx h' = hk_ctx h ∧ hk_user h' = hk_user h ∧ hk_nextPublicKey h' = hk_nextPublicKey h ∧
  hk_nextPassword h' = hk_nextPassword h ∧ hk_issued h' = hk_issued h.

Lemma negotiating_core h h' : same_core h h' → negotiating h → negotiating h'.
Proof. intros (E1 & E2 & E3 & E4 & E5) [H1 H2 H3 H4 H5]. split; rewrite ?E1, ?E2, ?E3, ?E4, ?E5; done. Qed.

Lemma ApplyPolicy_policy c p now : closed (ApplyPolicy c p now) = true ∨ policy (ApplyPolicy c p now) = p.
Proof.
  unfold ApplyPolicy, ApplyPolicy_locked. destruct (closed c) eqn:Hc; [by left|].
  unfold close_if_expired, scheduleLocked. repeat case_match; simplify_eq/=; unfold conn_Close; repeat case_match; by right || by left.
Qed.

(** [finish] either publishes everything or nothing. *)
Lemma auth_finish_spec h r h' out :
  auth_finish s error_string newID clock h r = (h', out) →
  match out with
  | Ok r' => r' = r ∧ ∃ tgt p, gw_resolve s (resolve_input (hk_ctx h) (ar_info r)) = Ok tgt ∧
      resolveSessionPolicy (gw_opts s) (gw_accessPolicy s) (conn_User (hk_ctx h)) (info_Extra (ar_info r)) = Ok p ∧
      selectConnectionProtocol s tgt = Ok tt ∧
      hk_ctx h' = publishAuthenticated (hk_ctx h) (mkAuthenticated (ar_info r) tgt (ar_fingerprint r)) ∧
      (closed (hk_conn h') = true ∨ policy (hk_conn h') = p)
  | Err _ => same_core h h'
  end.
Proof.
  unfold auth_finish, acceptAuthenticated. simpl.
  destruct (gw_resolve s _) as [tgt|e] eqn:Hres; [|intros [= <- <-]; done].
  destruct (resolveSessionPolicy _ _ _ _) as [p|e] eqn:Hp; [|intros [= <- <-]; done].
  destruct (selectConnectionProtocol s tgt) as [[]|e] eqn:Hsel; intros [= <- <-]; [|done].
  split; [done|]. exists tgt, p. split_and!; try done. simpl. apply ApplyPolicy_policy.
Qed.

Lemma established_finish h r h' user :
  negotiating h → hk_user h = Some user → proven user r →
  auth_finish s error_string newID clock h r = (h', Ok r) → established h' r.
Proof.
  intros Hn Hu Hp (_ & tgt & p & Hres & Hpol & Hsel & Hctx & Happ)%auth_finish_spec.
  pose proof (ng_user h Hn user Hu) as Hus. exists user, tgt, p. unfold conn_User, resolve_input in *.
  rewrite Hctx. simpl. split_and!; try done. by rewrite <-Hus.
Qed.

Lemma noClientAuth_negotiating h m h' r :
  negotiating h → hk_user h = None → noClientAuthCallback s enabled h m = (h', r) → negotiating h'.
Proof.
  intros Hn Hu. pose proof Hn as [H1 _ _ _ H5]. unfold noClientAuthCallback.
  assert (∀ key r0, (key, r0) ∈ hk_issued h → False) as Hni.
  { intros key r0 Hin. destruct (H5 key r0 Hin) as (u & Hu' & _). congruence. }
  assert (negotiating (set_ctx h (setMetadata (hk_ctx h) m))) as Hset.
  { split; simpl; try done; try (intros u Hu'; congruence). }
  destruct (match gw_accessPolicy s with Some _ => _ | None => _ end) as [methods|e] eqn:Hm;
    [|intros [= <- <-]; done].
  destruct (negb _ && negb _) eqn:Hnone; intros [= <- <-]; [done|].
  assert (∀ method, slices_Contains enabled method && slices_Contains methods method = true →
            offered (ac_SSHUsername m) method) as Hoff.
  { intros method [He Hms]%andb_true_iff. apply slices_Contains_spec in He, Hms. split; [done|].
    intros get ms Hget Hmet. rewrite Hget, Hmet in Hm. by injection Hm as <-. }
  split; simpl; try done.
  - by intros u [= <-].
  - intros u [= <-] Hk. by apply Hoff.
  - intros u [= <-] Hk. by apply Hoff.
  - intros key r0 Hin. by destruct (Hni key r0).
Qed.

Lemma publicKey_negotiating h user key h' r :
  negotiating h → hk_user h = Some user → hk_nextPublicKey h = true →
  publicKeyCallback s h user key = (h', r) → negotiating h'.
Proof.
  intros Hn Hu Hk. unfold publicKeyCallback. pose proof Hn as [H1 H2 H3 H4 H5].
  destruct (AuthenticatePublicKey _ _ _) as [info|e] eqn:Ha; intros [= <- <-]; [|by apply (negotiating_core h)].
  split; simpl; try done. intros key0 r0 [Hin|Hin%list_elem_of_singleton]%elem_of_app; [by apply H5|].
  injection Hin as -> ->. exists user. split_and!; try done. by apply H3.
Qed.

Lemma authLog_core h method err : same_core h (authLogCallback newID clock h method err).
Proof. unfold authLogCallback. destruct err; [|done]. by destruct (_ || _). Qed.

Definition progress_ok (p : progress) : Prop :=
  match p with Negotiating h => negotiating h | Established h r => established h r end.

Lemma handshake_step_ok p p' :
  handshake_step s enabled error_string newID clock p p' → progress_ok p → progress_ok p'.
Proof.
  intros Hs Hok. destruct Hs as [h m h' r Hu Hc|h user key h' r Hu Hk Hc|h user key r h' Hu Hin Hc
    |h user key r h' e Hu Hin Hc|h user value h' r Hu Hk Hc|h user value h' e Hu Hk Hc|h method err]; simpl in *.
  - by eapply noClientAuth_negotiating.
  - by eapply publicKey_negotiating.
  - eapply established_finish; [done|done| |done]. right.
    destruct (ng_issued h Hok key r Hin) as (u & Hu' & Hoff & Hcr & Hfp & Ha).
    rewrite Hu in Hu'. injection Hu' as <-. eauto.
  - apply auth_finish_spec in Hc. by apply (negotiating_core h).
  - unfold auth_passwordCallback in Hc. destruct (AuthenticateBasic _ _ _) as [info|] eqn:Ha; [|done].
    pose proof (auth_finish_spec _ _ _ _ Hc) as [-> _].
    eapply (established_finish (set_reported h (hk_fingerprint h) false)); [|exact Hu| |exact Hc].
    + by apply (negotiating_core h).
    + left. simpl. split_and!; [done|done| |eauto]. by eapply ng_password.
  - unfold auth_passwordCallback in Hc. destruct (AuthenticateBasic _ _ _) as [info|] eqn:Ha.
    + apply auth_finish_spec in Hc. by apply (negotiating_core h).
    + injection Hc as <- _. by apply (negotiating_core h).
  - apply (negotiating_core h); [apply authLog_core|done].
Qed.

(** A connection before its handshake. *)
Definition fresh_handshake (h : handshake) : Prop :=
  conn_authenticated (hk_ctx h) = None ∧ hk_user h = None ∧ hk_issued h = [].

Lemma handshake_reachable_ok h p :
  fresh_handshake h → rtc (handshake_step s enabled error_string newID clock) (Negotiating h) p → progress_ok p.
Proof.
  intros (H1 & H2 & H3). apply (rtc_ind_r (R := handshake_step s enabled error_string newID clock)
    progress_ok (Negotiating h)).
  - split; try done; try (intros u Hu; congruence). intros key r. rewrite H3. set_solver.
  - intros p1 p2 _ Hs Hok. by eapply handshake_step_ok.
Qed.

(** C4: a connection becomes authenticated only with proof, and completely or not at all.  In any
    sequence of handshake callbacks, identity is published exactly when the handshake ends with it:
    while it is negotiated (whatever keys are probed, whatever is rejected) nothing is published.
    When it ends, the user name is the one the methods were offered for; the identity is the
    authenticator's answer for that user and the presented password, or for a key whose
    possession was verified, under its own fingerprint; the method was enabled and offered;
    and target, session policy and protocol were resolved for exactly this identity, with the
    policy enforced on the connection. *)
Theorem handshake_sound h h' r :
  fresh_handshake h →
  (rtc (handshake_step s enabled error_string newID clock) (Negotiating h) (Negotiating h') →
     conn_authenticated (hk_ctx h') = None) ∧
  (rtc (handshake_step s enabled error_string newID clock) (Negotiating h) (Established h' r) →
     established h' r).
Proof.
  intros Hf. split; intros Hr; pose proof (handshake_reachable_ok h _ Hf Hr) as Hok; [|done].
  by apply ng_unpublished.
Qed.
End Sound.

(** ** A concrete handshake *)

Definition demo_gateway : @gateway toy_keys :=
  @mkGateway toy_keys NewDefaultOptions (@Anonymous toy_keys)
    (fun _ => Ok (New "ns" "pod" "c")) None true false.
Definition demo_meta : Connection := mkConnection "ns.pod" "10.0.0.9:40000" "" "" "".
Definition demo_start : @handshake toy_keys :=
  @mkHandshake toy_keys (mkConnectionState (mkConnection "" "10.0.0.9:40000" "" "" "") None false "c1")
    (newSessionPolicyConn (buildGlobalSessionPolicy NewDefaultOptions) 0) "" false None false false [] [].
Definition demo_none := (@noClientAuthCallback toy_keys demo_gateway ["publickey"; "password"] demo_start demo_meta).1.
Definition demo_password :=
  @auth_passwordCallback toy_keys demo_gateway (fun _ => "") (fun _ => "id") (fun _ => 0%Z)
    demo_none "ns.pod" "secret".
Definition demo_result : authenticationResult := mkAuthResult anonymousInfo "" CredentialPassword.

Lemma demo_handshake :
  rtc (@handshake_step toy_keys demo_gateway ["publickey"; "password"] (fun _ => "")
         (fun _ => "id") (fun _ => 0%Z)) (Negotiating demo_start) (Established demo_password.1 demo_result).
Proof.
  eapply rtc_l.
  - eapply (hs_none _ _ _ _ _ _ demo_meta demo_none (Ok tt)); vm_compute; reflexivity.
  - apply rtc_once. apply (hs_password _ _ _ _ _ _ "ns.pod" "secret" demo_password.1 demo_result);
      vm_compute; reflexivity.
Qed.

Lemma handshake_sound_witness :
  fresh_handshake demo_start ∧
  established demo_gateway ["publickey"; "password"] demo_password.1 demo_result.
Proof.
  assert (fresh_handshake demo_start) as Hf by (vm_compute; done). split; [exact Hf|].
  destruct (@handshake_sound toy_keys demo_gateway ["publickey"; "password"] (fun _ => "")
    (fun _ => "id") (fun _ => 0%Z) demo_start demo_password.1 demo_result Hf) as [_ Hest].
  exact (Hest demo_handshake).
Defined.
