(* ===== verification/Scp.v ===== *)
(** Model of [src/pkg/podssh/backend/helper/scp.go]: the SCP source and sink that the helper runs in
    the target container, with a model of the part of [os], [bufio] and [io] they use.

    A run is a function of the bytes the peer sends.  Its state holds the bytes still to be read,
    the bytes written, the state of the operating system and the calls made that change it.  The
    operating system is the class [OS]: each call may fail as it likes.  Writes may fail too, after
    any part of the data ([wfail] by the number of the write), and reading ends with any error:
    [io.EOF], or the error of the cancelled context that [contextReader] returns. *)

From S2P Require Import Prelude GoStrings GoStrconv GoPath.
Local Open Scope Z_scope.

(** ** The operating system *)

(** The part of [os.FileInfo] the code reads: [Mode().Perm()], [IsDir], [Mode().IsRegular()],
    [Size()] and [ModTime().Unix()]. *)
Record FileInfo := mkFileInfo {
  fi_perm : Z;
  fi_dir : bool;
  fi_regular : bool;
  fi_size : Z;
  fi_mtime : Z;
}.

Class OS := {
  osState : Type;
  os_Stat : osState → string → result FileInfo;
  os_ReadDir : osState → string → result (list (string * result FileInfo));
  (** [os.Open], then reading to the end and closing: the data, and the error of either. *)
  os_ReadFile : osState → string → result (string * option error);
  os_MkdirAll : osState → string → Z → osState * option error;
  (** [os.OpenFile] with [O_CREATE|O_WRONLY|O_TRUNC]. *)
  os_Create : osState → string → Z → osState * option error;
  (** Writing to the file just created, and closing it. *)
  os_Append : osState → string → string → osState * option error;
  os_CloseFile : osState → string → osState * option error;
  (** [os.Chtimes] with access and modification times in seconds. *)
  os_Chtimes : osState → string → Z → Z → osState * option error;
}.

Inductive osCall :=
| CallMkdirAll (path : string) (mode : Z)
| CallCreate (path : string) (mode : Z)
| CallAppend (path : string) (data : string)
| CallClose (path : string)
| CallChtimes (path : string) (atime mtime : Z).

Definition call_path (c : osCall) : string :=
  match c with
  | CallMkdirAll p _ | CallCreate p _ | CallAppend p _ | CallClose p | CallChtimes p _ _ => p
  end.

(** ** Options and headers *)

Record scpOptions := mkScpOptions {
  scp_source : bool;
  scp_sink : bool;
  scp_recursive : bool;
  scp_preserve : bool;
  scp_target : string;
}.

(** One flag of an argument; non-ASCII flags are refused at their first byte. *)
Definition scp_flag (o : scpOptions) (c : ascii) : result scpOptions :=
  let '(mkScpOptions source sink recursive preserve target) := o in
  match c with
  | "t" => Ok (mkScpOptions source true recursive preserve target)
  | "f" => Ok (mkScpOptions true sink recursive preserve target)
  | "r" => Ok (mkScpOptions source sink true preserve target)
  | "p" => Ok (mkScpOptions source sink recursive true target)
  | "d" | "v" => Ok o
  | _ => Err (Errorf "unsupported scp flag -%c" [String c ""])
  end%char.

Fixpoint scp_flags (o : scpOptions) (flags : string) : result scpOptions :=
  match flags with
  | EmptyString => Ok o
  | String c rest => o ← scp_flag o c; scp_flags o rest
  end.

Definition scp_arg (o : scpOptions) (arg : string) : result scpOptions :=
  if HasPrefix arg "-" && bool_decide (arg ≠ "-") then scp_flags o (sdrop 1 arg)
  else Ok (mkScpOptions (scp_source o) (scp_sink o) (scp_recursive o) (scp_preserve o) arg).

Definition parseSCPOptions (args : list string) : result scpOptions :=
  opts ← foldM scp_arg (mkScpOptions false false false false "") args;
  if bool_decide (scp_target opts = "") then Err (Errorf "scp target is required" [])
  else if bool_decide (scp_sink opts = scp_source opts)
  then Err (Errorf "scp requires exactly one of -t or -f" [])
  else Ok opts.

(** An error of [strconv]. *)
Definition strconvError (what : string) : error := EExternal what.

Definition parseSCPFile (line : string) : result (Z * Z * string) :=
  match SplitN line " " 3 with
  | [p0; p1; p2] =>
      if bool_decide (slen p0 < 5)%nat then Err (Errorf "invalid scp file header %q" [line])
      else
        match ParseUint (sdrop 1 p0) 8 32 with
        | None => Err (strconvError p0)
        | Some mode =>
            match ParseInt p1 10 64 with
            | None => Err (strconvError p1)
            | Some size =>
                if bool_decide (size < 0) then Err (Errorf "invalid scp file size %d" [FormatInt size])
                else Ok (mode, size, p2)
            end
        end
  | _ => Err (Errorf "invalid scp file header %q" [line])
  end.

Definition parseSCPEntry (line : string) : result (Z * string) :=
  match SplitN line " " 3 with
  | [p0; p1; p2] =>
      if bool_decide (slen p0 < 5)%nat then Err (Errorf "invalid scp directory header %q" [line])
      else
        match ParseUint (sdrop 1 p0) 8 32 with
        | None => Err (strconvError p0)
        | Some mode => Ok (mode, p2)
        end
  | _ => Err (Errorf "invalid scp directory header %q" [line])
  end.

Record scpTimes := mkScpTimes { st_mtime : Z; st_atime : Z }.

Definition parseSCPTimes (line : string) : result scpTimes :=
  match Fields line with
  | [f0; _; f2; _; _] =>
      match ParseInt (sdrop 1 f0) 10 64 with
      | None => Err (strconvError f0)
      | Some mtime =>
          match ParseInt f2 10 64 with
          | None => Err (strconvError f2)
          | Some atime => Ok (mkScpTimes mtime atime)
          end
      end
  | _ => Err (Errorf "invalid scp time header %q" [line])
  end.

Definition cleanSCPName (name : string) : result string :=
  if bool_decide (name = "") || bool_decide (name = ".") || bool_decide (name = "..") ||
     ContainsByte name "/"
  then Err (Errorf "invalid scp filename %q" [name])
  else Ok name.

(** [%04o]. *)
Definition format_04o (n : Z) : string :=
  let s := FormatUint n 8 in
  foldr (fun _ t => String "0" t) s (replicate (4 - slen s) tt).

(** ** Runs *)

Section SCP.
Context `{OS}.
(** How errors render, when writes fail, and how reading ends. *)
Context (error_string : error → string).
Context (wfail : nat → option (nat * error)).
Context (in_end : error).

Record scpState := mkScpState {
  s_in : string;
  s_out : string;
  s_writes : nat;
  s_os : osState;
  s_log : list osCall;
}.

(** Computations that read, write and call the operating system, and may return an error. *)
Definition scp (A : Type) : Type := scpState → result A * scpState.

Definition scp_ret {A} (a : A) : scp A := fun st => (Ok a, st).
Definition scp_fail {A} (e : error) : scp A := fun st => (Err e, st).
Definition scp_bind {A B} (m : scp A) (f : A → scp B) : scp B := fun st =>
  match m st with
  | (Ok a, st) => f a st
  | (Err e, st) => (Err e, st)
  end.
(** The error, if any, as a value: for the errors the code handles itself. *)
Definition scp_try {A} (m : scp A) : scp (result A) := fun st => let '(r, st) := m st in (Ok r, st).

Local Notation "x ←' m ; k" := (scp_bind m (fun x => k)) (at level 20, m at level 100, k at level 200).
Local Notation "m ;; k" := (scp_bind m (fun _ => k)) (at level 100, k at level 200, right associativity).

(** [out.Write] through [contextWriter]. *)
Definition out_Write (data : string) : scp unit := fun st =>
  let n := s_writes st in
  match wfail n with
  | None => (Ok (), mkScpState (s_in st) (s_out st +:+ data) (S n) (s_os st) (s_log st))
  | Some (k, e) => (Err e, mkScpState (s_in st) (s_out st +:+ stake k data) (S n) (s_os st) (s_log st))
  end.

(** [reader.ReadByte]. *)
Definition ReadByte : scp ascii := fun st =>
  match s_in st with
  | EmptyString => (Err in_end, st)
  | String c rest => (Ok c, mkScpState rest (s_out st) (s_writes st) (s_os st) (s_log st))
  end.

(** [reader.ReadString('\n')]: the line with its delimiter, or an error after all that was left. *)
Definition newline : ascii := "010".
Definition ReadString : scp string := fun st =>
  match Cut (s_in st) newline with
  | Some (line, rest) =>
      (Ok (line +:+ String newline ""), mkScpState rest (s_out st) (s_writes st) (s_os st) (s_log st))
  | None => (Err in_end, mkScpState "" (s_out st) (s_writes st) (s_os st) (s_log st))
  end.

(** A call that changes the operating system's state. *)
Definition os_do (c : osCall) (f : osState → osState * option error) : scp unit := fun st =>
  let '(s', e) := f (s_os st) in
  (match e with Some e => Err e | None => Ok () end,
   mkScpState (s_in st) (s_out st) (s_writes st) s' (s_log st ++ [c])).

(** A call that only reads it. *)
Definition os_ask {A} (f : osState → result A) : scp A := fun st => (f (s_os st), st).

Definition zero_byte : string := String "000" "".

Definition writeSCPAck (err : option error) : scp unit :=
  match err with
  | Some e => out_Write (String "001" (error_string e +:+ String newline ""))
  | None => out_Write zero_byte
  end.

(** [_ = writeSCPAck(out, err); return err]. *)
Definition fail_ack {A} (e : error) : scp A := _ ←' scp_try (writeSCPAck (Some e)); scp_fail e.

Definition or_ack {A} (r : result A) : scp A :=
  match r with Ok a => scp_ret a | Err e => fail_ack e end.

Definition readSCPResponse : scp unit :=
  status ←' ReadByte;
  let n := Stdlib.Strings.Ascii.N_of_ascii status in
  if bool_decide (n = 0%N) then scp_ret ()
  else if bool_decide (n = 1%N ∨ n = 2%N) then
    fun st =>
      let message := match Cut (s_in st) newline with Some (l, _) => l | None => s_in st end in
      let '(_, st) := ReadString st in
      (Err (Errorf "scp remote error: %s" [TrimSpace message]), st)
  else scp_fail (Errorf "unexpected scp response %d" [FormatUint (Z.of_N n) 10]).

(** ** Sink *)

(** [io.CopyN(file, reader, size)]: reads [size] bytes or what is left, and writes them. *)
Definition CopyN (dest : string) (size : Z) : scp unit := fun st =>
  let complete := bool_decide (size ≤ Z.of_nat (slen (s_in st))) in
  let data := if complete then stake (Z.to_nat size) (s_in st) else s_in st in
  let rest := if complete then sdrop (Z.to_nat size) (s_in st) else "" in
  let st := mkScpState rest (s_out st) (s_writes st) (s_os st) (s_log st) in
  let '(r, st) := if bool_decide (data = "") then (Ok (), st)
                  else os_do (CallAppend dest data) (fun s => os_Append s dest data) st in
  match r with
  | Err e => (Err e, st)
  | Ok _ => (if complete then Ok () else Err in_end, st)
  end.

Definition Chtimes (path : string) (t : scpTimes) : scp unit :=
  os_do (CallChtimes path (st_atime t) (st_mtime t)) (fun s => os_Chtimes s path (st_atime t) (st_mtime t)).

(** [if times != nil { _ = os.Chtimes(...) }]. *)
Definition apply_times (path : string) (times : option scpTimes) : scp unit :=
  match times with
  | Some t => _ ←' scp_try (Chtimes path t); scp_ret ()
  | None => scp_ret ()
  end.

Definition receiveSCPFile (dest : string) (mode size : Z) (times : option scpTimes) : scp unit :=
  writeSCPAck None ;;
  opened ←' scp_try (os_do (CallCreate dest mode) (fun s => os_Create s dest mode));
  match opened with
  | Err e => fail_ack e
  | Ok _ =>
      copied ←' scp_try (CopyN dest size);
      closed ←' scp_try (os_do (CallClose dest) (fun s => os_CloseFile s dest));
      match copied, closed with
      | Err e, _ => fail_ack e
      | Ok _, Err e => fail_ack e
      | Ok _, Ok _ =>
          status ←' ReadByte;
          if bool_decide (status = "000"%char) then
            apply_times dest times ;; writeSCPAck None
          else
            scp_fail (Errorf "invalid scp file terminator %d"
                        [FormatUint (Z.of_N (Stdlib.Strings.Ascii.N_of_ascii status)) 10])
      end
  end.

(** The variables of the loop: the directory stack, innermost first, and the pending times. *)
Record sinkVars := mkSinkVars { sv_dirs : list string; sv_times : option scpTimes }.

(** [if targetIsDir || len(dirs) > 1 { filepath.Join(dirs[len(dirs)-1], name) }]. *)
Definition sink_path (targetIsDir : bool) (dirs : list string) (name : string) : string :=
  let parent := match dirs with d :: _ => d | [] => "" end in
  if targetIsDir || bool_decide (1 < length dirs)%nat then path_Join [parent; name] else parent.

(** One command line of the peer. *)
Definition sink_command (targetIsDir : bool) (v : sinkVars) (line : string) : scp sinkVars :=
  match line with
  | EmptyString => scp_ret v
  | String c _ =>
      if bool_decide (c = "T"%char) then
        times ←' or_ack (parseSCPTimes line);
        writeSCPAck None ;; scp_ret (mkSinkVars (sv_dirs v) (Some times))
      else if bool_decide (c = "D"%char) then
        entry ←' or_ack (parseSCPEntry line);
        name ←' or_ack (cleanSCPName entry.2);
        let dir := sink_path targetIsDir (sv_dirs v) name in
        made ←' scp_try (os_do (CallMkdirAll dir entry.1) (fun s => os_MkdirAll s dir entry.1));
        or_ack made ;;
        apply_times dir (sv_times v) ;;
        writeSCPAck None ;; scp_ret (mkSinkVars (dir :: sv_dirs v) None)
      else if bool_decide (c = "E"%char) then
        let dirs := if bool_decide (1 < length (sv_dirs v))%nat then tail (sv_dirs v) else sv_dirs v in
        writeSCPAck None ;; scp_ret (mkSinkVars dirs (sv_times v))
      else if bool_decide (c = "C"%char) then
        file ←' or_ack (parseSCPFile line);
        name ←' or_ack (cleanSCPName file.2);
        receiveSCPFile (sink_path targetIsDir (sv_dirs v) name) file.1.1 file.1.2 (sv_times v) ;;
        scp_ret (mkSinkVars (sv_dirs v) None)
      else fail_ack (Errorf "unsupported scp command %q" [line])
  end.

(** The loop, for at most [fuel] lines; [None] is running out of fuel. *)
Fixpoint sink_loop (fuel : nat) (targetIsDir : bool) (v : sinkVars) (st : scpState)
    : option (result unit * scpState) :=
  match fuel with
  | O => None
  | S fuel =>
      match ReadString st with
      | (Err e, st) => Some (if bool_decide (e = ESentinel io_EOF) then Ok () else Err e, st)
      | (Ok line, st) =>
          match sink_command targetIsDir v (TrimSuffix line (String newline "")) st with
          | (Err e, st) => Some (Err e, st)
          | (Ok v, st) => sink_loop fuel targetIsDir v st
          end
      end
  end.

Definition isDir (s : osState) (path : string) : bool :=
  match os_Stat s path with Ok info => fi_dir info | Err _ => false end.

Definition runSCPSink (fuel : nat) (opts : scpOptions) (st : scpState)
    : option (result unit * scpState) :=
  match writeSCPAck None st with
  | (Err e, st) => Some (Err e, st)
  | (Ok _, st) =>
      let root := scp_target opts in
      sink_loop fuel (isDir (s_os st) root) (mkSinkVars [root] None) st
  end.

(** ** Source *)

Definition sendSCPTimes (info : FileInfo) : scp unit :=
  let mtime := FormatInt (fi_mtime info) in
  out_Write ("T" +:+ mtime +:+ " 0 " +:+ mtime +:+ " 0" +:+ String newline "") ;;
  readSCPResponse.

Definition send_times_if (preserve : bool) (info : FileInfo) : scp unit :=
  if preserve then sendSCPTimes info else scp_ret ().

(** [io.Copy(out, file)]: an empty file is not written at all. *)
Definition Copy (data : string) : scp unit :=
  if bool_decide (data = "") then scp_ret () else out_Write data.

Definition sendSCPFile (path : string) (info : FileInfo) (preserve : bool) : scp unit :=
  send_times_if preserve info ;;
  out_Write ("C" +:+ format_04o (fi_perm info) +:+ " " +:+ FormatInt (fi_size info) +:+ " " +:+
             path_Base path +:+ String newline "") ;;
  readSCPResponse ;;
  data ←' scp_try (os_ask (fun s => os_ReadFile s path));
  data ←' or_ack data;
  Copy data.1 ;;
  match data.2 with Some e => scp_fail e | None => scp_ret () end ;;
  out_Write zero_byte ;;
  readSCPResponse.

(** The loop over the entries of [path], with the function that sends a directory. *)
Fixpoint send_entries (sendDir : string → FileInfo → scp (option unit)) (path : string)
    (preserve : bool) (entries : list (string * result FileInfo)) : scp (option unit) :=
  match entries with
  | [] => scp_ret (Some ())
  | (name, childInfo) :: entries =>
      let child := path_Join [path; name] in
      childInfo ←' or_ack childInfo;
      if fi_dir childInfo then
        r ←' sendDir child childInfo;
        match r with None => scp_ret None | Some _ => send_entries sendDir path preserve entries end
      else if fi_regular childInfo then
        sendSCPFile child childInfo preserve ;; send_entries sendDir path preserve entries
      else send_entries sendDir path preserve entries
  end.

(** [fuel] bounds the depth of the directory tree; [None] is running out of it. *)
Fixpoint sendSCPDir (fuel : nat) (path : string) (info : FileInfo) (preserve : bool)
    : scp (option unit) :=
  match fuel with
  | O => scp_ret None
  | S fuel =>
      send_times_if preserve info ;;
      out_Write ("D" +:+ format_04o (fi_perm info) +:+ " 0 " +:+ path_Base path +:+ String newline "") ;;
      readSCPResponse ;;
      entries ←' scp_try (os_ask (fun s => os_ReadDir s path));
      entries ←' or_ack entries;
      sent ←' send_entries (fun child childInfo => sendSCPDir fuel child childInfo preserve) path preserve entries;
      match sent with
      | None => scp_ret None
      | Some _ =>
          out_Write (String "E" (String newline "")) ;; readSCPResponse ;; scp_ret (Some ())
      end
  end.

Definition runSCPSource (fuel : nat) (opts : scpOptions) : scp (option unit) :=
  readSCPResponse ;;
  info ←' scp_try (os_ask (fun s => os_Stat s (scp_target opts)));
  info ←' or_ack info;
  if fi_dir info then
    if negb (scp_recursive opts) then fail_ack (Errorf "%s: not a regular file" [scp_target opts])
    else sendSCPDir fuel (scp_target opts) info (scp_preserve opts)
  else sendSCPFile (scp_target opts) info (scp_preserve opts) ;; scp_ret (Some ()).

(** [RunSCP]: the sink needs one unit of fuel per byte of input and one more, the source one per
    level of the tree. *)
Definition RunSCP (fuel : nat) (args : list string) (st : scpState) : option (result unit * scpState) :=
  match parseSCPOptions args with
  | Err e => Some (Err e, st)
  | Ok opts =>
      if scp_sink opts then runSCPSink fuel opts st
      else match runSCPSource fuel opts st with
           | (Err e, st) => Some (Err e, st)
           | (Ok (Some _), st) => Some (Ok (), st)
           | (Ok None, _) => None
           end
  end.
End SCP.
