(* ===== verification/MemFS.v ===== *)
(** A file system in memory, as an instance of the operating system of [Scp]: directories, regular
    files and other nodes by their location, without links.  It is the file system of a process
    that may access everything: calls fail only for what is not there or has the wrong kind.

    [install] says what copying a tree should do to it; [script_installs] shows that the calls of a
    copy, in order, do that. *)

From S2P Require Import Prelude GoStrings GoPath Scp.
Local Open Scope Z_scope.

Inductive memKind := KDir | KFile (data : string) | KOther.

Record memNode := mkMemNode { mn_perm : Z; mn_kind : memKind; mn_mtime : Z }.

Record memFS := mkMemFS {
  fs_nodes : gmap (list string) memNode;
  fs_cwd : list string;
  fs_umask : Z;
  fs_now : Z;
}.

Definition set_nodes (s : memFS) (m : gmap (list string) memNode) : memFS :=
  mkMemFS m (fs_cwd s) (fs_umask s) (fs_now s).

(** The permissions a new node gets. *)
Definition create_mode (umask mode : Z) : Z := Z.ldiff (Z.land mode 511) umask.

Definition node_info (n : memNode) : FileInfo :=
  mkFileInfo (mn_perm n) match mn_kind n with KDir => true | _ => false end
    match mn_kind n with KFile _ => true | _ => false end
    match mn_kind n with KFile d => Z.of_nat (slen d) | _ => 0 end (mn_mtime n).

(** The root directory is always there. *)
Definition dir_at (m : gmap (list string) memNode) (p : list string) : bool :=
  bool_decide (p = []) || match m !! p with Some n => match mn_kind n with KDir => true | _ => false end
                          | None => false end.

Definition mem_error (what : string) : error := EExternal what.

Definition mem_Stat (s : memFS) (path : string) : result FileInfo :=
  match resolve (fs_cwd s) path with
  | [] => Ok (mkFileInfo 493 true false 0 0)
  | p => match fs_nodes s !! p with
         | Some n => Ok (node_info n)
         | None => Err (mem_error "no such file or directory")
         end
  end.

Definition name_le (a b : string * memNode) : Prop := String.leb a.1 b.1 = true.

#[export] Instance name_le_dec a b : Decision (name_le a b).
Proof. unfold name_le. apply _. Defined.

(** The entries of a directory, by name. *)
Definition mem_children (m : gmap (list string) memNode) (p : list string) : list (string * memNode) :=
  merge_sort name_le
    (omap (fun '(q, n) => match last q with
                          | Some name => if bool_decide (q = p ++ [name]) then Some (name, n) else None
                          | None => None
                          end) (map_to_list m)).

Definition mem_ReadDir (s : memFS) (path : string) : result (list (string * result FileInfo)) :=
  let p := resolve (fs_cwd s) path in
  if dir_at (fs_nodes s) p
  then Ok (prod_map id (fun n => Ok (node_info n)) <$> mem_children (fs_nodes s) p)
  else Err (mem_error "not a directory").

Definition mem_ReadFile (s : memFS) (path : string) : result (string * option error) :=
  match fs_nodes s !! resolve (fs_cwd s) path with
  | Some n => match mn_kind n with
              | KFile d => Ok (d, None)
              | _ => Err (mem_error "is a directory")
              end
  | None => Err (mem_error "no such file or directory")
  end.

(** [os.MkdirAll]: the missing directories on the way from [p] to [p ++ rest]. *)
Fixpoint mkdir_go (perm now : Z) (m : gmap (list string) memNode) (p rest : list string)
    : gmap (list string) memNode * option error :=
  match rest with
  | [] => (m, None)
  | name :: rest =>
      let p := p ++ [name] in
      match m !! p with
      | None => mkdir_go perm now (<[p := mkMemNode perm KDir now]> m) p rest
      | Some n => match mn_kind n with
                  | KDir => mkdir_go perm now m p rest
                  | _ => (m, Some (mem_error "not a directory"))
                  end
      end
  end.

Definition mem_MkdirAll (s : memFS) (path : string) (mode : Z) : memFS * option error :=
  let '(m, e) := mkdir_go (create_mode (fs_umask s) mode) (fs_now s) (fs_nodes s) []
                   (resolve (fs_cwd s) path) in
  (set_nodes s m, e).

Definition mem_Create (s : memFS) (path : string) (mode : Z) : memFS * option error :=
  let p := resolve (fs_cwd s) path in
  match last p with
  | None => (s, Some (mem_error "is a directory"))
  | Some _ =>
      if negb (dir_at (fs_nodes s) (take (length p - 1) p))
      then (s, Some (mem_error "no such file or directory"))
      else match fs_nodes s !! p with
           | None =>
               (set_nodes s (<[p := mkMemNode (create_mode (fs_umask s) mode) (KFile "") (fs_now s)]>
                               (fs_nodes s)), None)
           | Some n =>
               match mn_kind n with
               | KFile _ =>
                   (set_nodes s (<[p := mkMemNode (mn_perm n) (KFile "") (fs_now s)]> (fs_nodes s)), None)
               | KDir => (s, Some (mem_error "is a directory"))
               | KOther => (s, Some (mem_error "no such device or address"))
               end
           end
  end.

Definition mem_Append (s : memFS) (path data : string) : memFS * option error :=
  let p := resolve (fs_cwd s) path in
  match fs_nodes s !! p with
  | Some (mkMemNode perm (KFile d) _) =>
      (set_nodes s (<[p := mkMemNode perm (KFile (d +:+ data)) (fs_now s)]> (fs_nodes s)), None)
  | _ => (s, Some (mem_error "bad file descriptor"))
  end.

Definition mem_Chtimes (s : memFS) (path : string) (atime mtime : Z) : memFS * option error :=
  let p := resolve (fs_cwd s) path in
  match fs_nodes s !! p with
  | Some (mkMemNode perm kind _) =>
      (set_nodes s (<[p := mkMemNode perm kind mtime]> (fs_nodes s)), None)
  | None => (s, Some (mem_error "no such file or directory"))
  end.

#[export] Instance memOS : OS := {|
  osState := memFS;
  os_Stat := mem_Stat;
  os_ReadDir := mem_ReadDir;
  os_ReadFile := mem_ReadFile;
  os_MkdirAll := mem_MkdirAll;
  os_Create := mem_Create;
  os_Append := mem_Append;
  os_CloseFile := fun s _ => (s, None);
  os_Chtimes := mem_Chtimes;
|}.

(** ** Trees *)

Inductive tree :=
| TFile (perm : Z) (data : string)
| TDir (perm : Z) (entries : list (string * tree))
| TOther.

Section TreeInd.
Context (P : tree → Prop).
Context (HF : ∀ perm data, P (TFile perm data)).
Context (HD : ∀ perm entries, Forall (fun e => P e.2) entries → P (TDir perm entries)).
Context (HO : P TOther).

Fixpoint tree_rect' (t : tree) : P t :=
  match t with
  | TFile perm data => HF perm data
  | TOther => HO
  | TDir perm entries =>
      HD perm entries
        ((fix go (l : list (string * tree)) : Forall (fun e => P e.2) l :=
            match l with
            | [] => Forall_nil_2 _
            | e :: l => Forall_cons_2 _ _ _ (tree_rect' e.2) (go l)
            end) entries)
  end.
End TreeInd.

(** The calls that build the tree at [dest], in the order of the sink. *)
Fixpoint script (dest : string) (t : tree) : list osCall :=
  match t with
  | TFile perm data =>
      CallCreate dest perm :: (if bool_decide (data = "") then [] else [CallAppend dest data]) ++
      [CallClose dest]
  | TDir perm entries =>
      CallMkdirAll dest perm :: flat_map (fun e => script (path_Join [dest; e.1]) e.2) entries
  | TOther => []
  end.

(** The state after a sequence of calls that all succeed. *)
Definition do_call `{OS} (s : osState) (c : osCall) : option osState :=
  let '(s', e) := match c with
                  | CallMkdirAll p mode => os_MkdirAll s p mode
                  | CallCreate p mode => os_Create s p mode
                  | CallAppend p d => os_Append s p d
                  | CallClose p => os_CloseFile s p
                  | CallChtimes p a m => os_Chtimes s p a m
                  end in
  match e with Some _ => None | None => Some s' end.

Fixpoint do_calls `{OS} (s : osState) (l : list osCall) : option osState :=
  match l with
  | [] => Some s
  | c :: l => s ← do_call s c; do_calls s l
  end.

Lemma do_calls_app `{OS} s l1 l2 : do_calls s (l1 ++ l2) = (s ← do_calls s l1; do_calls s l2).
Proof. revert s. induction l1 as [|c l1 IH]; intros s; simpl; [done|]. destruct (do_call s c); [apply IH|done]. Qed.

(** What a file system holds, without the times. *)
Definition view (s : memFS) : gmap (list string) (Z * memKind) :=
  (fun n => (mn_perm n, mn_kind n)) <$> fs_nodes s.

(** The file system with the tree at [p]. *)
Fixpoint install (umask : Z) (p : list string) (t : tree) (m : gmap (list string) (Z * memKind))
    : gmap (list string) (Z * memKind) :=
  match t with
  | TFile perm data => <[p := (create_mode umask perm, KFile data)]> m
  | TDir perm entries =>
      foldl (fun m e => install umask (p ++ [e.1]) e.2 m)
        (<[p := (create_mode umask perm, KDir)]> m) entries
  | TOther => m
  end.

(** Names of a directory are plain and distinct. *)
Fixpoint tree_ok (t : tree) : Prop :=
  match t with
  | TFile _ _ | TOther => True
  | TDir _ entries =>
      NoDup entries.*1 ∧ Forall plain_name entries.*1 ∧
      (fix go (l : list (string * tree)) : Prop :=
         match l with [] => True | e :: l => tree_ok e.2 ∧ go l end) entries
  end.

Lemma tree_ok_dir perm entries :
  tree_ok (TDir perm entries) ↔
  NoDup entries.*1 ∧ Forall plain_name entries.*1 ∧ Forall (fun e => tree_ok e.2) entries.
Proof.
  simpl. do 2 f_equiv. induction entries as [|e l IH]; [by rewrite Forall_nil|].
  by rewrite Forall_cons, IH.
Qed.

(** Installing a tree touches nothing outside its place. *)
Lemma install_outside umask p t m q :
  (∀ r, q ≠ p ++ r) → install umask p t m !! q = m !! q.
Proof.
  revert p m. induction t as [perm data|perm entries IH|] using tree_rect'; intros p m Hq; simpl; [| |done].
  - rewrite lookup_insert_ne; [done|]. intros ->. apply (Hq []). by rewrite app_nil_r.
  - transitivity (<[p:=(create_mode umask perm, KDir)]> m !! q).
    + generalize (<[p:=(create_mode umask perm, KDir)]> m) as m0.
      induction IH as [|e l He Hl IHl]; intros m0; simpl; [done|].
      rewrite IHl, He; [done|]. intros r ->. apply (Hq (e.1 :: r)). by rewrite <-(assoc_L (++)).
    + rewrite lookup_insert_ne; [done|]. intros ->. apply (Hq []). by rewrite app_nil_r.
Qed.

Lemma lookup_view s p : view s !! p = (fun n => (mn_perm n, mn_kind n)) <$> fs_nodes s !! p.
Proof. apply lookup_fmap. Qed.

Lemma dir_at_view m1 m2 p :
  (fun n => (mn_perm n, mn_kind n)) <$> m1 = (fun n => (mn_perm n, mn_kind n)) <$> m2 →
  dir_at m1 p = dir_at m2 p.
Proof.
  intros Heq%(f_equal (.!! p)). rewrite !lookup_fmap in Heq. unfold dir_at.
  destruct (m1 !! p) as [[]|], (m2 !! p) as [[]|]; simplify_eq/=; done.
Qed.

(** Creating the last directory of a path whose other directories are there. *)
Lemma mkdir_go_last perm now m p rest name :
  (∀ k, 0 < k ≤ length rest → dir_at m (p ++ take k rest) = true)%nat →
  m !! ((p ++ rest) ++ [name]) = None →
  mkdir_go perm now m p (rest ++ [name]) = (<[(p ++ rest) ++ [name] := mkMemNode perm KDir now]> m, None).
Proof.
  revert p. induction rest as [|c rest IH]; intros p Hdirs Hnone; simpl.
  - rewrite app_nil_r in Hnone. by rewrite Hnone, app_nil_r.
  - pose proof (Hdirs 1%nat ltac:(simpl; lia)) as Hd. simpl in Hd. rewrite take_0 in Hd.
    unfold dir_at in Hd. rewrite bool_decide_eq_false_2 in Hd by by destruct p.
    destruct (m !! (p ++ [c])) as [n|]; [|done]. destruct (mn_kind n); [|done..].
    rewrite IH; rewrite <-?(assoc_L (++)) in *; [done| |done].
    intros k Hk. specialize (Hdirs (S k) ltac:(simpl; lia)). by rewrite <-(assoc_L (++)).
Qed.

(** Where a tree can be put: all directories above are there, and nothing at the place itself. *)
Record room (s : memFS) (p : list string) : Prop := {
  room_above : ∀ k, (k < length p)%nat → dir_at (fs_nodes s) (take k p) = true;
  room_free : ∀ q, fs_nodes s !! (p ++ q) = None;
}.

(** Two file systems of the same process. *)
Definition same_process (s s' : memFS) : Prop :=
  fs_cwd s' = fs_cwd s ∧ fs_umask s' = fs_umask s ∧ fs_now s' = fs_now s.

Lemma do_create s dest perm p name :
  resolve (fs_cwd s) dest = p ++ [name] → room s (p ++ [name]) →
  do_call s (CallCreate dest perm) =
  Some (set_nodes s (<[p ++ [name] := mkMemNode (create_mode (fs_umask s) perm) (KFile "") (fs_now s)]>
                       (fs_nodes s))).
Proof.
  intros Hr [Ha Hf]. unfold do_call. simpl. unfold mem_Create. rewrite Hr, last_snoc.
  rewrite Ha by (rewrite length_app; simpl; lia). simpl.
  specialize (Hf []). rewrite app_nil_r in Hf. by rewrite Hf.
Qed.

Lemma do_mkdir s dest perm p name :
  resolve (fs_cwd s) dest = p ++ [name] → room s (p ++ [name]) →
  do_call s (CallMkdirAll dest perm) =
  Some (set_nodes s (<[p ++ [name] := mkMemNode (create_mode (fs_umask s) perm) KDir (fs_now s)]>
                       (fs_nodes s))).
Proof.
  intros Hr [Ha Hf]. unfold do_call. simpl. unfold mem_MkdirAll. rewrite Hr.
  rewrite (mkdir_go_last _ _ _ [] p); [done| |].
  - intros k Hk. specialize (Ha k). rewrite length_app in Ha. simpl in *.
    rewrite take_app_le in Ha by lia. apply Ha. lia.
  - specialize (Hf []). by rewrite app_nil_r in Hf.
Qed.

Lemma view_insert s p n :
  view (set_nodes s (<[p := n]> (fs_nodes s))) = <[p := (mn_perm n, mn_kind n)]> (view s).
Proof. unfold view. simpl. by rewrite fmap_insert. Qed.

Lemma do_file s dest perm data p name :
  resolve (fs_cwd s) dest = p ++ [name] → room s (p ++ [name]) →
  ∃ s', do_calls s (script dest (TFile perm data)) = Some s' ∧ same_process s s' ∧
    view s' = install (fs_umask s) (p ++ [name]) (TFile perm data) (view s).
Proof.
  intros Hr Hroom. cbn [script do_calls]. rewrite (do_create _ _ _ _ _ Hr Hroom). cbn [mbind option_bind].
  set (s1 := set_nodes s _). rewrite do_calls_app.
  assert (∃ s2, do_calls s1 (if bool_decide (data = "") then [] else [CallAppend dest data]) = Some s2 ∧
    same_process s s2 ∧ view s2 = install (fs_umask s) (p ++ [name]) (TFile perm data) (view s))
    as (s2 & -> & Hp & Hv); [|by exists s2].
  assert (view s1 = <[p ++ [name] := (create_mode (fs_umask s) perm, KFile "")]> (view s)) as Hv1
    by apply view_insert.
  case_bool_decide as Hd; [by subst; exists s1|].
  exists (set_nodes s1 (<[p ++ [name] := mkMemNode (create_mode (fs_umask s) perm) (KFile data) (fs_now s)]>
                          (fs_nodes s1))).
  split; [|split; [done|]].
  - simpl. unfold do_call. simpl. unfold mem_Append.
    assert (fs_nodes s1 !! (p ++ [name]) =
            Some (mkMemNode (create_mode (fs_umask s) perm) (KFile "") (fs_now s))) as Hl
      by apply lookup_insert_eq.
    change (fs_cwd s1) with (fs_cwd s). by rewrite Hr, Hl.
  - rewrite view_insert, Hv1. simpl. by rewrite insert_insert_eq.
Qed.

Lemma app_cons_inj {A} (p : list A) x y l1 l2 : (p ++ [x]) ++ l1 = (p ++ [y]) ++ l2 → x = y.
Proof. rewrite <-!(assoc_L (++)). intros [= ? ?]%(inj (app p)). done. Qed.

(** Room for a sibling remains after a tree was installed. *)
Lemma room_sibling s s' umask p x y t :
  view s' = install umask (p ++ [x]) t (view s) → x ≠ y → room s (p ++ [y]) → room s' (p ++ [y]).
Proof.
  intros Hv Hne [Ha Hf]. split.
  - intros k Hk. rewrite <-(Ha k Hk). unfold dir_at. f_equal.
    assert (view s' !! take k (p ++ [y]) = view s !! take k (p ++ [y])) as Hl.
    { rewrite Hv. apply install_outside. intros r Hr. apply (f_equal length) in Hr as Hlen.
      rewrite length_take, !length_app in Hlen. rewrite length_app in Hk. simpl in *. lia. }
    rewrite !lookup_view in Hl.
    destruct (fs_nodes s' !! _) as [[]|], (fs_nodes s !! _) as [[]|]; simplify_eq/=; done.
  - intros q. assert (view s' !! ((p ++ [y]) ++ q) = view s !! ((p ++ [y]) ++ q)) as Hl.
    { rewrite Hv. apply install_outside. intros r Hr. apply Hne. symmetry. by eapply app_cons_inj. }
    rewrite !lookup_view, Hf in Hl. by destruct (fs_nodes s' !! _).
Qed.

(** In a directory just created there is room for every entry. *)
Lemma room_inside s p perm now n :
  room s p → room (set_nodes s (<[p := mkMemNode perm KDir now]> (fs_nodes s))) (p ++ [n]).
Proof.
  intros [Ha Hf]. split.
  - intros k Hk. rewrite length_app in Hk. simpl in Hk. rewrite take_app_le by lia. unfold dir_at. simpl.
    destruct (decide (k = length p)) as [->|Hne].
    + rewrite take_ge, lookup_insert_eq by done. apply orb_true_r.
    + rewrite lookup_insert_ne; [apply Ha; lia|].
      intros Heq%(f_equal length). rewrite length_take in Heq. lia.
  - intros q. simpl. rewrite lookup_insert_ne; [by rewrite <-(assoc_L (++)), Hf|].
    intros Heq%(f_equal length). rewrite !length_app in Heq. simpl in Heq. lia.
Qed.

(** The calls for the entries of a directory, one after the other. *)
Lemma entries_install entries s dest p :
  Forall (fun e => ∀ s dest p name, tree_ok e.2 → dest ≠ "" → resolve (fs_cwd s) dest = p ++ [name] →
    room s (p ++ [name]) → ∃ s', do_calls s (script dest e.2) = Some s' ∧ same_process s s' ∧
    view s' = install (fs_umask s) (p ++ [name]) e.2 (view s)) entries →
  Forall (fun e => tree_ok e.2) entries → NoDup entries.*1 → Forall plain_name entries.*1 →
  dest ≠ "" → resolve (fs_cwd s) dest = p → (∀ n, n ∈ entries.*1 → room s (p ++ [n])) →
  ∃ s', do_calls s (flat_map (fun e => script (path_Join [dest; e.1]) e.2) entries) = Some s' ∧
    same_process s s' ∧
    view s' = foldl (fun m e => install (fs_umask s) (p ++ [e.1]) e.2 m) (view s) entries.
Proof.
  intros IH. revert s. induction IH as [|[n t] l Hn Hl IHl]; intros s Hok Hnd Hpl Hdest Hr Hroom; simpl.
  { by exists s. }
  inversion Hok; inversion Hnd; inversion Hpl; simplify_eq/=. rewrite do_calls_app.
  destruct (Hn s (path_Join [dest; n]) (resolve (fs_cwd s) dest) n) as (s1 & -> & (Hc & Hu & Hw) & Hv1);
    [done|by apply path_Join_nonempty|by apply resolve_join|apply Hroom; left|]. simpl.
  destruct (IHl s1) as (s2 & -> & (Hc2 & Hu2 & Hw2) & Hv2); [done..|by rewrite Hc| |].
  - intros n' Hn'. eapply room_sibling; [exact Hv1| |apply Hroom; by right]. by intros ->.
  - exists s2. split_and!; [done|split_and!; congruence|]. by rewrite Hv2, Hu, Hv1.
Qed.

(** The calls that build a tree at a place with room do so, and nothing else. *)
Lemma script_installs t s dest p name :
  tree_ok t → dest ≠ "" → resolve (fs_cwd s) dest = p ++ [name] → room s (p ++ [name]) →
  ∃ s', do_calls s (script dest t) = Some s' ∧ same_process s s' ∧
    view s' = install (fs_umask s) (p ++ [name]) t (view s).
Proof.
  revert s dest p name.
  induction t as [perm data|perm entries IH|] using tree_rect'; intros s dest p name Hok Hdest Hr Hroom;
    [by apply do_file| |by exists s].
  apply tree_ok_dir in Hok as (Hnd & Hplain & Hoks). cbn [script do_calls install].
  rewrite (do_mkdir _ _ _ _ _ Hr Hroom). cbn [mbind option_bind].
  pose proof (room_inside s (p ++ [name]) (create_mode (fs_umask s) perm) (fs_now s)) as Hin.
  set (s1 := set_nodes s _).
  assert (view s1 = <[p ++ [name] := (create_mode (fs_umask s) perm, KDir)]> (view s)) as <-
    by apply view_insert.
  apply (entries_install entries s1 dest (p ++ [name])); try done. intros n _. by apply Hin.
Qed.
