(* ===== verification/ScpProps.v ===== *)
(** Properties of the SCP source and sink of [Scp]: what the sink may touch, that it ends, and that
    a source and a sink connected to each other copy a tree. *)

From S2P Require Import Prelude GoStrings GoStrconv GoPath Scp.
Local Open Scope Z_scope.

(** ** What a computation may do *)

Create HintDb framed.

Section Frame.
Context `{OS} (error_string : error → string) (wfail : nat → option (nat * error)).
Context (P : osCall → Prop).

(** [m] only makes calls that satisfy [P], never gives input back, and its value satisfies [Q]. *)
Definition framed {A} (m : scp A) (Q : A → Prop) : Prop := ∀ st,
  (∃ calls, s_log (m st).2 = s_log st ++ calls ∧ Forall P calls) ∧
  (slen (s_in (m st).2) ≤ slen (s_in st))%nat ∧
  (∀ a, (m st).1 = Ok a → Q a).

Lemma framed_bind {A B} (m : scp A) (f : A → scp B) Q R :
  framed m Q → (∀ a, Q a → framed (f a) R) → framed (scp_bind m f) R.
Proof.
  intros Hm Hf st. unfold scp_bind. destruct (Hm st) as ((c1 & Hl1 & Hc1) & Hi1 & HQ).
  destruct (m st) as [[a|e] st1]; simpl in *; [|by split_and!; eauto].
  destruct (Hf a (HQ a eq_refl) st1) as ((c2 & Hl2 & Hc2) & Hi2 & HR).
  split_and!; [|lia|done]. exists (c1 ++ c2).
  rewrite Hl2, Hl1, <-(assoc_L (++)). split; [done|]. by apply Forall_app.
Qed.

Lemma framed_bind_any {A B} (m : scp A) (f : A → scp B) R :
  framed m (fun _ => True) → (∀ a, framed (f a) R) → framed (scp_bind m f) R.
Proof. intros Hm Hf. eapply framed_bind; [done|]. auto. Qed.

(** A computation that changes neither log nor input. *)
Lemma framed_still {A} (m : scp A) (Q : A → Prop) :
  (∀ st, s_log (m st).2 = s_log st ∧ s_in (m st).2 = s_in st ∧ (∀ a, (m st).1 = Ok a → Q a)) →
  framed m Q.
Proof.
  intros Hm st. destruct (Hm st) as (Hl & Hi & HQ). split_and!; [|by rewrite Hi|done].
  exists []. by rewrite app_nil_r.
Qed.

Lemma framed_ret {A} (a : A) (Q : A → Prop) : Q a → framed (scp_ret a) Q.
Proof. intros. apply framed_still. intros st. split_and!; try done. by intros ? [= <-]. Qed.
Lemma framed_fail {A} e (Q : A → Prop) : framed (scp_fail e) Q.
Proof. by apply framed_still. Qed.

Lemma framed_write data : framed (out_Write wfail data) (fun _ => True).
Proof.
  apply framed_still. intros st. unfold out_Write. by destruct (wfail (s_writes st)) as [[k e]|].
Qed.

Lemma framed_try {A} (m : scp A) : framed m (fun _ => True) → framed (scp_try m) (fun _ => True).
Proof.
  intros Hm st. specialize (Hm st). unfold scp_try. destruct (m st).
  by destruct Hm as (? & ? & _).
Qed.

Lemma framed_os c f : P c → framed (os_do c f) (fun _ => True).
Proof.
  intros Hc st. unfold os_do. destruct (f (s_os st)) as [s' e]. split_and!; [|done..].
  exists [c]. split; [done|]. by constructor.
Qed.

Lemma framed_ReadByte in_end : framed (ReadByte in_end) (fun _ => True).
Proof.
  intros st. unfold ReadByte. destruct (s_in st) eqn:E; simpl; rewrite ?E;
    (split_and!; [exists []; by rewrite app_nil_r|simpl; lia|done]).
Qed.

Lemma framed_CopyN in_end dest size : (∀ d, P (CallAppend dest d)) → framed (CopyN in_end dest size) (fun _ => True).
Proof.
  intros Hp st. unfold CopyN.
  assert (slen (sdrop (Z.to_nat size) (s_in st)) ≤ slen (s_in st))%nat by (rewrite slen_sdrop; lia).
  destruct (bool_decide (size ≤ _)); case_bool_decide; unfold os_do; simpl;
    repeat (destruct (os_Append _ _ _) as [s' [e|]]; simpl);
    (split_and!; [|done || lia|done]); first [by exists []; rewrite app_nil_r|by eexists [_]; eauto].
Qed.

Lemma framed_fail_ack {A} e (Q : A → Prop) : framed (fail_ack error_string wfail e) Q.
Proof. apply framed_bind_any; [apply framed_try, framed_write|intros; apply framed_fail]. Qed.

Lemma framed_or_ack {A} (r : result A) : framed (or_ack error_string wfail r) (fun a => r = Ok a).
Proof. destruct r; [by apply framed_ret|apply framed_fail_ack]. Qed.

Lemma framed_ack : framed (writeSCPAck error_string wfail None) (fun _ => True).
Proof. apply framed_write. Qed.

Lemma framed_times path times :
  (∀ a m, P (CallChtimes path a m)) → framed (apply_times path times) (fun _ => True).
Proof.
  intros Hp. destruct times; [|by apply framed_ret].
  apply framed_bind_any; [by apply framed_try, framed_os|intros; by apply framed_ret].
Qed.

Lemma framed_receive in_end dest mode size times :
  (∀ c, call_path c = dest → P c) →
  framed (receiveSCPFile error_string wfail in_end dest mode size times) (fun _ => True).
Proof.
  intros Hp. apply framed_bind_any; [apply framed_ack|intros _].
  apply framed_bind_any; [apply framed_try, framed_os; by apply Hp|intros [|]]; [|apply framed_fail_ack].
  apply framed_bind_any; [apply framed_try, framed_CopyN; intros; by apply Hp|intros copied].
  apply framed_bind_any; [apply framed_try, framed_os; by apply Hp|intros closed].
  destruct copied; [destruct closed|]; try apply framed_fail_ack.
  apply framed_bind_any; [apply framed_ReadByte|intros status]. case_bool_decide; [|apply framed_fail].
  apply framed_bind_any; [apply framed_times; intros; by apply Hp|intros _; apply framed_ack].
Qed.

(** Acknowledge and go on. *)
Lemma framed_ack_ret {A} (a : A) (Q : A → Prop) :
  Q a → framed (scp_bind (writeSCPAck error_string wfail None) (fun _ => scp_ret a)) Q.
Proof. intros. apply framed_bind_any; [apply framed_ack|intros _; by apply framed_ret]. Qed.
End Frame.

(** ** Confinement *)

Section Confined.
Context `{OS} (error_string : error → string) (wfail : nat → option (nat * error)) (in_end : error).
Context (root : string).

(** A path at or below [root]: from any working directory it leads to the directory entry of
    [root], or from there down through plain names. *)
Definition below (path : string) : Prop :=
  path ≠ "" ∧ ∃ names, Forall plain_name names ∧
    ∀ cwd, resolve cwd path = resolve cwd root ++ names.

Definition call_below (c : osCall) : Prop := below (call_path c).

Lemma below_join path name : below path → plain_name name → below (path_Join [path; name]).
Proof.
  intros (Hne & names & Hn & Hr) Hname. split; [by apply path_Join_nonempty|].
  exists (names ++ [name]). split; [apply Forall_app; auto|].
  intros cwd. by rewrite resolve_join, Hr, (assoc_L (++)).
Qed.

Lemma cleanSCPName_plain name name' : cleanSCPName name = Ok name' → name' = name ∧ plain_name name.
Proof.
  unfold cleanSCPName. repeat case_bool_decide; simpl; try done.
  destruct (ContainsByte name "/") eqn:Hs; [done|]. intros [= <-]. by split_and!.
Qed.

Lemma cleanSCPName_ok name : plain_name name → cleanSCPName name = Ok name.
Proof.
  intros (?&?&?&Hs). unfold cleanSCPName. by rewrite !bool_decide_eq_false_2, Hs.
Qed.

(** The stack of directories: never empty, all at or below the root. *)
Definition vars_ok (v : sinkVars) : Prop := sv_dirs v ≠ [] ∧ Forall below (sv_dirs v).

Lemma sink_path_below tid dirs name :
  dirs ≠ [] → Forall below dirs → plain_name name → below (sink_path tid dirs name).
Proof.
  intros Hne Hd Hn. unfold sink_path. destruct dirs as [|d dirs]; [done|]. inversion Hd; subst.
  destruct (tid || _); [by apply below_join|done].
Qed.

Lemma sink_command_framed tid v line :
  vars_ok v → framed call_below (sink_command error_string wfail in_end tid v line) vars_ok.
Proof.
  intros [Hne Hd]. unfold sink_command. destruct line as [|c line]; [by apply framed_ret|].
  case_bool_decide; [|case_bool_decide; [|case_bool_decide; [|case_bool_decide; [|apply framed_fail_ack]]]].
  - eapply framed_bind; [apply framed_or_ack|intros times _]. by apply framed_ack_ret.
  - eapply framed_bind; [apply framed_or_ack|intros [mode name0] _].
    eapply framed_bind; [apply framed_or_ack|intros name [-> Hn]%cleanSCPName_plain].
    pose proof (sink_path_below tid _ _ Hne Hd Hn) as Hb.
    apply framed_bind_any; [by apply framed_try, framed_os|intros made].
    eapply framed_bind; [apply framed_or_ack|intros _ _].
    apply framed_bind_any; [by apply framed_times|intros _].
    apply framed_ack_ret. split; [done|]. by constructor.
  - apply framed_ack_ret. split; simpl; case_bool_decide as Hl; try done.
    + destruct (sv_dirs v) as [|? [|]]; simpl in *; done || lia.
    + destruct (sv_dirs v); simpl; [done|by inversion Hd].
  - eapply framed_bind; [apply framed_or_ack|intros [[mode size] name0] _].
    eapply framed_bind; [apply framed_or_ack|intros name [-> Hn]%cleanSCPName_plain].
    apply framed_bind_any; [|intros; by apply framed_ret].
    apply framed_receive. intros call Hc. unfold call_below. rewrite Hc. by apply sink_path_below.
Qed.

Lemma sink_loop_log fuel tid v st r st' :
  vars_ok v → sink_loop error_string wfail in_end fuel tid v st = Some (r, st') →
  ∃ calls, s_log st' = s_log st ++ calls ∧ Forall call_below calls.
Proof.
  revert v st. induction fuel as [|fuel IH]; intros v st Hv; simpl; [done|].
  unfold ReadString. destruct (Cut (s_in st) newline) as [[line rest]|].
  - set (st1 := mkScpState _ _ _ _ _). intros Hrun.
    destruct (sink_command_framed tid v (TrimSuffix (line +:+ String newline "") (String newline "")) Hv st1)
      as ((c1 & Hl1 & Hc1) & _ & Hv').
    destruct (sink_command _ _ _ _ _ _ st1) as [[v'|e] st2] eqn:E; simpl in *; simplify_eq.
    + destruct (IH v' st2 (Hv' v' eq_refl) Hrun) as (c2 & Hl2 & Hc2). exists (c1 ++ c2).
      rewrite Hl2, Hl1, (assoc_L (++)). split; [done|]. by apply Forall_app.
    + by exists c1.
  - intros [= _ <-]. exists []. by rewrite app_nil_r.
Qed.

(** One iteration uses up at least the line's terminator, so the loop ends. *)
Lemma sink_loop_total fuel tid v st :
  vars_ok v → (slen (s_in st) < fuel)%nat →
  is_Some (sink_loop error_string wfail in_end fuel tid v st).
Proof.
  revert v st. induction fuel as [|fuel IH]; intros v st Hv Hlt; [lia|]. simpl.
  unfold ReadString. destruct (Cut (s_in st) newline) as [[line rest]|] eqn:Hcut; [|done].
  apply Cut_Some in Hcut as [Hin _].
  set (st1 := mkScpState _ _ _ _ _).
  destruct (sink_command_framed tid v (TrimSuffix (line +:+ String newline "") (String newline "")) Hv st1)
    as (_ & Hi & Hv').
  destruct (sink_command _ _ _ _ _ _ st1) as [[v'|e] st2] eqn:E; simpl in *; [|done].
  apply IH; [by apply Hv'|]. rewrite Hin, slen_app in Hlt. simpl in Hlt. lia.
Qed.

Lemma root_vars_ok : root ≠ "" → vars_ok (mkSinkVars [root] None).
Proof.
  intros Hr. split; [done|]. constructor; [|done]. split; [done|]. exists [].
  split; [done|]. intros. by rewrite app_nil_r.
Qed.
End Confined.

Lemma parseSCPOptions_target args opts :
  parseSCPOptions args = Ok opts → scp_target opts ≠ "" ∧ scp_sink opts = negb (scp_source opts).
Proof.
  unfold parseSCPOptions. rewrite result_bind_Ok. intros (o & _ & Ho).
  repeat case_bool_decide; simplify_eq/=. split; [done|]. destruct (scp_sink opts), (scp_source opts); done.
Qed.

(** C7: an SCP upload stays inside its target, whatever the client sends and however the
    operating system, the connection and the context behave.  Every file or directory that the
    sink creates, writes, closes or re-dates is the target itself or lies below it by plain names:
    from any working directory its path resolves to the target's followed by names that are neither
    empty nor a dot entry and contain no separator.  And the sink always ends: it needs at most
    one iteration per byte received, and one more. *)
Theorem scp_sink_confined `{OS} error_string wfail in_end args opts st :
  parseSCPOptions args = Ok opts → scp_sink opts = true → s_log st = [] →
  ∃ r st', runSCPSink error_string wfail in_end (S (slen (s_in st))) opts st = Some (r, st') ∧
    ∀ c, c ∈ s_log st' → ∃ names, Forall plain_name names ∧
      ∀ cwd, resolve cwd (call_path c) = resolve cwd (scp_target opts) ++ names.
Proof.
  intros [Ht _]%parseSCPOptions_target Hs Hlog. unfold runSCPSink.
  assert (∃ w o, writeSCPAck error_string wfail None st =
    (match wfail (s_writes st) with Some (_, e) => Err e | None => Ok () end,
     mkScpState (s_in st) o w (s_os st) (s_log st))) as (w & o & ->).
  { unfold writeSCPAck, out_Write. destruct (wfail (s_writes st)) as [[k e]|]; eauto. }
  destruct (wfail (s_writes st)) as [[k e]|].
  { eexists _, _. split; [done|]. simpl. rewrite Hlog. intros c Hc. by apply elem_of_nil in Hc. }
  simpl. set (st1 := mkScpState _ _ _ _ _).
  pose proof (root_vars_ok (scp_target opts) Ht) as Hv.
  destruct (sink_loop_total error_string wfail in_end _ (S (slen (s_in st)))
              (isDir (s_os st) (scp_target opts)) _ st1 Hv) as [[r st'] Hrun]; [simpl; lia|].
  exists r, st'. split; [exact Hrun|]. intros c Hc.
  destruct (sink_loop_log _ _ _ _ _ _ _ _ _ _ Hv Hrun) as (calls & Hl & Hcalls).
  simpl in Hl. rewrite Hl, Hlog in Hc. rewrite Forall_forall in Hcalls.
  by destruct (Hcalls c Hc) as (_ & names & Hn & Hr); eauto.
Qed.
