(* ===== verification/ScpRoundtrip.v ===== *)
(** A source and a sink connected to each other copy a tree.

    [wire] is what a source sends for a tree.  The source is shown to send it, reading one response
    per message, and the sink to make the calls of [script] for it, writing the same responses. *)

From S2P Require Import Prelude GoStrings GoStrconv GoPath Scp ScpProps MemFS.
Local Open Scope Z_scope.

(** ** The wire form of a tree *)

Definition eol : string := String newline "".

Definition file_header (perm size : Z) (name : string) : string :=
  "C" +:+ format_04o perm +:+ " " +:+ FormatInt size +:+ " " +:+ name.
Definition dir_header (perm : Z) (name : string) : string :=
  "D" +:+ format_04o perm +:+ " 0 " +:+ name.

Fixpoint wire (name : string) (t : tree) : string :=
  match t with
  | TFile perm data => (file_header perm (Z.of_nat (slen data)) name +:+ eol) +:+ data +:+ zero_byte
  | TDir perm entries =>
      (dir_header perm name +:+ eol) +:+ foldr (fun e s => wire e.1 e.2 +:+ s) "" entries +:+ ("E" +:+ eol)
  | TOther => ""
  end.

(** The responses it takes. *)
Fixpoint acks (t : tree) : nat :=
  match t with
  | TFile _ _ => 2
  | TDir _ entries => 1 + (foldr (fun e n => acks e.2 + n) 0 entries + 1)
  | TOther => 0
  end%nat.

Fixpoint zeros (n : nat) : string :=
  match n with O => "" | S n => String "000" (zeros n) end.

Lemma zeros_add m n : zeros (m + n) = zeros m +:+ zeros n.
Proof. induction m; simpl; [done|]. by rewrite IHm, sapp_cons. Qed.

Fixpoint depth (t : tree) : nat :=
  match t with
  | TDir _ entries => S (foldr (fun e n => depth e.2 `max` n) 0 entries)
  | _ => 0
  end%nat.

(** Permissions, sizes and names that the headers can carry. *)
Definition sendable_name (name : string) : Prop := plain_name name ∧ ContainsByte name newline = false.

#[export] Instance sendable_name_dec name : Decision (sendable_name name).
Proof. unfold sendable_name. apply _. Defined.

Fixpoint sendable (t : tree) : Prop :=
  match t with
  | TFile perm data => 0 ≤ perm < 512 ∧ Z.of_nat (slen data) < 2 ^ 63
  | TDir perm entries =>
      0 ≤ perm < 512 ∧ Forall sendable_name entries.*1 ∧
      (fix go (l : list (string * tree)) : Prop :=
         match l with [] => True | e :: l => sendable e.2 ∧ go l end) entries
  | TOther => True
  end.

Lemma sendable_dir perm entries :
  sendable (TDir perm entries) ↔
  0 ≤ perm < 512 ∧ Forall sendable_name entries.*1 ∧ Forall (fun e => sendable e.2) entries.
Proof.
  simpl. do 2 f_equiv. induction entries as [|e l IH]; [by rewrite Forall_nil|].
  by rewrite Forall_cons, IH.
Qed.

(** ** Headers *)

Lemma format_04o_parse n : 0 ≤ n < 512 → ParseUint (format_04o n) 8 32 = Some n.
Proof.
  intros Hn. unfold format_04o. pose proof (ParseUint_FormatUint n 8 32 ltac:(lia) ltac:(lia)) as HP.
  generalize (4 - slen (FormatUint n 8))%nat as k. induction k as [|k IH]; [done|].
  simpl in *. unfold ParseUint in *. simpl.
  destruct (foldr _ _ _) eqn:E; [|done]. done.
Qed.

Lemma format_04o_length n : (4 ≤ slen (format_04o n))%nat.
Proof.
  unfold format_04o. set (s := FormatUint n 8). assert (∀ k, slen (foldr (λ _ t, String "0" t) s (replicate k tt)) = (k + slen s)%nat) as ->.
  { induction k as [|k IH]; simpl; [done|]. by rewrite <-IH. }
  lia.
Qed.

Lemma format_04o_no_byte n c : digit_val c = None → ContainsByte (format_04o n) c = false.
Proof.
  intros Hc. unfold format_04o. generalize (4 - slen (FormatUint n 8))%nat as k.
  induction k as [|k IH]; simpl; [by apply FormatUint_no_byte|].
  rewrite IH. rewrite bool_decide_eq_false_2; [done|]. by intros <-.
Qed.

Lemma FormatInt_nonneg n : 0 ≤ n → FormatInt n = FormatUint n 10.
Proof. intros. unfold FormatInt. by rewrite bool_decide_eq_false_2 by lia. Qed.

Lemma parse_file_header perm size name :
  0 ≤ perm < 512 → 0 ≤ size < 2 ^ 63 → parseSCPFile (file_header perm size name) = Ok (perm, size, name).
Proof.
  intros Hp Hs. unfold parseSCPFile, file_header. rewrite FormatInt_nonneg by lia.
  pose proof (format_04o_length perm). pose proof (format_04o_no_byte perm " " eq_refl) as Hsp.
  assert (SplitN ("C" +:+ format_04o perm +:+ " " +:+ FormatUint size 10 +:+ " " +:+ name) " " 3 =
          ["C" +:+ format_04o perm; FormatUint size 10; name]) as ->.
  { change ("C" +:+ format_04o perm +:+ " " +:+ FormatUint size 10 +:+ " " +:+ name)
      with ("C" +:+ (format_04o perm +:+ String " " (FormatUint size 10 +:+ String " " name))).
    cbn [SplitN]. rewrite sapp_assoc, (Cut_app _ _ " ") by exact Hsp.
    by rewrite (Cut_app _ _ " ") by by apply FormatUint_no_byte. }
  rewrite bool_decide_eq_false_2 by (rewrite slen_app; simpl; lia).
  change (sdrop 1 ("C" +:+ format_04o perm)) with (format_04o perm).
  rewrite format_04o_parse, ParseInt_FormatUint by lia. by rewrite bool_decide_eq_false_2 by lia.
Qed.

Lemma parse_dir_header perm name :
  0 ≤ perm < 512 → parseSCPEntry (dir_header perm name) = Ok (perm, name).
Proof.
  intros Hp. unfold parseSCPEntry, dir_header.
  pose proof (format_04o_length perm). pose proof (format_04o_no_byte perm " " eq_refl) as Hsp.
  assert (SplitN ("D" +:+ format_04o perm +:+ " 0 " +:+ name) " " 3 =
          ["D" +:+ format_04o perm; "0"; name]) as ->.
  { change ("D" +:+ format_04o perm +:+ " 0 " +:+ name)
      with ("D" +:+ (format_04o perm +:+ String " " ("0" +:+ String " " name))).
    cbn [SplitN]. by rewrite sapp_assoc, (Cut_app _ _ " ") by exact Hsp. }
  rewrite bool_decide_eq_false_2 by (rewrite slen_app; simpl; lia).
  change (sdrop 1 ("D" +:+ format_04o perm)) with (format_04o perm).
  by rewrite format_04o_parse by lia.
Qed.

Lemma file_header_one_line perm size name :
  0 ≤ size → ContainsByte name newline = false → ContainsByte (file_header perm size name) newline = false.
Proof.
  intros Hs Hn. unfold file_header. rewrite FormatInt_nonneg by done.
  rewrite !ContainsByte_app, Hn, format_04o_no_byte, FormatUint_no_byte by done. done.
Qed.
Lemma dir_header_one_line perm name :
  ContainsByte name newline = false → ContainsByte (dir_header perm name) newline = false.
Proof.
  intros Hn. unfold dir_header. rewrite !ContainsByte_app, Hn, format_04o_no_byte by done. done.
Qed.

(** ** The source *)

Section Source.
Context `{OS} (error_string : error → string) (in_end : error).

(** Nothing fails when writing. *)
Definition no_fail : nat → option (nat * error) := fun _ => None.

(** What the operating system shows at [path] is the tree. *)
Inductive presents (s : osState) : string → FileInfo → tree → Prop :=
| presents_file path info data :
    fi_dir info = false → fi_regular info = true → fi_size info = Z.of_nat (slen data) →
    os_ReadFile s path = Ok (data, None) → presents s path info (TFile (fi_perm info) data)
| presents_dir path info l entries :
    fi_dir info = true → os_ReadDir s path = Ok l → presents_entries s path l entries →
    presents s path info (TDir (fi_perm info) entries)
| presents_other path info :
    fi_dir info = false → fi_regular info = false → presents s path info TOther
with presents_entries (s : osState) : string → list (string * result FileInfo) → list (string * tree) → Prop :=
| presents_nil path : presents_entries s path [] []
| presents_cons path name info l t entries :
    presents s (path_Join [path; name]) info t → presents_entries s path l entries →
    presents_entries s path ((name, Ok info) :: l) ((name, t) :: entries).

Context (s : osState).

(** With [n] good responses to read, [m] writes [data] and returns [a]. *)
Definition emits {A} (m : scp A) (n : nat) (data : string) (a : A) : Prop :=
  ∀ st rest, s_os st = s → s_in st = zeros n +:+ rest →
  ∃ w, m st = (Ok a, mkScpState rest (s_out st +:+ data) w (s_os st) (s_log st)).

Lemma emits_bind {A B} (m : scp A) (f : A → scp B) n1 n2 d1 d2 a b :
  emits m n1 d1 a → emits (f a) n2 d2 b → emits (scp_bind m f) (n1 + n2) (d1 +:+ d2) b.
Proof.
  intros Hm Hf st rest Hs Hin. rewrite zeros_add, <-sapp_assoc in Hin.
  destruct (Hm st _ Hs Hin) as [w1 E1].
  destruct (Hf (mkScpState (zeros n2 +:+ rest) (s_out st +:+ d1) w1 (s_os st) (s_log st)) rest Hs eq_refl)
    as [w2 E2].
  exists w2. unfold scp_bind. rewrite E1, E2. simpl. by rewrite sapp_assoc.
Qed.

Lemma emits_ret {A} (a : A) : emits (scp_ret a) 0 "" a.
Proof.
  intros [] rest Hs Hin. simpl in *. subst. eexists. unfold scp_ret. by rewrite sapp_nil_r.
Qed.

Lemma emits_write data : emits (out_Write no_fail data) 0 data ().
Proof. intros st rest Hs Hin. eexists. unfold out_Write. simpl in *. by rewrite Hin. Qed.

Lemma emits_response : emits (readSCPResponse in_end) 1 "" ().
Proof.
  intros st rest Hs Hin. unfold readSCPResponse, scp_bind, ReadByte. rewrite Hin. simpl.
  rewrite sapp_nil_r. by eexists.
Qed.

Lemma emits_ask {A} (f : osState → result A) a :
  f s = Ok a → emits (scp_bind (scp_try (os_ask f)) (or_ack error_string no_fail)) 0 "" a.
Proof.
  intros Hf [] rest Hs Hin. simpl in *. subst. unfold scp_bind, scp_try, os_ask. simpl. rewrite Hf. simpl.
  rewrite sapp_nil_r. by eexists.
Qed.

Lemma scp_bind_assoc {A B C} (m : scp A) (f : A → scp B) (g : B → scp C) st :
  scp_bind m (fun a => scp_bind (f a) g) st = scp_bind (scp_bind m f) g st.
Proof. unfold scp_bind. by destruct (m st) as [[]]. Qed.

Lemma emits_ask_then {A B} (f : osState → result A) (k : A → scp B) a n data b :
  f s = Ok a → emits (k a) n data b →
  emits (scp_bind (scp_try (os_ask f)) (fun r => scp_bind (or_ack error_string no_fail r) k)) n data b.
Proof.
  intros Hf Hk st rest Hs Hin. rewrite scp_bind_assoc.
  destruct (emits_bind _ _ _ _ _ _ _ _ (emits_ask f a Hf) Hk st rest Hs Hin) as [w ->]. by eexists.
Qed.

Lemma emits_copy data : emits (Copy no_fail data) 0 data ().
Proof. unfold Copy. case_bool_decide as Hd; [rewrite Hd; apply emits_ret|apply emits_write]. Qed.

(** The same, with the bytes and the number of responses written differently. *)
Lemma emits_eq {A} (m : scp A) n n' d d' a : emits m n d a → n = n' → d = d' → emits m n' d' a.
Proof. by intros ? <- <-. Qed.

Lemma sendSCPFile_emits path info data :
  fi_size info = Z.of_nat (slen data) → os_ReadFile s path = Ok (data, None) →
  emits (sendSCPFile error_string no_fail in_end path info false) 2
    (wire (path_Base path) (TFile (fi_perm info) data)) ().
Proof.
  intros Hsize Hread. unfold sendSCPFile. eapply emits_eq.
  - eapply emits_bind; [apply emits_ret|]. eapply emits_bind; [apply emits_write|].
    eapply emits_bind; [apply emits_response|]. eapply emits_ask_then; [exact Hread|].
    eapply emits_bind; [apply emits_copy|]. eapply emits_bind; [apply emits_ret|].
    eapply emits_bind; [apply emits_write|apply emits_response].
  - done.
  - cbn [wire]. unfold file_header. rewrite Hsize. simpl. by rewrite ?sapp_nil_l, ?sapp_nil_r, <-?sapp_assoc.
Qed.

(** Sending whatever is at [path]. *)
Definition send_node (fuel : nat) (path : string) (info : FileInfo) : scp (option unit) :=
  if fi_dir info then sendSCPDir error_string no_fail in_end fuel path info false
  else if fi_regular info
  then scp_bind (sendSCPFile error_string no_fail in_end path info false) (fun _ => scp_ret (Some ()))
  else scp_ret (Some ()).

Scheme presents_node_ind := Minimality for presents Sort Prop
  with presents_list_ind := Minimality for presents_entries Sort Prop.
Combined Scheme presents_both_ind from presents_node_ind, presents_list_ind.

Definition entries_ok (entries : list (string * tree)) : Prop :=
  Forall plain_name entries.*1 ∧ Forall (fun e => tree_ok e.2) entries.

Lemma send_entries_step fuel path name info l :
  path ≠ "" → plain_name name → ∀ t n2 d2,
  emits (send_node fuel (path_Join [path; name]) info) (acks t) (wire name t) (Some ()) →
  emits (send_entries error_string no_fail in_end
           (fun child i => sendSCPDir error_string no_fail in_end fuel child i false) path false l) n2 d2 (Some ()) →
  emits (send_entries error_string no_fail in_end
           (fun child i => sendSCPDir error_string no_fail in_end fuel child i false) path false
           ((name, Ok info) :: l)) (acks t + n2) (wire name t +:+ d2) (Some ()).
Proof.
  intros Hp Hn t n2 d2 H1 H2 st rest Hs Hin.
  destruct (emits_bind _
    (fun r : option unit => match r with
              | None => scp_ret None
              | Some _ => send_entries error_string no_fail in_end
                  (fun child i => sendSCPDir error_string no_fail in_end fuel child i false) path false l
              end) _ _ _ _ _ _ H1 H2 st rest Hs Hin) as [w Hrun].
  exists w. rewrite <-Hrun. cbn [send_entries or_ack]. unfold scp_bind at 1. simpl.
  unfold send_node. destruct (fi_dir info); [done|]. destruct (fi_regular info); [|done].
  unfold scp_bind, scp_ret. by destruct (sendSCPFile _ _ _ _ _ _ st) as [[[]|] ?].
Qed.

Lemma send_node_emits :
  (∀ path info t, presents s path info t → tree_ok t → path ≠ "" → ∀ fuel, (depth t ≤ fuel)%nat →
     emits (send_node fuel path info) (acks t) (wire (path_Base path) t) (Some ())) ∧
  (∀ path l entries, presents_entries s path l entries → entries_ok entries → path ≠ "" →
     ∀ fuel, (foldr (fun e n => depth e.2 `max` n) 0 entries ≤ fuel)%nat →
     emits (send_entries error_string no_fail in_end
              (fun child i => sendSCPDir error_string no_fail in_end fuel child i false) path false l)
       (foldr (fun e n => acks e.2 + n) 0 entries)%nat (foldr (fun e s => wire e.1 e.2 +:+ s) "" entries)
       (Some ())).
Proof.
  apply presents_both_ind.
  - intros path info data Hd Hr Hsize Hread _ _ fuel _. unfold send_node. rewrite Hd, Hr.
    eapply emits_eq; [eapply emits_bind; [by apply sendSCPFile_emits|apply emits_ret]|done|].
    by rewrite sapp_nil_r.
  - intros path info l entries Hd Hread _ IH Hok Hpath [|fuel] Hfuel; [simpl in Hfuel; lia|].
    apply tree_ok_dir in Hok as (_ & Hpl & Hoks). unfold send_node. rewrite Hd. cbn [sendSCPDir].
    eapply emits_eq.
    + eapply emits_bind; [apply emits_ret|]. eapply emits_bind; [apply emits_write|].
      eapply emits_bind; [apply emits_response|]. eapply emits_ask_then; [exact Hread|].
      eapply emits_bind; [apply IH; [by split|done|simpl in Hfuel; lia]|].
      eapply emits_bind; [apply emits_write|]. eapply emits_bind; [apply emits_response|apply emits_ret].
    + simpl. lia.
    + cbn [wire]. unfold dir_header. by rewrite ?sapp_nil_l, ?sapp_nil_r, <-?sapp_assoc.
  - intros path info Hd Hr _ _ fuel _. unfold send_node. rewrite Hd, Hr. apply emits_ret.
  - intros path _ _ fuel _. apply emits_ret.
  - intros path name info l t entries _ IHt _ IHl [Hpl Hoks] Hpath fuel Hfuel.
    inversion Hpl; inversion Hoks; simplify_eq/=.
    apply send_entries_step; [done..| |apply IHl; [by split|done|lia]].
    rewrite <-(path_Base_join path name) at 2 by done.
    apply IHt; [done|by apply path_Join_nonempty|lia].
Qed.
End Source.

(** ** The sink *)

Lemma TrimSuffix_eol line : TrimSuffix (line +:+ String newline "") (String newline "") = line.
Proof.
  unfold TrimSuffix. rewrite (proj2 (HasSuffix_spec _ _)) by eauto. rewrite slen_app. cbn [slen String.length].
  replace (slen line + 1 - 1)%nat with (slen line) by lia. apply stake_app.
Qed.

Section SinkSide.
Context `{OS} (error_string : error → string) (in_end : error).

(** Reading [input], [m] makes exactly the calls [calls], all of which succeed, acknowledges [n]
    times and returns [a]. *)
Definition does {A} (m : scp A) (input : string) (n : nat) (calls : list osCall) (a : A) : Prop :=
  ∀ st rest s', s_in st = input +:+ rest → do_calls (s_os st) calls = Some s' →
  ∃ w, m st = (Ok a, mkScpState rest (s_out st +:+ zeros n) w s' (s_log st ++ calls)).

Lemma does_bind {A B} (m : scp A) (f : A → scp B) i1 i2 n1 n2 c1 c2 a b :
  does m i1 n1 c1 a → does (f a) i2 n2 c2 b →
  does (scp_bind m f) (i1 +:+ i2) (n1 + n2) (c1 ++ c2) b.
Proof.
  intros Hm Hf st rest s' Hin Hc. rewrite <-sapp_assoc in Hin. rewrite do_calls_app in Hc.
  destruct (do_calls (s_os st) c1) as [s1|] eqn:Hc1; [|done]. simpl in Hc.
  destruct (Hm st _ s1 Hin Hc1) as [w1 E1].
  destruct (Hf (mkScpState (i2 +:+ rest) (s_out st +:+ zeros n1) w1 s1 (s_log st ++ c1)) rest s' eq_refl Hc)
    as [w2 E2].
  exists w2. unfold scp_bind. rewrite E1, E2. simpl. by rewrite <-sapp_assoc, zeros_add, (assoc_L (++)).
Qed.

Lemma does_eq {A} (m : scp A) i i' n n' c c' a :
  does m i n c a → i = i' → n = n' → c = c' → does m i' n' c' a.
Proof. by intros ? <- <- <-. Qed.

Lemma does_ret {A} (a : A) : does (scp_ret a) "" 0 [] a.
Proof.
  intros [] rest s' Hin [= Hs]. simpl in *. subst. eexists. unfold scp_ret.
  by rewrite sapp_nil_r, app_nil_r.
Qed.

Lemma does_ack : does (writeSCPAck error_string no_fail None) "" 1 [] ().
Proof.
  intros [] rest s' Hin [= Hs]. simpl in *. subst. eexists. unfold writeSCPAck, out_Write. simpl.
  by rewrite app_nil_r.
Qed.

Lemma does_try {A} (m : scp A) i n c a : does m i n c a → does (scp_try m) i n c (Ok a).
Proof.
  intros Hm st rest s' Hin Hc. destruct (Hm st rest s' Hin Hc) as [w E]. exists w.
  unfold scp_try. by rewrite E.
Qed.

Lemma does_os c f :
  (∀ s s', do_call s c = Some s' → f s = (s', None)) → does (os_do c f) "" 0 [c] ().
Proof.
  intros Hf [] rest s' Hin Hc. simpl in *. subst. unfold os_do. simpl.
  destruct (do_call _ c) as [s1|] eqn:E; simplify_eq/=. rewrite (Hf _ _ E), sapp_nil_r. by eexists.
Qed.

Lemma does_call c f :
  f = (fun s => match c with
                | CallMkdirAll p mode => os_MkdirAll s p mode
                | CallCreate p mode => os_Create s p mode
                | CallAppend p d => os_Append s p d
                | CallClose p => os_CloseFile s p
                | CallChtimes p a m => os_Chtimes s p a m
                end) → does (os_do c f) "" 0 [c] ().
Proof.
  intros ->. apply does_os. intros s s'. unfold do_call.
  by destruct c; (destruct (_ : osState * option error) as [? []]; intros [= <-]).
Qed.

Lemma does_byte b : does (ReadByte in_end) (String b "") 0 [] b.
Proof.
  intros [] rest s' Hin [= Hs]. simpl in *. subst. unfold ReadByte. simpl. eexists.
  by rewrite sapp_nil_r, app_nil_r.
Qed.

Lemma does_copy dest data :
  does (CopyN in_end dest (Z.of_nat (slen data))) data 0
    (if bool_decide (data = "") then [] else [CallAppend dest data]) ().
Proof.
  intros [] rest s' Hin Hc. simpl in *. subst. unfold CopyN. simpl.
  rewrite (bool_decide_eq_true_2 (Z.of_nat (slen data) ≤ _)) by (rewrite slen_app; lia).
  rewrite Nat2Z.id, stake_app, sdrop_app. case_bool_decide as Hd.
  - simplify_eq/=. eexists. by rewrite sapp_nil_r, app_nil_r.
  - unfold os_do. cbn [do_calls] in Hc. unfold do_call in Hc. simpl in *.
    destruct (os_Append s_os dest data) as [s1 [e|]]; simplify_eq/=. rewrite sapp_nil_r. by eexists.
Qed.

Lemma does_receive dest perm data :
  does (receiveSCPFile error_string no_fail in_end dest perm (Z.of_nat (slen data)) None)
    (data +:+ zero_byte) 2 (script dest (TFile perm data)) ().
Proof.
  unfold receiveSCPFile. eapply does_eq.
  - eapply does_bind; [apply does_ack|].
    eapply does_bind; [apply does_try; by apply does_call|]. cbv iota.
    eapply does_bind; [apply does_try, does_copy|].
    eapply does_bind; [apply does_try; by apply does_call|]. cbv iota.
    eapply does_bind; [apply (does_byte "000")|]. rewrite bool_decide_eq_true_2 by done.
    eapply does_bind; [apply does_ret|apply does_ack].
  - by rewrite ?sapp_nil_l, ?sapp_nil_r.
  - done.
  - simpl. by rewrite ?app_nil_r.
Qed.

Context (targetIsDir : bool).

(** The loop reads [input] and goes on. *)
Definition absorbs (v : sinkVars) (input : string) (n : nat) (calls : list osCall) (v' : sinkVars) : Prop :=
  ∃ k, (k ≤ slen input)%nat ∧ ∀ st rest s',
    s_in st = input +:+ rest → do_calls (s_os st) calls = Some s' →
    ∃ w, ∀ fuel, sink_loop error_string no_fail in_end (k + fuel) targetIsDir v st =
      sink_loop error_string no_fail in_end fuel targetIsDir v'
        (mkScpState rest (s_out st +:+ zeros n) w s' (s_log st ++ calls)).

Lemma absorbs_nil v : absorbs v "" 0 [] v.
Proof.
  exists 0%nat. split; [simpl; lia|]. intros [] rest s' Hin [= Hs]. simpl in *. subst. eexists.
  intros fuel. by rewrite sapp_nil_r, app_nil_r.
Qed.

Lemma absorbs_app v v1 v2 i1 i2 n1 n2 c1 c2 :
  absorbs v i1 n1 c1 v1 → absorbs v1 i2 n2 c2 v2 → absorbs v (i1 +:+ i2) (n1 + n2) (c1 ++ c2) v2.
Proof.
  intros (k1 & Hk1 & H1) (k2 & Hk2 & H2). exists (k1 + k2)%nat. split; [rewrite slen_app; lia|].
  intros st rest s' Hin Hc. rewrite <-sapp_assoc in Hin. rewrite do_calls_app in Hc.
  destruct (do_calls (s_os st) c1) as [s1|] eqn:Hc1; [|done]. simpl in Hc.
  destruct (H1 st _ s1 Hin Hc1) as [w1 E1].
  destruct (H2 (mkScpState (i2 +:+ rest) (s_out st +:+ zeros n1) w1 s1 (s_log st ++ c1)) rest s' eq_refl Hc)
    as [w2 E2].
  exists w2. intros fuel. rewrite <-Nat.add_assoc, E1, E2. simpl.
  by rewrite <-sapp_assoc, zeros_add, (assoc_L (++)).
Qed.

Lemma absorbs_line v line payload n calls v' :
  ContainsByte line newline = false →
  does (sink_command error_string no_fail in_end targetIsDir v line) payload n calls v' →
  absorbs v ((line +:+ eol) +:+ payload) n calls v'.
Proof.
  intros Hline Hdoes. exists 1%nat. split; [rewrite !slen_app; simpl; lia|].
  intros st rest s' Hin Hc.
  destruct (Hdoes (mkScpState (payload +:+ rest) (s_out st) (s_writes st) (s_os st) (s_log st)) rest s'
              eq_refl Hc) as [w E].
  exists w. intros fuel. simpl. unfold ReadString. rewrite Hin.
  replace (((line +:+ eol) +:+ payload) +:+ rest) with (line +:+ String newline (payload +:+ rest))
    by by rewrite <-!sapp_assoc.
  rewrite Cut_app by done.
  rewrite TrimSuffix_eol. by rewrite E.
Qed.

Lemma sink_path_inner d dirs name :
  dirs ≠ [] → sink_path targetIsDir (d :: dirs) name = path_Join [d; name].
Proof.
  intros Hne. unfold sink_path. rewrite (bool_decide_eq_true_2 (1 < length (d :: dirs))%nat), orb_true_r; [done|].
  destruct dirs; simpl; [done|lia].
Qed.

Lemma does_file_line dirs name perm data :
  sendable_name name → 0 ≤ perm < 512 → Z.of_nat (slen data) < 2 ^ 63 →
  does (sink_command error_string no_fail in_end targetIsDir (mkSinkVars dirs None)
          (file_header perm (Z.of_nat (slen data)) name)) (data +:+ zero_byte) 2
    (script (sink_path targetIsDir dirs name) (TFile perm data)) (mkSinkVars dirs None).
Proof.
  intros [Hname _] Hperm Hsize. pose proof (parse_file_header perm (Z.of_nat (slen data)) name) as Hparse.
  unfold file_header in *. change ("C" +:+ ?x) with (String "C" x) in *. unfold sink_command.
  rewrite !bool_decide_eq_false_2 by done. rewrite (bool_decide_eq_true_2 ("C"%char = "C"%char)) by done.
  rewrite Hparse by lia. eapply does_eq.
  - eapply does_bind; [apply does_ret|]. cbn [fst snd]. rewrite cleanSCPName_ok by done.
    eapply does_bind; [apply does_ret|]. eapply does_bind; [apply does_receive|apply does_ret].
  - by rewrite ?sapp_nil_l, ?sapp_nil_r.
  - done.
  - by rewrite app_nil_r.
Qed.

Lemma does_dir_line dirs name perm :
  sendable_name name → 0 ≤ perm < 512 →
  does (sink_command error_string no_fail in_end targetIsDir (mkSinkVars dirs None) (dir_header perm name))
    "" 1 [CallMkdirAll (sink_path targetIsDir dirs name) perm]
    (mkSinkVars (sink_path targetIsDir dirs name :: dirs) None).
Proof.
  intros [Hname _] Hperm. pose proof (parse_dir_header perm name Hperm) as Hparse.
  unfold dir_header in *. change ("D" +:+ ?x) with (String "D" x) in *. unfold sink_command.
  rewrite bool_decide_eq_false_2 by done. rewrite (bool_decide_eq_true_2 ("D"%char = "D"%char)) by done.
  rewrite Hparse. eapply does_eq.
  - eapply does_bind; [apply does_ret|]. cbn [fst snd]. rewrite cleanSCPName_ok by done.
    eapply does_bind; [apply does_ret|]. eapply does_bind; [apply does_try; by apply does_call|].
    eapply does_bind; [apply does_ret|]. eapply does_bind; [apply does_ret|].
    eapply does_bind; [apply does_ack|apply does_ret].
  - by rewrite ?sapp_nil_l, ?sapp_nil_r.
  - done.
  - done.
Qed.

Lemma does_end_line d dirs :
  dirs ≠ [] → does (sink_command error_string no_fail in_end targetIsDir (mkSinkVars (d :: dirs) None) "E")
    "" 1 [] (mkSinkVars dirs None).
Proof.
  intros Hne. unfold sink_command. rewrite !bool_decide_eq_false_2 by done.
  rewrite (bool_decide_eq_true_2 ("E"%char = "E"%char)) by done.
  rewrite (bool_decide_eq_true_2 (1 < _)%nat) by (destruct dirs; simpl; [done|lia]).
  eapply does_eq; [eapply does_bind; [apply does_ack|apply does_ret]|done..].
Qed.

Lemma absorbs_tree t name dirs :
  sendable t → sendable_name name → dirs ≠ [] →
  absorbs (mkSinkVars dirs None) (wire name t) (acks t)
    (script (sink_path targetIsDir dirs name) t) (mkSinkVars dirs None).
Proof.
  revert name dirs. induction t as [perm data|perm entries IH|] using tree_rect'; intros name dirs Hs Hn Hd.
  - destruct Hs as [Hp Hz]. apply absorbs_line; [apply file_header_one_line; [lia|apply Hn]|].
    by apply does_file_line.
  - apply sendable_dir in Hs as (Hp & Hnames & Hsub). cbn [wire acks script].
    set (dir := sink_path targetIsDir dirs name).
    rewrite <-(app_nil_r (flat_map _ _)). change (CallMkdirAll dir perm :: ?l) with ([CallMkdirAll dir perm] ++ l).
    eapply (absorbs_app _ (mkSinkVars (dir :: dirs) None)).
    { rewrite <-(sapp_nil_r (dir_header perm name +:+ eol)). apply absorbs_line.
      - apply dir_header_one_line, Hn.
      - by apply does_dir_line. }
    eapply (absorbs_app _ (mkSinkVars (dir :: dirs) None)).
    + clear Hn. induction IH as [|[n t] l Ht Hl IHl]; [apply absorbs_nil|].
      inversion Hnames; inversion Hsub; simplify_eq/=. apply absorbs_app with (v1 := mkSinkVars (dir :: dirs) None).
      * rewrite <-sink_path_inner with (dirs := dirs) by done. by apply Ht.
      * by apply IHl.
    + rewrite <-(sapp_nil_r ("E" +:+ eol)). by apply (absorbs_line _ "E"); [|apply does_end_line].
  - apply absorbs_nil.
Qed.
End SinkSide.

(** ** Theorems *)

Lemma runSCPSource_sends `{OS} error_string src opts info t :
  os_Stat src (scp_target opts) = Ok info → presents src (scp_target opts) info t →
  t ≠ TOther → tree_ok t → scp_target opts ≠ "" → scp_recursive opts = true → scp_preserve opts = false →
  emits src (runSCPSource error_string no_fail (ESentinel io_EOF) (depth t) opts) (1 + acks t)
    (wire (path_Base (scp_target opts)) t) (Some ()).
Proof.
  intros Hstat Hpres Hother Hok Hne Hrec Hkeep. unfold runSCPSource. rewrite Hkeep.
  eapply emits_eq; [eapply emits_bind; [apply emits_response|]|done|apply sapp_nil_l].
  eapply emits_ask_then; [exact Hstat|].
  pose proof (proj1 (send_node_emits error_string (ESentinel io_EOF) src) _ _ _ Hpres Hok Hne (depth t)
                ltac:(done)) as Hsend.
  unfold send_node in Hsend. rewrite Hrec. destruct (fi_dir info) eqn:Hdir; [exact Hsend|].
  destruct (fi_regular info) eqn:Hreg; [exact Hsend|]. inversion Hpres; subst; congruence.
Qed.

(** C15: a helper source and a helper sink connected to each other copy a tree.  Let the source's
    file system show the tree [t] at its target (names plain, distinct and without line breaks,
    sizes below 2^63), without [-p].  Then the source, answered with good responses, sends some
    bytes and reads exactly as many responses as the sink gives to these bytes; and the sink, fed
    them, creates precisely the tree: in the target if that is a directory, else as the target
    itself.  Contents are the same, permissions up to the umask, nothing else changes, and both end
    without error. *)
Theorem scp_roundtrip `{Src : OS} error_string src osrc odst info t (s : memFS) p name :
  let base := path_Base (scp_target osrc) in
  let dest := sink_path (@isDir memOS s (scp_target odst)) [scp_target odst] base in
  os_Stat src (scp_target osrc) = Ok info → presents src (scp_target osrc) info t → t ≠ TOther →
  tree_ok t → sendable t → sendable_name base →
  scp_target osrc ≠ "" → scp_recursive osrc = true → scp_preserve osrc = false →
  scp_target odst ≠ "" → resolve (fs_cwd s) dest = p ++ [name] → room s (p ++ [name]) →
  ∃ sent responses w w' (s' : memFS),
    runSCPSource error_string no_fail (ESentinel io_EOF) (depth t) osrc (mkScpState responses "" 0 src []) =
      (Ok (Some ()), mkScpState "" sent w src []) ∧
    @runSCPSink memOS error_string no_fail (ESentinel io_EOF) (S (slen sent)) odst (@mkScpState memOS sent "" 0 s []) =
      Some (Ok (), @mkScpState memOS "" responses w' s' (script dest t)) ∧
    view s' = install (fs_umask s) (p ++ [name]) t (view s).
Proof.
  intros base dest Hstat Hpres Hother Hok Hsend Hbase Hsrc Hrec Hkeep Hdst Hres Hroom.
  destruct (runSCPSource_sends error_string src osrc info t Hstat Hpres Hother Hok Hsrc Hrec Hkeep
              (mkScpState (zeros (1 + acks t)) "" 0 src []) "" eq_refl) as [w Hrun].
  { by rewrite sapp_nil_r. }
  destruct (script_installs t s dest p name Hok) as (s' & Hcalls & _ & Hview); [|done..|].
  { unfold dest, sink_path. destruct (_ || _); [|done]. apply path_Join_nonempty; [done|apply Hbase]. }
  destruct (@absorbs_tree memOS error_string (ESentinel io_EOF) (@isDir memOS s (scp_target odst)) t base
              [scp_target odst] Hsend Hbase) as (k & Hk & Habs); [done|].
  set (sent := wire base t) in *.
  destruct (Habs (@mkScpState memOS sent zero_byte 1 s []) "" s') as [w' Hloop]; [by rewrite sapp_nil_r|done|].
  exists sent, (zeros (1 + acks t)), w, w', s'. split_and!; [exact Hrun| |exact Hview].
  transitivity (@sink_loop memOS error_string no_fail (ESentinel io_EOF) (S (slen sent))
    (@isDir memOS s (scp_target odst)) (mkSinkVars [scp_target odst] None)
    (@mkScpState memOS sent zero_byte 1 s [])); [done|].
  replace (S (slen sent)) with (k + S (slen sent - k))%nat by lia. by rewrite Hloop.
Qed.

(** *** A concrete transfer *)

Definition demo_tree : tree :=
  TDir 493 [("a.txt", TFile 420 "hello"); ("sub", TDir 448 [("empty", TFile 384 "")])].

Definition demo_source : @osState memOS :=
  mkMemFS (list_to_map
    [(["src"], mkMemNode 493 KDir 5); (["src"; "d"], mkMemNode 493 KDir 5);
     (["src"; "d"; "a.txt"], mkMemNode 420 (KFile "hello") 7);
     (["src"; "d"; "sub"], mkMemNode 448 KDir 8);
     (["src"; "d"; "sub"; "empty"], mkMemNode 384 (KFile "") 9)]) [] 18 100.

Definition demo_sink : @osState memOS := mkMemFS {[["tmp"] := mkMemNode 493 KDir 1]} [] 18 100.

Lemma demo_presents :
  presents demo_source "/src/d" (mkFileInfo 493 true false 0 5) demo_tree.
Proof.
  eapply (presents_dir demo_source "/src/d" (mkFileInfo 493 true false 0 5)); [done|vm_compute; reflexivity|].
  constructor; [|constructor; [|constructor]].
  - apply (presents_file demo_source _ (mkFileInfo 420 false true 5 7)); vm_compute; reflexivity.
  - eapply (presents_dir demo_source _ (mkFileInfo 448 true false 0 8)); [done|vm_compute; reflexivity|].
    constructor; [|constructor].
    apply (presents_file demo_source _ (mkFileInfo 384 false true 0 9)); vm_compute; reflexivity.
Qed.

Lemma demo_sendable : sendable demo_tree.
Proof.
  apply sendable_dir. split_and!; [lia..|by refine (bool_decide_eq_true_1 _ _)|].
  constructor; [simpl; lia|]. constructor; [|done].
  apply sendable_dir. split_and!; [lia..|by refine (bool_decide_eq_true_1 _ _)|].
  constructor; [simpl; lia|done].
Qed.

Lemma demo_room : room demo_sink ["tmp"; "d"].
Proof.
  split.
  - intros [|[|k]] Hk; [done|done|simpl in Hk; lia].
  - intros q. by apply (lookup_singleton_ne (M := gmap (list string))).
Qed.

Lemma scp_roundtrip_witness :
  ∃ sent responses w w' s',
    runSCPSource (fun _ => "e") no_fail (ESentinel io_EOF) (depth demo_tree)
      (mkScpOptions true false true false "/src/d") (mkScpState responses "" 0 demo_source []) =
      (Ok (Some ()), mkScpState "" sent w demo_source []) ∧
    runSCPSink (fun _ => "e") no_fail (ESentinel io_EOF) (S (slen sent))
      (mkScpOptions false true true false "/tmp") (mkScpState sent "" 0 demo_sink []) =
      Some (Ok (), mkScpState "" responses w' s' (script "/tmp/d" demo_tree)) ∧
    view s' = install 18 ["tmp"; "d"] demo_tree (view demo_sink).
Proof.
  apply (scp_roundtrip (fun _ => "e") demo_source (mkScpOptions true false true false "/src/d")
           (mkScpOptions false true true false "/tmp") (mkFileInfo 493 true false 0 5) demo_tree
           demo_sink ["tmp"] "d"); try done.
  - apply demo_presents.
  - apply tree_ok_dir. split_and!; vm_compute; repeat constructor; set_solver.
  - apply demo_sendable.
  - apply demo_room.
Defined.

(** ** Times *)

(** The first bytes of white space. *)
Definition space_starts : list ascii :=
  Stdlib.Strings.Ascii.ascii_of_N <$> [9; 10; 11; 12; 13; 32; 194; 225; 226; 227]%N.

(** A word without white space. *)
Definition word (w : string) : Prop := Forall (fun c => ContainsByte w c = false) space_starts.

#[export] Instance word_dec w : Decision (word w).
Proof. unfold word. apply _. Defined.

Lemma word_app a b : word a → word b → word (a +:+ b).
Proof.
  unfold word. rewrite !Forall_forall. intros Ha Hb c Hc. by rewrite ContainsByte_app, Ha, Hb.
Qed.

Lemma word_FormatInt n : word (FormatInt n).
Proof.
  assert (∀ m, word (FormatUint m 10)) as Hu.
  { intros m. apply Forall_forall. intros c Hc. apply FormatUint_no_byte; [lia|].
    revert c Hc. apply Forall_forall. vm_compute. repeat constructor. }
  unfold FormatInt. case_bool_decide; [|done]. apply (word_app "-"); [|done].
  by refine (bool_decide_eq_true_1 _ _).
Qed.

Lemma not_space_start c s : word (String c "") → find_first (HasPrefix (String c s)) space_encodings = None.
Proof.
  intros Hw. apply find_first_None, Forall_forall. intros e He. apply not_true_is_false.
  intros (t & Ht)%HasPrefix_spec. unfold word in Hw. rewrite Forall_forall in Hw.
  assert (∃ b e', e = String b e' ∧ b ∈ space_starts) as (b & e' & -> & Hb).
  { revert e He Ht. clear. intros e He _. revert e He. apply Forall_forall.
    repeat (constructor; [eexists _, _; split; [vm_compute; reflexivity|]; vm_compute; set_solver|]).
    constructor. }
  rewrite sapp_cons in Ht. injection Ht as -> _. specialize (Hw b Hb). simpl in Hw.
  by rewrite bool_decide_eq_true_2 in Hw.
Qed.

Lemma fields_go_word fuel cur w rest :
  word w → fields_go (slen w + fuel) cur (w +:+ rest) = fields_go fuel (cur +:+ w) rest.
Proof.
  revert cur. induction w as [|c w IH]; intros cur Hw; [by rewrite sapp_nil_r|].
  assert (word (String c "") ∧ word w) as [Hc Hr].
  { unfold word in *. rewrite !Forall_forall in *. split; intros d Hd; specialize (Hw d Hd); simpl in *;
      apply orb_false_iff in Hw as [Hw1 Hw2]; by rewrite ?Hw1. }
  rewrite sapp_cons. cbn [slen String.length Nat.add fields_go]. rewrite not_space_start by done.
  rewrite IH by done. by rewrite <-sapp_assoc.
Qed.

Lemma fields_go_space fuel cur rest :
  fields_go (S fuel) cur (String " " rest) =
  (if bool_decide (cur = "") then [] else [cur]) ++ fields_go fuel "" rest.
Proof. done. Qed.

(** Four words are four fields. *)
Lemma Fields_four a b c d :
  word a → word b → word c → word d → a ≠ "" → b ≠ "" → c ≠ "" → d ≠ "" →
  Fields (a +:+ String " " (b +:+ String " " (c +:+ String " " d))) = [a; b; c; d].
Proof.
  intros Ha Hb Hc Hd Ha' Hb' Hc' Hd'. unfold Fields. rewrite !slen_app. cbn [slen String.length].
  rewrite !slen_app. cbn [slen String.length]. rewrite !slen_app. cbn [slen String.length].
  rewrite fields_go_word, fields_go_space by done. rewrite sapp_nil_l, bool_decide_eq_false_2 by done.
  rewrite fields_go_word, fields_go_space by done. rewrite sapp_nil_l, bool_decide_eq_false_2 by done.
  rewrite fields_go_word, fields_go_space by done. rewrite sapp_nil_l, bool_decide_eq_false_2 by done.
  rewrite <-(sapp_nil_r d) at 2. fold (slen d). rewrite <-(Nat.add_0_r (slen d)).
  rewrite fields_go_word by done. rewrite sapp_nil_l. simpl. by rewrite bool_decide_eq_false_2.
Qed.

(** The time header of the protocol: modification and access time with microseconds. *)
Definition times_header (mtime atime : Z) : string :=
  "T" +:+ FormatInt mtime +:+ " 0 " +:+ FormatInt atime +:+ " 0".

Lemma times_header_rejected mtime atime :
  parseSCPTimes (times_header mtime atime) = Err (Errorf "invalid scp time header %q" [times_header mtime atime]).
Proof.
  assert (times_header mtime atime =
    ("T" +:+ FormatInt mtime) +:+ String " " ("0" +:+ String " " (FormatInt atime +:+ String " " "0"))) as Heq.
  { unfold times_header. by rewrite <-sapp_assoc. }
  unfold parseSCPTimes. rewrite Heq at 1. rewrite Fields_four; [done|..]; try done.
  - apply word_app; [by refine (bool_decide_eq_true_1 _ _)|apply word_FormatInt].
  - by refine (bool_decide_eq_true_1 _ _).
  - apply word_FormatInt.
  - by refine (bool_decide_eq_true_1 _ _).
  - unfold FormatInt. case_bool_decide; [done|]. apply FormatUint_not_nil.
Qed.

(** C40: times are never transferred.  With [-p] a source announces every file and directory with
    the protocol's time header of four fields, and the sink, which wants five, refuses each such
    header: it answers with an error, ends the transfer and has changed nothing. *)
Theorem scp_times_rejected `{OS} error_string in_end info tid v fuel st rest :
  (∀ s, emits s (sendSCPTimes no_fail in_end info) 1
     (times_header (fi_mtime info) (fi_mtime info) +:+ eol) ()) ∧
  ∀ mtime atime, s_in st = times_header mtime atime +:+ eol +:+ rest →
    ∃ w, sink_loop error_string no_fail in_end (S fuel) tid v st =
      let e := Errorf "invalid scp time header %q" [times_header mtime atime] in
      Some (Err e, mkScpState rest (s_out st +:+ String "001" (error_string e +:+ eol)) w (s_os st) (s_log st)).
Proof.
  split.
  - intros s. unfold sendSCPTimes. eapply emits_eq.
    + eapply emits_bind; [apply emits_write|apply emits_response].
    + done.
    + unfold times_header. by rewrite ?sapp_nil_r, <-?sapp_assoc.
  - intros mtime atime Hin. exists (S (s_writes st)). simpl. unfold ReadString. rewrite Hin.
    assert (ContainsByte (times_header mtime atime) newline = false) as Hline.
    { unfold times_header. rewrite !ContainsByte_app.
      assert (∀ n, ContainsByte (FormatInt n) newline = false) as Hf; [|by rewrite !Hf].
      intros n. pose proof (word_FormatInt n) as Hw. unfold word in Hw. rewrite Forall_forall in Hw.
      apply Hw. vm_compute. set_solver. }
    change (eol +:+ rest) with (String newline rest). rewrite Cut_app by done.
    rewrite TrimSuffix_eol.
    pose proof (times_header_rejected mtime atime) as Hrej.
    unfold times_header in *. change ("T" +:+ ?x) with (String "T" x) in *. unfold sink_command.
    rewrite (bool_decide_eq_true_2 ("T"%char = "T"%char)) by done. by rewrite Hrej.
Qed.

Lemma scp_times_rejected_witness :
  s_in (mkScpState (times_header 1700000000 1700000000 +:+ eol +:+ "") zero_byte 1 demo_sink []) =
    times_header 1700000000 1700000000 +:+ eol +:+ "" ∧
  ∃ w, sink_loop (fun _ => "e") no_fail (ESentinel io_EOF) 1 true (mkSinkVars ["/tmp"] None)
         (mkScpState (times_header 1700000000 1700000000 +:+ eol +:+ "") zero_byte 1 demo_sink []) =
    Some (Err (Errorf "invalid scp time header %q" [times_header 1700000000 1700000000]),
          mkScpState "" (zero_byte +:+ String "001" ("e" +:+ eol)) w demo_sink []).
Proof.
  split; [done|].
  apply (proj2 (scp_times_rejected (fun _ => "e") (ESentinel io_EOF) (mkFileInfo 420 false true 5 7) true
                  (mkSinkVars ["/tmp"] None) 0
                  (mkScpState (times_header 1700000000 1700000000 +:+ eol +:+ "") zero_byte 1 demo_sink []) "")).
  done.
Defined.

Lemma scp_sink_confined_witness :
  ∃ opts r st',
    parseSCPOptions ["-r"; "-t"; "/tmp"] = Ok opts ∧
    runSCPSink (fun _ => "e") no_fail (ESentinel io_EOF) 21 opts
      (mkScpState ("C0644 2 ../evil" +:+ eol +:+ "hi" +:+ zero_byte) "" 0 demo_sink []) = Some (r, st') ∧
    ∀ c, c ∈ s_log st' → ∃ names, Forall plain_name names ∧
      ∀ cwd, resolve cwd (call_path c) = resolve cwd (scp_target opts) ++ names.
Proof.
  exists (mkScpOptions false true true false "/tmp").
  destruct (scp_sink_confined (fun _ => "e") no_fail (ESentinel io_EOF) ["-r"; "-t"; "/tmp"]
              (mkScpOptions false true true false "/tmp")
              (mkScpState ("C0644 2 ../evil" +:+ eol +:+ "hi" +:+ zero_byte) "" 0 demo_sink [])
              eq_refl eq_refl eq_refl) as (r & st' & Hrun & Hall).
  exists r, st'. split; [reflexivity|]. split; [exact Hrun|exact Hall].
Defined.
