(* ===== verification/SpdyRpc.v ===== *)
(** Model of [src/pkg/spdyrpc]: RPC and streams between the gateway and the in-Pod helper over one
    SPDY connection.

    Requests and responses are functions; JSON texts go through the class [RPCCodec], whose laws are
    what [encoding/json] documents for these structures.  The connection is shared by [Serve], the
    goroutines it starts and its users: its life is a step relation whose steps are the regions
    locked by [mu] and the actions between them. *)

From S2P Require Import Prelude GoStrings GoStrconv.

(** ** [transport.go] *)

Definition StreamTypeHeader := "StreamType".
Definition StreamTypeControl := "Control".

Record rpcRequest := mkRpcRequest { req_Method : string; req_Payload : string }.
Record rpcResponse := mkRpcResponse { resp_OK : bool; resp_Error : string; resp_Payload : string }.

(** A Go value to be encoded: nil, or what [json.Marshal] makes of it. *)
Definition goAny : Type := option (result string).

Definition newRPCRequest (method : string) (payload : goAny) : result rpcRequest :=
  match payload with
  | None => Ok (mkRpcRequest method "")
  | Some data => data ← data; Ok (mkRpcRequest method data)
  end.

(** [out] is nil or the decoder of the value it points to; the result is the value it then has. *)
Definition decodeRPCResponse {A} (method : string) (response : rpcResponse)
    (out : option (string → result A)) : result (option A) :=
  if negb (resp_OK response)
  then Err (Errorf "RPC request %q failed: %s" [method; resp_Error response])
  else match out with
       | None => Ok None
       | Some unmarshal =>
           if bool_decide (resp_Payload response = "") then Ok None
           else Some <$> unmarshal (resp_Payload response)
       end.

(** ** [connection.go]: requests *)

(** A handler: from the payload to a value or an error. *)
Definition Handler : Type := string → result goAny.

Section Requests.
Context (error_string : error → string).

Definition newRPCResponse (payload : goAny) : result rpcResponse :=
  match payload with
  | None => Ok (mkRpcResponse true "" "")
  | Some data => data ← data; Ok (mkRpcResponse true "" data)
  end.

Definition newRPCErrorResponse (err : error) : rpcResponse := mkRpcResponse false (error_string err) "".

(** [serveRPC]: the response written for a decoded request; a stream that ends before one gets
    none. *)
Definition serveRPC (handlers : gmap string Handler) (request : result rpcRequest) : option rpcResponse :=
  match request with
  | Err e => if bool_decide (e = ESentinel io_EOF) then None else Some (newRPCErrorResponse e)
  | Ok request =>
      Some match handlers !! req_Method request with
           | None => newRPCErrorResponse (Errorf "unsupported RPC method %q" [req_Method request])
           | Some handler =>
               match handler (req_Payload request) with
               | Err e => newRPCErrorResponse e
               | Ok payload =>
                   match newRPCResponse payload with
                   | Ok response => response
                   | Err e => newRPCErrorResponse e
                   end
               end
           end
  end.

(** What [Call] waits for: the decoded response, its own context, or the connection's. *)
Inductive callOutcome :=
| CallResponse (response : result rpcResponse)
| CallCancelled (e : error)
| CallConnectionDone.

Inductive streamEnd := StreamReset | StreamClosed.

(** [Call], with the outcomes of creating the stream and of writing the request; the second
    component is what is done to the stream. *)
Definition Call {A} (method : string) (args : goAny) (out : option (string → result A))
    (created : option error) (write : rpcRequest → option error) (outcome : callOutcome)
    : result (option A) * list streamEnd :=
  if bool_decide (method = "") then (Err (Errorf "RPC method is required" []), [])
  else match created with
       | Some e => (Err e, [])
       | None =>
           match newRPCRequest method args with
           | Err e => (Err e, [StreamClosed])
           | Ok request =>
               match write request with
               | Some e => (Err e, [StreamClosed])
               | None =>
                   match outcome with
                   | CallResponse (Err e) => (Err e, [StreamClosed])
                   | CallResponse (Ok response) => (decodeRPCResponse method response out, [StreamClosed])
                   | CallCancelled e => (Err e, [StreamReset; StreamClosed])
                   | CallConnectionDone => (Err (ESentinel ErrConnectionClosed), [StreamReset; StreamClosed])
                   end
               end
           end
       end.
End Requests.

(** [encoding/json] on the two messages: texts in UTF-8 and payloads that are compact JSON come back
    as they were. *)
Class RPCCodec := {
  json_text : string → Prop;
  json_value : string → Prop;
  encodeRequest : rpcRequest → string;
  decodeRequest : string → result rpcRequest;
  encodeResponse : rpcResponse → string;
  decodeResponse : string → result rpcResponse;
  decode_encode_request : ∀ r, json_text (req_Method r) → (req_Payload r = "" ∨ json_value (req_Payload r)) →
    decodeRequest (encodeRequest r) = Ok r;
  decode_encode_response : ∀ r, json_text (resp_Error r) → (resp_Payload r = "" ∨ json_value (resp_Payload r)) →
    decodeResponse (encodeResponse r) = Ok r;
}.

(** A call on a stream that nothing disturbs: the peer decodes the request, serves it, and its
    response is decoded here. *)
Definition undisturbed_call `{RPCCodec} {A} (error_string : error → string) (handlers : gmap string Handler)
    (method : string) (args : goAny) (out : option (string → result A)) : result (option A) :=
  (Call method args out None (fun _ => None)
     (CallResponse
        (match newRPCRequest method args with
         | Err e => Err e
         | Ok request =>
             match serveRPC error_string handlers (decodeRequest (encodeRequest request)) with
             | None => Err (ESentinel io_EOF)
             | Some response => decodeResponse (encodeResponse response)
             end
         end))).1.

(** ** [connection.go]: the connection *)

Inductive connState := connectionNew | connectionServing | connectionClosing | connectionClosed.
#[export] Instance connState_eq_dec : EqDecision connState.
Proof. solve_decision. Defined.

(** How far the one [shutdown] that passed its guard has come: not begun, marked, context cancelled,
    transport closed. *)
Inductive shutdownPhase := ShutdownNone | ShutdownMarked | ShutdownCancelled | ShutdownDone.
#[export] Instance shutdownPhase_eq_dec : EqDecision shutdownPhase.
Proof. solve_decision. Defined.

(** Where [Serve] is.  [ServeClosing] is inside the [shutdown] it performs itself. *)
Inductive servePoint :=
| ServeIdle
| ServeSelect
| ServeStopped (err : option error)
| ServeClosing (err : option error)
| ServeWaiting (err : option error)
| ServeReturned (err : option error).

Record RpcConnection := mkRpcConnection {
  conn_state : connState;
  conn_handlers : gmap string Handler;
  conn_streamHandlers : gmap string nat;
  conn_work : nat;
  conn_cancelled : bool;
  conn_transportClosed : bool;
  conn_fatal : option error;
  conn_shutdown : shutdownPhase;
  conn_serve : servePoint;
}.

Definition newRpcConnection : RpcConnection :=
  mkRpcConnection connectionNew ∅ ∅ 0 false false None ShutdownNone ServeIdle.

Definition set_state (c : RpcConnection) (s : connState) (p : shutdownPhase) : RpcConnection :=
  mkRpcConnection s (conn_handlers c) (conn_streamHandlers c) (conn_work c) (conn_cancelled c)
    (conn_transportClosed c) (conn_fatal c) p (conn_serve c).
Definition set_work (c : RpcConnection) (n : nat) : RpcConnection :=
  mkRpcConnection (conn_state c) (conn_handlers c) (conn_streamHandlers c) n (conn_cancelled c)
    (conn_transportClosed c) (conn_fatal c) (conn_shutdown c) (conn_serve c).
Definition set_serve (c : RpcConnection) (s : connState) (p : servePoint) : RpcConnection :=
  mkRpcConnection s (conn_handlers c) (conn_streamHandlers c) (conn_work c) (conn_cancelled c)
    (conn_transportClosed c) (conn_fatal c) (conn_shutdown c) p.
Definition set_fatal (c : RpcConnection) (f : option error) : RpcConnection :=
  mkRpcConnection (conn_state c) (conn_handlers c) (conn_streamHandlers c) (conn_work c) (conn_cancelled c)
    (conn_transportClosed c) f (conn_shutdown c) (conn_serve c).

(** [Register]; a nil handler is [None]. *)
Definition Register_ (c : RpcConnection) (method : string) (handler : option Handler)
    : RpcConnection * option error :=
  if bool_decide (method = "") then (c, Some (Errorf "RPC method is required" []))
  else match handler with
       | None => (c, Some (Errorf "RPC handler for %q is nil" [method]))
       | Some handler =>
           if negb (bool_decide (conn_state c = connectionNew))
           then (c, Some (ESentinel ErrConnectionStarted))
           else match conn_handlers c !! method with
                | Some _ => (c, Some (Errorf "RPC handler for %q is already registered" [method]))
                | None =>
                    (mkRpcConnection (conn_state c) (<[method := handler]> (conn_handlers c))
                       (conn_streamHandlers c) (conn_work c) (conn_cancelled c) (conn_transportClosed c)
                       (conn_fatal c) (conn_shutdown c) (conn_serve c), None)
                end
       end.

Definition RegisterStreamHandler (c : RpcConnection) (streamType : string) (handler : option nat)
    : RpcConnection * option error :=
  if bool_decide (streamType = "" ∨ streamType = StreamTypeControl)
  then (c, Some (Errorf "invalid stream type %q" [streamType]))
  else match handler with
       | None => (c, Some (Errorf "stream handler for %q is nil" [streamType]))
       | Some handler =>
           if bool_decide (conn_state c = connectionClosing ∨ conn_state c = connectionClosed)
           then (c, Some (ESentinel ErrConnectionClosed))
           else match conn_streamHandlers c !! streamType with
                | Some _ => (c, Some (Errorf "stream handler for %q is already registered" [streamType]))
                | None =>
                    (mkRpcConnection (conn_state c) (conn_handlers c)
                       (<[streamType := handler]> (conn_streamHandlers c)) (conn_work c)
                       (conn_cancelled c) (conn_transportClosed c) (conn_fatal c) (conn_shutdown c)
                       (conn_serve c), None)
                end
       end.

Definition beginWork (c : RpcConnection) : RpcConnection * bool :=
  if negb (bool_decide (conn_state c = connectionServing)) then (c, false)
  else (set_work c (S (conn_work c)), true).

(** [work.Done()]. *)
Definition workDone (c : RpcConnection) : RpcConnection := set_work c (pred (conn_work c)).

(** [Go], up to starting the goroutine. *)
Definition conn_Go (c : RpcConnection) (run_nil : bool) : RpcConnection * option error :=
  if run_nil then (c, Some (Errorf "connection work function is nil" []))
  else match beginWork c with
       | (c, true) => (c, None)
       | (c, false) => (c, Some (ESentinel ErrConnectionClosed))
       end.

(** [fail]: the channel holds one error. *)
Definition fail (c : RpcConnection) (err : error) : RpcConnection :=
  match conn_fatal c with None => set_fatal c (Some err) | Some _ => c end.

(** The goroutine of [Go] ends with [err]. *)
Definition Go_end (c : RpcConnection) (err : option error) : RpcConnection :=
  workDone (match err with Some e => fail c e | None => c end).

(** The locked region of [shutdown]; true if this call goes on. *)
Definition shutdown_lock (c : RpcConnection) : RpcConnection * bool :=
  if bool_decide (conn_state c = connectionClosing ∨ conn_state c = connectionClosed) then (c, false)
  else (set_state c connectionClosing ShutdownMarked, true).

(** [s.cancel()], then [s.transport.Close()]. *)
Definition shutdown_cancel (c : RpcConnection) : RpcConnection :=
  mkRpcConnection (conn_state c) (conn_handlers c) (conn_streamHandlers c) (conn_work c) true
    (conn_transportClosed c) (conn_fatal c) ShutdownCancelled (conn_serve c).
Definition shutdown_close (c : RpcConnection) : RpcConnection :=
  mkRpcConnection (conn_state c) (conn_handlers c) (conn_streamHandlers c) (conn_work c) (conn_cancelled c)
    true (conn_fatal c) ShutdownDone (conn_serve c).

(** The start of [Serve]. *)
Definition Serve_start (c : RpcConnection) : RpcConnection * option error :=
  if negb (bool_decide (conn_state c = connectionNew)) then (c, Some (ESentinel ErrConnectionStarted))
  else (set_serve c connectionServing ServeSelect, None).

(** [s.ctx.Err()]. *)
Definition ctx_Err (c : RpcConnection) : option error :=
  if conn_cancelled c then Some (ESentinel context_Canceled) else None.

(** The [shutdown] call of [Serve]: it performs the shutdown or finds it begun. *)
Definition Serve_shutdown (c : RpcConnection) (err : option error) : RpcConnection :=
  match shutdown_lock c with
  | (c, true) => set_serve c (conn_state c) (ServeClosing err)
  | (c, false) => set_serve c (conn_state c) (ServeWaiting err)
  end.

(** The end of [Serve], after [work.Wait()]. *)
Definition Serve_end (c : RpcConnection) (err : option error) : RpcConnection :=
  set_serve c connectionClosed (ServeReturned err).

(** ** [spdy.go] *)

(** What becomes of a stream the peer opened: reset at once, served as an RPC, or given to the
    handler of its type, which may refuse it. *)
Inductive streamFate := FateReset | FateRPC | FateHandler (handler : nat) | FateRefused (handler : nat).

(** [newSPDYStream]: [reply] is the outcome of [SendReply], [handled] that of the handler. *)
Definition handleRPCStream (c : RpcConnection) (reply : option error) : RpcConnection * streamFate :=
  match beginWork c with
  | (c, false) => (c, FateReset)
  | (c, true) =>
      match reply with
      | Some _ => (workDone c, FateReset)
      | None => (c, FateRPC)
      end
  end.

Definition handleDataStream (c : RpcConnection) (streamType : string) (reply : option error)
    (handled : option error) : RpcConnection * streamFate :=
  match conn_streamHandlers c !! streamType with
  | None => (c, FateReset)
  | Some handler =>
      match reply with
      | Some _ => (c, FateReset)
      | None => match handled with
                | Some _ => (c, FateRefused handler)
                | None => (c, FateHandler handler)
                end
      end
  end.

Definition newSPDYStream (c : RpcConnection) (streamType : string) (reply handled : option error)
    : RpcConnection * streamFate :=
  if bool_decide (streamType = StreamTypeControl) then handleRPCStream c reply
  else handleDataStream c streamType reply handled.

(** ** Steps *)

(** The steps that other code decides on: registrations, work, streams, requests to stop. *)
Inductive rpc_env_step : RpcConnection → RpcConnection → Prop :=
| env_register c method handler : rpc_env_step c (Register_ c method handler).1
| env_register_stream c t handler : rpc_env_step c (RegisterStreamHandler c t handler).1
| env_go c : rpc_env_step c (conn_Go c false).1
| env_stream c t reply handled : rpc_env_step c (newSPDYStream c t reply handled).1
| env_close c : rpc_env_step c (shutdown_lock c).1
| env_serve c : rpc_env_step c (Serve_start c).1
| env_parent_cancelled c :
    rpc_env_step c (mkRpcConnection (conn_state c) (conn_handlers c) (conn_streamHandlers c) (conn_work c)
      true (conn_transportClosed c) (conn_fatal c) (conn_shutdown c) (conn_serve c))
| env_transport_gone c :
    conn_serve c = ServeSelect → rpc_env_step c (set_serve c (conn_state c) (ServeStopped (ctx_Err c)))
| env_work_failed c e : 0 < conn_work c → rpc_env_step c (Go_end c (Some e)).

(** The steps the connection takes by itself: work that ends, the shutdown under way, and [Serve]. *)
Inductive rpc_own_step : RpcConnection → RpcConnection → Prop :=
| own_work c : 0 < conn_work c → rpc_own_step c (Go_end c None)
| own_cancel c : conn_shutdown c = ShutdownMarked → rpc_own_step c (shutdown_cancel c)
| own_close c : conn_shutdown c = ShutdownCancelled → rpc_own_step c (shutdown_close c)
| own_wake c : conn_serve c = ServeSelect → conn_cancelled c = true →
    rpc_own_step c (set_serve c (conn_state c) (ServeStopped (ctx_Err c)))
| own_fatal c e : conn_serve c = ServeSelect → conn_fatal c = Some e →
    rpc_own_step c (set_serve (set_fatal c None) (conn_state c) (ServeStopped (Some e)))
| own_shutdown c err : conn_serve c = ServeStopped err → rpc_own_step c (Serve_shutdown c err)
| own_closed c err : conn_serve c = ServeClosing err → conn_shutdown c = ShutdownDone →
    rpc_own_step c (set_serve c (conn_state c) (ServeWaiting err))
| own_return c err : conn_serve c = ServeWaiting err → conn_work c = 0 → rpc_own_step c (Serve_end c err).

Definition rpc_step (c c' : RpcConnection) : Prop := rpc_env_step c c' ∨ rpc_own_step c c'.
