(* ===== verification/SpdyRpcProps.v ===== *)
(** Properties of the RPC connection: a call means applying the handler, the life of a connection is
    safe under every interleaving, and [Serve] returns. *)

From S2P Require Import Prelude Runs GoStrings GoStrconv SpdyRpc.

(** ** Calls *)

(** What a call should return: the handler's value or an error that carries its message. *)
Definition call_spec {A} (error_string : error → string) (handlers : gmap string Handler)
    (method : string) (args : goAny) (out : option (string → result A)) : result (option A) :=
  let failed e := Err (Errorf "RPC request %q failed: %s" [method; error_string e]) in
  let decoded data := match out with
                      | Some unmarshal => if bool_decide (data = "") then Ok None else Some <$> unmarshal data
                      | None => Ok None
                      end in
  if bool_decide (method = "") then Err (Errorf "RPC method is required" [])
  else match args with
       | Some (Err e) => Err e
       | _ =>
           let payload := match args with Some (Ok data) => data | _ => "" end in
           match handlers !! method with
           | None => failed (Errorf "unsupported RPC method %q" [method])
           | Some handler =>
               match handler payload with
               | Err e => failed e
               | Ok None => decoded ""
               | Ok (Some (Err e)) => failed e
               | Ok (Some (Ok data)) => decoded data
               end
           end
       end.

(** The values that cross the connection are texts and JSON values. *)
Record wire_ok `{RPCCodec} (error_string : error → string) (handlers : gmap string Handler)
    (method : string) (args : goAny) : Prop := {
  wire_method : json_text method;
  wire_args : ∀ data, args = Some (Ok data) → json_value data;
  wire_errors : ∀ e, json_text (error_string e);
  wire_empty : json_text "";
  wire_results : ∀ h p data, handlers !! method = Some h → h p = Ok (Some (Ok data)) → json_value data;
}.

(** An RPC call is the call of the handler.  On a stream that nothing disturbs, for texts and
    payloads that JSON can carry, [Call] on one side with [serveRPC] on the other returns exactly
    what applying the registered handler to the argument gives: its value decoded, no value if it
    returned none, or an error with the handler's message; an unknown method, an argument or a
    result that cannot be encoded and an empty method name are errors and no handler's effect is
    lost in between. *)
Theorem rpc_call_applies_handler `{RPCCodec} {A} error_string handlers method args (out : option (string → result A)) :
  wire_ok error_string handlers method args →
  undisturbed_call error_string handlers method args out = call_spec error_string handlers method args out.
Proof.
  intros [Hm Ha He Hempty Hr]. unfold undisturbed_call, call_spec, Call.
  case_bool_decide as Hmethod; [done|].
  assert (∀ data, (data = "" ∨ json_value data) →
    decodeRequest (encodeRequest (mkRpcRequest method data)) = Ok (mkRpcRequest method data)) as Hreq
    by (intros; by apply decode_encode_request).
  assert (∀ e, decodeResponse (encodeResponse (newRPCErrorResponse error_string e)) =
    Ok (newRPCErrorResponse error_string e)) as Herr
    by (intros; apply decode_encode_response; simpl; auto).
  assert (∀ data, (data = "" ∨ json_value data) →
    decodeResponse (encodeResponse (mkRpcResponse true "" data)) = Ok (mkRpcResponse true "" data)) as Hok
    by (intros; by apply decode_encode_response).
  destruct args as [[data|e]|]; simpl; [| done |].
  - rewrite Hreq by (right; auto). simpl. destruct (handlers !! method) as [h|] eqn:Hh; [|by rewrite Herr].
    destruct (h data) as [[[d|e]|]|e] eqn:Hres; simpl; rewrite ?Herr; try done.
    + rewrite Hok by (right; eauto). unfold decodeRPCResponse. simpl. by destruct out.
    + rewrite Hok by by left. unfold decodeRPCResponse. simpl. by destruct out.
  - rewrite Hreq by by left. simpl. destruct (handlers !! method) as [h|] eqn:Hh; [|by rewrite Herr].
    destruct (h "") as [[[d|e]|]|e] eqn:Hres; simpl; rewrite ?Herr; try done.
    + rewrite Hok by (right; eauto). unfold decodeRPCResponse. simpl. by destruct out.
    + rewrite Hok by by left. unfold decodeRPCResponse. simpl. by destruct out.
Qed.

(** *** A codec: lengths before texts *)

Definition toy_text (s : string) : string := FormatUint (Z.of_nat (slen s)) 10 +:+ String ":" s.
Definition toy_untext (s : string) : option (string * string) :=
  '(n, rest) ← Cut s ":"; n ← ParseUint n 10 63;
  Some (stake (Z.to_nat n) rest, sdrop (Z.to_nat n) rest).

Definition short (s : string) : Prop := (Z.of_nat (slen s) < 2 ^ 63)%Z.

Lemma toy_untext_text s rest : short s → toy_untext (toy_text s +:+ rest) = Some (s, rest).
Proof.
  intros Hs. unfold toy_untext, toy_text. rewrite <-sapp_assoc, sapp_cons.
  rewrite Cut_app by by apply FormatUint_no_byte. simpl.
  rewrite ParseUint_FormatUint by (unfold short in Hs; lia). simpl.
  by rewrite Nat2Z.id, stake_app, sdrop_app.
Qed.

Definition toy_encodeRequest (r : rpcRequest) : string := toy_text (req_Method r) +:+ req_Payload r.
Definition toy_decodeRequest (s : string) : result rpcRequest :=
  match toy_untext s with Some (m, p) => Ok (mkRpcRequest m p) | None => Err (EExternal "decode") end.
Definition toy_encodeResponse (r : rpcResponse) : string :=
  String (if resp_OK r then "1"%char else "0"%char) (toy_text (resp_Error r) +:+ resp_Payload r).
Definition toy_decodeResponse (s : string) : result rpcResponse :=
  match s with
  | String ok s => match toy_untext s with
                   | Some (e, p) => Ok (mkRpcResponse (bool_decide (ok = "1"%char)) e p)
                   | None => Err (EExternal "decode")
                   end
  | EmptyString => Err (ESentinel io_EOF)
  end.

Program Definition toy_codec : RPCCodec := {|
  json_text := short;
  json_value := fun _ => True;
  encodeRequest := toy_encodeRequest;
  decodeRequest := toy_decodeRequest;
  encodeResponse := toy_encodeResponse;
  decodeResponse := toy_decodeResponse;
|}.
Next Obligation.
  intros [m p] Hm _. unfold toy_decodeRequest, toy_encodeRequest. simpl in *. by rewrite toy_untext_text.
Qed.
Next Obligation.
  intros [ok e p] He _. unfold toy_decodeResponse, toy_encodeResponse. simpl in *.
  rewrite toy_untext_text by done. by destruct ok.
Qed.

Definition demo_handlers : gmap string Handler :=
  {["echo" := fun p => if bool_decide (p = "") then Err (Errorf "empty" []) else Ok (Some (Ok p))]}.

Lemma rpc_call_applies_handler_witness :
  @undisturbed_call toy_codec string (fun _ => "boom") demo_handlers "echo" (Some (Ok "hi")) (Some Ok) =
    Ok (Some "hi").
Proof.
  rewrite (@rpc_call_applies_handler toy_codec string (fun _ => "boom") demo_handlers "echo" (Some (Ok "hi"))).
  - vm_compute. reflexivity.
  - split; vm_compute; done.
Defined.

(** ** The life of a connection *)

(** The states a connection can be in: new, closed before [Serve], serving, closing, closed. *)
Inductive conn_shape : connState → shutdownPhase → servePoint → nat → Prop :=
| shape_new : conn_shape connectionNew ShutdownNone ServeIdle 0
| shape_unserved p : p ≠ ShutdownNone → conn_shape connectionClosing p ServeIdle 0
| shape_serving p n : p = ServeSelect ∨ (∃ e, p = ServeStopped e) →
    conn_shape connectionServing ShutdownNone p n
| shape_closing p s n : p ≠ ShutdownNone → s ≠ ServeIdle → (∀ e, s ≠ ServeReturned e) →
    conn_shape connectionClosing p s n
| shape_closed p e : p ≠ ShutdownNone → conn_shape connectionClosed p (ServeReturned e) 0.

Record rpc_inv (c : RpcConnection) : Prop := {
  ci_shape : conn_shape (conn_state c) (conn_shutdown c) (conn_serve c) (conn_work c);
  ci_cancelled : conn_shutdown c = ShutdownCancelled ∨ conn_shutdown c = ShutdownDone →
    conn_cancelled c = true;
  ci_transport : conn_transportClosed c = true ↔ conn_shutdown c = ShutdownDone;
}.

Lemma newRpcConnection_inv : rpc_inv newRpcConnection.
Proof. split; simpl; [constructor|naive_solver|done]. Qed.

(** Operations that leave the fields of the invariant alone. *)
Lemma rpc_inv_same c c' :
  rpc_inv c → conn_state c' = conn_state c → conn_shutdown c' = conn_shutdown c →
  conn_serve c' = conn_serve c → conn_work c' = conn_work c → conn_cancelled c' = conn_cancelled c →
  conn_transportClosed c' = conn_transportClosed c → rpc_inv c'.
Proof. intros [? ? ?] Hst Hsh Hse Hw Hc Ht. split; rewrite ?Hst, ?Hsh, ?Hse, ?Hw, ?Hc, ?Ht; done. Qed.

Lemma beginWork_inv c : rpc_inv c → rpc_inv (beginWork c).1.
Proof.
  intros [Hs Hc Ht]. unfold beginWork. case_bool_decide as Hst; [|done]. simpl.
  split; simpl; [|done..]. rewrite Hst in *. inversion Hs; subst; by constructor.
Qed.

Lemma workDone_inv c : rpc_inv c → rpc_inv (workDone c).
Proof. intros [Hs Hc Ht]. split; simpl; [|done..]. inversion Hs; subst; by constructor. Qed.

Lemma shutdown_lock_inv c : rpc_inv c → rpc_inv (shutdown_lock c).1.
Proof.
  intros Hinv. unfold shutdown_lock. case_bool_decide as Hst; [done|]. destruct Hinv as [Hs Hc Ht].
  split; simpl; [| |].
  - clear Hc Ht. destruct Hs as [|? ?|p n Hp|? ? ? ? ? ?|? ? ?]; try by destruct Hst; auto.
    + by constructor.
    + constructor; [done|..]; destruct Hp as [->|[e ->]]; done.
  - by intros [?|?].
  - rewrite Ht. split; [|done]. intros Heq. rewrite Heq in Hs. exfalso. apply Hst. clear -Hs.
    inversion Hs; auto.
Qed.

Lemma set_serve_inv c p :
  rpc_inv c → conn_state c = connectionClosing → conn_serve c ≠ ServeIdle → p ≠ ServeIdle →
  (∀ e, p ≠ ServeReturned e) → rpc_inv (set_serve c (conn_state c) p).
Proof.
  intros [Hs Hc Ht] Hst Hidle Hp Hr. split; simpl; [|done..]. rewrite Hst in *.
  inversion Hs; subst; try done; by constructor.
Qed.

Lemma stopped_inv c err :
  rpc_inv c → conn_serve c = ServeSelect → rpc_inv (set_serve c (conn_state c) (ServeStopped err)).
Proof.
  intros [Hs Hc Ht] Hse. split; simpl; [|done..]. rewrite Hse in Hs.
  inversion Hs; subst; try done; constructor; naive_solver.
Qed.

Lemma stream_inv c t reply handled : rpc_inv c → rpc_inv (newSPDYStream c t reply handled).1.
Proof.
  intros Hinv. unfold newSPDYStream. case_bool_decide.
  - unfold handleRPCStream. pose proof (beginWork_inv c Hinv) as Hb. destruct (beginWork c) as [c1 []]; [|done].
    destruct reply; [by apply workDone_inv|done].
  - unfold handleDataStream. by repeat case_match.
Qed.

Lemma rpc_env_inv c c' : rpc_inv c → rpc_env_step c c' → rpc_inv c'.
Proof.
  intros Hinv Hstep. destruct Hstep as [c m h|c t h|c|c t r h|c|c|c|c Hs|c e Hw].
  - unfold Register_. repeat case_match; simpl; try done. by eapply rpc_inv_same.
  - unfold RegisterStreamHandler. repeat case_match; simpl; try done. by eapply rpc_inv_same.
  - unfold conn_Go. pose proof (beginWork_inv c Hinv) as Hb. by destruct (beginWork c) as [c1 []].
  - by apply stream_inv.
  - by apply shutdown_lock_inv.
  - unfold Serve_start. case_bool_decide as Hst; [|done]. destruct Hinv as [Hs Hc Ht]. simpl.
    rewrite Hst in Hs. split; simpl; [|done..]. clear Hc Ht.
    inversion Hs; subst; [constructor; by left|done..].
  - destruct Hinv as [Hs Hc Ht]. by split.
  - by apply stopped_inv.
  - unfold Go_end. apply workDone_inv. unfold fail. case_match; [done|]. by eapply rpc_inv_same.
Qed.

Lemma rpc_own_inv c c' : rpc_inv c → rpc_own_step c c' → rpc_inv c'.
Proof.
  intros Hinv Hstep.
  destruct Hstep as [c Hw|c Hsh|c Hsh|c Hse Hca|c e Hse Hf|c err Hse|c err Hse Hsh|c err Hse Hw].
  - by apply workDone_inv.
  - destruct Hinv as [Hs Hc Ht]. split; simpl; [|done|rewrite Ht, Hsh; by split].
    rewrite Hsh in Hs. inversion Hs; subst; constructor; done.
  - destruct Hinv as [Hs Hc Ht]. split; simpl; [|naive_solver|done].
    rewrite Hsh in Hs. inversion Hs; subst; constructor; done.
  - by apply stopped_inv.
  - apply (stopped_inv (set_fatal c None)); [by eapply rpc_inv_same|done].
  - unfold Serve_shutdown. pose proof (shutdown_lock_inv c Hinv) as Hl.
    assert (conn_serve (shutdown_lock c).1 = conn_serve c) as Hsame
      by (unfold shutdown_lock; by case_bool_decide).
    assert (conn_state (shutdown_lock c).1 = connectionClosing) as Hst.
    { unfold shutdown_lock. case_bool_decide as Hcl; [|done]. destruct Hcl as [?|Hcl]; [done|].
      destruct Hinv as [Hs _ _]. rewrite Hcl, Hse in Hs. inversion Hs. }
    destruct (shutdown_lock c) as [c1 b]; simpl in *. destruct b; apply set_serve_inv; try done; congruence.
  - assert (conn_state c = connectionClosing) as Hst.
    { destruct Hinv as [Hs _ _]. rewrite Hse, Hsh in Hs. by inversion Hs. }
    apply set_serve_inv; try done. by rewrite Hse.
  - destruct Hinv as [Hs Hc Ht]. split; simpl; [|done..]. rewrite Hse, Hw in *.
    inversion Hs as [|p Hp|p n Hp|p s n Hp Hi Hr|]; subst; [by destruct Hp as [?|[? ?]]|by constructor].
Qed.

Lemma rpc_reachable_inv c : rtc rpc_step newRpcConnection c → rpc_inv c.
Proof.
  intros Hr. eapply (rtc_ind_r rpc_inv newRpcConnection); [apply newRpcConnection_inv| |exact Hr].
  intros x y _ [Hs|Hs] Hx; [by eapply rpc_env_inv|by eapply rpc_own_inv].
Qed.

Definition state_rank (s : connState) : nat :=
  match s with connectionNew => 0 | connectionServing => 1 | connectionClosing => 2 | connectionClosed => 3 end.

Definition stopping (c : RpcConnection) : Prop :=
  conn_state c = connectionClosing ∨ conn_state c = connectionClosed.

(** What one step may change: states go forward, handlers are fixed once the connection left its
    first state, and no work begins while it stops. *)
Record forward (c c' : RpcConnection) : Prop := {
  fw_state : state_rank (conn_state c) ≤ state_rank (conn_state c');
  fw_handlers : conn_state c ≠ connectionNew → conn_handlers c' = conn_handlers c;
  fw_work : stopping c → conn_work c' ≤ conn_work c;
}.

Lemma beginWork_forward c : forward c (beginWork c).1.
Proof.
  unfold beginWork. case_bool_decide as Hst; simpl; [|by split].
  split; simpl; [done..|]. unfold stopping. rewrite Hst. by intros [?|?].
Qed.

Lemma workDone_forward c c' : forward c c' → forward c (workDone c').
Proof. intros [? ? Hw]. split; simpl; [done..|]. intros Hs. specialize (Hw Hs). lia. Qed.

Lemma shutdown_lock_forward c : forward c (shutdown_lock c).1.
Proof.
  unfold shutdown_lock. case_bool_decide as Hst; simpl; split; simpl; try done.
  destruct (conn_state c); simpl; try lia. exfalso. naive_solver.
Qed.

Lemma rpc_step_forward c c' : rpc_inv c → rpc_step c c' → forward c c'.
Proof.
  intros Hinv [Hstep|Hstep].
  - destruct Hstep as [c m h|c t h|c|c t r h|c|c|c|c Hs|c e Hw].
    + unfold Register_. repeat case_match; simpl; try by split. split; simpl; [done| |done].
      intros Hn. by rewrite bool_decide_eq_false_2 in *.
    + unfold RegisterStreamHandler. repeat case_match; by split.
    + unfold conn_Go. pose proof (beginWork_forward c) as Hb. by destruct (beginWork c) as [c1 []].
    + unfold newSPDYStream, handleRPCStream, handleDataStream. pose proof (beginWork_forward c) as Hb.
      case_bool_decide; [|by repeat case_match].
      destruct (beginWork c) as [c1 []]; [|done]. destruct r; [by apply workDone_forward|done].
    + apply shutdown_lock_forward.
    + unfold Serve_start. case_bool_decide as Hst; simpl; [|by split]. split; simpl; try done.
      rewrite Hst. simpl. lia.
    + by split.
    + by split.
    + apply workDone_forward. unfold fail. by case_match; split.
  - destruct Hstep as [c Hw|c Hsh|c Hsh|c Hse Hca|c e Hse Hf|c err Hse|c err Hse Hsh|c err Hse Hw];
      try by (split; simpl).
    + by apply workDone_forward.
    + pose proof (shutdown_lock_forward c) as Hf. unfold Serve_shutdown.
      destruct (shutdown_lock c) as [c1 []]; destruct Hf; by split.
    + split; simpl; try done. destruct (conn_state c); simpl; lia.
Qed.

(** C16: the life of an RPC connection, under every interleaving of its users, its goroutines and
    its peer.  Its state only moves forward.  The handlers are fixed once it has started.  Once it
    is stopping no RPC and no work begins: control streams are reset, [Go] is refused.  [Serve]
    returns exactly when the connection is closed, and then no registered work is running.  The
    transport is closed by the one shutdown that runs, after the context was cancelled. *)
Theorem rpc_connection_lifecycle c :
  rtc rpc_step newRpcConnection c →
  ((∃ e, conn_serve c = ServeReturned e) ↔ conn_state c = connectionClosed) ∧
  (conn_state c = connectionClosed → conn_work c = 0) ∧
  (conn_transportClosed c = true → conn_cancelled c = true ∧ stopping c) ∧
  (stopping c → ∀ reply handled, newSPDYStream c StreamTypeControl reply handled = (c, FateReset) ∧
     conn_Go c false = (c, Some (ESentinel ErrConnectionClosed))) ∧
  (∀ c', rpc_step c c' → state_rank (conn_state c) ≤ state_rank (conn_state c') ∧
     (conn_state c ≠ connectionNew → conn_handlers c' = conn_handlers c) ∧
     (stopping c → conn_work c' ≤ conn_work c)).
Proof.
  intros Hinv%rpc_reachable_inv. pose proof Hinv as [Hs Hc Ht]. split_and!.
  - split; [intros [e He]|intros Hcl; rewrite Hcl in Hs; inversion Hs; eauto].
    rewrite He in Hs. clear -Hs. inversion Hs as [| |p n Hp|p s n _ _ Hr|]; subst; try done.
    + by destruct Hp as [?|[? ?]].
    + by destruct (Hr e).
  - intros Hcl. rewrite Hcl in Hs. by inversion Hs.
  - intros Htr%Ht. split; [by apply Hc; right|]. rewrite Htr in Hs. unfold stopping. inversion Hs; auto.
  - intros Hst reply handled. unfold newSPDYStream, handleRPCStream, conn_Go, beginWork.
    rewrite (bool_decide_eq_true_2 (StreamTypeControl = _)) by done.
    rewrite bool_decide_eq_false_2; [done|]. by destruct Hst as [-> | ->].
  - intros c' Hstep. by destruct (rpc_step_forward c c' Hinv Hstep).
Qed.

(** ** [Serve] returns *)

Definition serve_rank (p : servePoint) : nat :=
  match p with
  | ServeIdle | ServeSelect => 4 | ServeStopped _ => 3 | ServeClosing _ => 2 | ServeWaiting _ => 1
  | ServeReturned _ => 0
  end.
Definition shutdown_rank (p : shutdownPhase) : nat :=
  match p with ShutdownNone => 3 | ShutdownMarked => 2 | ShutdownCancelled => 1 | ShutdownDone => 0 end.

(** The number of steps the connection can take by itself. *)
Definition conn_measure (c : RpcConnection) : nat :=
  conn_work c + serve_rank (conn_serve c) + shutdown_rank (conn_shutdown c).

Lemma rpc_own_decreases c c' : rpc_inv c → rpc_own_step c c' → conn_measure c' < conn_measure c.
Proof.
  intros [Hs _ _] Hstep. unfold conn_measure.
  destruct Hstep as [c Hw|c Hsh|c Hsh|c Hse Hca|c e Hse Hf|c err Hse|c err Hse Hsh|c err Hse Hw];
    simpl; rewrite ?Hsh, ?Hse; simpl; try lia.
  unfold Serve_shutdown, shutdown_lock. case_bool_decide as Hcl; simpl; [lia|].
  destruct (conn_shutdown c) eqn:E; simpl; try lia; exfalso; apply Hcl; inversion Hs; auto; congruence.
Qed.

(** Somebody asked the connection to stop, or it noticed a reason. *)
Definition stop_requested (c : RpcConnection) : Prop :=
  conn_cancelled c = true ∨ conn_fatal c ≠ None ∨ conn_shutdown c ≠ ShutdownNone ∨ conn_serve c ≠ ServeSelect.

Lemma rpc_own_progress c :
  rpc_inv c → conn_serve c ≠ ServeIdle → stop_requested c →
  (∃ e, conn_serve c = ServeReturned e) ∨ ∃ c', rpc_own_step c c'.
Proof.
  intros [Hs Hc Ht] Hidle Hstop. destruct (decide (0 < conn_work c)) as [Hw|Hw]; [right; eexists; by apply own_work|].
  destruct (conn_shutdown c) eqn:Hsh; try (right; eexists; by constructor).
  - destruct (conn_serve c) eqn:Hse; try done; try (right; eexists; by constructor).
    + right. destruct Hstop as [Hca|[Hf|[Hn|Hn]]]; try done.
      * eexists. by apply own_wake.
      * destruct (conn_fatal c) as [e|] eqn:Hfe; [|done]. eexists. by apply own_fatal.
    + right. inversion Hs; naive_solver.
    + right. eexists. apply (own_return c err); [done|lia].
    + eauto.
  - destruct (conn_serve c) eqn:Hse; try done; try (right; eexists; by constructor).
    + right. eexists. apply own_wake; [done|]. apply Hc. by right.
    + right. eexists. apply (own_return c err); [done|lia].
    + eauto.
Qed.

Lemma rpc_own_stop c c' :
  rpc_inv c → conn_serve c ≠ ServeIdle → stop_requested c → rpc_own_step c c' →
  conn_serve c' ≠ ServeIdle ∧ stop_requested c'.
Proof.
  intros Hinv Hidle Hstop Hstep. unfold stop_requested in *.
  destruct Hstep as [c Hw|c Hsh|c Hsh|c Hse Hca|c e Hse Hf|c err Hse|c err Hse Hsh|c err Hse Hw]; simpl in *;
    try by (split; auto).
  unfold Serve_shutdown. destruct (shutdown_lock c) as [c1 []]; simpl; split; auto.
Qed.

Definition rpc_live (c : RpcConnection) : Prop := rpc_inv c ∧ conn_serve c ≠ ServeIdle ∧ stop_requested c.

Lemma rpc_own_live c c' : rpc_live c → rpc_own_step c c' → rpc_live c'.
Proof. intros (Hinv & Hidle & Hstop) Hs. split; [by eapply rpc_own_inv|]. by eapply rpc_own_stop. Qed.

(** [Serve] returns.  Once it has started and the connection was asked to stop (closed by a
    user, its context cancelled, a fatal error, its transport gone), then, as long as work that is
    running ends, the connection's own steps lead to the return of [Serve], in whatever order they
    are taken: there are at most as many as units of work are running plus seven, and where none
    is left [Serve] has returned. *)
Theorem rpc_serve_returns c :
  rtc rpc_step newRpcConnection c → conn_serve c ≠ ServeIdle → stop_requested c →
  (∀ n c', nsteps rpc_own_step n c c' → n ≤ conn_work c + 7) ∧
  (∀ c', rtc rpc_own_step c c' → (∀ c'', ¬ rpc_own_step c' c'') → ∃ e, conn_serve c' = ServeReturned e) ∧
  (∃ c' e, rtc rpc_own_step c c' ∧ conn_serve c' = ServeReturned e).
Proof.
  intros Hinv%rpc_reachable_inv Hidle Hstop. split_and!.
  - intros n c' Hn. pose proof (nsteps_bounded _ _ conn_measure rpc_own_inv rpc_own_decreases _ _ _ Hinv Hn) as Hle.
    unfold conn_measure in Hle at 2.
    assert (serve_rank (conn_serve c) ≤ 4) by (destruct (conn_serve c); simpl; lia).
    assert (shutdown_rank (conn_shutdown c) ≤ 3) by (destruct (conn_shutdown c); simpl; lia). lia.
  - intros c' Hr Hstuck.
    destruct (rtc_invariant _ rpc_live rpc_own_live _ _ (conj Hinv (conj Hidle Hstop)) Hr) as (Hi & Hid & Hst).
    destruct (rpc_own_progress c' Hi Hid Hst) as [?|[c'' Hs]]; [done|]. by destruct (Hstuck c'').
  - destruct (run_reaches _ rpc_live conn_measure rpc_own_live (fun c c' H => rpc_own_decreases c c' (proj1 H))
      (fun c => ∃ e, conn_serve c = ServeReturned e) c) as (c' & Hr & e & He); [|done|by exists c', e].
    intros x (Hi & Hid & Hst). by apply rpc_own_progress.
Qed.

(** A connection that serves, has one goroutine at work, and is closed by its user. *)
Definition demo_conn : RpcConnection :=
  (shutdown_lock (conn_Go (Serve_start newRpcConnection).1 false).1).1.

Lemma demo_conn_reachable : rtc rpc_step newRpcConnection demo_conn.
Proof.
  eapply rtc_l; [left; apply env_serve|]. eapply rtc_l; [left; apply env_go|].
  eapply rtc_l; [left; apply env_close|]. apply rtc_refl.
Qed.

Lemma rpc_connection_lifecycle_witness :
  conn_work demo_conn = 1 ∧
  newSPDYStream demo_conn StreamTypeControl None None = (demo_conn, FateReset).
Proof.
  split; [reflexivity|].
  destruct (rpc_connection_lifecycle demo_conn demo_conn_reachable) as (_ & _ & _ & Hstop & _).
  apply (Hstop (or_introl eq_refl) None None).
Defined.

Lemma rpc_serve_returns_witness :
  conn_work demo_conn = 1 ∧ ∃ c' e, rtc rpc_own_step demo_conn c' ∧ conn_serve c' = ServeReturned e.
Proof.
  split; [reflexivity|].
  assert (conn_serve demo_conn ≠ ServeIdle) as Hs by discriminate.
  assert (stop_requested demo_conn) as Hr by (right; right; left; discriminate).
  apply (rpc_serve_returns demo_conn demo_conn_reachable Hs Hr).
Defined.
