(* ===== verification/HelperClient.v ===== *)
(** Model of the gateway's side of the helper protocol: [src/pkg/podssh/backend/helper/client.go] and
    the client halves of [remote_forward.go] and [agent_forward.go].

    A helper connection is shared by the goroutines that listen, accept and cancel, by the stream
    handlers and by [Close].  A step is one region locked by the client's or a listener's mutex.
    Listeners are numbered in the order they are created, streams in the order they arrive; what
    was delivered to and accepted from a listener and which streams were reset is recorded. *)

From S2P Require Import Prelude GoStrings GoStrconv SpdyRpc.

(** ** Listeners *)

(** [RemoteListener] and [AgentListener]: the queue of incoming streams and its end. *)
Record helperListener (A : Type) := mkListener {
  hl_incoming : list A;
  hl_closed : bool;
  hl_closeErr : option error;
  hl_cancelled : bool;
  hl_delivered : list A;
  hl_accepted : list A;
}.
Arguments mkListener {A}.
Arguments hl_incoming {A}.
Arguments hl_closed {A}.
Arguments hl_closeErr {A}.
Arguments hl_cancelled {A}.
Arguments hl_delivered {A}.
Arguments hl_accepted {A}.

Definition newListener {A} : helperListener A := mkListener [] false None false [] [].

(** [deliver]: the second component is the stream that is reset instead. *)
Definition listener_deliver {A} (helperClosed : bool) (f : helperListener A) (x : A)
    : helperListener A * option A :=
  if hl_closed f || helperClosed then (f, Some x)
  else (mkListener (hl_incoming f ++ [x]) (hl_closed f) (hl_closeErr f) (hl_cancelled f)
          (hl_delivered f ++ [x]) (hl_accepted f), None).

(** [closeLocal]: the second component are the streams that are reset. *)
Definition listener_closeLocal {A} (f : helperListener A) (err : error) : helperListener A * list A :=
  if hl_closed f then (f, [])
  else (mkListener [] true (Some err) (hl_cancelled f) (hl_delivered f) (hl_accepted f), hl_incoming f).

(** One look of [Accept] at the listener: a stream, an error, or [None] to wait. *)
Definition listener_accept {A} (helperClosed : bool) (ctxErr : option error) (f : helperListener A)
    : option (result A) * helperListener A :=
  match hl_incoming f with
  | x :: rest =>
      (Some (Ok x), mkListener rest (hl_closed f) (hl_closeErr f) (hl_cancelled f) (hl_delivered f)
                      (hl_accepted f ++ [x]))
  | [] =>
      (match ctxErr with
       | Some e => Some (Err e)
       | None =>
           if hl_closed f && bool_decide (is_Some (hl_closeErr f))
           then Err <$> hl_closeErr f
           else if helperClosed then Some (Err (ESentinel ErrConnectionClosed))
           else if hl_closed f then Some (Err (ESentinel context_Canceled))
           else None
       end, f)
  end.

(** The guard of [Cancel]: true for the first call. *)
Definition listener_cancel {A} (f : helperListener A) : helperListener A * bool :=
  (mkListener (hl_incoming f) (hl_closed f) (hl_closeErr f) true (hl_delivered f) (hl_accepted f),
   negb (hl_cancelled f)).

(** The error of [Cancel] from that of the stop request. *)
Definition cancelErr (callErr : option error) : option error :=
  match callErr with
  | Some e => if errors_Is e ErrConnectionClosed then None else Some e
  | None => None
  end.

(** [Client.call]: which error a failed RPC gives. *)
Definition client_callErr (closed : bool) (err : option error) : option error :=
  match err with
  | None => None
  | Some e =>
      if closed then Some (ESentinel ErrConnectionClosed)
      else if errors_Is e io_EOF || errors_Is e io_ErrClosedPipe || errors_Is e ErrConnectionClosed
      then Some (ESentinel ErrConnectionClosed)
      else Some e
  end.

(** ** Messages of remote forwarding *)

Definition methodRemoteListen := "remote-forward.listen".
Definition methodRemoteStop := "remote-forward.stop".
Definition streamTypeRemoteConnection := "remote-forward.connection".

Definition remoteBindHeader := "remoteForwardBind".
Definition requestedRemoteBindHeader := "remoteForwardRequestedBind".
Definition originHostHeader := "originHost".
Definition originPortHeader := "originPort".

Record ConnectionInfo := mkConnectionInfo {
  ci_Bind : string;
  ci_RequestedBind : string;
  ci_OriginHost : string;
  ci_OriginPort : Z;
}.

(** Headers as a map from names to values; a missing header reads as the empty string. *)
Definition remoteConnectionHeaders (bind requestedBind originHost originPort : string) : gmap string string :=
  <[originPortHeader := originPort]> (<[originHostHeader := originHost]>
    (<[requestedRemoteBindHeader := requestedBind]> (<[remoteBindHeader := bind]>
      {[StreamTypeHeader := streamTypeRemoteConnection]}))).

Definition header_Get (headers : gmap string string) (name : string) : string := default "" (headers !! name).

Definition remoteConnectionHeaderValues (headers : gmap string string) : string * string * string * string :=
  (header_Get headers remoteBindHeader, header_Get headers requestedRemoteBindHeader,
   header_Get headers originHostHeader, header_Get headers originPortHeader).

(** The headers the helper sends for a connection from the address [peer]. *)
Definition proxyRemoteListenerHeaders (bind requestedBind peer : string) : gmap string string :=
  let '(originHost, originPortText) := default ("", "") (SplitHostPort peer) in
  let originPort := default 0%Z (ParseUint originPortText 10 32) in
  remoteConnectionHeaders bind requestedBind originHost (FormatUint originPort 10).

Record remoteIncoming := mkIncoming { ri_stream : nat; ri_info : ConnectionInfo }.

Definition remoteIncomingFromStream (stream : nat) (headers : gmap string string) : result remoteIncoming :=
  let '(bind, requestedBind, originHost, originPortText) := remoteConnectionHeaderValues headers in
  match ParseUint originPortText 10 32 with
  | None => Err (Wrapf "invalid origin port %q: %w" [originPortText] (EExternal "strconv"))
  | Some originPort => Ok (mkIncoming stream (mkConnectionInfo bind requestedBind originHost originPort))
  end.

(** ** [remoteForwardClient] *)

(** Where [Listen] of a listener is: waiting for the response with its requested bind, returned
    successfully, or returned with an error. *)
Inductive listenPhase := ListenInFlight (bind : string) | Listening (actualBind : string) (actualPort : Z) | ListenFailed.

Definition set_phase (p : listenPhase) (l : listenPhase * helperListener remoteIncoming)
    : listenPhase * helperListener remoteIncoming := (p, l.2).

Record remoteClient := mkRemoteClient {
  rc_closed : bool;
  rc_forwards : gmap string nat;
  rc_listeners : list (listenPhase * helperListener remoteIncoming);
  (** Streams that [dispatch] has looked up and not yet delivered. *)
  rc_dispatch : list (remoteIncoming * nat);
  (** Listeners whose removal has happened and whose [closeLocal] is still to come. *)
  rc_closing : list (nat * error);
  (** Listeners whose entry another one's response has overwritten. *)
  rc_lost : list nat;
  rc_arrived : nat;
  rc_reset : list nat;
}.

Definition newRemoteForwardClient : remoteClient := mkRemoteClient false ∅ [] [] [] [] 0 [].

Definition set_rforwards (c : remoteClient) (m : gmap string nat) : remoteClient :=
  mkRemoteClient (rc_closed c) m (rc_listeners c) (rc_dispatch c) (rc_closing c) (rc_lost c)
    (rc_arrived c) (rc_reset c).
Definition set_listeners (c : remoteClient) (l : list (listenPhase * helperListener remoteIncoming)) : remoteClient :=
  mkRemoteClient (rc_closed c) (rc_forwards c) l (rc_dispatch c) (rc_closing c) (rc_lost c)
    (rc_arrived c) (rc_reset c).
Definition add_closing (c : remoteClient) (l : list (nat * error)) : remoteClient :=
  mkRemoteClient (rc_closed c) (rc_forwards c) (rc_listeners c) (rc_dispatch c) (rc_closing c ++ l)
    (rc_lost c) (rc_arrived c) (rc_reset c).
Definition reset_streams (c : remoteClient) (l : list nat) : remoteClient :=
  mkRemoteClient (rc_closed c) (rc_forwards c) (rc_listeners c) (rc_dispatch c) (rc_closing c)
    (rc_lost c) (rc_arrived c) (rc_reset c ++ l).

(** [add]. *)
Definition remote_add (c : remoteClient) (bind : string) (forward : nat) : remoteClient * bool :=
  match rc_forwards c !! bind with
  | Some _ => (c, false)
  | None => (set_rforwards c (<[bind := forward]> (rc_forwards c)), true)
  end.

(** [removeIfMatch]. *)
Definition remote_removeIfMatch (c : remoteClient) (bind : string) (forward : nat) : remoteClient :=
  if bool_decide (rc_forwards c !! bind = Some forward)
  then set_rforwards c (delete bind (rc_forwards c)) else c.

(** [rekey]; an entry of another listener under [newBind] is overwritten. *)
Definition remote_rekey (c : remoteClient) (oldBind newBind : string) (forward : nat) : remoteClient * bool :=
  if negb (bool_decide (rc_forwards c !! oldBind = Some forward)) then (c, false)
  else
    let m := if bool_decide (oldBind ≠ newBind) then delete oldBind (rc_forwards c) else rc_forwards c in
    let lost := match m !! newBind with
                | Some other => if bool_decide (other = forward) then [] else [other]
                | None => []
                end in
    (mkRemoteClient (rc_closed c) (<[newBind := forward]> m) (rc_listeners c) (rc_dispatch c)
       (rc_closing c) (rc_lost c ++ lost) (rc_arrived c) (rc_reset c), true).

(** [removeForward]. *)
Definition remote_removeForward (c : remoteClient) (forward : nat) : remoteClient :=
  set_rforwards c (filter (fun '(_, got) => got ≠ forward) (rc_forwards c)).

(** [Listen], up to the request: it registers the new listener. *)
Definition remote_Listen (c : remoteClient) (host : string) (port : Z) : remoteClient * option error :=
  let bind := JoinHostPort host (FormatUint port 10) in
  match remote_add c bind (length (rc_listeners c)) with
  | (c, true) => (set_listeners c (rc_listeners c ++ [(ListenInFlight bind, newListener)]), None)
  | (c, false) => (c, Some (Errorf "remote-forward listener already exists for %s" [bind]))
  end.

(** [Listen], after the response. *)
Definition remote_Listen_response (c : remoteClient) (n : nat) (bind : string)
    (response : result (string * Z)) : remoteClient * option error :=
  let phase p := set_listeners c (alter (set_phase p) n (rc_listeners c)) in
  match response with
  | Err e => (add_closing (remote_removeIfMatch (phase ListenFailed) bind n) [(n, e)], Some e)
  | Ok (actualBind, actualPort) =>
      match remote_rekey (phase (Listening actualBind actualPort)) bind actualBind n with
      | (c, true) => (c, None)
      | (c, false) =>
          (add_closing (set_listeners c (alter (set_phase ListenFailed) n (rc_listeners c)))
             [(n, ESentinel context_Canceled)],
           Some (Errorf "remote-forward listener closed" []))
      end
  end.

(** [dispatch], the lookup: by the actual bind, then by the requested one. *)
Definition remote_dispatch (c : remoteClient) (info : ConnectionInfo) : remoteClient :=
  let incoming := mkIncoming (rc_arrived c) info in
  let forward := match rc_forwards c !! ci_Bind info with
                 | Some n => Some n
                 | None => rc_forwards c !! ci_RequestedBind info
                 end in
  let c := mkRemoteClient (rc_closed c) (rc_forwards c) (rc_listeners c) (rc_dispatch c) (rc_closing c)
             (rc_lost c) (S (rc_arrived c)) (rc_reset c) in
  match forward with
  | None => reset_streams c [ri_stream incoming]
  | Some n =>
      mkRemoteClient (rc_closed c) (rc_forwards c) (rc_listeners c) (rc_dispatch c ++ [(incoming, n)])
        (rc_closing c) (rc_lost c) (rc_arrived c) (rc_reset c)
  end.

(** The [i]th pending delivery. *)
Definition remote_deliver (c : remoteClient) (i : nat) : remoteClient :=
  match rc_dispatch c !! i with
  | None => c
  | Some (incoming, n) =>
      let c := mkRemoteClient (rc_closed c) (rc_forwards c) (rc_listeners c) (delete i (rc_dispatch c))
                 (rc_closing c) (rc_lost c) (rc_arrived c) (rc_reset c) in
      match rc_listeners c !! n with
      | None => c
      | Some (p, f) =>
          let '(f, refused) := listener_deliver (rc_closed c) f incoming in
          let c := set_listeners c (<[n := (p, f)]> (rc_listeners c)) in
          match refused with Some x => reset_streams c [ri_stream x] | None => c end
      end
  end.

(** The [i]th pending [closeLocal]. *)
Definition remote_closeLocal (c : remoteClient) (i : nat) : remoteClient :=
  match rc_closing c !! i with
  | None => c
  | Some (n, err) =>
      let c := mkRemoteClient (rc_closed c) (rc_forwards c) (rc_listeners c) (rc_dispatch c)
                 (delete i (rc_closing c)) (rc_lost c) (rc_arrived c) (rc_reset c) in
      match rc_listeners c !! n with
      | None => c
      | Some (p, f) =>
          let '(f, pending) := listener_closeLocal f err in
          reset_streams (set_listeners c (<[n := (p, f)]> (rc_listeners c))) (ri_stream <$> pending)
      end
  end.

(** [Accept] on listener [n]. *)
Definition remote_Accept (c : remoteClient) (n : nat) (ctxErr : option error)
    : remoteClient * option (result remoteIncoming) :=
  match rc_listeners c !! n with
  | None => (c, None)
  | Some (p, f) =>
      let '(r, f) := listener_accept (rc_closed c) ctxErr f in
      (set_listeners c (<[n := (p, f)]> (rc_listeners c)), r)
  end.

(** [Cancel] of listener [n], up to its [closeLocal]. *)
Definition remote_Cancel (c : remoteClient) (n : nat) : remoteClient :=
  match rc_listeners c !! n with
  | None => c
  | Some (p, f) =>
      match listener_cancel f with
      | (_, false) => c
      | (f, true) =>
          add_closing (remote_removeForward (set_listeners c (<[n := (p, f)]> (rc_listeners c))) n)
            [(n, ESentinel context_Canceled)]
      end
  end.

(** [Client.Close]: the closed channel, then [remoteForwardClient.close]. *)
Definition remote_markClosed (c : remoteClient) : remoteClient :=
  mkRemoteClient true (rc_forwards c) (rc_listeners c) (rc_dispatch c) (rc_closing c) (rc_lost c)
    (rc_arrived c) (rc_reset c).
Definition remote_close (c : remoteClient) : remoteClient :=
  add_closing (set_rforwards c ∅)
    ((fun n => (n, ESentinel ErrConnectionClosed)) <$> (map_to_list (rc_forwards c)).*2).

Inductive remote_step : remoteClient → remoteClient → Prop :=
| remote_listen c host port : remote_step c (remote_Listen c host port).1
| remote_response c n bind f response :
    rc_listeners c !! n = Some (ListenInFlight bind, f) →
    remote_step c (remote_Listen_response c n bind response).1
| remote_stream c info : remote_step c (remote_dispatch c info)
| remote_delivery c i : remote_step c (remote_deliver c i)
| remote_closing c i : remote_step c (remote_closeLocal c i)
| remote_accept c n ctxErr : remote_step c (remote_Accept c n ctxErr).1
| remote_cancel c n bind port f :
    rc_listeners c !! n = Some (Listening bind port, f) → remote_step c (remote_Cancel c n)
| remote_mark_closed c : remote_step c (remote_markClosed c)
| remote_close_all c : rc_closed c = true → remote_step c (remote_close c).
