(* ===== verification/HelperClientProps.v ===== *)
(** Properties of the gateway's side of helper forwarding: streams of the helper are neither lost
    nor duplicated, and closing releases everything. *)

From S2P Require Import Prelude Runs GoStrings GoStrconv SpdyRpc HelperClient.

(** ** Messages *)

(** What the helper says about a connection is what the gateway reads. *)
Lemma remoteIncoming_roundtrip stream bind requestedBind peer host portText port :
  SplitHostPort peer = Some (host, portText) → ParseUint portText 10 32 = Some port → (0 ≤ port < 2 ^ 32)%Z →
  remoteIncomingFromStream stream (proxyRemoteListenerHeaders bind requestedBind peer) =
  Ok (mkIncoming stream (mkConnectionInfo bind requestedBind host port)).
Proof.
  intros Hs Hp Hr. unfold proxyRemoteListenerHeaders. rewrite Hs. simpl. rewrite Hp. simpl.
  unfold remoteIncomingFromStream, remoteConnectionHeaderValues, header_Get, remoteConnectionHeaders.
  unfold remoteBindHeader, requestedRemoteBindHeader, originHostHeader, originPortHeader.
  rewrite lookup_insert_eq. simpl. rewrite ParseUint_FormatUint by lia.
  repeat (rewrite lookup_insert_ne by done; rewrite ?lookup_insert_eq). done.
Qed.

(** ** Listeners *)

Section Listener.
Context {A : Type}.
Implicit Types f : helperListener A.

(** The queue is what was delivered and not yet accepted; a closed listener has no queue. *)
Definition listener_ok f : Prop :=
  if hl_closed f then hl_incoming f = [] ∧ hl_accepted f `prefix_of` hl_delivered f
  else hl_delivered f = hl_accepted f ++ hl_incoming f.

Lemma deliver_ok b f x : listener_ok f → listener_ok (listener_deliver b f x).1.
Proof.
  intros Hok. unfold listener_deliver. destruct (hl_closed f) eqn:Hc; [done|]. destruct b; [done|].
  unfold listener_ok in *. simpl. rewrite Hc in *. rewrite Hok. by rewrite (assoc_L (++)).
Qed.
Lemma closeLocal_ok f e : listener_ok f → listener_ok (listener_closeLocal f e).1.
Proof.
  intros Hok. unfold listener_closeLocal. destruct (hl_closed f) eqn:Hc; [done|].
  unfold listener_ok in *. rewrite Hc in Hok. simpl. split; [done|]. rewrite Hok. by apply prefix_app_r.
Qed.
Lemma accept_ok b e f : listener_ok f → listener_ok (listener_accept b e f).2.
Proof.
  intros Hok. unfold listener_accept. destruct (hl_incoming f) as [|x rest] eqn:Hi; [done|].
  unfold listener_ok in *. simpl. destruct (hl_closed f); [by destruct Hok; congruence|].
  rewrite Hok, Hi. by rewrite <-(assoc_L (++)).
Qed.
Lemma cancel_ok f : listener_ok f → listener_ok (listener_cancel f).1.
Proof. done. Qed.

(** A closed listener never makes its acceptor wait, and neither does a closed connection. *)
Lemma accept_returns b e f :
  hl_closed f = true ∨ b = true → (listener_accept b e f).1 ≠ None.
Proof.
  intros Hc. unfold listener_accept. destruct (hl_incoming f); [|done]. simpl. destruct e; [done|].
  destruct (hl_closed f) eqn:E; simpl.
  - case_bool_decide as Hs; [destruct Hs as [? ->]; done|]. by destruct b.
  - destruct Hc as [|Hb]; [done|]. by rewrite Hb.
Qed.
End Listener.

(** ** Streams *)

Definition streams_of (l : (listenPhase * helperListener remoteIncoming)) : list nat := ri_stream <$> (hl_accepted l.2 ++ hl_incoming l.2).

Definition held_streams (ls : list (listenPhase * helperListener remoteIncoming)) : list nat := flat_map streams_of ls.

(** Replacing one element of a list exchanges its share of the concatenation. *)
Lemma flat_map_insert {A B} (g : A → list B) (ls : list A) n l l' :
  ls !! n = Some l → flat_map g (<[n := l']> ls) ++ g l ≡ₚ flat_map g ls ++ g l'.
Proof.
  intros Hl. assert (n < length ls) by by eapply lookup_lt_Some.
  rewrite <-(take_drop_middle ls n l Hl) at 2. rewrite insert_take_drop by done.
  rewrite !flat_map_app. simpl. solve_Permutation.
Qed.

Lemma streams_insert ls n l l' :
  ls !! n = Some l → held_streams (<[n := l']> ls) ++ streams_of l ≡ₚ held_streams ls ++ streams_of l'.
Proof. apply flat_map_insert. Qed.

Lemma held_same ls n l l' :
  ls !! n = Some l → streams_of l' = streams_of l → held_streams (<[n := l']> ls) ≡ₚ held_streams ls.
Proof.
  intros Hl Hs. pose proof (streams_insert ls n l l' Hl) as Hp. rewrite Hs in Hp.
  by apply Permutation_app_inv_r in Hp.
Qed.

Lemma held_alter_phase ls n p : held_streams (alter (set_phase p) n ls) = held_streams ls.
Proof.
  revert n. induction ls as [|l ls IH]; intros [|n]; try done. cbn. f_equal. apply IH.
Qed.
Lemma held_app ls ls' : held_streams (ls ++ ls') = held_streams ls ++ held_streams ls'.
Proof. apply flat_map_app. Qed.

(** Every stream that arrived is in one place. *)
Definition streams (c : remoteClient) : list nat :=
  rc_reset c ++ (ri_stream ∘ fst <$> rc_dispatch c) ++ held_streams (rc_listeners c).

(** The name under which a listener may be registered. *)
Definition phase_key (p : listenPhase) : option string :=
  match p with ListenInFlight b => Some b | Listening b _ => Some b | ListenFailed => None end.

Definition registered (c : remoteClient) (n : nat) : Prop := ∃ b, rc_forwards c !! b = Some n.

Record remote_inv (c : remoteClient) : Prop := {
  ri_streams : streams c ≡ₚ seq 0 (rc_arrived c);
  ri_ok : ∀ n p f, rc_listeners c !! n = Some (p, f) → listener_ok f;
  ri_registered : ∀ b n, rc_forwards c !! b = Some n → ∃ p f, rc_listeners c !! n = Some (p, f) ∧
    phase_key p = Some b ∧ hl_closed f = false ∧ n ∉ (rc_closing c).*1;
  ri_open : ∀ n p f, rc_listeners c !! n = Some (p, f) → hl_closed f = false →
    registered c n ∨ n ∈ (rc_closing c).*1 ∨ n ∈ rc_lost c;
  ri_dispatch : ∀ x n, (x, n) ∈ rc_dispatch c → n < length (rc_listeners c);
  ri_closing : ∀ n, n ∈ (rc_closing c).*1 → n < length (rc_listeners c);
}.

Lemma newRemoteForwardClient_inv : remote_inv newRemoteForwardClient.
Proof. split; simpl; try done; set_solver. Qed.

(** Changing the first component of one pair of a list. *)
Lemma lookup_alter_fst {A B} (ls : list (A * B)) (p : A) n k q f :
  alter (λ l : A * B, (p, l.2)) n ls !! k = Some (q, f) ↔
  (k = n ∧ q = p ∧ ∃ q', ls !! n = Some (q', f)) ∨ (k ≠ n ∧ ls !! k = Some (q, f)).
Proof.
  destruct (decide (k = n)) as [->|Hne].
  - rewrite list_lookup_alter_eq. destruct (ls !! n) as [[q' f']|]; simpl; split.
    + intros Heq. injection Heq as <- <-. left. eauto.
    + intros [(_ & -> & q'' & [= _ ->])|[? _]]; done.
    + done.
    + intros [(_ & _ & ? & ?)|[? _]]; done.
  - rewrite list_lookup_alter_ne by done. split; [by right|]. intros [[? _]|[_ ?]]; done.
Qed.

Lemma lookup_phase (ls : list (listenPhase * helperListener remoteIncoming)) n p k q f :
  alter (set_phase p) n ls !! k = Some (q, f) ↔
  (k = n ∧ q = p ∧ ∃ q', ls !! n = Some (q', f)) ∨ (k ≠ n ∧ ls !! k = Some (q, f)).
Proof. apply lookup_alter_fst. Qed.

(** Steps that change one listener and keep its registration. *)
Lemma remote_inv_listener c n p f f' reset dispatch :
  remote_inv c → rc_listeners c !! n = Some (p, f) → listener_ok f' → hl_closed f' = hl_closed f →
  rc_reset c ++ (ri_stream ∘ fst <$> rc_dispatch c) ++ streams_of (p, f) ≡ₚ
    reset ++ (ri_stream ∘ fst <$> dispatch) ++ streams_of (p, f') →
  (∀ x k, (x, k) ∈ dispatch → (x, k) ∈ rc_dispatch c) →
  remote_inv (mkRemoteClient (rc_closed c) (rc_forwards c) (<[n := (p, f')]> (rc_listeners c)) dispatch
    (rc_closing c) (rc_lost c) (rc_arrived c) reset).
Proof.
  intros [Hs Hok Hreg Hopen Hd Hcl] Hl Hok' Hc Hst Hsub.
  assert (n < length (rc_listeners c)) as Hlt by by eapply lookup_lt_Some.
  split; simpl; unfold registered in *; simpl.
  - rewrite <-Hs. unfold streams. simpl. pose proof (streams_insert _ _ _ (p, f') Hl) as Hh.
    apply (Permutation_app_inv_r (streams_of (p, f))). rewrite <-!(assoc_L (++)), Hh.
    rewrite (Permutation_app_comm (held_streams _) (streams_of (p, f'))).
    rewrite (Permutation_app_comm (held_streams _) (streams_of (p, f))).
    rewrite !(assoc_L (++)). apply Permutation_app_tail. rewrite <-!(assoc_L (++)). by symmetry.
  - intros k q g Hk. destruct (decide (k = n)) as [->|Hne].
    + rewrite list_lookup_insert_eq in Hk by done. by simplify_eq.
    + rewrite list_lookup_insert_ne in Hk by done. by eapply Hok.
  - intros b k Hb. destruct (Hreg b k Hb) as (q & g & Hk & Hkey & Hcg & Hnc).
    destruct (decide (k = n)) as [->|Hne].
    + rewrite Hl in Hk. simplify_eq. exists q, f'. rewrite list_lookup_insert_eq by done.
      split_and!; try done. by rewrite Hc.
    + exists q, g. by rewrite list_lookup_insert_ne.
  - intros k q g Hk Hcg. destruct (decide (k = n)) as [->|Hne].
    + rewrite list_lookup_insert_eq in Hk by done. simplify_eq. eapply Hopen; [exact Hl|]. by rewrite <-Hc.
    + rewrite list_lookup_insert_ne in Hk by done. by eapply Hopen.
  - intros x k Hx. rewrite length_insert. eapply Hd. by apply Hsub.
  - intros k Hk. rewrite length_insert. by apply Hcl.
Qed.

Lemma remote_Listen_inv c host port : remote_inv c → remote_inv (remote_Listen c host port).1.
Proof.
  intros Hinv. pose proof Hinv as [Hs Hok Hreg Hopen Hd Hcl]. unfold remote_Listen, remote_add.
  set (bind := JoinHostPort host _). destruct (rc_forwards c !! bind) eqn:Hb; [done|].
  split; simpl; unfold registered in *; simpl.
  - rewrite <-Hs. unfold streams. simpl. rewrite held_app. simpl. by rewrite app_nil_r.
  - intros n p f [Hn|[-> [= <- <-]]]%lookup_snoc_Some; [|done]. destruct Hn as [_ Hn]. by eapply Hok.
  - intros b n Hbn. destruct (decide (b = bind)) as [->|Hne].
    + rewrite lookup_insert_eq in Hbn. simplify_eq. eexists _, _. rewrite list_lookup_middle by done. split_and!; try done.
      intros Hin. apply Hcl in Hin. lia.
    + rewrite lookup_insert_ne in Hbn by done. destruct (Hreg b n Hbn) as (p & f & Hn & ?).
      exists p, f. by rewrite lookup_app_l by by eapply lookup_lt_Some.
  - intros n p f [[Hlt Hn]|[-> [= <- <-]]]%lookup_snoc_Some Hc.
    + destruct (Hopen n p f Hn Hc) as [[b Hbn]|?]; [left; exists b|by right].
      rewrite lookup_insert_ne; [done|]. intros ->. congruence.
    + left. exists bind. by rewrite lookup_insert_eq.
  - intros x n Hx%Hd. rewrite length_app. simpl. lia.
  - intros n Hn%Hcl. rewrite length_app. simpl. lia.
Qed.

Lemma alter_set_phase p q (n : nat) (ls : list (listenPhase * helperListener remoteIncoming)) :
  alter (set_phase p) n (alter (set_phase q) n ls) = alter (set_phase p) n ls.
Proof.
  apply list_eq. intros i. destruct (decide (i = n)) as [->|Hne].
  - rewrite !list_lookup_alter_eq. by destruct (ls !! n).
  - by rewrite !list_lookup_alter_ne by done.
Qed.

(** A listener that is in flight can only be registered under its requested bind. *)
Lemma in_flight_key c n bind f b :
  remote_inv c → rc_listeners c !! n = Some (ListenInFlight bind, f) → rc_forwards c !! b = Some n → b = bind.
Proof.
  intros Hinv Hl Hb. destruct (ri_registered c Hinv b n Hb) as (p & g & Hn & Hkey & _).
  rewrite Hl in Hn. by simplify_eq/=.
Qed.

(** [Listen] returned with an error: the listener leaves the registry and will be closed. *)
Lemma remote_failed_inv c n bind f m e :
  remote_inv c → rc_listeners c !! n = Some (ListenInFlight bind, f) →
  (∀ b k, m !! b = Some k ↔ rc_forwards c !! b = Some k ∧ k ≠ n) →
  remote_inv (add_closing (set_rforwards (set_listeners c (alter (set_phase ListenFailed) n (rc_listeners c))) m)
                [(n, e)]).
Proof.
  intros Hinv Hl Hm. pose proof Hinv as [Hs Hok Hreg Hopen Hd Hcl].
  split; simpl; unfold registered in *; simpl.
  - rewrite <-Hs. unfold streams. simpl. by rewrite held_alter_phase.
  - intros k p g [(-> & -> & q & Hk)|[Hne Hk]]%lookup_phase; by eapply Hok.
  - intros b k [Hb Hne]%Hm. destruct (Hreg b k Hb) as (p & g & Hk & Hkey & Hc & Hnc).
    exists p, g. split_and!; [apply lookup_phase; by right|done..|].
    rewrite fmap_app. set_solver.
  - intros k p g [(-> & -> & q & Hk)|[Hne Hk]]%lookup_phase Hc; rewrite fmap_app.
    + right. left. set_solver.
    + destruct (Hopen k p g Hk Hc) as [[b Hb]|[?|?]]; [left; exists b; by apply Hm|set_solver..].
  - intros x k Hx%Hd. by rewrite length_alter.
  - intros k. rewrite fmap_app, elem_of_app, length_alter. intros [Hk%Hcl|Hk]; [done|].
    assert (k = n) as -> by set_solver. by eapply lookup_lt_Some.
Qed.

Lemma remote_rekeyed_inv c n bind f newBind port :
  remote_inv c → rc_listeners c !! n = Some (ListenInFlight bind, f) → rc_forwards c !! bind = Some n →
  let m := if bool_decide (bind ≠ newBind) then delete bind (rc_forwards c) else rc_forwards c in
  let lost := match m !! newBind with
              | Some other => if bool_decide (other = n) then [] else [other]
              | None => []
              end in
  remote_inv (mkRemoteClient (rc_closed c) (<[newBind := n]> m)
    (alter (set_phase (Listening newBind port)) n (rc_listeners c)) (rc_dispatch c) (rc_closing c)
    (rc_lost c ++ lost) (rc_arrived c) (rc_reset c)).
Proof.
  intros Hinv Hl Hbind m lost. pose proof Hinv as [Hs Hok Hreg Hopen Hd Hcl].
  destruct (Hreg bind n Hbind) as (p0 & g0 & Hn0 & _ & Hc0 & Hnc0).
  assert (∀ b k, b ≠ newBind → m !! b = Some k ↔ rc_forwards c !! b = Some k ∧ b ≠ bind) as Hm.
  { intros b k Hb. unfold m. case_bool_decide as Hne.
    - rewrite lookup_delete_Some. naive_solver.
    - subst. naive_solver. }
  split; simpl; unfold registered in *; simpl.
  - rewrite <-Hs. unfold streams. simpl. by rewrite held_alter_phase.
  - intros k p g [(-> & -> & q & Hk)|[Hne Hk]]%lookup_phase; by eapply Hok.
  - intros b k Hb. destruct (decide (b = newBind)) as [->|Hne].
    + rewrite lookup_insert_eq in Hb. simplify_eq. exists (Listening newBind port), f.
      split_and!; try done. apply lookup_phase. left. eauto.
    + rewrite lookup_insert_ne in Hb by done. apply Hm in Hb as [Hb Hbb]; [|done].
      assert (k ≠ n) as Hkn by (intros ->; by apply Hbb, (in_flight_key c n bind f)).
      destruct (Hreg b k Hb) as (p & g & Hk & ?). exists p, g. split; [apply lookup_phase; by right|done].
  - intros k p g [(-> & -> & q & Hk)|[Hne Hk]]%lookup_phase Hc.
    + left. exists newBind. by rewrite lookup_insert_eq.
    + destruct (Hopen k p g Hk Hc) as [[b Hb]|[?|?]]; [|by auto|set_solver].
      assert (b ≠ bind) as Hbb by congruence.
      destruct (decide (b = newBind)) as [->|Hnb].
      * right. right. apply elem_of_app. right. unfold lost, m.
        rewrite bool_decide_eq_true_2 by done. rewrite lookup_delete_ne by done. rewrite Hb.
        rewrite bool_decide_eq_false_2 by done. set_solver.
      * left. exists b. rewrite lookup_insert_ne by done. by apply Hm.
  - intros x k Hx%Hd. by rewrite length_alter.
  - intros k Hk%Hcl. by rewrite length_alter.
Qed.

Lemma remote_response_inv c n bind f response :
  remote_inv c → rc_listeners c !! n = Some (ListenInFlight bind, f) →
  remote_inv (remote_Listen_response c n bind response).1.
Proof.
  intros Hinv Hl. unfold remote_Listen_response. destruct response as [[actual port]|e].
  - unfold remote_rekey. cbn [rc_forwards set_listeners]. case_bool_decide as Hb.
    + exact (remote_rekeyed_inv c n bind f actual port Hinv Hl Hb).
    + cbn. rewrite alter_set_phase. apply (remote_failed_inv c n bind f (rc_forwards c)); try done.
      intros b k. split; [|by intros [? _]]. intros Hk. split; [done|]. intros ->.
      apply Hb. by rewrite <-(in_flight_key c n bind f b).
  - cbn. unfold remote_removeIfMatch. cbn.
    assert (∀ b k, (if bool_decide (rc_forwards c !! bind = Some n) then delete bind (rc_forwards c)
                    else rc_forwards c) !! b = Some k ↔ rc_forwards c !! b = Some k ∧ k ≠ n) as Hm.
    { intros b k. case_bool_decide as Hb.
      - rewrite lookup_delete_Some. split.
        + intros [Hne Hk]. split; [done|]. intros ->. by apply Hne, (eq_sym (in_flight_key c n bind f b Hinv Hl Hk)).
        + intros [Hk Hne]. split; [|done]. intros ->. congruence.
      - split; [|by intros [? _]]. intros Hk. split; [done|]. intros ->.
        apply Hb. by rewrite <-(in_flight_key c n bind f b). }
    pose proof (remote_failed_inv c n bind f _ e Hinv Hl Hm) as Hf. by case_bool_decide.
Qed.

Lemma remote_dispatch_inv c info : remote_inv c → remote_inv (remote_dispatch c info).
Proof.
  intros [Hs Hok Hreg Hopen Hd Hcl]. unfold remote_dispatch. cbn [rc_forwards].
  set (target := match rc_forwards c !! ci_Bind info with Some n => Some n | None => _ end).
  assert (∀ n, target = Some n → n < length (rc_listeners c)) as Ht.
  { intros n Hn. assert (registered c n) as [b Hb].
    { unfold target in Hn. destruct (rc_forwards c !! ci_Bind info) eqn:E; [simplify_eq; by eexists|by eexists]. }
    destruct (Hreg b n Hb) as (p & f & Hl & _). by eapply lookup_lt_Some. }
  destruct target as [n|]; split; simpl; try done; unfold streams in *; simpl.
  - change (0 :: seq 1 (rc_arrived c)) with (seq 0 (S (rc_arrived c))).
    rewrite seq_S, <-Hs, fmap_app. simpl. solve_Permutation.
  - intros x k [Hx|Hx]%elem_of_app; [by eapply Hd|]. assert (k = n) as -> by set_solver. by apply Ht.
  - change (0 :: seq 1 (rc_arrived c)) with (seq 0 (S (rc_arrived c))).
    rewrite seq_S, <-Hs. simpl. solve_Permutation.
Qed.

Lemma fmap_delete_Permutation {A B} (g : A → B) (l : list A) i x :
  l !! i = Some x → g <$> l ≡ₚ g x :: (g <$> delete i l).
Proof. intros Hi. rewrite <-fmap_cons. f_equiv. by apply delete_Permutation. Qed.

Lemma elem_of_list_delete {A} (l : list A) i x : x ∈ delete i l → x ∈ l.
Proof. intros Hx. eapply elem_of_submseteq; [exact Hx|]. apply submseteq_delete. Qed.

Lemma remote_deliver_inv c i : remote_inv c → remote_inv (remote_deliver c i).
Proof.
  intros Hinv. unfold remote_deliver. destruct (rc_dispatch c !! i) as [[x n]|] eqn:Hi; [|done].
  cbn [rc_listeners rc_closed].
  assert (n < length (rc_listeners c)) as Hn.
  { eapply (ri_dispatch c Hinv x). by eapply list_elem_of_lookup_2. }
  destruct (rc_listeners c !! n) as [[p f]|] eqn:Hl; [|apply lookup_ge_None in Hl; lia].
  pose proof (fmap_delete_Permutation (ri_stream ∘ fst) _ _ _ Hi) as Hp. simpl in Hp.
  pose proof (deliver_ok (rc_closed c) f x (ri_ok c Hinv n p f Hl)) as Hok.
  unfold listener_deliver in *. destruct (hl_closed f || rc_closed c) eqn:Hc; simpl in *.
  - eapply (remote_inv_listener c n p f f (rc_reset c ++ [ri_stream x])); try done.
    + rewrite Hp. solve_Permutation.
    + intros y k. apply elem_of_list_delete.
  - eapply (remote_inv_listener c n p f _ (rc_reset c)); try done.
    + rewrite Hp. unfold streams_of. simpl. rewrite !fmap_app. simpl. solve_Permutation.
    + intros y k. apply elem_of_list_delete.
Qed.

Lemma remote_Accept_inv c n e : remote_inv c → remote_inv (remote_Accept c n e).1.
Proof.
  intros Hinv. unfold remote_Accept. destruct (rc_listeners c !! n) as [[p f]|] eqn:Hl; [|done].
  pose proof (accept_ok (rc_closed c) e f (ri_ok c Hinv n p f Hl)) as Hok.
  unfold listener_accept in *. destruct (hl_incoming f) as [|x rest] eqn:Hi; simpl in *;
    (eapply (remote_inv_listener c n p f); try done).
  unfold streams_of. simpl. by rewrite Hi, <-(assoc_L (++)).
Qed.

(** A listener that has left the registry may be marked for closing. *)
Lemma remote_unregister_inv c m l :
  remote_inv c → (∀ b k, m !! b = Some k ↔ rc_forwards c !! b = Some k ∧ k ∉ l.*1) →
  (∀ k, k ∈ l.*1 → k < length (rc_listeners c)) →
  remote_inv (add_closing (set_rforwards c m) l).
Proof.
  intros [Hs Hok Hreg Hopen Hd Hcl] Hm Hlt. split; simpl; unfold registered in *; simpl; try done.
  - intros b k [Hb Hk]%Hm. destruct (Hreg b k Hb) as (p & f & ? & ? & ? & ?). exists p, f.
    rewrite fmap_app. set_solver.
  - intros k p f Hk Hc. rewrite fmap_app, elem_of_app.
    destruct (decide (k ∈ l.*1)) as [Hin|Hin]; [by auto|].
    destruct (Hopen k p f Hk Hc) as [[b Hb]|[?|?]]; [left; exists b; by apply Hm|by auto..].
  - intros k. rewrite fmap_app, elem_of_app. intros [?|?]; auto.
Qed.

Lemma remote_Cancel_inv c n : remote_inv c → remote_inv (remote_Cancel c n).
Proof.
  intros Hinv. unfold remote_Cancel. destruct (rc_listeners c !! n) as [[p f]|] eqn:Hl; [|done].
  unfold listener_cancel. destruct (hl_cancelled f); [done|]. simpl.
  set (f' := mkListener _ _ _ _ _ _).
  pose proof (remote_inv_listener c n p f f' (rc_reset c) (rc_dispatch c) Hinv Hl
    (ri_ok c Hinv n p f Hl) eq_refl ltac:(done) ltac:(done)) as Hinv'.
  apply (remote_unregister_inv _ _ [(n, ESentinel context_Canceled)] Hinv').
  - intros b k. rewrite map_lookup_filter_Some. simpl. set_solver.
  - intros k Hk. assert (k = n) as -> by set_solver. simpl. rewrite length_insert. by eapply lookup_lt_Some.
Qed.

Lemma remote_close_inv c : remote_inv c → remote_inv (remote_close c).
Proof.
  intros Hinv. unfold remote_close. set (l := _ <$> _).
  assert (∀ k, k ∈ l.*1 ↔ registered c k) as Hl.
  { intros k. unfold l. rewrite <-list_fmap_compose. unfold compose. simpl. rewrite list_fmap_id.
    unfold registered. rewrite list_elem_of_fmap. setoid_rewrite elem_of_map_to_list'.
    split; [intros ([b k'] & -> & ?); eauto|intros [b ?]; by exists (b, k)]. }
  apply remote_unregister_inv; [done|..].
  - intros b k. rewrite lookup_empty. split; [done|]. intros [Hb Hk]. exfalso. apply Hk, Hl. by exists b.
  - intros k [b Hb]%Hl. destruct (ri_registered c Hinv b k Hb) as (p & f & ? & _). by eapply lookup_lt_Some.
Qed.

Lemma closeLocal_facts {A} (f : helperListener A) e :
  hl_closed (listener_closeLocal f e).1 = true ∧
  hl_accepted (listener_closeLocal f e).1 = hl_accepted f ∧
  hl_incoming f = hl_incoming (listener_closeLocal f e).1 ++ (listener_closeLocal f e).2.
Proof.
  unfold listener_closeLocal. destruct (hl_closed f) eqn:Hc; simpl; [|done]. by rewrite app_nil_r.
Qed.

Lemma remote_closeLocal_inv c i : remote_inv c → remote_inv (remote_closeLocal c i).
Proof.
  intros Hinv. unfold remote_closeLocal. destruct (rc_closing c !! i) as [[n e]|] eqn:Hi; [|done].
  cbn [rc_listeners]. pose proof Hinv as [Hs Hok Hreg Hopen Hd Hcl].
  pose proof (fmap_delete_Permutation fst _ _ _ Hi) as Hp. simpl in Hp.
  assert (n ∈ (rc_closing c).*1) as Hn by (rewrite Hp; left).
  destruct (rc_listeners c !! n) as [[p f]|] eqn:Hl; [|apply lookup_ge_None in Hl; specialize (Hcl n Hn); lia].
  pose proof (closeLocal_ok f e (Hok n p f Hl)) as Hok'.
  destruct (closeLocal_facts f e) as (Hc & Ha & Hinc).
  destruct (listener_closeLocal f e) as [f' pending]. simpl in *.
  assert (n < length (rc_listeners c)) as Hlt by by eapply lookup_lt_Some.
  split; simpl; unfold registered in *; simpl.
  - rewrite <-Hs. unfold streams. simpl. pose proof (streams_insert _ _ _ (p, f') Hl) as Hh.
    apply (Permutation_app_inv_r (streams_of (p, f))). rewrite <-!(assoc_L (++)), Hh.
    unfold streams_of. simpl. rewrite Ha, Hinc, !fmap_app. solve_Permutation.
  - intros k q g Hk. destruct (decide (k = n)) as [->|Hne].
    + rewrite list_lookup_insert_eq in Hk by done. by simplify_eq.
    + rewrite list_lookup_insert_ne in Hk by done. by eapply Hok.
  - intros b k Hb. destruct (Hreg b k Hb) as (q & g & Hk & Hkey & Hcg & Hnc).
    assert (k ≠ n) by (by intros ->). exists q, g. rewrite list_lookup_insert_ne by done.
    split_and!; try done. intros Hin. apply Hnc. rewrite Hp. by right.
  - intros k q g Hk Hcg. destruct (decide (k = n)) as [->|Hne].
    + rewrite list_lookup_insert_eq in Hk by done. simplify_eq. by rewrite Hcg in Hc.
    + rewrite list_lookup_insert_ne in Hk by done. destruct (Hopen k q g Hk Hcg) as [?|[Hin|?]]; [by auto| |by auto].
      rewrite Hp in Hin. right. left. set_solver.
  - intros x k Hx%Hd. by rewrite length_insert.
  - intros k Hk. rewrite length_insert. apply Hcl. rewrite Hp. by right.
Qed.

Lemma remote_client_step_inv x y : remote_inv x → remote_step x y → remote_inv y.
Proof.
  intros Hx Hs. destruct Hs; auto using remote_Listen_inv, remote_dispatch_inv, remote_deliver_inv,
    remote_closeLocal_inv, remote_Accept_inv, remote_Cancel_inv, remote_close_inv.
  - by eapply remote_response_inv.
  - by destruct Hx; split.
Qed.

Lemma remote_reachable_inv c : rtc remote_step newRemoteForwardClient c → remote_inv c.
Proof. apply (rtc_invariant _ _ remote_client_step_inv), newRemoteForwardClient_inv. Qed.

(** Streams of remotely forwarded connections are neither lost nor duplicated, under every
    interleaving of listening, dispatching, accepting, cancelling and closing, whatever the helper
    answers.  Every stream that arrived is in exactly one place: reset, about to be delivered, or
    with one listener, which hands out what was delivered to it in order.  A listener in the
    registry is open and stands under its own address only.  A closed listener has an empty queue
    and [Accept] on it returns at once.  When the client has been closed and its calls have ended,
    every listener is closed, except one whose entry another listener's response overwrote. *)
Theorem helper_streams_conserved c :
  rtc remote_step newRemoteForwardClient c →
  rc_reset c ++ (ri_stream ∘ fst <$> rc_dispatch c) ++ held_streams (rc_listeners c) ≡ₚ seq 0 (rc_arrived c) ∧
  (∀ n p f, rc_listeners c !! n = Some (p, f) →
     hl_accepted f `prefix_of` hl_delivered f ∧
     (hl_closed f = false → hl_delivered f = hl_accepted f ++ hl_incoming f) ∧
     (hl_closed f = true → hl_incoming f = [] ∧ ∀ ctxErr, (remote_Accept c n ctxErr).2 ≠ None)) ∧
  (∀ b n, rc_forwards c !! b = Some n → ∃ p f, rc_listeners c !! n = Some (p, f) ∧
     phase_key p = Some b ∧ hl_closed f = false) ∧
  (rc_forwards c = ∅ → rc_closing c = [] → ∀ n p f, rc_listeners c !! n = Some (p, f) →
     n ∉ rc_lost c → hl_closed f = true).
Proof.
  intros [Hs Hok Hreg Hopen Hd Hcl]%remote_reachable_inv. split_and!; [done|..].
  - intros n p f Hl. pose proof (Hok n p f Hl) as Hf. unfold listener_ok in Hf.
    destruct (hl_closed f) eqn:Hc.
    + destruct Hf as [Hi Hp]. split; [done|]. split; [done|]. intros _. split; [done|]. intros ctxErr.
      unfold remote_Accept. rewrite Hl. pose proof (accept_returns (rc_closed c) ctxErr f (or_introl Hc)) as Ha.
      by destruct (listener_accept _ _ f).
    + split; [rewrite Hf; by apply prefix_app_r|]. split; [done|by intros].
  - intros b n Hb. destruct (Hreg b n Hb) as (p & f & ? & ? & ? & _). eauto.
  - intros Hf Hc n p f Hl Hn. destruct (hl_closed f) eqn:E; [done|].
    destruct (Hopen n p f Hl E) as [[b Hb]|[Hin|?]]; [by rewrite Hf in Hb| |done].
    rewrite Hc in Hin. set_solver.
Qed.

(** A listener on port 8022 receives two streams; the first is accepted, the second is reset when
    the client closes. *)
Definition remote_example : remoteClient :=
  let c := (remote_Listen newRemoteForwardClient "127.0.0.1" 8022).1 in
  let c := (remote_Listen_response c 0 "127.0.0.1:8022" (Ok ("127.0.0.1:8022", 8022%Z))).1 in
  let info := mkConnectionInfo "127.0.0.1:8022" "127.0.0.1:8022" "10.0.0.7" 40000 in
  let c := remote_deliver (remote_dispatch c info) 0 in
  let c := remote_deliver (remote_dispatch c info) 0 in
  let c := (remote_Accept c 0 None).1 in
  remote_closeLocal (remote_close (remote_markClosed c)) 0.

Lemma helper_streams_conserved_witness :
  rc_reset remote_example = [1] ∧ held_streams (rc_listeners remote_example) = [0] ∧
  (rc_forwards remote_example = ∅ → rc_closing remote_example = [] →
   ∀ n p f, rc_listeners remote_example !! n = Some (p, f) → n ∉ rc_lost remote_example → hl_closed f = true).
Proof.
  split; [by vm_compute|]. split; [by vm_compute|].
  apply (helper_streams_conserved remote_example). unfold remote_example.
  eapply rtc_l; [apply (remote_listen _ "127.0.0.1" 8022)|].
  eapply rtc_l; [by eapply (remote_response _ 0 "127.0.0.1:8022")|].
  eapply rtc_l; [eapply (remote_stream _ (mkConnectionInfo "127.0.0.1:8022" "127.0.0.1:8022" "10.0.0.7" 40000))|].
  eapply rtc_l; [eapply (remote_delivery _ 0)|].
  eapply rtc_l; [eapply (remote_stream _ (mkConnectionInfo "127.0.0.1:8022" "127.0.0.1:8022" "10.0.0.7" 40000))|].
  eapply rtc_l; [eapply (remote_delivery _ 0)|].
  eapply rtc_l; [eapply (remote_accept _ 0 None)|].
  eapply rtc_l; [apply remote_mark_closed|].
  eapply rtc_l; [by apply remote_close_all|].
  apply rtc_once. eapply (remote_closing _ 0).
Defined.
