(* ===== verification/HelperService.v ===== *)
(** Model of the helper's side of forwarding: [remoteForwardService] and [agentForwardService] of
    [src/pkg/podssh/backend/helper/{remote_forward,agent_forward,server}.go], running on one RPC
    connection.

    A step is one region locked by a service's mutex or one operation on a socket, a directory or the
    connection.  Sockets are numbered in the order they are opened.  The goroutines of the services
    hold units of the connection's work: one for each handler that is under way, one for each
    listener that is served. *)

From S2P Require Import Prelude GoStrings GoStrconv SpdyRpc.

(** ** [remoteForwardService] *)

(** Where the goroutine that owns a listener is.  In [handleListen]: the socket is open, in the map,
    [Go] was refused and the map entry, then the socket, are given up.  In [run]: serving, returning
    with [err] before and after the deferred [Close]. *)
Inductive tcpPhase :=
| TcpOpened
| TcpRegistered
| TcpUndo
| TcpUndoClose
| TcpRunning
| TcpReturning (err : option error)
| TcpRemoving (err : option error)
| TcpDone.

Record remoteTCPListener := mkTCPListener {
  tl_requestedBind : string;
  tl_actualBind : string;
  tl_actualPort : Z;
  tl_open : bool;
  tl_phase : tcpPhase;
}.

(** [net_Listen] gives the address of the new socket; where it is then found unusable the socket is
    closed again. *)
Definition newRemoteTCPListener (net_Listen : string → result string) (bind : string) : result remoteTCPListener :=
  if bool_decide (bind = "") then Err (Errorf "bind is required" [])
  else match SplitHostPort bind with
       | None => Err (EExternal "net.SplitHostPort")
       | Some (host, portText) =>
           match ParseUint portText 10 32 with
           | None => Err (EExternal "strconv.ParseUint")
           | Some port =>
               if bool_decide (65535 < port)%Z then Err (Errorf "port must be between 0 and 65535" [])
               else
                 actualBind ← net_Listen (JoinHostPort host portText);
                 match SplitHostPort actualBind with
                 | None => Err (EExternal "net.SplitHostPort")
                 | Some (_, actualPortText) =>
                     match ParseUint actualPortText 10 32 with
                     | None => Err (EExternal "strconv.ParseUint")
                     | Some actualPort =>
                         Ok (mkTCPListener bind actualBind (to_uint32 actualPort) true TcpOpened)
                     end
                 end
           end
       end.

Definition set_tcp (phase : tcpPhase) (opened : bool) (l : remoteTCPListener) : remoteTCPListener :=
  mkTCPListener (tl_requestedBind l) (tl_actualBind l) (tl_actualPort l) opened phase.
(** [Close]; closing again changes nothing. *)
Definition tcp_Close (l : remoteTCPListener) : remoteTCPListener := set_tcp (tl_phase l) false l.

Record remoteService := mkRemoteService {
  rs_sockets : list remoteTCPListener;
  rs_listeners : gmap string nat;
  (** Listeners that [handleStop] has taken out of the map and not yet closed. *)
  rs_stopping : list nat;
}.

Definition newRemoteForwardService : remoteService := mkRemoteService [] ∅ [].

Definition set_socket (s : remoteService) (n : nat) (l : remoteTCPListener) : remoteService :=
  mkRemoteService (<[n := l]> (rs_sockets s)) (rs_listeners s) (rs_stopping s).
Definition set_map (s : remoteService) (m : gmap string nat) : remoteService :=
  mkRemoteService (rs_sockets s) m (rs_stopping s).

(** [handleListen], first part; [request] is the decoded bind. *)
Definition remote_handleListen (s : remoteService) (net_Listen : string → result string)
    (request : result string) : remoteService * option error :=
  match bind ← request; newRemoteTCPListener net_Listen bind with
  | Err e => (s, Some e)
  | Ok l => (mkRemoteService (rs_sockets s ++ [l]) (rs_listeners s) (rs_stopping s), None)
  end.

(** [handleListen], the map. *)
Definition remote_register (s : remoteService) (n : nat) (l : remoteTCPListener) : remoteService :=
  set_map (set_socket s n (set_tcp TcpRegistered (tl_open l) l)) (<[tl_actualBind l := n]> (rs_listeners s)).

(** [handleListen], [Go] and the response. *)
Definition remote_go (c : RpcConnection) (s : remoteService) (n : nat) (l : remoteTCPListener)
    : RpcConnection * remoteService * result (string * string * Z) :=
  match conn_Go c false with
  | (c, None) => (c, set_socket s n (set_tcp TcpRunning (tl_open l) l),
                  Ok (tl_requestedBind l, tl_actualBind l, tl_actualPort l))
  | (c, Some e) => (c, set_socket s n (set_tcp TcpUndo (tl_open l) l), Err e)
  end.

(** [remove]. *)
Definition remote_remove (s : remoteService) (n : nat) (l : remoteTCPListener) : remoteService :=
  if bool_decide (rs_listeners s !! tl_actualBind l = Some n)
  then set_map s (delete (tl_actualBind l) (rs_listeners s)) else s.

(** [handleStop], the map. *)
Definition remote_handleStop (s : remoteService) (request : result string) : remoteService * option error :=
  match request with
  | Err e => (s, Some e)
  | Ok bind =>
      (mkRemoteService (rs_sockets s) (delete bind (rs_listeners s))
         (match rs_listeners s !! bind with Some n => rs_stopping s ++ [n] | None => rs_stopping s end), None)
  end.

(** [handleStop], the [i]th pending [Close]. *)
Definition remote_stopClose (s : remoteService) (i : nat) : remoteService :=
  match rs_stopping s !! i with
  | None => s
  | Some n => mkRemoteService (alter tcp_Close n (rs_sockets s)) (rs_listeners s) (delete i (rs_stopping s))
  end.

(** The loop of [remoteTCPListener.run] after [Accept] has returned a connection: true if it goes on. *)
Definition remote_accepted (c : RpcConnection) (s : remoteService) (n : nat) (l : remoteTCPListener)
    : RpcConnection * remoteService :=
  match conn_Go c false with
  | (c, None) => (c, s)
  | (c, Some _) => (c, set_socket s n (set_tcp (TcpReturning None) (tl_open l) l))
  end.

(** ... and after it has failed; [net.ErrClosed] is [None]. *)
Definition remote_acceptFailed (s : remoteService) (n : nat) (l : remoteTCPListener) (err : option error)
    : remoteService := set_socket s n (set_tcp (TcpReturning err) (tl_open l) l).

(** The deferred calls of [remoteForwardService.run]. *)
Definition remote_runClose (s : remoteService) (n : nat) (l : remoteTCPListener) (err : option error)
    : remoteService := set_socket s n (set_tcp (TcpRemoving err) false l).
Definition remote_runRemove (c : RpcConnection) (s : remoteService) (n : nat) (l : remoteTCPListener)
    (err : option error) : RpcConnection * remoteService :=
  (Go_end c err, remote_remove (set_socket s n (set_tcp TcpDone (tl_open l) l)) n l).

(** Units of work the service holds. *)
Definition tcp_units (l : remoteTCPListener) : nat := match tl_phase l with TcpDone => 0 | _ => 1 end.
Definition remote_units (s : remoteService) : nat :=
  sum_list_with tcp_units (rs_sockets s) + length (rs_stopping s).

(** The steps of the service on socket [n] whose record is [l]. *)
Inductive remote_svc_step : RpcConnection → remoteService → RpcConnection → remoteService → Prop :=
| rs_register c s n l : rs_sockets s !! n = Some l → tl_phase l = TcpOpened →
    remote_svc_step c s c (remote_register s n l)
| rs_go c s n l : rs_sockets s !! n = Some l → tl_phase l = TcpRegistered →
    remote_svc_step c s (remote_go c s n l).1.1 (remote_go c s n l).1.2
| rs_undo c s n l : rs_sockets s !! n = Some l → tl_phase l = TcpUndo →
    remote_svc_step c s c (remote_remove (set_socket s n (set_tcp TcpUndoClose (tl_open l) l)) n l)
| rs_undo_close c s n l : rs_sockets s !! n = Some l → tl_phase l = TcpUndoClose →
    remote_svc_step c s c (set_socket s n (set_tcp TcpDone false l))
| rs_context c s n l : rs_sockets s !! n = Some l → tl_phase l = TcpRunning → conn_cancelled c = true →
    tl_open l = true → remote_svc_step c s c (set_socket s n (tcp_Close l))
| rs_accept_closed c s n l : rs_sockets s !! n = Some l → tl_phase l = TcpRunning → tl_open l = false →
    remote_svc_step c s c (remote_acceptFailed s n l None)
| rs_run_close c s n l err : rs_sockets s !! n = Some l → tl_phase l = TcpReturning err →
    remote_svc_step c s c (remote_runClose s n l err)
| rs_run_remove c s n l err : rs_sockets s !! n = Some l → tl_phase l = TcpRemoving err →
    remote_svc_step c s (remote_runRemove c s n l err).1 (remote_runRemove c s n l err).2
| rs_stop_close c s i n : rs_stopping s !! i = Some n → remote_svc_step c s c (remote_stopClose s i).

(** The handlers, which the peer calls. *)
Inductive remote_svc_call : remoteService → remoteService → Prop :=
| rs_listen s net_Listen request : remote_svc_call s (remote_handleListen s net_Listen request).1
| rs_stop s request : remote_svc_call s (remote_handleStop s request).1.

(** The steps that the clients of the sockets and the operating system decide on. *)
Inductive remote_svc_env : RpcConnection → remoteService → RpcConnection → remoteService → Prop :=
| rs_accepted c s n l : rs_sockets s !! n = Some l → tl_phase l = TcpRunning → tl_open l = true →
    remote_svc_env c s (remote_accepted c s n l).1 (remote_accepted c s n l).2
| rs_accept_failed c s n l e : rs_sockets s !! n = Some l → tl_phase l = TcpRunning →
    remote_svc_env c s c (remote_acceptFailed s n l (Some e)).

(** ** [agentForwardService] *)

(** Where the goroutine that owns an agent socket is: in [handleListen] before [Go] and after it was
    refused, in [run], or done. *)
Inductive agentPhase := AgentListening | AgentUndo | AgentRunning | AgentDone.
#[export] Instance agentPhase_eq_dec : EqDecision agentPhase.
Proof. solve_decision. Defined.

(** The function that [run] hangs on the context: not there, or stopped before it started; waiting
    for the context; started and waiting for the mutex. *)
Inductive ctxHook := HookGone | HookArmed | HookStarted.
#[export] Instance ctxHook_eq_dec : EqDecision ctxHook.
Proof. solve_decision. Defined.

(** A socket with its directory. *)
Record agentSocket := mkAgentSocket { ag_open : bool; ag_dir : bool; ag_phase : agentPhase; ag_hook : ctxHook }.

(** Who closes a socket: a handler, the goroutine of [run], which then ends with an error or not, or
    the function [run] hung on the context. *)
Inductive agentCloser := ByHandler | ByRun (err : option error) | ByContext.

Record agentService := mkAgentService {
  as_sockets : list agentSocket;
  as_listener : option nat;
  as_dir : option nat;
  as_closed : bool;
  (** Sockets taken out of the service whose [listener.Close] and [os.RemoveAll] are still to come;
      true once the socket is closed. *)
  as_closing : list (agentCloser * nat * bool);
  (** Sockets whose [run] returned because [Go] was refused. *)
  as_refused : list nat;
}.

Definition newAgentForwardService : agentService := mkAgentService [] None None false [] [].

Definition set_agent_socket (s : agentService) (n : nat) (k : agentSocket) : agentService :=
  mkAgentService (<[n := k]> (as_sockets s)) (as_listener s) (as_dir s) (as_closed s) (as_closing s) (as_refused s).
Definition set_ag_phase (p : agentPhase) (h : ctxHook) (k : agentSocket) : agentSocket :=
  mkAgentSocket (ag_open k) (ag_dir k) p h.
(** [stopOnContext]: a function that has started is not stopped. *)
Definition stopOnContext (h : ctxHook) : ctxHook := match h with HookStarted => HookStarted | _ => HookGone end.

(** What the operating system does for [handleListen]. *)
Inductive agentMade := MkdirFailed (e : error) | ChmodFailed (e : error) | ListenFailedUnix (e : error) | AgentMade.

(** [handleListen] up to [Go]; the whole is one locked region.  [decoded] is the outcome of
    [decodeEmptyPayload]. *)
Definition agent_handleListen (s : agentService) (decoded : option error) (made : agentMade)
    : agentService * option error :=
  match decoded with
  | Some e => (s, Some e)
  | None =>
      if bool_decide (is_Some (as_listener s)) && negb (as_closed s)
      then (s, Some (Errorf "agent-forward listener already exists" []))
      else match made with
           | MkdirFailed e | ChmodFailed e | ListenFailedUnix e => (s, Some e)
           | AgentMade =>
               let n := length (as_sockets s) in
               (mkAgentService (as_sockets s ++ [mkAgentSocket true true AgentListening HookGone])
                  (Some n) (Some n) false (as_closing s) (as_refused s), None)
           end
  end.

(** [handleListen], [Go]. *)
Definition agent_go (c : RpcConnection) (s : agentService) (n : nat) (k : agentSocket)
    : RpcConnection * agentService :=
  match conn_Go c false with
  | (c, None) => (c, set_agent_socket s n (set_ag_phase AgentRunning HookArmed k))
  | (c, Some _) => (c, set_agent_socket s n (set_ag_phase AgentUndo (ag_hook k) k))
  end.

(** The locked region of [close]. *)
Definition agent_close (s : agentService) : agentService * bool :=
  (mkAgentService (as_sockets s) None None true
     (match as_listener s with Some n => as_closing s ++ [(ByHandler, n, false)] | None => as_closing s end)
     (as_refused s),
   bool_decide (is_Some (as_listener s)) && negb (as_closed s)).

Definition agent_handleStop (s : agentService) (decoded : option error) : agentService * option error :=
  match decoded with Some e => (s, Some e) | None => ((agent_close s).1, None) end.

(** The locked region of [closeIfMatch], called by [who]. *)
Definition agent_closeIfMatch (s : agentService) (who : agentCloser) (n : nat) : agentService * bool :=
  if bool_decide (as_listener s ≠ Some n) || as_closed s then (s, false)
  else (mkAgentService (as_sockets s) None None true (as_closing s ++ [(who, n, false)]) (as_refused s), true).

Definition agent_isClosed (s : agentService) (n : nat) : bool :=
  as_closed s || bool_decide (as_listener s ≠ Some n).

(** The [i]th closing under way: [listener.Close()], then [os.RemoveAll(dir)] and the end of its
    goroutine. *)
Definition agent_closing_step (c : RpcConnection) (s : agentService) (i : nat) : RpcConnection * agentService :=
  match as_closing s !! i with
  | None => (c, s)
  | Some (who, n, false) =>
      (c, mkAgentService (alter (fun k => mkAgentSocket false (ag_dir k) (ag_phase k) (ag_hook k)) n (as_sockets s))
            (as_listener s) (as_dir s) (as_closed s) (<[i := (who, n, true)]> (as_closing s)) (as_refused s))
  | Some (who, n, true) =>
      (match who with ByRun err => Go_end c err | ByHandler | ByContext => c end,
       mkAgentService (alter (fun k => mkAgentSocket (ag_open k) false (ag_phase k) (ag_hook k)) n (as_sockets s))
         (as_listener s) (as_dir s) (as_closed s) (delete i (as_closing s)) (as_refused s))
  end.

(** [run] after [Accept] has failed with [err]; [net.ErrClosed] is [None]. *)
Definition agent_acceptFailed (c : RpcConnection) (s : agentService) (n : nat) (k : agentSocket) (err : option error)
    : RpcConnection * agentService :=
  let s := set_agent_socket s n (set_ag_phase AgentDone (stopOnContext (ag_hook k)) k) in
  if agent_isClosed s n then (Go_end c None, s)
  else match agent_closeIfMatch s (ByRun err) n with
       | (s, true) => (c, s)
       | (s, false) => (Go_end c err, s)
       end.

(** [run] after [Accept] has returned a connection. *)
Definition agent_accepted (c : RpcConnection) (s : agentService) (n : nat) (k : agentSocket)
    : RpcConnection * agentService :=
  match conn_Go c false with
  | (c, None) => (c, s)
  | (c, Some _) =>
      let s := set_agent_socket s n (set_ag_phase AgentDone (stopOnContext (ag_hook k)) k) in
      (Go_end c None, mkAgentService (as_sockets s) (as_listener s) (as_dir s) (as_closed s) (as_closing s)
                        (as_refused s ++ [n]))
  end.

(** [handleListen] after [Go] was refused. *)
Definition agent_undo (s : agentService) (n : nat) (k : agentSocket) : agentService :=
  (agent_closeIfMatch (set_agent_socket s n (set_ag_phase AgentDone (stopOnContext (ag_hook k)) k)) ByHandler n).1.

(** The function that [run] hangs on the context. *)
Definition agent_contextDone (s : agentService) (n : nat) (k : agentSocket) : agentService :=
  (agent_closeIfMatch (set_agent_socket s n (set_ag_phase (ag_phase k) HookGone k)) ByContext n).1.

Definition agent_socket_units (k : agentSocket) : nat := match ag_phase k with AgentDone => 0 | _ => 1 end.
Definition agent_closing_units (x : agentCloser * nat * bool) : nat :=
  match x.1.1 with ByContext => 0 | ByHandler | ByRun _ => 1 end.
Definition agent_units (s : agentService) : nat :=
  sum_list_with agent_socket_units (as_sockets s) + sum_list_with agent_closing_units (as_closing s).

Inductive agent_svc_step : RpcConnection → agentService → RpcConnection → agentService → Prop :=
| as_go c s n k : as_sockets s !! n = Some k → ag_phase k = AgentListening →
    agent_svc_step c s (agent_go c s n k).1 (agent_go c s n k).2
| as_undo c s n k : as_sockets s !! n = Some k → ag_phase k = AgentUndo →
    agent_svc_step c s c (agent_undo s n k)
| as_context c s n k : as_sockets s !! n = Some k → ag_hook k = HookArmed → conn_cancelled c = true →
    agent_svc_step c s c (set_agent_socket s n (set_ag_phase (ag_phase k) HookStarted k))
| as_context_run c s n k : as_sockets s !! n = Some k → ag_hook k = HookStarted →
    agent_svc_step c s c (agent_contextDone s n k)
| as_accept_closed c s n k : as_sockets s !! n = Some k → ag_phase k = AgentRunning → ag_open k = false →
    agent_svc_step c s (agent_acceptFailed c s n k None).1 (agent_acceptFailed c s n k None).2
| as_close c s i x : as_closing s !! i = Some x → agent_svc_step c s (agent_closing_step c s i).1 (agent_closing_step c s i).2.

Inductive agent_svc_call : agentService → agentService → Prop :=
| as_listen s decoded made : agent_svc_call s (agent_handleListen s decoded made).1
| as_stop s decoded : agent_svc_call s (agent_handleStop s decoded).1.

Inductive agent_svc_env : RpcConnection → agentService → RpcConnection → agentService → Prop :=
| as_accepted c s n k : as_sockets s !! n = Some k → ag_phase k = AgentRunning → ag_open k = true →
    agent_svc_env c s (agent_accepted c s n k).1 (agent_accepted c s n k).2
| as_accept_failed c s n k e : as_sockets s !! n = Some k → ag_phase k = AgentRunning →
    agent_svc_env c s (agent_acceptFailed c s n k (Some e)).1 (agent_acceptFailed c s n k (Some e)).2.

(** ** [server.go] *)

Record helperServer := mkHelperServer {
  hs_conn : RpcConnection;
  hs_remote : remoteService;
  hs_agent : agentService;
}.

Definition hs_units (h : helperServer) : nat := remote_units (hs_remote h) + agent_units (hs_agent h).

Definition methodAgentListen := "agent-forward.listen".
Definition methodAgentStop := "agent-forward.stop".

(** [registerForwardingServices], given the four handlers, and [ServeConnection] up to [Serve]. *)
Definition registerForwardingServices (c : RpcConnection) (handlers : list (string * Handler))
    : RpcConnection * option error :=
  foldl (fun acc '(method, handler) =>
           match acc with
           | (c, None) => Register_ c method (Some handler)
           | (c, Some e) => (c, Some e)
           end) (c, None) handlers.

Definition ServeConnection_start (remoteListen remoteStop agentListen agentStop : Handler) : helperServer :=
  mkHelperServer
    (Serve_start (registerForwardingServices newRpcConnection
       [("remote-forward.listen", remoteListen); ("remote-forward.stop", remoteStop);
        (methodAgentListen, agentListen); (methodAgentStop, agentStop)]).1).1
    newRemoteForwardService newAgentForwardService.

(** What the rest of the process does with the connection: everything but end the services' work. *)
Definition others_step (ours : nat) (c c' : RpcConnection) : Prop := rpc_step c c' ∧ ours ≤ conn_work c'.

(** The steps the server takes by itself. *)
Inductive server_own_step : helperServer → helperServer → Prop :=
| server_conn_own c c' r a : rpc_own_step c c' → hs_units (mkHelperServer c r a) ≤ conn_work c' →
    server_own_step (mkHelperServer c r a) (mkHelperServer c' r a)
| server_remote c r a c' r' : remote_svc_step c r c' r' →
    server_own_step (mkHelperServer c r a) (mkHelperServer c' r' a)
| server_agent c r a c' a' : agent_svc_step c a c' a' →
    server_own_step (mkHelperServer c r a) (mkHelperServer c' r a').

(** All steps.  A handler runs on the unit of work of the RPC that called it, which must not be one
    of those the services hold already. *)
Inductive server_step : helperServer → helperServer → Prop :=
| server_own h h' : server_own_step h h' → server_step h h'
| server_conn c c' r a : others_step (hs_units (mkHelperServer c r a)) c c' →
    server_step (mkHelperServer c r a) (mkHelperServer c' r a)
| server_remote_call c r a r' : remote_svc_call r r' → hs_units (mkHelperServer c r a) < conn_work c →
    server_step (mkHelperServer c r a) (mkHelperServer c r' a)
| server_agent_call c r a a' : agent_svc_call a a' → hs_units (mkHelperServer c r a) < conn_work c →
    server_step (mkHelperServer c r a) (mkHelperServer c r a')
| server_remote_env c r a c' r' : remote_svc_env c r c' r' →
    server_step (mkHelperServer c r a) (mkHelperServer c' r' a)
| server_agent_env c r a c' a' : agent_svc_env c a c' a' →
    server_step (mkHelperServer c r a) (mkHelperServer c' r a').
