(* ===== verification/HelperServiceProps.v ===== *)
(** Properties of the helper's forwarding services: what they hold is released when the connection
    ends, with the one exception that agent forwarding has, and once the connection is asked to stop
    they end by themselves. *)

From S2P Require Import Prelude Runs GoStrings GoStrconv SpdyRpc SpdyRpcProps HelperService.

(** ** Lookups *)

(** A lookup in a list with one element replaced. *)
Lemma lookup_insert_cases {A} (l : list A) n x k y :
  <[n := x]> l !! k = Some y → (k = n ∧ y = x ∧ n < length l) ∨ (k ≠ n ∧ l !! k = Some y).
Proof. intros [(-> & -> & ?)|[? ?]]%list_lookup_insert_Some; [by left|right]. by split. Qed.

Lemma lookup_alter_iff {A} (g : A → A) (l : list A) n k y :
  alter g n l !! k = Some y ↔ ∃ x, l !! k = Some x ∧ y = if decide (n = k) then g x else x.
Proof.
  rewrite list_lookup_alter. split.
  - case_decide as Hd; [subst|]; intros Hy; [|by exists y].
    apply fmap_Some in Hy as (x & Hx & ->). by exists x.
  - intros (x & Hx & ->). case_decide as Hd; [subst; by rewrite Hx|done].
Qed.

(** ** The connection under the services *)

(** What an operation of a service does to the connection: steps of the connection that cost no
    more work than the service gives up. *)
Record conn_use (c c' : RpcConnection) (units units' : nat) : Prop := {
  use_steps : rtc rpc_step c c';
  use_work : units' + conn_work c ≤ units + conn_work c';
}.

Lemma conn_use_refl c units units' : units' ≤ units → conn_use c c units units'.
Proof. split; [apply rtc_refl|lia]. Qed.

Lemma conn_Go_use c c' e :
  conn_Go c false = (c', e) →
  rpc_step c c' ∧ conn_work c' = (match e with None => 1 | Some _ => 0 end) + conn_work c ∧
  conn_cancelled c' = conn_cancelled c ∧ (e ≠ None → c' = c) ∧
  conn_serve c' = conn_serve c ∧ conn_shutdown c' = conn_shutdown c ∧ conn_fatal c' = conn_fatal c.
Proof.
  intros Hg. assert (c' = (conn_Go c false).1) as -> by by rewrite Hg. split; [left; apply env_go|].
  unfold conn_Go, beginWork in *. case_bool_decide; simpl in *; by simplify_eq.
Qed.

Lemma Go_end_use c err units : 0 < units → units ≤ conn_work c → conn_use c (Go_end c err) units (pred units).
Proof.
  intros H0 Hle. split.
  - apply rtc_once. destruct err as [e|]; [left; apply env_work_failed; lia|right; apply own_work; lia].
  - unfold Go_end, workDone, fail. destruct err; [destruct (conn_fatal c)|]; simpl; lia.
Qed.

(** ** Remote forwarding *)

Definition tcp_registered (p : tcpPhase) : Prop :=
  match p with TcpRegistered | TcpUndo | TcpRunning | TcpReturning _ | TcpRemoving _ => True | _ => False end.
Definition tcp_over (p : tcpPhase) : Prop := match p with TcpRemoving _ | TcpDone => True | _ => False end.

Record remote_svc_inv (s : remoteService) : Prop := {
  rsi_map : ∀ b n, rs_listeners s !! b = Some n →
    ∃ l, rs_sockets s !! n = Some l ∧ tl_actualBind l = b ∧ tcp_registered (tl_phase l);
  rsi_closed : ∀ n l, rs_sockets s !! n = Some l → tcp_over (tl_phase l) → tl_open l = false;
}.

Lemma newRemoteForwardService_inv : remote_svc_inv newRemoteForwardService.
Proof. split; simpl; [|done]. intros b n. by rewrite lookup_empty. Qed.

(** A new record for socket [n] whose entries remain right. *)
Lemma set_socket_inv s n l l' :
  remote_svc_inv s → rs_sockets s !! n = Some l → tl_actualBind l' = tl_actualBind l →
  (tcp_registered (tl_phase l) → tcp_registered (tl_phase l') ∨ rs_listeners s !! tl_actualBind l ≠ Some n) →
  (tcp_over (tl_phase l') → tl_open l' = false) → remote_svc_inv (set_socket s n l').
Proof.
  intros [Hm Hc] Hl Ha Hr Ho. split; simpl.
  - intros b k Hb. destruct (Hm b k Hb) as (l0 & Hk & Hbind & Hreg). destruct (decide (k = n)) as [->|Hne].
    + assert (l0 = l) as -> by congruence. exists l'. rewrite list_lookup_insert_eq by by eapply lookup_lt_Some.
      split_and!; [done|congruence|]. destruct (Hr Hreg) as [?|Hno]; [done|]. by rewrite Hbind in Hno.
    + exists l0. by rewrite list_lookup_insert_ne.
  - intros k l0 [(-> & -> & _)|[_ Hk]]%lookup_insert_cases Hov; [auto|by eapply Hc].
Qed.

(** [remove] after the record has left the registered phases. *)
Lemma remote_remove_inv s n l l' :
  remote_svc_inv s → rs_sockets s !! n = Some l → tl_actualBind l' = tl_actualBind l →
  (tcp_over (tl_phase l') → tl_open l' = false) → remote_svc_inv (remote_remove (set_socket s n l') n l).
Proof.
  intros Hinv Hl Ha Ho. unfold remote_remove. simpl. case_bool_decide as Hb.
  - assert (remote_svc_inv (set_map s (delete (tl_actualBind l) (rs_listeners s)))) as Hinv'.
    { destruct Hinv as [Hm Hc]. split; simpl; [|done]. intros b k [_ Hbk]%lookup_delete_Some. by apply Hm. }
    apply (set_socket_inv _ n l l') in Hinv'; try done. right. simpl. by rewrite lookup_delete_eq.
  - apply (set_socket_inv s n l l'); auto.
Qed.

Lemma remote_register_inv s n l :
  remote_svc_inv s → rs_sockets s !! n = Some l → remote_svc_inv (remote_register s n l).
Proof.
  intros [Hm Hc] Hl. split; simpl.
  - intros b k. rewrite lookup_insert_Some. intros [[<- <-]|[Hne Hb]].
    + exists (set_tcp TcpRegistered (tl_open l) l). rewrite list_lookup_insert_eq by by eapply lookup_lt_Some. done.
    + destruct (Hm b k Hb) as (l0 & Hk & Hbind & Hreg). destruct (decide (k = n)) as [->|?].
      * congruence.
      * exists l0. by rewrite list_lookup_insert_ne.
  - intros k l0 [(-> & -> & _)|[_ Hk]]%lookup_insert_cases Hov; [done|by eapply Hc].
Qed.

Lemma remote_stopClose_inv s i : remote_svc_inv s → remote_svc_inv (remote_stopClose s i).
Proof.
  intros [Hm Hc]. unfold remote_stopClose. destruct (rs_stopping s !! i) as [n|]; [|done]. split; simpl.
  - intros b k Hb. destruct (Hm b k Hb) as (l & Hk & ? & ?).
    exists (if decide (n = k) then tcp_Close l else l). split; [by apply lookup_alter_iff; eauto|]. by case_decide.
  - intros k l (l0 & Hk & ->)%lookup_alter_iff Hov. case_decide; [done|]. by eapply Hc.
Qed.

Lemma remote_call_inv s s' : remote_svc_inv s → remote_svc_call s s' → remote_svc_inv s'.
Proof.
  intros Hinv Hs. destruct Hs as [s net_Listen request|s request]; destruct Hinv as [Hm Hc].
  - unfold remote_handleListen.
    destruct (bind ← request; newRemoteTCPListener net_Listen bind) as [l|e] eqn:Hl; [|by split]. split; simpl.
    + intros b n (l0 & Hn & Hb & Hr)%Hm. exists l0. split; [by apply lookup_app_l_Some|]. by split.
    + intros n l0 [Hn|[_ Hn]]%lookup_app_Some Hov; [by eapply Hc|].
      apply list_lookup_singleton_Some in Hn as [_ <-]. apply result_bind_Ok in Hl as (bind & _ & Hl).
      unfold newRemoteTCPListener in Hl. repeat case_match; try done. apply result_bind_Ok in Hl as (a & _ & Hl).
      repeat case_match; simplify_eq. done.
  - unfold remote_handleStop. destruct request as [bind|e]; [|by split]. split; simpl; [|done].
    intros b k [_ Hb]%lookup_delete_Some. by apply Hm.
Qed.

Lemma remote_step_inv c s c' s' : remote_svc_inv s → remote_svc_step c s c' s' → remote_svc_inv s'.
Proof.
  intros Hinv Hs. destruct Hs as [c s n l Hl Hp|c s n l Hl Hp|c s n l Hl Hp|c s n l Hl Hp|c s n l Hl Hp Hc Ho
    |c s n l Hl Hp Ho|c s n l err Hl Hp|c s n l err Hl Hp|c s i n Hi].
  - by apply remote_register_inv.
  - unfold remote_go. destruct (conn_Go c false) as [c1 [e|]]; simpl;
      (apply (set_socket_inv s n l); [done..|by left|done]).
  - by apply remote_remove_inv.
  - apply (set_socket_inv s n l); try done. by rewrite Hp.
  - apply (set_socket_inv s n l); try done. by left.
  - apply (set_socket_inv s n l); try done. by left.
  - apply (set_socket_inv s n l); try done. by left.
  - apply remote_remove_inv; try done. simpl. intros _. apply (rsi_closed s Hinv n l Hl). by rewrite Hp.
  - by apply remote_stopClose_inv.
Qed.

Lemma remote_env_inv c s c' s' : remote_svc_inv s → remote_svc_env c s c' s' → remote_svc_inv s'.
Proof.
  intros Hinv Hs. destruct Hs as [c s n l Hl Hp Ho|c s n l e Hl Hp].
  - unfold remote_accepted. destruct (conn_Go c false) as [c1 [e|]]; simpl; [|done].
    apply (set_socket_inv s n l); [done..|by left|done].
  - apply (set_socket_inv s n l); [done..|by left|done].
Qed.

(** The work accounted to one socket. *)
Lemma remote_units_set s n l l' :
  rs_sockets s !! n = Some l → remote_units (set_socket s n l') + tcp_units l = remote_units s + tcp_units l'.
Proof. intros Hl. unfold remote_units. simpl. pose proof (sum_list_with_insert tcp_units _ _ _ l' Hl). lia. Qed.

Lemma remote_units_remove s n l : remote_units (remote_remove s n l) = remote_units s.
Proof. unfold remote_remove. by case_bool_decide. Qed.

Lemma remote_units_register s n l :
  rs_sockets s !! n = Some l → remote_units (remote_register s n l) + tcp_units l = S (remote_units s).
Proof.
  intros Hl. pose proof (remote_units_set s n l (set_tcp TcpRegistered (tl_open l) l) Hl) as Hu.
  unfold remote_register. change (remote_units (set_map ?x _)) with (remote_units x). rewrite Hu.
  unfold tcp_units at 1. simpl. lia.
Qed.

Lemma tcp_units_le s n l : rs_sockets s !! n = Some l → tcp_units l ≤ remote_units s.
Proof. intros Hl. unfold remote_units. pose proof (sum_list_with_lookup tcp_units _ _ _ Hl). lia. Qed.

Lemma remote_stopClose_units s i n :
  rs_stopping s !! i = Some n → remote_units (remote_stopClose s i) + 1 = remote_units s.
Proof.
  intros Hi. unfold remote_stopClose. rewrite Hi. unfold remote_units. simpl.
  rewrite (sum_list_with_alter tcp_units tcp_Close) by done.
  pose proof (length_delete (rs_stopping s) i ltac:(by eauto)).
  pose proof (lookup_lt_Some _ _ _ Hi). lia.
Qed.

(** Every step of the service pays for the work it ends. *)
Lemma remote_step_use c s c' s' :
  remote_units s ≤ conn_work c → remote_svc_step c s c' s' → conn_use c c' (remote_units s) (remote_units s').
Proof.
  intros Hle Hs. destruct Hs as [c s n l Hl Hp|c s n l Hl Hp|c s n l Hl Hp|c s n l Hl Hp|c s n l Hl Hp Hc Ho
    |c s n l Hl Hp Ho|c s n l err Hl Hp|c s n l err Hl Hp|c s i n Hi];
    try (pose proof (tcp_units_le s n l Hl) as Hpos; unfold tcp_units in Hpos; rewrite Hp in Hpos).
  - apply conn_use_refl. pose proof (remote_units_register s n l Hl) as Hu.
    unfold tcp_units in Hu. rewrite Hp in Hu. lia.
  - unfold remote_go. destruct (conn_Go c false) as [c1 e] eqn:Hg. apply conn_Go_use in Hg as (Hstep & Hw & _).
    destruct e; simpl in *; (split; [by apply rtc_once|]);
      match goal with |- remote_units (set_socket _ _ ?l') + _ ≤ _ => pose proof (remote_units_set s n l l' Hl) as Hu end;
      unfold tcp_units in Hu; rewrite Hp in Hu; simpl in Hu; lia.
  - apply conn_use_refl. rewrite remote_units_remove.
    pose proof (remote_units_set s n l (set_tcp TcpUndoClose (tl_open l) l) Hl) as Hu.
    unfold tcp_units in Hu. rewrite Hp in Hu. simpl in Hu. lia.
  - apply conn_use_refl. pose proof (remote_units_set s n l (set_tcp TcpDone false l) Hl) as Hu.
    unfold tcp_units in Hu. rewrite Hp in Hu. simpl in Hu. lia.
  - apply conn_use_refl. pose proof (remote_units_set s n l (tcp_Close l) Hl) as Hu.
    unfold tcp_units in Hu. simpl in Hu. rewrite Hp in Hu. lia.
  - apply conn_use_refl. pose proof (remote_units_set s n l (set_tcp (TcpReturning None) (tl_open l) l) Hl) as Hu.
    unfold tcp_units in Hu. rewrite Hp in Hu. simpl in Hu. unfold remote_acceptFailed. lia.
  - apply conn_use_refl. pose proof (remote_units_set s n l (set_tcp (TcpRemoving err) false l) Hl) as Hu.
    unfold tcp_units in Hu. rewrite Hp in Hu. simpl in Hu. unfold remote_runClose. lia.
  - unfold remote_runRemove. cbn [fst snd]. rewrite remote_units_remove.
    pose proof (remote_units_set s n l (set_tcp TcpDone (tl_open l) l) Hl) as Hu.
    unfold tcp_units in Hu. rewrite Hp in Hu. simpl in Hu.
    replace (remote_units (set_socket s n _)) with (pred (remote_units s)) by lia.
    apply Go_end_use; [lia|done].
  - apply conn_use_refl. pose proof (remote_stopClose_units s i n Hi). lia.
Qed.

Lemma remote_env_use c s c' s' :
  remote_svc_env c s c' s' → conn_use c c' (remote_units s) (remote_units s').
Proof.
  intros Hs. destruct Hs as [c s n l Hl Hp Ho|c s n l e Hl Hp].
  - unfold remote_accepted. destruct (conn_Go c false) as [c1 e] eqn:Hg. apply conn_Go_use in Hg as (Hstep & Hw & _).
    destruct e; simpl in *; (split; [by apply rtc_once|]); [|lia].
    pose proof (remote_units_set s n l (set_tcp (TcpReturning None) (tl_open l) l) Hl) as Hu.
    unfold tcp_units in Hu. rewrite Hp in Hu. simpl in Hu. lia.
  - apply conn_use_refl. pose proof (remote_units_set s n l (set_tcp (TcpReturning (Some e)) (tl_open l) l) Hl) as Hu.
    unfold tcp_units in Hu. rewrite Hp in Hu. simpl in Hu. unfold remote_acceptFailed. lia.
Qed.

Lemma remote_call_units s s' : remote_svc_call s s' → remote_units s' ≤ S (remote_units s).
Proof.
  intros Hs. destruct Hs as [s net_Listen request|s request].
  - unfold remote_handleListen. destruct (bind ← request; newRemoteTCPListener net_Listen bind) as [l|e]; simpl; [|lia].
    unfold remote_units. simpl. rewrite sum_list_with_app. simpl. unfold tcp_units at 2. destruct (tl_phase l); lia.
  - unfold remote_handleStop. destruct request as [bind|e]; simpl; [|lia]. unfold remote_units. simpl.
    destruct (rs_listeners s !! bind); [rewrite length_app; simpl; lia|lia].
Qed.

(** ** Agent forwarding *)

Definition closing_at (s : agentService) (n : nat) : Prop := ∃ who stage, (who, n, stage) ∈ as_closing s.

Record agent_svc_inv (s : agentService) : Prop := {
  asi_dir : as_dir s = as_listener s;
  asi_live : ∀ n, as_listener s = Some n → as_closed s = false ∧
    ∃ k, as_sockets s !! n = Some k ∧ (ag_phase k ≠ AgentDone ∨ n ∈ as_refused s);
  asi_open : ∀ n k, as_sockets s !! n = Some k → ag_open k = true →
    as_listener s = Some n ∨ ∃ who, (who, n, false) ∈ as_closing s;
  asi_exists : ∀ n k, as_sockets s !! n = Some k → ag_dir k = true → as_listener s = Some n ∨ closing_at s n;
  asi_hook : ∀ n k, as_sockets s !! n = Some k → ag_phase k = AgentRunning → ag_hook k = HookGone →
    as_listener s ≠ Some n;
}.

Lemma newAgentForwardService_inv : agent_svc_inv newAgentForwardService.
Proof. by split. Qed.

(** A new phase or hook for socket [n]. *)
Lemma set_agent_socket_inv s n k p h refused :
  agent_svc_inv s → as_sockets s !! n = Some k →
  (p ≠ AgentDone ∨ n ∈ refused ∨ as_listener s ≠ Some n) → (∀ x, x ∈ as_refused s → x ∈ refused) →
  (p = AgentRunning → h = HookGone → as_listener s ≠ Some n) →
  agent_svc_inv (mkAgentService (<[n := set_ag_phase p h k]> (as_sockets s)) (as_listener s) (as_dir s)
    (as_closed s) (as_closing s) refused).
Proof.
  intros [Hd Hl Ho He Hh] Hk Hp Hsub Hrun. split; simpl; [done|..].
  - intros m Hm. destruct (Hl m Hm) as (Hc & k0 & Hm0 & Hph). split; [done|]. destruct (decide (m = n)) as [->|Hne].
    + exists (set_ag_phase p h k). rewrite list_lookup_insert_eq by by eapply lookup_lt_Some.
      split; [done|]. destruct Hp as [?|[?|?]]; [by left|by right|done].
    + exists k0. rewrite list_lookup_insert_ne by done. split; [done|]. destruct Hph; auto.
  - intros m k0 [(-> & -> & _)|[_ Hm]]%lookup_insert_cases Hop; [by apply (Ho n k)|by eapply Ho].
  - intros m k0 [(-> & -> & _)|[_ Hm]]%lookup_insert_cases Hop; [by apply (He n k)|by eapply He].
  - intros m k0 [(-> & -> & _)|[_ Hm]]%lookup_insert_cases Hph Hg; [by auto|by eapply Hh].
Qed.

(** The live socket is taken out of the service and given to a closer. *)
Lemma agent_take_inv s who n refused :
  as_listener s = Some n → agent_svc_inv s →
  agent_svc_inv (mkAgentService (as_sockets s) None None true (as_closing s ++ [(who, n, false)]) refused).
Proof.
  intros Hn [Hd Hl Ho He Hh]. split; simpl; try done.
  - intros m k Hm Hop. right. destruct (Ho m k Hm Hop) as [Hs|[w Hw]].
    + simplify_eq. exists who. set_solver.
    + exists w. set_solver.
  - intros m k Hm Hop. right. destruct (He m k Hm Hop) as [Hs|(w & st & Hw)].
    + simplify_eq. exists who, false. simpl. set_solver.
    + exists w, st. simpl. set_solver.
Qed.

Lemma agent_closeIfMatch_facts s who n :
  agent_svc_inv s →
  (agent_closeIfMatch s who n = (s, false) ∧ as_listener s ≠ Some n) ∨
  (agent_closeIfMatch s who n =
     (mkAgentService (as_sockets s) None None true (as_closing s ++ [(who, n, false)]) (as_refused s), true) ∧
   as_listener s = Some n).
Proof.
  intros Hinv. unfold agent_closeIfMatch. case_bool_decide as Hn; [by left|]. simpl.
  destruct (asi_live s Hinv n Hn) as [-> _]. by right.
Qed.

(** [closeIfMatch] when the goroutine of socket [n] has set its last phase. *)
Lemma agent_closeIfMatch_inv s who n k p h :
  agent_svc_inv s → as_sockets s !! n = Some k →
  agent_svc_inv (agent_closeIfMatch (set_agent_socket s n (set_ag_phase p h k)) who n).1.
Proof.
  intros Hinv Hk. destruct (decide (as_listener s = Some n)) as [Hn|Hn].
  - destruct (asi_live s Hinv n Hn) as [Hc _]. unfold agent_closeIfMatch. simpl.
    rewrite bool_decide_eq_false_2 by (by intros []). rewrite Hc. simpl.
    pose proof (agent_take_inv s who n (as_refused s) Hn Hinv) as Hinv'.
    apply (set_agent_socket_inv _ n k p h (as_refused s)) in Hinv'; auto.
  - pose proof (set_agent_socket_inv s n k p h (as_refused s) Hinv Hk ltac:(by auto) ltac:(done) ltac:(done)) as Hinv'.
    unfold agent_closeIfMatch. simpl. by rewrite bool_decide_eq_true_2.
Qed.

Lemma agent_closing_step_inv c s i : agent_svc_inv s → agent_svc_inv (agent_closing_step c s i).2.
Proof.
  intros Hinv. unfold agent_closing_step. destruct (as_closing s !! i) as [[[who n] []]|] eqn:Hi; simpl; [| |done];
    destruct Hinv as [Hd Hl Ho He Hh]; (split; simpl; [done|..]).
  - intros m Hm. destruct (Hl m Hm) as (? & k & Hk & Hp). split; [done|].
    exists (if decide (n = m) then mkAgentSocket (ag_open k) false (ag_phase k) (ag_hook k) else k).
    split; [apply lookup_alter_iff; eauto|]. by case_decide.
  - intros m k (k0 & Hm & ->)%lookup_alter_iff Hop. destruct (Ho m k0 Hm) as [?|[w Hw]]; [by case_decide|by auto|].
    right. exists w. eapply (list_elem_of_lookup_2) in Hi as Hin. rewrite (delete_Permutation _ _ _ Hi) in Hw.
    set_solver.
  - intros m k (k0 & Hm & ->)%lookup_alter_iff Hop. case_decide as Hd'; [done|].
    destruct (He m k0 Hm Hop) as [?|(w & st & Hw)]; [by auto|]. right. exists w, st. simpl.
    rewrite (delete_Permutation _ _ _ Hi) in Hw. set_solver.
  - intros m k (k0 & Hm & ->)%lookup_alter_iff. case_decide; apply (Hh m k0 Hm).
  - intros m Hm. destruct (Hl m Hm) as (? & k & Hk & Hp). split; [done|].
    exists (if decide (n = m) then mkAgentSocket false (ag_dir k) (ag_phase k) (ag_hook k) else k).
    split; [apply lookup_alter_iff; eauto|]. by case_decide.
  - intros m k (k0 & Hm & ->)%lookup_alter_iff Hop. case_decide as Hd'; [done|].
    destruct (Ho m k0 Hm Hop) as [?|[w [j Hj]%list_elem_of_lookup]]; [by auto|]. right. exists w.
    apply (list_elem_of_lookup_2 _ j). rewrite list_lookup_insert_ne; [done|]. intros ->. simplify_eq.
  - intros m k (k0 & Hm & ->)%lookup_alter_iff Hop.
    destruct (He m k0 Hm) as [?|(w & st & [j Hj]%list_elem_of_lookup)]; [by case_decide|by auto|]. right.
    destruct (decide (j = i)) as [->|Hne].
    + simplify_eq. exists who, true. simpl. apply (list_elem_of_lookup_2 _ i), list_lookup_insert_eq.
      by eapply lookup_lt_Some.
    + exists w, st. simpl. apply (list_elem_of_lookup_2 _ j). by rewrite list_lookup_insert_ne.
  - intros m k (k0 & Hm & ->)%lookup_alter_iff. case_decide; apply (Hh m k0 Hm).
Qed.

Lemma agent_acceptFailed_inv c s n k err :
  agent_svc_inv s → as_sockets s !! n = Some k → agent_svc_inv (agent_acceptFailed c s n k err).2.
Proof.
  intros Hinv Hk. unfold agent_acceptFailed.
  pose proof (agent_closeIfMatch_inv s (ByRun err) n k AgentDone (stopOnContext (ag_hook k)) Hinv Hk) as Hinv'.
  unfold agent_isClosed. simpl. destruct (as_closed s) eqn:Hc; simpl.
  - apply set_agent_socket_inv; try done. right. right. intros Hn.
    destruct (asi_live s Hinv n Hn) as [? _]. congruence.
  - case_bool_decide as Hn; simpl; [apply set_agent_socket_inv; by auto|].
    by destruct (agent_closeIfMatch _ _ n) as [s1 []].
Qed.

Lemma agent_step_inv c s c' s' : agent_svc_inv s → agent_svc_step c s c' s' → agent_svc_inv s'.
Proof.
  intros Hinv Hs.
  destruct Hs as [c s n k Hk Hp|c s n k Hk Hp|c s n k Hk Hp Hc|c s n k Hk Hp|c s n k Hk Hp Ho|c s i x Hi].
  - unfold agent_go. destruct (conn_Go c false) as [c1 [e|]]; simpl; apply set_agent_socket_inv; by auto.
  - by apply agent_closeIfMatch_inv.
  - apply set_agent_socket_inv; try done. destruct (decide (ag_phase k = AgentDone)) as [Hd|]; [|by auto].
    destruct (decide (as_listener s = Some n)) as [Hn|]; [|by auto].
    destruct (asi_live s Hinv n Hn) as (_ & k0 & ? & [?|?]); simplify_eq; auto.
  - by apply agent_closeIfMatch_inv.
  - by apply agent_acceptFailed_inv.
  - by apply agent_closing_step_inv.
Qed.

Lemma agent_env_inv c s c' s' : agent_svc_inv s → agent_svc_env c s c' s' → agent_svc_inv s'.
Proof.
  intros Hinv Hs. destruct Hs as [c s n k Hk Hp Ho|c s n k e Hk Hp]; [|by apply agent_acceptFailed_inv].
  unfold agent_accepted. destruct (conn_Go c false) as [c1 [e|]]; simpl; [|done].
  apply set_agent_socket_inv; try done; set_solver.
Qed.

Lemma agent_call_inv s s' : agent_svc_inv s → agent_svc_call s s' → agent_svc_inv s'.
Proof.
  intros Hinv Hs. destruct Hs as [s decoded made|s decoded].
  - unfold agent_handleListen. destruct decoded; [done|].
    destruct (bool_decide (is_Some (as_listener s)) && negb (as_closed s)) eqn:Hb; [done|].
    destruct made; simpl; try done. destruct (as_listener s) as [m|] eqn:Hm.
    { destruct (asi_live s Hinv m Hm) as [Hc _]. by rewrite Hc in Hb. }
    destruct Hinv as [Hd Hl Ho He Hh]. split; simpl; [done|..].
    + intros n [= <-]. split; [done|]. exists (mkAgentSocket true true AgentListening HookGone).
      rewrite lookup_app_r, Nat.sub_diag by lia. by auto.
    + intros n k [Hn|[Hge Hn]]%lookup_app_Some Hop.
      * destruct (Ho n k Hn Hop) as [?|?]; [congruence|by auto].
      * apply list_lookup_singleton_Some in Hn as [Hn _]. left. f_equal. lia.
    + intros n k [Hn|[Hge Hn]]%lookup_app_Some Hop.
      * destruct (He n k Hn Hop) as [?|?]; [congruence|by auto].
      * apply list_lookup_singleton_Some in Hn as [Hn _]. left. f_equal. lia.
    + intros n k [Hn|[Hge Hn]]%lookup_app_Some Hph Hg.
      * apply lookup_lt_Some in Hn. intros [= Hn']. lia.
      * by apply list_lookup_singleton_Some in Hn as [_ <-].
  - unfold agent_handleStop, agent_close. destruct decoded; simpl; [done|].
    destruct (as_listener s) as [m|] eqn:Hm; [by apply agent_take_inv|].
    destruct Hinv as [Hd Hl Ho He Hh]. split; simpl; try done.
    + intros n k Hn Hop. destruct (Ho n k Hn Hop) as [?|?]; [congruence|by auto].
    + intros n k Hn Hop. destruct (He n k Hn Hop) as [?|?]; [congruence|by auto].
Qed.

Lemma agent_units_set s n k k' :
  as_sockets s !! n = Some k →
  agent_units (set_agent_socket s n k') + agent_socket_units k = agent_units s + agent_socket_units k'.
Proof.
  intros Hk. unfold agent_units. simpl. pose proof (sum_list_with_insert agent_socket_units _ _ _ k' Hk). lia.
Qed.

Lemma agent_socket_units_le s n k : as_sockets s !! n = Some k → agent_socket_units k ≤ agent_units s.
Proof. intros Hk. unfold agent_units. pose proof (sum_list_with_lookup agent_socket_units _ _ _ Hk). lia. Qed.

Lemma agent_closeIfMatch_units s who n :
  agent_units (agent_closeIfMatch s who n).1 ≤ agent_units s + agent_closing_units (who, n, false).
Proof.
  unfold agent_closeIfMatch. destruct (_ || _); simpl; [lia|].
  unfold agent_units. simpl. rewrite sum_list_with_app. simpl. lia.
Qed.

Lemma agent_acceptFailed_use c s n k err :
  agent_units s ≤ conn_work c → as_sockets s !! n = Some k → ag_phase k = AgentRunning →
  conn_use c (agent_acceptFailed c s n k err).1 (agent_units s) (agent_units (agent_acceptFailed c s n k err).2).
Proof.
  intros Hle Hk Hp. pose proof (agent_socket_units_le s n k Hk) as Hpos. unfold agent_acceptFailed.
  pose proof (agent_units_set s n k (set_ag_phase AgentDone (stopOnContext (ag_hook k)) k) Hk) as Hu.
  unfold agent_socket_units in *. rewrite Hp in *. simpl in Hu. set (s1 := set_agent_socket _ _ _) in *.
  assert (agent_units s1 = pred (agent_units s)) as Hs1 by lia.
  destruct (agent_isClosed s1 n); simpl; [rewrite Hs1; by apply Go_end_use|].
  pose proof (agent_closeIfMatch_units s1 (ByRun err) n) as Hcl. unfold agent_closeIfMatch in *.
  destruct (_ || _); simpl in *; [rewrite Hs1; by apply Go_end_use|].
  apply conn_use_refl. unfold agent_closing_units in Hcl. simpl in Hcl. lia.
Qed.

Lemma agent_step_use c s c' s' :
  agent_units s ≤ conn_work c → agent_svc_step c s c' s' → conn_use c c' (agent_units s) (agent_units s').
Proof.
  intros Hle Hs.
  destruct Hs as [c s n k Hk Hp|c s n k Hk Hp|c s n k Hk Hp Hc|c s n k Hk Hp|c s n k Hk Hp Ho|c s i x Hi].
  - unfold agent_go. destruct (conn_Go c false) as [c1 e] eqn:Hg. apply conn_Go_use in Hg as (Hstep & Hw & _).
    destruct e; simpl in *; (split; [by apply rtc_once|]);
      match goal with |- agent_units (set_agent_socket _ _ ?k') + _ ≤ _ => pose proof (agent_units_set s n k k' Hk) as Hu end;
      unfold agent_socket_units in Hu; rewrite Hp in Hu; simpl in Hu; lia.
  - apply conn_use_refl. unfold agent_undo. etrans; [apply agent_closeIfMatch_units|].
    match goal with |- agent_units (set_agent_socket _ _ ?k') + _ ≤ _ => pose proof (agent_units_set s n k k' Hk) as Hu end.
    unfold agent_socket_units in Hu. rewrite Hp in Hu. simpl in Hu. unfold agent_closing_units. simpl. lia.
  - apply conn_use_refl. pose proof (agent_units_set s n k (set_ag_phase (ag_phase k) HookStarted k) Hk) as Hu.
    unfold agent_socket_units in Hu. simpl in Hu. lia.
  - apply conn_use_refl. unfold agent_contextDone. etrans; [apply agent_closeIfMatch_units|].
    pose proof (agent_units_set s n k (set_ag_phase (ag_phase k) HookGone k) Hk) as Hu.
    unfold agent_socket_units, agent_closing_units in *. simpl in *. lia.
  - by apply agent_acceptFailed_use.
  - pose proof (sum_list_with_lookup agent_closing_units _ _ _ Hi) as Hx.
    pose proof (sum_list_with_delete agent_closing_units _ _ _ Hi) as Hdel.
    unfold agent_closing_step. rewrite Hi. destruct x as [[who n] []]; simpl.
    + set (s1 := mkAgentService _ _ _ _ _ _).
      assert (agent_units s1 + agent_closing_units (who, n, true) = agent_units s) as Hu.
      { unfold agent_units, s1. simpl. rewrite sum_list_with_alter by done. lia. }
      unfold agent_closing_units in Hu. destruct who; simpl in Hu; [apply conn_use_refl; lia| |apply conn_use_refl; lia].
      replace (agent_units s1) with (pred (agent_units s)) by lia. apply Go_end_use; lia.
    + apply conn_use_refl. unfold agent_units. simpl. rewrite sum_list_with_alter by done.
      pose proof (sum_list_with_insert agent_closing_units _ _ _ (who, n, true) Hi) as Hu.
      unfold agent_closing_units in Hu at 2 4. simpl in Hu. lia.
Qed.

Lemma agent_env_use c s c' s' :
  agent_units s ≤ conn_work c → agent_svc_env c s c' s' → conn_use c c' (agent_units s) (agent_units s').
Proof.
  intros Hle Hs. destruct Hs as [c s n k Hk Hp Ho|c s n k e Hk Hp]; [|by apply agent_acceptFailed_use].
  unfold agent_accepted. destruct (conn_Go c false) as [c1 e] eqn:Hg. apply conn_Go_use in Hg as (Hstep & Hw & _ & Hsame & _).
  destruct e as [e|]; simpl in *; [|split; [by apply rtc_once|lia]].
  rewrite (Hsame ltac:(done)) in *. pose proof (agent_socket_units_le s n k Hk) as Hpos.
  pose proof (agent_units_set s n k (set_ag_phase AgentDone (stopOnContext (ag_hook k)) k) Hk) as Hu.
  unfold agent_socket_units in Hu, Hpos. rewrite Hp in Hu, Hpos. simpl in Hu.
  change (agent_units (mkAgentService _ _ _ _ _ _)) with
    (agent_units (set_agent_socket s n (set_ag_phase AgentDone (stopOnContext (ag_hook k)) k))).
  replace (agent_units (set_agent_socket _ _ _)) with (pred (agent_units s)) by lia. by apply (Go_end_use c None).
Qed.

Lemma agent_call_units s s' : agent_svc_call s s' → agent_units s' ≤ S (agent_units s).
Proof.
  intros Hs. destruct Hs as [s decoded made|s decoded].
  - unfold agent_handleListen. destruct decoded; simpl; [lia|]. destruct (_ && _); simpl; [lia|].
    destruct made; simpl; try lia. unfold agent_units. simpl. rewrite sum_list_with_app. simpl. lia.
  - unfold agent_handleStop, agent_close. destruct decoded; simpl; [lia|]. unfold agent_units. simpl.
    destruct (as_listener s); simpl; [|lia]. rewrite sum_list_with_app. simpl. lia.
Qed.

(** ** The server *)

Record server_inv (h : helperServer) : Prop := {
  si_conn : rpc_inv (hs_conn h);
  si_units : hs_units h ≤ conn_work (hs_conn h);
  si_remote : remote_svc_inv (hs_remote h);
  si_agent : agent_svc_inv (hs_agent h);
}.

Lemma rpc_step_inv c c' : rpc_inv c → rpc_step c c' → rpc_inv c'.
Proof. intros Hc [Hs|Hs]; [by eapply rpc_env_inv|by eapply rpc_own_inv]. Qed.

Lemma rpc_steps_inv c c' : rpc_inv c → rtc rpc_step c c' → rpc_inv c'.
Proof. intros Hc Hr. induction Hr as [|c c1 c' Hs Hr IH]; [done|]. apply IH. by eapply rpc_step_inv. Qed.

Lemma registerForwardingServices_steps c handlers :
  rtc rpc_step c (registerForwardingServices c handlers).1.
Proof.
  unfold registerForwardingServices.
  assert (∀ (o : option error), rtc rpc_step c (foldl (fun acc '(method, handler) =>
    match acc with (c, None) => Register_ c method (Some handler) | (c, Some e) => (c, Some e) end)
    (c, o) handlers).1) as H; [|apply H].
  revert c. induction handlers as [|[m h] hs IH]; intros c o; simpl; [done|].
  destruct o as [e|]; [apply IH|]. destruct (Register_ c m (Some h)) as [c1 o1] eqn:Hr.
  eapply rtc_l; [left; by apply (env_register c m (Some h))|]. rewrite Hr. apply IH.
Qed.

Lemma ServeConnection_start_inv h1 h2 h3 h4 : server_inv (ServeConnection_start h1 h2 h3 h4).
Proof.
  split; simpl.
  - eapply rpc_steps_inv; [apply newRpcConnection_inv|].
    eapply rtc_r; [apply registerForwardingServices_steps|left; apply env_serve].
  - unfold hs_units, remote_units, agent_units. simpl. lia.
  - apply newRemoteForwardService_inv.
  - apply newAgentForwardService_inv.
Qed.

Lemma server_own_inv h h' : server_inv h → server_own_step h h' → server_inv h'.
Proof.
  intros [Hc Hu Hr Ha] Hs. destruct Hs as [c c' r a Hs Hle|c r a c' r' Hs|c r a c' a' Hs]; unfold hs_units in *; simpl in *.
  - split; simpl; try done. eapply rpc_own_inv; done.
  - destruct (remote_step_use c r c' r' ltac:(lia) Hs) as [Hst Hw].
    split; simpl; [by eapply rpc_steps_inv|unfold hs_units; simpl; lia|by eapply remote_step_inv|done].
  - destruct (agent_step_use c a c' a' ltac:(lia) Hs) as [Hst Hw].
    split; simpl; [by eapply rpc_steps_inv|unfold hs_units; simpl; lia|done|by eapply agent_step_inv].
Qed.

Lemma server_step_inv h h' : server_inv h → server_step h h' → server_inv h'.
Proof.
  intros Hinv Hs. destruct Hs as [h h' Hs|c c' r a [Hs Hle]|c r a r' Hs Hlt|c r a a' Hs Hlt|c r a c' r' Hs|c r a c' a' Hs];
    [by eapply server_own_inv|destruct Hinv as [Hc Hu Hr Ha]; unfold hs_units in *; simpl in *..].
  - split; simpl; try done. by eapply rpc_step_inv.
  - pose proof (remote_call_units _ _ Hs).
    split; simpl; [done|unfold hs_units; simpl; lia|by eapply remote_call_inv|done].
  - pose proof (agent_call_units _ _ Hs).
    split; simpl; [done|unfold hs_units; simpl; lia|done|by eapply agent_call_inv].
  - destruct (remote_env_use c r c' r' Hs) as [Hst Hw].
    split; simpl; [by eapply rpc_steps_inv|unfold hs_units; simpl; lia|by eapply remote_env_inv|done].
  - destruct (agent_env_use c a c' a' ltac:(lia) Hs) as [Hst Hw].
    split; simpl; [by eapply rpc_steps_inv|unfold hs_units; simpl; lia|done|by eapply agent_env_inv].
Qed.

Lemma server_reachable_inv h1 h2 h3 h4 h :
  rtc server_step (ServeConnection_start h1 h2 h3 h4) h → server_inv h.
Proof.
  intros Hr. eapply (rtc_ind_r server_inv); [apply ServeConnection_start_inv| |exact Hr].
  intros x y _ Hs Hx. by eapply server_step_inv.
Qed.

(** What is released when the services hold no work. *)
Definition released (h : helperServer) : Prop :=
  rs_listeners (hs_remote h) = ∅ ∧
  (∀ n l, rs_sockets (hs_remote h) !! n = Some l → tl_open l = false) ∧
  (∀ n k, as_sockets (hs_agent h) !! n = Some k → ag_open k = true ∨ ag_dir k = true →
     n ∈ as_refused (hs_agent h) ∨ ∃ stage, (ByContext, n, stage) ∈ as_closing (hs_agent h)).

Lemma released_idle h : server_inv h → hs_units h = 0 → released h.
Proof.
  intros [_ _ [Hm Hcl] [_ Hl Ho He _]] Hu. unfold hs_units, remote_units, agent_units in Hu.
  assert (∀ n l, rs_sockets (hs_remote h) !! n = Some l → tl_phase l = TcpDone) as Hdone.
  { intros n l Hl0. pose proof (sum_list_with_lookup tcp_units _ _ _ Hl0) as Hle.
    unfold tcp_units at 1 in Hle. destruct (tl_phase l); (done || lia). }
  assert (∀ w n st, (w, n, st) ∈ as_closing (hs_agent h) → w = ByContext) as Hby.
  { intros w n st Hin. pose proof (sum_list_with_zero agent_closing_units (as_closing (hs_agent h)) _ ltac:(lia) Hin) as H0.
    by destruct w. }
  split_and!.
  - apply map_eq. intros b. rewrite lookup_empty. destruct (rs_listeners _ !! b) as [n|] eqn:Hb; [|done].
    destruct (Hm b n Hb) as (l & Hl0 & _ & Hreg). by rewrite (Hdone n l Hl0) in Hreg.
  - intros n l Hl0. apply (Hcl n l Hl0). by rewrite (Hdone n l Hl0).
  - intros n k Hk Hor.
    assert (as_listener (hs_agent h) = Some n ∨ closing_at (hs_agent h) n) as [Hn|(w & st & Hin)].
    { destruct Hor as [Hop|Hd]; [|by eapply He]. destruct (Ho n k Hk Hop) as [?|[w Hw]]; [by left|right; by exists w, false]. }
    + left. destruct (Hl n Hn) as (_ & k0 & Hk0 & [Hp|?]); [|done]. simplify_eq.
      pose proof (sum_list_with_lookup agent_socket_units _ _ _ Hk) as Hle. unfold agent_socket_units at 1 in Hle.
      destruct (ag_phase k); (done || lia).
    + right. exists st. by rewrite (Hby w n st Hin) in Hin.
Qed.

(** C17: what the helper opens it closes.  Under every interleaving of the peer's requests, the
    clients of its sockets and the stopping of the connection, an address in the table of remote
    forwards names a socket bound to it, and every agent socket and its directory belong to the
    service or to a closing under way.  When the connection is closed, the table is empty and every
    forwarded TCP socket is closed; every agent socket is closed and its directory removed, except
    where the function hung on the context is still at it or where [run] had returned because the
    connection refused new work. *)
Theorem helper_server_releases h1 h2 h3 h4 h :
  rtc server_step (ServeConnection_start h1 h2 h3 h4) h →
  (∀ b n, rs_listeners (hs_remote h) !! b = Some n →
     ∃ l, rs_sockets (hs_remote h) !! n = Some l ∧ tl_actualBind l = b) ∧
  (∀ n k, as_sockets (hs_agent h) !! n = Some k → ag_open k = true ∨ ag_dir k = true →
     as_listener (hs_agent h) = Some n ∨ closing_at (hs_agent h) n) ∧
  (conn_state (hs_conn h) = connectionClosed → released h).
Proof.
  intros Hinv%server_reachable_inv. pose proof Hinv as [Hc Hu [Hm _] [_ _ Ho He _]]. split_and!.
  - intros b n Hb. destruct (Hm b n Hb) as (l & ? & ? & _). eauto.
  - intros n k Hk [Hop|Hd]; [|by eapply He].
    destruct (Ho n k Hk Hop) as [?|[w Hw]]; [by left|right; by exists w, false].
  - intros Hst. apply released_idle; [done|]. destruct Hc as [Hs _ _]. rewrite Hst in Hs.
    assert (conn_work (hs_conn h) = 0) by by inversion Hs. lia.
Qed.

(** *** The helper ends *)

Definition tcp_rank (l : remoteTCPListener) : nat :=
  match tl_phase l with
  | TcpOpened => 9 | TcpRegistered => 8 | TcpUndo => 7 | TcpUndoClose => 6
  | TcpRunning => if tl_open l then 6 else 5
  | TcpReturning _ => 4 | TcpRemoving _ => 3 | TcpDone => 0
  end.
Definition remote_rank (s : remoteService) : nat :=
  sum_list_with tcp_rank (rs_sockets s) + length (rs_stopping s).

Definition agent_rank_of (k : agentSocket) : nat :=
  match ag_phase k with AgentListening => 12 | AgentUndo => 11 | AgentRunning => 5 | AgentDone => 0 end +
  match ag_hook k with HookArmed => 4 | HookStarted => 3 | HookGone => 0 end.
Definition closing_rank (x : agentCloser * nat * bool) : nat := if x.2 then 1 else 2.
Definition agent_rank (s : agentService) : nat :=
  sum_list_with agent_rank_of (as_sockets s) + sum_list_with closing_rank (as_closing s).

(** The number of steps the helper can take by itself. *)
Definition server_measure (h : helperServer) : nat :=
  conn_measure (hs_conn h) + remote_rank (hs_remote h) + agent_rank (hs_agent h).

Lemma conn_Go_measure c : conn_measure (conn_Go c false).1 ≤ S (conn_measure c).
Proof. unfold conn_Go, beginWork, conn_measure. case_bool_decide; simpl; lia. Qed.

Lemma Go_end_measure c err : conn_measure (Go_end c err) ≤ conn_measure c.
Proof. unfold Go_end, workDone, fail, conn_measure. destruct err; [destruct (conn_fatal c)|]; simpl; lia. Qed.

Lemma remote_rank_set s n l l' :
  rs_sockets s !! n = Some l → remote_rank (set_socket s n l') + tcp_rank l = remote_rank s + tcp_rank l'.
Proof. intros Hl. unfold remote_rank. simpl. pose proof (sum_list_with_insert tcp_rank _ _ _ l' Hl). lia. Qed.

Lemma remote_rank_remove s n l : remote_rank (remote_remove s n l) = remote_rank s.
Proof. unfold remote_remove. by case_bool_decide. Qed.

Lemma sum_list_with_alter_le {A} (f : A → nat) (g : A → A) (l : list A) n :
  (∀ x, f (g x) ≤ f x) → sum_list_with f (alter g n l) ≤ sum_list_with f l.
Proof.
  intros Hg. revert n. induction l as [|z l IH]; intros [|n]; try done.
  - simpl. specialize (Hg z). lia.
  - change (f z + sum_list_with f (alter g n l) ≤ f z + sum_list_with f l). specialize (IH n). lia.
Qed.

Lemma remote_step_decreases c s c' s' :
  remote_svc_step c s c' s' → conn_measure c' + remote_rank s' < conn_measure c + remote_rank s.
Proof.
  intros Hs. destruct Hs as [c s n l Hl Hp|c s n l Hl Hp|c s n l Hl Hp|c s n l Hl Hp|c s n l Hl Hp Hc Ho
    |c s n l Hl Hp Ho|c s n l err Hl Hp|c s n l err Hl Hp|c s i n Hi];
    try (pose proof (fun l' => remote_rank_set s n l l' Hl) as Hr; unfold tcp_rank in Hr; rewrite Hp in Hr).
  - specialize (Hr (set_tcp TcpRegistered (tl_open l) l)). simpl in Hr.
    change (remote_rank (remote_register s n l)) with (remote_rank (set_socket s n (set_tcp TcpRegistered (tl_open l) l))).
    lia.
  - unfold remote_go. pose proof (conn_Go_measure c) as Hm.
    destruct (conn_Go c false) as [c1 e] eqn:Hg. destruct (conn_Go_use c c1 e Hg) as (_ & _ & _ & Hsame & _).
    destruct e as [e|]; simpl in *.
    + rewrite (Hsame ltac:(done)). specialize (Hr (set_tcp TcpUndo (tl_open l) l)). simpl in Hr. lia.
    + specialize (Hr (set_tcp TcpRunning (tl_open l) l)). simpl in Hr. destruct (tl_open l); lia.
  - rewrite remote_rank_remove. specialize (Hr (set_tcp TcpUndoClose (tl_open l) l)). simpl in Hr. lia.
  - specialize (Hr (set_tcp TcpDone false l)). simpl in Hr. lia.
  - specialize (Hr (tcp_Close l)). simpl in Hr. rewrite Hp, Ho in Hr. lia.
  - specialize (Hr (set_tcp (TcpReturning None) (tl_open l) l)). simpl in Hr. rewrite Ho in *.
    unfold remote_acceptFailed. rewrite Ho. lia.
  - specialize (Hr (set_tcp (TcpRemoving err) false l)). simpl in Hr. unfold remote_runClose. lia.
  - unfold remote_runRemove. cbn [fst snd]. rewrite remote_rank_remove. pose proof (Go_end_measure c err).
    specialize (Hr (set_tcp TcpDone (tl_open l) l)). simpl in Hr. lia.
  - unfold remote_stopClose. rewrite Hi. unfold remote_rank. simpl.
    assert (sum_list_with tcp_rank (alter tcp_Close n (rs_sockets s)) ≤ sum_list_with tcp_rank (rs_sockets s))
      by (apply sum_list_with_alter_le; intros x; unfold tcp_rank, tcp_Close; simpl; repeat case_match; lia).
    pose proof (length_delete (rs_stopping s) i ltac:(by eauto)). pose proof (lookup_lt_Some _ _ _ Hi). lia.
Qed.

Lemma agent_rank_set s n k k' :
  as_sockets s !! n = Some k →
  agent_rank (set_agent_socket s n k') + agent_rank_of k = agent_rank s + agent_rank_of k'.
Proof.
  intros Hk. unfold agent_rank. simpl. pose proof (sum_list_with_insert agent_rank_of _ _ _ k' Hk). lia.
Qed.

Lemma agent_closeIfMatch_rank s who n : agent_rank (agent_closeIfMatch s who n).1 ≤ agent_rank s + 2.
Proof.
  unfold agent_closeIfMatch. destruct (_ || _); simpl; [lia|].
  unfold agent_rank. simpl. rewrite sum_list_with_app. simpl. lia.
Qed.

Lemma agent_step_decreases c s c' s' :
  agent_svc_step c s c' s' → conn_measure c' + agent_rank s' < conn_measure c + agent_rank s.
Proof.
  intros Hs.
  destruct Hs as [c s n k Hk Hp|c s n k Hk Hp|c s n k Hk Hp Hc|c s n k Hk Hp|c s n k Hk Hp Ho|c s i x Hi];
    try (pose proof (fun k' => agent_rank_set s n k k' Hk) as Hr; unfold agent_rank_of in Hr; rewrite Hp in Hr).
  - unfold agent_go. pose proof (conn_Go_measure c) as Hm.
    destruct (conn_Go c false) as [c1 e] eqn:Hg. destruct (conn_Go_use c c1 e Hg) as (_ & _ & _ & Hsame & _).
    destruct e as [e|]; simpl in *.
    + rewrite (Hsame ltac:(done)). specialize (Hr (set_ag_phase AgentUndo (ag_hook k) k)). simpl in Hr. lia.
    + specialize (Hr (set_ag_phase AgentRunning HookArmed k)). simpl in Hr. lia.
  - unfold agent_undo. pose proof (agent_closeIfMatch_rank
      (set_agent_socket s n (set_ag_phase AgentDone (stopOnContext (ag_hook k)) k)) ByHandler n) as Hcl.
    specialize (Hr (set_ag_phase AgentDone (stopOnContext (ag_hook k)) k)). simpl in Hr.
    destruct (ag_hook k); simpl in *; lia.
  - specialize (Hr (set_ag_phase (ag_phase k) HookStarted k)). simpl in Hr. lia.
  - unfold agent_contextDone. pose proof (agent_closeIfMatch_rank
      (set_agent_socket s n (set_ag_phase (ag_phase k) HookGone k)) ByContext n) as Hcl.
    specialize (Hr (set_ag_phase (ag_phase k) HookGone k)). simpl in Hr. lia.
  - unfold agent_acceptFailed. specialize (Hr (set_ag_phase AgentDone (stopOnContext (ag_hook k)) k)). simpl in Hr.
    set (s1 := set_agent_socket _ _ _) in *. pose proof (Go_end_measure c None).
    assert (agent_rank s1 + 5 ≤ agent_rank s) by (destruct (ag_hook k); simpl in *; lia).
    destruct (agent_isClosed s1 n); simpl; [lia|]. pose proof (agent_closeIfMatch_rank s1 (ByRun None) n) as Hcl.
    destruct (agent_closeIfMatch s1 (ByRun None) n) as [s2 []]; simpl in *; lia.
  - pose proof (sum_list_with_delete closing_rank _ _ _ Hi) as Hdel.
    unfold agent_closing_step. rewrite Hi. destruct x as [[who n] []]; unfold agent_rank; simpl in *.
    + assert (conn_measure (match who with ByRun err => Go_end c err | _ => c end) ≤ conn_measure c)
        by (destruct who; [done|apply Go_end_measure|done]).
      rewrite sum_list_with_alter by done. unfold closing_rank in Hdel at 2. simpl in Hdel. lia.
    + rewrite sum_list_with_alter by done.
      pose proof (sum_list_with_insert closing_rank _ _ _ (who, n, true) Hi) as Hu. unfold closing_rank in Hu at 2 4.
      simpl in Hu. lia.
Qed.

Lemma server_own_decreases h h' : server_inv h → server_own_step h h' → server_measure h' < server_measure h.
Proof.
  intros [Hc _ _ _] Hs. destruct Hs as [c c' r a Hs Hle|c r a c' r' Hs|c r a c' a' Hs]; unfold server_measure; simpl in *.
  - pose proof (rpc_own_decreases c c' Hc Hs). lia.
  - pose proof (remote_step_decreases _ _ _ _ Hs). lia.
  - pose proof (agent_step_decreases _ _ _ _ Hs). lia.
Qed.

(** A request to stop stays in force. *)
Definition stops (c c' : RpcConnection) : Prop :=
  conn_serve c ≠ ServeIdle → stop_requested c → conn_serve c' ≠ ServeIdle ∧ stop_requested c'.

Lemma conn_Go_stops c : stops c (conn_Go c false).1.
Proof.
  destruct (conn_Go c false) as [c' e] eqn:Hg. apply conn_Go_use in Hg as (_ & _ & Hca & _ & Hse & Hsh & Hf).
  unfold stops, stop_requested. simpl. by rewrite Hca, Hse, Hsh, Hf.
Qed.

Lemma Go_end_stops c err : stops c (Go_end c err).
Proof.
  unfold stops, stop_requested, Go_end, workDone, fail.
  destruct err; [destruct (conn_fatal c) eqn:Hf|]; simpl; rewrite ?Hf; intuition congruence.
Qed.

Lemma server_own_stops h h' : server_inv h → server_own_step h h' → stops (hs_conn h) (hs_conn h').
Proof.
  intros [Hc _ _ _] Hs. assert (∀ c, stops c c) as Hrefl by by intros c.
  destruct Hs as [c c' r a Hs Hle|c r a c' r' Hs|c r a c' a' Hs]; simpl in *.
  - intros Hi Hst. by eapply rpc_own_stop.
  - destruct Hs as [| c s n l Hl Hp| | | | | |c s n l err Hl Hp|]; try apply Hrefl.
    + unfold remote_go. pose proof (conn_Go_stops c). by destruct (conn_Go c false) as [c1 []].
    + apply Go_end_stops.
  - destruct Hs as [c s n k Hk Hp| | | |c s n k Hk Hp Ho|c s i x Hi]; try apply Hrefl.
    + unfold agent_go. pose proof (conn_Go_stops c). by destruct (conn_Go c false) as [c1 []].
    + unfold agent_acceptFailed. destruct (agent_isClosed _ n); simpl; [apply Go_end_stops|].
      destruct (agent_closeIfMatch _ _ n) as [s2 []]; [apply Hrefl|apply Go_end_stops].
    + unfold agent_closing_step. rewrite Hi. destruct x as [[[|err|] n] []]; try apply Hrefl. apply Go_end_stops.
Qed.

(** [Serve] has started. *)
Lemma rpc_step_started c c' : rpc_step c c' → conn_serve c ≠ ServeIdle → conn_serve c' ≠ ServeIdle.
Proof.
  intros [Hs|Hs] Hi.
  - destruct Hs as [c m h|c t h|c|c t r h|c|c|c|c Hs|c e Hw]; try done.
    + unfold Register_. by repeat case_match.
    + unfold RegisterStreamHandler. by repeat case_match.
    + unfold conn_Go, beginWork. by case_bool_decide.
    + unfold newSPDYStream, handleRPCStream, handleDataStream, beginWork. by repeat case_match; simplify_eq/=.
    + unfold shutdown_lock. by case_bool_decide.
    + unfold Serve_start. by case_bool_decide.
    + unfold Go_end, workDone, fail. by case_match.
  - destruct Hs; try done. unfold Serve_shutdown. by destruct (shutdown_lock c) as [c1 []].
Qed.

Lemma rpc_steps_started c c' : rtc rpc_step c c' → conn_serve c ≠ ServeIdle → conn_serve c' ≠ ServeIdle.
Proof. intros Hr. induction Hr as [|c c1 c' Hs Hr IH]; [done|]. intros Hi. by eapply IH, rpc_step_started. Qed.

Lemma ServeConnection_start_started h1 h2 h3 h4 : conn_serve (hs_conn (ServeConnection_start h1 h2 h3 h4)) ≠ ServeIdle.
Proof. done. Qed.

Lemma server_step_started h h' :
  server_inv h → server_step h h' → conn_serve (hs_conn h) ≠ ServeIdle → conn_serve (hs_conn h') ≠ ServeIdle.
Proof.
  intros [_ Hu _ _] Hs. unfold hs_units in Hu.
  destruct Hs as [h h' Hs|c c' r a [Hs Hle]|c r a r' Hs Hlt|c r a a' Hs Hlt|c r a c' r' Hs|c r a c' a' Hs]; simpl in *.
  - destruct Hs as [c c' r a Hs Hle|c r a c' r' Hs|c r a c' a' Hs]; simpl in *.
    + apply rpc_step_started. by right.
    + eapply rpc_steps_started, remote_step_use; [|done]. lia.
    + eapply rpc_steps_started, agent_step_use; [|done]. lia.
  - by apply rpc_step_started.
  - done.
  - done.
  - by eapply rpc_steps_started, remote_env_use.
  - eapply rpc_steps_started, agent_env_use; [|done]. lia.
Qed.

Lemma server_reachable_started h1 h2 h3 h4 h :
  rtc server_step (ServeConnection_start h1 h2 h3 h4) h → conn_serve (hs_conn h) ≠ ServeIdle.
Proof.
  intros Hr. eapply (rtc_ind_r (fun h => conn_serve (hs_conn h) ≠ ServeIdle)); [apply ServeConnection_start_started| |exact Hr].
  intros x y Hx Hs. eapply server_step_started; [|done]. by eapply server_reachable_inv.
Qed.

(** Before the context is cancelled, a connection that is asked to stop has a step that ends no work. *)
Lemma rpc_cancel_progress c :
  rpc_inv c → conn_serve c ≠ ServeIdle → stop_requested c → conn_cancelled c = false →
  ∃ c', rpc_own_step c c' ∧ conn_work c' = conn_work c.
Proof.
  intros [Hs Hc Ht] Hi Hst Hca. destruct (conn_shutdown c) eqn:Hsh.
  - destruct (conn_serve c) as [| |err|err|err|err] eqn:Hse; try done.
    + destruct Hst as [?|[Hf|[?|?]]]; try congruence. destruct (conn_fatal c) as [e|] eqn:Hfe; [|done].
      eexists. split; [by apply own_fatal|done].
    + eexists. split; [by eapply own_shutdown|]. unfold Serve_shutdown, shutdown_lock. by case_bool_decide.
    + exfalso. inversion Hs; naive_solver.
    + exfalso. inversion Hs; naive_solver.
    + exfalso. inversion Hs; naive_solver.
  - eexists. split; [by apply own_cancel|done].
  - rewrite Hc in Hca; [done|by left].
  - rewrite Hc in Hca; [done|by right].
Qed.

Lemma remote_progress c s n l :
  conn_cancelled c = true → rs_sockets s !! n = Some l → tl_phase l ≠ TcpDone →
  ∃ c' s', remote_svc_step c s c' s'.
Proof.
  intros Hc Hl Hp. destruct (tl_phase l) as [| | | | |err|err|] eqn:E; [..|done];
    [do 2 eexists..| |do 2 eexists|do 2 eexists].
  - by eapply rs_register.
  - by eapply rs_go.
  - by eapply rs_undo.
  - by eapply rs_undo_close.
  - destruct (tl_open l) eqn:Ho; do 2 eexists; [by eapply rs_context|by eapply rs_accept_closed].
  - by eapply rs_run_close.
  - by eapply rs_run_remove.
Qed.

Lemma agent_progress c s n k :
  agent_svc_inv s → conn_cancelled c = true → as_closing s = [] → as_sockets s !! n = Some k →
  ag_phase k ≠ AgentDone → ∃ c' s', agent_svc_step c s c' s'.
Proof.
  intros Hinv Hc Hcl Hk Hp. destruct (ag_phase k) eqn:E; [do 2 eexists; by eapply as_go|do 2 eexists; by eapply as_undo| |done].
  destruct (ag_hook k) eqn:Hh.
  - destruct (ag_open k) eqn:Ho; [|do 2 eexists; by eapply as_accept_closed].
    destruct (asi_open s Hinv n k Hk Ho) as [Hn|[w Hw]].
    + by destruct (asi_hook s Hinv n k Hk E Hh).
    + rewrite Hcl in Hw. set_solver.
  - do 2 eexists. by eapply as_context.
  - do 2 eexists. by eapply as_context_run.
Qed.

#[export] Instance tcp_done_dec (l : remoteTCPListener) : Decision (tl_phase l ≠ TcpDone).
Proof. destruct (tl_phase l); solve [by left|right; by auto]. Defined.

Lemma server_progress h :
  server_inv h → conn_serve (hs_conn h) ≠ ServeIdle → stop_requested (hs_conn h) →
  (∃ h', server_own_step h h') ∨
  ((∃ e, conn_serve (hs_conn h) = ServeReturned e) ∧ hs_units h = 0 ∧ as_closing (hs_agent h) = []).
Proof.
  intros [Hc Hu Hr Ha] Hi Hst. destruct h as [c r a]; simpl in *.
  destruct (conn_cancelled c) eqn:Hca.
  2:{ destruct (rpc_cancel_progress c Hc Hi Hst Hca) as (c' & Hs & Hw). left. eexists.
      apply server_conn_own; [done|]. by rewrite Hw. }
  destruct (as_closing a) as [|x closing] eqn:Hcl.
  2:{ left. eexists. apply server_agent. apply (as_close c a 0 x). by rewrite Hcl. }
  destruct (rs_stopping r) as [|x stopping] eqn:Hsp.
  2:{ left. eexists. apply server_remote. apply (rs_stop_close c r 0 x). by rewrite Hsp. }
  destruct (list_Exists_or_none (fun l => tl_phase l ≠ TcpDone) (rs_sockets r)) as [(n & l & Hl & Hp)|Hrd].
  { destruct (remote_progress c r n l Hca Hl Hp) as (c' & r' & Hs). left. eexists. by apply server_remote. }
  destruct (list_Exists_or_none (fun k => ag_phase k ≠ AgentDone) (as_sockets a)) as [(n & k & Hk & Hp)|Had].
  { destruct (agent_progress c a n k Ha Hca Hcl Hk Hp) as (c' & a' & Hs). left. eexists. by apply server_agent. }
  assert (hs_units (mkHelperServer c r a) = 0) as H0.
  { unfold hs_units, remote_units, agent_units. simpl. rewrite Hcl, Hsp. simpl.
    rewrite (sum_list_with_none tcp_units), (sum_list_with_none agent_socket_units); [done|..].
    - intros k Hk%Had. apply dec_stable in Hk. unfold agent_socket_units. by rewrite Hk.
    - intros l Hl%Hrd. unfold tcp_units. destruct (tl_phase l); done || by destruct Hl. }
  destruct (rpc_own_progress c Hc Hi Hst) as [?|[c' Hs]]; [by right|].
  left. eexists. apply server_conn_own; [done|]. rewrite H0. lia.
Qed.

Lemma server_own_live h h' :
  server_inv h ∧ conn_serve (hs_conn h) ≠ ServeIdle ∧ stop_requested (hs_conn h) → server_own_step h h' →
  server_inv h' ∧ conn_serve (hs_conn h') ≠ ServeIdle ∧ stop_requested (hs_conn h').
Proof.
  intros (Hinv & Hi & Hst) Hs. split; [by eapply server_own_inv|]. by eapply server_own_stops.
Qed.

(** The helper ends.  Once the connection is asked to stop, in any reachable state and in
    whatever order the goroutines run, the helper takes at most [server_measure h] further steps by
    itself; where none is left [Serve] has returned, every forwarded TCP socket is closed, and every
    agent socket is closed and its directory removed unless its [run] returned because the connection
    refused new work. *)
Theorem helper_server_ends h1 h2 h3 h4 h :
  rtc server_step (ServeConnection_start h1 h2 h3 h4) h → stop_requested (hs_conn h) →
  (∀ m h', nsteps server_own_step m h h' → m ≤ server_measure h) ∧
  (∀ h', rtc server_own_step h h' → (∀ h'', ¬ server_own_step h' h'') →
     (∃ e, conn_serve (hs_conn h') = ServeReturned e) ∧
     (∀ n l, rs_sockets (hs_remote h') !! n = Some l → tl_open l = false) ∧
     (∀ n k, as_sockets (hs_agent h') !! n = Some k → ag_open k = true ∨ ag_dir k = true →
        n ∈ as_refused (hs_agent h'))).
Proof.
  intros Hreach Hst. pose proof (server_reachable_inv _ _ _ _ _ Hreach) as Hinv.
  pose proof (server_reachable_started _ _ _ _ _ Hreach) as Hi. clear Hreach. split.
  - intros m h' Hn. pose proof (nsteps_bounded _ server_inv server_measure server_own_inv server_own_decreases _ _ _ Hinv Hn).
    lia.
  - intros h' Hr Hstuck.
    destruct (rtc_invariant _ (fun h => server_inv h ∧ conn_serve (hs_conn h) ≠ ServeIdle ∧ stop_requested (hs_conn h))
      server_own_live _ _ (conj Hinv (conj Hi Hst)) Hr) as (Hinv' & Hi' & Hst').
    destruct (server_progress h' Hinv' Hi' Hst') as [[h'' Hs]|(Hret & H0 & Hcl)]; [by destruct (Hstuck h'')|].
    destruct (released_idle h' Hinv' H0) as (_ & Hopen & Hag). split_and!; [done..|].
    intros n k Hk Hor. destruct (Hag n k Hk Hor) as [?|[st Hin]]; [done|]. rewrite Hcl in Hin. set_solver.
Qed.

(** ** Runs *)

Definition no_handler : Handler := fun _ => Ok None.
Definition helper_start : helperServer := ServeConnection_start no_handler no_handler no_handler no_handler.

(** A connection at points of its life, with the handlers [H]. *)
Definition conn_at (H : gmap string Handler) (st : connState) (work : nat) (sh : shutdownPhase) (p : servePoint)
    : RpcConnection :=
  mkRpcConnection st H ∅ work (bool_decide (sh = ShutdownCancelled ∨ sh = ShutdownDone))
    (bool_decide (sh = ShutdownDone)) None sh p.

Lemma helper_start_conn :
  helper_start = mkHelperServer
    (conn_at (conn_handlers (hs_conn helper_start)) connectionServing 0 ShutdownNone ServeSelect)
    newRemoteForwardService newAgentForwardService.
Proof. by vm_compute. Qed.

Definition agent_with (k : agentSocket) (refused : list nat) : agentService :=
  mkAgentService [k] (Some 0) (Some 0) false [] refused.

(** The agent socket is open and served, the RPC that opened it has returned, and the connection is
    asked to close. *)
Definition agent_stopping (H : gmap string Handler) : helperServer :=
  mkHelperServer (conn_at H connectionClosing 1 ShutdownMarked ServeSelect) newRemoteForwardService
    (agent_with (mkAgentSocket true true AgentRunning HookArmed) []).

Lemma agent_stopping_reachable :
  rtc server_step helper_start (agent_stopping (conn_handlers (hs_conn helper_start))).
Proof.
  rewrite helper_start_conn at 1. generalize (conn_handlers (hs_conn helper_start)). intros H.
  eapply rtc_l; [apply server_conn; split;
    [left; apply (env_stream _ StreamTypeControl None None)|vm_compute; lia]|].
  eapply rtc_l; [apply server_agent_call; [apply (as_listen _ None AgentMade)|vm_compute; lia]|].
  eapply rtc_l; [apply server_own, server_agent; by apply (as_go _ _ 0 (mkAgentSocket true true AgentListening HookGone))|].
  eapply rtc_l; [apply server_conn; split; [right; apply own_work|]; vm_compute; lia|].
  apply rtc_once. apply (server_conn (conn_at H connectionServing 1 ShutdownNone ServeSelect)).
  split; [left; apply (env_close (conn_at H connectionServing 1 ShutdownNone ServeSelect))|vm_compute; lia].
Qed.

(** Before the context is cancelled a client connects to the socket and [Go] is refused; then the
    connection ends. *)
Definition agent_leaked (H : gmap string Handler) : helperServer :=
  mkHelperServer (conn_at H connectionClosed 0 ShutdownDone (ServeReturned (Some (ESentinel context_Canceled))))
    newRemoteForwardService (agent_with (mkAgentSocket true true AgentDone HookGone) [0]).

Lemma agent_leaked_steps H : rtc server_step (agent_stopping H) (agent_leaked H).
Proof.
  eapply rtc_l; [apply server_agent_env; by apply (as_accepted _ _ 0 (mkAgentSocket true true AgentRunning HookArmed))|].
  eapply rtc_l; [apply server_own, server_conn_own;
    [by apply (own_cancel (conn_at H connectionClosing 0 ShutdownMarked ServeSelect))|vm_compute; lia]|].
  eapply rtc_l; [apply server_own, server_conn_own;
    [by apply (own_close (conn_at H connectionClosing 0 ShutdownCancelled ServeSelect))|vm_compute; lia]|].
  eapply rtc_l; [apply server_own, server_conn_own;
    [by apply (own_wake (conn_at H connectionClosing 0 ShutdownDone ServeSelect))|vm_compute; lia]|].
  eapply rtc_l; [apply server_own, server_conn_own;
    [by apply (own_shutdown (conn_at H connectionClosing 0 ShutdownDone
       (ServeStopped (Some (ESentinel context_Canceled)))) (Some (ESentinel context_Canceled)))|vm_compute; lia]|].
  apply rtc_once, server_own, server_conn_own;
    [by apply (own_return (conn_at H connectionClosing 0 ShutdownDone
       (ServeWaiting (Some (ESentinel context_Canceled)))) (Some (ESentinel context_Canceled)))|vm_compute; lia].
Qed.

Lemma agent_leaked_reachable : rtc server_step helper_start (agent_leaked (conn_handlers (hs_conn helper_start))).
Proof. etrans; [apply agent_stopping_reachable|apply agent_leaked_steps]. Qed.

(** The agent socket is not always released: there is a run after which the connection has closed and
    every goroutine has ended, while the socket is still listening and its directory is still there.
    [run] returns when [Go] is refused without closing the listener, and its [defer stopOnContext()]
    takes away the function that would have. *)
Theorem agent_socket_leaks :
  ∃ h, rtc server_step helper_start h ∧ conn_state (hs_conn h) = connectionClosed ∧ hs_units h = 0 ∧
    as_closing (hs_agent h) = [] ∧
    as_sockets (hs_agent h) !! 0 = Some (mkAgentSocket true true AgentDone HookGone).
Proof. eexists. split; [apply agent_leaked_reachable|]. by vm_compute. Qed.

Lemma helper_server_releases_witness :
  released (agent_leaked (conn_handlers (hs_conn helper_start))).
Proof.
  by apply (helper_server_releases no_handler no_handler no_handler no_handler _ agent_leaked_reachable).
Defined.

Lemma helper_server_ends_witness :
  let h := agent_stopping (conn_handlers (hs_conn helper_start)) in
  ag_open <$> as_sockets (hs_agent h) = [true] ∧
  ∀ m h', nsteps server_own_step m h h' → m ≤ server_measure h.
Proof.
  split; [done|].
  apply (helper_server_ends no_handler no_handler no_handler no_handler _ agent_stopping_reachable).
  right. right. by left.
Defined.
