(* ===== verification/IoProxy.v ===== *)
(** Model of [src/pkg/ioproxy/proxy.go]: two streams copied into each other until both have ended or
    the context is cancelled.

    The two copying goroutines and the caller run concurrently; a step is one operation on a stream or
    on the channel.  What the streams deliver and how they fail is up to them.  A direction is named
    by the stream it reads from.  What was read and written and what the caller received is
    recorded. *)

From S2P Require Import Prelude GoStrings.

(** [normalizeErr]. *)
Definition normalizeErr (err : option error) : option error :=
  match err with
  | Some e =>
      if negb (errors_Is e io_EOF) && negb (errors_Is e net_ErrClosed) && negb (errors_Is e io_ErrClosedPipe)
      then Some e else None
  | None => None
  end.

Inductive proxySide := SideA | SideB.
#[export] Instance side_eq_dec : EqDecision proxySide.
Proof. solve_decision. Defined.

Definition upd {A} (f : proxySide → A) (s : proxySide) (v : A) (s' : proxySide) : A := if decide (s' = s) then v else f s'.
Definition otherSide (s : proxySide) : proxySide := match s with SideA => SideB | SideB => SideA end.

(** Where a copying goroutine is: in [Read]; in [Write], with what [Read] said after the chunk;
    [io.Copy] has returned; the write end is half-closed; the result is on the channel. *)
Inductive copyPhase :=
| CopyReading
| CopyWriting (chunk : string) (after : option (option error))
| CopyEnded (err : option error)
| CopyHalfClosed (err : option error)
| CopySent (err : option error).

Record copier := mkCopier { cp_phase : copyPhase; cp_read : string; cp_written : string }.

(** Where [ProxyWithObserver] is: in the [select] with [n] results received; waiting for the
    terminal results of the streams in the list; running its deferred calls; returned. *)
Inductive mainPhase :=
| MainSelect (n : nat) (result : option error)
| MainWait (streams : list proxySide) (result : option error)
| MainDefer (result : option error)
| MainReturned (result : option error).

Record ioProxyState := mkProxy {
  px_observed : bool;
  px_copier : proxySide → copier;
  px_halfClosed : proxySide → bool;
  px_closes : proxySide → nat;
  px_once : bool;
  px_errCh : list (option error);
  px_ctxDone : bool;
  px_cancelled : bool;
  px_main : mainPhase;
  px_received : list (option error);
  px_bytes : proxySide → nat;
  px_opened : nat;
  px_closed : nat;
}.

(** [ProxyWithObserver] up to the [select]. *)
Definition proxy_start (observed : bool) : ioProxyState :=
  mkProxy observed (fun _ => mkCopier CopyReading "" "") (fun _ => false) (fun _ => 0) false [] false false
    (MainSelect 0 None) [] (fun _ => 0) (if observed then 1 else 0) 0.

Definition set_copier (p : ioProxyState) (s : proxySide) (c : copier) : ioProxyState :=
  mkProxy (px_observed p) (upd (px_copier p) s c) (px_halfClosed p) (px_closes p) (px_once p) (px_errCh p)
    (px_ctxDone p) (px_cancelled p) (px_main p) (px_received p) (px_bytes p) (px_opened p) (px_closed p).
Definition set_main (p : ioProxyState) (m : mainPhase) : ioProxyState :=
  mkProxy (px_observed p) (px_copier p) (px_halfClosed p) (px_closes p) (px_once p) (px_errCh p)
    (px_ctxDone p) (px_cancelled p) m (px_received p) (px_bytes p) (px_opened p) (px_closed p).

(** [Read], through [observedReader]: the chunk is counted. *)
Definition copy_read (p : ioProxyState) (s : proxySide) (chunk : string) (after : option (option error)) : ioProxyState :=
  let c := px_copier p s in
  let p := set_copier p s (mkCopier (if bool_decide (chunk = "") then
                                       match after with Some err => CopyEnded err | None => CopyReading end
                                     else CopyWriting chunk after) (cp_read c +:+ chunk) (cp_written c)) in
  mkProxy (px_observed p) (px_copier p) (px_halfClosed p) (px_closes p) (px_once p) (px_errCh p)
    (px_ctxDone p) (px_cancelled p) (px_main p) (px_received p)
    (if px_observed p then upd (px_bytes p) s (px_bytes p s + slen chunk) else px_bytes p)
    (px_opened p) (px_closed p).

(** [Write] of the whole chunk. *)
Definition copy_write (p : ioProxyState) (s : proxySide) (chunk : string) (after : option (option error)) : ioProxyState :=
  let c := px_copier p s in
  set_copier p s (mkCopier (match after with Some err => CopyEnded err | None => CopyReading end)
                    (cp_read c) (cp_written c +:+ chunk)).
(** [Write] that fails after [n] bytes. *)
Definition copy_writeFailed (p : ioProxyState) (s : proxySide) (chunk : string) (n : nat) (err : error) : ioProxyState :=
  let c := px_copier p s in
  set_copier p s (mkCopier (CopyEnded (Some err)) (cp_read c) (cp_written c +:+ stake n chunk)).

(** [dst.CloseWrite()]. *)
Definition copy_closeWrite (p : ioProxyState) (s : proxySide) (err : option error) : ioProxyState :=
  let c := px_copier p s in
  let p := set_copier p s (mkCopier (CopyHalfClosed err) (cp_read c) (cp_written c)) in
  mkProxy (px_observed p) (px_copier p) (upd (px_halfClosed p) (otherSide s) true) (px_closes p) (px_once p)
    (px_errCh p) (px_ctxDone p) (px_cancelled p) (px_main p) (px_received p) (px_bytes p) (px_opened p) (px_closed p).

(** [errCh <- normalizeErr(err)]. *)
Definition copy_send (p : ioProxyState) (s : proxySide) (err : option error) : ioProxyState :=
  let c := px_copier p s in
  let p := set_copier p s (mkCopier (CopySent err) (cp_read c) (cp_written c)) in
  mkProxy (px_observed p) (px_copier p) (px_halfClosed p) (px_closes p) (px_once p)
    (px_errCh p ++ [normalizeErr err]) (px_ctxDone p) (px_cancelled p) (px_main p) (px_received p) (px_bytes p)
    (px_opened p) (px_closed p).

(** [closeOnce.Do(closeBoth)]. *)
Definition close_once (p : ioProxyState) : ioProxyState :=
  if px_once p then p
  else mkProxy (px_observed p) (px_copier p) (px_halfClosed p) (fun s => S (px_closes p s)) true (px_errCh p)
         (px_ctxDone p) (px_cancelled p) (px_main p) (px_received p) (px_bytes p) (px_opened p) (px_closed p).

Definition keep_first (result err : option error) : option error :=
  match err, result with Some _, None => err | _, _ => result end.

(** [case err := <-errCh]. *)
Definition main_receive (p : ioProxyState) (err : option error) (rest : list (option error)) (n : nat)
    (result : option error) : ioProxyState :=
  let result := keep_first result err in
  mkProxy (px_observed p) (px_copier p) (px_halfClosed p) (px_closes p) (px_once p) rest (px_ctxDone p)
    (px_cancelled p) (if bool_decide (S n = 2) then MainWait [SideA; SideB] result else MainSelect (S n) result)
    (px_received p ++ [err]) (px_bytes p) (px_opened p) (px_closed p).

(** [case <-ctx.Done()]. *)
Definition main_cancel (p : ioProxyState) : ioProxyState :=
  let p := close_once p in
  mkProxy (px_observed p) (px_copier p) (px_halfClosed p) (px_closes p) (px_once p) (px_errCh p)
    (px_ctxDone p) true (MainDefer None) (px_received p) (px_bytes p) (px_opened p) (px_closed p).

(** The loop over the streams that are [Waiter]s; [err] is the result of [Wait]. *)
Definition main_wait (p : ioProxyState) (waiter : proxySide → bool) (streams : list proxySide) (err result : option error)
    : ioProxyState :=
  match streams with
  | [] => set_main p (MainDefer result)
  | s :: rest =>
      if waiter s then
        let p := set_main p (MainWait rest (keep_first result err)) in
        mkProxy (px_observed p) (px_copier p) (px_halfClosed p) (px_closes p) (px_once p) (px_errCh p)
          (px_ctxDone p) (px_cancelled p) (px_main p) (px_received p ++ [err]) (px_bytes p) (px_opened p) (px_closed p)
      else set_main p (MainWait rest result)
  end.

(** The deferred calls. *)
Definition main_defer (p : ioProxyState) (result : option error) : ioProxyState :=
  let p := close_once p in
  mkProxy (px_observed p) (px_copier p) (px_halfClosed p) (px_closes p) (px_once p) (px_errCh p)
    (px_ctxDone p) (px_cancelled p) (MainReturned result) (px_received p) (px_bytes p) (px_opened p)
    (if px_observed p then S (px_closed p) else px_closed p).

Section Steps.
(** Which of the two streams implement [Waiter]. *)
Context (waiter : proxySide → bool).

(** The steps that the streams and the context decide on. *)
Inductive proxy_env_step : ioProxyState → ioProxyState → Prop :=
| px_step_read p s chunk after : cp_phase (px_copier p s) = CopyReading → proxy_env_step p (copy_read p s chunk after)
| px_step_write p s chunk after : cp_phase (px_copier p s) = CopyWriting chunk after →
    proxy_env_step p (copy_write p s chunk after)
| px_step_write_failed p s chunk after n e : cp_phase (px_copier p s) = CopyWriting chunk after →
    proxy_env_step p (copy_writeFailed p s chunk n e)
| px_step_ctx p :
    proxy_env_step p (mkProxy (px_observed p) (px_copier p) (px_halfClosed p) (px_closes p) (px_once p) (px_errCh p)
      true (px_cancelled p) (px_main p) (px_received p) (px_bytes p) (px_opened p) (px_closed p)).

(** The steps the proxy takes by itself; a send waits while the channel is full. *)
Inductive proxy_own_step : ioProxyState → ioProxyState → Prop :=
| px_step_half p s err : cp_phase (px_copier p s) = CopyEnded err → proxy_own_step p (copy_closeWrite p s err)
| px_step_send p s err : cp_phase (px_copier p s) = CopyHalfClosed err → length (px_errCh p) < 2 →
    proxy_own_step p (copy_send p s err)
| px_step_receive p err rest n result : px_main p = MainSelect n result → px_errCh p = err :: rest →
    proxy_own_step p (main_receive p err rest n result)
| px_step_cancel p n result : px_main p = MainSelect n result → px_ctxDone p = true →
    proxy_own_step p (main_cancel p)
| px_step_wait p streams err result : px_main p = MainWait streams result →
    proxy_own_step p (main_wait p waiter streams err result)
| px_step_defer p result : px_main p = MainDefer result → proxy_own_step p (main_defer p result).

Definition proxy_step (p p' : ioProxyState) : Prop := proxy_env_step p p' ∨ proxy_own_step p p'.

End Steps.
