(* ===== verification/IoProxyProps.v ===== *)
(** Properties of the stream proxy: nothing is lost or reordered between the streams, write ends are
    closed only after their data, each stream is closed once, and the proxy returns. *)

From S2P Require Import Prelude Runs GoStrings IoProxy.

Lemma upd_eq {A} (f : proxySide → A) s v : upd f s v s = v.
Proof. unfold upd. by rewrite decide_True. Qed.
Lemma upd_ne {A} (f : proxySide → A) s s' v : s' ≠ s → upd f s v s' = f s'.
Proof. intros. unfold upd. by rewrite decide_False. Qed.
Lemma other_ne s : otherSide s ≠ s.
Proof. by destruct s. Qed.
Lemma other_inj s s' : otherSide s = otherSide s' → s = s'.
Proof. by destruct s, s'. Qed.

(** The first error of a list of results. *)
Definition first_error (l : list (option error)) : option error := head (omap id l).

Lemma first_error_snoc l err : first_error (l ++ [err]) = keep_first (first_error l) err.
Proof.
  unfold first_error. rewrite omap_app. destruct (omap id l) as [|e es] eqn:E; simpl; by destruct err.
Qed.

(** A copier has written what it read, but for the chunk in its hands; one that failed a prefix. *)
Definition copier_ok (c : copier) : Prop :=
  match cp_phase c with
  | CopyReading | CopyEnded None | CopyHalfClosed None | CopySent None => cp_written c = cp_read c
  | CopyWriting chunk _ => cp_read c = cp_written c +:+ chunk
  | _ => ∃ rest, cp_read c = cp_written c +:+ rest
  end.

Definition half_closed (c : copier) : bool :=
  match cp_phase c with CopyHalfClosed _ | CopySent _ => true | _ => false end.

(** The results that copiers have put on the channel. *)
Definition sent (c : copier) : list (option error) :=
  match cp_phase c with CopySent err => [normalizeErr err] | _ => [] end.

Definition sent_all (p : ioProxyState) : list (option error) := sent (px_copier p SideA) ++ sent (px_copier p SideB).

(** The caller: [got] are the results it took from the channel, [waits] those of [Wait]. *)
Inductive main_ok (p : ioProxyState) (got waits : list (option error)) : mainPhase → Prop :=
| main_ok_select n : n = length got → n < 2 → waits = [] → px_cancelled p = false → px_once p = false →
    main_ok p got waits (MainSelect n (first_error got))
| main_ok_wait streams : length streams ≤ 2 → length got = 2 → px_cancelled p = false → px_once p = false →
    main_ok p got waits (MainWait streams (first_error (got ++ waits)))
| main_ok_defer : length got = 2 → px_cancelled p = false → px_once p = false →
    main_ok p got waits (MainDefer (first_error (got ++ waits)))
| main_ok_returned : length got = 2 → px_cancelled p = false → px_once p = true →
    main_ok p got waits (MainReturned (first_error (got ++ waits)))
| main_ok_defer_cancelled : px_cancelled p = true → px_once p = true → px_ctxDone p = true →
    main_ok p got waits (MainDefer None)
| main_ok_cancelled : px_cancelled p = true → px_once p = true → px_ctxDone p = true →
    main_ok p got waits (MainReturned None).

Definition returned (m : mainPhase) : bool := match m with MainReturned _ => true | _ => false end.

Record ioproxy_inv (p : ioProxyState) : Prop := {
  pi_copier : ∀ s, copier_ok (px_copier p s);
  pi_half : ∀ s, px_halfClosed p (otherSide s) = half_closed (px_copier p s);
  pi_bytes : ∀ s, px_bytes p s = if px_observed p then slen (cp_read (px_copier p s)) else 0;
  pi_closes : ∀ s, px_closes p s = if px_once p then 1 else 0;
  pi_main : ∃ got waits, px_received p = got ++ waits ∧ got ++ px_errCh p ≡ₚ sent_all p ∧ main_ok p got waits (px_main p);
  pi_observer : px_opened p = (if px_observed p then 1 else 0) ∧
    px_closed p = (if px_observed p && returned (px_main p) then 1 else 0);
}.

Lemma proxy_start_inv observed : ioproxy_inv (proxy_start observed).
Proof.
  split; simpl; try done.
  - by destruct observed.
  - exists [], []. split; [done|]. split; [done|]. constructor; simpl; (done || lia).
  - by destruct observed.
Qed.

(** A copier that moves on without touching the channel. *)
Lemma set_copier_inv p s c bytes half :
  ioproxy_inv p → copier_ok c → sent (px_copier p s) = [] → sent c = [] →
  half = (if decide (half_closed c = half_closed (px_copier p s)) then px_halfClosed p
          else upd (px_halfClosed p) (otherSide s) (half_closed c)) →
  (∀ s', bytes s' = if px_observed p then slen (cp_read (upd (px_copier p) s c s')) else 0) →
  ioproxy_inv (mkProxy (px_observed p) (upd (px_copier p) s c) half (px_closes p) (px_once p) (px_errCh p)
    (px_ctxDone p) (px_cancelled p) (px_main p) (px_received p) bytes (px_opened p) (px_closed p)).
Proof.
  intros [Hc Hh Hb Hcl (got & waits & Hr & Hp & Hm) Ho] Hok Hs0 Hs1 Hhalf Hbytes. split; simpl; try done.
  - intros s'. unfold upd. destruct (decide (s' = s)); [done|apply Hc].
  - intros s'. rewrite Hhalf. unfold upd at 2. destruct (decide (s' = s)) as [->|Hne].
    + destruct (decide (half_closed c = _)) as [Hd|Hd]; [rewrite Hd; apply Hh|]. by rewrite upd_eq.
    + destruct (decide (half_closed c = _)); [apply Hh|]. rewrite upd_ne; [apply Hh|]. by intros ?%other_inj.
  - exists got, waits. split; [done|]. split.
    + rewrite Hp. unfold sent_all. simpl. destruct s; rewrite ?upd_eq, ?upd_ne, ?Hs0, ?Hs1 by done; done.
    + by destruct Hm; constructor.
Qed.

Lemma same_copier_bytes p s c :
  ioproxy_inv p → cp_read c = cp_read (px_copier p s) →
  ∀ s', px_bytes p s' = if px_observed p then slen (cp_read (upd (px_copier p) s c s')) else 0.
Proof. intros Hinv Hc s'. rewrite (pi_bytes p Hinv). unfold upd. case_decide; [|done]. subst. by rewrite Hc. Qed.

Lemma copy_read_inv p s chunk after :
  ioproxy_inv p → cp_phase (px_copier p s) = CopyReading → ioproxy_inv (copy_read p s chunk after).
Proof.
  intros Hinv Hph. pose proof (pi_copier p Hinv s) as Hok. unfold copier_ok in Hok. rewrite Hph in Hok.
  unfold copy_read. apply (set_copier_inv p s); try done.
  - unfold copier_ok. simpl. case_bool_decide as Hc; simpl; [subst|by rewrite Hok].
    rewrite sapp_nil_r. destruct after as [[e|]|]; [|done..]. exists "". by rewrite sapp_nil_r.
  - unfold sent. by rewrite Hph.
  - unfold sent. simpl. case_bool_decide; [|done]. by destruct after.
  - unfold half_closed. simpl. rewrite Hph. case_bool_decide; [destruct after|]; by rewrite decide_True.
  - intros s'. cbn [px_observed px_bytes set_copier]. destruct (px_observed p) eqn:Hobs; [|rewrite (pi_bytes p Hinv); by rewrite Hobs].
    unfold upd. case_decide as Hd; [subst; simpl|by rewrite (pi_bytes p Hinv), Hobs].
    by rewrite (pi_bytes p Hinv), Hobs, slen_app.
Qed.

Lemma copy_write_inv p s chunk after :
  ioproxy_inv p → cp_phase (px_copier p s) = CopyWriting chunk after → ioproxy_inv (copy_write p s chunk after).
Proof.
  intros Hinv Hph. pose proof (pi_copier p Hinv s) as Hok. unfold copier_ok in Hok. rewrite Hph in Hok.
  apply (set_copier_inv p s); try done.
  - unfold copier_ok. simpl. destruct after as [[e|]|]; simpl; [|done..]. exists "". by rewrite sapp_nil_r.
  - unfold sent. by rewrite Hph.
  - unfold sent. simpl. by destruct after.
  - unfold half_closed. simpl. rewrite Hph. destruct after; by rewrite decide_True.
  - apply (same_copier_bytes p s); [done|reflexivity].
Qed.

Lemma copy_writeFailed_inv p s chunk after n e :
  ioproxy_inv p → cp_phase (px_copier p s) = CopyWriting chunk after → ioproxy_inv (copy_writeFailed p s chunk n e).
Proof.
  intros Hinv Hph. pose proof (pi_copier p Hinv s) as Hok. unfold copier_ok in Hok. rewrite Hph in Hok.
  apply (set_copier_inv p s); try done.
  - unfold copier_ok. simpl. exists (sdrop n chunk). by rewrite <-sapp_assoc, stake_sdrop.
  - unfold sent. by rewrite Hph.
  - unfold half_closed. simpl. rewrite Hph. by rewrite decide_True.
  - apply (same_copier_bytes p s); [done|reflexivity].
Qed.

Lemma copy_closeWrite_inv p s err :
  ioproxy_inv p → cp_phase (px_copier p s) = CopyEnded err → ioproxy_inv (copy_closeWrite p s err).
Proof.
  intros Hinv Hph. pose proof (pi_copier p Hinv s) as Hok. unfold copier_ok in Hok. rewrite Hph in Hok.
  unfold copy_closeWrite. apply (set_copier_inv p s); try done.
  - unfold sent. by rewrite Hph.
  - unfold half_closed. simpl. rewrite Hph. by rewrite decide_False.
  - apply (same_copier_bytes p s); [done|reflexivity].
Qed.

Lemma copy_send_inv p s err :
  ioproxy_inv p → cp_phase (px_copier p s) = CopyHalfClosed err → ioproxy_inv (copy_send p s err).
Proof.
  intros Hinv Hph. pose proof (pi_copier p Hinv s) as Hok. unfold copier_ok in Hok. rewrite Hph in Hok.
  pose proof (same_copier_bytes p s (mkCopier (CopySent err) (cp_read (px_copier p s)) (cp_written (px_copier p s)))
    Hinv eq_refl) as Hb'.
  destruct Hinv as [Hc Hh Hb Hcl (got & waits & Hr & Hp & Hm) Ho]. split; simpl; try done.
  - intros s'. unfold upd. destruct (decide (s' = s)); [done|apply Hc].
  - intros s'. rewrite Hh. unfold upd. case_decide; [subst|done]. unfold half_closed. by rewrite Hph.
  - exists got, waits. split; [done|]. split.
    + assert (sent (px_copier p s) = []) as Hs by (unfold sent; by rewrite Hph).
      rewrite (assoc_L (++)), Hp. unfold sent_all. simpl.
      destruct s; rewrite ?upd_eq, ?upd_ne, Hs by done; [by rewrite Permutation_app_comm|by rewrite app_nil_r].
    + by destruct Hm; constructor.
Qed.

Lemma close_once_closes p s : ioproxy_inv p → px_closes (close_once p) s = 1.
Proof. intros Hinv. unfold close_once. pose proof (pi_closes p Hinv s) as Hc. destruct (px_once p); simpl; by rewrite Hc. Qed.

Lemma close_once_once p : px_once (close_once p) = true.
Proof. unfold close_once. by destruct (px_once p) eqn:E. Qed.

(** Closing changes nothing but the closing. *)
Lemma close_once_rest p :
  px_copier (close_once p) = px_copier p ∧ px_halfClosed (close_once p) = px_halfClosed p ∧
  px_errCh (close_once p) = px_errCh p ∧ px_ctxDone (close_once p) = px_ctxDone p ∧
  px_received (close_once p) = px_received p ∧ px_bytes (close_once p) = px_bytes p ∧
  px_opened (close_once p) = px_opened p ∧ px_closed (close_once p) = px_closed p ∧
  px_observed (close_once p) = px_observed p ∧ px_cancelled (close_once p) = px_cancelled p.
Proof. unfold close_once. by destruct (px_once p). Qed.

Lemma proxy_own_inv waiter p p' : ioproxy_inv p → proxy_own_step waiter p p' → ioproxy_inv p'.
Proof.
  intros Hinv Hs. destruct Hs as [p s err Hph|p s err Hph Hlen|p err rest n result Hmain Hch|p n result Hmain Hctx
    |p streams err result Hmain|p result Hmain].
  - by apply copy_closeWrite_inv.
  - by apply copy_send_inv.
  - destruct Hinv as [Hc Hh Hb Hcl (got & waits & Hr & Hp & Hm) Ho]. rewrite Hmain in Hm, Ho.
    inversion Hm as [n' Hn Hlt Hw Hca Hon| | | | |]; subst n' result waits. rewrite Hch in Hp.
    split; simpl; try done; [|by case_bool_decide]. exists (got ++ [err]), []. rewrite !app_nil_r in *. split; [by rewrite Hr|].
    split; [by rewrite <-(assoc_L (++))|]. rewrite <-first_error_snoc. case_bool_decide as H2.
    + rewrite <-(app_nil_r (got ++ [err])) at 2. constructor; simpl; try done. rewrite length_app. simpl. lia.
    + constructor; simpl; try done; [rewrite length_app; simpl; lia|lia].
  - destruct Hinv as [Hc Hh Hb Hcl (got & waits & Hr & Hp & Hm) Ho] eqn:E. clear E.
    destruct (close_once_rest p) as (E1 & E2 & E3 & E4 & E5 & E6 & E7 & E8 & E9 & E10).
    unfold main_cancel. rewrite E1, E2, E3, E4, E5, E6, E7, E8, E9. rewrite Hmain in Ho.
    split; simpl; rewrite ?close_once_once; try done; [intros s; by apply close_once_closes|].
    exists got, waits. split; [done|]. split; [done|]. by apply main_ok_defer_cancelled; simpl; rewrite ?close_once_once.
  - destruct Hinv as [Hc Hh Hb Hcl (got & waits & Hr & Hp & Hm) Ho]. rewrite Hmain in Hm, Ho.
    inversion Hm as [|st Hst Hl Hca Hon| | | |]; subst st result.
    unfold main_wait. destruct streams as [|s streams]; [|destruct (waiter s)]; split; simpl; try done.
    + exists got, waits. split; [done|]. split; [done|]. by apply main_ok_defer.
    + exists got, (waits ++ [err]). split; [by rewrite Hr, (assoc_L (++))|]. split; [done|].
      rewrite <-first_error_snoc, <-(assoc_L (++)). apply main_ok_wait; simpl in *; (done || lia).
    + exists got, waits. split; [done|]. split; [done|]. apply main_ok_wait; simpl in *; (done || lia).
  - destruct Hinv as [Hc Hh Hb Hcl (got & waits & Hr & Hp & Hm) Ho] eqn:E. clear E.
    destruct (close_once_rest p) as (E1 & E2 & E3 & E4 & E5 & E6 & E7 & E8 & E9 & E10).
    unfold main_defer. rewrite E1, E2, E3, E4, E5, E6, E7, E8, E9, E10. rewrite Hmain in Ho, Hm.
    split; simpl; rewrite ?close_once_once; try done; [intros s; by apply close_once_closes| |].
    + exists got, waits. split; [done|]. split; [done|].
      inversion Hm; subst; [apply main_ok_returned|apply main_ok_cancelled]; simpl; rewrite ?close_once_once; done.
    + destruct Ho as [Ho Hcd]. split; [done|]. rewrite Hcd. simpl. by destruct (px_observed p).
Qed.

Lemma proxy_env_inv p p' : ioproxy_inv p → proxy_env_step p p' → ioproxy_inv p'.
Proof.
  intros Hinv Hs. destruct Hs as [p s chunk after Hph|p s chunk after Hph|p s chunk after n e Hph|p].
  - by apply copy_read_inv.
  - by apply copy_write_inv.
  - by eapply copy_writeFailed_inv.
  - destruct Hinv as [Hc Hh Hb Hcl (got & waits & Hr & Hp & Hm) Ho]. split; simpl; try done.
    exists got, waits. split; [done|]. split; [done|]. by destruct Hm; constructor.
Qed.

Lemma proxy_reachable_inv waiter observed p : rtc (proxy_step waiter) (proxy_start observed) p → ioproxy_inv p.
Proof.
  intros Hr. eapply (rtc_ind_r ioproxy_inv); [apply proxy_start_inv| |exact Hr].
  intros x y _ [Hs|Hs] Hx; [by eapply proxy_env_inv|by eapply proxy_own_inv].
Qed.

Lemma main_ok_both p got waits m :
  main_ok p got waits m → got ++ px_errCh p ≡ₚ sent_all p → px_once p = true → px_cancelled p = false →
  ∃ ea eb, cp_phase (px_copier p SideA) = CopySent ea ∧ cp_phase (px_copier p SideB) = CopySent eb ∧
    got ≡ₚ [normalizeErr ea; normalizeErr eb].
Proof.
  intros Hm Hp Ho Hc. assert (length got = 2) as Hl by (inversion Hm; congruence).
  pose proof (Permutation_length Hp) as Hlen. rewrite length_app, Hl in Hlen.
  unfold sent_all, sent in *. rewrite length_app in Hlen.
  destruct (cp_phase (px_copier p SideA)) as [| | | |ea], (cp_phase (px_copier p SideB)) as [| | | |eb]; simpl in Hlen; try lia.
  exists ea, eb. split; [done|]. split; [done|]. destruct (px_errCh p); [|simpl in Hlen; lia]. by rewrite app_nil_r in Hp.
Qed.

(** C18: what the proxy does to the two streams, under every interleaving of its goroutines and
    whatever the streams do.  Each direction writes a prefix of what it read, in order.  The write end
    of a stream is closed only after the copying into it has ended, and then, unless that failed,
    everything was written.  Each stream is closed at most once, and not before both directions have
    ended and closed the write ends, unless the context was cancelled.  When the proxy has returned
    both are closed once; the result is nil after a cancellation and otherwise the first error among
    the results of the two directions, in the order they arrived, and of [Wait].  An observer sees one
    opening, one closing at the return, and every byte read. *)
Theorem proxy_faithful waiter observed p :
  rtc (proxy_step waiter) (proxy_start observed) p →
  (∀ s, ∃ rest, cp_read (px_copier p s) = cp_written (px_copier p s) +:+ rest) ∧
  (∀ s, px_halfClosed p (otherSide s) = true → ∃ err,
     (cp_phase (px_copier p s) = CopyHalfClosed err ∨ cp_phase (px_copier p s) = CopySent err) ∧
     (err = None → cp_written (px_copier p s) = cp_read (px_copier p s))) ∧
  (∀ s, px_closes p s ≤ 1 ∧
     (px_closes p s = 1 → px_ctxDone p = true ∨ (px_halfClosed p SideA = true ∧ px_halfClosed p SideB = true))) ∧
  (∀ r, px_main p = MainReturned r → (∀ s, px_closes p s = 1) ∧
     ((px_ctxDone p = true ∧ r = None) ∨
      ∃ ea eb got waits, cp_phase (px_copier p SideA) = CopySent ea ∧ cp_phase (px_copier p SideB) = CopySent eb ∧
        got ≡ₚ [normalizeErr ea; normalizeErr eb] ∧ px_received p = got ++ waits ∧ r = first_error (got ++ waits))) ∧
  px_opened p = (if px_observed p then 1 else 0) ∧
  px_closed p = (if px_observed p && returned (px_main p) then 1 else 0) ∧
  (px_observed p = true → ∀ s, px_bytes p s = slen (cp_read (px_copier p s))).
Proof.
  intros [Hc Hh Hb Hcl (got & waits & Hr & Hp & Hm) [Ho Hcd]]%proxy_reachable_inv. split_and!.
  - intros s. pose proof (Hc s) as Hok. unfold copier_ok in Hok. repeat case_match; try done; eauto;
      exists ""; by rewrite sapp_nil_r, Hok.
  - intros s. rewrite Hh. unfold half_closed. pose proof (Hc s) as Hok. unfold copier_ok in Hok.
    destruct (cp_phase (px_copier p s)) as [| | |err|err]; try done; intros _; exists err;
      (split; [by auto|]); by intros ->.
  - intros s. rewrite Hcl. destruct (px_once p) eqn:Hon; [|split; [lia|done]]. split; [lia|]. intros _.
    destruct (px_cancelled p) eqn:Hca; [left; by inversion Hm; congruence|]. right.
    destruct (main_ok_both p got waits _ Hm Hp Hon Hca) as (ea & eb & Ha & Hb' & _).
    pose proof (Hh SideB) as HA. pose proof (Hh SideA) as HB. simpl in HA, HB. rewrite HA, HB. unfold half_closed.
    by rewrite Ha, Hb'.
  - intros r Hmain. rewrite Hmain in Hm. split; [intros s; rewrite Hcl; by inversion Hm as [| | |? ? Hon|? ? ? |? Hon]; rewrite Hon|].
    destruct (px_cancelled p) eqn:Hca; [left; inversion Hm; [congruence|by auto]|right].
    assert (px_once p = true) as Hon by (inversion Hm; congruence).
    destruct (main_ok_both p got waits _ Hm Hp Hon Hca) as (ea & eb & Ha & Hb' & Hg).
    exists ea, eb, got, waits. split_and!; try done. inversion Hm; [done|congruence].
  - done.
  - done.
  - intros Hobs s. by rewrite Hb, Hobs.
Qed.

(** *** The proxy returns *)

Definition copier_rank (c : copier) : nat :=
  match cp_phase c with CopyEnded _ => 2 | CopyHalfClosed _ => 1 | _ => 0 end.
Definition main_rank (m : mainPhase) : nat :=
  match m with
  | MainSelect n _ => 7 - n | MainWait l _ => 2 + length l | MainDefer _ => 1 | MainReturned _ => 0
  end.
Definition proxy_measure (p : ioProxyState) : nat :=
  copier_rank (px_copier p SideA) + copier_rank (px_copier p SideB) + main_rank (px_main p).

Lemma set_copier_rank p s c :
  copier_rank (upd (px_copier p) s c SideA) + copier_rank (upd (px_copier p) s c SideB) + copier_rank (px_copier p s) =
  copier_rank (px_copier p SideA) + copier_rank (px_copier p SideB) + copier_rank c.
Proof. destruct s; rewrite ?upd_eq, ?upd_ne by done; lia. Qed.

Lemma proxy_own_decreases waiter p p' : ioproxy_inv p → proxy_own_step waiter p p' → proxy_measure p' < proxy_measure p.
Proof.
  intros Hinv Hs. destruct Hs as [p s err Hph|p s err Hph Hlen|p err rest n result Hmain Hch|p n result Hmain Hctx
    |p streams err result Hmain|p result Hmain]; unfold proxy_measure; simpl; rewrite ?Hmain.
  - match goal with |- context [upd (px_copier p) s ?c] => pose proof (set_copier_rank p s c) as Hr end.
    unfold copier_rank in Hr at 3 6. rewrite Hph in Hr. simpl in Hr. lia.
  - match goal with |- context [upd (px_copier p) s ?c] => pose proof (set_copier_rank p s c) as Hr end.
    unfold copier_rank in Hr at 3 6. rewrite Hph in Hr. simpl in Hr. lia.
  - destruct (pi_main p Hinv) as (got & waits & _ & _ & Hm). rewrite Hmain in Hm.
    assert (n < 2) by by inversion Hm. case_bool_decide; simpl; lia.
  - destruct (close_once_rest p) as (-> & _). destruct (pi_main p Hinv) as (got & waits & _ & _ & Hm). rewrite Hmain in Hm.
    assert (n < 2) by by inversion Hm. simpl. lia.
  - unfold main_wait. destruct streams as [|s streams]; [|destruct (waiter s)]; simpl; lia.
  - destruct (close_once_rest p) as (-> & _). simpl. lia.
Qed.

(** The copying in both directions is over, or the context is. *)
Definition must_return (p : ioProxyState) : Prop :=
  px_ctxDone p = true ∨
  ∀ s, match cp_phase (px_copier p s) with CopyReading | CopyWriting _ _ => False | _ => True end.

Lemma proxy_own_must waiter p p' : must_return p → proxy_own_step waiter p p' → must_return p'.
Proof.
  intros [Hctx|Hend] Hs.
  - left. destruct Hs; try done; unfold main_wait, main_cancel, main_defer; simpl;
      try (by destruct (close_once_rest p) as (_ & _ & _ & -> & _)).
    destruct streams as [|s streams]; [|destruct (waiter s)]; done.
  - right. intros s'. destruct Hs as [p s err Hph|p s err Hph Hlen|p err rest n result Hmain Hch|p n result Hmain Hctx
      |p streams err result Hmain|p result Hmain]; simpl; try apply Hend.
    + unfold upd. destruct (decide (s' = s)); [done|apply Hend].
    + unfold upd. destruct (decide (s' = s)); [done|apply Hend].
    + destruct (close_once_rest p) as (-> & _). apply Hend.
    + unfold main_wait. destruct streams as [|x streams]; [|destruct (waiter x)]; simpl; apply Hend.
    + destruct (close_once_rest p) as (-> & _). apply Hend.
Qed.

(** The channel has room for a result that is not on it. *)
Lemma errCh_room p s err :
  ioproxy_inv p → cp_phase (px_copier p s) = CopyHalfClosed err → length (px_errCh p) < 2.
Proof.
  intros Hinv Hph. destruct (pi_main p Hinv) as (got & waits & _ & Hp & _).
  pose proof (Permutation_length Hp) as Hl. unfold sent_all in Hl. rewrite !length_app in Hl.
  assert (∀ c, length (sent c) ≤ 1) as Hle by (intros c; unfold sent; destruct (cp_phase c); simpl; lia).
  assert (sent (px_copier p s) = []) as Hs by (unfold sent; by rewrite Hph).
  pose proof (Hle (px_copier p SideA)). pose proof (Hle (px_copier p SideB)).
  destruct s; rewrite Hs in Hl; simpl in Hl; lia.
Qed.

Lemma proxy_progress waiter p :
  ioproxy_inv p → must_return p →
  (∃ p', proxy_own_step waiter p p') ∨
  ((∃ r, px_main p = MainReturned r) ∧
   ∀ s err, cp_phase (px_copier p s) ≠ CopyEnded err ∧ cp_phase (px_copier p s) ≠ CopyHalfClosed err).
Proof.
  intros Hinv Hmust.
  assert ((∃ s p', (∃ err, cp_phase (px_copier p s) = CopyEnded err ∨ cp_phase (px_copier p s) = CopyHalfClosed err) ∧
             proxy_own_step waiter p p') ∨
    ∀ s err, cp_phase (px_copier p s) ≠ CopyEnded err ∧ cp_phase (px_copier p s) ≠ CopyHalfClosed err)
    as [(s & p' & _ & Hs)|Hno]; [|left; by exists p'|].
  { destruct (cp_phase (px_copier p SideA)) as [| |e|e|e] eqn:HA;
      [..|by left; exists SideA; eexists; split; [eauto|by apply px_step_half]
         |by left; exists SideA; eexists; split; [eauto|apply px_step_send; [done|by eapply errCh_room]]|];
    (destruct (cp_phase (px_copier p SideB)) as [| |e'|e'|e'] eqn:HB;
      [..|by left; exists SideB; eexists; split; [eauto|by apply px_step_half]
         |by left; exists SideB; eexists; split; [eauto|apply px_step_send; [done|by eapply errCh_room]]|]);
    right; intros [] err; by rewrite ?HA, ?HB. }
  destruct (px_main p) as [n result|streams result|result|r] eqn:Hmain.
  - left. destruct Hmust as [Hctx|Hend]; [eexists; by eapply px_step_cancel|].
    destruct (pi_main p Hinv) as (got & waits & _ & Hp & Hm). rewrite Hmain in Hm.
    assert (length got < 2) as Hl by (inversion Hm; by subst).
    pose proof (Permutation_length Hp) as Hlen. unfold sent_all, sent in Hlen. rewrite !length_app in Hlen.
    destruct (px_errCh p) as [|err rest] eqn:Hch; [|eexists; by eapply px_step_receive]. exfalso.
    pose proof (Hend SideA). pose proof (Hend SideB). pose proof (Hno SideA) as NA. pose proof (Hno SideB) as NB.
    destruct (cp_phase (px_copier p SideA)) as [| |e|e|e]; try done; try (by destruct (NA e));
      destruct (cp_phase (px_copier p SideB)) as [| |e'|e'|e']; try done; try (by destruct (NB e')).
    simpl in Hlen. lia.
  - left. eexists. by apply (px_step_wait waiter p streams None).
  - left. eexists. by eapply px_step_defer.
  - right. split; [by exists r|done].
Qed.

(** C19: the proxy returns.  Once the context is cancelled, or both directions have come to an end,
    the caller and the two goroutines take at most eleven more steps of their own in whatever order,
    as long as [Wait] returns; where none is left the proxy has returned and no goroutine is stuck on
    the channel. *)
Theorem proxy_returns waiter observed p :
  rtc (proxy_step waiter) (proxy_start observed) p → must_return p →
  (∀ n p', nsteps (proxy_own_step waiter) n p p' → n ≤ 11) ∧
  (∀ p', rtc (proxy_own_step waiter) p p' → (∀ p'', ¬ proxy_own_step waiter p' p'') →
     (∃ r, px_main p' = MainReturned r) ∧
     ∀ s err, cp_phase (px_copier p' s) ≠ CopyEnded err ∧ cp_phase (px_copier p' s) ≠ CopyHalfClosed err).
Proof.
  intros Hinv%proxy_reachable_inv Hmust. split.
  - intros n p' Hn.
    pose proof (nsteps_bounded _ _ proxy_measure (proxy_own_inv waiter) (proxy_own_decreases waiter) _ _ _ Hinv Hn) as Hle.
    assert (∀ c, copier_rank c ≤ 2) as Hc by (intros c; unfold copier_rank; destruct (cp_phase c); lia).
    pose proof (Hc (px_copier p SideA)). pose proof (Hc (px_copier p SideB)).
    assert (main_rank (px_main p) ≤ 7).
    { destruct (pi_main p Hinv) as (got & waits & _ & _ & Hm). unfold main_rank.
      destruct (px_main p) as [m|l r|r|r] eqn:E; try lia. inversion Hm. lia. }
    unfold proxy_measure in Hle at 2. lia.
  - intros p' Hr Hstuck.
    destruct (rtc_invariant _ (fun p => ioproxy_inv p ∧ must_return p)
      (fun p p' H Hs => conj (proxy_own_inv waiter p p' (proj1 H) Hs) (proxy_own_must waiter p p' (proj2 H) Hs))
      _ _ (conj Hinv Hmust) Hr) as [Hinv' Hmust'].
    destruct (proxy_progress waiter p' Hinv' Hmust') as [[p'' Hs]|?]; [by destruct (Hstuck p'')|done].
Qed.

(** Stream A delivers two bytes and ends, stream B ends at once; B's write end is closed. *)
Definition proxy_example : ioProxyState :=
  let p := copy_read (proxy_start true) SideA "hi" None in
  let p := copy_write p SideA "hi" None in
  let p := copy_read p SideA "" (Some None) in
  let p := copy_read p SideB "" (Some (Some (ESentinel io_ErrClosedPipe))) in
  copy_closeWrite p SideA None.

Lemma proxy_example_reachable waiter : rtc (proxy_step waiter) (proxy_start true) proxy_example.
Proof.
  eapply rtc_l; [left; by apply (px_step_read _ SideA "hi" None)|].
  eapply rtc_l; [left; by apply (px_step_write _ SideA "hi" None)|].
  eapply rtc_l; [left; by apply (px_step_read _ SideA "" (Some None))|].
  eapply rtc_l; [left; by apply (px_step_read _ SideB "" (Some (Some (ESentinel io_ErrClosedPipe))))|].
  apply rtc_once. right. by apply px_step_half.
Qed.

Lemma proxy_faithful_witness :
  px_halfClosed proxy_example SideB = true ∧ cp_read (px_copier proxy_example SideA) = "hi" ∧
  px_bytes proxy_example SideA = 2.
Proof.
  split; [reflexivity|]. split; [reflexivity|].
  destruct (proxy_faithful (fun _ => false) true proxy_example (proxy_example_reachable _))
    as (_ & _ & _ & _ & _ & _ & Hbytes). by apply (Hbytes eq_refl SideA).
Defined.

Lemma proxy_returns_witness :
  must_return proxy_example ∧
  ∀ n p', nsteps (proxy_own_step (fun _ => true)) n proxy_example p' → n ≤ 11.
Proof.
  assert (must_return proxy_example) as Hm by (right; by intros []). split; [done|].
  by apply (proxy_returns (fun _ => true) true proxy_example (proxy_example_reachable _)).
Defined.
