(* ===== verification/CriNode.v ===== *)
(** Model of the node's half of the CRI data plane: [src/pkg/podssh/backend/cri/node/runtime.go],
    [server.go] and [helper_manager.go], with the constants of [cri/protocol.go] and the manifest of
    [helper/protocol.go].

    The container runtime is an interface, [RuntimeClient]; a request that reaches it is part of the
    outcome, so that theorems can say which container it names.  Go's URL parser, the SHA-256 sum and
    the JSON decoder are parameters. *)

From S2P Require Import Prelude GoStrings GoStrconv GoPath.

(** ** [cri/protocol.go] *)

Definition APIVersion := "v1".
Definition DefaultStreamPort : Z := 10443.
Definition DefaultMetricsPort : Z := 18080.
Definition DefaultClientName := "kube-ssh-gateway".

Definition QueryCommand := "command".
Definition QueryArgument := "arg".
Definition QueryStdin := "stdin".
Definition QueryStdout := "stdout".
Definition QueryStderr := "stderr".
Definition QueryTTY := "tty".
Definition QueryPort := "port".

(** ** The runtime *)

Inductive PodSandboxState := SANDBOX_READY | SANDBOX_NOTREADY.
#[export] Instance PodSandboxState_eq_dec : EqDecision PodSandboxState.
Proof. solve_decision. Defined.
Inductive ContainerState := CONTAINER_CREATED | CONTAINER_RUNNING | CONTAINER_EXITED | CONTAINER_UNKNOWN.
#[export] Instance ContainerState_eq_dec : EqDecision ContainerState.
Proof. solve_decision. Defined.

Record PodSandboxMetadata := mkSandboxMeta { sm_Name : string; sm_Uid : string; sm_Namespace : string }.
Record PodSandbox := mkSandbox {
  sb_Id : string; sb_Metadata : option PodSandboxMetadata; sb_State : PodSandboxState;
}.
(** The metadata of a container is its name here. *)
Record Container := mkContainer {
  ct_Id : string; ct_PodSandboxId : string; ct_Metadata : option string; ct_State : ContainerState;
}.

Record CriExecRequest := mkCriExec {
  ce_ContainerId : string; ce_Cmd : list string;
  ce_Stdin : bool; ce_Stdout : bool; ce_Stderr : bool; ce_Tty : bool;
}.

Record ExecSyncResponse := mkExecSync { es_ExitCode : Z; es_Stdout : string; es_Stderr : string }.

(** The runtime's answers.  [ListContainers] takes the sandbox of its filter. *)
Class RuntimeClient := {
  rt_Version : option error;
  rt_Status : result (option (list (string * bool)));
  rt_ListPodSandbox : result (list PodSandbox);
  rt_ListContainers : string → result (list Container);
  rt_Exec : CriExecRequest → result string;
  rt_ExecSync : string → list string → result ExecSyncResponse;
  rt_PortForward : string → Z → result string;
}.

(** ** [runtime.go] *)

Record podIdentity := mkIdentity { id_Namespace : string; id_Name : string; id_UID : string; id_Container : string }.
Record resolvedTarget := mkResolved { rt_SandboxID : string; rt_ContainerID : string }.

Definition sandbox_matches (identity : podIdentity) (sandbox : PodSandbox) : bool :=
  match sb_Metadata sandbox with
  | Some m => bool_decide (sb_State sandbox = SANDBOX_READY) && bool_decide (sm_Uid m = id_UID identity) &&
              bool_decide (sm_Namespace m = id_Namespace identity) && bool_decide (sm_Name m = id_Name identity)
  | None => false
  end.

Definition container_matches (name : string) (container : Container) : bool :=
  bool_decide (ct_State container = CONTAINER_RUNNING) && bool_decide (ct_Metadata container = Some name).

(** The loop over the containers. *)
Fixpoint find_container (identity : podIdentity) (found : string) (containers : list Container) : result string :=
  match containers with
  | [] => Ok found
  | container :: rest =>
      if container_matches (id_Container identity) container then
        if bool_decide (found ≠ "")
        then Err (Errorf "multiple running containers named %q matched pod uid %s" [id_Container identity; id_UID identity])
        else find_container identity (ct_Id container) rest
      else find_container identity found rest
  end.

Definition resolveRuntimeTarget `{RuntimeClient} (identity : podIdentity) (needContainer : bool) : result resolvedTarget :=
  match rt_ListPodSandbox with
  | Err e => Err (Wrapf "list CRI pod sandboxes: %w" [] e)
  | Ok sandboxes =>
      match List.filter (sandbox_matches identity) sandboxes with
      | [] => Err (Errorf "ready pod sandbox %s/%s uid %s was not found on this node"
                     [id_Namespace identity; id_Name identity; id_UID identity])
      | [sandbox] =>
          if negb needContainer then Ok (mkResolved (sb_Id sandbox) "")
          else match rt_ListContainers (sb_Id sandbox) with
               | Err e => Err (Wrapf "list CRI containers: %w" [] e)
               | Ok containers =>
                   found ← find_container identity "" containers;
                   if bool_decide (found = "")
                   then Err (Errorf "running container %q was not found in pod uid %s" [id_Container identity; id_UID identity])
                   else Ok (mkResolved (sb_Id sandbox) found)
               end
      | _ => Err (Errorf "multiple ready pod sandboxes matched %s/%s uid %s"
                    [id_Namespace identity; id_Name identity; id_UID identity])
      end
  end.

Record goURL := mkURL { url_Scheme : string; url_Host : string }.

Definition parseStreamingURL (url_Parse : string → result goURL) (raw : string) : result goURL :=
  match url_Parse raw with
  | Err e => Err (Wrapf "parse CRI streaming URL: %w" [] e)
  | Ok u =>
      if bool_decide (url_Scheme u ≠ "http") && bool_decide (url_Scheme u ≠ "https")
      then Err (Errorf "CRI streaming URL uses unsupported scheme %q" [url_Scheme u])
      else if bool_decide (url_Host u = "") then Err (Errorf "CRI streaming URL has no host" [])
      else Ok u
  end.

(** ** [server.go]: options *)

Record NodeOptions := mkNodeOptions {
  no_ListenAddress : string;
  no_ManagementAddress : string;
  no_RuntimeEndpoints : list string;
  no_HelperPath : string;
  no_HelperRemoteDir : string;
  no_TLSCAFile : string;
  no_TLSCertFile : string;
  no_TLSKeyFile : string;
  no_ExpectedClientName : string;
  no_ShutdownTimeout : Z;
  no_RuntimeTimeout : Z;
}.

Definition defaultRuntimeEndpoints : list string :=
  ["unix:///run/containerd/containerd.sock"; "unix:///run/crio/crio.sock";
   "unix:///run/k3s/containerd/containerd.sock"; "unix:///run/k0s/containerd.sock"; "unix:///run/cri-dockerd.sock"].

Definition second : Z := 1000000000.

Definition defaultNodeOptions (o : NodeOptions) : NodeOptions :=
  mkNodeOptions
    (if bool_decide (no_ListenAddress o = "") then ":" +:+ Itoa DefaultStreamPort else no_ListenAddress o)
    (if bool_decide (no_ManagementAddress o = "") then ":" +:+ Itoa DefaultMetricsPort else no_ManagementAddress o)
    (match no_RuntimeEndpoints o with [] => defaultRuntimeEndpoints | l => l end)
    (no_HelperPath o) (no_HelperRemoteDir o) (no_TLSCAFile o) (no_TLSCertFile o) (no_TLSKeyFile o)
    (if bool_decide (no_ExpectedClientName o = "") then DefaultClientName else no_ExpectedClientName o)
    (if bool_decide (no_ShutdownTimeout o ≤ 0)%Z then 30 * second else no_ShutdownTimeout o)%Z
    (if bool_decide (no_RuntimeTimeout o ≤ 0)%Z then 10 * second else no_RuntimeTimeout o)%Z.

(** [stat] says whether a path is a regular file. *)
Definition validateNodeOptions (stat : string → result bool) (o : NodeOptions) : option error :=
  match find_first (fun e => negb (HasPrefix e "unix://")) (no_RuntimeEndpoints o) with
  | Some endpoint => Some (Errorf "CRI runtime endpoint %q must use unix://" [endpoint])
  | None =>
      match stat (no_HelperPath o) with
      | Err e => Some (Wrapf "stat helper binary: %w" [] e)
      | Ok false => Some (Errorf "helper path %q is not a regular file" [no_HelperPath o])
      | Ok true => None
      end
  end.

Definition checkRuntime (runtime : RuntimeClient) : option error :=
  match @rt_Version runtime with
  | Some e => Some (Wrapf "CRI v1 version check: %w" [] e)
  | None =>
      match @rt_Status runtime with
      | Err e => Some (Wrapf "CRI status: %w" [] e)
      | Ok None => Some (Errorf "CRI runtime returned no status" [])
      | Ok (Some conditions) =>
          match find_first (fun c : string * bool => bool_decide (c.1 = "RuntimeReady") && c.2) conditions with
          | Some _ => None
          | None => Some (Errorf "CRI runtime is not ready" [])
          end
      end
  end.

(** [selectRuntime]: [stat] says whether a path is a socket, [ctxDone] whether the context has ended
    after the check of an endpoint.  The second component are the endpoints whose connection was
    opened and closed again. *)
Fixpoint selectRuntime_loop (stat : string → result bool) (dial : string → result RuntimeClient)
    (ctxDone : string → bool) (endpoints : list string) (closed : list string) (failures : list string)
    : result (RuntimeClient * string) * list string :=
  let failed failures := (Err (Errorf "no ready CRI v1 endpoint: %w" failures), closed) in
  match endpoints with
  | [] => failed failures
  | endpoint :: rest =>
      match stat (TrimPrefix endpoint "unix://") with
      | Err _ | Ok false => selectRuntime_loop stat dial ctxDone rest closed (failures ++ [endpoint])
      | Ok true =>
          match dial endpoint with
          | Err _ => selectRuntime_loop stat dial ctxDone rest closed (failures ++ [endpoint])
          | Ok runtime =>
              match checkRuntime runtime with
              | None => (Ok (runtime, endpoint), closed)
              | Some _ =>
                  if ctxDone endpoint
                  then (Err (Errorf "no ready CRI v1 endpoint: %w" (failures ++ [endpoint])), closed ++ [endpoint])
                  else selectRuntime_loop stat dial ctxDone rest (closed ++ [endpoint]) (failures ++ [endpoint])
              end
          end
      end
  end.
Definition selectRuntime stat dial ctxDone endpoints := selectRuntime_loop stat dial ctxDone endpoints [] [].

(** ** [server.go]: requests *)

Notation Values := (gmap string (list string)).
Definition Values_Get (v : Values) (key : string) : string := default "" (v !! key ≫= head).
Definition Values_all (v : Values) (key : string) : list string := default [] (v !! key).

(** [strconv.ParseBool], an error read as false, and [strconv.FormatBool]. *)
Definition ParseBool (s : string) : bool :=
  bool_decide (s ∈ ["1"; "t"; "T"; "true"; "TRUE"; "True"]).
Definition FormatBool (b : bool) : string := if b then "true" else "false".
Definition queryBool (v : Values) (key : string) : bool := ParseBool (Values_Get v key).

(** A request: the peer is the common name of its certificate, if it showed one. *)
Record nodeRequest := mkNodeRequest { nr_Peer : option string; nr_Path : string; nr_Query : Values }.

Definition authorizedPeer (r : nodeRequest) (expected : string) : bool := bool_decide (nr_Peer r = Some expected).

Inductive nodeRoute :=
| RouteExec (identity : podIdentity)
| RouteHelper (identity : podIdentity) (capability : string)
| RoutePortForward (identity : podIdentity).

(** The patterns of [streamHandler] on a POST request: a wildcard is one segment, and a path with
    empty or dot segments matches none. *)
Definition plain_segment (s : string) : bool := negb (bool_decide (s ∈ [""; "."; ".."])).
Definition streamRoute (path : string) : option nodeRoute :=
  match Split path "/" with
  | "" :: version :: segments =>
      if bool_decide (version = APIVersion) && forallb plain_segment segments then
        match segments with
        | [operation; ns; pod; uid; container] =>
            if bool_decide (operation = "exec") then Some (RouteExec (mkIdentity ns pod uid container)) else None
        | [operation; ns; pod; uid; container; capability] =>
            if bool_decide (operation = "helper")
            then Some (RouteHelper (mkIdentity ns pod uid container) capability) else None
        | [operation; ns; pod; uid] =>
            if bool_decide (operation = "portforward") then Some (RoutePortForward (mkIdentity ns pod uid "")) else None
        | _ => None
        end
      else None
  | _ => None
  end.

Definition validateIdentity (identity : podIdentity) (needContainer : bool) : option error :=
  if bool_decide (id_Namespace identity = "") || bool_decide (id_Name identity = "") || bool_decide (id_UID identity = "")
  then Some (Errorf "namespace, pod, and uid are required" [])
  else if needContainer && bool_decide (id_Container identity = "") then Some (Errorf "container is required" [])
  else None.

(** What the runtime was asked for. *)
Inductive prepared := PreparedExec (r : CriExecRequest) | PreparedPortForward (sandbox : string) (port : Z).

(** The outcome of a request: an HTTP error, or a stream proxied to the runtime's URL. *)
Inductive nodeResponse := NodeError (status : Z) (err : error) | NodeStream (what : prepared) (url : goURL).

Section Handlers.
Context `{RuntimeClient} (url_Parse : string → result goURL).

Definition proxyStream (what : prepared) (rawURL : string) : nodeResponse :=
  match parseStreamingURL url_Parse rawURL with
  | Err e => NodeError 502 e
  | Ok u => NodeStream what u
  end.

(** The common part of the handlers: validation and resolution. *)
Definition with_target (identity : podIdentity) (needContainer : bool) (k : resolvedTarget → nodeResponse) : nodeResponse :=
  match validateIdentity identity needContainer with
  | Some e => NodeError 400 e
  | None =>
      match resolveRuntimeTarget identity needContainer with
      | Err e => NodeError 404 e
      | Ok target => k target
      end
  end.

Definition handleExec (identity : podIdentity) (query : Values) : nodeResponse :=
  with_target identity true (fun target =>
    let request := mkCriExec (rt_ContainerID target) (Values_all query QueryCommand) (queryBool query QueryStdin)
                     (queryBool query QueryStdout) (queryBool query QueryStderr) (queryBool query QueryTTY) in
    match rt_Exec request with
    | Err e => NodeError 503 (Wrapf "prepare CRI exec: %w" [] e)
    | Ok url => proxyStream (PreparedExec request) url
    end).

(** [prepare] is the helper manager's. *)
Definition handleHelper (prepare : string → string → result string) (identity : podIdentity) (capability : string)
    (query : Values) : nodeResponse :=
  with_target identity true (fun target =>
    match prepare (rt_ContainerID target) capability with
    | Err e => NodeError 503 e
    | Ok helperPath =>
        let request := mkCriExec (rt_ContainerID target) (helperPath :: Values_all query QueryArgument)
                         (queryBool query QueryStdin) (queryBool query QueryStdout) (queryBool query QueryStderr) false in
        match rt_Exec request with
        | Err e => NodeError 503 (Wrapf "prepare helper exec: %w" [] e)
        | Ok url => proxyStream (PreparedExec request) url
        end
    end).

Definition handlePortForward (identity : podIdentity) (query : Values) : nodeResponse :=
  with_target identity false (fun target =>
    match ParseInt (Values_Get query QueryPort) 10 32 with
    | None => NodeError 400 (Errorf "invalid port" [])
    | Some port =>
        if bool_decide (port < 1)%Z || bool_decide (65535 < port)%Z then NodeError 400 (Errorf "invalid port" [])
        else match rt_PortForward (rt_SandboxID target) port with
             | Err e => NodeError 503 (Wrapf "prepare CRI port-forward: %w" [] e)
             | Ok url => proxyStream (PreparedPortForward (rt_SandboxID target) port) url
             end
    end).

(** [streamHandler], after [observe] has let the request in; without a route the status is that of
    the multiplexer. *)
Definition streamHandler (expected : string) (prepare : string → string → result string) (draining : bool)
    (r : nodeRequest) : nodeResponse :=
  if negb (authorizedPeer r expected) then NodeError 403 (Errorf "unauthorized gateway certificate" [])
  else match streamRoute (nr_Path r) with
       | None => NodeError 404 (Errorf "404 page not found" [])
       | Some route =>
           if draining then NodeError 503 (Errorf "node data plane is draining" [])
           else match route with
                | RouteExec who => handleExec who (nr_Query r)
                | RouteHelper who capability => handleHelper prepare who capability (nr_Query r)
                | RoutePortForward who => handlePortForward who (nr_Query r)
                end
       end.
End Handlers.

(** ** [server.go]: streams and draining *)

(** [drained] is the channel that [startStreamDrain] made, with the number of times it was closed;
    [streamsDrained] is the server's field: true when it holds that channel. *)
Record streamState := mkStreams {
  ss_active : Z; ss_draining : bool; ss_field : bool; ss_drained : option nat;
}.
Definition newStreams : streamState := mkStreams 0 false false None.

Definition beginStream (s : streamState) : streamState * bool :=
  if ss_draining s then (s, false)
  else (mkStreams (ss_active s + 1) (ss_draining s) (ss_field s) (ss_drained s), true).

Definition endStream (s : streamState) : streamState :=
  let active := (ss_active s - 1)%Z in
  if ss_draining s && bool_decide (active = 0%Z) && ss_field s
  then mkStreams active (ss_draining s) false (S <$> ss_drained s)
  else mkStreams active (ss_draining s) (ss_field s) (ss_drained s).

Definition startStreamDrain (s : streamState) : streamState :=
  if bool_decide (ss_active s = 0%Z) then mkStreams (ss_active s) true (ss_field s) (Some 1)
  else mkStreams (ss_active s) true true (Some 0).
