(* ===== verification/CriTransport.v ===== *)
(** Model of the gateway's half of the CRI data plane: [src/pkg/podssh/backend/cri/transport.go], with
    the request types of [backend/backend.go].

    The request that the gateway sends is a value, so that it can be given to the node's handler
    ([CriNode]): the path and the query arrive as they were sent, the peer is the gateway's
    certificate.  The Pod lookup is a parameter. *)

From S2P Require Import Prelude GoStrings GoStrconv GoPath Kube Target CriNode.

(** ** [backend.go] *)

(** Of the streams of a request only their presence matters here. *)
Record TransportExecRequest := mkExec {
  xr_Target : option Target; xr_Command : list string;
  xr_Stdin : bool; xr_Stdout : bool; xr_Stderr : bool; xr_TTY : bool;
}.
Record PodPortForwardRequest := mkPodPortForward { pp_Target : option Target; pp_Port : Z }.
Record HelperExecRequest := mkHelperExec {
  hr_Target : option Target; hr_Capability : string; hr_Command : list string;
  hr_Stdin : bool; hr_Stdout : bool; hr_Stderr : bool;
}.

(** ** [transport.go] *)

Record CriOptions := mkCriOptions {
  co_Port : Z; co_ServerName : string; co_CAFile : string; co_CertFile : string; co_KeyFile : string;
}.

Definition cri_New (o : CriOptions) : result CriOptions :=
  let o := if bool_decide (co_Port o = 0%Z)
           then mkCriOptions DefaultStreamPort (co_ServerName o) (co_CAFile o) (co_CertFile o) (co_KeyFile o) else o in
  if bool_decide (co_Port o < 1)%Z || bool_decide (65535 < co_Port o)%Z
  then Err (Errorf "node port %d is invalid" [FormatInt (co_Port o)])
  else if bool_decide (co_ServerName o = "") || bool_decide (co_CAFile o = "") ||
          bool_decide (co_CertFile o = "") || bool_decide (co_KeyFile o = "")
  then Err (Errorf "node server name, CA, client certificate, and client key are required" [])
  else Ok o.

Record podLocation := mkLocation {
  pl_Namespace : string; pl_Pod : string; pl_UID : string; pl_Container : string; pl_HostIP : string; pl_NodeName : string;
}.

Definition PodRunning := "Running".

Section Transport.
Context (pods_Get : string → string → result Pod) (options : CriOptions).

Definition locate (tgt : option Target) : result podLocation :=
  podTarget ← Parse tgt;
  match pods_Get (r_Namespace podTarget) (r_Pod podTarget) with
  | Err e => Err (Wrapf "resolve target Pod for CRI transport: %w" [] e)
  | Ok pod =>
      let binding := match tgt with Some t => BoundIdentity t | None => mkBinding "" "" "" end in
      let names := [pod_Namespace pod; pod_Name pod] in
      if bool_decide (pod_UID pod = "") || bool_decide (pod_NodeName pod = "") || bool_decide (pod_HostIP pod = "")
      then Err (EStatus ServiceUnavailable "pod %s/%s is not assigned to a reachable node" names)
      else if bool_decide (pod_Phase pod ≠ PodRunning) || bool_decide (pod_DeletionTimestamp pod ≠ None)
      then Err (EStatus ServiceUnavailable "pod %s/%s is not running" names)
      else if bool_decide (b_UID binding = "") || bool_decide (b_NodeName binding = "") || bool_decide (b_HostIP binding = "")
      then Err (EStatus BadRequest "pod %s/%s target is not bound to a node instance" names)
      else if bool_decide (b_UID binding ≠ pod_UID pod)
      then Err (EStatus Conflict "pod %s/%s was replaced after target resolution" names)
      else if bool_decide (b_NodeName binding ≠ pod_NodeName pod) || bool_decide (b_HostIP binding ≠ pod_HostIP pod)
      then Err (EStatus Conflict "pod %s/%s moved after target resolution" names)
      else Ok (mkLocation (pod_Namespace pod) (pod_Name pod) (pod_UID pod) (r_Container podTarget)
                 (pod_HostIP pod) (pod_NodeName pod))
  end.

(** [endpoint]: host and path. *)
Definition endpoint (location : podLocation) (operation : string) (suffix : list string) : string * string :=
  (JoinHostPort (pl_HostIP location) (Itoa (co_Port options)),
   Join (["" ; APIVersion; operation; pl_Namespace location; pl_Pod location; pl_UID location] ++ suffix) "/").

(** [query.Add] for every value, then [query.Set] for every key. *)
Definition add_values (key : string) (values : list string) (q : Values) : Values :=
  match values with [] => q | _ => <[key := Values_all q key ++ values]> q end.
Definition set_value (key value : string) (q : Values) : Values := <[key := [value]]> q.

(** The request [Exec], [ExecHelper] and [PortForward] send: where to, path and query. *)
Record criRequest := mkCriRequest { cr_Host : string; cr_Path : string; cr_Query : Values }.

Definition exec_request (location : podLocation) (req : TransportExecRequest) : criRequest :=
  let '(host, path) := endpoint location "exec" [pl_Container location] in
  mkCriRequest host path
    (set_value QueryTTY (FormatBool (xr_TTY req))
      (set_value QueryStderr (FormatBool (negb (xr_TTY req) && xr_Stderr req))
        (set_value QueryStdout (FormatBool (xr_Stdout req))
          (set_value QueryStdin (FormatBool (xr_Stdin req)) (add_values QueryCommand (xr_Command req) ∅))))).

Definition helper_request (location : podLocation) (req : HelperExecRequest) : criRequest :=
  let '(host, path) := endpoint location "helper" [pl_Container location; hr_Capability req] in
  mkCriRequest host path
    (set_value QueryStderr (FormatBool (hr_Stderr req))
      (set_value QueryStdout (FormatBool (hr_Stdout req))
        (set_value QueryStdin (FormatBool (hr_Stdin req)) (add_values QueryArgument (hr_Command req) ∅)))).

Definition portforward_request (location : podLocation) (req : PodPortForwardRequest) : criRequest :=
  let '(host, path) := endpoint location "portforward" [] in
  mkCriRequest host path (set_value QueryPort (FormatUint (pp_Port req) 10) ∅).

(** The outcome of a remote command: status, an error that carries one, or another error. *)
Inductive streamOutcome := StreamOk | StreamExit (code : Z) | StreamFailed (e : error).
Definition stream_result (format : string) (o : streamOutcome) : Z * option error :=
  match o with
  | StreamOk => (0%Z, None)
  | StreamExit code => (code, None)
  | StreamFailed e => (1%Z, Some (Wrapf format [] e))
  end.

(** [Exec] and [ExecHelper], given how a request ends. *)
Definition cri_Exec (send : criRequest → streamOutcome) (req : TransportExecRequest) : Z * option error :=
  match locate (xr_Target req) with
  | Err e => (1%Z, Some e)
  | Ok location => stream_result "node exec stream: %w" (send (exec_request location req))
  end.
Definition cri_ExecHelper (send : criRequest → streamOutcome) (req : HelperExecRequest) : Z * option error :=
  match locate (hr_Target req) with
  | Err e => (1%Z, Some e)
  | Ok location => stream_result "node helper stream: %w" (send (helper_request location req))
  end.

(** The streams of a port forward: negotiated protocol, error stream, data stream; an error closes the
    connection.  The second component is true when a connection was opened and closed again. *)
Record forwardDial := mkForwardDial {
  fd_negotiated : result string; fd_errorStream : option error; fd_dataStream : option error;
}.
Definition PortForwardProtocolV1Name := "portforward.k8s.io".
Definition cri_PortForward (dial : criRequest → forwardDial) (req : PodPortForwardRequest) : result criRequest * bool :=
  match locate (pp_Target req) with
  | Err e => (Err e, false)
  | Ok location =>
      let r := portforward_request location req in
      match fd_negotiated (dial r) with
      | Err e => (Err (Wrapf "dial node port-forward: %w" [] e), false)
      | Ok protocol =>
          if bool_decide (protocol ≠ PortForwardProtocolV1Name)
          then (Err (Errorf "dial node port-forward: unexpected protocol %q" [protocol]), true)
          else match fd_errorStream (dial r) with
               | Some e => (Err (Wrapf "create node port-forward error stream: %w" [] e), true)
               | None =>
                   match fd_dataStream (dial r) with
                   | Some e => (Err (Wrapf "create node port-forward data stream: %w" [] e), true)
                   | None => (Ok r, false)
                   end
               end
      end
  end.
End Transport.

(** The terminal result of a forward from its error stream. *)
Definition forward_result (message : result string) : option error :=
  match message with
  | Err e => Some (Wrapf "read node port-forward error: %w" [] e)
  | Ok message => if bool_decide (message ≠ "") then Some (Errorf "node port-forward: %s" [TrimSpace message]) else None
  end.

(** A request as the node receives it from a peer with the certificate [peer]. *)
Definition received (peer : option string) (r : criRequest) : nodeRequest :=
  mkNodeRequest peer (cr_Path r) (cr_Query r).
