(* ===== verification/CriProps.v ===== *)
(** Properties of the CRI data plane: a request of the gateway reaches the container of the Pod its
    target is bound to and no other, and the node's streams drain. *)

From S2P Require Import Prelude Runs GoStrings GoStrconv GoPath Kube Target CriNode CriTransport.

(** ** Paths *)

Lemma Split_Join_flat l c : l ≠ [] → Split (Join l c) c = l ≫= (fun x => Split x c).
Proof.
  induction l as [|x l IH]; [done|]. intros _. destruct l as [|y l].
  - simpl. by rewrite app_nil_r.
  - change (Join (x :: y :: l) c) with (x +:+ String c (Join (y :: l) c)).
    rewrite Split_app_sep, IH by done. done.
Qed.

Lemma Split_length_one x c : length (Split x c) = 1 → Split x c = [x].
Proof.
  destruct (Cut x c) as [[a b]|] eqn:Hc.
  - apply Cut_Some in Hc as [-> Ha]. rewrite Split_app_sep, length_app.
    pose proof (Split_not_nil a c). pose proof (Split_not_nil b c).
    destruct (Split a c), (Split b c); simpl; try done; lia.
  - intros _. apply Split_single. by apply Cut_None.
Qed.

Lemma Split_length_pos x c : 1 ≤ length (Split x c).
Proof. pose proof (Split_not_nil x c). destruct (Split x c); simpl; [done|lia]. Qed.

Lemma bind_Split_length l c : length l ≤ length (l ≫= (fun x => Split x c)).
Proof.
  induction l as [|x l IH]; [done|]. rewrite bind_cons, length_app, length_cons.
  pose proof (Split_length_pos x c). lia.
Qed.

(** A joined path with as many segments as parts has exactly those parts. *)
Lemma Split_Join_exact l c : length (l ≫= (fun x => Split x c)) = length l → (l ≫= (fun x => Split x c)) = l.
Proof.
  induction l as [|x l IH]; [done|]. rewrite bind_cons, length_app, length_cons. intros Hl.
  pose proof (Split_length_pos x c). pose proof (bind_Split_length l c).
  rewrite (Split_length_one x c) by lia. simpl. f_equal. apply IH. lia.
Qed.

(** The path of a request for [names] under [operation]. *)
Lemma streamRoute_join operation names :
  ContainsByte operation "/" = false →
  streamRoute (Join ("" :: APIVersion :: operation :: names) "/") =
  let segments := operation :: (names ≫= (fun x => Split x "/")) in
  if forallb plain_segment segments then
    match segments with
    | [operation; ns; pod; uid; container] =>
        if bool_decide (operation = "exec") then Some (RouteExec (mkIdentity ns pod uid container)) else None
    | [operation; ns; pod; uid; container; capability] =>
        if bool_decide (operation = "helper") then Some (RouteHelper (mkIdentity ns pod uid container) capability) else None
    | [operation; ns; pod; uid] =>
        if bool_decide (operation = "portforward") then Some (RoutePortForward (mkIdentity ns pod uid "")) else None
    | _ => None
    end
  else None.
Proof.
  intros Ho. unfold streamRoute. rewrite Split_Join_flat by done. cbn [mbind list_bind].
  change (Split "" "/") with [""]. change (Split APIVersion "/") with [APIVersion].
  rewrite (Split_single operation) by done. cbn [app]. by rewrite bool_decide_eq_true_2.
Qed.

(** The number of names each operation takes. *)
Definition arity (operation : string) : nat :=
  if bool_decide (operation = "exec") then 4 else if bool_decide (operation = "helper") then 5 else 3.

(** Where a request for the right number of names finds a route, no name had a slash in it. *)
Lemma route_exact operation names r :
  operation ∈ ["exec"; "helper"; "portforward"] → length names = arity operation →
  streamRoute (Join ("" :: APIVersion :: operation :: names) "/") = Some r →
  (names ≫= (fun x => Split x "/")) = names.
Proof.
  intros Hop Hl. rewrite streamRoute_join by set_solver. cbn zeta. intros Hr. apply Split_Join_exact. rewrite Hl.
  destruct (forallb _ _); [|done]. destruct (names ≫= _) as [|a [|b [|c [|d [|e [|f rest]]]]]]; try done;
    case_bool_decide; by subst.
Qed.

Lemma streamRoute_names operation names route :
  operation ∈ ["exec"; "helper"; "portforward"] → length names = arity operation →
  streamRoute (Join ("" :: APIVersion :: operation :: names) "/") = Some route →
  match names with
  | [ns; pod; uid] => route = RoutePortForward (mkIdentity ns pod uid "")
  | [ns; pod; uid; container] => route = RouteExec (mkIdentity ns pod uid container)
  | [ns; pod; uid; container; capability] => route = RouteHelper (mkIdentity ns pod uid container) capability
  | _ => False
  end.
Proof.
  intros Hop Hl Hr. pose proof (route_exact _ _ _ Hop Hl Hr) as Hx.
  rewrite streamRoute_join, Hx in Hr by set_solver. cbn zeta in Hr. destruct (forallb _ _); [|done].
  destruct names as [|a [|b [|c [|d [|e [|f rest]]]]]]; try done; case_bool_decide; by simplify_eq.
Qed.

(** ** Resolution *)

Lemma find_container_found identity found containers id :
  (∀ c, c ∈ containers → ct_Id c ≠ "") → found ≠ "" →
  find_container identity found containers = Ok id ↔
  List.filter (container_matches (id_Container identity)) containers = [] ∧ id = found.
Proof.
  induction containers as [|c containers IH]; intros Hid Hf; simpl; [split; [intros [= ->]|intros [_ ->]]; done|].
  destruct (container_matches _ c).
  { rewrite bool_decide_eq_true_2 by done. split; [done|]. by intros [? _]. }
  apply IH; [|done]. intros x Hx. apply Hid. by right.
Qed.

Lemma find_container_spec identity containers id :
  (∀ c, c ∈ containers → ct_Id c ≠ "") →
  find_container identity "" containers = Ok id ∧ id ≠ "" ↔
  ∃ c, List.filter (container_matches (id_Container identity)) containers = [c] ∧ id = ct_Id c.
Proof.
  induction containers as [|c containers IH]; intros Hid; simpl.
  - split; [intros [[= <-] ?]; done|intros (c & ? & _); done].
  - destruct (container_matches _ c).
    + rewrite find_container_found; [|intros x Hx; apply Hid; by right|apply Hid; left].
      split; [intros [[-> ->] _]; eauto|]. intros (c' & [= <- Hf] & ->). split; [done|]. apply Hid. left.
    + apply IH. intros x Hx. apply Hid. by right.
Qed.

Lemma filter_singleton_unique {A} (p : A → bool) (l : list A) x :
  List.filter p l = [x] → x ∈ l ∧ p x = true ∧ ∀ y, y ∈ l → p y = true → y = x.
Proof.
  intros Hf. assert (∀ y, In y (List.filter p l) ↔ In y l ∧ p y = true) as Hin by (intros; apply filter_In).
  rewrite Hf in Hin. setoid_rewrite list_elem_of_In. split_and!.
  - by apply Hin; left.
  - by apply Hin; left.
  - intros y Hy Hp. destruct (proj2 (Hin y) (conj Hy Hp)) as [?|[]]; by subst.
Qed.

(** What is documented of a runtime: the filter of [ListContainers] is obeyed, and containers have
    identifiers. *)
Class RuntimeLaws `{RuntimeClient} : Prop := {
  list_filtered : ∀ id cs c, rt_ListContainers id = Ok cs → c ∈ cs → ct_PodSandboxId c = id;
  list_named : ∀ id cs c, rt_ListContainers id = Ok cs → c ∈ cs → ct_Id c ≠ "";
}.

(** The one sandbox of a Pod on the node. *)
Definition the_sandbox `{RuntimeClient} (identity : podIdentity) (sandbox : PodSandbox) : Prop :=
  ∃ sandboxes, rt_ListPodSandbox = Ok sandboxes ∧ List.filter (sandbox_matches identity) sandboxes = [sandbox].
(** The one running container of its name in a sandbox. *)
Definition the_container `{RuntimeClient} (name : string) (sandbox : string) (container : Container) : Prop :=
  ∃ containers, rt_ListContainers sandbox = Ok containers ∧
    List.filter (container_matches name) containers = [container].

Lemma resolve_sandbox `{RuntimeClient} identity t :
  resolveRuntimeTarget identity false = Ok t ↔
  ∃ sandbox, the_sandbox identity sandbox ∧ t = mkResolved (sb_Id sandbox) "".
Proof.
  unfold resolveRuntimeTarget, the_sandbox. destruct rt_ListPodSandbox as [sandboxes|e]; simpl.
  - destruct (List.filter _ sandboxes) as [|s [|s' rest]] eqn:Hf; split; try done.
    + intros (s & (? & [= <-] & Hs) & _). congruence.
    + intros [= <-]. eauto.
    + intros (s0 & (? & [= <-] & Hs) & ->). by rewrite Hf in Hs; simplify_eq.
    + intros (s0 & (? & [= <-] & Hs) & _). congruence.
  - split; [done|]. by intros (? & (? & ? & _) & _).
Qed.

(** Resolution yields a sandbox and a container exactly when one ready sandbox has the Pod's
    namespace, name and UID and one running container in it has the name; none or several of either
    are an error. *)
Lemma resolve_container `{RuntimeLaws} identity t :
  resolveRuntimeTarget identity true = Ok t ↔
  ∃ sandbox container, the_sandbox identity sandbox ∧ the_container (id_Container identity) (sb_Id sandbox) container ∧
    t = mkResolved (sb_Id sandbox) (ct_Id container).
Proof.
  unfold resolveRuntimeTarget, the_sandbox, the_container. destruct rt_ListPodSandbox as [sandboxes|e]; simpl;
    [|split; [done|by intros (? & ? & (? & ? & _) & _)]].
  destruct (List.filter _ sandboxes) as [|s [|s' rest]] eqn:Hf;
    [split; [done|]; intros (? & ? & (? & [= <-] & ?) & _); congruence| |
     split; [done|]; intros (? & ? & (? & [= <-] & ?) & _); congruence].
  destruct (rt_ListContainers (sb_Id s)) as [cs|e] eqn:Hc.
  - assert (∀ c, c ∈ cs → ct_Id c ≠ "") as Hn by (intros; by eapply list_named).
    pose proof (find_container_spec identity cs) as Hspec. split.
    + intros (found & Hfc & Hr)%result_bind_Ok. case_bool_decide as Hne; [done|]. simplify_eq.
      destruct (proj1 (Hspec found Hn) (conj Hfc Hne)) as (c & Hcs & ->).
      exists s, c. split; [by exists sandboxes|]. split; [by exists cs|done].
    + intros (s0 & c & (? & [= <-] & Hs) & (? & Hcs & Hfc) & ->). rewrite Hf in Hs. simplify_eq.
      rewrite Hc in Hcs. simplify_eq.
      destruct (proj2 (Hspec (ct_Id c) Hn)) as [Hfind Hne]; [by exists c|]. rewrite Hfind. simpl.
      by rewrite bool_decide_eq_false_2.
  - split; [done|]. intros (s0 & c & (? & [= <-] & Hs) & (cs & Hcs & _) & _). rewrite Hf in Hs. simplify_eq. congruence.
Qed.

(** ** From the gateway to the container *)

Lemma locate_Ok pods_Get tgt loc :
  locate pods_Get tgt = Ok loc →
  ∃ t pod, tgt = Some t ∧ Kind t = KindPod ∧
    pods_Get (Target_Option t OptionNamespaces) (Target_Option t OptionPods) = Ok pod ∧
    pod_Phase pod = PodRunning ∧ pod_DeletionTimestamp pod = None ∧ pod_UID pod ≠ "" ∧
    BoundIdentity t = mkBinding (pod_UID pod) (pod_NodeName pod) (pod_HostIP pod) ∧
    loc = mkLocation (pod_Namespace pod) (pod_Name pod) (pod_UID pod) (Target_Option t OptionContainers)
            (pod_HostIP pod) (pod_NodeName pod).
Proof.
  unfold locate. intros (ref & Hparse & Hloc)%result_bind_Ok. destruct tgt as [t|]; [|done].
  apply Parse_Ok in Hparse as (Hk & Hns & Hpod & ->). simpl in Hloc.
  destruct (pods_Get _ _) as [pod|e] eqn:Hget; [|done]. repeat case_hyp Hloc; try done. simplify_eq.
  repeat match goal with H : _ || _ = false |- _ => apply orb_false_iff in H as [? ?] end. breflect.
  repeat match goal with H : ¬ (_ ≠ _) |- _ => apply dec_stable in H end.
  exists t, pod. split_and!; try done. unfold BoundIdentity. by f_equal.
Qed.

Lemma queryBool_set key v q : queryBool (set_value key (FormatBool v) q) key = v.
Proof. unfold queryBool, Values_Get, set_value. rewrite lookup_insert_eq. by destruct v. Qed.
Lemma queryBool_ne key key' v q : key ≠ key' → queryBool (set_value key v q) key' = queryBool q key'.
Proof. intros. unfold queryBool, Values_Get, set_value. by rewrite lookup_insert_ne. Qed.
Lemma Values_all_ne key key' v q : key ≠ key' → Values_all (set_value key v q) key' = Values_all q key'.
Proof. intros. unfold Values_all, set_value. by rewrite lookup_insert_ne. Qed.
Lemma Values_all_add key values : Values_all (add_values key values ∅) key = values.
Proof. unfold add_values, Values_all. destruct values; [by rewrite lookup_empty|by rewrite lookup_insert_eq]. Qed.

(** The query that the node reads back. *)
Ltac read_query :=
  repeat first [rewrite Values_all_add | rewrite queryBool_set | rewrite Values_all_ne by done | rewrite queryBool_ne by done];
  reflexivity.

Lemma exec_query_read options loc req :
  let q := cr_Query (exec_request options loc req) in
  Values_all q QueryCommand = xr_Command req ∧ queryBool q QueryStdin = xr_Stdin req ∧
  queryBool q QueryStdout = xr_Stdout req ∧ queryBool q QueryStderr = negb (xr_TTY req) && xr_Stderr req ∧
  queryBool q QueryTTY = xr_TTY req.
Proof. cbn [cr_Query exec_request endpoint]. split_and!; read_query. Qed.

Lemma helper_query_read options loc req :
  let q := cr_Query (helper_request options loc req) in
  Values_all q QueryArgument = hr_Command req ∧ queryBool q QueryStdin = hr_Stdin req ∧
  queryBool q QueryStdout = hr_Stdout req ∧ queryBool q QueryStderr = hr_Stderr req.
Proof. cbn [cr_Query helper_request endpoint]. split_and!; read_query. Qed.

(** What the runtime is asked for, given the outcome of the handlers. *)
Lemma with_target_stream `{RuntimeClient} identity need k what u :
  with_target identity need k = NodeStream what u →
  ∃ t, resolveRuntimeTarget identity need = Ok t ∧ k t = NodeStream what u.
Proof.
  unfold with_target. destruct (validateIdentity _ _); [done|].
  destruct (resolveRuntimeTarget _ _) as [t|e]; [eauto|done].
Qed.

Lemma proxyStream_what url_Parse what what' raw u :
  proxyStream url_Parse what raw = NodeStream what' u → what' = what.
Proof. unfold proxyStream. destruct (parseStreamingURL _ _); [by intros [= <- _]|done]. Qed.

(** A request that was let in. *)
Lemma streamHandler_in `{RuntimeClient} url_Parse expected prepare draining r what u :
  streamHandler url_Parse expected prepare draining r = NodeStream what u →
  nr_Peer r = Some expected ∧ draining = false ∧ ∃ route, streamRoute (nr_Path r) = Some route ∧
    match route with
    | RouteExec who => handleExec url_Parse who (nr_Query r)
    | RouteHelper who capability => handleHelper url_Parse prepare who capability (nr_Query r)
    | RoutePortForward who => handlePortForward url_Parse who (nr_Query r)
    end = NodeStream what u.
Proof.
  unfold streamHandler, authorizedPeer. case_bool_decide as Hp; [|done]. simpl.
  destruct (streamRoute (nr_Path r)) as [route|]; [|done]. destruct draining; [done|]. eauto 10.
Qed.

Section EndToEnd.
Context `{RuntimeLaws} (pods_Get : string → string → result Pod) (options : CriOptions).
Context (url_Parse : string → result goURL) (expected : string) (prepare : string → string → result string).

(** The node's answer to a request of the gateway. *)
Definition node_answer (draining : bool) (peer : option string) (r : criRequest) : nodeResponse :=
  streamHandler url_Parse expected prepare draining (received peer r).

(** The Pod that [t] was bound to, on the node: its sandbox carries the bound UID. *)
Definition bound_sandbox (t : Target) (pod : Pod) (sandbox : PodSandbox) : Prop :=
  the_sandbox (mkIdentity (pod_Namespace pod) (pod_Name pod) (pod_UID pod) (Target_Option t OptionContainers)) sandbox ∧
  sb_State sandbox = SANDBOX_READY ∧
  ∃ meta, sb_Metadata sandbox = Some meta ∧ sm_Uid meta = b_UID (BoundIdentity t) ∧
    sm_Namespace meta = pod_Namespace pod ∧ sm_Name meta = pod_Name pod.

Lemma sandbox_is_bound t pod sandbox c :
  b_UID (BoundIdentity t) = pod_UID pod →
  the_sandbox (mkIdentity (pod_Namespace pod) (pod_Name pod) (pod_UID pod) c) sandbox → bound_sandbox t pod sandbox.
Proof.
  intros Hb (sandboxes & Hl & Hf). split; [by exists sandboxes|].
  apply filter_singleton_unique in Hf as (_ & Hm & _). unfold sandbox_matches in Hm. simpl in Hm.
  destruct (sb_Metadata sandbox) as [meta|]; [|done]. breflect. split; [done|]. exists meta. by rewrite Hb.
Qed.

(** The one running container of the target in that sandbox. *)
Definition bound_container (t : Target) (sandbox : PodSandbox) (container : Container) : Prop :=
  the_container (Target_Option t OptionContainers) (sb_Id sandbox) container ∧
  ct_PodSandboxId container = sb_Id sandbox ∧ ct_State container = CONTAINER_RUNNING ∧
  ct_Metadata container = Some (Target_Option t OptionContainers).

Lemma container_is_bound t sandbox container :
  the_container (Target_Option t OptionContainers) (sb_Id sandbox) container → bound_container t sandbox container.
Proof.
  intros (cs & Hl & Hf). split; [by exists cs|]. apply filter_singleton_unique in Hf as (Hin & Hm & _).
  unfold container_matches in Hm. breflect. split_and!; [by eapply list_filtered|done..].
Qed.

(** The location of the Pod that [t] is bound to. *)
Definition located (t : Target) (pod : Pod) (loc : podLocation) : Prop :=
  b_UID (BoundIdentity t) = pod_UID pod ∧
  loc = mkLocation (pod_Namespace pod) (pod_Name pod) (pod_UID pod) (Target_Option t OptionContainers)
          (pod_HostIP pod) (pod_NodeName pod).

Lemma locate_located t loc :
  locate pods_Get (Some t) = Ok loc →
  ∃ pod, pods_Get (Target_Option t OptionNamespaces) (Target_Option t OptionPods) = Ok pod ∧
    pod_Phase pod = PodRunning ∧ pl_HostIP loc = b_HostIP (BoundIdentity t) ∧ located t pod loc.
Proof.
  intros (t' & pod & [= <-] & _ & Hget & Hph & _ & _ & Hb & Hloc)%locate_Ok. exists pod.
  split_and!; [done|done|by rewrite Hb, Hloc|]. split; [by rewrite Hb|done].
Qed.

Lemma exec_reaches t pod loc draining peer req what u :
  located t pod loc → node_answer draining peer (exec_request options loc req) = NodeStream what u →
  peer = Some expected ∧ draining = false ∧
  ∃ sandbox container, bound_sandbox t pod sandbox ∧ bound_container t sandbox container ∧
    what = PreparedExec (mkCriExec (ct_Id container) (xr_Command req) (xr_Stdin req) (xr_Stdout req)
                           (negb (xr_TTY req) && xr_Stderr req) (xr_TTY req)).
Proof.
  intros [Hbu Hloc] (Hpeer & Hdr & route & Hroute & Hh)%streamHandler_in. split; [done|]. split; [done|].
  destruct (exec_query_read options loc req) as (Q1 & Q2 & Q3 & Q4 & Q5).
  apply (streamRoute_names "exec" [_; _; _; _]) in Hroute; [|set_solver|done]. subst route. cbn [nr_Query received] in Hh.
  rewrite Hloc in Hh at 1 2 3 4. cbn [pl_Namespace pl_Pod pl_UID pl_Container] in Hh.
  apply with_target_stream in Hh as (rt & Hr & Hh).
  apply resolve_container in Hr as (sandbox & container & Hsb & Hct & ->). exists sandbox, container.
  split; [by eapply sandbox_is_bound|]. split; [by apply container_is_bound|].
  cbn [rt_ContainerID] in Hh. destruct (rt_Exec _) as [raw|e]; [|done]. apply proxyStream_what in Hh. rewrite Hh.
  by rewrite Q1, Q2, Q3, Q4, Q5.
Qed.

Lemma helper_reaches t pod loc draining peer req what u :
  located t pod loc → node_answer draining peer (helper_request options loc req) = NodeStream what u →
  peer = Some expected ∧ draining = false ∧
  ∃ sandbox container path, bound_sandbox t pod sandbox ∧ bound_container t sandbox container ∧
    prepare (ct_Id container) (hr_Capability req) = Ok path ∧
    what = PreparedExec (mkCriExec (ct_Id container) (path :: hr_Command req) (hr_Stdin req) (hr_Stdout req)
                           (hr_Stderr req) false).
Proof.
  intros [Hbu Hloc] (Hpeer & Hdr & route & Hroute & Hh)%streamHandler_in. split; [done|]. split; [done|].
  destruct (helper_query_read options loc req) as (Q1 & Q2 & Q3 & Q4).
  apply (streamRoute_names "helper" [_; _; _; _; _]) in Hroute; [|set_solver|done]. subst route. cbn [nr_Query received] in Hh.
  rewrite Hloc in Hh at 1 2 3 4. cbn [pl_Namespace pl_Pod pl_UID pl_Container] in Hh.
  apply with_target_stream in Hh as (rt & Hr & Hh).
  apply resolve_container in Hr as (sandbox & container & Hsb & Hct & ->). exists sandbox, container.
  cbn [rt_ContainerID] in Hh. destruct (prepare _ _) as [path|e] eqn:Hprep; [|done]. exists path.
  split; [by eapply sandbox_is_bound|]. split; [by apply container_is_bound|]. split; [done|].
  destruct (rt_Exec _) as [raw|e]; [|done]. apply proxyStream_what in Hh. rewrite Hh.
  by rewrite Q1, Q2, Q3, Q4.
Qed.

Lemma forward_reaches t pod loc draining peer req what u :
  located t pod loc → (0 ≤ pp_Port req < 2 ^ 32)%Z →
  node_answer draining peer (portforward_request options loc req) = NodeStream what u →
  peer = Some expected ∧ draining = false ∧ (1 ≤ pp_Port req ≤ 65535)%Z ∧
  ∃ sandbox, bound_sandbox t pod sandbox ∧ what = PreparedPortForward (sb_Id sandbox) (pp_Port req).
Proof.
  intros [Hbu Hloc] Hport (Hpeer & Hdr & route & Hroute & Hh)%streamHandler_in. split; [done|]. split; [done|].
  apply (streamRoute_names "portforward" [_; _; _]) in Hroute; [|set_solver|done]. subst route loc. simpl in Hh.
  apply with_target_stream in Hh as (rt & Hr & Hh). apply resolve_sandbox in Hr as (sandbox & Hsb & ->).
  unfold Values_Get, set_value in Hh. rewrite lookup_insert_eq in Hh. simpl in Hh.
  rewrite ParseInt_FormatUint_wide in Hh by lia. case_bool_decide; [done|].
  destruct (_ || _) eqn:Hrange; [done|]. breflect. split; [lia|]. exists sandbox.
  split; [by eapply sandbox_is_bound|]. destruct (rt_PortForward _ _) as [raw|e]; [|done]. by apply proxyStream_what in Hh.
Qed.

(** Through gateway and node a request reaches the Pod its target was bound to.  If the gateway
    located the target and the node opened a stream for the request it was sent, then the gateway's
    certificate was the expected one and the node was not draining, the Pod is running under the UID
    the target is bound to, and what the runtime was asked for is: for a command, exactly that command
    with those streams in the one running container of the target's name in the one ready sandbox with
    that UID; for a helper command, the prepared helper with those arguments in that container; for a
    port, that port, between 1 and 65535, of that sandbox.  No name can make the node take the request
    for another one. *)
Theorem cri_request_reaches_bound_pod t loc draining peer :
  locate pods_Get (Some t) = Ok loc →
  ∃ pod, pods_Get (Target_Option t OptionNamespaces) (Target_Option t OptionPods) = Ok pod ∧
    pod_UID pod = b_UID (BoundIdentity t) ∧ pod_Phase pod = PodRunning ∧ pl_HostIP loc = b_HostIP (BoundIdentity t) ∧
    (∀ req what u, node_answer draining peer (exec_request options loc req) = NodeStream what u →
       peer = Some expected ∧ draining = false ∧
       ∃ sandbox container, bound_sandbox t pod sandbox ∧ bound_container t sandbox container ∧
         what = PreparedExec (mkCriExec (ct_Id container) (xr_Command req) (xr_Stdin req) (xr_Stdout req)
                                (negb (xr_TTY req) && xr_Stderr req) (xr_TTY req))) ∧
    (∀ req what u, node_answer draining peer (helper_request options loc req) = NodeStream what u →
       peer = Some expected ∧ draining = false ∧
       ∃ sandbox container path, bound_sandbox t pod sandbox ∧ bound_container t sandbox container ∧
         prepare (ct_Id container) (hr_Capability req) = Ok path ∧
         what = PreparedExec (mkCriExec (ct_Id container) (path :: hr_Command req) (hr_Stdin req) (hr_Stdout req)
                                (hr_Stderr req) false)) ∧
    (∀ req what u, (0 ≤ pp_Port req < 2 ^ 32)%Z →
       node_answer draining peer (portforward_request options loc req) = NodeStream what u →
       peer = Some expected ∧ draining = false ∧ (1 ≤ pp_Port req ≤ 65535)%Z ∧
       ∃ sandbox, bound_sandbox t pod sandbox ∧ what = PreparedPortForward (sb_Id sandbox) (pp_Port req)).
Proof.
  intros (pod & Hget & Hph & Hip & Hl)%locate_located. exists pod. split_and!; [done|by destruct Hl|done|done|..].
  - intros req what u. by apply exec_reaches.
  - intros req what u. by apply helper_reaches.
  - intros req what u. by apply forward_reaches.
Qed.
End EndToEnd.

(** *** A node with one Pod *)

Definition demo_pod : Pod :=
  mkPod "team" "web-0" "uid-1" ∅ ∅ 0 None "node-a" ["app"] PodRunning "10.1.2.3" [].
Definition demo_pods_Get (ns name : string) : result Pod :=
  if bool_decide (ns = "team" ∧ name = "web-0") then Ok demo_pod else Err (EStatus NotFound "" []).
Definition demo_bound : Target := Bind demo_pod "app".
Definition demo_location : podLocation := mkLocation "team" "web-0" "uid-1" "app" "10.1.2.3" "node-a".

#[export] Instance demo_runtime : RuntimeClient := {|
  rt_Version := None;
  rt_Status := Ok (Some [("RuntimeReady", true)]);
  rt_ListPodSandbox :=
    Ok [mkSandbox "sb-0" (Some (mkSandboxMeta "web-0" "uid-0" "team")) SANDBOX_READY;
        mkSandbox "sb-1" (Some (mkSandboxMeta "web-0" "uid-1" "team")) SANDBOX_READY];
  rt_ListContainers := fun id =>
    Ok [mkContainer "c-1" id (Some "app") CONTAINER_RUNNING; mkContainer "c-2" id (Some "app") CONTAINER_EXITED];
  rt_Exec := fun _ => Ok "http://127.0.0.1:3000/exec/token";
  rt_ExecSync := fun _ _ => Ok (mkExecSync 0 "" "");
  rt_PortForward := fun _ _ => Ok "http://127.0.0.1:3000/portforward/token";
|}.

#[export] Instance demo_runtime_laws : RuntimeLaws.
Proof.
  split; intros id cs c [= <-] Hc; repeat (apply elem_of_cons in Hc as [->|Hc]; [done|]); by apply not_elem_of_nil in Hc.
Qed.

Definition demo_url (raw : string) : result goURL := Ok (mkURL "http" "127.0.0.1:3000").
Definition demo_exec : TransportExecRequest := mkExec (Some demo_bound) ["sh"; "-c"; "id"] false true true false.
Definition demo_options : CriOptions := mkCriOptions 10443 "node" "ca" "cert" "key".

Lemma cri_request_reaches_bound_pod_witness :
  node_answer demo_url DefaultClientName (fun _ _ => Err (EExternal "")) false (Some DefaultClientName)
    (exec_request demo_options demo_location demo_exec) =
  NodeStream (PreparedExec (mkCriExec "c-1" ["sh"; "-c"; "id"] false true true false)) (mkURL "http" "127.0.0.1:3000") ∧
  ∃ pod sandbox, pod_UID pod = b_UID (BoundIdentity demo_bound) ∧ bound_sandbox demo_bound pod sandbox.
Proof.
  assert (node_answer demo_url DefaultClientName (fun _ _ => Err (EExternal "")) false (Some DefaultClientName)
    (exec_request demo_options demo_location demo_exec) =
    NodeStream (PreparedExec (mkCriExec "c-1" ["sh"; "-c"; "id"] false true true false)) (mkURL "http" "127.0.0.1:3000"))
    as Hrun by (vm_compute; reflexivity).
  split; [exact Hrun|].
  destruct (cri_request_reaches_bound_pod demo_pods_Get demo_options demo_url DefaultClientName
    (fun _ _ => Err (EExternal "")) demo_bound demo_location false (Some DefaultClientName))
    as (pod & _ & Huid & _ & _ & Hexec & _).
  - vm_compute. reflexivity.
  - destruct (Hexec demo_exec _ _ Hrun) as (_ & _ & sandbox & container & Hsb & _). by exists pod, sandbox.
Defined.

(** ** Draining *)

(** Requests come and go; the drain starts once.  [n] handlers are running. *)
Inductive stream_step : streamState * nat → streamState * nat → Prop :=
| step_begin s n : stream_step (s, n) ((beginStream s).1, if (beginStream s).2 then S n else n)
| step_end s n : stream_step (s, S n) (endStream s, n)
| step_drain s n : ss_draining s = false → stream_step (s, n) (startStreamDrain s, n).

(** The channel of the drain is closed exactly when it should be. *)
Definition streams_ok (x : streamState * nat) : Prop :=
  let '(s, n) := x in
  ss_active s = Z.of_nat n ∧
  (ss_draining s = false → ss_field s = false ∧ ss_drained s = None) ∧
  (ss_draining s = true → ss_drained s = Some (if decide (n = 0) then 1 else 0) ∧ (n ≠ 0 → ss_field s = true)).

Lemma stream_step_ok y z : streams_ok y → stream_step y z → streams_ok z.
Proof.
  intros Hy Hs. destruct Hs as [s n|s n|s n Hd]; unfold streams_ok in *; destruct Hy as (Ha & Hn & Hd').
  - unfold beginStream. destruct (ss_draining s) eqn:E; simpl; [split; [done|]; by rewrite ?E|].
    split; simpl; [lia|]. by rewrite ?E.
  - unfold endStream. rewrite Ha. destruct (ss_draining s) eqn:E; simpl.
    + destruct (Hd' eq_refl) as [Hdr Hf]. rewrite Hf by done. rewrite andb_true_r. case_bool_decide as H0; simpl.
      * assert (n = 0) as -> by lia. rewrite Hdr. simpl. split; [lia|]. rewrite ?E. split; [done|]. by intros _.
      * split; [simpl; lia|]. simpl. rewrite ?E. split; [done|]. intros _. rewrite Hdr. simpl.
        rewrite decide_False by lia. by rewrite ?Hf.
    + split; [simpl; lia|]. simpl. rewrite ?E. split; [|done]. intros _. by apply Hn.
  - unfold startStreamDrain. case_bool_decide as H0; simpl.
    + split; [done|]. split; [done|]. intros _. rewrite decide_True by lia. split; [done|]. intros Hne. lia.
    + split; [done|]. split; [done|]. intros _. rewrite decide_False by lia. by split.
Qed.

Lemma streams_reachable x : rtc stream_step (newStreams, 0) x → streams_ok x.
Proof. apply (rtc_invariant _ _ stream_step_ok). split; [done|by split]. Qed.

(** The node drains its streams.  Under every interleaving, the counter is the number of
    handlers that run; once draining no stream begins; the channel that the shutdown waits on is
    closed exactly when the last handler has ended, at once if none runs, and never twice. *)
Theorem node_streams_drain s n :
  rtc stream_step (newStreams, 0) (s, n) →
  ss_active s = Z.of_nat n ∧
  (ss_draining s = true → (beginStream s) = (s, false)) ∧
  (∀ k, ss_drained s = Some k → k ≤ 1 ∧ (k = 1 ↔ n = 0)) ∧
  (ss_drained s = None ↔ ss_draining s = false).
Proof.
  intros (Ha & Hn & Hd)%streams_reachable. split; [done|]. unfold beginStream.
  destruct (ss_draining s) eqn:E.
  - destruct (Hd eq_refl) as [Hdr _]. split; [done|]. rewrite Hdr. split.
    + intros k [= <-]. case_decide; split; (lia || done).
    + done.
  - destruct (Hn eq_refl) as [_ Hdr]. rewrite Hdr. done.
Qed.

Lemma node_streams_drain_witness :
  ss_drained (endStream (startStreamDrain (beginStream newStreams).1)) = Some 1 ∧
  ss_active (endStream (startStreamDrain (beginStream newStreams).1)) = 0%Z.
Proof.
  split; [reflexivity|].
  apply (node_streams_drain (endStream (startStreamDrain (beginStream newStreams).1)) 0).
  eapply rtc_l; [apply step_begin|]. eapply rtc_l; [by apply step_drain|]. apply rtc_once. apply step_end.
Defined.
