(* ===== verification/HelperCache.v ===== *)
(** Model of how a helper gets into a container and is trusted there:
    [src/pkg/podssh/backend/helper/protocol.go] (manifest), the helper manager of
    [cri/node/helper_manager.go], and [apiserver/helper_acquirer.go] and [helper_copy.go].

    Both sides copy a binary into the container, ask it for its manifest, and keep the path for the
    next time.  The binary, SHA-256, tar and JSON are parameters; so are the outcomes of running
    commands in the container. *)

From S2P Require Import Prelude GoStrings GoStrconv GoPath Kube Target CriNode.

(** ** [helper/protocol.go] *)

Definition ProtocolVersion := "v1alpha1".
Definition CommandVersion := "version".
Definition CommandServe := "serve".
Definition CommandDial := "dial".
Definition CommandSFTP := "sftp".
Definition CommandSCP := "scp".

Definition HelperCapabilityDial := "dial".
Definition HelperCapabilityRemoteForward := "remote-forward".
Definition HelperCapabilityAgentForward := "agent-forward".
Definition HelperCapabilitySFTP := "sftp".
Definition HelperCapabilitySCP := "scp".

Record Manifest := mkManifest {
  mf_Version : string; mf_Commit : string; mf_ProtocolVersion : string; mf_Capabilities : list string;
}.

Definition helper_Capabilities : list string :=
  [HelperCapabilityDial; HelperCapabilityRemoteForward; HelperCapabilityAgentForward; HelperCapabilitySFTP; HelperCapabilitySCP].

(** The manifest of this build; the version information is the build's. *)
Definition CurrentManifest (version commit : string) : Manifest :=
  mkManifest version commit ProtocolVersion helper_Capabilities.

Definition nul : ascii := Stdlib.Strings.Ascii.ascii_of_N 0.

(** Copying the helper by a shell, or else by tar, given how to run a command with an input: its
    exit status or an error. *)
Definition quoted (s : string) : string :=
  String (Stdlib.Strings.Ascii.ascii_of_N 34) (s +:+ String (Stdlib.Strings.Ascii.ascii_of_N 34) "").
Definition shellCommand (remotePath : string) : list string :=
  ["sh"; "-c"; "cat > " +:+ quoted "$1" +:+ " && chmod +x " +:+ quoted "$1"; "sh"; remotePath].
Definition tarCommand (remotePath : string) : list string := ["tar"; "-xf"; "-"; "-C"; path_Dir remotePath].

(** ** [cri/node/helper_manager.go] *)

(** [sameCapabilities]. *)
Definition sameCapabilities (actual expected : list string) : bool :=
  bool_decide (length actual = length expected) && forallb (slices_Contains actual) expected.

Section NodeManager.
Context `{RuntimeClient}.
Context (manifest : Manifest) (remoteDir : string) (sha256_hex : string → string).
Context (json_Manifest : string → result Manifest) (helperTarArchive : string → string → result string).
Context (load : result string).
Context (url_Parse : string → result goURL).
(** The result of streaming to a prepared URL: the exit status, or an error without one. *)
Context (stream : goURL → string → result Z).

Definition streamExec (containerID : string) (command : list string) (stdin : string) : Z * option error :=
  match rt_Exec (mkCriExec containerID command true true true false) with
  | Err e => (1%Z, Some e)
  | Ok url =>
      match parseStreamingURL url_Parse url with
      | Err e => (1%Z, Some e)
      | Ok u =>
          match stream u stdin with
          | Ok code => (code, None)
          | Err e => (1%Z, Some e)
          end
      end
  end.

Definition succeeded (r : Z * option error) : bool := bool_decide (r = (0%Z, None)).

(** [copy]. *)
Definition manager_copy (containerID remotePath data : string) : option error :=
  if succeeded (streamExec containerID (shellCommand remotePath) data) then None
  else match helperTarArchive (path_Base remotePath) data with
       | Err e => Some (Wrapf "build helper archive: %w" [] e)
       | Ok archive =>
           if succeeded (streamExec containerID (tarCommand remotePath) archive) then None
           else Some (Errorf "inject helper failed" [])
       end.

(** [probe]. *)
Definition manager_probe (containerID remotePath : string) : option error :=
  match rt_ExecSync containerID [remotePath; CommandVersion] with
  | Err e => Some (Wrapf "probe helper version: %w" [] e)
  | Ok probe =>
      if negb (bool_decide (es_ExitCode probe = 0%Z)) then Some (Errorf "helper version exited with %d: %s" [])
      else match json_Manifest (es_Stdout probe) with
           | Err e => Some (Wrapf "decode helper version: %w" [] e)
           | Ok actual =>
               if bool_decide (mf_ProtocolVersion actual ≠ ProtocolVersion) ||
                  bool_decide (mf_Version actual ≠ mf_Version manifest) ||
                  bool_decide (mf_Commit actual ≠ mf_Commit manifest)
               then Some (Errorf "helper identity mismatch" [mf_Version actual; mf_Commit actual; mf_ProtocolVersion actual])
               else if negb (sameCapabilities (mf_Capabilities actual) (mf_Capabilities manifest))
               then Some (Errorf "helper capability mismatch" (mf_Capabilities actual))
               else None
           end
  end.

Definition managerKey (containerID : string) : string :=
  containerID +:+ String nul (mf_Version manifest +:+ String nul (mf_Commit manifest)).
Definition manager_remotePath (key : string) : string :=
  path_Join [remoteDir; "kube-ssh-helper-" +:+ stake 32 (sha256_hex key)].

(** The function [prepare] gives to the single flight of a key. *)
Definition manager_flight (ready : gmap string string) (containerID : string) : gmap string string * result string :=
  let key := managerKey containerID in
  match ready !! key with
  | Some remotePath => (ready, Ok remotePath)
  | None =>
      let remotePath := manager_remotePath key in
      match load with
      | Err e => (ready, Err (Wrapf "read helper binary: %w" [] e))
      | Ok data =>
          match manager_copy containerID remotePath data with
          | Some e => (ready, Err e)
          | None =>
              match manager_probe containerID remotePath with
              | Some e => (ready, Err (Wrapf "verify injected helper: %w" [] e))
              | None => (<[key := remotePath]> ready, Ok remotePath)
              end
          end
      end
  end.

(** [prepare]: [ctxErr] is set when the caller's context ends before the flight. *)
Definition manager_prepare (ready : gmap string string) (containerID capability : string) (ctxErr : option error)
    : gmap string string * result string :=
  if negb (slices_Contains (mf_Capabilities manifest) capability)
  then (ready, Err (Errorf "helper does not advertise capability %q" [capability]))
  else match ready !! managerKey containerID with
       | Some remotePath => (ready, Ok remotePath)
       | None =>
           let '(ready, completed) := manager_flight ready containerID in
           match ctxErr with
           | Some e => (ready, Err e)
           | None => (ready, completed)
           end
       end.
End NodeManager.

(** ** [apiserver/helper_acquirer.go] *)

Definition validateHelperManifest (manifest expected : Manifest) (capability : string) : option error :=
  if bool_decide (mf_Version manifest ≠ mf_Version expected)
  then Some (EStatus ServiceUnavailable "helper version %q does not match %q" [mf_Version manifest; mf_Version expected])
  else if bool_decide (mf_Commit manifest ≠ mf_Commit expected)
  then Some (EStatus ServiceUnavailable "helper commit %q does not match %q" [mf_Commit manifest; mf_Commit expected])
  else if bool_decide (mf_ProtocolVersion manifest ≠ ProtocolVersion)
  then Some (EStatus ServiceUnavailable "helper protocol %q is not supported; want %q" [mf_ProtocolVersion manifest; ProtocolVersion])
  else if bool_decide (capability ≠ "") && negb (slices_Contains (mf_Capabilities manifest) capability)
  then Some (EStatus ServiceUnavailable "helper does not advertise required capability %q" [capability])
  else None.

(** The lease with its metrics: how often the release was reported. *)
Record metricsHelperLease := mkLease { ml_path : string; ml_released : bool; ml_reports : nat }.
Definition lease_Command (l : metricsHelperLease) (args : list string) : list string := ml_path l :: args.
Definition lease_Release (l : metricsHelperLease) : metricsHelperLease :=
  if ml_released l then l else mkLease (ml_path l) true (S (ml_reports l)).

(** ** [apiserver/helper_copy.go] *)

Section Copy.
(** [exec] runs a command with an input in the target: exit status and output. *)
Context (remoteDir : string) (sha256_hex : string → string).
Context (json_Manifest : string → result Manifest) (helperTarArchive : string → string → result string).
Context (exec : Target → list string → string → result (Z * string)).

Definition helperCachePrefix (tgt : Target) : string :=
  Target_String tgt +:+ String nul (b_UID (BoundIdentity tgt) +:+ String nul "").
Definition helperCacheKey (tgt : Target) (manifest : Manifest) : string :=
  helperCachePrefix tgt +:+ mf_Version manifest +:+ String nul (mf_Commit manifest).
Definition helperRemotePath (tgt : Target) (manifest : Manifest) : string :=
  path_Join [remoteDir; "kube-ssh-helper-" +:+ stake 32 (sha256_hex (helperCacheKey tgt manifest))].

Definition exec_copy (tgt : Target) (command : list string) (data : string) : option error :=
  match exec tgt command data with
  | Err e => Some e
  | Ok (code, _) =>
      if negb (bool_decide (code = 0%Z)) then Some (EStatus ServiceUnavailable "helper copy exited with %d" []) else None
  end.
Definition copyHelperBinaryWithShell (tgt : Target) (remotePath data : string) : option error :=
  exec_copy tgt (shellCommand remotePath) data.
Definition copyHelperBinaryWithTar (tgt : Target) (remotePath data : string) : option error :=
  match helperTarArchive (path_Base remotePath) data with
  | Err e => Some e
  | Ok archive => exec_copy tgt (tarCommand remotePath) archive
  end.

(** The loop over [copyMethods]. *)
Definition copyHelperBinary (tgt : Target) (data : string) (manifest : Manifest) : result string :=
  let remotePath := helperRemotePath tgt manifest in
  match copyHelperBinaryWithShell tgt remotePath data with
  | None => Ok remotePath
  | Some _ =>
      match copyHelperBinaryWithTar tgt remotePath data with
      | None => Ok remotePath
      | Some _ => Err (Errorf "inject helper: %w" [])
      end
  end.

Definition probeVersion (tgt : Target) (remotePath : string) : result Manifest :=
  match exec tgt [remotePath; CommandVersion] "" with
  | Err e => Err (Wrapf "run helper version: %w" [] e)
  | Ok (code, stdout) =>
      if negb (bool_decide (code = 0%Z)) then Err (EStatus ServiceUnavailable "helper version exited with %d: %s" [])
      else match json_Manifest stdout with
           | Err e => Err (Wrapf "decode helper version: %w" [] e)
           | Ok manifest => Ok manifest
           end
  end.

Definition prepareHelper (tgt : Target) (data : string) (expected : Manifest) : result (string * Manifest) :=
  remotePath ← copyHelperBinary tgt data expected;
  manifest ← probeVersion tgt remotePath;
  match validateHelperManifest manifest expected "" with
  | Some e => Err e
  | None => Ok (remotePath, manifest)
  end.
End Copy.

(** *** The cache *)

(** A [copyHelperState]: in preparation ([None]) or done with its outcome. *)
Record acquirerState := mkAcquirer {
  aq_helpers : gmap string nat;
  aq_states : list (string * option (result (string * Manifest)));
}.
Definition newAcquirer : acquirerState := mkAcquirer ∅ [].

(** [helperState]: the state and whether the caller owns its preparation. *)
Definition helperState (a : acquirerState) (key : string) : acquirerState * (nat * bool) :=
  match aq_helpers a !! key with
  | Some n => (a, (n, false))
  | None =>
      let n := length (aq_states a) in
      (mkAcquirer (<[key := n]> (aq_helpers a)) (aq_states a ++ [(key, None)]), (n, true))
  end.

(** [finishHelperState], with the outcome of the preparation. *)
Definition finishHelperState (a : acquirerState) (key : string) (n : nat) (outcome : result (string * Manifest))
    : acquirerState :=
  mkAcquirer
    (if negb (is_ok outcome) && bool_decide (aq_helpers a !! key = Some n) then delete key (aq_helpers a) else aq_helpers a)
    (<[n := (key, Some outcome)]> (aq_states a)).

(** [Invalidate]. *)
Definition aq_Invalidate (a : acquirerState) (tgt : Target) : acquirerState :=
  mkAcquirer (filter (fun '(key, _) => HasPrefix key (helperCachePrefix tgt) = false) (aq_helpers a)) (aq_states a).

(** The end of [Acquire] for a caller whose state is done. *)
Definition acquire_result (expected : Manifest) (capability : string) (outcome : result (string * Manifest)) : result string :=
  match outcome with
  | Err e => Err e
  | Ok (path, manifest) =>
      match validateHelperManifest manifest expected capability with
      | Some e => Err e
      | None => Ok path
      end
  end.

(** The callers that own a preparation end it, in any order; others come and wait. *)
Inductive acquirer_call : acquirerState → acquirerState → Prop :=
| aq_acquire a key : acquirer_call a (helperState a key).1
| aq_finish a key n outcome : aq_states a !! n = Some (key, None) → acquirer_call a (finishHelperState a key n outcome).

Definition acquirer_step (a a' : acquirerState) : Prop := acquirer_call a a' ∨ ∃ tgt, a' = aq_Invalidate a tgt.
