(* ===== verification/HelperCacheProps.v ===== *)
(** Properties of the helper caches: only a helper that answered with the right manifest is used, and
    a failed preparation is not kept. *)

From S2P Require Import Prelude GoStrings GoStrconv GoPath Kube Target CriNode HelperCache.

(** ** Manifests *)

(** Against a list without duplicates, [sameCapabilities] is equality up to order. *)
Lemma sameCapabilities_spec actual expected :
  NoDup expected → sameCapabilities actual expected = true ↔ actual ≡ₚ expected.
Proof.
  intros Hnd. unfold sameCapabilities. rewrite andb_true_iff, bool_decide_eq_true, forallb_forall. split.
  - intros [Hl Hin]. symmetry. apply submseteq_length_Permutation; [|lia].
    apply NoDup_submseteq; [done|]. intros x Hx. apply slices_Contains_spec, Hin. by apply list_elem_of_In.
  - intros Hp. split; [by apply Permutation_length|]. intros x Hx%list_elem_of_In.
    apply slices_Contains_spec. by rewrite Hp.
Qed.

Lemma helper_Capabilities_nodup : NoDup helper_Capabilities.
Proof. by refine (bool_decide_eq_true_1 _ _). Qed.

Section NodeManagerProps.
Context (version commit remoteDir : string) (sha256_hex : string → string).
Notation manifest := (CurrentManifest version commit).

(** What the manager asks of the answer of a helper. *)
Definition answers (runtime : RuntimeClient) (json_Manifest : string → result Manifest) (containerID remotePath : string) : Prop :=
  ∃ probe actual, @rt_ExecSync runtime containerID [remotePath; CommandVersion] = Ok probe ∧ es_ExitCode probe = 0%Z ∧
    json_Manifest (es_Stdout probe) = Ok actual ∧ mf_Version actual = version ∧ mf_Commit actual = commit ∧
    mf_ProtocolVersion actual = ProtocolVersion ∧ mf_Capabilities actual ≡ₚ helper_Capabilities.

Lemma manager_probe_spec (runtime : RuntimeClient) json_Manifest containerID remotePath :
  manager_probe manifest json_Manifest containerID remotePath = None ↔ answers runtime json_Manifest containerID remotePath.
Proof.
  unfold manager_probe, answers. split.
  - destruct rt_ExecSync as [probe|e]; [|done]. case_bool_decide as Hc; [|done]. simpl.
    destruct (json_Manifest (es_Stdout probe)) as [actual|e] eqn:Hj; [|done].
    destruct (_ || _) eqn:Hid; [done|]. destruct (sameCapabilities _ _) eqn:Hs; [|done]. intros _.
    apply orb_false_iff in Hid as [[Hp Hv]%orb_false_iff Hcm]. breflect.
    repeat match goal with H : ¬ (_ ≠ _) |- _ => apply dec_stable in H end.
    exists probe, actual. apply sameCapabilities_spec in Hs; [|apply helper_Capabilities_nodup]. by split_and!.
  - intros (probe & actual & -> & -> & -> & Hv & Hcm & Hp & Hcap). simpl.
    rewrite (bool_decide_eq_false_2 (mf_ProtocolVersion actual ≠ ProtocolVersion)) by (by intros []).
    rewrite (bool_decide_eq_false_2 (mf_Version actual ≠ version)) by (by intros []).
    rewrite (bool_decide_eq_false_2 (mf_Commit actual ≠ commit)) by (by intros []). simpl.
    apply sameCapabilities_spec in Hcap; [by rewrite Hcap|apply helper_Capabilities_nodup].
Qed.

Lemma managerKey_inj c1 c2 : managerKey manifest c1 = managerKey manifest c2 → c1 = c2.
Proof. unfold managerKey. apply sapp_inj_r. Qed.

(** The cache over the life of the manager: calls of [prepare] with whatever the runtime does at the
    time, and evictions.  [verified] are the helpers that answered as they should. *)
Inductive manager_step : gmap string string * list (string * string) → gmap string string * list (string * string) → Prop :=
| ms_prepare runtime json_Manifest tar load url_Parse stream ready verified containerID capability ctxErr verified' :
    (∀ x, x ∈ verified' ↔ x ∈ verified ∨
       x.1 = containerID ∧ x.2 = manager_remotePath remoteDir sha256_hex (managerKey manifest containerID) ∧
       answers runtime json_Manifest x.1 x.2) →
    manager_step (ready, verified)
      ((manager_prepare (H := runtime) manifest remoteDir sha256_hex json_Manifest tar load url_Parse stream ready
          containerID capability ctxErr).1, verified')
| ms_evict ready verified key : manager_step (ready, verified) (delete key ready, verified).

Definition cache_ok (x : gmap string string * list (string * string)) : Prop :=
  ∀ key path, x.1 !! key = Some path → ∃ containerID, key = managerKey manifest containerID ∧
    path = manager_remotePath remoteDir sha256_hex key ∧ (containerID, path) ∈ x.2.

Lemma manager_flight_cases (runtime : RuntimeClient) json_Manifest tar load url_Parse stream ready containerID :
  let key := managerKey manifest containerID in
  let path := manager_remotePath remoteDir sha256_hex key in
  let r := manager_flight manifest remoteDir sha256_hex json_Manifest tar load url_Parse stream ready containerID in
  (∃ p, ready !! key = Some p ∧ r = (ready, Ok p)) ∨ (∃ e, r = (ready, Err e)) ∨
  (answers runtime json_Manifest containerID path ∧ r = (<[key := path]> ready, Ok path)).
Proof.
  intros key path. unfold manager_flight. fold key. fold path.
  destruct (ready !! key) as [p|] eqn:Hk; [left; by exists p|right].
  destruct load as [data|e]; [|left; by eexists].
  destruct (manager_copy _ _ _ _ _ _) as [e|]; [left; by eexists|].
  destruct (manager_probe _ _ _ _) as [e|] eqn:Hp; [left; by eexists|right].
  apply manager_probe_spec in Hp. by split.
Qed.

Lemma manager_reachable x : rtc manager_step (∅, []) x → cache_ok x.
Proof.
  intros Hr. eapply (rtc_ind_r cache_ok (∅, [])); [intros key path; simpl; by rewrite lookup_empty|..|exact Hr].
  intros y z _ Hs Hy. destruct Hs as [rt json tar load url stream ready verified c cap ctxErr verified' Hv|ready verified key].
  - unfold cache_ok in *. simpl in *.
    assert (∀ key path, ready !! key = Some path → ∃ containerID, key = managerKey manifest containerID ∧
      path = manager_remotePath remoteDir sha256_hex key ∧ (containerID, path) ∈ verified') as Hold.
    { intros key path (c0 & ? & ? & ?)%Hy. exists c0. split_and!; try done. apply Hv. by left. }
    unfold manager_prepare. destruct (slices_Contains _ cap); [|exact Hold]. simpl.
    destruct (ready !! managerKey manifest c) as [p|] eqn:Hk; [exact Hold|].
    pose proof (manager_flight_cases rt json tar load url stream ready c) as Hc. cbn zeta in Hc.
    destruct Hc as [(p & Hk' & ->)|[(e & ->)|[Hans ->]]]; [destruct ctxErr; exact Hold..|].
    assert (∀ key path, <[managerKey manifest c := manager_remotePath remoteDir sha256_hex (managerKey manifest c)]> ready
      !! key = Some path → ∃ containerID, key = managerKey manifest containerID ∧
      path = manager_remotePath remoteDir sha256_hex key ∧ (containerID, path) ∈ verified') as Hnew.
    { intros key path [[<- <-]|[_ ?]]%lookup_insert_Some; [|by apply Hold].
      exists c. split_and!; try done. apply Hv. by right. }
    destruct ctxErr; exact Hnew.
  - intros k path. simpl. intros [_ Hk]%lookup_delete_Some. by apply Hy.
Qed.

(** C22: only a verified helper is used on a node.  Whatever the runtime did before and whatever was
    evicted, the path that [prepare] returns for a container and a capability is one at which, in that
    very container, a helper has answered with this build's version and commit, the protocol version
    and, up to order, exactly the capabilities, now or before; and the capability is one of them. *)
Theorem prepared_helper_verified ready verified runtime json_Manifest tar load url_Parse stream
    containerID capability ctxErr path :
  rtc manager_step (∅, []) (ready, verified) →
  (manager_prepare (H := runtime) manifest remoteDir sha256_hex json_Manifest tar load url_Parse stream ready
     containerID capability ctxErr).2 = Ok path →
  capability ∈ helper_Capabilities ∧
  path = manager_remotePath remoteDir sha256_hex (managerKey manifest containerID) ∧
  ((containerID, path) ∈ verified ∨ answers runtime json_Manifest containerID path).
Proof.
  intros Hok%manager_reachable. unfold manager_prepare.
  destruct (slices_Contains _ capability) eqn:Hcap; [|done]. apply slices_Contains_spec in Hcap. simpl in Hcap. simpl.
  assert (∀ p, ready !! managerKey manifest containerID = Some p →
    p = manager_remotePath remoteDir sha256_hex (managerKey manifest containerID) ∧ (containerID, p) ∈ verified) as Hcached.
  { intros p (c & ->%managerKey_inj & ? & ?)%Hok. done. }
  destruct (ready !! managerKey manifest containerID) as [p|] eqn:Hk.
  - intros [= <-]. destruct (Hcached p eq_refl). auto.
  - pose proof (manager_flight_cases runtime json_Manifest tar load url_Parse stream ready containerID) as Hc. cbn zeta in Hc.
    destruct Hc as [(p & Hk' & ->)|[(e & ->)|[Hans ->]]]; destruct ctxErr; try done.
    + congruence.
    + intros [= <-]. auto.
Qed.
End NodeManagerProps.

(** A runtime whose containers answer any command with this build's manifest. *)
Definition helpful_runtime : RuntimeClient := {|
  rt_Version := None; rt_Status := Ok None; rt_ListPodSandbox := Ok []; rt_ListContainers := fun _ => Ok [];
  rt_Exec := fun _ => Ok "http://127.0.0.1/exec"; rt_ExecSync := fun _ _ => Ok (mkExecSync 0 "manifest" "");
  rt_PortForward := fun _ _ => Ok "";
|}.

Lemma prepared_helper_verified_witness :
  manager_remotePath "/tmp" (fun key => key) (managerKey (CurrentManifest "v1" "abc") "c1") ≠ "" ∧
  HelperCapabilitySFTP ∈ helper_Capabilities.
Proof.
  split; [by vm_compute|].
  eapply (prepared_helper_verified "v1" "abc" "/tmp" (fun key => key) ∅ [] helpful_runtime
    (fun _ => Ok (CurrentManifest "v1" "abc")) (fun _ data => Ok data) (Ok "ELF") (fun _ => Ok (mkURL "http" "127.0.0.1"))
    (fun _ _ => Ok 0%Z) "c1" HelperCapabilitySFTP None); [apply rtc_refl|vm_compute; reflexivity].
Defined.

(** ** The API server's cache *)

Record acquirer_inv (a : acquirerState) : Prop := {
  ai_cached : ∀ key n, aq_helpers a !! key = Some n →
    ∃ o, aq_states a !! n = Some (key, o) ∧ ∀ e, o ≠ Some (Err e);
}.

Lemma helperState_inv a key : acquirer_inv a → acquirer_inv (helperState a key).1.
Proof.
  intros [Hc]. unfold helperState. destruct (aq_helpers a !! key) as [n|] eqn:Hk; [by split|]. split; simpl.
  intros k m [[<- <-]|[_ Hm]]%lookup_insert_Some.
  - exists None. rewrite lookup_app_r, Nat.sub_diag by lia. by split.
  - destruct (Hc k m Hm) as (o & Ho & ?). exists o. split; [by apply lookup_app_l_Some|done].
Qed.

Lemma finishHelperState_inv a key n outcome :
  acquirer_inv a → aq_states a !! n = Some (key, None) → acquirer_inv (finishHelperState a key n outcome).
Proof.
  intros [Hc] Hn. unfold finishHelperState. split; simpl. intros k m Hm.
  assert (aq_helpers a !! k = Some m ∧ (k = key → m = n → is_ok outcome = true)) as [Hk Hok].
  { destruct (is_ok outcome); simpl in Hm; [by auto|]. case_bool_decide as Hb.
    - apply lookup_delete_Some in Hm as [? ?]. by auto.
    - split; [done|]. intros -> ->. done. }
  destruct (Hc k m Hk) as (o & Ho & Hf). destruct (decide (m = n)) as [->|Hne].
  - rewrite Ho in Hn. simplify_eq. exists (Some outcome). rewrite list_lookup_insert_eq by by eapply lookup_lt_Some.
    split; [done|]. intros e [= ->]. by specialize (Hok eq_refl eq_refl).
  - exists o. by rewrite list_lookup_insert_ne.
Qed.

Lemma acquirer_reachable a : rtc acquirer_step newAcquirer a → acquirer_inv a.
Proof.
  intros Hr. eapply (rtc_ind_r acquirer_inv newAcquirer); [split; intros key n; simpl; by rewrite lookup_empty|..|exact Hr].
  intros x y _ [Hs|[tgt ->]] Hx.
  - destruct Hs; [by apply helperState_inv|by apply finishHelperState_inv].
  - destruct Hx as [Hc]. split. simpl. intros key n [Hk _]%map_lookup_filter_Some. by apply Hc.
Qed.

Definition single_flight (a : acquirerState) : Prop :=
  ∀ n key, aq_states a !! n = Some (key, None) → aq_helpers a !! key = Some n.

Lemma acquirer_single_flight a : rtc acquirer_call newAcquirer a → single_flight a.
Proof.
  intros Hr. eapply (rtc_ind_r single_flight newAcquirer); [by intros [] key|..|exact Hr].
  intros x y _ Hs Hx. destruct Hs as [a' key|a' key n outcome Hn]; intros m k Hm.
  - unfold helperState in *. destruct (aq_helpers a' !! key) as [n|] eqn:Hk; simpl in *; [by apply Hx|].
    apply lookup_app_Some in Hm as [Hm|[Hge Hm]].
    + rewrite lookup_insert_ne; [by apply Hx|]. intros ->. apply Hx in Hm. congruence.
    + apply list_lookup_singleton_Some in Hm as [Hz [= <-]]. rewrite lookup_insert_eq. f_equal. lia.
  - simpl in *. apply list_lookup_insert_Some in Hm as [(_ & Hbad & _)|[Hne Hm]]; [by simplify_eq|].
    pose proof (Hx m k Hm) as Hk. destruct (negb _ && _) eqn:Hb; [|done].
    rewrite lookup_delete_ne; [done|]. intros ->. pose proof (Hx n k Hn). congruence.
Qed.

Lemma validateHelperManifest_None manifest expected capability :
  validateHelperManifest manifest expected capability = None ↔
  mf_Version manifest = mf_Version expected ∧ mf_Commit manifest = mf_Commit expected ∧
  mf_ProtocolVersion manifest = ProtocolVersion ∧ (capability = "" ∨ capability ∈ mf_Capabilities manifest).
Proof.
  unfold validateHelperManifest. split.
  - intros Hr. repeat case_hyp Hr; try done. breflect.
    repeat match goal with H : ¬ (_ ≠ _) |- _ => apply dec_stable in H end. split_and!; [done..|].
    match goal with H : _ && _ = false |- _ => apply andb_false_iff in H as [H|H] end; breflect; [left|right; done].
    by apply dec_stable.
  - intros (-> & -> & -> & Hcap). rewrite !bool_decide_eq_false_2 by (by intros []).
    destruct Hcap as [->|Hin]; [done|]. apply slices_Contains_spec in Hin. by rewrite Hin, andb_false_r.
Qed.

(** The cache of helpers copied through the API server.  Under every interleaving of callers,
    preparations that end and invalidations, a cached entry belongs to its key and is in preparation or
    was prepared successfully: a failure is never cached.  Without invalidations no two preparations
    of the same key are under way, so one copy serves all callers.  A caller gets a path only if the
    helper there, when it was prepared, answered the version command with this build's version and
    commit, the protocol version, and the capability the caller asked for. *)
Theorem helper_cache_sound a :
  rtc acquirer_step newAcquirer a →
  (∀ key n, aq_helpers a !! key = Some n → ∃ o, aq_states a !! n = Some (key, o) ∧ ∀ e, o ≠ Some (Err e)) ∧
  (rtc acquirer_call newAcquirer a → ∀ key n m,
     aq_states a !! n = Some (key, None) → aq_states a !! m = Some (key, None) → n = m) ∧
  (∀ remoteDir sha256_hex json_Manifest tar exec tgt data version commit capability path,
     acquire_result (CurrentManifest version commit) capability
       (prepareHelper remoteDir sha256_hex json_Manifest tar exec tgt data (CurrentManifest version commit)) = Ok path →
     path = helperRemotePath remoteDir sha256_hex tgt (CurrentManifest version commit) ∧
     ∃ manifest, probeVersion json_Manifest exec tgt path = Ok manifest ∧ mf_Version manifest = version ∧
       mf_Commit manifest = commit ∧ mf_ProtocolVersion manifest = ProtocolVersion ∧
       (capability = "" ∨ capability ∈ mf_Capabilities manifest)).
Proof.
  intros [Hc]%acquirer_reachable. split_and!.
  - exact Hc.
  - intros Hq%acquirer_single_flight key n m Hn%Hq Hm%Hq. congruence.
  - intros remoteDir sha json tar exec tgt data version commit capability path. unfold acquire_result.
    destruct (prepareHelper _ _ _ _ _ _ _ _) as [[p manifest]|e] eqn:Hprep; [|done].
    destruct (validateHelperManifest _ _ capability) eqn:Hv; [done|]. intros [= ->].
    apply result_bind_Ok in Hprep as (p & Hcopy & (m & Hprobe & Hval)%result_bind_Ok).
    destruct (validateHelperManifest m _ "") eqn:Hv0; [done|]. simplify_eq.
    apply validateHelperManifest_None in Hv as (? & ? & ? & ?). split; [|by exists manifest].
    unfold copyHelperBinary in Hcopy. destruct (copyHelperBinaryWithShell _ _ _ _); [|by simplify_eq].
    destruct (copyHelperBinaryWithTar _ _ _ _ _); by simplify_eq.
Qed.

Lemma helper_cache_sound_witness :
  aq_helpers (finishHelperState (helperState newAcquirer "k").1 "k" 0 (Err (ESentinel context_Canceled))) = ∅ ∧
  ∀ key n, aq_helpers (helperState newAcquirer "k").1 !! key = Some n →
    ∃ o, aq_states (helperState newAcquirer "k").1 !! n = Some (key, o) ∧ ∀ e, o ≠ Some (Err e).
Proof.
  split; [by vm_compute|].
  apply (helper_cache_sound (helperState newAcquirer "k").1). apply rtc_once. left. apply aq_acquire.
Defined.
