(* ===== verification/Executor.v ===== *)
(** Model of the Pod backend: [src/pkg/podssh/backend/{backend,port_forward,file_transfer,
    helper_session,remote_forward,agent_forward,terminal_result,metrics}.go] over the transport
    interface, and of the transport through the API server ([apiserver/{exec,port_forward,
    helper_acquirer,transport}.go]).

    A transport is an interface ([PodTransport]); the CRI transport of [CriTransport] and the one
    through the API server are its instances.  Of the byte streams only their presence is
    kept; [HelperStream] and [ForwardStream] have the streams themselves. *)

From S2P Require Import Prelude GoStrings GoStrconv GoPath Kube Target CriNode CriTransport HelperCache.

(** ** [terminal_result.go] *)

(** [None] until the result is complete. *)
Definition terminalResult : Type := option (option error).
Definition newTerminalResult : terminalResult := None.
Definition terminal_complete (r : terminalResult) (err : option error) : terminalResult :=
  match r with Some _ => r | None => Some err end.
(** [wait]: [None] while it blocks. *)
Definition terminal_wait (r : terminalResult) : option (option error) := r.
Definition terminal_poll (r : terminalResult) : option error * bool :=
  match r with Some err => (err, true) | None => (None, false) end.

(** ** [backend.go]: requests and the transport interface *)

Record PortForwardRequest := mkPortForward { pf_Target : option Target; pf_Host : string; pf_Port : Z }.
Record RemoteForwardRequest := mkRemoteForward { rf_Target : option Target; rf_BindHost : string; rf_BindPort : Z }.
Record StreamRequest := mkStream { st_Target : option Target; st_Stdin : bool; st_Stdout : bool; st_Stderr : bool }.

Class PodTransport := {
  tp_Exec : TransportExecRequest → Z * option error;
  tp_ExecHelper : HelperExecRequest → Z * option error;
  (** The forward that was opened. *)
  tp_PortForward : PodPortForwardRequest → result PodPortForwardRequest;
}.

(** A stream of [Executor.PortForward]: one of the transport, or one through a helper with the
    command that serves it. *)
Inductive forwardStream := PodForward (r : PodPortForwardRequest) | HelperDial (r : HelperExecRequest).

(** ** [port_forward.go] *)

Section Ops.
Context `{UnicodeCase} `{PodTransport}.

Definition executor_Exec (req : TransportExecRequest) : Z * option error := tp_Exec req.

Definition isPodLoopbackHost (host : string) : bool :=
  bool_decide (ToLower host ∈ [""; "localhost"; "127.0.0.1"; "::1"]).

Definition execHelper (capability : string) (command : list string) (stream : StreamRequest) : HelperExecRequest :=
  mkHelperExec (st_Target stream) capability command (st_Stdin stream) (st_Stdout stream) (st_Stderr stream).

Definition dialThroughHelper (req : PortForwardRequest) : forwardStream :=
  HelperDial (execHelper HelperCapabilityDial
    [HelperCapabilityDial; "--host"; pf_Host req; "--port"; FormatUint (pf_Port req) 10]
    (mkStream (pf_Target req) true true true)).

Definition executor_PortForward (req : PortForwardRequest) : result forwardStream :=
  if bool_decide (pf_Port req = 0%Z) || bool_decide (65535 < pf_Port req)%Z
  then Err (EStatus BadRequest "invalid port %d" [FormatInt (pf_Port req)])
  else if isPodLoopbackHost (pf_Host req)
  then PodForward <$> tp_PortForward (mkPodPortForward (pf_Target req) (pf_Port req))
  else Ok (dialThroughHelper req).

(** What the goroutine of [dialThroughHelper] completes the result with. *)
Definition dial_terminal (outcome : Z * option error) (stderr : string) : option error :=
  match outcome with
  | (_, Some e) => Some e
  | (code, None) =>
      if negb (bool_decide (code = 0%Z))
      then Some (Errorf "helper dial exited with %d: %s" [FormatInt code; TrimSpace stderr]) else None
  end.

(** ** [file_transfer.go] *)

Definition execHelperCommand (capability : string) (command : list string) (stream : StreamRequest) : Z * option error :=
  match tp_ExecHelper (execHelper capability command stream) with
  | (code, Some e) => (code, Some e)
  | (code, None) =>
      if negb (bool_decide (code = 0%Z))
      then (code, Some (Errorf "helper %s exited with %d" [JoinWith command " "; FormatInt code]))
      else (code, None)
  end.
Definition executor_SFTP (req : StreamRequest) : Z * option error :=
  execHelperCommand HelperCapabilitySFTP [HelperCapabilitySFTP] req.
Definition executor_SCP (req : StreamRequest) (args : list string) : Z * option error :=
  execHelperCommand HelperCapabilitySCP (HelperCapabilitySCP :: args) req.

(** ** [helper_session.go] *)

(** What the goroutine of [startHelperSession] completes the result with. *)
Definition session_terminal (capability : string) (outcome : Z * option error) (stderr : string) : option error :=
  match outcome with
  | (_, Some e) => Some e
  | (code, None) =>
      if negb (bool_decide (code = 0%Z))
      then Some (EStatus ServiceUnavailable "helper %s exited with %d: %s" [capability; FormatInt code; TrimSpace stderr])
      else None
  end.

Definition session_request (tgt : option Target) (capability : string) : HelperExecRequest :=
  execHelper capability [CommandServe] (mkStream tgt true true true).

(** [resolveClientError]; [terminal] is the result of the helper, for which it waits. *)
Definition resolveClientError (terminal : option error) (err : error) : error :=
  if negb (errors_Is err ErrConnectionClosed) then err
  else match terminal with Some e => e | None => err end.

(** ** [remote_forward.go] and [agent_forward.go] *)

(** [client] is the outcome of [NewClient], [listen] that of the listen call on it, [terminal] the
    result of the helper.  The second component says whether the session was closed again. *)
Definition open_session {A} (what : string) (client : option error) (listen : result A) (terminal : option error)
    : result A * bool :=
  match client with
  | Some e => (Err (Wrapf "create helper connection client: %w" [] e), true)
  | None =>
      match listen with
      | Err e => (Err (Wrapf what [] (resolveClientError terminal e)), true)
      | Ok forward => (Ok forward, false)
      end
  end.

Definition executor_RemoteForward {A} (req : RemoteForwardRequest) (client : option error)
    (listen : string → Z → result A) (terminal : option error) : result A * bool :=
  if bool_decide (65535 < rf_BindPort req)%Z
  then (Err (EStatus BadRequest "invalid bind port %d" [FormatInt (rf_BindPort req)]), false)
  else open_session "create helper remote-forward: %w" client (listen (rf_BindHost req) (rf_BindPort req)) terminal.

Definition executor_AgentForward {A} (client : option error) (listen : result A) (terminal : option error) : result A * bool :=
  open_session "create helper agent-forward: %w" client listen terminal.

(** [Accept] of both. *)
Definition forward_Accept {A} (accepted : result A) (terminal : option error) : result A :=
  match accepted with Err e => Err (resolveClientError terminal e) | Ok a => Ok a end.
End Ops.

(** ** [metrics.go] *)

Definition backendResult (exitCode : Z) (err : option error) : string :=
  match err with
  | Some _ => "error"
  | None => if negb (bool_decide (exitCode = 0%Z)) then "nonzero_exit" else "success"
  end.
Definition errorResult (err : option error) : string := match err with Some _ => "error" | None => "success" end.

(** A transport with its operations recorded: the value and the observation. *)
Definition metrics_run (operation : string) (r : Z * option error) : (Z * option error) * list (string * string) :=
  (r, [(operation, backendResult r.1 r.2)]).
Definition metrics_open {A} (operation : string) (r : result A) : result A * list (string * string) :=
  (r, [(operation, errorResult (match r with Err e => Some e | Ok _ => None end))]).

(** ** [apiserver] *)

(** The options of a [pods/exec] request, with the Pod it names. *)
Record podExec := mkPodExec {
  pe_Namespace : string; pe_Pod : string; pe_Container : string; pe_Command : list string;
  pe_Stdin : bool; pe_Stdout : bool; pe_Stderr : bool; pe_TTY : bool;
}.

Definition api_request (ref : Reference) (req : TransportExecRequest) : podExec :=
  mkPodExec (r_Namespace ref) (r_Pod ref) (r_Container ref) (xr_Command req) (xr_Stdin req) (xr_Stdout req)
    (negb (xr_TTY req) && xr_Stderr req) (xr_TTY req).

(** [send] is how a request ends. *)
Definition api_Exec (send : podExec → streamOutcome) (req : TransportExecRequest) : Z * option error :=
  match Parse (xr_Target req) with
  | Err e => (1%Z, Some e)
  | Ok ref => stream_result "exec stream: %w" (send (api_request ref req))
  end.

(** [ExecHelper]: [acquire] is the acquirer's; the lease is released at the end. *)
Definition api_ExecHelper (acquire : option Target → string → result string) (send : podExec → streamOutcome)
    (req : HelperExecRequest) : Z * option error :=
  match acquire (hr_Target req) (hr_Capability req) with
  | Err e => (1%Z, Some e)
  | Ok path =>
      api_Exec send (mkExec (hr_Target req) (lease_Command (mkLease path false 0) (hr_Command req))
                       (hr_Stdin req) (hr_Stdout req) (hr_Stderr req) false)
  end.

Definition api_PortForward (dial : Reference → Z → forwardDial) (req : PodPortForwardRequest)
    : result PodPortForwardRequest * bool :=
  match Parse (pp_Target req) with
  | Err e => (Err e, false)
  | Ok ref =>
      match fd_negotiated (dial ref (pp_Port req)) with
      | Err e => (Err (Wrapf "dial API Server port-forward: %w" [] e), false)
      | Ok protocol =>
          if bool_decide (protocol ≠ PortForwardProtocolV1Name)
          then (Err (Errorf "dial API Server port-forward: unexpected protocol %q" [protocol]), true)
          else match fd_errorStream (dial ref (pp_Port req)) with
               | Some e => (Err (Wrapf "create API Server port-forward error stream: %w" [] e), true)
               | None =>
                   match fd_dataStream (dial ref (pp_Port req)) with
                   | Some e => (Err (Wrapf "create API Server port-forward data stream: %w" [] e), true)
                   | None => (Ok req, false)
                   end
               end
      end
  end.

(** The two transports as instances of the interface. *)
Definition api_transport (acquire : option Target → string → result string) (send : podExec → streamOutcome)
    (dial : Reference → Z → forwardDial) : PodTransport := {|
  tp_Exec := api_Exec send;
  tp_ExecHelper := api_ExecHelper acquire send;
  tp_PortForward := fun req => (api_PortForward dial req).1;
|}.

Definition cri_transport (pods_Get : string → string → result Pod) (options : CriOptions)
    (send : criRequest → streamOutcome) (dial : criRequest → forwardDial) : PodTransport := {|
  tp_Exec := cri_Exec pods_Get options send;
  tp_ExecHelper := cri_ExecHelper pods_Get options send;
  tp_PortForward := fun req => (fun _ => req) <$> (cri_PortForward pods_Get options dial req).1;
|}.

(** ** Properties *)

Section Routing.
Context `{UnicodeCase} `{PodTransport}.

(** Where a forwarded connection goes.  A port outside 1 to 65535 is refused as a bad request
    before anything is opened.  A loopback host, in any letter case, is a forward of that port to the
    Pod itself through the transport, with its result.  Any other host is dialled by the helper in the
    target, which gets the host and a port that reads back as the one asked for; its end is reported as
    an error exactly when the helper failed or exited with a nonzero status. *)
Theorem forward_destination req :
  (0 ≤ pf_Port req < 2 ^ 32)%Z →
  (((pf_Port req < 1)%Z ∨ (65535 < pf_Port req)%Z) →
     executor_PortForward req = Err (EStatus BadRequest "invalid port %d" [FormatInt (pf_Port req)])) ∧
  ((1 ≤ pf_Port req ≤ 65535)%Z →
     (ToLower (pf_Host req) ∈ [""; "localhost"; "127.0.0.1"; "::1"] →
        executor_PortForward req = PodForward <$> tp_PortForward (mkPodPortForward (pf_Target req) (pf_Port req))) ∧
     (ToLower (pf_Host req) ∉ [""; "localhost"; "127.0.0.1"; "::1"] →
        ∃ port, executor_PortForward req = Ok (HelperDial (mkHelperExec (pf_Target req) HelperCapabilityDial
          ["dial"; "--host"; pf_Host req; "--port"; port] true true true)) ∧
          ParseUint port 10 64 = Some (pf_Port req))) ∧
  (∀ outcome stderr, dial_terminal outcome stderr = None ↔ outcome = (0%Z, None)).
Proof.
  intros Hp. unfold executor_PortForward, isPodLoopbackHost. split_and!.
  - intros Hr. by rewrite (proj2 (orb_true_iff _ _)) by (rewrite !bool_decide_eq_true; lia).
  - intros Hr. rewrite (bool_decide_eq_false_2 (pf_Port req = 0%Z)) by lia.
    rewrite (bool_decide_eq_false_2 (65535 < pf_Port req)%Z) by lia. simpl. split; intros Hh.
    + by rewrite bool_decide_eq_true_2.
    + rewrite bool_decide_eq_false_2 by done. eexists. split; [reflexivity|].
      apply ParseUint_FormatUint; lia.
  - intros [code [e|]] stderr; simpl; [done|]. case_bool_decide as Hc; simpl; [by subst|].
    split; [done|]. intros [= ->]. done.
Qed.
End Routing.

#[local] Instance demo_transport : PodTransport := {|
  tp_Exec := fun _ => (0%Z, None); tp_ExecHelper := fun _ => (0%Z, None); tp_PortForward := fun r => Ok r;
|}.

Lemma forward_destination_witness :
  @executor_PortForward ascii_only _ (mkPortForward None "db.internal" 5432) =
    Ok (HelperDial (mkHelperExec None "dial" ["dial"; "--host"; "db.internal"; "--port"; "5432"] true true true)) ∧
  @executor_PortForward ascii_only _ (mkPortForward None "LocalHost" 80) = Ok (PodForward (mkPodPortForward None 80)).
Proof.
  split; [vm_compute; reflexivity|].
  destruct (@forward_destination ascii_only _ (mkPortForward None "LocalHost" 80)) as (_ & Hin & _); [simpl; lia|].
  destruct Hin as [Hpod _]; [simpl; lia|]. apply Hpod. by refine (bool_decide_eq_true_1 _ _).
Defined.

(** The first result stays. *)
Lemma terminal_complete_first r err err' :
  terminal_complete (terminal_complete r err) err' = terminal_complete r err.
Proof. by destruct r. Qed.

(** A released lease is reported once. *)
Lemma lease_Release_once l : ml_released l = false → ml_reports (lease_Release (lease_Release l)) = S (ml_reports l).
Proof. intros Hr. unfold lease_Release. rewrite Hr. simpl. done. Qed.
