(* ===== verification/ExecutorProps.v ===== *)
(** The two transports ask for the same thing. *)

From S2P Require Import Prelude GoStrings GoStrconv GoPath Kube Target CriNode CriTransport CriProps HelperCache Executor.

(** The two transports agree on what they run.  For a target that the CRI transport locates,
    with an API server that returns the Pod it was asked for, the request that the node reads off the
    gateway's URL (Pod, container, command and which streams) is the [pods/exec] request that the
    transport through the API server would have made; the CRI request differs only in naming the UID
    as well, which is the one the target is bound to. *)
Theorem transports_agree pods_Get options t loc req who :
  (∀ ns name pod, pods_Get ns name = Ok pod → pod_Namespace pod = ns ∧ pod_Name pod = name) →
  locate pods_Get (Some t) = Ok loc →
  streamRoute (cr_Path (exec_request options loc req)) = Some (RouteExec who) →
  let q := cr_Query (exec_request options loc req) in
  Parse (Some t) = Ok (mkReference (id_Namespace who) (id_Name who) (id_Container who)) ∧
  api_request (mkReference (id_Namespace who) (id_Name who) (id_Container who)) req =
    mkPodExec (id_Namespace who) (id_Name who) (id_Container who) (Values_all q QueryCommand)
      (queryBool q QueryStdin) (queryBool q QueryStdout) (queryBool q QueryStderr) (queryBool q QueryTTY) ∧
  id_UID who = b_UID (BoundIdentity t).
Proof.
  intros Hapi Hloc Hroute q. destruct (exec_query_read options loc req) as (Q1 & Q2 & Q3 & Q4 & Q5). fold q in Q1, Q2, Q3, Q4, Q5.
  apply (streamRoute_names "exec" [_; _; _; _]) in Hroute; [|set_solver|done]. simplify_eq.
  pose proof Hloc as (ref & Hparse & _)%result_bind_Ok.
  destruct (locate_Ok _ _ _ Hloc) as (t' & pod & [= <-] & _ & Hget & _ & _ & _ & Hb & ->).
  destruct (Hapi _ _ _ Hget) as [Hns Hname]. apply Parse_Ok in Hparse as Hp. destruct Hp as (_ & _ & _ & ->).
  assert (b_UID (BoundIdentity t) = pod_UID pod) as Hu by by rewrite Hb.
  simpl. rewrite Hns, Hname. split_and!; [done| |exact (eq_sym Hu)].
  unfold api_request. simpl. by rewrite Q1, Q2, Q3, Q4, Q5.
Qed.

Lemma transports_agree_witness :
  Parse (Some demo_bound) = Ok (mkReference "team" "web-0" "app") ∧
  api_request (mkReference "team" "web-0" "app") demo_exec =
    mkPodExec "team" "web-0" "app" ["sh"; "-c"; "id"] false true true false.
Proof.
  destruct (transports_agree demo_pods_Get demo_options demo_bound demo_location demo_exec
    (mkIdentity "team" "web-0" "uid-1" "app")) as (Hparse & Hreq & _).
  - intros ns name pod. unfold demo_pods_Get. case_bool_decide as Hd; [|done]. intros [= <-]. by destruct Hd as [-> ->].
  - vm_compute. reflexivity.
  - vm_compute. reflexivity.
  - split; [exact Hparse|]. etrans; [exact Hreq|]. vm_compute. reflexivity.
Defined.
