(* ===== verification/Assembly.v ===== *)
(** Model of how the gateway is put together: [src/pkg/gateway/dependencies.go] (validation of the
    options, assembly of authenticator, resolver and Pod backend), the assembly of the Access policy
    components in [access_policy_runtime.go], the checks of [RunWithDependencies] and of
    [startMetricsServer] in [gateway.go], the Pod listers and metric labels of [src/pkg/accesspolicy]
    ([kube.go], [metrics.go]) and the JSON client of [src/pkg/webhook/client.go].

    Outside: DNS name validation, the API clients, the informer caches, the HTTP exchange and URL
    parsing.  They are arguments. *)

From S2P Require Import Prelude GoStrings GoStrconv GoNet Wildcard Kube Target Strategy Authn AccessStore AccessResolver Options Authz SessionPolicy AuditLog Operation Handshake CriTransport StatusController.

(** ** [accesspolicy/metrics.go]: the label of an outcome *)

Definition ResultNotProvided := "not_provided".

Definition authResult {A} (r : result A) : string :=
  match r with
  | Err e => if errors_Is e authn_ErrNotProvided then ResultNotProvided else ResultError
  | Ok _ => ResultSuccess
  end.
Definition resolveResult {A} (r : result A) : string :=
  match r with
  | Err e => if errors_Is e target_ErrNotProvided then ResultNotProvided else ResultError
  | Ok _ => ResultSuccess
  end.
Definition authorizeResult (decision : Decision) (err : option error) : string :=
  match err with
  | Some _ => ResultError
  | None => match decision with
            | DecisionAllow => ResultSuccess
            | DecisionDeny => ResultDenied
            | DecisionNoOpinion => ResultNotProvided
            end
  end.

(** ** [accesspolicy/kube.go] *)

(** A nil client or indexer is [None]; [ListAllByNamespace] and the label selector are client-go's. *)
Definition KubernetesPodLister_List (client : option (string → gmap string string → result (list Pod)))
    (namespace : string) (selector : gmap string string) : result (list Pod) :=
  match client with
  | None => Err (Errorf "pod lister requires a kubernetes client" [])
  | Some list => list namespace selector
  end.
Definition KubernetesPodLister_Get (client : option (string → string → result Pod)) (namespace name : string)
    : result Pod :=
  match client with
  | None => Err (Errorf "pod getter requires a kubernetes client" [])
  | Some get => get namespace name
  end.
Definition InformerPodLister_List
    (indexer : option (Indexer Pod * (string → gmap string string → result (list (cached Pod)))))
    (namespace : string) (selector : gmap string string) : result (list Pod) :=
  match indexer with
  | None => Err (Errorf "pod lister requires a pod indexer" [])
  | Some (_, listAllByNamespace) =>
      objects ← listAllByNamespace namespace selector;
      Ok (omap (M := list) (fun obj : cached Pod => match obj with CObj pod => Some pod | COther _ => None end) objects)
  end.
Definition InformerPodLister_Get
    (indexer : option (Indexer Pod * (string → gmap string string → result (list (cached Pod)))))
    (namespace name : string) : result Pod :=
  match indexer with
  | None => Err (Errorf "pod getter requires a pod indexer" [])
  | Some (indexer, _) =>
      obj ← GetByKey indexer (namespace +:+ "/" +:+ name);
      match obj with
      | None => Err (Errorf "pod %s/%s not found" [namespace; name])
      | Some (COther _) => Err (Errorf "cached object %s/%s is not a pod" [namespace; name])
      | Some (CObj pod) => Ok pod
      end
  end.

(** ** [webhook/client.go] *)

Record WebhookClient := mkWebhookClient { wc_server : string; wc_timeout : Z; wc_proxied : bool }.

(** [NewClient].  [url_Parse] gives the scheme and the text of the parsed URL; [HTTPClientFor] is
    client-go's. *)
Definition NewClient (url_Parse : string → result (string * string))
    (HTTPClientFor : WebhookOptions → Z → result unit) (opts : WebhookOptions) : result WebhookClient :=
  if bool_decide (wo_Server opts = "") then Err (Errorf "webhook server is required" [])
  else match url_Parse (wo_Server opts) with
  | Err e => Err (Wrapf "parse webhook server: %w" [] e)
  | Ok (scheme, text) =>
      if bool_decide (scheme ≠ "http") && bool_decide (scheme ≠ "https")
      then Err (Errorf "webhook server must use http or https" [])
      else
        let timeout := if bool_decide (wo_Timeout opts = 0%Z) then webhook_DefaultTimeout else wo_Timeout opts in
        match (if bool_decide (wo_ProxyURL opts ≠ "") then url_Parse (wo_ProxyURL opts) else Ok ("", "")) with
        | Err e => Err (Wrapf "parse webhook proxy URL: %w" [] e)
        | Ok _ =>
            match HTTPClientFor opts timeout with
            | Err e => Err (Wrapf "create webhook HTTP client: %w" [] e)
            | Ok _ => Ok (mkWebhookClient text timeout (bool_decide (wo_ProxyURL opts ≠ "")))
            end
        end
  end.

Record HTTPResponse := mkHTTPResponse { resp_StatusCode : Z; resp_Status : string; resp_Body : string }.

(** [Post]: [marshal] is the encoded request, [do] the exchange with the server, which follows no
    redirect, [decode] the decoder of the response; without one ([out] is nil) the body is not read. *)
Definition Post {A} (marshal : result string) (newRequest : string → string → result unit)
    (do : string → result HTTPResponse) (decode : option (string → result A)) (c : WebhookClient)
    : result (option A) :=
  match marshal with
  | Err e => Err (Wrapf "encode webhook request: %w" [] e)
  | Ok data =>
      match newRequest (wc_server c) data with
      | Err e => Err (Wrapf "create webhook request: %w" [] e)
      | Ok _ =>
          match do data with
          | Err e => Err (Wrapf "call webhook: %w" [] e)
          | Ok resp =>
              if bool_decide (resp_StatusCode resp < 200)%Z || bool_decide (300 ≤ resp_StatusCode resp)%Z
              then Err (Errorf "webhook returned %s: %s" [resp_Status resp; stake 4096 (resp_Body resp)])
              else match decode with
                   | None => Ok None
                   | Some decode => match decode (resp_Body resp) with
                                    | Err e => Err (Wrapf "decode webhook response: %w" [] e)
                                    | Ok a => Ok (Some a)
                                    end
                   end
          end
      end
  end.

(** ** [dependencies.go]: validation *)

Definition nodeIPPlaceholder := "{NodeIP}".

Section Validation.
(** [validation.IsDNS1123Subdomain] returns the problems of a name. *)
Context (DNS1123Problems : string → list string).

(** One iteration of the loop of [advertisedAccessEndpoints]: [seen] and [result] are its variables. *)
Definition advertise_one (acc : gset string * list AccessStatusEndpoint) (value : string)
    : result (gset string * list AccessStatusEndpoint) :=
  let '(seen, result) := acc in
  let address := TrimSpace value in
  match SplitHostPort address with
  | None => Err (Errorf "advertise address %q must use host:port form" [value])
  | Some (host, rawPort) =>
      if bool_decide (host = "") then Err (Errorf "advertise address %q must use host:port form" [value])
      else if bool_decide (host ≠ nodeIPPlaceholder) && negb (ParseIP_ok host) &&
              bool_decide (0 < length (DNS1123Problems host))
      then Err (Errorf "advertise address %q has invalid host: %s" (value :: DNS1123Problems host))
      else match Atoi rawPort with
           | None => Err (Errorf "advertise address %q has invalid port" [value])
           | Some port =>
               if bool_decide (port < 1)%Z || bool_decide (65535 < port)%Z
               then Err (Errorf "advertise address %q has invalid port" [value])
               else if bool_decide (address ∈ seen) then Ok (seen, result)
               else Ok ({[address]} ∪ seen, result ++ [mkStatusEndpoint address ""])
           end
  end.
Definition advertisedAccessEndpoints (addresses : list string) : result (list AccessStatusEndpoint) :=
  acc ← foldM advertise_one (∅, []) addresses; Ok acc.2.

(** The entries of the two maps that [validatePolicyOptions] ranges over. *)
Definition policy_modes (opts : Options) : list (string * string) :=
  [("defaults", ContainerMode (Policy_Defaults opts)); ("limits", ContainerMode (Policy_Limits opts))].
Definition policy_patterns (opts : Options) : list (string * list string) :=
  [("default local forward", LocalForwardDestinations (Policy_Defaults opts));
   ("default remote forward", RemoteForwardBinds (Policy_Defaults opts));
   ("limit local forward", LocalForwardDestinations (Policy_Limits opts));
   ("limit remote forward", RemoteForwardBinds (Policy_Limits opts))].

Definition check_mode (_ : unit) (entry : string * string) : result unit :=
  if slices_Contains ["KubernetesDefault"; "All"; "None"] entry.2 then Ok ()
  else Err (Errorf "policy %s container mode %q is invalid" [entry.1; entry.2]).
Definition check_pattern (name : string) (_ : unit) (pattern : string) : result unit :=
  if bool_decide (pattern = "*") || bool_decide (pattern = "*:*") then Ok ()
  else match SplitHostPort pattern with
       | None => Err (Wrapf "policy %s expression %q is invalid: %w" [name; pattern] (EExternal "net.SplitHostPort"))
       | Some _ => Ok ()
       end.

(** [validatePolicyOptions]; [modes] and [patterns] are the entries of the maps in the order in which
    the run happens to range over them. *)
Definition validatePolicyOptions (opts : Options) (modes : list (string * string))
    (patterns : list (string * list string)) : result unit :=
  _ ← (if bool_decide (GatewayClassName opts ≠ "") && bool_decide (0 < length (DNS1123Problems (GatewayClassName opts)))
       then Err (Errorf "gateway class name %q is invalid: %s"
                   (GatewayClassName opts :: DNS1123Problems (GatewayClassName opts)))
       else Ok ());
  _ ← advertisedAccessEndpoints (AdvertiseAddresses opts);
  _ ← foldM check_mode () modes;
  foldM (fun u entry => foldM (check_pattern entry.1) u entry.2) () patterns.
End Validation.

(** ** Assembly *)

Section Assembly.
Context `{SSHKeys}.

Definition NewWebhookAuthenticator (url_Parse : string → result (string * string))
    (HTTPClientFor : WebhookOptions → Z → result unit)
    (post : WebhookClient → WebhookAuthenticateRequest → result WebhookAuthenticateResponse)
    (opts : WebhookOptions) : result SSHAuthenticator :=
  client ← NewClient url_Parse HTTPClientFor opts; Ok (WebhookAuthenticator (post client)).

Definition buildAuthenticator (opts : Options) (newWebhook : WebhookOptions → result SSHAuthenticator)
    (accessAuthenticator : option SSHAuthenticator) : result SSHAuthenticator :=
  staticPublicKey ← NewStaticPublicKeyAuthenticator (ao_AuthorizedKeys (Authentication opts));
  staticPassword ← NewStaticPasswordAuthenticator (ao_Passwords (Authentication opts));
  hook ← (if webhook_Enabled (ao_Webhook (Authentication opts))
          then w ← newWebhook (ao_Webhook (Authentication opts)); Ok [w] else Ok []);
  Ok (authn_Chain ([staticPublicKey; staticPassword] ++ option_list accessAuthenticator ++ hook ++
                   (if ao_Anonymous (Authentication opts) then [Anonymous] else []))).

Definition buildResolver {S} (accessResolver : option (Resolver S)) (directResolver : Resolver S) : Resolver S :=
  Chain_Resolve (option_list accessResolver ++ [directResolver; fun input s => (HintResolver_Resolve input, s)]).

(** [buildPodBackend]: the transport behind the executor. *)
Inductive podTransport := TransportCRI (o : CriOptions) | TransportAPIServer (helperPath helperRemoteDir : string).
Definition buildPodBackend (opts : Options) : result podTransport :=
  if bool_decide (PodSSH_Transport opts = PodSSHTransportCRI)
  then let o := PodSSH_CRI opts in
       match cri_New (mkCriOptions (cri_Port o) (cri_ServerName o) (cri_CAFile o) (cri_CertFile o) (cri_KeyFile o)) with
       | Err e => Err (Wrapf "build CRI transport: %w" [] e)
       | Ok t => Ok (TransportCRI t)
       end
  else if bool_decide (PodSSH_Transport opts = PodSSHTransportAPIServer)
  then Ok (TransportAPIServer (Helper_Path opts) (Helper_RemoteDir opts))
  else Err (Errorf "pod SSH transport %q is invalid; use apiserver or cri" [PodSSH_Transport opts]).

Definition accessCapabilities (values : list string) : list string := values.

(** [accessPolicyRuntime]: nil fields are [None]; the status controller is the one [start] starts. *)
Record accessPolicyRuntime := mkAccessRuntime {
  rt_authenticator : option SSHAuthenticator;
  rt_authorizer : option Authorizer;
  rt_resolver : option (Resolver resolverState);
  rt_directResolver : option (Resolver resolverState);
  rt_accessPolicy : option AccessGetter;
  rt_sshProxy : bool;
  rt_statusController : option AccessStatusController;
}.

(** The informer caches: their content at the moment, and their selection by namespace and labels. *)
Record informerCaches := mkCaches {
  ca_accesses : Indexer Access;
  ca_secrets : Indexer Secret;
  ca_pods : Indexer Pod;
  ca_listPods : string → gmap string string → result (list (cached Pod));
}.

Definition direct_resolver : Resolver resolverState := fun input s => (UsernameResolver_Resolve input, s).
Definition runtime_cache (opts : Options) (caches : informerCaches) : PolicyCache :=
  mkPolicyCache (Some (ca_accesses caches)) (Some (ca_secrets caches)) (AccessPolicy_Namespace opts)
    (GatewayClassName opts).
Definition runtime_pods (caches : informerCaches) : string → gmap string string → result (list Pod) :=
  InformerPodLister_List (Some (ca_pods caches, ca_listPods caches)).
Definition runtime_policy (opts : Options) : ContainerPolicy :=
  mkContainerPolicy (ContainerMode (Policy_Defaults opts)) (ContainerMode (Policy_Limits opts)).

Section Runtime.
Context (DNS1123Problems : string → list string).
(** Label matching, the clock and the random number of a resolution. *)
Context (labels_Matches : gmap string string → gmap string string → bool) (now : Z) (rand_Intn : Z → Z).

(** [buildAccessPolicyRuntime]; [client] is the outcome of making the API client, [handlers] the
    outcomes of adding the six event handlers. *)
Definition buildAccessPolicyRuntime (opts : Options) (caches : informerCaches) (client : result unit)
    (handlers : list (result unit)) : result accessPolicyRuntime :=
  if negb (AccessPolicy_Enabled opts) then Ok (mkAccessRuntime None None None None None false None)
  else
    _ ← client;
    endpoints ← advertisedAccessEndpoints DNS1123Problems (AdvertiseAddresses opts);
    let policyCache := runtime_cache opts caches in
    let podLister := runtime_pods caches in
    _ ← foldM (fun _ (r : result unit) => r) () handlers;
    Ok (mkAccessRuntime
          (Some (AccessAuthenticator policyCache))
          (Some (AccessAuthorizer_Authorize (Some (PolicyCache_Get policyCache))
             (mkCapabilityDefaults (accessCapabilities (Capabilities (Policy_Defaults opts)))
                (LocalForwardDestinations (Policy_Defaults opts)) (RemoteForwardBinds (Policy_Defaults opts)))))
          (Some (Resolver_Resolve (PolicyCache_Get policyCache) (Some podLister) (runtime_policy opts)
             labels_Matches now rand_Intn))
          (Some direct_resolver) (Some (PolicyCache_Get policyCache)) true
          (Some (mkController (PolicyCache_Get policyCache) (PolicyCache_List policyCache) (Some podLister)
                   (Some (ca_secrets caches)) (runtime_policy opts) endpoints))).

(** [start]: the metrics it records, and whether the status controller was started.  [accessSynced]
    and [kubeSynced] are the values of the maps that [WaitForCacheSync] returns. *)
Inductive startEffect :=
| CacheSyncFinished (cache result : string)
| PolicyObjects (cache : string) (n : nat)
| StatusControllerStarted.
Definition accessCount (store : result (list Access)) : nat :=
  match store with Ok accesses => length accesses | Err _ => 0 end.
Definition cacheSyncResult (ctxErr : bool) : string := if ctxErr then ResultCanceled else ResultError.
Definition runtime_start (opts : Options) (caches : informerCaches) (accessSynced kubeSynced : list bool)
    (ctxErr : bool) : list startEffect * result unit :=
  if negb (forallb id accessSynced)
  then ([CacheSyncFinished "access" (cacheSyncResult ctxErr)], Err (Errorf "access informer cache sync failed" []))
  else
    let access := [CacheSyncFinished "access" ResultSuccess;
                   PolicyObjects "access" (accessCount (PolicyCache_List (runtime_cache opts caches)))] in
    if negb (forallb id kubeSynced)
    then (access ++ [CacheSyncFinished "secret" (cacheSyncResult ctxErr)],
          Err (Errorf "secret informer cache sync failed" []))
    else (access ++ [CacheSyncFinished "secret" ResultSuccess;
                     PolicyObjects "secret" (length (Indexer_List (ca_secrets caches)));
                     PolicyObjects "pod" (length (Indexer_List (ca_pods caches))); StatusControllerStarted], Ok ()).
End Runtime.

(** An authorizer with its dynamic type, as far as the code asks for it. *)
Inductive someAuthorizer := PolicyGuarded (a : Authorizer) | OtherAuthorizer (a : Authorizer).

(** [Dependencies]: nil is [None] or [false]. *)
Record Dependencies := mkDependencies {
  dep_Start : bool;
  dep_Stop : bool;
  dep_Authenticator : option SSHAuthenticator;
  dep_Authorizer : option someAuthorizer;
  dep_Resolver : option (Resolver resolverState);
  dep_AccessPolicy : option AccessGetter;
  dep_PodBackend : bool;
  dep_SSHProxy : bool;
  dep_AuditRecorder : bool;
}.

Definition Validate (d : Dependencies) : result unit :=
  match dep_Authenticator d, dep_Authorizer d, dep_Resolver d with
  | None, _, _ => Err (Errorf "authenticator is required" [])
  | _, None, _ => Err (Errorf "authorizer is required" [])
  | _, _, None => Err (Errorf "resolver is required" [])
  | _, _, _ => if dep_AuditRecorder d then Ok () else Err (Errorf "audit recorder is required" [])
  end.

Definition wrapped {A} (format : string) (r : result A) : result A :=
  match r with Err e => Err (Wrapf format [] e) | Ok a => Ok a end.

(** [buildDependencies]; [ctxErr] is the error of the context, [kube] the outcome of loading the
    configuration and making the clients, [pods_Get] the API server's answer for a Pod. *)
Definition buildDependencies (opts : Options) (ctxErr : option error) (kube : result unit)
    (runtime : result accessPolicyRuntime) (newWebhook : WebhookOptions → result SSHAuthenticator)
    (webhookAuthorizer : result Authorizer) (sar : Authorizer) (pods_Get : string → string → result Pod)
    : result Dependencies :=
  _ ← match ctxErr with Some e => Err e | None => Ok () end;
  _ ← kube;
  runtime ← wrapped "build access policy runtime: %w" runtime;
  authenticator ← wrapped "build authenticator: %w" (buildAuthenticator opts newWebhook (rt_authenticator runtime));
  authorizer ← buildAuthorizer opts webhookAuthorizer sar (rt_authorizer runtime);
  _ ← buildPodBackend opts;
  let direct := default direct_resolver (rt_directResolver runtime) in
  Ok (mkDependencies (bool_decide (is_Some (rt_statusController runtime))) true (Some authenticator)
        (Some (PolicyGuarded authorizer))
        (Some (BindingResolver_Resolve (buildResolver (rt_resolver runtime) direct)
                 (KubernetesPodLister_Get (Some pods_Get))
                 (ContainerMode (Policy_Defaults opts)) (ContainerMode (Policy_Limits opts))))
        (rt_accessPolicy runtime) true (rt_sshProxy runtime) true).

(** ** [RunWithDependencies]: the checks before it starts anything *)

(** What the gateway runs with: the enabled methods, its authorizer and its collaborators, the resolver
    over the state of the selector. *)
Record preparedGateway := mkPrepared {
  pg_methods : list string;
  pg_authz : Authorizer;
  pg_resolver : Resolver resolverState;
  pg_authn : SSHAuthenticator;
}.

Definition run_prepare (DNS1123Problems : string → list string) (opts : Options) (deps : Dependencies)
    (modes : list (string * string)) (patterns : list (string * list string)) : result preparedGateway :=
  methods ← enabledAuthenticationMethods (ao_Methods (Authentication opts));
  _ ← wrapped "invalid dependencies: %w" (Validate deps);
  _ ← wrapped "invalid policy: %w" (validatePolicyOptions DNS1123Problems opts modes patterns);
  match dep_Authenticator deps, dep_Authorizer deps, dep_Resolver deps with
  | Some authenticator, Some authorizer, Some resolver =>
      guarded ← match authorizer with
                | PolicyGuarded a => Ok a
                | OtherAuthorizer a => wrapped "invalid policy: %w" (withPolicyGuards opts a)
                end;
      Ok (mkPrepared methods guarded resolver authenticator)
  | _, _, _ => Err (EPanic "nil dependency")
  end.

(** The gateway of the handshake, when the selector is in state [s]. *)
Definition prepared_gateway (opts : Options) (deps : Dependencies) (p : preparedGateway) (s : resolverState) : gateway :=
  mkGateway opts (pg_authn p) (fun input => (pg_resolver p input s).1) (dep_AccessPolicy deps)
    (dep_PodBackend deps) (dep_SSHProxy deps).

(** [startMetricsServer]: [None] when metrics are off, else the path it serves.  [provider] says
    whether the recorder has an HTTP handler. *)
Definition startMetricsServer (listenAddress path : string) (provider : bool) (listen : string → result unit)
    : result (option string) :=
  if bool_decide (listenAddress = "") then Ok None
  else
    let path := if bool_decide (path = "") then "/metrics" else path in
    if negb (HasPrefix path "/") then Err (Errorf "metrics path must start with /" [])
    else if bool_decide (path = "/healthz") || bool_decide (path = "/readyz")
    then Err (Errorf "metrics path %q conflicts with a health endpoint" [path])
    else if negb provider then Err (Errorf "metrics recorder does not provide an HTTP handler" [])
    else match listen listenAddress with
         | Err e => Err (Wrapf "listen metrics: %w" [] e)
         | Ok _ => Ok (Some path)
         end.

(** [loadHostKey]: the key is the parsed file, or an ephemeral one. *)
Definition loadHostKey {K} (readFile : string → result string) (parsePrivateKey : string → result K)
    (generate : result K) (filename : string) : result K :=
  if bool_decide (filename ≠ "")
  then match readFile filename with
       | Err e => Err (Wrapf "read SSH host key: %w" [] e)
       | Ok data => wrapped "parse SSH host key: %w" (parsePrivateKey data)
       end
  else generate.
End Assembly.
