(* ===== verification/AssemblyProps.v ===== *)
(** Properties of the assembled gateway. *)

From S2P Require Import Prelude GoStrings GoStrconv GoNet Wildcard Kube Target Strategy Authn AccessStore AccessStoreProps AccessResolver Options Authz AuthzProps SessionPolicy AuditLog Operation Handshake HandshakeProps CriTransport StatusController Assembly.

(** ** Advertised addresses *)

Section Advertised.
Context (DNS1123Problems : string → list string).

(** What an address must be. *)
Definition advertisable (value : string) : Prop :=
  ∃ host rawPort port, SplitHostPort (TrimSpace value) = Some (host, rawPort) ∧ host ≠ "" ∧
    (host = nodeIPPlaceholder ∨ ParseIP_ok host = true ∨ DNS1123Problems host = []) ∧
    Atoi rawPort = Some port ∧ (1 ≤ port ≤ 65535)%Z.

Lemma advertise_one_Ok seen es value acc' :
  advertise_one DNS1123Problems (seen, es) value = Ok acc' ↔
  advertisable value ∧
  acc' = if bool_decide (TrimSpace value ∈ seen) then (seen, es)
         else ({[TrimSpace value]} ∪ seen, es ++ [mkStatusEndpoint (TrimSpace value) ""]).
Proof.
  unfold advertise_one, advertisable. destruct (SplitHostPort _) as [[host rawPort]|]; [|naive_solver].
  assert (bool_decide (host ≠ nodeIPPlaceholder) && negb (ParseIP_ok host) &&
            bool_decide (0 < length (DNS1123Problems host)) = false ↔
          (host = nodeIPPlaceholder ∨ ParseIP_ok host = true ∨ DNS1123Problems host = [])) as Hhost.
  { case_bool_decide as H1; destruct (ParseIP_ok host); simpl; try (split; auto; fail).
    destruct (DNS1123Problems host); simpl; split; intros; destruct_or?; auto; done. }
  destruct (bool_decide (host = "")) eqn:He; breflect.
  { split; [done|]. intros [(h & r & p & [= <- <-] & ? & _) _]. done. }
  destruct (bool_decide (host ≠ nodeIPPlaceholder) && _ && _) eqn:Hb.
  { split; [done|]. intros [(h & r & p & [= <- <-] & _ & Hh & _) _]. apply Hhost in Hh. congruence. }
  apply proj1 in Hhost. specialize (Hhost eq_refl). destruct (Atoi rawPort) as [port|] eqn:Ha; [|naive_solver].
  destruct (bool_decide (port < 1)%Z || bool_decide (65535 < port)%Z) eqn:Hp.
  { apply orb_true_iff in Hp. rewrite !bool_decide_eq_true in Hp. split; [done|].
    intros [(h & r & p & [= <- <-] & _ & _ & Hap & ?) _]. rewrite Ha in Hap. injection Hap as <-. lia. }
  apply orb_false_iff in Hp as [Hp1 Hp2]. breflect.
  split; [|intros [_ ->]; by destruct (bool_decide (_ ∈ seen))].
  intros Hacc. split; [|by destruct (bool_decide (_ ∈ seen)); injection Hacc]. exists host, rawPort, port. split_and!; (done || lia).
Qed.

(** [advertisedAccessEndpoints] accepts exactly lists of addresses [host:port], with a host that is
    the node placeholder, an IP address or a DNS name, and a port between 1 and 65535; it advertises
    each address once, trimmed, in the order of first mention. *)
Theorem advertised_endpoints addresses es :
  advertisedAccessEndpoints DNS1123Problems addresses = Ok es →
  Forall advertisable addresses ∧ NoDup (se_Address <$> es) ∧
  (∀ a, a ∈ se_Address <$> es ↔ a ∈ TrimSpace <$> addresses) ∧
  (se_Address <$> es) `sublist_of` (TrimSpace <$> addresses).
Proof.
  unfold advertisedAccessEndpoints. intros ([seen es'] & Hfold & [= <-])%result_bind_Ok. simpl.
  assert (∀ rest done seen0 es0, (∀ a, a ∈ seen0 ↔ a ∈ se_Address <$> es0) → Forall advertisable done →
    NoDup (se_Address <$> es0) → (∀ a, a ∈ se_Address <$> es0 ↔ a ∈ TrimSpace <$> done) →
    (se_Address <$> es0) `sublist_of` (TrimSpace <$> done) →
    foldM (advertise_one DNS1123Problems) (seen0, es0) rest = Ok (seen, es') →
    Forall advertisable (done ++ rest) ∧ NoDup (se_Address <$> es') ∧
    (∀ a, a ∈ se_Address <$> es' ↔ a ∈ TrimSpace <$> (done ++ rest)) ∧
    (se_Address <$> es') `sublist_of` (TrimSpace <$> (done ++ rest))) as Hgen;
    [|apply (Hgen addresses [] ∅ []); try done; try constructor; set_solver].
  clear. intros rest. induction rest as [|v rest IH]; intros dn seen0 es0 Hseen Hadv Hnd Hset Hsub Hfold.
  { simpl in Hfold. injection Hfold as <- <-. by rewrite app_nil_r. }
  simpl in Hfold. apply result_bind_Ok in Hfold as ([seen1 es1] & [Hv Hacc]%advertise_one_Ok & Hfold).
  replace (dn ++ v :: rest) with ((dn ++ [v]) ++ rest) by by rewrite <-app_assoc.
  assert (Forall advertisable (dn ++ [v])) as Hadv' by (apply Forall_app; by repeat constructor).
  case_bool_decide as Hin; simplify_eq.
  - apply (IH (dn ++ [v]) seen0 es0); try done.
    + intros a. rewrite fmap_app, elem_of_app, <-Hset. simpl. rewrite list_elem_of_singleton.
      apply Hseen in Hin. naive_solver.
    + rewrite fmap_app. by apply sublist_inserts_r.
  - eapply (IH (dn ++ [v])); [..|exact Hfold]; try done; rewrite ?fmap_app; simpl.
    + intros a. rewrite elem_of_union, elem_of_singleton, elem_of_app, list_elem_of_singleton, Hseen. naive_solver.
    + apply NoDup_app. split_and!; [done| |apply NoDup_singleton].
      intros a Ha ->%list_elem_of_singleton. by apply Hin, Hseen.
    + intros a. by rewrite !elem_of_app, Hset.
    + by apply sublist_app.
Qed.
End Advertised.

(** ** Who is authenticated by what *)

Section Identity.
Context `{SSHKeys}.

(** An authenticator whose identities carry no Access. *)
Definition accessless (a : SSHAuthenticator) : Prop :=
  (∀ user password info, AuthenticateBasic a user password = Ok info → info_Extra info = ∅) ∧
  (∀ user key info, AuthenticatePublicKey a user key = Ok info → info_Extra info = ∅).

Lemma find_info_accessless (f : AuthenticateInfo * string → bool) parsed x :
  (∀ x, x ∈ parsed → info_Extra x.1 = ∅) → find_first f parsed = Some x → info_Extra x.1 = ∅.
Proof. intros Hx [Hin _]%find_first_Some. by apply Hx. Qed.

Lemma static_key_accessless entries a : NewStaticPublicKeyAuthenticator entries = Ok a → accessless a.
Proof.
  unfold NewStaticPublicKeyAuthenticator. intros (parsed & Hp & [= <-])%result_bind_Ok. split; [done|].
  assert (∀ x, x ∈ parsed → info_Extra x.1 = ∅) as Hx.
  { revert parsed Hp. induction entries as [|e es IH]; simpl; intros parsed Hp; [injection Hp as <-; set_solver|].
    destruct (ParseAuthorizedKey _); [|done]. apply result_bind_Ok in Hp as (rest & Hr & [= <-]).
    intros x [->|Hin]%elem_of_cons; [done|by apply (IH _ Hr)]. }
  intros user key info. simpl. unfold StaticKey_AuthenticatePublicKey.
  destruct (find_first _ _) eqn:Hf; [|done]. intros [= <-]. by eapply find_info_accessless.
Qed.

Lemma static_password_accessless entries a : NewStaticPasswordAuthenticator entries = Ok a → accessless a.
Proof.
  unfold NewStaticPasswordAuthenticator. intros (parsed & Hp & [= <-])%result_bind_Ok. split; [|done].
  destruct (static_passwords_Ok _ _ Hp) as [-> _]. intros user password info. simpl.
  unfold StaticPassword_AuthenticateBasic. destruct (find_first _ _) eqn:Hf; [|done]. intros [= <-].
  eapply find_info_accessless; [|exact Hf]. intros x (e & -> & _)%list_elem_of_fmap. done.
Qed.

Lemma webhook_accessless url_Parse HTTPClientFor post o a :
  NewWebhookAuthenticator url_Parse HTTPClientFor post o = Ok a → accessless a.
Proof.
  unfold NewWebhookAuthenticator. intros (client & _ & [= <-])%result_bind_Ok.
  split; intros user x info; simpl; unfold webhook_authenticate; intros (resp & _ & Hr)%result_bind_Ok;
    repeat case_match; by simplify_eq/=.
Qed.

Lemma chain_accepts (f : SSHAuthenticator → result AuthenticateInfo) l info :
  chain_try (f <$> l) = Ok info → ∃ a, a ∈ l ∧ f a = Ok info.
Proof.
  intros (i & Hi & _)%chain_try_Ok. rewrite list_lookup_fmap in Hi. apply fmap_Some in Hi as (a & Ha & Hf).
  exists a. split; [by eapply list_elem_of_lookup_2|done].
Qed.

(** An identity with an Access was established by the Access authenticator. *)
Lemma buildAuthenticator_access opts url_Parse HTTPClientFor post access a :
  buildAuthenticator opts (NewWebhookAuthenticator url_Parse HTTPClientFor post) access = Ok a →
  (∀ user password info, AuthenticateBasic a user password = Ok info → info_Extra info ≠ ∅ →
     ∃ b, access = Some b ∧ AuthenticateBasic b user password = Ok info) ∧
  (∀ user key info, AuthenticatePublicKey a user key = Ok info → info_Extra info ≠ ∅ →
     ∃ b, access = Some b ∧ AuthenticatePublicKey b user key = Ok info).
Proof.
  unfold buildAuthenticator.
  intros (pk & Hpk & (pw & Hpw & (hook & Hhook & [= <-])%result_bind_Ok)%result_bind_Ok)%result_bind_Ok.
  assert (∀ b, b ∈ [pk; pw] ++ option_list access ++ hook ++
            (if ao_Anonymous (Authentication opts) then [Anonymous] else []) →
          access = Some b ∨ accessless b) as Hall.
  { intros b. rewrite !elem_of_app. intros [Hb|[Hb|[Hb|Hb]]].
    - right. apply elem_of_cons in Hb as [->|[->|Hb]%elem_of_cons]; [by eapply static_key_accessless
        |by eapply static_password_accessless|set_solver].
    - left. destruct access; simpl in Hb; [|set_solver]. apply list_elem_of_singleton in Hb. by subst.
    - right. destruct (webhook_Enabled _); [|injection Hhook as <-; set_solver].
      apply result_bind_Ok in Hhook as (w & Hw & [= <-]). apply list_elem_of_singleton in Hb as ->.
      by eapply webhook_accessless.
    - right. destruct (ao_Anonymous _); [|set_solver]. apply list_elem_of_singleton in Hb as ->.
      split; by intros ??? [= <-]. }
  split; intros user x info (b & Hin & Hb)%chain_accepts Hne;
    (destruct (Hall b Hin) as [->|[H1 H2]]; [by eauto|]); [by apply H1 in Hb|by apply H2 in Hb].
Qed.
End Identity.

(** ** Where a caller of an Access ends up *)

(** Errors of the selector are no sentinels. *)
Lemma selectTarget_Err now rand s access req candidates strategy e s' x :
  selectTarget now rand s access req candidates strategy = (Err e, s') → errors_Is e x = false.
Proof.
  unfold selectTarget, strategyIndex, roundRobinCandidateIndex, randomCandidateIndex.
  repeat case_match; intros; by simplify_eq/=.
Qed.

Lemma selectPod_Err labels now rand s access pods req e s' x :
  selectPod labels now rand s access pods req = (Err e, s') → errors_Is e x = false.
Proof.
  unfold selectPod. case_bool_decide; [done|].
  destruct (selectTarget _ _ _ _ _ _ _) as [[sel|e'] s1] eqn:Hs.
  - case_match; by intros [= <- _].
  - intros [= <- _]. by eapply selectTarget_Err.
Qed.

Lemma selectEndpoint_Err now rand s access req e s' x :
  selectEndpoint now rand s access req = (Err e, s') → errors_Is e x = false.
Proof.
  unfold selectEndpoint. case_bool_decide; [done|].
  destruct (selectTarget _ _ _ _ _ _ _) as [[sel|e'] s1] eqn:Hs.
  - case_match; by intros [= <- _].
  - intros [= <- _]. by eapply selectTarget_Err.
Qed.

Lemma bindSelection_Err policy input l access pod h s e s' x :
  bindSelection policy input l access pod h s = (Err e, s') → errors_Is e x = false.
Proof.
  unfold bindSelection. destruct (ResolveContainer _ _) as [[c d]|e'] eqn:Hr.
  - case_match; by intros [= <- _].
  - intros [= <- _]. unfold ResolveContainer in Hr. repeat case_match; by simplify_eq/=.
Qed.

Section Confined.
Context (Get : AccessGetter) (list : string → gmap string string → result (list Pod)) (policy : ContainerPolicy).
Context (labels_Matches : gmap string string → gmap string string → bool) (now : Z) (rand_Intn : Z → Z).
Context (list_errors : ∀ ns sel e, list ns sel = Err e → errors_Is e target_ErrNotProvided = false).

Lemma resolvePod_Err input l access pods s e s' x :
  resolvePod policy labels_Matches now rand_Intn input l access pods s = (Err e, s') → errors_Is e x = false.
Proof.
  unfold resolvePod. repeat case_match; intros; simplify_eq/=; try done;
    eauto using bindSelection_Err, selectPod_Err.
Qed.

(** Once the Access is found, its resolver decides. *)
Lemma located_decides input s l a e s' :
  resolveRequestedAccess Get (in_SSHUser input) (in_AuthExtra input) = Ok (Some (l, a)) →
  Resolver_Resolve Get (Some list) policy labels_Matches now rand_Intn input s = (Err e, s') →
  errors_Is e target_ErrNotProvided = false.
Proof.
  unfold Resolver_Resolve, resolveExternal. intros ->.
  repeat case_match; intros; simplify_eq/=; try done; eauto using resolvePod_Err, selectEndpoint_Err.
Qed.

(** For a caller with an Access identity whose session policy can be looked up, the assembled resolver
    returns what the Access resolver returns: neither the direct resolver nor the hints are asked, and
    the binding resolver leaves the target as it is. *)
Lemma access_resolution input s user access direct pods_Get dmode lmode tgt s' :
  GetExtra (in_AuthExtra input) ExtraAccessNamespace ≠ "" ∨ GetExtra (in_AuthExtra input) ExtraAccessName ≠ "" →
  sessionPolicyAccess (Some Get) user (in_AuthExtra input) = Ok access →
  (∀ ns sel pods pod, list ns sel = Ok pods → pod ∈ pods → pod_UID pod ≠ "") →
  BindingResolver_Resolve
    (buildResolver (Some (Resolver_Resolve Get (Some list) policy labels_Matches now rand_Intn)) direct)
    pods_Get dmode lmode input s = (Ok tgt, s') →
  confined Get (Some list) policy input tgt.
Proof.
  intros Hid Hsession Huid Hres.
  set (ns := GetExtra (in_AuthExtra input) ExtraAccessNamespace) in *.
  set (name := GetExtra (in_AuthExtra input) ExtraAccessName) in *.
  assert (bool_decide (ns ≠ "") || bool_decide (name ≠ "") = true) as Hb
    by by rewrite orb_true_iff, !bool_decide_eq_true.
  unfold sessionPolicyAccess in Hsession. fold ns name in Hsession. rewrite Hb in Hsession.
  destruct (bool_decide (ns = "") || bool_decide (name = "")) eqn:Hn; [done|].
  apply result_bind_Ok in Hsession as (a & Hget & _).
  unfold BindingResolver_Resolve, buildResolver, Chain_Resolve in Hres. simpl in Hres.
  destruct (parseAccessLocatorFor (in_SSHUser input) ns name) as [l|] eqn:Hp.
  2:{ assert (∀ s, Resolver_Resolve Get (Some list) policy labels_Matches now rand_Intn input s =
        (Err (EStatus BadRequest "target %q does not match authenticated access %s/%s" [in_SSHUser input; ns; name]), s))
        as Hr by (intros s0; unfold Resolver_Resolve, resolveRequestedAccess; fold ns name; by rewrite Hb, Hn, Hp).
      by rewrite Hr in Hres. }
  assert (resolveRequestedAccess Get (in_SSHUser input) (in_AuthExtra input) = Ok (Some (l, a))) as Hreq.
  { unfold resolveRequestedAccess. fold ns name. rewrite Hb, Hn, Hp. unfold get_located. by rewrite Hget. }
  destruct (Resolver_Resolve _ _ _ _ _ _ input s) as [[t|e] s1] eqn:Hr.
  2:{ by rewrite (located_decides _ _ _ _ _ _ Hreq Hr) in Hres. }
  clear Hb Hn. apply Resolver_Resolve_Ok in Hr. case_bool_decide as Hk; [by simplify_eq|].
  case_bool_decide as Hu; [by simplify_eq|]. exfalso.
  destruct Hr as (l' & a' & _ & _ & _ & [(_ & _ & _ & ep & _ & ->)|(_ & list' & pods & pod & c & req & [= <-] & Hl & Hin & _ & -> & _)]).
  - done.
  - pose proof (BoundIdentity_bind (New (pod_Namespace pod) (pod_Name pod) c) pod) as Hi.
    apply (f_equal b_UID) in Hi. change (b_UID (BoundIdentity (Bind pod c)) = pod_UID pod) in Hi.
    eapply Huid; [done..|]. by rewrite <-Hi.
Qed.
End Confined.

(** ** The assembled gateway *)

Section Assembled.
Context `{SSHKeys} (opts : Options) (caches : informerCaches).
Context (DNS1123Problems : string → list string).
Context (labels_Matches : gmap string string → gmap string string → bool) (now : Z) (rand_Intn : Z → Z).
Context (url_Parse : string → result (string * string)) (HTTPClientFor : WebhookOptions → Z → result unit).
Context (post : WebhookClient → WebhookAuthenticateRequest → result WebhookAuthenticateResponse).
Context (webhookAuthorizer : result Authorizer) (sar : Authorizer) (pods_Get : string → string → result Pod).

(** The gateway that [Run] builds from the options and runs. *)
Definition assembled (deps : Dependencies) (p : preparedGateway) : Prop :=
  ∃ client handlers ctxErr kube runtime modes patterns,
    buildAccessPolicyRuntime DNS1123Problems labels_Matches now rand_Intn opts caches client handlers = Ok runtime ∧
    buildDependencies opts ctxErr kube (Ok runtime) (NewWebhookAuthenticator url_Parse HTTPClientFor post)
      webhookAuthorizer sar pods_Get = Ok deps ∧
    run_prepare DNS1123Problems opts deps modes patterns = Ok p.

Lemma assembled_parts deps p :
  assembled deps p → ∃ runtime authorizer,
    dep_Authenticator deps = Some (pg_authn p) ∧ dep_Resolver deps = Some (pg_resolver p) ∧
    buildAuthenticator opts (NewWebhookAuthenticator url_Parse HTTPClientFor post) (rt_authenticator runtime) = Ok (pg_authn p) ∧
    buildAuthorizer opts webhookAuthorizer sar (rt_authorizer runtime) = Ok authorizer ∧ pg_authz p = authorizer ∧
    pg_resolver p = BindingResolver_Resolve (buildResolver (rt_resolver runtime) (default direct_resolver (rt_directResolver runtime)))
      (KubernetesPodLister_Get (Some pods_Get)) (ContainerMode (Policy_Defaults opts)) (ContainerMode (Policy_Limits opts)) ∧
    dep_AccessPolicy deps = rt_accessPolicy runtime ∧
    (rt_authenticator runtime = None ∨
     (rt_authenticator runtime = Some (AccessAuthenticator (runtime_cache opts caches)) ∧
      rt_accessPolicy runtime = Some (PolicyCache_Get (runtime_cache opts caches)) ∧
      rt_resolver runtime = Some (Resolver_Resolve (PolicyCache_Get (runtime_cache opts caches))
        (Some (runtime_pods caches)) (runtime_policy opts) labels_Matches now rand_Intn))).
Proof.
  intros (client & handlers & ctxErr & kube & rt & modes & patterns & Hrt & Hdeps & Hp).
  unfold buildDependencies in Hdeps. apply result_bind_Ok in Hdeps as ([] & _ & Hdeps).
  apply result_bind_Ok in Hdeps as ([] & _ & Hdeps). simpl in Hdeps.
  apply result_bind_Ok in Hdeps as (a & Ha & Hdeps). apply result_bind_Ok in Hdeps as (z & Hz & Hdeps).
  apply result_bind_Ok in Hdeps as (? & _ & [= <-]).
  unfold run_prepare in Hp. apply result_bind_Ok in Hp as (methods & _ & Hp).
  apply result_bind_Ok in Hp as ([] & _ & Hp). apply result_bind_Ok in Hp as ([] & _ & Hp).
  simpl in Hp. injection Hp as <-. exists rt, z. simpl.
  split_and!; try done.
  - destruct (buildAuthenticator _ _ _); [by simplify_eq/=|done].
  - unfold buildAccessPolicyRuntime in Hrt. destruct (AccessPolicy_Enabled opts); simpl in Hrt;
      [|injection Hrt as <-; by left]. right.
    apply result_bind_Ok in Hrt as (? & _ & Hrt). apply result_bind_Ok in Hrt as (? & _ & Hrt).
    apply result_bind_Ok in Hrt as (? & _ & [= <-]). done.
Qed.

(** The identity of an accepted connection, and the lookup of its session policy. *)
Lemma session_access_found access user extra p :
  resolveSessionPolicy opts access user extra = Ok p → ∃ a, sessionPolicyAccess access user extra = Ok a.
Proof. intros (a & Ha & _)%result_bind_Ok. by exists a. Qed.

(** C5: a connection of an Access caller is confined to that Access, through the whole assembled
    gateway.  Whatever authenticators, webhooks, resolvers and hints the options configure, if a
    handshake of the gateway that [Run] builds ends with an identity that names an Access, then a
    credential of that Access was matched by the password or the verified key given for the offered
    user name (no other authenticator yields such an identity), and the target published for the
    connection is an endpoint of that Access or an active Pod its selector lists, with a container
    that the Access, the credential and the gateway's modes permit; the direct and the hint resolvers,
    which would reach any Pod, had no say. *)
Theorem access_connection_confined error_string newID clock deps p s h0 h r :
  (∀ ns sel objects pod, ca_listPods caches ns sel = Ok objects → CObj pod ∈ objects → pod_UID pod ≠ "") →
  (∀ ns sel e, ca_listPods caches ns sel = Err e → errors_Is e target_ErrNotProvided = false) →
  assembled deps p → fresh_handshake h0 →
  rtc (handshake_step (prepared_gateway opts deps p s) (pg_methods p) error_string newID clock)
    (Negotiating h0) (Established h r) →
  let extra := info_Extra (ar_info r) in
  GetExtra extra ExtraAccessNamespace ≠ "" ∨ GetExtra extra ExtraAccessName ≠ "" →
  let cache := runtime_cache opts caches in
  ∃ tgt m, conn_authenticated (hk_ctx h) = Some (mkAuthenticated (ar_info r) tgt (ar_fingerprint r)) ∧
    ((∃ value, MatchPassword cache (conn_User (hk_ctx h)) value = Ok m ∧ extra = authExtra m CredentialTypePassword) ∨
     (∃ key, FingerprintSHA256 key = ar_fingerprint r ∧ MatchPublicKey cache (conn_User (hk_ctx h)) (Some key) = Ok m ∧
        extra = authExtra m CredentialTypePublicKey)) ∧
    confined (PolicyCache_Get cache) (Some (runtime_pods caches)) (runtime_policy opts)
      (resolve_input (hk_ctx h) (ar_info r)) tgt.
Proof.
  intros Huid Herr (rt & z & _ & _ & Hauth & _ & _ & Hresolver & Hpolicy & Hrt)%assembled_parts Hfresh Hreach extra Hid cache.
  destruct (handshake_reachable_ok _ _ _ _ _ _ _ Hfresh Hreach) as (user & tgt & pol & <- & Hproven & Hpub & Hres & Hpol & _).
  simpl in Hres, Hpol. apply buildAuthenticator_access in Hauth as [Hbasic Hkey].
  assert (extra ≠ ∅) as Hne by (intros He; rewrite He in Hid; unfold GetExtra in Hid; rewrite !lookup_empty in Hid; naive_solver).
  exists tgt.
  assert (∃ m, rt_authenticator rt = Some (AccessAuthenticator cache) ∧
    ((∃ value, MatchPassword cache (conn_User (hk_ctx h)) value = Ok m ∧ extra = authExtra m CredentialTypePassword) ∨
     (∃ key, FingerprintSHA256 key = ar_fingerprint r ∧ MatchPublicKey cache (conn_User (hk_ctx h)) (Some key) = Ok m ∧
        extra = authExtra m CredentialTypePublicKey))) as (m & Hsome & Hm).
  { destruct Hproven as [(_ & _ & _ & value & Hb)|(_ & _ & key & Hfp & Hk)].
    - destruct (Hbasic _ _ _ Hb Hne) as (b & Hrb & Hb'). destruct Hrt as [?|(Hra & _)]; [congruence|].
      rewrite Hra in Hrb. injection Hrb as <-. apply result_bind_Ok in Hb' as (m & Hm & Hinfo).
      exists m. split; [done|]. left. exists value. split; [done|]. unfold extra. by injection Hinfo as <-.
    - destruct (Hkey _ _ _ Hk Hne) as (b & Hrb & Hb'). destruct Hrt as [?|(Hra & _)]; [congruence|].
      rewrite Hra in Hrb. injection Hrb as <-. apply result_bind_Ok in Hb' as (m & Hm & Hinfo).
      exists m. split; [done|]. right. exists key. split_and!; [done..|]. unfold extra. by injection Hinfo as <-. }
  exists m. split_and!; [done..|].
  destruct Hrt as [?|(_ & Hap & Hrr)]; [congruence|]. rewrite Hap in Hpolicy.
  unfold prepared_gateway in Hpol. simpl in Hpol. rewrite Hpolicy in Hpol.
  destruct (session_access_found _ _ _ _ Hpol) as [a Ha].
  rewrite Hresolver, Hrr in Hres.
  destruct (BindingResolver_Resolve _ _ _ _ _ s) as [o s'] eqn:Hb in Hres. simpl in Hres. subst o.
  eapply access_resolution; [|exact Hid|exact Ha| |exact Hb].
  - intros ns sel e. unfold runtime_pods, InformerPodLister_List. intros [Hl|(objs & _ & ?)]%result_bind_Err; [|done].
    by eapply Herr.
  - intros ns sel pods pod. unfold runtime_pods, InformerPodLister_List.
    intros (objs & Hl & [= <-])%result_bind_Ok (x & Hx & Hin)%list_elem_of_omap.
    destruct x; simplify_eq. by eapply Huid.
Qed.
End Assembled.

(** ** A concrete gateway: one Access, one Pod, and a login with its password *)

Definition unwrap {A} (d : A) (r : result A) : A := match r with Ok a => a | Err _ => d end.

Definition access_options : Options :=
  let o := NewDefaultOptions in
  mkOptions (ListenAddress o) (GatewayClassName o) ["{NodeIP}:2222"; "ssh.example.org:22"] (HostKeyFile o)
    (Kubeconfig o) (PodSSH_Transport o) (PodSSH_CRI o) (Helper_Path o) (Helper_RemoteDir o) true
    (AccessPolicy_Namespace o) (Policy_Defaults o) (Policy_Limits o) (Metrics_ListenAddress o) (Metrics_Path o)
    (Audit_QueueSize o) (Audit_FlushTimeout o) (Authentication o) (Options.Authorization o) (SSHProxy_ConnectTimeout o).
Definition demo_caches : informerCaches :=
  let a := pod_access "team" "web" [password_credential "alice" ["s3cret"]] in
  mkCaches (mkIndexer (fun k => Ok (if bool_decide (k = "team/web") then Some (CObj a) else None)) [CObj a])
    (mkIndexer (fun _ => Ok None) []) (mkIndexer (fun _ => Ok None) [])
    (fun ns _ => Ok [CObj (simple_pod ns "web-0" "u0" ["app"])]).
Definition no_problems : string → list string := fun _ => [].
Definition no_url : string → result (string * string) := fun _ => Err (EExternal "url").
Definition no_http : WebhookOptions → Z → result unit := fun _ _ => Ok ().
Definition no_post : WebhookClient → WebhookAuthenticateRequest → result WebhookAuthenticateResponse :=
  fun _ _ => Err (EExternal "post").
Definition no_pod : string → string → result Pod := fun _ _ => Err (EExternal "pod").

Definition demo_runtime : @accessPolicyRuntime toy_keys :=
  unwrap (mkAccessRuntime None None None None None false None)
    (@buildAccessPolicyRuntime toy_keys no_problems (fun _ _ => true) 0 (fun _ => 0%Z) access_options demo_caches
       (Ok ()) (replicate 6 (Ok ()))).
Definition demo_deps : @Dependencies toy_keys :=
  unwrap (mkDependencies false false None None None None false false false)
    (@buildDependencies toy_keys access_options None (Ok ()) (Ok demo_runtime)
       (@NewWebhookAuthenticator toy_keys no_url no_http no_post) (Err (EExternal "unused")) DenyAll no_pod).
Definition demo_prepared : @preparedGateway toy_keys :=
  unwrap (@mkPrepared toy_keys [] DenyAll (fun _ s => (Err (EExternal "none"), s)) Anonymous)
    (@run_prepare toy_keys no_problems access_options demo_deps (policy_modes access_options) (policy_patterns access_options)).

Lemma demo_assembled :
  @assembled toy_keys access_options demo_caches no_problems (fun _ _ => true) 0 (fun _ => 0%Z) no_url no_http no_post
    (Err (EExternal "unused")) DenyAll no_pod demo_deps demo_prepared.
Proof.
  exists (Ok ()), (replicate 6 (Ok ())), None, (Ok ()), demo_runtime, (policy_modes access_options), (policy_patterns access_options).
  split_and!; reflexivity.
Qed.

Definition demo_login_gateway : @gateway toy_keys :=
  @prepared_gateway toy_keys access_options demo_deps demo_prepared (mkResolverState newStrategySelector []).
Definition login_meta : Connection := mkConnection "team.web" "10.0.0.9:40000" "" "" "".
Definition login_none : @handshake toy_keys :=
  (@noClientAuthCallback toy_keys demo_login_gateway ["publickey"; "password"] demo_start login_meta).1.
Definition login_outcome : @handshake toy_keys * result authenticationResult :=
  @auth_passwordCallback toy_keys demo_login_gateway (fun _ => "") (fun _ => "id") (fun _ => 0%Z) login_none "team.web" "s3cret".
Definition login_result : authenticationResult :=
  unwrap (mkAuthResult anonymousInfo "" "") login_outcome.2.

Lemma demo_login :
  rtc (@handshake_step toy_keys demo_login_gateway (pg_methods demo_prepared) (fun _ => "") (fun _ => "id") (fun _ => 0%Z))
    (Negotiating demo_start) (Established login_outcome.1 login_result).
Proof.
  eapply rtc_l.
  - eapply (hs_none _ _ _ _ _ _ login_meta login_none (Ok tt)); vm_compute; reflexivity.
  - apply rtc_once. apply (hs_password _ _ _ _ _ _ "team.web" "s3cret" login_outcome.1 login_result);
      vm_compute; reflexivity.
Qed.

Lemma access_connection_confined_witness :
  (auth_target <$> conn_authenticated (hk_ctx login_outcome.1)) =
    Some (Bind (simple_pod "team" "web-0" "u0" ["app"]) "app") ∧
  ∃ tgt, confined (PolicyCache_Get (runtime_cache access_options demo_caches)) (Some (runtime_pods demo_caches))
    (runtime_policy access_options) (resolve_input (hk_ctx login_outcome.1) (ar_info login_result)) tgt.
Proof.
  split; [vm_compute; reflexivity|].
  destruct (@access_connection_confined toy_keys access_options demo_caches no_problems (fun _ _ => true) 0 (fun _ => 0%Z)
    no_url no_http no_post (Err (EExternal "unused")) DenyAll no_pod (fun _ => "") (fun _ => "id") (fun _ => 0%Z)
    demo_deps demo_prepared (mkResolverState newStrategySelector []) demo_start login_outcome.1 login_result)
    as (tgt & m & _ & _ & Hc).
  - intros ns sel objects pod. cbn. intros [= <-] Hin. apply list_elem_of_singleton in Hin. by injection Hin as ->.
  - done.
  - exact demo_assembled.
  - by vm_compute.
  - exact demo_login.
  - left. by vm_compute.
  - exists tgt. exact Hc.
Defined.

(** Embedders may supply their own authorizer: it runs behind the limits all the same. *)
Theorem custom_authorizer_guarded `{SSHKeys} DNS1123Problems opts deps modes patterns p a req reason err :
  run_prepare DNS1123Problems opts deps modes patterns = Ok p →
  dep_Authorizer deps = Some (OtherAuthorizer a) → pg_authz p req = (DecisionAllow, reason, err) →
  ∃ limits, parseCapabilities (Capabilities (Policy_Limits opts)) = Ok limits ∧
    within (mkPolicyLimits limits (LocalForwardDestinations (Policy_Limits opts))
              (RemoteForwardBinds (Policy_Limits opts)) false) req.
Proof.
  unfold run_prepare. intros (methods & _ & ([] & _ & ([] & _ & Hp)%result_bind_Ok)%result_bind_Ok)%result_bind_Ok Ha Hreq.
  rewrite Ha in Hp. destruct (dep_Authenticator deps); [|done]. destruct (dep_Resolver deps); [|done].
  apply result_bind_Ok in Hp as (g & Hg & [= <-]). simpl in Hreq.
  destruct (withPolicyGuards opts a) as [g'|] eqn:Hw; [|done]. injection Hg as ->.
  apply withPolicyGuards_Ok in Hw as (limits & defaults & Hl & _ & Hcases).
  exists limits. split; [done|]. destruct (Hcases req) as [(? & _)|(_ & x & Hr)]; [done|congruence].
Qed.

(** A webhook answer is taken only from a response in the 200s. *)
Theorem webhook_post_success {A} marshal newRequest do (decode : string → result A) c out :
  Post marshal newRequest do (Some decode) c = Ok out ↔
  ∃ data resp a, marshal = Ok data ∧ newRequest (wc_server c) data = Ok () ∧ do data = Ok resp ∧
    (200 ≤ resp_StatusCode resp < 300)%Z ∧ decode (resp_Body resp) = Ok a ∧ out = Some a.
Proof.
  unfold Post. split.
  - destruct marshal as [data|]; [|done]. destruct (newRequest _ _) as [[]|] eqn:Hn; [|done].
    destruct (do data) as [resp|] eqn:Hd; [|done]. repeat case_bool_decide; simpl; try done.
    destruct (decode _) as [a|] eqn:Ha; [|done]. intros [= <-]. exists data, resp, a. split_and!; (done || lia).
  - intros (data & resp & a & -> & -> & -> & [H1 H2] & Ha & ->). rewrite !bool_decide_eq_false_2 by lia.
    simpl. by rewrite Ha.
Qed.
