(* ===== verification/GatewayServer.v ===== *)
(** Model of [src/pkg/gateway/server.go] ([serveSSH], [handleConnection]), of the concurrent part of
    [RunWithDependencies] in [gateway.go] and of [startConnectionAudit] in [connection_audit.go]: the
    life of every connection from [Accept] to its last audit event, and the end of the gateway.

    One connection is a goroutine with a phase, which runs the handshake of [Handshake] and then one
    goroutine for the global requests and one per channel; the steps of its deferred function are
    steps of their own.  The server is the accept loop, its deferred function and the connections; the
    gateway is an error group of the server, the metrics server and the goroutine that shuts both
    down.  Contexts propagate from parent to child in a step of their own, and the functions
    registered with [AfterFunc] run in a step of their own. *)

From S2P Require Import Prelude GoStrings GoStrconv Wildcard Kube Target Strategy Authn AccessStore AccessResolver Options Authz SessionPolicy AuditLog Operation Handshake.

(** ** A connection *)

Inductive connPhase :=
| ConnAccepted | ConnHandshake | ConnServing
| ConnServerClose | ConnCancel | ConnClose | ConnStopHook | ConnProtocol | ConnWait | ConnFinish | ConnDone.
#[export] Instance connPhase_eq_dec : EqDecision connPhase.
Proof. solve_decision. Defined.

(** What a connection records: events of its awaited goroutines, events of goroutines that nobody waits
    for, the end of an established connection in the metrics, and the end event. *)
Inductive connEffect :=
| ConnHandler (e : Event)
| ConnDetached (e : Event)
| ConnectionClosed (method : string)
| ConnEnd (e : Event).

Section Server.
Context `{SSHKeys}.

(** [cn_loop] is the goroutine of the global requests, [cn_handlers] the number of channel handlers,
    [cn_hook] the function that closes the connection when the context ends, [cn_started] the time the
    audit state keeps, [cn_log] what was recorded after the handshake.  [cn_detached] counts the goroutines
    that the protocol has started outside the [handlers] group ([serveRemoteForward] of [podssh], the
    goroutines of an upstream in [sshproxy]), [cn_expired] the timer callbacks that found the policy
    expired and have not yet called [Close]. *)
Record sshConn := mkSshConn {
  cn_phase : connPhase;
  cn_progress : progress;
  cn_cancelled : bool;
  cn_hook : bool;
  cn_loop : bool;
  cn_handlers : nat;
  cn_protocolCloses : nat;
  cn_started : Z;
  cn_log : list connEffect;
  cn_detached : nat;
  cn_expired : nat;
}.

Definition progress_state (p : progress) : handshake :=
  match p with Negotiating h => h | Established h _ => h end.
Definition cn_hs (c : sshConn) : handshake := progress_state (cn_progress c).
Definition cn_ctx (c : sshConn) : connectionState := hk_ctx (cn_hs c).
Definition cn_closed (c : sshConn) : bool := closed (hk_conn (cn_hs c)).

Definition progress_conn (p : progress) (f : sessionPolicyConn → sessionPolicyConn) : progress :=
  match p with
  | Negotiating h => Negotiating (set_conn h (f (hk_conn h)))
  | Established h r => Established (set_conn h (f (hk_conn h))) r
  end.

Definition set_connPhase (c : sshConn) (p : connPhase) : sshConn :=
  mkSshConn p (cn_progress c) (cn_cancelled c) (cn_hook c) (cn_loop c) (cn_handlers c) (cn_protocolCloses c)
    (cn_started c) (cn_log c) (cn_detached c) (cn_expired c).
Definition set_progress (c : sshConn) (p : progress) : sshConn :=
  mkSshConn (cn_phase c) p (cn_cancelled c) (cn_hook c) (cn_loop c) (cn_handlers c) (cn_protocolCloses c)
    (cn_started c) (cn_log c) (cn_detached c) (cn_expired c).
Definition set_context (c : sshConn) (cancelled hook : bool) : sshConn :=
  mkSshConn (cn_phase c) (cn_progress c) cancelled hook (cn_loop c) (cn_handlers c) (cn_protocolCloses c)
    (cn_started c) (cn_log c) (cn_detached c) (cn_expired c).
Definition set_handlers (c : sshConn) (loop : bool) (handlers : nat) : sshConn :=
  mkSshConn (cn_phase c) (cn_progress c) (cn_cancelled c) (cn_hook c) loop handlers (cn_protocolCloses c)
    (cn_started c) (cn_log c) (cn_detached c) (cn_expired c).
Definition set_untracked (c : sshConn) (detached expired : nat) : sshConn :=
  mkSshConn (cn_phase c) (cn_progress c) (cn_cancelled c) (cn_hook c) (cn_loop c) (cn_handlers c) (cn_protocolCloses c)
    (cn_started c) (cn_log c) detached expired.
Definition add_effects (c : sshConn) (effects : list connEffect) : sshConn :=
  mkSshConn (cn_phase c) (cn_progress c) (cn_cancelled c) (cn_hook c) (cn_loop c) (cn_handlers c) (cn_protocolCloses c)
    (cn_started c) (cn_log c ++ effects) (cn_detached c) (cn_expired c).

(** [conn.Close()] on the policy connection. *)
Definition close_conn (c : sshConn) : sshConn :=
  set_progress c (progress_conn (cn_progress c) conn_Close).

Context (s : gateway) (enabled : list string) (error_string : error → string).
Context (newID : nat → string) (clock : nat → Z).

(** A connection that the accept loop has handed to its goroutine. *)
Definition accepted_conn (meta : Connection) : sshConn :=
  mkSshConn ConnAccepted
    (Negotiating (mkHandshake (mkConnectionState meta None false "")
       (newSessionPolicyConn (buildGlobalSessionPolicy (gw_opts s)) 0) "" false None false false [] []))
    false false false 0 0 0 [] 0 0.

(** The beginning of [handleConnection]: the context, [startConnectionAudit], the policy connection and
    the function hung on the context. *)
Definition startConnectionAudit (meta : Connection) (connectionID eventID : string) (now : Z)
    : connectionState * Event :=
  let ctx := mkConnectionState meta None false connectionID in
  (ctx, connectionEvent ctx eventID now "connection.start").
Definition conn_begin (c : sshConn) (connectionID eventID : string) (now : Z) : sshConn :=
  let '(ctx, event) := startConnectionAudit (conn_metadata (cn_ctx c)) connectionID eventID now in
  mkSshConn ConnHandshake
    (Negotiating (mkHandshake ctx (newSessionPolicyConn (buildGlobalSessionPolicy (gw_opts s)) now) "" false None
                    false false [] [HandshakeAudit event]))
    false true false 0 0 now [] 0 0.

(** [NewServerConn] has succeeded: [connectionEstablished], and the goroutine of the requests starts. *)
Definition conn_establish (c : sshConn) (h : handshake) (r : authenticationResult) : sshConn :=
  mkSshConn ConnServing (Established (connectionEstablished newID clock h (ar_credential r)) r)
    (cn_cancelled c) (cn_hook c) true (cn_handlers c) (cn_protocolCloses c) (cn_started c) (cn_log c)
    (cn_detached c) (cn_expired c).

(** The deferred function, after [cancel], [Close] and [stop]: closing the protocol of an authenticated
    connection, and what is recorded once the handlers have ended. *)
Definition close_protocol (c : sshConn) : sshConn :=
  mkSshConn ConnWait (cn_progress c) (cn_cancelled c) (cn_hook c) (cn_loop c) (cn_handlers c)
    (match conn_authenticated (cn_ctx c) with Some _ => S (cn_protocolCloses c) | None => cn_protocolCloses c end)
    (cn_started c) (cn_log c) (cn_detached c) (cn_expired c).
Definition finishAudit (c : sshConn) (eventID : string) (now : Z) : Event :=
  let e := connectionEvent (cn_ctx c) eventID now "connection.end" in
  let result := if conn_established (cn_ctx c) then "success" else "rejected" in
  with_actor e (ev_Actor e) (ev_Access e) (ev_Target e)
    (mkOutcome result "" "" None (Z.quot (now - cn_started c) 1000000)).
Definition conn_finish (c : sshConn) (eventID : string) (now : Z) : sshConn :=
  let closedMetric :=
    match conn_established (cn_ctx c), conn_authenticated (cn_ctx c) with
    | true, Some r => [ConnectionClosed (info_Method (auth_info r))]
    | _, _ => []
    end in
  set_connPhase (add_effects c (closedMetric ++ [ConnEnd (finishAudit c eventID now)])) ConnDone.

(** What the connection does by itself; [parent] says whether the server's context has ended.  The
    handlers end in a step of their own. *)
Inductive conn_own_step (parent : bool) : sshConn → sshConn → Prop :=
| co_begin c connectionID eventID now :
    cn_phase c = ConnAccepted → conn_own_step parent c (conn_begin c connectionID eventID now)
| co_propagate c :
    parent = true → cn_phase c ≠ ConnAccepted → cn_cancelled c = false →
    conn_own_step parent c (set_context c true (cn_hook c))
| co_hook c :
    cn_cancelled c = true → cn_hook c = true →
    conn_own_step parent c (close_conn (set_context c true false))
| co_handshake_closed c :
    cn_phase c = ConnHandshake → cn_closed c = true → conn_own_step parent c (set_connPhase c ConnCancel)
| co_establish c h r :
    cn_phase c = ConnHandshake → cn_progress c = Established h r → conn_own_step parent c (conn_establish c h r)
| co_channels_closed c :
    cn_phase c = ConnServing → cn_closed c = true → conn_own_step parent c (set_connPhase c ConnServerClose)
| co_server_close c :
    cn_phase c = ConnServerClose → conn_own_step parent c (set_connPhase (close_conn c) ConnCancel)
| co_cancel c :
    cn_phase c = ConnCancel → conn_own_step parent c (set_connPhase (set_context c true (cn_hook c)) ConnClose)
| co_close c :
    cn_phase c = ConnClose → conn_own_step parent c (set_connPhase (close_conn c) ConnStopHook)
| co_stop c :
    cn_phase c = ConnStopHook → conn_own_step parent c (set_connPhase (set_context c (cn_cancelled c) false) ConnProtocol)
| co_protocol c : cn_phase c = ConnProtocol → conn_own_step parent c (close_protocol c)
| co_loop_closed c :
    cn_loop c = true → cn_closed c = true → conn_own_step parent c (set_handlers c false (cn_handlers c))
| co_handler_end c n :
    cn_handlers c = S n → conn_own_step parent c (set_handlers c (cn_loop c) n)
| co_wait c :
    cn_phase c = ConnWait → cn_loop c = false → cn_handlers c = 0 → conn_own_step parent c (set_connPhase c ConnFinish)
| co_finish c eventID now :
    cn_phase c = ConnFinish → conn_own_step parent c (conn_finish c eventID now).

(** A callback of the policy timer: the region under the mutex, and the call of [Close] after it. *)
Definition timer_check (c : sshConn) (now : Z) : sshConn :=
  let c' := set_progress c (progress_conn (cn_progress c) (fun k => (onTimer_locked k now).2)) in
  if (onTimer_locked (hk_conn (cn_hs c)) now).1
  then set_untracked c' (cn_detached c) (S (cn_expired c)) else c'.

(** What its peer, its timer, its handlers and the goroutines they start make happen.  Only the loop of
    the requests and the channel handlers are awaited; a goroutine outside the group runs on, and
    records, in every phase. *)
Inductive conn_env_step : sshConn → sshConn → Prop :=
| ce_handshake c p :
    cn_phase c = ConnHandshake → handshake_step s enabled error_string newID clock (cn_progress c) p →
    conn_env_step c (set_progress c p)
| ce_io c now : cn_phase c ≠ ConnAccepted → conn_env_step c (set_progress c (progress_conn (cn_progress c) (fun k => touch k now)))
| ce_timer c now : cn_phase c ≠ ConnAccepted → conn_env_step c (timer_check c now)
| ce_timer_close c n :
    cn_expired c = S n → conn_env_step c (close_conn (set_untracked c (cn_detached c) n))
| ce_fail c : cn_phase c = ConnHandshake → conn_env_step c (set_connPhase c ConnCancel)
| ce_end c : cn_phase c = ConnServing → conn_env_step c (set_connPhase c ConnServerClose)
| ce_requests_end c : cn_loop c = true → conn_env_step c (set_handlers c false (cn_handlers c))
| ce_channel c : cn_phase c = ConnServing → conn_env_step c (set_handlers c (cn_loop c) (S (cn_handlers c)))
| ce_handler_event c e :
    cn_loop c = true ∨ 0 < cn_handlers c → conn_env_step c (add_effects c [ConnHandler e])
| ce_detach c :
    cn_loop c = true ∨ 0 < cn_handlers c ∨ 0 < cn_detached c →
    conn_env_step c (set_untracked c (S (cn_detached c)) (cn_expired c))
| ce_detached_event c e : 0 < cn_detached c → conn_env_step c (add_effects c [ConnDetached e])
| ce_detached_end c n : cn_detached c = S n → conn_env_step c (set_untracked c n (cn_expired c)).

(** ** The server: [serveSSH] *)

Inductive sshPhase :=
| SshAccepting
| SshCancel (r : option error) | SshClose (r : option error) | SshStopHook (r : option error) | SshWait (r : option error)
| SshReturned (r : option error).

Record sshServer := mkSshServer {
  sv_cancelled : bool;
  sv_open : bool;
  sv_hook : bool;
  sv_phase : sshPhase;
  sv_conns : list sshConn;
}.
Definition sv_with (v : sshServer) (cancelled open hook : bool) (p : sshPhase) : sshServer :=
  mkSshServer cancelled open hook p (sv_conns v).
Definition sv_set_conn (v : sshServer) (n : nat) (c : sshConn) : sshServer :=
  mkSshServer (sv_cancelled v) (sv_open v) (sv_hook v) (sv_phase v) (<[n := c]> (sv_conns v)).
Definition close_listener (v : sshServer) : sshServer := sv_with v (sv_cancelled v) false (sv_hook v) (sv_phase v).

Definition serveSSH_start : sshServer := mkSshServer false true true SshAccepting [].
Definition serveSSH_accept (v : sshServer) (meta : Connection) : sshServer :=
  mkSshServer (sv_cancelled v) (sv_open v) (sv_hook v) (sv_phase v) (sv_conns v ++ [accepted_conn meta]).
Definition serveSSH_acceptFailed (v : sshServer) (err : error) : sshServer :=
  sv_with v (sv_cancelled v) (sv_open v) (sv_hook v) (SshCancel (if sv_cancelled v then None else Some err)).

Inductive server_own (parent : bool) : sshServer → sshServer → Prop :=
| so_propagate v :
    parent = true → sv_cancelled v = false → server_own parent v (sv_with v true (sv_open v) (sv_hook v) (sv_phase v))
| so_hook v :
    sv_cancelled v = true → sv_hook v = true → server_own parent v (sv_with v true false false (sv_phase v))
| so_accept_closed v :
    sv_phase v = SshAccepting → sv_open v = false →
    server_own parent v (serveSSH_acceptFailed v (ESentinel net_ErrClosed))
| so_cancel v r :
    sv_phase v = SshCancel r → server_own parent v (sv_with v true (sv_open v) (sv_hook v) (SshClose r))
| so_close v r :
    sv_phase v = SshClose r → server_own parent v (sv_with v (sv_cancelled v) false (sv_hook v) (SshStopHook r))
| so_stop v r :
    sv_phase v = SshStopHook r → server_own parent v (sv_with v (sv_cancelled v) (sv_open v) false (SshWait r))
| so_wait v r :
    sv_phase v = SshWait r → (∀ c, c ∈ sv_conns v → cn_phase c = ConnDone) →
    server_own parent v (sv_with v (sv_cancelled v) (sv_open v) (sv_hook v) (SshReturned r))
| so_conn v n c c' :
    sv_conns v !! n = Some c → conn_own_step (sv_cancelled v) c c' → server_own parent v (sv_set_conn v n c').

Inductive server_env : sshServer → sshServer → Prop :=
| se_accept v meta : sv_phase v = SshAccepting → sv_open v = true → server_env v (serveSSH_accept v meta)
| se_accept_failed v err : sv_phase v = SshAccepting → server_env v (serveSSH_acceptFailed v err)
| se_conn v n c c' : sv_conns v !! n = Some c → conn_env_step c c' → server_env v (sv_set_conn v n c').

(** ** The gateway: [RunWithDependencies] from the error group on *)

Inductive metricsPhase := MetricsOff | MetricsServing | MetricsEnded.
Inductive shutPhase := ShutWaiting | ShutHTTP | ShutEnded.
Inductive runPhase :=
| RunWaiting | RunCloseListener (r : option error) | RunStop (r : option error) | RunReturned (r : option error).

(** [rn_ctx] is the error of the context given to [Run], [rn_group] whether the group's context has
    ended, [rn_ssh] the end of the server's goroutine, [rn_err] the group's first error, [rn_stops]
    how often the [Stop] of the dependencies was called. *)
Record gatewayRun := mkGatewayRun {
  rn_ctx : option error;
  rn_group : bool;
  rn_server : sshServer;
  rn_ssh : bool;
  rn_metrics : metricsPhase;
  rn_http : bool;
  rn_shutdown : shutPhase;
  rn_err : option error;
  rn_main : runPhase;
  rn_stops : nat;
}.
Definition run_start (metrics : bool) : gatewayRun :=
  mkGatewayRun None false serveSSH_start false (if metrics then MetricsServing else MetricsOff) false ShutWaiting None RunWaiting 0.

Definition rn_with_server (g : gatewayRun) (v : sshServer) : gatewayRun :=
  mkGatewayRun (rn_ctx g) (rn_group g) v (rn_ssh g) (rn_metrics g) (rn_http g) (rn_shutdown g) (rn_err g) (rn_main g) (rn_stops g).
(** A function of the group returns: the first error is kept and ends the group's context. *)
Definition group_return (g : gatewayRun) (ssh : bool) (metrics : metricsPhase) (r : option error) : gatewayRun :=
  mkGatewayRun (rn_ctx g) (rn_group g || bool_decide (is_Some r)) (rn_server g) ssh metrics (rn_http g) (rn_shutdown g)
    (match rn_err g with Some e => Some e | None => r end) (rn_main g) (rn_stops g).
Definition group_result (g : gatewayRun) (r : option error) : option error := if rn_group g then None else r.

Definition shutdown_listener (g : gatewayRun) : gatewayRun :=
  mkGatewayRun (rn_ctx g) (rn_group g) (close_listener (rn_server g)) (rn_ssh g) (rn_metrics g) (rn_http g) ShutHTTP
    (rn_err g) (rn_main g) (rn_stops g).
Definition shutdownHTTPServer (g : gatewayRun) : gatewayRun :=
  mkGatewayRun (rn_ctx g) (rn_group g) (rn_server g) (rn_ssh g) (rn_metrics g)
    (match rn_metrics g with MetricsOff => rn_http g | _ => true end) ShutEnded (rn_err g) (rn_main g) (rn_stops g).
Definition run_waited (g : gatewayRun) : gatewayRun :=
  mkGatewayRun (rn_ctx g) true (rn_server g) (rn_ssh g) (rn_metrics g) (rn_http g) (rn_shutdown g) (rn_err g)
    (RunCloseListener (match rn_err g with Some e => Some e | None => rn_ctx g end)) (rn_stops g).
Definition run_closeListener (g : gatewayRun) (r : option error) : gatewayRun :=
  mkGatewayRun (rn_ctx g) (rn_group g) (close_listener (rn_server g)) (rn_ssh g) (rn_metrics g) (rn_http g) (rn_shutdown g)
    (rn_err g) (RunStop r) (rn_stops g).

Context (hasStop : bool).
Definition run_stop (g : gatewayRun) (r : option error) : gatewayRun :=
  mkGatewayRun (rn_ctx g) (rn_group g) (rn_server g) (rn_ssh g) (rn_metrics g) (rn_http g) (rn_shutdown g)
    (rn_err g) (RunReturned r) (if hasStop then S (rn_stops g) else rn_stops g).

Inductive run_own_step : gatewayRun → gatewayRun → Prop :=
| ro_propagate g :
    rn_ctx g ≠ None → rn_group g = false →
    run_own_step g (mkGatewayRun (rn_ctx g) true (rn_server g) (rn_ssh g) (rn_metrics g) (rn_http g) (rn_shutdown g)
                      (rn_err g) (rn_main g) (rn_stops g))
| ro_server g v : server_own (rn_group g) (rn_server g) v → run_own_step g (rn_with_server g v)
| ro_ssh g r :
    sv_phase (rn_server g) = SshReturned r → rn_ssh g = false →
    run_own_step g (group_return g true (rn_metrics g) (group_result g r))
| ro_metrics g :
    rn_metrics g = MetricsServing → rn_http g = true → run_own_step g (group_return g (rn_ssh g) MetricsEnded None)
| ro_shutdown_listener g :
    rn_shutdown g = ShutWaiting → rn_group g = true → run_own_step g (shutdown_listener g)
| ro_shutdown_http g : rn_shutdown g = ShutHTTP → run_own_step g (shutdownHTTPServer g)
| ro_waited g :
    rn_main g = RunWaiting → rn_ssh g = true → rn_metrics g ≠ MetricsServing → rn_shutdown g = ShutEnded →
    run_own_step g (run_waited g)
| ro_close g r : rn_main g = RunCloseListener r → run_own_step g (run_closeListener g r)
| ro_stop g r : rn_main g = RunStop r → run_own_step g (run_stop g r).

Inductive run_env_step : gatewayRun → gatewayRun → Prop :=
| re_cancel g e :
    rn_ctx g = None →
    run_env_step g (mkGatewayRun (Some e) (rn_group g) (rn_server g) (rn_ssh g) (rn_metrics g) (rn_http g) (rn_shutdown g)
                      (rn_err g) (rn_main g) (rn_stops g))
| re_server g v : server_env (rn_server g) v → run_env_step g (rn_with_server g v)
| re_metrics_failed g e :
    rn_metrics g = MetricsServing →
    run_env_step g (group_return g (rn_ssh g) MetricsEnded (group_result g (Some e))).

Definition run_step_all (g g' : gatewayRun) : Prop := run_own_step g g' ∨ run_env_step g g'.
End Server.
