(* ===== verification/GatewayServerProps.v ===== *)
(** Properties of the server: what every connection has done when it is over, what holds when the
    gateway stops its dependencies and returns, and that it does return. *)

From S2P Require Import Prelude Runs GoStrings GoStrconv Wildcard Kube Target Strategy Authn AccessStore AccessResolver Options Authz SessionPolicy AuditLog Operation Handshake HandshakeProps GatewayServer.

(** ** What the handshake leaves alone *)

Definition opened_methods (l : list handshakeEffect) : list string :=
  omap (fun e => match e with ConnectionOpened m => Some m | _ => None end) l.
Definition closed_methods (l : list connEffect) : list string :=
  omap (fun e => match e with ConnectionClosed m => Some m | _ => None end) l.

Lemma opened_app l k : opened_methods (l ++ k) = opened_methods l ++ opened_methods k.
Proof. apply omap_app. Qed.

Lemma closed_ApplyPolicy c p now : closed c = true → closed (ApplyPolicy c p now) = true.
Proof. intros Hc. unfold ApplyPolicy, ApplyPolicy_locked, close_if_expired. by rewrite Hc. Qed.
Lemma closed_onTimer_locked c now : closed c = true → closed (onTimer_locked c now).2 = true.
Proof. intros Hc. unfold onTimer_locked. by rewrite Hc. Qed.
Lemma closed_conn_Close c : closed (conn_Close c) = true.
Proof. unfold conn_Close. by destruct (closed c) eqn:Hc. Qed.

Section Quiet.
Context `{SSHKeys} (s : gateway) (enabled : list string) (error_string : error → string).
Context (newID : nat → string) (clock : nat → Z).

(** The handshake does not establish, opens nothing in the metrics and never reopens the connection. *)
Definition quiet (h h' : handshake) : Prop :=
  conn_established (hk_ctx h') = conn_established (hk_ctx h) ∧
  opened_methods (hk_log h') = opened_methods (hk_log h) ∧
  (closed (hk_conn h) = true → closed (hk_conn h') = true).

Lemma quiet_trans h1 h2 h3 : quiet h1 h2 → quiet h2 h3 → quiet h1 h3.
Proof. intros (A1 & A2 & A3) (B1 & B2 & B3). split_and!; [congruence|congruence|auto]. Qed.

Lemma emit_quiet h e : opened_methods e = [] → quiet h (emit h e).
Proof. intros He. split_and!; [done| |done]. simpl. by rewrite opened_app, He, app_nil_r. Qed.

Lemma recordAuthentication_quiet h method fp result info err :
  quiet h (recordAuthentication newID clock h method fp result info err).
Proof. by apply emit_quiet. Qed.

Lemma acceptAuthenticated_quiet h info fp credential :
  quiet h (acceptAuthenticated s error_string newID clock h info fp credential).1.
Proof.
  unfold acceptAuthenticated. destruct (gw_resolve s _); [|by apply emit_quiet].
  destruct (resolveSessionPolicy _ _ _ _); [|eapply quiet_trans; by apply emit_quiet].
  destruct (selectConnectionProtocol s a).
  - split_and!; simpl; [done|by rewrite opened_app, app_nil_r|apply closed_ApplyPolicy].
  - split_and!; simpl; [done|by rewrite !opened_app, !app_nil_r|apply closed_ApplyPolicy].
Qed.

Lemma auth_finish_quiet h r : quiet h (auth_finish s error_string newID clock h r).1.
Proof.
  unfold auth_finish. eapply quiet_trans; [apply (recordAuthentication_quiet h (ar_credential r) (ar_fingerprint r) ResultSuccess (Some (ar_info r)) None)|].
  pose proof (acceptAuthenticated_quiet (set_reported (recordAuthentication newID clock h (ar_credential r) (ar_fingerprint r)
    ResultSuccess (Some (ar_info r)) None) (hk_fingerprint h) true) (ar_info r) (ar_fingerprint r) (ar_credential r)) as Ha.
  simpl in *. by destruct (acceptAuthenticated _ _ _ _ _ _ _ _) as [h' []].
Qed.

Lemma handshake_step_quiet p p' :
  handshake_step s enabled error_string newID clock p p' → quiet (progress_state p) (progress_state p').
Proof.
  destruct 1 as [h m h' r Hu Hc|h user key h' r Hu Hk Hc|h user key r h' Hu Hin Hc|h user key r h' e Hu Hin Hc
    |h user value h' r Hu Hk Hc|h user value h' e Hu Hk Hc|h method err]; simpl.
  - unfold noClientAuthCallback in Hc. repeat case_match; by simplify_eq/=.
  - unfold publicKeyCallback in Hc. repeat case_match; by simplify_eq/=.
  - pose proof (auth_finish_quiet h r) as Hq. by rewrite Hc in Hq.
  - pose proof (auth_finish_quiet h r) as Hq. by rewrite Hc in Hq.
  - unfold auth_passwordCallback in Hc. destruct (AuthenticateBasic _ _ _); [|done].
    pose proof (auth_finish_quiet (set_reported h (hk_fingerprint h) false) (mkAuthResult a "" CredentialPassword)) as Hq.
    by rewrite Hc in Hq.
  - unfold auth_passwordCallback in Hc. destruct (AuthenticateBasic _ _ _); [|by injection Hc as <- _].
    pose proof (auth_finish_quiet (set_reported h (hk_fingerprint h) false) (mkAuthResult a "" CredentialPassword)) as Hq.
    by rewrite Hc in Hq.
  - unfold authLogCallback. destruct err as [e|]; [|done]. destruct (_ || _); [done|].
    eapply quiet_trans; [by apply recordAuthentication_quiet|]. by apply emit_quiet.
Qed.

(** Identity is published exactly when the handshake has its result. *)
Definition result_published (p : progress) : Prop :=
  match p with
  | Negotiating h => conn_authenticated (hk_ctx h) = None
  | Established h _ => is_Some (conn_authenticated (hk_ctx h))
  end.

Lemma handshake_step_published p p' :
  handshake_step s enabled error_string newID clock p p' → result_published p → result_published p'.
Proof.
  destruct 1 as [h m h' r Hu Hc|h user key h' r Hu Hk Hc|h user key r h' Hu Hin Hc|h user key r h' e Hu Hin Hc
    |h user value h' r Hu Hk Hc|h user value h' e Hu Hk Hc|h method err]; cbn [result_published]; intros Hp.
  - unfold noClientAuthCallback in Hc. repeat case_match; by simplify_eq/=.
  - unfold publicKeyCallback in Hc. repeat case_match; by simplify_eq/=.
  - apply auth_finish_spec in Hc as (_ & tgt & p & _ & _ & _ & -> & _). by eexists.
  - apply auth_finish_spec in Hc as (-> & _). done.
  - unfold auth_passwordCallback in Hc. destruct (AuthenticateBasic _ _ _); [|done].
    apply auth_finish_spec in Hc as (_ & tgt & p & _ & _ & _ & -> & _). by eexists.
  - unfold auth_passwordCallback in Hc. destruct (AuthenticateBasic _ _ _); [|by injection Hc as <- _].
    apply auth_finish_spec in Hc as (-> & _). done.
  - destruct (authLog_core newID clock h method err) as [-> _]. done.
Qed.
End Quiet.

(** ** A connection *)

Section Connection.
Context `{SSHKeys} (s : gateway) (enabled : list string) (error_string : error → string).
Context (newID : nat → string) (clock : nat → Z).

(** The order of the phases. *)
Definition conn_rank (p : connPhase) : nat :=
  match p with
  | ConnAccepted => 0 | ConnHandshake => 1 | ConnServing => 2 | ConnServerClose => 3 | ConnCancel => 4
  | ConnClose => 5 | ConnStopHook => 6 | ConnProtocol => 7 | ConnWait => 8 | ConnFinish => 9 | ConnDone => 10
  end.

(** What the connection records at its end. *)
Definition conn_ending (c : sshConn) (tail : list connEffect) : Prop :=
  ∃ eventID now,
    tail = (match conn_established (cn_ctx c), conn_authenticated (cn_ctx c) with
            | true, Some r => [ConnectionClosed (info_Method (auth_info r))]
            | _, _ => []
            end) ++ [ConnEnd (finishAudit c eventID now)].

(** Events of the goroutines of a connection, and of those that nobody waits for. *)
Definition detached_event (x : connEffect) : Prop := ∃ e, x = ConnDetached e.
Definition running_event (x : connEffect) : Prop := (∃ e, x = ConnHandler e) ∨ detached_event x.

Record sshConn_inv (c : sshConn) : Prop := mkConnInv {
  ci_published : result_published (cn_progress c);
  ci_early : conn_rank (cn_phase c) < 2 → conn_established (cn_ctx c) = false;
  ci_serving : 2 ≤ conn_rank (cn_phase c) ≤ 3 → conn_established (cn_ctx c) = true;
  ci_opened : opened_methods (hk_log (cn_hs c)) =
    if conn_established (cn_ctx c)
    then match conn_authenticated (cn_ctx c) with Some r => [info_Method (auth_info r)] | None => [] end else [];
  ci_authenticated : conn_established (cn_ctx c) = true → is_Some (conn_authenticated (cn_ctx c));
  ci_quiet : conn_established (cn_ctx c) = false → cn_loop c = false ∧ cn_handlers c = 0 ∧ cn_detached c = 0;
  ci_hook : 1 ≤ conn_rank (cn_phase c) ≤ 6 → cn_hook c = false → cn_closed c = true;
  ci_unhooked : conn_rank (cn_phase c) = 0 ∨ 7 ≤ conn_rank (cn_phase c) → cn_hook c = false;
  ci_cancelled : 5 ≤ conn_rank (cn_phase c) → cn_cancelled c = true;
  ci_closed : 6 ≤ conn_rank (cn_phase c) → cn_closed c = true;
  ci_open : conn_rank (cn_phase c) < 8 → cn_protocolCloses c = 0;
  ci_protocol : 8 ≤ conn_rank (cn_phase c) →
    cn_protocolCloses c = match conn_authenticated (cn_ctx c) with Some _ => 1 | None => 0 end;
  ci_ended : 9 ≤ conn_rank (cn_phase c) → cn_loop c = false ∧ cn_handlers c = 0;
  ci_log : conn_rank (cn_phase c) < 10 → Forall running_event (cn_log c) ∧
    (conn_established (cn_ctx c) = false → cn_log c = []);
  ci_done : cn_phase c = ConnDone → ∃ events tail after, cn_log c = events ++ tail ++ after ∧
    Forall running_event events ∧ conn_ending c tail ∧ Forall detached_event after ∧
    (conn_established (cn_ctx c) = false → events = [] ∧ after = []);
}.

Lemma accepted_conn_inv meta : sshConn_inv (accepted_conn s meta).
Proof. split; simpl; try done; lia. Qed.

Lemma conn_begin_inv c connectionID eventID now : sshConn_inv (conn_begin s c connectionID eventID now).
Proof. split; simpl; try done; try lia; naive_solver lia. Qed.

(** A change of the policy connection that does not reopen it. *)
Lemma policy_step_inv c f :
  sshConn_inv c → (∀ k, closed k = true → closed (f k) = true) →
  sshConn_inv (set_progress c (progress_conn (cn_progress c) f)).
Proof.
  intros [I1 I2 I3 I4 I5 I6 I7 I8 I9 I10 I11 I12 I13 I14 I15] Hf.
  unfold cn_ctx, cn_closed, cn_hs in *. destruct c as [ph [h|h r] ca hk lp n pc st lg dt ex]; simpl in *;
    split; unfold cn_ctx, cn_closed, cn_hs, conn_ending in *; simpl in *; eauto.
Qed.
Lemma close_conn_inv c : sshConn_inv c → sshConn_inv (close_conn c).
Proof. intros Hc. apply policy_step_inv; [done|]. intros k Hk. apply closed_conn_Close. Qed.

Lemma close_conn_closed c : cn_closed (close_conn c) = true.
Proof. unfold close_conn, cn_closed, cn_hs. destruct (cn_progress c); simpl; apply closed_conn_Close. Qed.
Lemma close_conn_ctx c : cn_ctx (close_conn c) = cn_ctx c.
Proof. unfold close_conn, cn_ctx, cn_hs. by destruct (cn_progress c). Qed.

Ltac conn_fields :=
  split; unfold conn_ending, cn_ctx, cn_closed, cn_hs in *; simpl in *; try done; try lia; intros;
  first [by auto | by auto with lia | by (exfalso; lia) | idtac].

Lemma conn_finish_inv c eventID now :
  sshConn_inv c → cn_phase c = ConnFinish → sshConn_inv (conn_finish c eventID now).
Proof.
  intros [I1 I2 I3 I4 I5 I6 I7 I8 I9 I10 I11 I12 I13 I14 I15] Hp. rewrite Hp in *. simpl in *. conn_fields.
  destruct I14 as [Hev Hnil]; [lia|]. eexists (cn_log c), _, []. rewrite app_nil_r.
  split_and!; [reflexivity|done|by exists eventID, now|constructor|]. intros He. by split; [apply Hnil|].
Qed.

Lemma conn_establish_inv c h r :
  sshConn_inv c → cn_phase c = ConnHandshake → cn_progress c = Established h r →
  sshConn_inv (conn_establish newID clock c h r).
Proof.
  intros [I1 I2 I3 I4 I5 I6 I7 I8 I9 I10 I11 I12 I13 I14 I15] Hp Hpr. rewrite Hp in *.
  unfold cn_ctx, cn_closed, cn_hs in *. rewrite Hpr in *. simpl in *. destruct I1 as [a Ha].
  specialize (I2 ltac:(lia)). rewrite I2 in I4. unfold conn_establish, connectionEstablished. simpl. rewrite Ha.
  split; unfold cn_ctx, cn_closed, cn_hs; simpl; try done; try lia; auto with lia.
  - by rewrite opened_app, I4, Ha.
  - intros _. destruct I14 as [Hev _]; [lia|]. done.
Qed.

Lemma handlers_end_inv c loop n :
  sshConn_inv c → (loop = true → cn_loop c = true) → n ≤ cn_handlers c → sshConn_inv (set_handlers c loop n).
Proof.
  intros [I1 I2 I3 I4 I5 I6 I7 I8 I9 I10 I11 I12 I13 I14 I15] Hl Hn.
  assert (cn_loop c = false → cn_handlers c = 0 → loop = false ∧ n = 0) as Hend.
  { intros Hb Hz. split; [destruct loop; [by rewrite Hl in Hb by done|done]|lia]. }
  conn_fields; [destruct I6 as (? & ? & ?); [done|]; naive_solver|destruct I13 as [? ?]; [lia|]; naive_solver].
Qed.

Lemma handshake_inv c p :
  sshConn_inv c → cn_phase c = ConnHandshake → handshake_step s enabled error_string newID clock (cn_progress c) p →
  sshConn_inv (set_progress c p).
Proof.
  intros [I1 I2 I3 I4 I5 I6 I7 I8 I9 I10 I11 I12 I13 I14 I15] Hp Hs.
  pose proof (handshake_step_published _ _ _ _ _ _ _ Hs I1) as Hpub.
  destruct (handshake_step_quiet _ _ _ _ _ _ _ Hs) as (Q1 & Q2 & Q3). rewrite Hp in *.
  specialize (I2 ltac:(simpl; lia)). unfold cn_ctx, cn_hs in I2, I4. rewrite I2 in I4.
  split; unfold conn_ending, cn_ctx, cn_closed, cn_hs in *; simpl; rewrite ?Hp, ?Q1, ?Q2, ?I2, ?I4; simpl; try done; try lia; auto with lia.
  intros _. destruct I14 as [Hev Hnil]; [simpl; lia|]. split; [done|]. intros _. by apply Hnil.
Qed.

Lemma conn_own_inv parent c c' :
  conn_own_step s newID clock parent c c' → sshConn_inv c → sshConn_inv c'.
Proof.
  destruct 1 as [c cid eid now Hp|c Hpar Hp Hca|c Hca Hh|c Hp Hcl|c h r Hp Hpr|c Hp Hcl|c Hp|c Hp|c Hp|c Hp|c Hp|c Hl Hcl
    |c n Hn|c Hp Hl Hn|c eid now Hp]; intros Hinv.
  1: apply conn_begin_inv.
  14: by apply conn_finish_inv.
  all: pose proof Hinv as [I1 I2 I3 I4 I5 I6 I7 I8 I9 I10 I11 I12 I13 I14 I15].
  - conn_fields.
  - pose proof (close_conn_inv c Hinv) as Hcc. pose proof (close_conn_closed c) as Hcl.
    change (sshConn_inv (set_context (close_conn c) true false)). revert Hcc Hcl. generalize (close_conn c).
    clear. intros c [I1 I2 I3 I4 I5 I6 I7 I8 I9 I10 I11 I12 I13 I14 I15] Hcl. conn_fields.
  - rewrite Hp in *. conn_fields.
  - apply conn_establish_inv; done.
  - rewrite Hp in *. conn_fields.
  - pose proof (close_conn_inv c Hinv) as Hcc.
    assert (cn_phase (close_conn c) = ConnServerClose) as Hp' by done. revert Hcc Hp'. generalize (close_conn c).
    clear. intros c [I1 I2 I3 I4 I5 I6 I7 I8 I9 I10 I11 I12 I13 I14 I15] Hp. rewrite Hp in *. conn_fields.
  - rewrite Hp in *. conn_fields.
  - pose proof (close_conn_inv c Hinv) as Hcc. pose proof (close_conn_closed c) as Hcl.
    assert (cn_phase (close_conn c) = ConnClose) as Hp' by done. revert Hcc Hp' Hcl. generalize (close_conn c).
    clear. intros c [I1 I2 I3 I4 I5 I6 I7 I8 I9 I10 I11 I12 I13 I14 I15] Hp Hcl. rewrite Hp in *. conn_fields.
  - rewrite Hp in *. conn_fields.
  - rewrite Hp in *. conn_fields. rewrite I11 by lia. done.
  - by apply handlers_end_inv.
  - apply handlers_end_inv; [done|done|lia].
  - rewrite Hp in *. conn_fields.
Qed.

Lemma detached_established c : sshConn_inv c → 0 < cn_detached c → conn_established (cn_ctx c) = true.
Proof.
  intros Hinv Hpos. apply not_false_iff_true. intros E. destruct (ci_quiet _ Hinv E) as (_ & _ & Hz). lia.
Qed.

Lemma untracked_inv c detached expired :
  sshConn_inv c → (0 < detached → conn_established (cn_ctx c) = true) → sshConn_inv (set_untracked c detached expired).
Proof.
  intros [I1 I2 I3 I4 I5 I6 I7 I8 I9 I10 I11 I12 I13 I14 I15] Hd. conn_fields.
  destruct I6 as (? & ? & ?); [done|]. split_and!; [done..|].
  destruct detached; [done|]. specialize (Hd ltac:(lia)). congruence.
Qed.

(** An event of a goroutine; after the end of the connection only of one that is not awaited. *)
Lemma running_event_inv c x :
  sshConn_inv c → conn_established (cn_ctx c) = true → running_event x →
  conn_rank (cn_phase c) < 10 ∨ detached_event x → sshConn_inv (add_effects c [x]).
Proof.
  intros [I1 I2 I3 I4 I5 I6 I7 I8 I9 I10 I11 I12 I13 I14 I15] He Hx Hwhen.
  split; unfold conn_ending, cn_ctx, cn_closed, cn_hs in *; simpl in *; try done.
  - intros Hr. destruct (I14 Hr) as [Hev _]. split; [|congruence]. apply Forall_app. by split; [|constructor].
  - intros Hd. destruct (I15 Hd) as (events & tail & after & -> & Hev & Hend & Haf & Hn).
    exists events, tail, (after ++ [x]). rewrite <-!app_assoc. split_and!; [done..| |congruence].
    apply Forall_app. split; [done|]. constructor; [|done]. destruct Hwhen as [Hr|?]; [|done].
    rewrite Hd in Hr. simpl in Hr. lia.
Qed.

Lemma conn_env_inv c c' :
  conn_env_step s enabled error_string newID clock c c' → sshConn_inv c → sshConn_inv c'.
Proof.
  destruct 1 as [c p Hp Hs|c now Hp|c now Hp|c n He|c Hp|c Hp|c Hl|c Hp|c e Hrun|c Hrun|c e Hd|c n Hd]; intros Hinv.
  - by eapply handshake_inv.
  - by apply policy_step_inv.
  - unfold timer_check. assert (sshConn_inv (set_progress c (progress_conn (cn_progress c) (fun k => (onTimer_locked k now).2))))
      as Hinv'. { apply policy_step_inv; [done|]. intros k. apply closed_onTimer_locked. }
    case_match; [|done]. apply untracked_inv; [done|]. exact (detached_established _ Hinv').
  - apply close_conn_inv, untracked_inv; [done|]. exact (detached_established _ Hinv).
  - pose proof Hinv as [I1 I2 I3 I4 I5 I6 I7 I8 I9 I10 I11 I12 I13 I14 I15]. rewrite Hp in *. conn_fields.
  - pose proof Hinv as [I1 I2 I3 I4 I5 I6 I7 I8 I9 I10 I11 I12 I13 I14 I15]. rewrite Hp in *. conn_fields.
  - by apply handlers_end_inv.
  - pose proof Hinv as [I1 I2 I3 I4 I5 I6 I7 I8 I9 I10 I11 I12 I13 I14 I15].
    assert (conn_established (cn_ctx c) = true) as He by (apply I3; rewrite Hp; simpl; lia).
    assert (conn_rank (cn_phase c) = 2) as Hr by by rewrite Hp. conn_fields. congruence.
  - assert (conn_rank (cn_phase c) < 9) as Hr.
    { destruct (decide (9 ≤ conn_rank (cn_phase c))) as [Hge|]; [|lia]. destruct (ci_ended _ Hinv Hge) as [Hl Hn].
      rewrite Hl, Hn in Hrun. destruct Hrun; [done|lia]. }
    apply running_event_inv; [done| |left; by exists e|left; lia].
    apply not_false_iff_true. intros E. destruct (ci_quiet _ Hinv E) as (Hl & Hn & _).
    rewrite Hl, Hn in Hrun. destruct Hrun; [done|lia].
  - apply untracked_inv; [done|]. intros _.
    apply not_false_iff_true. intros E. destruct (ci_quiet _ Hinv E) as (Hl & Hn & Hdt).
    rewrite Hl, Hn, Hdt in Hrun. destruct Hrun as [?|[?|?]]; [done|lia|lia].
  - apply running_event_inv; [done| |right; by exists e|right; by exists e].
    by apply detached_established.
  - apply untracked_inv; [done|]. intros _. apply detached_established; [done|lia].
Qed.

(** ** A connection ends *)

Definition phase_weight (p : connPhase) : nat :=
  match p with
  | ConnAccepted => 13 | ConnHandshake => 10 | ConnServing => 8 | ConnServerClose => 7 | ConnCancel => 6
  | ConnClose => 5 | ConnStopHook => 4 | ConnProtocol => 3 | ConnWait => 2 | ConnFinish => 1 | ConnDone => 0
  end.
Definition conn_left (c : sshConn) : nat :=
  phase_weight (cn_phase c) + (if cn_cancelled c then 0 else 1) + (if cn_hook c then 1 else 0) +
  (if cn_loop c then 1 else 0) + cn_handlers c.

Lemma conn_own_decreases parent c c' : conn_own_step s newID clock parent c c' → conn_left c' < conn_left c.
Proof.
  unfold conn_left.
  destruct 1 as [c cid eid now Hp|c Hpar Hp Hca|c Hca Hh|c Hp Hcl|c h r Hp Hpr|c Hp Hcl|c Hp|c Hp|c Hp|c Hp|c Hp|c Hl Hcl
    |c n Hn|c Hp Hl Hn|c eid now Hp]; simpl; try rewrite Hp; try rewrite Hca; try rewrite Hh; try rewrite Hl; try rewrite Hn;
    simpl; repeat case_match; lia.
Qed.

Lemma conn_progress c : sshConn_inv c → cn_phase c ≠ ConnDone → ∃ c', conn_own_step s newID clock true c c'.
Proof.
  intros [I1 I2 I3 I4 I5 I6 I7 I8 I9 I10 I11 I12 I13 I14 I15] Hd.
  assert (1 ≤ conn_rank (cn_phase c) ≤ 6 → cn_closed c = false → ∃ c', conn_own_step s newID clock true c c') as Hclose.
  { intros Hr Hcl. destruct (cn_cancelled c) eqn:Hca.
    - destruct (cn_hook c) eqn:Hh; [eexists; by apply co_hook|]. by rewrite (I7 Hr eq_refl) in Hcl.
    - eexists. apply co_propagate; [done| |done]. intros Hp. rewrite Hp in Hr. simpl in Hr. lia. }
  destruct (cn_phase c) eqn:Hp; simpl in *; [| | | | | | | | | |done].
  - eexists. by apply (co_begin _ _ _ _ c "" "" 0).
  - destruct (cn_closed c) eqn:Hcl; [eexists; by apply co_handshake_closed|]. apply Hclose; [lia|done].
  - destruct (cn_closed c) eqn:Hcl; [eexists; by apply co_channels_closed|]. apply Hclose; [lia|done].
  - eexists. by apply co_server_close.
  - eexists. by apply co_cancel.
  - eexists. by apply co_close.
  - eexists. by apply co_stop.
  - eexists. by apply co_protocol.
  - destruct (cn_loop c) eqn:Hl; [eexists; apply co_loop_closed; [done|]; apply I10; lia|].
    destruct (cn_handlers c) as [|n] eqn:Hn; [eexists; by apply co_wait|eexists; by apply (co_handler_end _ _ _ _ c n)].
  - eexists. by apply (co_finish _ _ _ _ c "" 0).
Qed.
End Connection.

(** ** The gateway *)

Section Gateway.
Context `{SSHKeys} (s : gateway) (enabled : list string) (error_string : error → string).
Context (newID : nat → string) (clock : nat → Z) (hasStop : bool).

Definition ssh_rank (p : sshPhase) : nat :=
  match p with
  | SshAccepting => 0 | SshCancel _ => 1 | SshClose _ => 2 | SshStopHook _ => 3 | SshWait _ => 4 | SshReturned _ => 5
  end.
Definition ssh_result (p : sshPhase) : option (option error) :=
  match p with
  | SshAccepting => None
  | SshCancel r | SshClose r | SshStopHook r | SshWait r | SshReturned r => Some r
  end.

(** The server under the group's context [group]. *)
Record ssh_inv (group : bool) (v : sshServer) : Prop := mkSshInv {
  si_conns : Forall sshConn_inv (sv_conns v);
  si_cancelled : 2 ≤ ssh_rank (sv_phase v) → sv_cancelled v = true;
  si_closed : 3 ≤ ssh_rank (sv_phase v) → sv_open v = false;
  si_hook : sv_hook v = false → sv_open v = false;
  si_unhooked : 4 ≤ ssh_rank (sv_phase v) → sv_hook v = false;
  si_parent : sv_phase v = SshAccepting → sv_cancelled v = true → group = true;
  si_nil : ssh_result (sv_phase v) = Some None → group = true;
  si_done : ssh_rank (sv_phase v) = 5 → ∀ c, c ∈ sv_conns v → cn_phase c = ConnDone;
}.

Lemma done_stays c c' parent :
  sshConn_inv c → cn_phase c = ConnDone →
  conn_own_step s newID clock parent c c' ∨ conn_env_step s enabled error_string newID clock c c' → cn_phase c' = ConnDone.
Proof.
  intros Hinv Hd [Hs|Hs].
  - destruct Hs; simpl in *; congruence.
  - destruct Hs; simpl in *; try congruence. unfold timer_check. by case_match.
Qed.

Lemma set_conn_ssh_inv group v n c c' :
  ssh_inv group v → sv_conns v !! n = Some c → sshConn_inv c' → (cn_phase c = ConnDone → cn_phase c' = ConnDone) →
  ssh_inv group (sv_set_conn v n c').
Proof.
  intros [S1 S2 S3 S4 S5 S6 S7 S8] Hn Hc' Hd. split; simpl; try done.
  - by apply Forall_insert.
  - intros Hr x Hx. apply list_elem_of_lookup in Hx as [k Hk].
    apply list_lookup_insert_Some in Hk as [(-> & -> & _)|[_ Hk]].
    + apply Hd, (S8 Hr). by eapply list_elem_of_lookup_2.
    + apply (S8 Hr). by eapply list_elem_of_lookup_2.
Qed.

Lemma server_own_ssh_inv group v v' :
  server_own s newID clock group v v' → ssh_inv group v → ssh_inv group v'.
Proof.
  destruct 1 as [v Hp Hc|v Hc Hh|v Hp Ho|v r Hp|v r Hp|v r Hp|v r Hp Hd|v n c c' Hn Hs]; intros Hinv.
  8:{ assert (sshConn_inv c) as Hc by (eapply Forall_lookup_1; [apply (si_conns _ _ Hinv)|done]).
      eapply set_conn_ssh_inv; [done..|by eapply conn_own_inv|]. intros Hd. eapply done_stays; eauto. }
  all: destruct Hinv as [S1 S2 S3 S4 S5 S6 S7 S8]; split; simpl; try done; try rewrite Hp in *; simpl in *;
    try done; try lia; auto.
  destruct (sv_cancelled v); [|done]. auto.
Qed.

Lemma server_env_ssh_inv group v v' :
  server_env s enabled error_string newID clock v v' → ssh_inv group v → ssh_inv group v'.
Proof.
  destruct 1 as [v meta Hp Ho|v err Hp|v n c c' Hn Hs]; intros Hinv.
  - destruct Hinv as [S1 S2 S3 S4 S5 S6 S7 S8]. split; simpl; try done.
    + apply Forall_app. split; [done|]. constructor; [apply accepted_conn_inv|constructor].
    + rewrite Hp. simpl. lia.
  - destruct Hinv as [S1 S2 S3 S4 S5 S6 S7 S8]. rewrite Hp in *. split; simpl in *; try done; try lia.
    destruct (sv_cancelled v); [|done]. auto.
  - assert (sshConn_inv c) as Hc by (eapply Forall_lookup_1; [apply (si_conns _ _ Hinv)|done]).
    eapply set_conn_ssh_inv; [done..|by eapply conn_env_inv|].
    intros Hd. eapply (done_stays _ _ true); eauto.
Qed.

Lemma close_listener_ssh_inv group v : ssh_inv group v → ssh_inv group (close_listener v).
Proof. intros [S1 S2 S3 S4 S5 S6 S7 S8]. split; simpl; done. Qed.
Lemma ssh_inv_group v group : ssh_inv group v → ssh_inv true v.
Proof. intros [S1 S2 S3 S4 S5 S6 S7 S8]. split; auto. Qed.

Definition run_ended (p : runPhase) : option (option error) :=
  match p with RunWaiting => None | RunCloseListener r | RunStop r | RunReturned r => Some r end.
Definition run_is_returned (p : runPhase) : bool := match p with RunReturned _ => true | _ => false end.

Record gateway_inv (g : gatewayRun) : Prop := mkGatewayInv {
  gi_server : ssh_inv (rn_group g) (rn_server g);
  gi_group : rn_group g = true → rn_ctx g ≠ None ∨ rn_err g ≠ None;
  gi_ssh : rn_ssh g = true → ssh_rank (sv_phase (rn_server g)) = 5 ∧ rn_group g = true;
  gi_shutdown : rn_shutdown g ≠ ShutWaiting → rn_group g = true;
  gi_http : rn_shutdown g = ShutEnded → rn_metrics g ≠ MetricsOff → rn_http g = true;
  gi_main : run_ended (rn_main g) ≠ None →
    rn_ssh g = true ∧ rn_metrics g ≠ MetricsServing ∧ rn_shutdown g = ShutEnded;
  gi_result : ∀ r, run_ended (rn_main g) = Some r → r ≠ None;
  gi_stops : rn_stops g = if run_is_returned (rn_main g) && hasStop then 1 else 0;
}.

Lemma run_start_inv metrics : gateway_inv (run_start metrics).
Proof. split; simpl; try done. split; simpl; try done; try lia. Qed.

(** Returning from a function of the group. *)
Lemma group_return_inv g ssh metrics r :
  gateway_inv g → run_ended (rn_main g) = None → metrics ≠ MetricsServing ∨ metrics = rn_metrics g →
  (metrics = MetricsOff ↔ rn_metrics g = MetricsOff) →
  (ssh = true → ssh_rank (sv_phase (rn_server g)) = 5 ∧ (r = None → rn_group g = true)) →
  gateway_inv (group_return g ssh metrics r).
Proof.
  intros [G1 G2 G3 G4 G5 G6 G7 G8] Hm Hmet Hoff Hssh.
  assert (rn_group g = true → rn_group g || bool_decide (is_Some r) = true) as Hmono by (by intros ->).
  split; simpl; auto.
  - destruct (rn_group g || bool_decide (is_Some r)) eqn:E; [by eapply ssh_inv_group|]. by apply orb_false_iff in E as [<- _].
  - intros [Hg|Hr%bool_decide_eq_true]%orb_true_iff.
    + destruct (G2 Hg); [by left|right]. by destruct (rn_err g).
    + right. destruct (rn_err g); [done|]. by destruct Hr as [? ->].
  - intros Hs. destruct (Hssh Hs) as [H5 Hr]. split; [done|]. destruct r; [by rewrite orb_true_r|]. by rewrite Hr.
  - intros Hsh Hne. apply G5; [done|]. by rewrite <-Hoff.
  - by rewrite Hm.
Qed.

Lemma gateway_own_inv g g' : run_own_step s newID clock hasStop g g' → gateway_inv g → gateway_inv g'.
Proof.
  destruct 1 as [g Hc Hg|g v Hv|g r Hp Hs|g Hm Hh|g Hsh Hg|g Hsh|g Hm Hs Hmt Hsh|g r Hm|g r Hm]; intros Hinv;
    pose proof Hinv as [G1 G2 G3 G4 G5 G6 G7 G8].
  - split; simpl; auto. by eapply ssh_inv_group. + intros Hs. by destruct (G3 Hs).
  - split; simpl; auto.
    + by eapply server_own_ssh_inv.
    + intros Hs. destruct (G3 Hs) as [H5 Hg]. split; [|done]. destruct Hv; simpl in *; try done; destruct (sv_phase _); simplify_eq/=; done.
  - apply group_return_inv; try done; [|by right|].
    + destruct (run_ended (rn_main g)) eqn:E; [|done]. destruct G6 as (? & _); [congruence|congruence].
    + intros _. rewrite Hp. split; [done|]. unfold group_result. destruct (rn_group g) eqn:E; [done|]. intros ->.
      apply (si_nil _ _ G1). by rewrite Hp.
  - apply group_return_inv; try done; [|by left| |].
    + destruct (run_ended (rn_main g)) eqn:E; [|done]. destruct G6 as (_ & ? & _); congruence.
    + by rewrite Hm.
    + intros Hs. destruct (G3 Hs). done.
  - split; simpl; try done; auto.
    + by apply close_listener_ssh_inv.
    + intros Hr. destruct (G6 Hr) as (_ & _ & ?). congruence.
  - split; simpl; try done; auto.
    + intros _. apply G4. congruence.
    + intros _ Hm. by destruct (rn_metrics g).
    + intros Hr. destruct (G6 Hr) as (_ & _ & ?). congruence.
  - split; simpl; try done; auto.
    + by eapply ssh_inv_group.
    + intros _. apply G2. by apply G3.
    + intros Hs'. split; [|done]. by apply G3.
    + intros r [= <-]. destruct (rn_err g) eqn:E; [done|]. destruct G2 as [?|?]; [by apply G3|done|done].
    + rewrite G8, Hm. done.
  - split; simpl; try done; auto.
    + by apply close_listener_ssh_inv.
    + intros _. apply G6. by rewrite Hm.
    + intros r' [= <-]. apply G7. by rewrite Hm.
    + rewrite G8, Hm. done.
  - split; simpl; try done; auto.
    + intros _. apply G6. by rewrite Hm.
    + intros r' [= <-]. apply G7. by rewrite Hm.
    + rewrite G8, Hm. simpl. by destruct hasStop.
Qed.

Lemma gateway_env_inv g g' : run_env_step s enabled error_string newID clock g g' → gateway_inv g → gateway_inv g'.
Proof.
  destruct 1 as [g e Hc|g v Hv|g e Hm]; intros Hinv; pose proof Hinv as [G1 G2 G3 G4 G5 G6 G7 G8].
  - split; simpl; try done. by left.
  - split; simpl; auto.
    + by eapply server_env_ssh_inv.
    + intros Hs. destruct (G3 Hs) as [H5 Hg]. split; [|done].
      destruct Hv as [v meta Hp _|v err Hp|v n c c' _ _]; simpl in *; [by rewrite Hp in H5..|done].
  - apply group_return_inv; try done; [|by left| |].
    + destruct (run_ended (rn_main g)) eqn:E; [|done]. destruct G6 as (_ & ? & _); congruence.
    + by rewrite Hm.
    + intros Hs. destruct (G3 Hs). done.
Qed.

Lemma gateway_reachable_inv metrics g :
  rtc (run_step_all s enabled error_string newID clock hasStop) (run_start metrics) g → gateway_inv g.
Proof.
  apply (rtc_invariant _ gateway_inv); [|apply run_start_inv].
  intros x y Hx [Hs|Hs]; [by eapply gateway_own_inv|by eapply gateway_env_inv].
Qed.

(** ** The end of the gateway *)

(** A connection that is over: closed, its handlers ended, the protocol of an authenticated connection
    closed once; it recorded its goroutines' events, then, if it had been established, the one closing of
    what it opened in the metrics, and the end of the connection with its result; after that only
    goroutines that nobody waits for may still record. *)
Definition conn_over (c : sshConn) : Prop :=
  cn_phase c = ConnDone ∧ cn_closed c = true ∧ cn_loop c = false ∧ cn_handlers c = 0 ∧
  cn_protocolCloses c = match conn_authenticated (cn_ctx c) with Some _ => 1 | None => 0 end ∧
  opened_methods (hk_log (cn_hs c)) = closed_methods (cn_log c) ∧
  ∃ before eventID now after, cn_log c = before ++ ConnEnd (finishAudit c eventID now) :: after ∧
    (∀ e, ConnEnd e ∉ before) ∧ Forall detached_event after ∧
    (conn_established (cn_ctx c) = false → before = [] ∧ after = []).

Lemma closed_app l k : closed_methods (l ++ k) = closed_methods l ++ closed_methods k.
Proof. apply omap_app. Qed.
Lemma closed_running l : Forall running_event l → closed_methods l = [].
Proof. induction 1 as [|x l [[e ->]|[e ->]] _ IH]; [done|done|done]. Qed.

Lemma conn_inv_over c : sshConn_inv c → cn_phase c = ConnDone → conn_over c.
Proof.
  intros [I1 I2 I3 I4 I5 I6 I7 I8 I9 I10 I11 I12 I13 I14 I15] Hd.
  destruct (I15 Hd) as (events & tail & after & Hl & Hev & (eventID & now & Ht) & Haf & He). rewrite Hd in *. simpl in *.
  destruct (I13 ltac:(lia)) as [Hloop Hn]. unfold conn_over. split_and!; auto with lia.
  - rewrite I4, Hl, Ht, !closed_app, (closed_running events), (closed_running after) by
      (done || by eapply Forall_impl; [|intros; by right]). simpl.
    destruct (conn_established (cn_ctx c)) eqn:E; [|done]. by destruct (I5 eq_refl) as [r ->].
  - rewrite Hl, Ht, <-!app_assoc, app_assoc. eexists _, eventID, now, after. split_and!; [done| |done|].
    + intros e. rewrite elem_of_app. intros [Hin|Hin].
      * rewrite Forall_forall in Hev. destruct (Hev _ Hin) as [[? [=]]|[? [=]]].
      * repeat case_match; set_solver.
    + intros E. destruct (He E) as [-> ->]. by rewrite E.
Qed.

(** Once the error group is over the listener is closed and every connection is over. *)
Lemma gateway_over metrics g :
  rtc (run_step_all s enabled error_string newID clock hasStop) (run_start metrics) g →
  run_ended (rn_main g) ≠ None → sv_open (rn_server g) = false ∧ ∀ c, c ∈ sv_conns (rn_server g) → conn_over c.
Proof.
  intros [G1 G2 G3 G4 G5 G6 G7 G8]%gateway_reachable_inv Hm.
  destruct (G6 Hm) as (Hs & _ & _). destruct (G3 Hs) as [H5 _]. split.
  - apply (si_closed _ _ G1). lia.
  - intros c Hc. apply conn_inv_over; [|by apply (si_done _ _ G1 H5)].
    pose proof (si_conns _ _ G1) as Hall. rewrite Forall_forall in Hall. by apply Hall.
Qed.

(** C12: how the gateway ends, under every interleaving of its goroutines, its connections, their
    handlers, the goroutines these start and whatever clients and contexts do.  Once the error group is
    over (in particular when the dependencies, the audit recorder among them, are stopped and when
    [RunWithDependencies] returns) the listener is closed and every connection that was ever accepted is
    over: closed, without running handlers, its protocol closed once if it was authenticated, with as
    many connections closed in the metrics as opened, and with exactly one end event, after everything
    that its awaited goroutines recorded.  Only goroutines outside the handlers' group may record after
    that, and they do ([operation_end_after_stop]); a connection that was never established records
    nothing but its end.  [Stop] is called at most once, as the very last thing, and the result is never
    nil: it is an error of a server or the reason of the cancellation. *)
Theorem gateway_shutdown metrics g :
  rtc (run_step_all s enabled error_string newID clock hasStop) (run_start metrics) g →
  (run_ended (rn_main g) ≠ None → sv_open (rn_server g) = false ∧ ∀ c, c ∈ sv_conns (rn_server g) → conn_over c) ∧
  rn_stops g ≤ 1 ∧ (0 < rn_stops g → ∃ r, rn_main g = RunReturned r) ∧
  (∀ r, rn_main g = RunReturned r → r ≠ None ∧ rn_stops g = if hasStop then 1 else 0).
Proof.
  intros Hreach. pose proof Hreach as [G1 G2 G3 G4 G5 G6 G7 G8]%gateway_reachable_inv. split_and!.
  - by apply (gateway_over metrics).
  - rewrite G8. repeat case_match; lia.
  - rewrite G8. destruct (rn_main g) as [| | |r] eqn:E; simpl; [lia..|by eauto].
  - intros r Hr. rewrite G8, Hr. split; [apply G7; by rewrite Hr|]. by destruct hasStop.
Qed.

(** ** The gateway returns *)

Definition conn_budget (c : sshConn) : nat := 16 + cn_handlers c.
Definition ssh_left (v : sshServer) : nat :=
  (5 - ssh_rank (sv_phase v)) + (if sv_cancelled v then 0 else 1) + (if sv_hook v then 1 else 0) +
  sum_list_with conn_left (sv_conns v).
Definition run_left (g : gatewayRun) : nat :=
  ssh_left (rn_server g) + (if rn_group g then 0 else 1) + (if rn_ssh g then 0 else 1) +
  (match rn_metrics g with MetricsServing => 1 | _ => 0 end) +
  (match rn_shutdown g with ShutWaiting => 2 | ShutHTTP => 1 | ShutEnded => 0 end) +
  (match rn_main g with RunWaiting => 3 | RunCloseListener _ => 2 | RunStop _ => 1 | RunReturned _ => 0 end).

Lemma conn_left_budget c : conn_left c ≤ conn_budget c.
Proof.
  unfold conn_left, conn_budget. destruct (cn_phase c), (cn_cancelled c), (cn_hook c), (cn_loop c); simpl; lia.
Qed.

Lemma server_own_decreases' group v v' : server_own s newID clock group v v' → ssh_left v' < ssh_left v.
Proof.
  unfold ssh_left.
  destruct 1 as [v Hp Hc|v Hc Hh|v Hp Ho|v r Hp|v r Hp|v r Hp|v r Hp Hd|v n c c' Hn Hs]; simpl;
    try rewrite Hp; try rewrite Hc; try rewrite Hh; simpl; repeat case_match; try lia;
    pose proof (sum_list_with_insert conn_left _ _ _ c' Hn); pose proof (conn_own_decreases _ _ _ _ _ _ Hs); lia.
Qed.

Lemma gateway_own_decreases g g' : run_own_step s newID clock hasStop g g' → run_left g' < run_left g.
Proof.
  unfold run_left.
  destruct 1 as [g Hc Hg|g v Hv|g r Hp Hs|g Hm Hh|g Hsh Hg|g Hsh|g Hm Hs Hmt Hsh|g r Hm|g r Hm]; simpl;
    rewrite ?Hg, ?Hs, ?Hm, ?Hsh; simpl; try lia.
  - pose proof (server_own_decreases' _ _ _ Hv). lia.
  - destruct (rn_group g); simpl; [lia|]. case_bool_decide; lia.
  - destruct (rn_group g); simpl; lia.
  - unfold ssh_left. simpl. lia.
  - unfold ssh_left. simpl. lia.
Qed.

(** Something has asked the gateway to stop: its context or the group's, or the server's loop ended. *)
Definition gateway_stopping (g : gatewayRun) : Prop :=
  rn_ctx g ≠ None ∨ rn_group g = true ∨ sv_phase (rn_server g) ≠ SshAccepting ∨ sv_open (rn_server g) = false.

Lemma server_progress_ group v :
  ssh_inv group v → group = true ∨ sv_phase v ≠ SshAccepting ∨ sv_open v = false →
  ssh_rank (sv_phase v) ≠ 5 → ∃ v', server_own s newID clock group v v'.
Proof.
  intros [S1 S2 S3 S4 S5 S6 S7 S8] Hst Hr. destruct (sv_phase v) as [|r|r|r|r|r] eqn:Hp; simpl in *; [| | | | |done].
  - destruct (sv_open v) eqn:Ho; [|eexists; by apply so_accept_closed].
    destruct (sv_cancelled v) eqn:Hc.
    + destruct (sv_hook v) eqn:Hh; [eexists; by apply so_hook|]. by specialize (S4 eq_refl).
    + destruct Hst as [->|[?|?]]; [eexists; by apply so_propagate|done..].
  - eexists. by eapply so_cancel.
  - eexists. by eapply so_close.
  - eexists. by eapply so_stop.
  - destruct (list_Exists_or_none (fun c => cn_phase c ≠ ConnDone) (sv_conns v)) as [(n & c & Hn & Hc)|Hall].
    + destruct (conn_progress s newID clock c) as [c' Hs]; [by eapply Forall_lookup_1|done|].
      eexists. eapply so_conn; [done|]. rewrite S2 by lia. done.
    + eexists. eapply so_wait; [done|]. intros c Hc. by apply dec_stable, Hall.
Qed.

Lemma gateway_progress g :
  gateway_inv g → gateway_stopping g →
  (∃ g', run_own_step s newID clock hasStop g g') ∨ ∃ r, rn_main g = RunReturned r.
Proof.
  intros [G1 G2 G3 G4 G5 G6 G7 G8] Hst. destruct (rn_main g) as [|r|r|r] eqn:Hm;
    [|left; eexists; by eapply ro_close|left; eexists; by eapply ro_stop|by eauto]. left.
  destruct (decide (ssh_rank (sv_phase (rn_server g)) = 5)) as [H5|H5].
  - destruct (rn_ssh g) eqn:Hs.
    + destruct (G3 eq_refl) as [_ Hg]. destruct (rn_shutdown g) eqn:Hsh;
        [eexists; by apply ro_shutdown_listener|eexists; by apply ro_shutdown_http|].
      destruct (rn_metrics g) eqn:Hmt; [eexists; apply ro_waited; congruence| |eexists; apply ro_waited; congruence].
      eexists. apply ro_metrics; [done|]. by apply G5.
    + destruct (sv_phase (rn_server g)) eqn:Hp; simplify_eq/=. eexists. by eapply ro_ssh.
  - destruct (rn_group g) eqn:Hg.
    + destruct (server_progress_ _ _ G1 (or_introl eq_refl) H5) as [v Hv]. eexists. apply ro_server. by rewrite Hg.
    + destruct Hst as [Hc|[?|Hst]]; [eexists; by apply ro_propagate|congruence|].
      destruct (server_progress_ _ _ G1 (or_intror Hst) H5) as [v Hv]. eexists. apply ro_server. by rewrite Hg.
Qed.

Lemma gateway_own_live g g' :
  gateway_inv g ∧ gateway_stopping g → run_own_step s newID clock hasStop g g' → gateway_inv g' ∧ gateway_stopping g'.
Proof.
  intros [Hinv Hst] Hs. split; [by eapply gateway_own_inv|]. unfold gateway_stopping in *.
  destruct Hs as [g Hc Hg|g v Hv|g r Hp Hs|g Hm Hh|g Hsh Hg|g Hsh|g Hm Hs Hmt Hsh|g r Hm|g r Hm]; simpl; auto.
  - destruct Hst as [?|[?|Hst]]; [by left|by right; left|right; right].
    destruct Hv; simpl in *; try (by left); try done; destruct Hst as [?|?]; auto; congruence.
  - destruct Hst as [?|[->|?]]; auto.
  - destruct Hst as [?|[->|?]]; auto.
Qed.

(** The gateway returns.  In whatever state it was asked to stop (its context was cancelled, a
    server failed, the listener was closed), with any number of connections in any phase, the gateway
    takes at most [run_left g] more steps by itself (proportional to the connections and their running
    handlers), provided the handlers end once their connection and protocol are closed; where none is
    left [RunWithDependencies] has returned. *)
Theorem gateway_returns metrics g :
  rtc (run_step_all s enabled error_string newID clock hasStop) (run_start metrics) g → gateway_stopping g →
  (∀ n g', nsteps (run_own_step s newID clock hasStop) n g g' → n ≤ run_left g) ∧
  (∀ g', rtc (run_own_step s newID clock hasStop) g g' → (∀ g'', ¬ run_own_step s newID clock hasStop g' g'') →
     ∃ r, rn_main g' = RunReturned r) ∧
  run_left g ≤ 15 + sum_list_with conn_budget (sv_conns (rn_server g)).
Proof.
  intros Hinv%gateway_reachable_inv Hst. split_and!.
  - intros n g' Hn. pose proof (nsteps_bounded _ (fun _ => True) run_left (fun _ _ _ _ => Logic.I)
      (fun x y _ => gateway_own_decreases x y) _ _ _ Logic.I Hn). lia.
  - intros g' Hr Hstuck.
    destruct (rtc_invariant _ _ gateway_own_live _ _ (conj Hinv Hst) Hr) as [Hinv' Hst'].
    destruct (gateway_progress g' Hinv' Hst') as [[g'' Hs]|?]; [by destruct (Hstuck g'')|done].
  - assert (∀ l : list sshConn, sum_list_with conn_left l ≤ sum_list_with conn_budget l) as Hsum.
    { intros l. induction l as [|c l IH]; [done|]. cbn [sum_list_with]. pose proof (conn_left_budget c). lia. }
    unfold run_left, ssh_left. specialize (Hsum (sv_conns (rn_server g))).
    destruct (sv_cancelled _), (sv_hook _), (rn_group g), (rn_ssh g), (rn_metrics g), (rn_shutdown g), (rn_main g); lia.
Qed.
End Gateway.

(** ** A run: a client connects, the gateway is cancelled while it negotiates, and everything ends *)

Definition on_server (f : @sshServer toy_keys → sshServer) (g : gatewayRun) : gatewayRun :=
  rn_with_server g (f (rn_server g)).
Definition on_conn (f : @sshConn toy_keys → sshConn) (g : gatewayRun) : gatewayRun :=
  on_server (fun v => match sv_conns v !! 0 with Some c => sv_set_conn v 0 (f c) | None => v end) g.

Definition demo_accepted : gatewayRun :=
  on_server (fun v => serveSSH_accept demo_gateway v demo_meta) (@run_start toy_keys true).
Definition demo_negotiating : gatewayRun := on_conn (fun c => conn_begin demo_gateway c "c1" "e1" 5) demo_accepted.
Definition demo_stopped : gatewayRun :=
  let g := demo_negotiating in
  mkGatewayRun (Some (ESentinel context_Canceled)) (rn_group g) (rn_server g) (rn_ssh g) (rn_metrics g) (rn_http g)
    (rn_shutdown g) (rn_err g) (rn_main g) (rn_stops g).

Definition demo_step := @run_step_all toy_keys demo_gateway ["password"] (fun _ => "") (fun _ => "id") (fun _ => 0%Z) true.

Lemma demo_stopped_reachable : rtc demo_step (run_start true) demo_stopped.
Proof.
  eapply rtc_l; [right; apply re_server; by apply (se_accept _ _ _ _ _ _ demo_meta)|].
  eapply rtc_l; [left; apply ro_server; eapply (so_conn _ _ _ _ _ 0); [reflexivity|by apply (co_begin _ _ _ _ _ "c1" "e1" 5)]|].
  apply rtc_once. right. by apply (re_cancel _ _ _ _ _ demo_negotiating (ESentinel context_Canceled)).
Qed.

(** What remains, in one of the orders it can happen. *)
Definition demo_finish : list (gatewayRun → gatewayRun) :=
  [ (fun g => mkGatewayRun (rn_ctx g) true (rn_server g) (rn_ssh g) (rn_metrics g) (rn_http g) (rn_shutdown g)
                (rn_err g) (rn_main g) (rn_stops g));
    shutdown_listener;
    on_server (fun v => sv_with v true (sv_open v) (sv_hook v) (sv_phase v));
    on_server (fun v => serveSSH_acceptFailed v (ESentinel net_ErrClosed));
    on_server (fun v => sv_with v true (sv_open v) (sv_hook v) (SshClose None));
    on_server (fun v => sv_with v (sv_cancelled v) false (sv_hook v) (SshStopHook None));
    on_server (fun v => sv_with v (sv_cancelled v) (sv_open v) false (SshWait None));
    on_conn (fun c => set_context c true (cn_hook c));
    on_conn (fun c => close_conn (set_context c true false));
    on_conn (fun c => set_connPhase c ConnCancel);
    on_conn (fun c => set_connPhase (set_context c true (cn_hook c)) ConnClose);
    on_conn (fun c => set_connPhase (close_conn c) ConnStopHook);
    on_conn (fun c => set_connPhase (set_context c (cn_cancelled c) false) ConnProtocol);
    on_conn close_protocol;
    on_conn (fun c => set_connPhase c ConnFinish);
    on_conn (fun c => conn_finish c "e2" 2000005);
    on_server (fun v => sv_with v (sv_cancelled v) (sv_open v) (sv_hook v) (SshReturned None));
    (fun g => group_return g true (rn_metrics g) (group_result g None));
    shutdownHTTPServer;
    (fun g => group_return g (rn_ssh g) MetricsEnded None);
    run_waited;
    (fun g => run_closeListener g (Some (ESentinel context_Canceled)));
    (fun g => run_stop true g (Some (ESentinel context_Canceled))) ].
Definition demo_end : gatewayRun := foldl (fun g f => f g) demo_stopped demo_finish.

(** Take a step and compute the state it leads to. *)
Ltac demo_norm :=
  match goal with |- rtc _ ?x _ => let y := eval vm_compute in x in change x with y end.
Ltac demo_own t := eapply rtc_l; [left; t|]; demo_norm.
Ltac demo_server t := demo_own ltac:(apply ro_server; t).
Ltac demo_conn t := demo_server ltac:(eapply (so_conn _ _ _ _ _ 0); [reflexivity|t]).

Lemma demo_end_reachable : rtc demo_step demo_stopped demo_end.
Proof.
  demo_norm.
  demo_own ltac:(by apply ro_propagate). demo_own ltac:(by apply ro_shutdown_listener).
  demo_server ltac:(by apply so_propagate). demo_server ltac:(by apply so_accept_closed).
  demo_server ltac:(by eapply so_cancel). demo_server ltac:(by eapply so_close). demo_server ltac:(by eapply so_stop).
  demo_conn ltac:(by apply co_propagate). demo_conn ltac:(by apply co_hook). demo_conn ltac:(by apply co_handshake_closed).
  demo_conn ltac:(by apply co_cancel). demo_conn ltac:(by apply co_close). demo_conn ltac:(by apply co_stop).
  demo_conn ltac:(by apply co_protocol). demo_conn ltac:(by apply co_wait).
  demo_conn ltac:(by apply (co_finish _ _ _ _ _ "e2" 2000005)).
  demo_server ltac:(eapply so_wait; [reflexivity|intros c Hc; apply list_elem_of_singleton in Hc as ->; reflexivity]).
  demo_own ltac:(by eapply ro_ssh). demo_own ltac:(by apply ro_shutdown_http). demo_own ltac:(by apply ro_metrics).
  demo_own ltac:(by apply ro_waited). demo_own ltac:(by eapply ro_close). demo_own ltac:(by eapply ro_stop).
  match goal with |- rtc _ ?x demo_end => assert (demo_end = x) as -> by (vm_compute; reflexivity) end.
  apply rtc_refl.
Qed.

Lemma gateway_shutdown_witness :
  rn_main demo_end = RunReturned (Some (ESentinel context_Canceled)) ∧ length (sv_conns (rn_server demo_end)) = 1 ∧
  (∀ c, c ∈ sv_conns (rn_server demo_end) → conn_over c) ∧ rn_stops demo_end = 1.
Proof.
  assert (rn_main demo_end = RunReturned (Some (ESentinel context_Canceled))) as Hm by (vm_compute; reflexivity).
  destruct (gateway_shutdown demo_gateway ["password"] (fun _ => "") (fun _ => "id") (fun _ => 0%Z) true true demo_end
    (transitivity demo_stopped_reachable demo_end_reachable)) as (Hover & _ & _ & Hret).
  split; [exact Hm|]. split; [vm_compute; reflexivity|]. split.
  - apply Hover. rewrite Hm. discriminate.
  - apply (Hret _ Hm).
Defined.

Lemma gateway_returns_witness :
  length (sv_conns (rn_server demo_stopped)) = 1 ∧
  ∀ n g', nsteps (run_own_step demo_gateway (fun _ => "id") (fun _ => 0%Z) true) n demo_stopped g' → n ≤ run_left demo_stopped.
Proof.
  split; [vm_compute; reflexivity|].
  apply (gateway_returns demo_gateway ["password"] (fun _ => "") (fun _ => "id") (fun _ => 0%Z) true true demo_stopped
    demo_stopped_reachable).
  left. discriminate.
Defined.

(** ** A run with a goroutine that nobody waits for *)

Ltac demo_env t := eapply rtc_l; [right; apply re_server; eapply (se_conn _ _ _ _ _ _ 0); [reflexivity|t]|]; demo_norm.

Definition late_event : Event := (startConnectionAudit demo_meta "c1" "e3" 2000006).2.

(** Records after the end.  A client logs in and the loop of its requests starts a goroutine that is not
    awaited, as [handleTCPIPForward] does with [serveRemoteForward]; the gateway is stopped, the
    connection records its end, the recorder is stopped and [RunWithDependencies] has returned; the
    goroutine then records the end of its operation. *)
Theorem operation_end_after_stop :
  ∃ g c before e, rtc demo_step (run_start true) g ∧ rn_stops g = 1 ∧
    (∃ r, rn_main g = RunReturned r) ∧ sv_conns (rn_server g) !! 0 = Some c ∧
    cn_log c = before ++ [ConnEnd e; ConnDetached late_event].
Proof.
  eexists _, _, _, _. split_and!.
  - eapply rtc_l; [right; apply re_server; by apply (se_accept _ _ _ _ _ _ demo_meta)|]. demo_norm.
    demo_conn ltac:(by apply (co_begin _ _ _ _ _ "c1" "e1" 5)).
    demo_env ltac:(eapply ce_handshake; [reflexivity|eapply (hs_none _ _ _ _ _ _ demo_meta); vm_compute; reflexivity]).
    demo_env ltac:(eapply ce_handshake; [reflexivity|eapply (hs_password _ _ _ _ _ _ "ns.pod" "secret"); vm_compute; reflexivity]).
    demo_conn ltac:(by eapply co_establish).
    demo_env ltac:(apply ce_detach; by left).
    eapply rtc_l; [right; by apply (re_cancel _ _ _ _ _ _ (ESentinel context_Canceled))|]. demo_norm.
    demo_own ltac:(by apply ro_propagate). demo_own ltac:(by apply ro_shutdown_listener).
    demo_server ltac:(by apply so_propagate). demo_server ltac:(by apply so_accept_closed).
    demo_server ltac:(by eapply so_cancel). demo_server ltac:(by eapply so_close). demo_server ltac:(by eapply so_stop).
    demo_conn ltac:(by apply co_propagate). demo_conn ltac:(by apply co_hook). demo_conn ltac:(by apply co_channels_closed).
    demo_conn ltac:(by apply co_server_close).
    demo_conn ltac:(by apply co_cancel). demo_conn ltac:(by apply co_close). demo_conn ltac:(by apply co_stop).
    demo_conn ltac:(by apply co_protocol). demo_conn ltac:(by apply co_loop_closed). demo_conn ltac:(by apply co_wait).
    demo_conn ltac:(by apply (co_finish _ _ _ _ _ "e2" 2000005)).
    demo_server ltac:(eapply so_wait; [reflexivity|intros c Hc; apply list_elem_of_singleton in Hc as ->; reflexivity]).
    demo_own ltac:(by eapply ro_ssh). demo_own ltac:(by apply ro_shutdown_http). demo_own ltac:(by apply ro_metrics).
    demo_own ltac:(by apply ro_waited). demo_own ltac:(by eapply ro_close). demo_own ltac:(by eapply ro_stop).
    demo_env ltac:(apply (ce_detached_event _ _ _ _ _ _ late_event); vm_compute; lia).
    apply rtc_refl.
  - reflexivity.
  - eexists. reflexivity.
  - reflexivity.
  - exact (eq_refl ([_] ++ [_; _])).
Qed.
