(* ===== verification/AgentClient.v ===== *)
(** Model of the gateway's side of agent forwarding ([agentForwardClient] and [AgentListener] of
    [src/pkg/podssh/backend/helper/agent_forward.go]), of the helper client that owns it together
    with remote forwarding ([client.go]), and of the connection over standard input and output it
    runs on ([stdio.go], [dial.go]).

    A step is one region locked by the client's or a listener's mutex.  Listeners are numbered in
    the order they are created and streams in the order they arrive, as in [HelperClient]. *)

From S2P Require Import Prelude GoStrings GoStrconv SpdyRpc HelperClient.

(** ** [agentForwardClient] *)

(** Where [Listen] of a listener is: waiting for the response, returned with the path of the
    socket, or returned with an error. *)
Inductive agentListenPhase := AgentInFlight | AgentListening (socketPath : string) | AgentFailed.

Definition set_agentPhase (p : agentListenPhase) (l : agentListenPhase * helperListener nat)
    : agentListenPhase * helperListener nat := (p, l.2).

Record agentClient := mkAgentClient {
  ac_closed : bool;
  ac_forward : option nat;
  ac_listeners : list (agentListenPhase * helperListener nat);
  (** Streams that [dispatch] has looked up and not yet delivered. *)
  ac_dispatch : list (nat * nat);
  (** Listeners whose removal has happened and whose [closeLocal] is still to come, with the error
      it records and whether the stop request follows. *)
  ac_closing : list (nat * error * bool);
  (** Listeners whose [Cancel] has sent the stop request. *)
  ac_stopped : list nat;
  ac_arrived : nat;
  ac_reset : list nat;
}.

Definition newAgentForwardClient : agentClient := mkAgentClient false None [] [] [] [] 0 [].

Definition set_forward (c : agentClient) (o : option nat) : agentClient :=
  mkAgentClient (ac_closed c) o (ac_listeners c) (ac_dispatch c) (ac_closing c) (ac_stopped c)
    (ac_arrived c) (ac_reset c).
Definition set_aListeners (c : agentClient) (l : list (agentListenPhase * helperListener nat)) : agentClient :=
  mkAgentClient (ac_closed c) (ac_forward c) l (ac_dispatch c) (ac_closing c) (ac_stopped c)
    (ac_arrived c) (ac_reset c).
Definition add_aClosing (c : agentClient) (l : list (nat * error * bool)) : agentClient :=
  mkAgentClient (ac_closed c) (ac_forward c) (ac_listeners c) (ac_dispatch c) (ac_closing c ++ l)
    (ac_stopped c) (ac_arrived c) (ac_reset c).
Definition reset_aStreams (c : agentClient) (l : list nat) : agentClient :=
  mkAgentClient (ac_closed c) (ac_forward c) (ac_listeners c) (ac_dispatch c) (ac_closing c)
    (ac_stopped c) (ac_arrived c) (ac_reset c ++ l).

(** [removeIfMatch]. *)
Definition agent_removeIfMatch (c : agentClient) (n : nat) : agentClient :=
  if bool_decide (ac_forward c = Some n) then set_forward c None else c.

(** [Listen], up to the request. *)
Definition agent_Listen (c : agentClient) : agentClient * option error :=
  match ac_forward c with
  | Some _ => (c, Some (Errorf "agent-forward listener already exists" []))
  | None =>
      (set_aListeners (set_forward c (Some (length (ac_listeners c))))
         (ac_listeners c ++ [(AgentInFlight, newListener)]), None)
  end.

(** [Listen], after the response. *)
Definition agent_Listen_response (c : agentClient) (n : nat) (response : result string)
    : agentClient * option error :=
  let phase p := set_aListeners c (alter (set_agentPhase p) n (ac_listeners c)) in
  match response with
  | Err e => (add_aClosing (agent_removeIfMatch (phase AgentFailed) n) [(n, e, false)], Some e)
  | Ok socketPath => (phase (AgentListening socketPath), None)
  end.

(** [dispatch], the lookup. *)
Definition agent_dispatch (c : agentClient) : agentClient :=
  let stream := ac_arrived c in
  let c := mkAgentClient (ac_closed c) (ac_forward c) (ac_listeners c) (ac_dispatch c) (ac_closing c)
             (ac_stopped c) (S (ac_arrived c)) (ac_reset c) in
  match ac_forward c with
  | None => reset_aStreams c [stream]
  | Some n =>
      mkAgentClient (ac_closed c) (ac_forward c) (ac_listeners c) (ac_dispatch c ++ [(stream, n)])
        (ac_closing c) (ac_stopped c) (ac_arrived c) (ac_reset c)
  end.

(** The [i]th pending delivery. *)
Definition agent_deliver (c : agentClient) (i : nat) : agentClient :=
  match ac_dispatch c !! i with
  | None => c
  | Some (stream, n) =>
      let c := mkAgentClient (ac_closed c) (ac_forward c) (ac_listeners c) (delete i (ac_dispatch c))
                 (ac_closing c) (ac_stopped c) (ac_arrived c) (ac_reset c) in
      match ac_listeners c !! n with
      | None => c
      | Some (p, f) =>
          let '(f, refused) := listener_deliver (ac_closed c) f stream in
          let c := set_aListeners c (<[n := (p, f)]> (ac_listeners c)) in
          match refused with Some x => reset_aStreams c [x] | None => c end
      end
  end.

(** The [i]th pending [closeLocal], and the stop request of [Cancel]. *)
Definition agent_closeLocal (c : agentClient) (i : nat) : agentClient :=
  match ac_closing c !! i with
  | None => c
  | Some (n, err, stop) =>
      let c := mkAgentClient (ac_closed c) (ac_forward c) (ac_listeners c) (ac_dispatch c)
                 (delete i (ac_closing c)) (if stop : bool then ac_stopped c ++ [n] else ac_stopped c)
                 (ac_arrived c) (ac_reset c) in
      match ac_listeners c !! n with
      | None => c
      | Some (p, f) =>
          let '(f, pending) := listener_closeLocal f err in
          reset_aStreams (set_aListeners c (<[n := (p, f)]> (ac_listeners c))) pending
      end
  end.

(** [Accept] on listener [n]. *)
Definition agent_Accept (c : agentClient) (n : nat) (ctxErr : option error)
    : agentClient * option (result nat) :=
  match ac_listeners c !! n with
  | None => (c, None)
  | Some (p, f) =>
      let '(r, f) := listener_accept (ac_closed c) ctxErr f in
      (set_aListeners c (<[n := (p, f)]> (ac_listeners c)), r)
  end.

(** [Cancel] of listener [n], up to its [closeLocal]. *)
Definition agent_Cancel (c : agentClient) (n : nat) : agentClient :=
  match ac_listeners c !! n with
  | None => c
  | Some (p, f) =>
      match listener_cancel f with
      | (_, false) => c
      | (f, true) =>
          add_aClosing (agent_removeIfMatch (set_aListeners c (<[n := (p, f)]> (ac_listeners c))) n)
            [(n, ESentinel context_Canceled, true)]
      end
  end.

(** [agentForwardClient.close]. *)
Definition agent_closeForward (c : agentClient) : agentClient :=
  match ac_forward c with
  | Some n => add_aClosing (set_forward c None) [(n, ESentinel ErrConnectionClosed, false)]
  | None => c
  end.

Definition agent_markClosed (c : agentClient) : agentClient :=
  mkAgentClient true (ac_forward c) (ac_listeners c) (ac_dispatch c) (ac_closing c) (ac_stopped c)
    (ac_arrived c) (ac_reset c).

Inductive agent_step : agentClient → agentClient → Prop :=
| agent_listen c : agent_step c (agent_Listen c).1
| agent_response c n f response :
    ac_listeners c !! n = Some (AgentInFlight, f) → agent_step c (agent_Listen_response c n response).1
| agent_stream c : agent_step c (agent_dispatch c)
| agent_delivery c i : agent_step c (agent_deliver c i)
| agent_closing c i : agent_step c (agent_closeLocal c i)
| agent_accept c n ctxErr : agent_step c (agent_Accept c n ctxErr).1
| agent_cancel c n path f :
    ac_listeners c !! n = Some (AgentListening path, f) → agent_step c (agent_Cancel c n)
| agent_mark_closed c : agent_step c (agent_markClosed c)
| agent_close_forward c : ac_closed c = true → agent_step c (agent_closeForward c).

(** ** [Client] *)

(** How far [Close] has come: the closed channel, the connection, the two kinds of listeners. *)
Inductive closeStage := CloseNotCalled | CloseChannel | CloseConn | CloseRemote | CloseAgent.

Definition stage_nat (s : closeStage) : nat :=
  match s with CloseNotCalled => 0 | CloseChannel => 1 | CloseConn => 2 | CloseRemote => 3 | CloseAgent => 4 end.

Record helperClient := mkHelperClient {
  hc_stage : closeStage;
  hc_remote : remoteClient;
  hc_agent : agentClient;
  (** The listeners of either kind that existed when the connection was closed. *)
  hc_remoteOld : nat;
  hc_agentOld : nat;
}.

(** [NewClient], after the connection exists and its stream handlers are registered. *)
Definition helper_NewClient : helperClient :=
  mkHelperClient CloseNotCalled newRemoteForwardClient newAgentForwardClient 0 0.

Definition set_remoteClient (c : helperClient) (r : remoteClient) : helperClient :=
  mkHelperClient (hc_stage c) r (hc_agent c) (hc_remoteOld c) (hc_agentOld c).
Definition set_agentClient (c : helperClient) (a : agentClient) : helperClient :=
  mkHelperClient (hc_stage c) (hc_remote c) a (hc_remoteOld c) (hc_agentOld c).

(** The next part of [Close], whose body runs once. *)
Definition helper_Close (c : helperClient) : helperClient :=
  match hc_stage c with
  | CloseNotCalled =>
      mkHelperClient CloseChannel (remote_markClosed (hc_remote c)) (agent_markClosed (hc_agent c))
        (hc_remoteOld c) (hc_agentOld c)
  | CloseChannel =>
      mkHelperClient CloseConn (hc_remote c) (hc_agent c)
        (length (rc_listeners (hc_remote c))) (length (ac_listeners (hc_agent c)))
  | CloseConn =>
      mkHelperClient CloseRemote (remote_close (hc_remote c)) (hc_agent c) (hc_remoteOld c) (hc_agentOld c)
  | CloseRemote =>
      mkHelperClient CloseAgent (hc_remote c) (agent_closeForward (hc_agent c)) (hc_remoteOld c) (hc_agentOld c)
  | CloseAgent => c
  end.

(** [handleRemoteStream]: a stream with a malformed origin port is refused with the error. *)
Definition handleRemoteStream (c : helperClient) (headers : gmap string string) : helperClient * option error :=
  match remoteIncomingFromStream (rc_arrived (hc_remote c)) headers with
  | Err e => (c, Some e)
  | Ok incoming => (set_remoteClient c (remote_dispatch (hc_remote c) (ri_info incoming)), None)
  end.
Definition handleAgentStream (c : helperClient) : helperClient :=
  set_agentClient c (agent_dispatch (hc_agent c)).

(** A request sent after the connection was closed is answered with an error. *)
Definition answered {A} (c : helperClient) (old n : nat) (response : result A) : Prop :=
  2 ≤ stage_nat (hc_stage c) → old ≤ n → ∃ e, response = Err e.

Inductive helper_step : helperClient → helperClient → Prop :=
| helper_ListenRemote c host port :
    helper_step c (set_remoteClient c (remote_Listen (hc_remote c) host port).1)
| helper_remoteResponse c n bind f response :
    rc_listeners (hc_remote c) !! n = Some (ListenInFlight bind, f) → answered c (hc_remoteOld c) n response →
    helper_step c (set_remoteClient c (remote_Listen_response (hc_remote c) n bind response).1)
| helper_remoteStream c headers : helper_step c (handleRemoteStream c headers).1
| helper_remoteDeliver c i : helper_step c (set_remoteClient c (remote_deliver (hc_remote c) i))
| helper_remoteCloseLocal c i : helper_step c (set_remoteClient c (remote_closeLocal (hc_remote c) i))
| helper_remoteAccept c n ctxErr : helper_step c (set_remoteClient c (remote_Accept (hc_remote c) n ctxErr).1)
| helper_remoteCancel c n bind port f :
    rc_listeners (hc_remote c) !! n = Some (Listening bind port, f) →
    helper_step c (set_remoteClient c (remote_Cancel (hc_remote c) n))
| helper_ListenAgent c : helper_step c (set_agentClient c (agent_Listen (hc_agent c)).1)
| helper_agentResponse c n f response :
    ac_listeners (hc_agent c) !! n = Some (AgentInFlight, f) → answered c (hc_agentOld c) n response →
    helper_step c (set_agentClient c (agent_Listen_response (hc_agent c) n response).1)
| helper_agentStream c : helper_step c (handleAgentStream c)
| helper_agentDeliver c i : helper_step c (set_agentClient c (agent_deliver (hc_agent c) i))
| helper_agentCloseLocal c i : helper_step c (set_agentClient c (agent_closeLocal (hc_agent c) i))
| helper_agentAccept c n ctxErr : helper_step c (set_agentClient c (agent_Accept (hc_agent c) n ctxErr).1)
| helper_agentCancel c n path f :
    ac_listeners (hc_agent c) !! n = Some (AgentListening path, f) →
    helper_step c (set_agentClient c (agent_Cancel (hc_agent c) n))
| helper_closing c : helper_step c (helper_Close c).

(** ** [stdioConn] *)

(** The two streams as what closing them returns, and what has been closed so far.  The error that
    [errors.Join] makes is the list of the errors it joins, empty for none. *)
Record stdioConn := mkStdioConn {
  sc_readerClose : option error;
  sc_writerClose : option error;
  sc_readerClosed : nat;
  sc_writerClosed : nat;
  sc_closeOnce : option (list error);
  sc_closeWriteOnce : option (option error);
}.

Definition newStdioConn (readerClose writerClose : option error) : stdioConn :=
  mkStdioConn readerClose writerClose 0 0 None None.

Definition stdio_CloseWrite (c : stdioConn) : stdioConn * option error :=
  match sc_closeWriteOnce c with
  | Some err => (c, err)
  | None =>
      (mkStdioConn (sc_readerClose c) (sc_writerClose c) (sc_readerClosed c) (S (sc_writerClosed c))
         (sc_closeOnce c) (Some (sc_writerClose c)), sc_writerClose c)
  end.

Definition errors_Join (errs : list (option error)) : list error := omap id errs.

Definition stdio_Close (c : stdioConn) : stdioConn * list error :=
  match sc_closeOnce c with
  | Some err => (c, err)
  | None =>
      let c := mkStdioConn (sc_readerClose c) (sc_writerClose c) (S (sc_readerClosed c)) (sc_writerClosed c)
                 (sc_closeOnce c) (sc_closeWriteOnce c) in
      let '(c, writeErr) := stdio_CloseWrite c in
      let err := errors_Join [sc_readerClose c; writeErr] in
      (mkStdioConn (sc_readerClose c) (sc_writerClose c) (sc_readerClosed c) (sc_writerClosed c)
         (Some err) (sc_closeWriteOnce c), err)
  end.

(** [RunDial]: the dialer and the proxy are arguments; the deferred [Close] comes last. *)
Definition RunDial {conn} (dial : string → result conn) (proxy : conn → stdioConn → stdioConn * option error)
    (host : string) (port : Z) (stdio : stdioConn) : stdioConn * option error :=
  let return_ (stdio : stdioConn) (err : option error) := ((stdio_Close stdio).1, err) in
  if bool_decide (host = "") then return_ stdio (Some (Errorf "host is required" []))
  else if (port =? 0)%Z || (65535 <? port)%Z
  then return_ stdio (Some (Errorf "port must be between 1 and 65535" []))
  else match dial (JoinHostPort host (FormatUint port 10)) with
       | Err e => return_ stdio (Some e)
       | Ok c => let '(stdio, err) := proxy c stdio in return_ stdio err
       end.
