(* ===== verification/AgentClientProps.v ===== *)
(** Properties of agent forwarding on the gateway's side and of closing the helper client: streams
    are neither lost nor duplicated, one agent listener is active at a time, and [Close] leaves no
    listener open. *)

From S2P Require Import Prelude Runs GoStrings GoStrconv SpdyRpc HelperClient HelperClientProps AgentClient.

(** ** The agent listeners *)

Definition agent_streams_of (l : agentListenPhase * helperListener nat) : list nat := hl_accepted l.2 ++ hl_incoming l.2.
Definition agent_held (ls : list (agentListenPhase * helperListener nat)) : list nat := flat_map agent_streams_of ls.

Definition agent_streams (c : agentClient) : list nat :=
  ac_reset c ++ (ac_dispatch c).*1 ++ agent_held (ac_listeners c).

(** The listeners that are about to be closed. *)
Definition agent_closings (c : agentClient) : list nat := (ac_closing c).*1.*1.

(** The listeners whose stop request was or will be sent. *)
Definition stop_of (x : nat * error * bool) : list nat := if x.2 then [x.1.1] else [].
Definition agent_stops (c : agentClient) : list nat := ac_stopped c ++ flat_map stop_of (ac_closing c).

Record agent_inv (c : agentClient) : Prop := {
  ai_streams : agent_streams c ≡ₚ seq 0 (ac_arrived c);
  ai_ok : ∀ n p f, ac_listeners c !! n = Some (p, f) → listener_ok f;
  ai_forward : ∀ n, ac_forward c = Some n → ∃ p f, ac_listeners c !! n = Some (p, f) ∧
    p ≠ AgentFailed ∧ hl_closed f = false ∧ n ∉ agent_closings c;
  ai_open : ∀ n p f, ac_listeners c !! n = Some (p, f) → hl_closed f = false →
    ac_forward c = Some n ∨ n ∈ agent_closings c;
  ai_dispatch : ∀ x n, (x, n) ∈ ac_dispatch c → n < length (ac_listeners c);
  ai_closing : ∀ n, n ∈ agent_closings c → n < length (ac_listeners c);
  ai_stops : NoDup (agent_stops c);
  ai_stopped : ∀ n, n ∈ agent_stops c → ∃ p f, ac_listeners c !! n = Some (p, f) ∧ hl_cancelled f = true;
}.

Lemma newAgentForwardClient_inv : agent_inv newAgentForwardClient.
Proof. split; simpl; try done; try set_solver. constructor. Qed.

Lemma agent_lookup_phase (ls : list (agentListenPhase * helperListener nat)) n p k q f :
  alter (set_agentPhase p) n ls !! k = Some (q, f) ↔
  (k = n ∧ q = p ∧ ∃ q', ls !! n = Some (q', f)) ∨ (k ≠ n ∧ ls !! k = Some (q, f)).
Proof. apply lookup_alter_fst. Qed.

(** Replacing listener [n] by one with the same [closed] flag and with no fewer cancellations keeps
    what does not concern streams. *)
Lemma agent_inv_listener c n p f f' reset dispatch :
  agent_inv c → ac_listeners c !! n = Some (p, f) → listener_ok f' → hl_closed f' = hl_closed f →
  (hl_cancelled f = true → hl_cancelled f' = true) →
  ac_reset c ++ (ac_dispatch c).*1 ++ agent_streams_of (p, f) ≡ₚ
    reset ++ dispatch.*1 ++ agent_streams_of (p, f') →
  (∀ x k, (x, k) ∈ dispatch → (x, k) ∈ ac_dispatch c) →
  agent_inv (mkAgentClient (ac_closed c) (ac_forward c) (<[n := (p, f')]> (ac_listeners c)) dispatch
    (ac_closing c) (ac_stopped c) (ac_arrived c) reset).
Proof.
  intros [Hs Hok Hreg Hopen Hd Hcl Hnd Hst] Hl Hok' Hc Hcan Hsum Hsub.
  assert (n < length (ac_listeners c)) as Hlt by by eapply lookup_lt_Some.
  split; unfold agent_closings, agent_stops in *; simpl in *; try done.
  - rewrite <-Hs. unfold agent_streams. simpl.
    pose proof (flat_map_insert agent_streams_of _ _ _ (p, f') Hl) as Hh. unfold agent_held.
    apply (Permutation_app_inv_r (agent_streams_of (p, f))). rewrite <-!(assoc_L (++)), Hh.
    rewrite (Permutation_app_comm (flat_map _ _) (agent_streams_of (p, f'))).
    rewrite (Permutation_app_comm (flat_map _ _) (agent_streams_of (p, f))).
    rewrite !(assoc_L (++)). apply Permutation_app_tail. rewrite <-!(assoc_L (++)). by symmetry.
  - intros k q g [(<- & ? & _)|[_ Hk]]%list_lookup_insert_Some; [by simplify_eq|by eapply Hok].
  - intros k Hk. destruct (Hreg k Hk) as (q & g & Hkl & ? & ? & ?).
    destruct (decide (k = n)) as [->|Hne].
    + rewrite Hl in Hkl. simplify_eq. exists q, f'. rewrite list_lookup_insert_eq by done. by rewrite Hc.
    + exists q, g. by rewrite list_lookup_insert_ne by done.
  - intros k q g [(<- & Heq & _)|[_ Hk]]%list_lookup_insert_Some Hcg; [|by eapply Hopen].
    simplify_eq. rewrite Hc in Hcg. by eapply Hopen.
  - intros x k Hx%Hsub%Hd. by rewrite length_insert.
  - intros k Hk%Hcl. by rewrite length_insert.
  - intros k Hk. destruct (Hst k Hk) as (q & g & Hkl & ?). destruct (decide (k = n)) as [->|Hne].
    + rewrite Hl in Hkl. simplify_eq. exists q, f'. rewrite list_lookup_insert_eq by done. auto.
    + exists q, g. by rewrite list_lookup_insert_ne by done.
Qed.

Lemma agent_Listen_inv c : agent_inv c → agent_inv (agent_Listen c).1.
Proof.
  intros Hinv. unfold agent_Listen. destruct (ac_forward c) as [m|] eqn:Hf; [done|].
  destruct Hinv as [Hs Hok Hreg Hopen Hd Hcl Hnd Hst].
  split; unfold agent_closings, agent_stops, agent_streams, agent_held in *; simpl in *; try done.
  - rewrite flat_map_app. simpl. by rewrite app_nil_r.
  - intros n p f [Hn|[-> [= <- <-]]]%lookup_snoc_Some; [|done]. destruct Hn as [_ Hn]. by eapply Hok.
  - intros n [= <-]. exists AgentInFlight, newListener.
    rewrite list_lookup_middle by done. split_and!; try done. intros Hin%Hcl. lia.
  - intros n p f [[Hlt Hn]|[-> [= <- <-]]]%lookup_snoc_Some Hc; [|by left].
    right. destruct (Hopen n p f Hn Hc) as [Hx|?]; [congruence|done].
  - intros x n Hx%Hd. rewrite length_app. simpl. lia.
  - intros n Hn%Hcl. rewrite length_app. simpl. lia.
  - intros n Hn. destruct (Hst n Hn) as (p & f & Hl & ?). exists p, f. split; [by apply lookup_app_l_Some|done].
Qed.

(** A phase may change, and a listener that leaves the registration is marked for closing. *)
Lemma agent_inv_phase c n p : agent_inv c → (ac_forward c = Some n → p ≠ AgentFailed) →
  agent_inv (set_aListeners c (alter (set_agentPhase p) n (ac_listeners c))).
Proof.
  intros [Hs Hok Hreg Hopen Hd Hcl Hnd Hst] Hp.
  split; unfold agent_closings, agent_stops, agent_streams in *; simpl in *; try done.
  - rewrite <-Hs. f_equiv. f_equiv. unfold agent_held. clear. revert n.
    induction (ac_listeners c) as [|l ls IH]; intros [|n]; cbn; try done. f_equiv. apply IH.
  - intros k q f [(-> & -> & q' & Hk)|[_ Hk]]%agent_lookup_phase; by eapply Hok.
  - intros k Hk. destruct (Hreg k Hk) as (q & f & Hl & ? & ? & ?).
    destruct (decide (k = n)) as [->|Hne].
    + exists p, f. split; [apply agent_lookup_phase; eauto|auto].
    + exists q, f. split; [apply agent_lookup_phase; eauto|auto].
  - intros k q f [(-> & -> & q' & Hk)|[_ Hk]]%agent_lookup_phase; by eapply Hopen.
  - intros x k Hx%Hd. by rewrite length_alter.
  - intros k Hk%Hcl. by rewrite length_alter.
  - intros k Hk. destruct (Hst k Hk) as (q & f & Hl & ?). destruct (decide (k = n)) as [->|Hne].
    + exists p, f. split; [apply agent_lookup_phase; eauto|auto].
    + exists q, f. split; [apply agent_lookup_phase; eauto|auto].
Qed.

Lemma agent_unregister_inv c n e (stop : bool) :
  agent_inv c → n < length (ac_listeners c) →
  (stop = true → n ∉ agent_stops c ∧ ∃ p f, ac_listeners c !! n = Some (p, f) ∧ hl_cancelled f = true) →
  agent_inv (add_aClosing (agent_removeIfMatch c n) [(n, e, stop)]).
Proof.
  intros [Hs Hok Hreg Hopen Hd Hcl Hnd Hst] Hn Hstop. unfold agent_removeIfMatch.
  assert (∀ k, (if bool_decide (ac_forward c = Some n) then None else ac_forward c) = Some k ↔
               ac_forward c = Some k ∧ k ≠ n) as Hf by (intros k; case_bool_decide; naive_solver).
  assert (agent_inv (mkAgentClient (ac_closed c) (if bool_decide (ac_forward c = Some n) then None else ac_forward c)
    (ac_listeners c) (ac_dispatch c) (ac_closing c ++ [(n, e, stop)]) (ac_stopped c) (ac_arrived c) (ac_reset c)))
    as Hinv; [|by case_bool_decide].
  split; unfold agent_closings, agent_stops, agent_streams in *; simpl in *; rewrite ?fmap_app, ?flat_map_app; simpl; try done.
  - intros k [Hk Hne]%Hf. destruct (Hreg k Hk) as (p & f & ? & ? & ? & ?). exists p, f. set_solver.
  - intros k p f Hk Hc. rewrite elem_of_app, list_elem_of_singleton.
    destruct (decide (k = n)) as [->|Hne]; [by auto|].
    destruct (Hopen k p f Hk Hc); [left; by apply Hf|by auto].
  - intros k [Hk|Hk]%elem_of_app; [by apply Hcl|]. by apply list_elem_of_singleton in Hk as ->.
  - rewrite app_nil_r, (assoc_L (++)). unfold stop_of at 2. simpl. destruct stop; [|by rewrite app_nil_r].
    destruct (Hstop eq_refl) as [Hni _]. apply NoDup_app. split_and!; [done| |apply NoDup_singleton].
    intros x Hx ->%list_elem_of_singleton. done.
  - rewrite app_nil_r, (assoc_L (++)). intros k [Hk|Hk]%elem_of_app; [by apply Hst|].
    unfold stop_of in Hk. simpl in Hk. destruct stop; [|by apply not_elem_of_nil in Hk].
    apply list_elem_of_singleton in Hk as ->. by apply Hstop.
Qed.

Lemma agent_response_inv c n f response :
  agent_inv c → ac_listeners c !! n = Some (AgentInFlight, f) →
  agent_inv (agent_Listen_response c n response).1.
Proof.
  intros Hinv Hl. unfold agent_Listen_response. destruct response as [path|e]; cbn [fst].
  - by apply agent_inv_phase.
  - assert (agent_inv (add_aClosing (agent_removeIfMatch c n) [(n, e, false)])) as Hu.
    { apply agent_unregister_inv; [done|by eapply lookup_lt_Some|done]. }
    apply (agent_inv_phase _ n AgentFailed) in Hu;
      unfold agent_removeIfMatch in *; simpl in *; case_bool_decide; simpl in *; done.
Qed.

Lemma agent_Cancel_inv c n : agent_inv c → agent_inv (agent_Cancel c n).
Proof.
  intros Hinv. unfold agent_Cancel. destruct (ac_listeners c !! n) as [[p f]|] eqn:Hl; [|done].
  unfold listener_cancel. destruct (hl_cancelled f) eqn:Hcan; [done|]. simpl. set (f' := mkListener _ _ _ _ _ _).
  pose proof (agent_inv_listener c n p f f' (ac_reset c) (ac_dispatch c) Hinv Hl
    (ai_ok c Hinv n p f Hl) eq_refl ltac:(done) ltac:(done) ltac:(done)) as Hinv'.
  assert (n < length (ac_listeners c)) as Hlt by by eapply lookup_lt_Some.
  apply (agent_unregister_inv _ n _ true Hinv').
  - simpl. by rewrite length_insert.
  - intros _. split.
    + intros Hin. destruct (ai_stopped c Hinv n Hin) as (q & g & Hg & ?). congruence.
    + exists p, f'. simpl. by rewrite list_lookup_insert_eq.
Qed.

Lemma agent_closeForward_inv c : agent_inv c → agent_inv (agent_closeForward c).
Proof.
  intros Hinv. unfold agent_closeForward. destruct (ac_forward c) as [n|] eqn:Hf; [|done].
  destruct (ai_forward c Hinv n Hf) as (p & f & Hl & _).
  pose proof (agent_unregister_inv c n (ESentinel ErrConnectionClosed) false Hinv
    (lookup_lt_Some _ _ _ Hl) ltac:(done)) as Hu.
  unfold agent_removeIfMatch in Hu. by rewrite bool_decide_eq_true_2 in Hu.
Qed.

Lemma agent_dispatch_inv c : agent_inv c → agent_inv (agent_dispatch c).
Proof.
  intros [Hs Hok Hreg Hopen Hd Hcl Hnd Hst]. unfold agent_dispatch. cbn [ac_forward].
  destruct (ac_forward c) as [n|] eqn:Hf; split; unfold agent_closings, agent_stops, agent_streams in *;
    cbn -[seq] in *; rewrite ?Hf; try done.
  - rewrite seq_S, <-Hs, fmap_app. simpl. solve_Permutation.
  - intros x k [Hx|Hx]%elem_of_app; [by eapply Hd|]. apply list_elem_of_singleton in Hx as [= -> ->].
    destruct (Hreg n eq_refl) as (p & f & ? & _). by eapply lookup_lt_Some.
  - rewrite seq_S, <-Hs. solve_Permutation.
Qed.

Lemma agent_deliver_inv c i : agent_inv c → agent_inv (agent_deliver c i).
Proof.
  intros Hinv. unfold agent_deliver. destruct (ac_dispatch c !! i) as [[x n]|] eqn:Hi; [|done].
  cbn [ac_listeners ac_closed].
  assert (n < length (ac_listeners c)) as Hn.
  { eapply (ai_dispatch c Hinv x). by eapply list_elem_of_lookup_2. }
  destruct (ac_listeners c !! n) as [[p f]|] eqn:Hl; [|apply lookup_ge_None in Hl; lia].
  pose proof (fmap_delete_Permutation fst _ _ _ Hi) as Hp. simpl in Hp.
  pose proof (deliver_ok (ac_closed c) f x (ai_ok c Hinv n p f Hl)) as Hok.
  unfold listener_deliver in *. destruct (hl_closed f || ac_closed c) eqn:Hc; simpl in *.
  - eapply (agent_inv_listener c n p f f (ac_reset c ++ [x])); try done.
    + rewrite Hp. solve_Permutation.
    + intros y k. apply elem_of_list_delete.
  - eapply (agent_inv_listener c n p f _ (ac_reset c)); try done.
    + rewrite Hp. unfold agent_streams_of. simpl. solve_Permutation.
    + intros y k. apply elem_of_list_delete.
Qed.

Lemma agent_Accept_inv c n e : agent_inv c → agent_inv (agent_Accept c n e).1.
Proof.
  intros Hinv. unfold agent_Accept. destruct (ac_listeners c !! n) as [[p f]|] eqn:Hl; [|done].
  pose proof (accept_ok (ac_closed c) e f (ai_ok c Hinv n p f Hl)) as Hok.
  unfold listener_accept in *. destruct (hl_incoming f) as [|x rest] eqn:Hi; simpl in *;
    (eapply (agent_inv_listener c n p f); try done).
  unfold agent_streams_of. simpl. by rewrite Hi, <-(assoc_L (++)).
Qed.

Lemma agent_closeLocal_inv c i : agent_inv c → agent_inv (agent_closeLocal c i).
Proof.
  intros Hinv. unfold agent_closeLocal. destruct (ac_closing c !! i) as [[[n e] stop]|] eqn:Hi; [|done].
  cbn [ac_listeners]. pose proof Hinv as [Hs Hok Hreg Hopen Hd Hcl Hnd Hst].
  assert (agent_closings c ≡ₚ n :: (delete i (ac_closing c)).*1.*1) as Hp.
  { unfold agent_closings. by rewrite (fmap_delete_Permutation fst _ _ _ Hi). }
  assert (n ∈ agent_closings c) as Hn by (rewrite Hp; left).
  destruct (ac_listeners c !! n) as [[p f]|] eqn:Hl; [|apply lookup_ge_None in Hl; specialize (Hcl n Hn); lia].
  pose proof (closeLocal_ok f e (Hok n p f Hl)) as Hok'.
  destruct (closeLocal_facts f e) as (Hc & Ha & Hinc).
  assert (hl_cancelled (listener_closeLocal f e).1 = hl_cancelled f) as Hcan.
  { unfold listener_closeLocal. by destruct (hl_closed f). }
  destruct (listener_closeLocal f e) as [f' pending]. simpl in *.
  assert (n < length (ac_listeners c)) as Hlt by by eapply lookup_lt_Some.
  assert ((if stop then ac_stopped c ++ [n] else ac_stopped c) ++ flat_map stop_of (delete i (ac_closing c)) ≡ₚ
          agent_stops c) as Hstops.
  { unfold agent_stops. rewrite (delete_Permutation (ac_closing c) i _ Hi) at 2. simpl. unfold stop_of at 2. simpl.
    destruct stop; [|done]. by rewrite <-(assoc_L (++)). }
  split; unfold agent_closings, agent_streams, agent_stops in *; simpl; try done.
  - rewrite <-Hs. unfold agent_held. pose proof (flat_map_insert agent_streams_of _ _ _ (p, f') Hl) as Hh.
    apply (Permutation_app_inv_r (agent_streams_of (p, f))). rewrite <-!(assoc_L (++)), Hh.
    unfold agent_streams_of. simpl. rewrite Ha, Hinc. solve_Permutation.
  - intros k q g [(<- & ? & _)|[_ Hk]]%list_lookup_insert_Some; [by simplify_eq|by eapply Hok].
  - intros k Hk. destruct (Hreg k Hk) as (q & g & ? & ? & ? & Hnc).
    assert (k ≠ n) by (by intros ->). exists q, g. rewrite list_lookup_insert_ne by done.
    split_and!; try done. intros Hin. apply Hnc. rewrite Hp. by right.
  - intros k q g [(<- & Heq & _)|[Hne Hk]]%list_lookup_insert_Some Hcg; [simplify_eq; congruence|].
    destruct (Hopen k q g Hk Hcg) as [?|Hin]; [by left|]. rewrite Hp in Hin. right. set_solver.
  - intros x k Hx%Hd. by rewrite length_insert.
  - intros k Hk. rewrite length_insert. apply Hcl. rewrite Hp. by right.
  - by rewrite Hstops.
  - intros k. rewrite Hstops. intros Hk. destruct (Hst k Hk) as (q & g & Hkl & ?).
    destruct (decide (k = n)) as [->|Hne].
    + rewrite Hl in Hkl. simplify_eq. exists q, f'. rewrite list_lookup_insert_eq by done. by rewrite Hcan.
    + exists q, g. by rewrite list_lookup_insert_ne by done.
Qed.

Lemma agent_client_step_inv x y : agent_inv x → agent_step x y → agent_inv y.
Proof.
  intros Hx Hs. destruct Hs; auto using agent_Listen_inv,
    agent_dispatch_inv, agent_deliver_inv, agent_closeLocal_inv, agent_Accept_inv, agent_Cancel_inv,
    agent_closeForward_inv.
  - by eapply agent_response_inv.
  - by destruct Hx; split.
Qed.

Lemma agent_reachable_inv c : rtc agent_step newAgentForwardClient c → agent_inv c.
Proof. apply (rtc_invariant _ _ agent_client_step_inv), newAgentForwardClient_inv. Qed.

(** Streams of agent connections are neither lost nor duplicated under every interleaving; at most
    one listener is active; a listener asks the helper to stop at most once, and only after it was
    cancelled; a listener that has left the registration and has run its [closeLocal] is closed and
    makes no acceptor wait. *)
Theorem agent_streams_conserved c :
  rtc agent_step newAgentForwardClient c →
  ac_reset c ++ (ac_dispatch c).*1 ++ agent_held (ac_listeners c) ≡ₚ seq 0 (ac_arrived c) ∧
  (∀ n p f, ac_listeners c !! n = Some (p, f) →
     hl_accepted f `prefix_of` hl_delivered f ∧
     (hl_closed f = true → hl_incoming f = [] ∧ ∀ ctxErr, (agent_Accept c n ctxErr).2 ≠ None)) ∧
  (∀ n p f, ac_listeners c !! n = Some (p, f) → n ∉ agent_closings c →
     hl_closed f = false ↔ ac_forward c = Some n) ∧
  NoDup (ac_stopped c) ∧
  (∀ n, n ∈ ac_stopped c → ∃ p f, ac_listeners c !! n = Some (p, f) ∧ hl_cancelled f = true).
Proof.
  intros [Hs Hok Hreg Hopen Hd Hcl Hnd Hst]%agent_reachable_inv. split_and!; [done|..].
  - intros n p f Hl. pose proof (Hok n p f Hl) as Hf. unfold listener_ok in Hf. destruct (hl_closed f) eqn:Hc.
    + destruct Hf as [Hi Hp]. split; [done|]. intros _. split; [done|]. intros ctxErr.
      unfold agent_Accept. rewrite Hl. pose proof (accept_returns (ac_closed c) ctxErr f (or_introl Hc)).
      by destruct (listener_accept _ _ f).
    + split; [rewrite Hf; by apply prefix_app_r|done].
  - intros n p f Hl Hn. split; [intros Hc; by destruct (Hopen n p f Hl Hc)|].
    intros Hf. destruct (Hreg n Hf) as (q & g & Hg & _ & ? & _). by rewrite Hl in Hg; simplify_eq.
  - by apply NoDup_app in Hnd as [? _].
  - intros n Hn. apply Hst, elem_of_app. by left.
Qed.

(** ** Closing the client *)

Lemma insert_fst {A B} (ls : list (A * B)) n p f f' :
  ls !! n = Some (p, f) → (<[n := (p, f')]> ls).*1 = ls.*1.
Proof. intros Hl. rewrite list_fmap_insert. apply list_insert_id. by rewrite list_lookup_fmap, Hl. Qed.

Lemma alter_fst_ne {A B} (g : A * B → A * B) (ls : list (A * B)) n k :
  k ≠ n → (alter g n ls).*1 !! k = ls.*1 !! k.
Proof. intros Hne. by rewrite !list_lookup_fmap, list_lookup_alter_ne by done. Qed.

(** Only listeners younger than the closed connection, still waiting for their answer, are left in
    the registry. *)
Definition stale_remote (old : nat) (r : remoteClient) : Prop :=
  ∀ b n, rc_forwards r !! b = Some n → old ≤ n ∧ (rc_listeners r).*1 !! n = Some (ListenInFlight b).
Definition stale_agent (old : nat) (a : agentClient) : Prop :=
  ∀ n, ac_forward a = Some n → old ≤ n ∧ (ac_listeners a).*1 !! n = Some AgentInFlight.

Lemma stale_remote_same old r r' :
  rc_forwards r' = rc_forwards r → (rc_listeners r').*1 = (rc_listeners r).*1 →
  stale_remote old r → stale_remote old r'.
Proof. unfold stale_remote. by intros -> ->. Qed.
Lemma stale_agent_same old a a' :
  ac_forward a' = ac_forward a → (ac_listeners a').*1 = (ac_listeners a).*1 →
  stale_agent old a → stale_agent old a'.
Proof. unfold stale_agent. by intros -> ->. Qed.

(** What a step of the remote listeners keeps: their number, their phases and their entries. *)
Lemma remote_deliver_keeps r i :
  rc_forwards (remote_deliver r i) = rc_forwards r ∧ (rc_listeners (remote_deliver r i)).*1 = (rc_listeners r).*1.
Proof.
  unfold remote_deliver. destruct (rc_dispatch r !! i) as [[x n]|]; [|done]. simpl.
  destruct (rc_listeners r !! n) as [[p f]|] eqn:Hl; [|done].
  destruct (listener_deliver (rc_closed r) f x) as [f' [y|]]; simpl; by rewrite (insert_fst _ _ _ f).
Qed.
Lemma remote_closeLocal_keeps r i :
  rc_forwards (remote_closeLocal r i) = rc_forwards r ∧ (rc_listeners (remote_closeLocal r i)).*1 = (rc_listeners r).*1.
Proof.
  unfold remote_closeLocal. destruct (rc_closing r !! i) as [[n e]|]; [|done]. simpl.
  destruct (rc_listeners r !! n) as [[p f]|] eqn:Hl; [|done].
  destruct (listener_closeLocal f e) as [f' y]; simpl; by rewrite (insert_fst _ _ _ f).
Qed.
Lemma remote_Accept_keeps r n e :
  rc_forwards (remote_Accept r n e).1 = rc_forwards r ∧ (rc_listeners (remote_Accept r n e).1).*1 = (rc_listeners r).*1.
Proof.
  unfold remote_Accept. destruct (rc_listeners r !! n) as [[p f]|] eqn:Hl; [|done].
  destruct (listener_accept (rc_closed r) e f) as [y f']; simpl; by rewrite (insert_fst _ _ _ f).
Qed.
Lemma remote_dispatch_keeps r info :
  rc_forwards (remote_dispatch r info) = rc_forwards r ∧ (rc_listeners (remote_dispatch r info)).*1 = (rc_listeners r).*1.
Proof. unfold remote_dispatch. simpl. by destruct (rc_forwards r !! ci_Bind info), (rc_forwards r !! ci_RequestedBind info). Qed.
Lemma agent_deliver_keeps a i :
  ac_forward (agent_deliver a i) = ac_forward a ∧ (ac_listeners (agent_deliver a i)).*1 = (ac_listeners a).*1.
Proof.
  unfold agent_deliver. destruct (ac_dispatch a !! i) as [[x n]|]; [|done]. simpl.
  destruct (ac_listeners a !! n) as [[p f]|] eqn:Hl; [|done].
  destruct (listener_deliver (ac_closed a) f x) as [f' [y|]]; simpl; by rewrite (insert_fst _ _ _ f).
Qed.
Lemma agent_closeLocal_keeps a i :
  ac_forward (agent_closeLocal a i) = ac_forward a ∧ (ac_listeners (agent_closeLocal a i)).*1 = (ac_listeners a).*1.
Proof.
  unfold agent_closeLocal. destruct (ac_closing a !! i) as [[[n e] s]|]; [|done]. simpl.
  destruct (ac_listeners a !! n) as [[p f]|] eqn:Hl; [|done].
  destruct (listener_closeLocal f e) as [f' y]; simpl; by rewrite (insert_fst _ _ _ f).
Qed.
Lemma agent_Accept_keeps a n e :
  ac_forward (agent_Accept a n e).1 = ac_forward a ∧ (ac_listeners (agent_Accept a n e).1).*1 = (ac_listeners a).*1.
Proof.
  unfold agent_Accept. destruct (ac_listeners a !! n) as [[p f]|] eqn:Hl; [|done].
  destruct (listener_accept (ac_closed a) e f) as [y f']; simpl; by rewrite (insert_fst _ _ _ f).
Qed.
Lemma agent_dispatch_keeps a :
  ac_forward (agent_dispatch a) = ac_forward a ∧ (ac_listeners (agent_dispatch a)).*1 = (ac_listeners a).*1.
Proof. unfold agent_dispatch. simpl. by destruct (ac_forward a). Qed.

(** The steps that change a phase or the registry. *)
Lemma remote_Listen_stale old r host port :
  old ≤ length (rc_listeners r) → stale_remote old r → stale_remote old (remote_Listen r host port).1.
Proof.
  intros Hlen Hst. unfold remote_Listen, remote_add. set (bind := JoinHostPort host _).
  destruct (rc_forwards r !! bind); [done|]. intros b n. simpl. rewrite fmap_app.
  intros [[<- <-]|[Hne Hb]]%lookup_insert_Some.
  - split; [done|]. rewrite lookup_app_r by (by rewrite length_fmap). by rewrite length_fmap, Nat.sub_diag.
  - destruct (Hst b n Hb) as [? Hn]. split; [done|]. by apply lookup_app_l_Some.
Qed.

Lemma remote_response_stale old r n bind f response :
  rc_listeners r !! n = Some (ListenInFlight bind, f) → (old ≤ n → ∃ e, response = Err e) →
  stale_remote old r → stale_remote old (remote_Listen_response r n bind response).1.
Proof.
  intros Hl Hans Hst.
  assert (∀ b, rc_forwards r !! b = Some n → b = bind) as Hkey.
  { intros b Hb. destruct (Hst b n Hb) as [_ Hn]. rewrite list_lookup_fmap, Hl in Hn. by simplify_eq/=. }
  unfold remote_Listen_response. destruct response as [[actual port]|e].
  - destruct (decide (old ≤ n)) as [Hle|Hgt]; [by destruct (Hans Hle)|].
    unfold remote_rekey. simpl. case_bool_decide as Hb; [by destruct (Hst _ _ Hb)|].
    intros b k Hk. simpl in *. destruct (Hst b k Hk) as [? Hp]. split; [done|].
    assert (k ≠ n) by (intros ->; lia). by rewrite !alter_fst_ne.
  - unfold remote_removeIfMatch. simpl. intros b k Hk.
    assert (rc_forwards r !! b = Some k ∧ k ≠ n) as [Hb Hne].
    { case_bool_decide as Hb; simpl in Hk.
      - apply lookup_delete_Some in Hk as [Hne Hk]. split; [done|]. intros ->. by apply Hne, symmetry, Hkey.
      - split; [done|]. intros ->. pose proof (Hkey b Hk). by subst. }
    destruct (Hst b k Hb). split; [done|]. case_bool_decide; simpl; by rewrite alter_fst_ne.
Qed.

Lemma remote_Cancel_stale old r n : stale_remote old r → stale_remote old (remote_Cancel r n).
Proof.
  intros Hst. unfold remote_Cancel. destruct (rc_listeners r !! n) as [[p f]|] eqn:Hl; [|done].
  unfold listener_cancel. destruct (hl_cancelled f); [done|]. simpl. intros b k. simpl.
  rewrite map_lookup_filter_Some, (insert_fst _ _ _ f) by done. intros [Hb _]. by apply Hst.
Qed.

Lemma agent_Listen_stale old a :
  old ≤ length (ac_listeners a) → stale_agent old a → stale_agent old (agent_Listen a).1.
Proof.
  intros Hlen Hst. unfold agent_Listen. destruct (ac_forward a) eqn:E; [done|]. intros n. simpl. intros [= <-].
  split; [done|]. rewrite fmap_app, lookup_app_r by (by rewrite length_fmap). by rewrite length_fmap, Nat.sub_diag.
Qed.

Lemma agent_response_stale old a n response :
  (old ≤ n → ∃ e, response = Err e) → stale_agent old a →
  stale_agent old (agent_Listen_response a n response).1.
Proof.
  intros Hans Hst. unfold agent_Listen_response. destruct response as [path|e].
  - destruct (decide (old ≤ n)) as [Hle|Hgt]; [by destruct (Hans Hle)|]. intros k Hk. simpl in *.
    destruct (Hst k Hk). split; [done|]. rewrite alter_fst_ne; [done|]. intros ->. lia.
  - unfold agent_removeIfMatch. simpl. case_bool_decide as Hf; [done|]. intros k Hk. simpl in *.
    destruct (Hst k Hk). split; [done|]. rewrite alter_fst_ne; [done|]. by intros ->.
Qed.

Lemma agent_Cancel_stale old a n : stale_agent old a → stale_agent old (agent_Cancel a n).
Proof.
  intros Hst. unfold agent_Cancel. destruct (ac_listeners a !! n) as [[p f]|] eqn:Hl; [|done].
  unfold listener_cancel. destruct (hl_cancelled f); [done|]. simpl. unfold agent_removeIfMatch. simpl.
  case_bool_decide; [done|]. intros k Hk. simpl in *. rewrite (insert_fst _ _ _ f) by done. by apply Hst.
Qed.

(** No step but closing changes the closed flag, and listeners are never forgotten. *)
Definition remote_frame (r r' : remoteClient) : Prop :=
  rc_closed r' = rc_closed r ∧ length (rc_listeners r) ≤ length (rc_listeners r').
Definition agent_frame (a a' : agentClient) : Prop :=
  ac_closed a' = ac_closed a ∧ length (ac_listeners a) ≤ length (ac_listeners a').

Ltac solve_frame :=
  repeat case_match; simplify_eq/=; split;
  rewrite ?length_app, ?length_alter, ?length_insert; simpl;
  rewrite ?length_app, ?length_alter, ?length_insert; simpl; (done || lia).

Lemma remote_Listen_frame r host port : remote_frame r (remote_Listen r host port).1.
Proof. unfold remote_Listen, remote_add. solve_frame. Qed.
Lemma remote_response_frame r n bind response : remote_frame r (remote_Listen_response r n bind response).1.
Proof. unfold remote_Listen_response, remote_rekey, remote_removeIfMatch. solve_frame. Qed.
Lemma remote_dispatch_frame r info : remote_frame r (remote_dispatch r info).
Proof. unfold remote_dispatch. solve_frame. Qed.
Lemma remote_deliver_frame r i : remote_frame r (remote_deliver r i).
Proof. unfold remote_deliver. solve_frame. Qed.
Lemma remote_closeLocal_frame r i : remote_frame r (remote_closeLocal r i).
Proof. unfold remote_closeLocal. solve_frame. Qed.
Lemma remote_Accept_frame r n e : remote_frame r (remote_Accept r n e).1.
Proof. unfold remote_Accept. solve_frame. Qed.
Lemma remote_Cancel_frame r n : remote_frame r (remote_Cancel r n).
Proof. unfold remote_Cancel, remote_removeForward. solve_frame. Qed.
Lemma agent_Listen_frame a : agent_frame a (agent_Listen a).1.
Proof. unfold agent_Listen. solve_frame. Qed.
Lemma agent_response_frame a n response : agent_frame a (agent_Listen_response a n response).1.
Proof. unfold agent_Listen_response, agent_removeIfMatch. solve_frame. Qed.
Lemma agent_dispatch_frame a : agent_frame a (agent_dispatch a).
Proof. unfold agent_dispatch. solve_frame. Qed.
Lemma agent_deliver_frame a i : agent_frame a (agent_deliver a i).
Proof. unfold agent_deliver. solve_frame. Qed.
Lemma agent_closeLocal_frame a i : agent_frame a (agent_closeLocal a i).
Proof. unfold agent_closeLocal. solve_frame. Qed.
Lemma agent_Accept_frame a n e : agent_frame a (agent_Accept a n e).1.
Proof. unfold agent_Accept. solve_frame. Qed.
Lemma agent_Cancel_frame a n : agent_frame a (agent_Cancel a n).
Proof. unfold agent_Cancel, agent_removeIfMatch. solve_frame. Qed.

Record helper_inv (c : helperClient) : Prop := {
  hi_remote : remote_inv (hc_remote c);
  hi_agent : agent_inv (hc_agent c);
  hi_remoteClosed : 1 ≤ stage_nat (hc_stage c) → rc_closed (hc_remote c) = true;
  hi_agentClosed : 1 ≤ stage_nat (hc_stage c) → ac_closed (hc_agent c) = true;
  hi_remoteOld : 2 ≤ stage_nat (hc_stage c) → hc_remoteOld c ≤ length (rc_listeners (hc_remote c));
  hi_agentOld : 2 ≤ stage_nat (hc_stage c) → hc_agentOld c ≤ length (ac_listeners (hc_agent c));
  hi_remoteStale : 3 ≤ stage_nat (hc_stage c) → stale_remote (hc_remoteOld c) (hc_remote c);
  hi_agentStale : 4 ≤ stage_nat (hc_stage c) → stale_agent (hc_agentOld c) (hc_agent c);
}.

Lemma helper_inv_remote c r :
  helper_inv c → remote_inv r → remote_frame (hc_remote c) r →
  (3 ≤ stage_nat (hc_stage c) → stale_remote (hc_remoteOld c) (hc_remote c) → stale_remote (hc_remoteOld c) r) →
  helper_inv (set_remoteClient c r).
Proof.
  intros [? ? Hc ? Ho ? Hst ?] Hr [Hc' Hl] Hs. split; simpl; try done; [rewrite Hc'; exact Hc| |by auto].
  intros Hg. specialize (Ho Hg). lia.
Qed.
Lemma helper_inv_agent c a :
  helper_inv c → agent_inv a → agent_frame (hc_agent c) a →
  (4 ≤ stage_nat (hc_stage c) → stale_agent (hc_agentOld c) (hc_agent c) → stale_agent (hc_agentOld c) a) →
  helper_inv (set_agentClient c a).
Proof.
  intros [? ? ? Hc ? Ho ? Hst] Hr [Hc' Hl] Hs. split; simpl; try done; [rewrite Hc'; exact Hc| |by auto].
  intros Hg. specialize (Ho Hg). lia.
Qed.

Lemma helper_Close_inv c : helper_inv c → helper_inv (helper_Close c).
Proof.
  intros [Hr Ha Hrc Hac Hro Hao Hrs Has]. unfold helper_Close.
  destruct (hc_stage c) eqn:E; simpl in *; try (by split; rewrite ?E).
  - split; simpl; try done; try lia; [by destruct Hr; split|by destruct Ha; split].
  - split; simpl; try done; lia || auto.
  - split; simpl; auto using remote_close_inv; try lia; try (intros; apply Hro || apply Hao; lia).
    intros _ b n. simpl. by rewrite lookup_empty.
  - split; simpl; auto using agent_closeForward_inv; try lia.
    + intros _. unfold agent_closeForward. destruct (ac_forward (hc_agent c)); simpl; apply Hac; lia.
    + intros _. unfold agent_closeForward. destruct (ac_forward (hc_agent c)); simpl; apply Hao; lia.
    + intros _ n. unfold agent_closeForward. by destruct (ac_forward (hc_agent c)) eqn:Hf; simpl; rewrite ?Hf.
Qed.

Lemma handleRemoteStream_inv c headers : helper_inv c → helper_inv (handleRemoteStream c headers).1.
Proof.
  intros Hinv. unfold handleRemoteStream. destruct (remoteIncomingFromStream _ headers) as [x|e]; [|done].
  apply helper_inv_remote; [done|apply remote_dispatch_inv, Hinv|apply remote_dispatch_frame|].
  intros _. by apply stale_remote_same; apply remote_dispatch_keeps.
Qed.

Lemma helper_step_inv c c' : helper_inv c → helper_step c c' → helper_inv c'.
Proof.
  intros Hinv Hs. pose proof (hi_remote c Hinv) as Hr. pose proof (hi_agent c Hinv) as Ha.
  destruct Hs as [c host port|c n bind f response Hl Hans|c headers|c i|c i|c n e|c n bind port f Hl
    |c|c n f response Hl Hans|c|c i|c i|c n e|c n path f Hl|c].
  - apply helper_inv_remote; auto using remote_Listen_inv, remote_Listen_frame. intros Hg.
    apply remote_Listen_stale, (hi_remoteOld c Hinv). lia.
  - apply helper_inv_remote; auto using remote_response_frame; [by eapply remote_response_inv|].
    intros Hg. eapply remote_response_stale; [done|]. apply Hans. lia.
  - by apply handleRemoteStream_inv.
  - apply helper_inv_remote; auto using remote_deliver_inv, remote_deliver_frame. intros _.
    by apply stale_remote_same; apply remote_deliver_keeps.
  - apply helper_inv_remote; auto using remote_closeLocal_inv, remote_closeLocal_frame. intros _.
    by apply stale_remote_same; apply remote_closeLocal_keeps.
  - apply helper_inv_remote; auto using remote_Accept_inv, remote_Accept_frame. intros _.
    by apply stale_remote_same; apply remote_Accept_keeps.
  - apply helper_inv_remote; auto using remote_Cancel_inv, remote_Cancel_frame, remote_Cancel_stale.
  - apply helper_inv_agent; auto using agent_Listen_inv, agent_Listen_frame. intros Hg.
    apply agent_Listen_stale, (hi_agentOld c Hinv). lia.
  - apply helper_inv_agent; auto using agent_response_frame; [by eapply agent_response_inv|].
    intros Hg. apply agent_response_stale. apply Hans. lia.
  - apply helper_inv_agent; auto using agent_dispatch_inv, agent_dispatch_frame. intros _.
    by apply stale_agent_same; apply agent_dispatch_keeps.
  - apply helper_inv_agent; auto using agent_deliver_inv, agent_deliver_frame. intros _.
    by apply stale_agent_same; apply agent_deliver_keeps.
  - apply helper_inv_agent; auto using agent_closeLocal_inv, agent_closeLocal_frame. intros _.
    by apply stale_agent_same; apply agent_closeLocal_keeps.
  - apply helper_inv_agent; auto using agent_Accept_inv, agent_Accept_frame. intros _.
    by apply stale_agent_same; apply agent_Accept_keeps.
  - apply helper_inv_agent; auto using agent_Cancel_inv, agent_Cancel_frame, agent_Cancel_stale.
  - by apply helper_Close_inv.
Qed.

Lemma helper_NewClient_inv : helper_inv helper_NewClient.
Proof. split; simpl; try lia; [apply newRemoteForwardClient_inv|apply newAgentForwardClient_inv]. Qed.

Lemma helper_reachable_inv c : rtc helper_step helper_NewClient c → helper_inv c.
Proof. apply (rtc_invariant _ _ helper_step_inv), helper_NewClient_inv. Qed.

(** Nobody is in the middle of a call on the listeners. *)
Definition helper_quiet (c : helperClient) : Prop :=
  rc_closing (hc_remote c) = [] ∧ ac_closing (hc_agent c) = [] ∧
  (∀ n b f, rc_listeners (hc_remote c) !! n ≠ Some (ListenInFlight b, f)) ∧
  (∀ n f, ac_listeners (hc_agent c) !! n ≠ Some (AgentInFlight, f)).

(** Closing the helper client, under every interleaving with listening, arriving streams,
    accepting and cancelling.  As soon as [Close] has closed its channel no [Accept] waits, on any
    listener of either kind.  Once [Close] has returned and the calls in progress have ended, every
    agent listener and every remote listener is closed with nothing in its queue, except a remote
    one whose registration another listener's response overwrote; listeners asked for after the
    connection was closed are no exception. *)
Theorem helper_client_close_releases c :
  rtc helper_step helper_NewClient c →
  (1 ≤ stage_nat (hc_stage c) →
     (∀ n p f ctxErr, rc_listeners (hc_remote c) !! n = Some (p, f) → (remote_Accept (hc_remote c) n ctxErr).2 ≠ None) ∧
     (∀ n p f ctxErr, ac_listeners (hc_agent c) !! n = Some (p, f) → (agent_Accept (hc_agent c) n ctxErr).2 ≠ None)) ∧
  (hc_stage c = CloseAgent → helper_quiet c →
     (∀ n p f, rc_listeners (hc_remote c) !! n = Some (p, f) → n ∉ rc_lost (hc_remote c) →
        hl_closed f = true ∧ hl_incoming f = []) ∧
     (∀ n p f, ac_listeners (hc_agent c) !! n = Some (p, f) → hl_closed f = true ∧ hl_incoming f = [])).
Proof.
  intros Hinv%helper_reachable_inv. split.
  - intros Hg. pose proof (hi_remoteClosed c Hinv Hg) as Hr. pose proof (hi_agentClosed c Hinv Hg) as Ha.
    split; intros n p f ctxErr Hl.
    + unfold remote_Accept. rewrite Hl, Hr. pose proof (accept_returns true ctxErr f ltac:(by right)).
      by destruct (listener_accept true ctxErr f).
    + unfold agent_Accept. rewrite Hl, Ha. pose proof (accept_returns true ctxErr f ltac:(by right)).
      by destruct (listener_accept true ctxErr f).
  - intros Hst (Hrc & Hac & Hrf & Haf).
    assert (∀ {A} (f : helperListener A), listener_ok f → hl_closed f = true → hl_closed f = true ∧ hl_incoming f = [])
      as Hok by (intros A f Hf Hc; unfold listener_ok in Hf; rewrite Hc in Hf; by destruct Hf).
    split; intros n p f Hl.
    + intros Hn. apply Hok; [by eapply (ri_ok _ (hi_remote c Hinv))|].
      destruct (hl_closed f) eqn:Hc; [done|]. exfalso.
      destruct (ri_open _ (hi_remote c Hinv) n p f Hl Hc) as [[b Hb]|[Hin|?]]; [|rewrite Hrc in Hin; set_solver|done].
      destruct (hi_remoteStale c Hinv ltac:(rewrite Hst; simpl; lia) b n Hb) as [_ Hp].
      rewrite list_lookup_fmap, Hl in Hp. simplify_eq/=. by eapply Hrf.
    + apply Hok; [by eapply (ai_ok _ (hi_agent c Hinv))|].
      destruct (hl_closed f) eqn:Hc; [done|]. exfalso.
      destruct (ai_open _ (hi_agent c Hinv) n p f Hl Hc) as [Hf|Hin];
        [|unfold agent_closings in Hin; rewrite Hac in Hin; set_solver].
      destruct (hi_agentStale c Hinv ltac:(rewrite Hst; simpl; lia) n Hf) as [_ Hp].
      rewrite list_lookup_fmap, Hl in Hp. simplify_eq/=. by eapply Haf.
Qed.

(** A client with an agent listener that has a stream waiting is closed; an agent listener asked
    for afterwards is refused by the closed connection. *)
Definition close_example_1 : helperClient :=
  let c := set_agentClient helper_NewClient (agent_Listen newAgentForwardClient).1 in
  let c := set_agentClient c (agent_Listen_response (hc_agent c) 0 (Ok "/tmp/agent.sock")).1 in
  let c := handleAgentStream c in
  let c := set_agentClient c (agent_deliver (hc_agent c) 0) in
  helper_Close (helper_Close (helper_Close (helper_Close c))).
Definition close_example : helperClient :=
  let c := set_agentClient close_example_1 (agent_Listen (hc_agent close_example_1)).1 in
  let c := set_agentClient c (agent_Listen_response (hc_agent c) 1 (Err (ESentinel ErrConnectionClosed))).1 in
  let c := set_agentClient c (agent_closeLocal (hc_agent c) 0) in
  set_agentClient c (agent_closeLocal (hc_agent c) 0).

Lemma helper_client_close_releases_witness :
  length (ac_listeners (hc_agent close_example)) = 2 ∧ ac_reset (hc_agent close_example) = [0] ∧
  ∀ n p f, ac_listeners (hc_agent close_example) !! n = Some (p, f) → hl_closed f = true ∧ hl_incoming f = [].
Proof.
  split; [by vm_compute|]. split; [by vm_compute|].
  apply (helper_client_close_releases close_example).
  - eapply rtc_l; [apply helper_ListenAgent|].
    eapply rtc_l; [eapply (helper_agentResponse _ 0 _ (Ok "/tmp/agent.sock")); [by vm_compute|]|].
    { intros Hg. simpl in Hg. lia. }
    eapply rtc_l; [apply helper_agentStream|].
    eapply rtc_l; [apply (helper_agentDeliver _ 0)|].
    eapply rtc_l; [apply helper_closing|]. eapply rtc_l; [apply helper_closing|].
    eapply rtc_l; [apply helper_closing|]. eapply rtc_l; [apply helper_closing|].
    eapply rtc_l; [apply helper_ListenAgent|].
    eapply rtc_l; [eapply (helper_agentResponse _ 1 _ (Err (ESentinel ErrConnectionClosed))); [by vm_compute|]|].
    { intros _ _. by eexists. }
    eapply rtc_l; [apply (helper_agentCloseLocal _ 0)|].
    apply rtc_once. apply (helper_agentCloseLocal _ 0).
  - by vm_compute.
  - split; [by vm_compute|]. split; [by vm_compute|]. split; [intros [|n] b f; by vm_compute|].
    intros [|[|n]] f; by vm_compute.
Defined.

(** ** [stdioConn] *)

Inductive stdio_run : stdioConn → stdioConn → Prop :=
| stdio_done c : stdio_run c c
| stdio_close c c' : stdio_run (stdio_Close c).1 c' → stdio_run c c'
| stdio_closeWrite c c' : stdio_run (stdio_CloseWrite c).1 c' → stdio_run c c'.

(** Closes happen in step with the two [sync.Once] values. *)
Definition stdio_ok (c : stdioConn) : Prop :=
  sc_readerClosed c = match sc_closeOnce c with Some _ => 1 | None => 0 end ∧
  sc_writerClosed c = match sc_closeWriteOnce c with Some _ => 1 | None => 0 end ∧
  (is_Some (sc_closeOnce c) → is_Some (sc_closeWriteOnce c)).

Lemma stdio_run_ok c c' : stdio_run c c' → stdio_ok c → stdio_ok c'.
Proof.
  induction 1 as [c|c c' _ IH|c c' _ IH]; [done|..]; intros (Hr & Hw & Hi); apply IH;
    unfold stdio_ok, stdio_Close, stdio_CloseWrite; destruct c as [rc wc rn wn [co|] [cw|]]; simpl in *; naive_solver.
Qed.

(** Whatever the order and number of [Close] and [CloseWrite] calls, each stream is closed at most
    once, and [Close] leaves both closed exactly once. *)
Theorem stdio_closed_once readerClose writerClose c :
  stdio_run (newStdioConn readerClose writerClose) c →
  sc_readerClosed c ≤ 1 ∧ sc_writerClosed c ≤ 1 ∧
  sc_readerClosed (stdio_Close c).1 = 1 ∧ sc_writerClosed (stdio_Close c).1 = 1.
Proof.
  intros Hr. assert (stdio_ok c) as (Hrc & Hwc & Hi) by (eapply stdio_run_ok; [done|]; by split_and!; try intros [? [=]]).
  unfold stdio_Close, stdio_CloseWrite. destruct c as [rc wc rn wn [co|] [cw|]]; simpl in *; subst; try (split_and!; lia).
  by destruct (Hi ltac:(done)).
Qed.

(** [RunDial] closes its standard streams on every path, and dials only a non-empty host and a
    port between 1 and 65535. *)
Theorem RunDial_closes {conn} (dial : string → result conn) proxy host port stdio :
  (∀ c s, sc_readerClosed (stdio_Close (proxy c s).1).1 = 1 ∧ sc_writerClosed (stdio_Close (proxy c s).1).1 = 1) →
  sc_readerClosed (stdio_Close stdio).1 = 1 → sc_writerClosed (stdio_Close stdio).1 = 1 →
  sc_readerClosed (RunDial dial proxy host port stdio).1 = 1 ∧
  sc_writerClosed (RunDial dial proxy host port stdio).1 = 1.
Proof.
  intros Hp Hr Hw. unfold RunDial. case_bool_decide; [done|]. destruct (_ || _); [done|].
  destruct (dial _) as [c|e]; [|done]. destruct (proxy c stdio) as [s err] eqn:E. simpl.
  specialize (Hp c stdio). by rewrite E in Hp.
Qed.
