(* ===== verification/Metrics.v ===== *)
(** Model of the metrics of the gateway: the observations of [src/pkg/metrics/metrics.go], the
    Prometheus recorder of [prometheus.go], and the wrappers that observe the Access policy
    ([src/pkg/accesspolicy/metrics.go]) and the Pod backend ([src/pkg/podssh/backend/metrics.go]).

    The Prometheus client library is outside the repository: the registry is a parameter with its
    documented laws, and a recorder method is the list of the operations it applies to labelled
    metrics.  Durations are nanoseconds; bucket bounds are in units of a tenth of a millisecond. *)

From S2P Require Import Prelude GoStrings Target Authn Options Authz Operation Handshake Executor HelperCache Assembly GatewayServer.

(** ** Observations: the methods of [Recorder] *)

Inductive observation :=
| ObsAuditDelivery (result : string)
| ObsAuthAttempt (credential result : string)
| ObsConnectionOpened (method : string)
| ObsConnectionClosed (method : string)
| ObsOperationStarted (kind capability : string)
| ObsOperationFinished (kind capability result : string) (duration : Z)
| ObsBackendOperationFinished (operation result : string) (duration : Z)
| ObsStreamOpened (kind : string)
| ObsStreamClosed (kind : string)
| ObsStreamBytes (kind direction : string) (n : Z)
| ObsHelperAcquired (capability : string)
| ObsHelperAcquireFinished (capability result : string) (duration : Z)
| ObsHelperReleased (capability result : string) (duration : Z)
| ObsAccessPolicyCacheSyncFinished (resource result : string) (duration : Z)
| ObsAccessPolicyObjects (resource : string) (count : Z)
| ObsAccessPolicyAuthFinished (credential result : string) (duration : Z)
| ObsAccessPolicyResolveFinished (result : string) (duration : Z)
| ObsAccessPolicyAuthorizeFinished (capability decision result : string) (duration : Z).

Definition labelValue (value : string) : string := if bool_decide (value = "") then "unknown" else value.

(** ** The metric families *)

(** The fields of [PrometheusRecorder] but the registry. *)
Inductive vector :=
| v_authAttempts | v_connections | v_activeConnections | v_operations | v_activeOperations |
v_operationDuration | v_backendOperations | v_backendOperationDuration | v_streams | v_activeStreams |
v_streamBytes | v_helperAcquire | v_helperAcquireDuration | v_activeHelpers | v_helperRelease |
v_helperUsageDuration | v_accessPolicyCacheSync | v_accessPolicyCacheSyncDur | v_accessPolicyObjects |
v_accessPolicyAuth | v_accessPolicyAuthDuration | v_accessPolicyResolve | v_accessPolicyResolveDur |
v_accessPolicyAuthorize | v_accessPolicyAuthorizeDur | v_auditEvents | v_buildInfo.
#[export] Instance vector_eq_dec : EqDecision vector.
Proof. solve_decision. Defined.

Inductive metricKind := Counter | Gauge | Histogram (buckets : list Z).

Record family := mkFamily { fam_Kind : metricKind; fam_Name : string; fam_Help : string; fam_Labels : list string }.

Definition durations_long : list Z := [50; 100; 250; 500; 1000; 2500; 5000; 10000; 25000; 50000; 100000; 300000; 600000; 3000000; 9000000; 36000000]%Z.
Definition durations_operation : list Z := [50; 100; 250; 500; 1000; 2500; 5000; 10000; 25000; 50000; 100000; 300000; 600000]%Z.
Definition durations_sync : list Z := [100; 250; 500; 1000; 2500; 5000; 10000; 25000; 50000; 100000; 300000; 600000]%Z.
Definition durations_policy : list Z := [10; 25; 50; 100; 250; 500; 1000; 2500; 5000; 10000; 25000; 50000]%Z.

Definition metric_family (v : vector) : family :=
  match v with
  | v_authAttempts => mkFamily Counter "auth_attempts_total" 
      "Total SSH authentication attempts." ["credential"; "result"]
  | v_connections => mkFamily Counter "connections_total" "Total accepted SSH connections." ["method"]
  | v_activeConnections => mkFamily Gauge "active_connections" "Current active SSH connections." ["method"]
  | v_operations => mkFamily Counter "operations_total" "Total SSH operations." ["kind"; "capability"; "result"]
  | v_activeOperations => mkFamily Gauge "active_operations" 
      "Current active SSH operations." ["kind"; "capability"]
  | v_operationDuration => mkFamily (Histogram durations_long) "operation_duration_seconds" 
      "SSH operation duration in seconds." ["kind"; "capability"; "result"]
  | v_backendOperations => mkFamily Counter "backend_operations_total" 
      "Total backend operations." ["operation"; "result"]
  | v_backendOperationDuration => mkFamily (Histogram durations_operation) "backend_operation_duration_seconds" 
      "Backend operation duration in seconds." ["operation"; "result"]
  | v_streams => mkFamily Counter "streams_total" "Total proxied bidirectional streams." ["kind"]
  | v_activeStreams => mkFamily Gauge "active_streams" "Current active proxied bidirectional streams." ["kind"]
  | v_streamBytes => mkFamily Counter "stream_bytes_total" 
      "Total bytes copied by proxied streams." ["kind"; "direction"]
  | v_helperAcquire => mkFamily Counter "helper_acquire_total" 
      "Total helper acquire attempts." ["capability"; "result"]
  | v_helperAcquireDuration => mkFamily (Histogram durations_operation) "helper_acquire_duration_seconds" 
      "Helper acquire duration in seconds." ["capability"; "result"]
  | v_activeHelpers => mkFamily Gauge "active_helpers" "Current active acquired helper handles." ["capability"]
  | v_helperRelease => mkFamily Counter "helper_release_total" 
      "Total helper release attempts." ["capability"; "result"]
  | v_helperUsageDuration => mkFamily (Histogram durations_long) "helper_usage_duration_seconds" 
      "Duration between helper acquire success and release." ["capability"; "result"]
  | v_accessPolicyCacheSync => mkFamily Counter "access_policy_cache_sync_total" 
      "Total AccessPolicy informer cache sync attempts." ["resource"; "result"]
  | v_accessPolicyCacheSyncDur => mkFamily (Histogram durations_sync) "access_policy_cache_sync_duration_seconds" 
      "AccessPolicy informer cache sync duration in seconds." ["resource"; "result"]
  | v_accessPolicyObjects => mkFamily Gauge "access_policy_objects" 
      "Current AccessPolicy-related objects observed in informer cache." ["resource"]
  | v_accessPolicyAuth => mkFamily Counter "access_policy_auth_total" 
      "Total authentication attempts evaluated by AccessPolicy." ["credential"; "result"]
  | v_accessPolicyAuthDuration => mkFamily (Histogram durations_policy) "access_policy_auth_duration_seconds" 
      "AccessPolicy authentication evaluation duration in seconds." ["credential"; "result"]
  | v_accessPolicyResolve => mkFamily Counter "access_policy_resolve_total" 
      "Total target resolution attempts evaluated by AccessPolicy." ["result"]
  | v_accessPolicyResolveDur => mkFamily (Histogram durations_policy) "access_policy_resolve_duration_seconds" 
      "AccessPolicy target resolution duration in seconds." ["result"]
  | v_accessPolicyAuthorize => mkFamily Counter "access_policy_authorize_total" 
      "Total authorization attempts evaluated by AccessPolicy." ["capability"; "decision"; "result"]
  | v_accessPolicyAuthorizeDur => mkFamily (Histogram durations_policy) "access_policy_authorize_duration_seconds" 
      "AccessPolicy authorization evaluation duration in seconds." ["capability"; "decision"; "result"]
  | v_auditEvents => mkFamily Counter "audit_events_total" "Audit event delivery outcomes." ["result"]
  | v_buildInfo => mkFamily Gauge "build_info" 
      "Build information for kube-ssh." ["version"; "commit"; "build_date"]
  end.

(** The order in which the families are registered. *)
Definition registered_vectors : list vector :=
  [v_authAttempts; v_connections; v_activeConnections; v_operations; v_activeOperations;
   v_operationDuration; v_backendOperations; v_backendOperationDuration; v_streams; v_activeStreams;
   v_streamBytes; v_helperAcquire; v_helperAcquireDuration; v_activeHelpers; v_helperRelease;
   v_helperUsageDuration; v_accessPolicyCacheSync; v_accessPolicyCacheSyncDur; v_accessPolicyObjects;
   v_accessPolicyAuth; v_accessPolicyAuthDuration; v_accessPolicyResolve; v_accessPolicyResolveDur;
   v_accessPolicyAuthorize; v_accessPolicyAuthorizeDur; v_auditEvents; v_buildInfo].

(** ** The Prometheus recorder *)

Inductive metricAction := Inc | Dec | Add (n : Z) | Set_ (n : Z) | Observe (duration : Z).
Record metricOp := mkOp { op_vector : vector; op_labels : list string; op_action : metricAction }.

(** The methods of [PrometheusRecorder]. *)
Definition prometheus_record (o : observation) : list metricOp :=
  match o with
  | ObsAuditDelivery result => [mkOp v_auditEvents [labelValue result] Inc]
  | ObsAuthAttempt credential result => [mkOp v_authAttempts [labelValue credential; labelValue result] Inc]
  | ObsConnectionOpened method =>
      let method := labelValue method in [mkOp v_connections [method] Inc; mkOp v_activeConnections [method] Inc]
  | ObsConnectionClosed method => [mkOp v_activeConnections [labelValue method] Dec]
  | ObsOperationStarted kind capability => [mkOp v_activeOperations [labelValue kind; labelValue capability] Inc]
  | ObsOperationFinished kind capability result duration =>
      let kind := labelValue kind in let capability := labelValue capability in let result := labelValue result in
      [mkOp v_operations [kind; capability; result] Inc; mkOp v_activeOperations [kind; capability] Dec;
       mkOp v_operationDuration [kind; capability; result] (Observe duration)]
  | ObsBackendOperationFinished operation result duration =>
      let operation := labelValue operation in let result := labelValue result in
      [mkOp v_backendOperations [operation; result] Inc;
       mkOp v_backendOperationDuration [operation; result] (Observe duration)]
  | ObsStreamOpened kind =>
      let kind := labelValue kind in [mkOp v_streams [kind] Inc; mkOp v_activeStreams [kind] Inc]
  | ObsStreamClosed kind => [mkOp v_activeStreams [labelValue kind] Dec]
  | ObsStreamBytes kind direction n =>
      if (n <=? 0)%Z then [] else [mkOp v_streamBytes [labelValue kind; labelValue direction] (Add n)]
  | ObsHelperAcquired capability => [mkOp v_activeHelpers [labelValue capability] Inc]
  | ObsHelperAcquireFinished capability result duration =>
      let capability := labelValue capability in let result := labelValue result in
      [mkOp v_helperAcquire [capability; result] Inc;
       mkOp v_helperAcquireDuration [capability; result] (Observe duration)]
  | ObsHelperReleased capability result duration =>
      let capability := labelValue capability in let result := labelValue result in
      [mkOp v_activeHelpers [capability] Dec; mkOp v_helperRelease [capability; result] Inc;
       mkOp v_helperUsageDuration [capability; result] (Observe duration)]
  | ObsAccessPolicyCacheSyncFinished resource result duration =>
      let resource := labelValue resource in let result := labelValue result in
      [mkOp v_accessPolicyCacheSync [resource; result] Inc;
       mkOp v_accessPolicyCacheSyncDur [resource; result] (Observe duration)]
  | ObsAccessPolicyObjects resource count => [mkOp v_accessPolicyObjects [labelValue resource] (Set_ count)]
  | ObsAccessPolicyAuthFinished credential result duration =>
      let credential := labelValue credential in let result := labelValue result in
      [mkOp v_accessPolicyAuth [credential; result] Inc;
       mkOp v_accessPolicyAuthDuration [credential; result] (Observe duration)]
  | ObsAccessPolicyResolveFinished result duration =>
      let result := labelValue result in
      [mkOp v_accessPolicyResolve [result] Inc; mkOp v_accessPolicyResolveDur [result] (Observe duration)]
  | ObsAccessPolicyAuthorizeFinished capability decision result duration =>
      let capability := labelValue capability in let decision := labelValue decision in
      let result := labelValue result in
      [mkOp v_accessPolicyAuthorize [capability; decision; result] Inc;
       mkOp v_accessPolicyAuthorizeDur [capability; decision; result] (Observe duration)]
  end.

Definition nop_record (o : observation) : list metricOp := [].

(** ** Registration *)

Inductive collector := VecCollector (fqName : string) (v : vector) | GoCollector | ProcessCollector.
#[export] Instance collector_eq_dec : EqDecision collector.
Proof. solve_decision. Defined.

Inductive registerError := AlreadyRegistered | OtherRegisterError.

(** The registry of the client library. *)
Class PromRegistry (R : Type) := {
  NewRegistry : R;
  Register : R → collector → R * option registerError;
}.

(** The identity by which the registry tells collectors apart. *)
Definition collector_name (c : collector) : string :=
  match c with VecCollector fqName _ => fqName | GoCollector => "go" | ProcessCollector => "process" end.

(** What is documented of a registry: a collector whose name is not yet registered is accepted. *)
Class PromRegistryLaws (R : Type) `{PromRegistry R} := {
  registry_names : R → list string;
  registry_new : registry_names NewRegistry = [];
  registry_accepts r c : collector_name c ∉ registry_names r →
    ∃ r', Register r c = (r', None) ∧ registry_names r' = collector_name c :: registry_names r;
}.

Record versionInfo := mkVersionInfo { vi_GitVersion : string; vi_GitCommit : string; vi_BuildDate : string }.
Definition version_String (i : versionInfo) : string :=
  vi_GitVersion i +:+ " (" +:+ vi_GitCommit i +:+ ", " +:+ vi_BuildDate i +:+ ")".

Record PrometheusOptions := mkPromOptions { po_Namespace : string; po_BuildInfo : versionInfo }.

Section Registration.
Context {R : Type} `{PromRegistry R}.

Fixpoint MustRegister (r : R) (cs : list collector) : result R :=
  match cs with
  | [] => Ok r
  | c :: cs => match Register r c with
               | (r, None) => MustRegister r cs
               | (_, Some _) => Err (EPanic "prometheus: MustRegister")
               end
  end.

Fixpoint registerRuntimeCollectors_go (r : R) (cs : list collector) : result R :=
  match cs with
  | [] => Ok r
  | c :: cs => match Register r c with
               | (r, None) => registerRuntimeCollectors_go r cs
               | (r, Some AlreadyRegistered) => registerRuntimeCollectors_go r cs
               | (_, Some OtherRegisterError) => Err (EPanic "prometheus: Register")
               end
  end.
Definition registerRuntimeCollectors (r : R) : result R := registerRuntimeCollectors_go r [GoCollector; ProcessCollector].

Definition prom_namespace (opts : PrometheusOptions) : string :=
  if bool_decide (po_Namespace opts = "") then "kube_ssh" else po_Namespace opts.
Definition vec_collector (namespace : string) (v : vector) : collector :=
  VecCollector (namespace +:+ "_" +:+ fam_Name (metric_family v)) v.

(** [NewPrometheusRecorder]: the registry with everything registered and the build information set. *)
Definition NewPrometheusRecorder (registry : option R) (opts : PrometheusOptions) : result (R * list metricOp) :=
  let r := default NewRegistry registry in
  r ← MustRegister r (vec_collector (prom_namespace opts) <$> registered_vectors);
  let info := po_BuildInfo opts in
  let set := mkOp v_buildInfo [labelValue (vi_GitVersion info); labelValue (vi_GitCommit info);
                               labelValue (vi_BuildDate info)] (Set_ 1) in
  r ← registerRuntimeCollectors r;
  Ok (r, [set]).

(** [buildMetrics]: [None] is the recorder that drops everything. *)
Definition buildMetrics (opts : Options) (info : versionInfo) : result (option (R * list metricOp)) :=
  if bool_decide (Metrics_ListenAddress opts = "") then Ok None
  else r ← NewPrometheusRecorder None (mkPromOptions "" info); Ok (Some r).
End Registration.

(** ** The observed Access policy and backend *)

Section Wrappers.
Context `{SSHKeys} (since : Z).

Definition metrics_AuthenticateBasic (a : SSHAuthenticator) (username password : string)
    : result AuthenticateInfo * list observation :=
  let r := AuthenticateBasic a username password in
  (r, [ObsAccessPolicyAuthFinished "password" (authResult r) since]).
Definition metrics_AuthenticatePublicKey (a : SSHAuthenticator) (sshUser : string) (key : PublicKey)
    : result AuthenticateInfo * list observation :=
  let r := AuthenticatePublicKey a sshUser key in
  (r, [ObsAccessPolicyAuthFinished "publickey" (authResult r) since]).
Definition metrics_Resolve {S} (next : Resolver S) (input : ResolveInput) (s : S)
    : (result Target * S) * list observation :=
  let '(r, s) := next input s in ((r, s), [ObsAccessPolicyResolveFinished (resolveResult r) since]).
Definition metrics_Authorize (next : Authorizer) (req : Request)
    : (Decision * string * option error) * list observation :=
  let '(decision, reason, err) := next req in
  ((decision, reason, err),
   [ObsAccessPolicyAuthorizeFinished (attr_Action (req_Attributes req)) (decision_string decision)
      (authorizeResult decision err) since]).

(** [metricsBackend]: the operations that end with an exit code and those that open something. *)
Definition backend_observation (x : string * string) : observation := ObsBackendOperationFinished x.1 x.2 since.
Definition observed_run (operation : string) (r : Z * option error) : (Z * option error) * list observation :=
  let '(r, l) := metrics_run operation r in (r, backend_observation <$> l).
Definition observed_open {A} (operation : string) (r : result A) : result A * list observation :=
  let '(r, l) := metrics_open operation r in (r, backend_observation <$> l).

(** [acquireHelper]: the lease counts as active before the end of the acquisition is recorded. *)
Definition acquireHelper (capability : string) (acquired : result string)
    : result metricsHelperLease * list observation :=
  match acquired with
  | Err e => (Err e, [ObsHelperAcquireFinished capability ResultError since])
  | Ok path => (Ok (mkLease path false 0),
                [ObsHelperAcquired capability; ObsHelperAcquireFinished capability ResultSuccess since])
  end.
(** [Release] of the lease with [err] the outcome of the release it wraps. *)
Definition release_observations (l : metricsHelperLease) (capability : string) (err : option error)
    : metricsHelperLease * list observation :=
  (lease_Release l,
   if ml_released l then [] else [ObsHelperReleased capability (errorResult err) since]).
End Wrappers.

(** ** What the gateway records *)

Definition effect_observations (e : effect) : list observation :=
  match e with
  | AuditRecord _ => []
  | OperationStarted kind capability => [ObsOperationStarted kind capability]
  | OperationFinished kind capability result duration => [ObsOperationFinished kind capability result duration]
  end.
Definition handshake_observations (e : handshakeEffect) : list observation :=
  match e with
  | HandshakeAudit _ => []
  | AuthAttempt credential result => [ObsAuthAttempt credential result]
  | ConnectionOpened method => [ObsConnectionOpened method]
  end.
Definition conn_observations (e : connEffect) : list observation :=
  match e with ConnectionClosed method => [ObsConnectionClosed method] | _ => [] end.
