(* ===== verification/MetricsProps.v ===== *)
(** Properties of the metrics: every observation fits the declared metric families, the recorder can
    always be registered, the gauges count what is active, and no connection stays counted as active
    once the gateway has ended. *)

From S2P Require Import Prelude Runs GoStrings Target Authn Options Authz Operation Handshake Executor HelperCache Assembly GatewayServer GatewayServerProps Metrics.

(** ** Well-typed observations *)

(** Which actions the client library allows on a metric; it panics on the others' values.  Its other
    panic, on a label value that is not valid UTF-8, is not part of this predicate. *)
Definition action_allowed (k : metricKind) (a : metricAction) : bool :=
  match k, a with
  | Counter, Inc => true
  | Counter, Add n => (0 <=? n)%Z
  | Gauge, (Inc | Dec | Add _ | Set_ _) => true
  | Histogram _, Observe _ => true
  | _, _ => false
  end.

(** One value for each label, none of them empty, and an action of the right kind. *)
Definition op_ok (o : metricOp) : Prop :=
  let f := metric_family (op_vector o) in
  length (op_labels o) = length (fam_Labels f) ∧ Forall (fun l => l ≠ "") (op_labels o) ∧
  action_allowed (fam_Kind f) (op_action o) = true.

Lemma labelValue_nonempty x : labelValue x ≠ "".
Proof. unfold labelValue. by case_bool_decide. Qed.
#[local] Hint Resolve labelValue_nonempty : core.

(** Bucket bounds must increase. *)
Definition buckets_ok (k : metricKind) : bool :=
  match k with Histogram buckets => bool_decide (Sorted Z.lt buckets) | _ => true end.

Lemma registered_vectors_all v : v ∈ registered_vectors.
Proof. by destruct v; refine (bool_decide_unpack _ _); vm_compute. Qed.

Lemma metrics_families_distinct : NoDup (fam_Name ∘ metric_family <$> registered_vectors).
Proof. refine (bool_decide_unpack _ _). by vm_compute. Qed.

(** C37: every observation fits the metric families it is recorded in: whatever the values, each
    recorder method addresses a registered family with exactly one non-empty value for each of its
    labels and an action of the family's kind, and counters never decrease.  The families themselves
    have distinct names, distinct labels and increasing buckets.  So none of the panics of the
    metrics library (wrong number of labels, negative counter, duplicate family, unsorted buckets)
    can be reached. *)
Theorem metrics_well_typed (o : observation) :
  (∀ op, op ∈ prometheus_record o → op_vector op ∈ registered_vectors ∧ op_ok op) ∧
  NoDup (fam_Name ∘ metric_family <$> registered_vectors) ∧
  (∀ v, NoDup (fam_Labels (metric_family v)) ∧ buckets_ok (fam_Kind (metric_family v)) = true).
Proof.
  split_and!.
  - intros op Hop. split; [apply registered_vectors_all|]. revert op Hop. apply Forall_forall.
    destruct o; simpl; try case_match eqn:Hc; repeat constructor; auto. simpl. by apply Z.leb_gt, Z.lt_le_incl, Z.leb_le in Hc.
  - apply metrics_families_distinct.
  - intros v. split; [|by destruct v; vm_compute]. by destruct v; refine (bool_decide_unpack _ _); vm_compute.
Qed.

(** ** Registration *)

Section Registration.
Context {R : Type} `{PromRegistryLaws R}.

Lemma MustRegister_fresh (cs : list collector) r :
  NoDup (collector_name <$> cs) → (∀ c, c ∈ cs → collector_name c ∉ registry_names r) →
  ∃ r', MustRegister r cs = Ok r' ∧ registry_names r' = reverse (collector_name <$> cs) ++ registry_names r.
Proof.
  revert r. induction cs as [|c cs IH]; intros r Hnd Hfresh; [by exists r|]. simpl in *.
  apply NoDup_cons in Hnd as [Hc Hnd].
  destruct (registry_accepts r c (Hfresh c ltac:(left))) as (r1 & Hr & Hnames). rewrite Hr.
  destruct (IH r1 Hnd) as (r2 & Hr2 & Hn2).
  { intros c' Hin. rewrite Hnames. intros [Heq|Hin']%elem_of_cons.
    - apply Hc. rewrite <-Heq. by apply list_elem_of_fmap_2.
    - by apply (Hfresh c'); [right|]. }
  exists r2. split; [done|]. by rewrite Hn2, Hnames, reverse_cons, <-(assoc_L (++)).
Qed.

Lemma vec_names_distinct namespace : NoDup (collector_name <$> (vec_collector namespace <$> registered_vectors)).
Proof.
  rewrite <-list_fmap_compose.
  assert (∀ vs : list vector, NoDup (fam_Name ∘ metric_family <$> vs) →
    NoDup (collector_name ∘ vec_collector namespace <$> vs)) as Hnd.
  { intros vs Hvs. rewrite (list_fmap_compose (fam_Name ∘ metric_family) (fun n => namespace +:+ "_" +:+ n)) .
    apply NoDup_fmap_2; [|done]. intros x y Hxy. by simplify_eq. }
  apply Hnd, metrics_families_distinct.
Qed.

(** The gateway's recorder can be built: on its fresh registry no family collides with another or
    with the collectors of the runtime, and the build information it sets fits its family. *)
Theorem buildMetrics_succeeds opts info :
  Metrics_ListenAddress opts ≠ "" →
  ∃ r set, buildMetrics (R:=R) opts info = Ok (Some (r, [set])) ∧ op_ok set ∧ op_vector set = v_buildInfo.
Proof.
  intros Hl. unfold buildMetrics. rewrite bool_decide_eq_false_2 by done. unfold NewPrometheusRecorder.
  destruct (MustRegister_fresh (vec_collector "kube_ssh" <$> registered_vectors) NewRegistry) as (r & Hr & Hn).
  { apply vec_names_distinct. }
  { intros c _. rewrite registry_new. apply not_elem_of_nil. }
  rewrite registry_new, app_nil_r in Hn. unfold prom_namespace. simpl po_Namespace. simpl default.
  rewrite bool_decide_eq_true_2 by done. rewrite Hr. cbn [mbind result_bind].
  assert (∀ n, n ∉ collector_name <$> (vec_collector "kube_ssh" <$> registered_vectors) → n ∉ registry_names r) as Hnot
    by (intros n; by rewrite Hn, elem_of_reverse).
  destruct (registry_accepts r GoCollector) as (r1 & Hr1 & Hn1).
  { apply Hnot. refine (bool_decide_unpack _ _). by vm_compute. }
  destruct (registry_accepts r1 ProcessCollector) as (r2 & Hr2 & Hn2).
  { rewrite Hn1. intros [?|Hin]%elem_of_cons; [done|]. revert Hin. apply Hnot. refine (bool_decide_unpack _ _). by vm_compute. }
  unfold registerRuntimeCollectors, registerRuntimeCollectors_go. rewrite Hr1, Hr2.
  eexists r2, _. split; [reflexivity|]. split; [|done]. repeat constructor; auto.
Qed.
End Registration.

(** A registry that keeps the names it has accepted. *)
#[local] Instance list_registry : PromRegistry (list string) := {
  NewRegistry := [];
  Register r c := if bool_decide (collector_name c ∈ r) then (r, Some AlreadyRegistered) else (collector_name c :: r, None);
}.
#[local] Instance list_registry_laws : PromRegistryLaws (list string).
Proof.
  refine {| registry_names := fun r : list string => r |}; [done|]. intros r c Hn. simpl.
  rewrite bool_decide_eq_false_2 by done. by eexists.
Defined.

Definition metrics_options : Options :=
  let o := NewDefaultOptions in
  mkOptions (ListenAddress o) (GatewayClassName o) (AdvertiseAddresses o) (HostKeyFile o) (Kubeconfig o)
    (PodSSH_Transport o) (PodSSH_CRI o) (Helper_Path o) (Helper_RemoteDir o) (AccessPolicy_Enabled o)
    (AccessPolicy_Namespace o) (Policy_Defaults o) (Policy_Limits o) ":9090" (Metrics_Path o) (Audit_QueueSize o)
    (Audit_FlushTimeout o) (Authentication o) (Options.Authorization o) (SSHProxy_ConnectTimeout o).

Lemma buildMetrics_succeeds_witness :
  ∃ r set, buildMetrics metrics_options (mkVersionInfo "v1" "c0ffee" "today") = Ok (Some (r, [set])) ∧
    op_ok set ∧ op_vector set = v_buildInfo ∧ length (r : list string) = 2 + length registered_vectors.
Proof.
  destruct (buildMetrics_succeeds metrics_options (mkVersionInfo "v1" "c0ffee" "today")) as (r & set & Hb & Hok & Hv); [done|].
  exists r, set. split_and!; [done..|]. vm_compute in Hb. injection Hb as <- <-. reflexivity.
Defined.

(** ** What the gauges say *)

(** The value of a counter or gauge after a sequence of operations. *)
Definition apply_op (v : vector) (labels : list string) (x : Z) (o : metricOp) : Z :=
  if bool_decide (op_vector o = v) && bool_decide (op_labels o = labels)
  then match op_action o with Inc => x + 1 | Dec => x - 1 | Add n => x + n | Set_ n => n | Observe _ => x end
  else x.
Definition metric_value (v : vector) (labels : list string) (ops : list metricOp) : Z :=
  foldl (apply_op v labels) 0%Z ops.
Definition recorded (os : list observation) : list metricOp := flat_map prometheus_record os.

(** The change of a gauge that one observation makes. *)
Definition active_delta (v : vector) (labels : list string) (o : observation) : Z :=
  let at_ (v' : vector) (l : list string) (d : Z) := if bool_decide (v' = v) && bool_decide (labelValue <$> l = labels) then d else 0%Z in
  (match o with
  | ObsConnectionOpened m => at_ v_activeConnections [m] 1%Z
  | ObsConnectionClosed m => at_ v_activeConnections [m] (-1)%Z
  | ObsOperationStarted k c => at_ v_activeOperations [k; c] 1%Z
  | ObsOperationFinished k c _ _ => at_ v_activeOperations [k; c] (-1)%Z
  | ObsStreamOpened k => at_ v_activeStreams [k] 1%Z
  | ObsStreamClosed k => at_ v_activeStreams [k] (-1)%Z
  | ObsHelperAcquired c => at_ v_activeHelpers [c] 1%Z
  | ObsHelperReleased c _ _ => at_ v_activeHelpers [c] (-1)%Z
  | _ => 0
  end)%Z.

Definition active_vectors : list vector := [v_activeConnections; v_activeOperations; v_activeStreams; v_activeHelpers].

Lemma record_delta v labels o x : v ∈ active_vectors →
  foldl (apply_op v labels) x (prometheus_record o) = (x + active_delta v labels o)%Z.
Proof.
  intros Hv. unfold active_delta.
  repeat (apply elem_of_cons in Hv as [->|Hv]); [..|by apply not_elem_of_nil in Hv];
    destruct o; simpl; try case_match; unfold apply_op; simpl; try lia; case_bool_decide; lia.
Qed.

(** An active gauge is the sum of what was opened less what was closed under its labels. *)
Lemma active_gauge v labels os x : v ∈ active_vectors →
  foldl (apply_op v labels) x (recorded os) = (x + foldr Z.add 0 (active_delta v labels <$> os))%Z.
Proof.
  intros Hv. revert x. induction os as [|o os IH]; intros x; [cbn; lia|].
  unfold recorded in *. cbn [flat_map]. rewrite foldl_app, record_delta, IH, fmap_cons by done. cbn [foldr]. lia.
Qed.

(** The observations of a connection: those of its handshake, then those recorded when it ends. *)
Section Connections.
Context `{SSHKeys}.

Definition connection_observations (c : sshConn) : list observation :=
  flat_map handshake_observations (hk_log (cn_hs c)) ++ flat_map conn_observations (cn_log c).

Definition method_delta (method m : string) : Z := if bool_decide (labelValue m = method) then 1%Z else 0%Z.

Lemma opened_sum method l :
  foldr Z.add 0%Z (active_delta v_activeConnections [method] <$> flat_map handshake_observations l) =
  foldr Z.add 0%Z (method_delta method <$> opened_methods l).
Proof.
  induction l as [|e l IH]; [done|]. unfold opened_methods in *. destruct e; cbn; cbn in IH; [done|by rewrite IH|].
  rewrite IH. f_equal. unfold method_delta. repeat case_bool_decide; naive_solver.
Qed.
Lemma closed_sum method l :
  foldr Z.add 0%Z (active_delta v_activeConnections [method] <$> flat_map conn_observations l) =
  (- foldr Z.add 0 (method_delta method <$> closed_methods l))%Z.
Proof.
  induction l as [|e l IH]; [done|]. unfold closed_methods in *. destruct e; cbn; cbn in IH; [done|done| |done].
  rewrite IH. unfold method_delta. repeat case_bool_decide; simplify_eq/=; try lia; naive_solver.
Qed.

Lemma foldr_add_app (l k : list Z) : foldr Z.add 0%Z (l ++ k) = (foldr Z.add 0 l + foldr Z.add 0 k)%Z.
Proof. induction l as [|x l IH]; cbn; [done|]. rewrite IH. lia. Qed.

#[export] Instance foldr_add_perm : Proper ((≡ₚ) ==> (=)) (foldr Z.add 0%Z).
Proof. intros l k Hp. induction Hp; cbn; lia. Qed.

(** A connection that is over leaves the gauge of every method where it was. *)
Lemma connection_balanced c method : conn_over c →
  foldr Z.add 0%Z (active_delta v_activeConnections [method] <$> connection_observations c) = 0%Z.
Proof.
  intros (_ & _ & _ & _ & _ & Heq & _).
  unfold connection_observations. rewrite fmap_app, foldr_add_app, opened_sum, closed_sum, Heq. lia.
Qed.

Lemma connections_balanced cs method : Forall conn_over cs →
  foldr Z.add 0%Z (active_delta v_activeConnections [method] <$> flat_map connection_observations cs) = 0%Z.
Proof.
  induction 1 as [|c cs Hc _ IH]; [done|]. cbn [flat_map].
  by rewrite fmap_app, foldr_add_app, connection_balanced, IH.
Qed.

(** When the gateway has ended, in whatever order the observations of its connections were recorded,
    the gauge of active connections is back at zero for every method. *)
Theorem active_connections_zero s enabled error_string newID clock hasStop metrics g os method :
  rtc (run_step_all s enabled error_string newID clock hasStop) (run_start metrics) g →
  run_ended (rn_main g) ≠ None →
  os ≡ₚ flat_map connection_observations (sv_conns (rn_server g)) →
  metric_value v_activeConnections [method] (recorded os) = 0%Z.
Proof.
  intros Hr He Hp. destruct (gateway_over _ _ _ _ _ _ _ _ Hr He) as [_ Hover].
  unfold metric_value. rewrite active_gauge, Hp by set_solver. rewrite connections_balanced; [done|].
  by apply Forall_forall.
Qed.
End Connections.

(** ** Helpers *)

(** A helper that was acquired counts as active until its lease is released for the first time; the
    later calls of [Release] record nothing. *)
Theorem helper_active_once since capability path errs lease obs :
  acquireHelper since capability (Ok path) = (Ok lease, obs) → errs ≠ [] →
  let '(_, os) := foldl (fun '(l, os) err => let '(l, o) := release_observations since l capability err in (l, os ++ o))
                    (lease, obs) errs in
  metric_value v_activeHelpers [labelValue capability] (recorded obs) = 1%Z ∧
  metric_value v_activeHelpers [labelValue capability] (recorded os) = 0%Z.
Proof.
  intros [= <- <-] Hne. destruct errs as [|e errs]; [done|]. clear Hne. cbn [foldl release_observations ml_released].
  assert (∀ l os, ml_released l = true →
    foldl (fun '(l, os) err => let '(l, o) := release_observations since l capability err in (l, os ++ o)) (l, os) errs
      = (l, os)) as Hrest.
  { induction errs as [|e' errs IH]; intros l os Hl; [done|]. cbn. unfold release_observations, lease_Release.
    rewrite Hl, app_nil_r. by apply IH. }
  rewrite Hrest by done. cbv iota beta. unfold metric_value. split; rewrite active_gauge by set_solver; cbn;
    rewrite !bool_decide_eq_true_2 by done; cbn; lia.
Qed.
