(* ===== verification/NodeServer.v ===== *)
(** Model of how the node's data plane runs ([Run], [newServer], [serve], [managementHandler] and
    [loadServerTLS] of [src/pkg/podssh/backend/cri/node/server.go]): its start-up checks, and its two
    servers, the certificate reloader and the shutdown function as the goroutines of one error
    group.  A step is one statement that another goroutine can observe; the HTTP servers and the
    certificate controllers are libraries, whose calls end as documented. *)

From S2P Require Import Prelude GoStrings GoStrconv CriNode Metrics.

(** ** Start-up *)

(** What [tls.Config] is set to. *)
Inductive clientAuth := NoClientCert | RequireAndVerifyClientCert.
Record tlsConfig := mkTLSConfig { tls_MinVersion : Z; tls_ClientAuth : clientAuth; tls_dynamic : bool }.
Definition VersionTLS13 : Z := 772.

(** [loadServerTLS]; the files are read by [newCA] and [newServing], [runOnce] loads them. *)
Definition loadServerTLS (newCA : string → result unit) (newServing : string → string → result unit)
    (runOnce : result unit) (o : NodeOptions) : result tlsConfig :=
  if bool_decide (no_TLSCAFile o = "") || bool_decide (no_TLSCertFile o = "") || bool_decide (no_TLSKeyFile o = "")
  then Err (Errorf "node TLS CA, certificate, and key files are required" [])
  else match newCA (no_TLSCAFile o) with
       | Err e => Err (Wrapf "load node client CA: %w" [] e)
       | Ok _ =>
           match newServing (no_TLSCertFile o) (no_TLSKeyFile o) with
           | Err e => Err (Wrapf "load node server certificate: %w" [] e)
           | Ok _ =>
               match runOnce with
               | Err e => Err (Wrapf "initialize node TLS configuration: %w" [] e)
               | Ok _ => Ok (mkTLSConfig VersionTLS13 RequireAndVerifyClientCert true)
               end
           end
       end.

(** The parts of [server] that [newServer] sets. *)
Record nodeServer := mkNodeServer {
  nd_options : NodeOptions;
  nd_runtime : RuntimeClient;
  nd_runtimeEndpoint : string;
  nd_metrics : list metricOp;
}.
Definition newServer {R} `{PromRegistry R} (info : versionInfo) (o : NodeOptions) (runtime : RuntimeClient)
    (endpoint : string) : result nodeServer :=
  match NewPrometheusRecorder (R:=R) None (mkPromOptions "kube_ssh_node" info) with
  | Err e => Err e
  | Ok (_, ops) => Ok (mkNodeServer o runtime endpoint ops)
  end.

(** [Run] up to [serve]: the server it starts and its TLS configuration. *)
Definition node_Run {R} `{PromRegistry R} (info : versionInfo) (stat isSocket : string → result bool)
    (newCA : string → result unit) (newServing : string → string → result unit) (runOnce : result unit)
    (dial : string → result RuntimeClient) (ctxDone : string → bool) (o : NodeOptions)
    : result (nodeServer * tlsConfig) :=
  let o := defaultNodeOptions o in
  match validateNodeOptions stat o with
  | Some e => Err e
  | None =>
      match loadServerTLS newCA newServing runOnce o with
      | Err e => Err e
      | Ok config =>
          match selectRuntime isSocket dial ctxDone (no_RuntimeEndpoints o) with
          | (Err e, _) => Err e
          | (Ok (runtime, endpoint), _) =>
              match newServer (R:=R) info o runtime endpoint with
              | Err e => Err e
              | Ok server => Ok (server, config)
              end
          end
      end
  end.

(** [managementHandler] on a request for a clean path; a GET pattern also serves HEAD. *)
Inductive managementResponse := ManagementOK | ManagementMetrics | ManagementError (status : Z) (err : option error).
Definition handleReady (s : nodeServer) : managementResponse :=
  match checkRuntime (nd_runtime s) with Some e => ManagementError 503 (Some e) | None => ManagementOK end.
Definition managementHandler (s : nodeServer) (method path : string) : managementResponse :=
  if negb (bool_decide (path ∈ ["/healthz"; "/readyz"; "/metrics"])) then ManagementError 404 None
  else if negb (bool_decide (method ∈ ["GET"; "HEAD"])) then ManagementError 405 None
  else if bool_decide (path = "/healthz") then ManagementOK
  else if bool_decide (path = "/readyz") then handleReady s
  else ManagementMetrics.

(** ** [serve] *)

(** How a call of [Serve] ends: [http.ErrServerClosed], [net.ErrClosed], or another error. *)
Inductive serveEnd := ServerClosed | ListenerClosed | ServeFailed (e : error).
Definition serveEnd_error (r : serveEnd) : error :=
  match r with
  | ServerClosed => EExternal "http: Server closed"
  | ListenerClosed => ESentinel net_ErrClosed
  | ServeFailed e => e
  end.

(** The value of a server's function in the group, when [group] says the group's context has ended. *)
Definition serve_result (group : bool) (what : string) (r : serveEnd) : list error :=
  match r with
  | ServerClosed | ListenerClosed => if group then [] else [Wrapf what [] (serveEnd_error r)]
  | ServeFailed e => [Wrapf what [] e]
  end.

(** The statements of the shutdown function. *)
Inductive shutStage :=
| NsWaiting | NsDrain | NsCloseStream | NsCloseManagement | NsShutManagement | NsShutStream | NsAwait | NsEnded.
#[export] Instance shutStage_eq_dec : EqDecision shutStage.
Proof. solve_decision. Defined.

Inductive nodePhase :=
| ServeWaiting | ServeCloseManagement (r : list error) | ServeCloseStream (r : list error) | ServeReturned (r : list error).

(** Errors are lists, empty for nil, since [errors.Join] makes one of several.  [nv_ctx] is the error
    of the caller's context, [nv_group] whether the group's context has ended, [nv_err] the first
    error of the group; [nv_streamShut] and [nv_managementShut] say that [Shutdown] was called,
    [nv_expired] that the shutdown's context has ended, [nv_handlers] the stream handlers running. *)
Record nodeServe := mkNodeServe {
  nv_ctx : option error;
  nv_group : bool;
  nv_err : list error;
  nv_tls : bool;
  nv_stream : bool;
  nv_management : bool;
  nv_streamListener : bool;
  nv_managementListener : bool;
  nv_streamShut : bool;
  nv_managementShut : bool;
  nv_expired : bool;
  nv_shutErr : list error;
  nv_streams : streamState;
  nv_handlers : nat;
  nv_shutdown : shutStage;
  nv_main : nodePhase;
}.

Definition serve_start : nodeServe :=
  mkNodeServe None false [] true true true true true false false false [] newStreams 0 NsWaiting ServeWaiting.

Definition nv_with_ctx (s : nodeServe) (ctx : option error) (group : bool) : nodeServe :=
  mkNodeServe ctx group (nv_err s) (nv_tls s) (nv_stream s) (nv_management s) (nv_streamListener s)
    (nv_managementListener s) (nv_streamShut s) (nv_managementShut s) (nv_expired s) (nv_shutErr s) (nv_streams s)
    (nv_handlers s) (nv_shutdown s) (nv_main s).
(** A function of the group returns [r]; which one is told by the three flags and the stage. *)
Definition nv_return (s : nodeServe) (tls stream management : bool) (stage : shutStage) (r : list error) : nodeServe :=
  mkNodeServe (nv_ctx s) (nv_group s || bool_decide (r ≠ [])) (match nv_err s with [] => r | e => e end)
    tls stream management (nv_streamListener s) (nv_managementListener s) (nv_streamShut s) (nv_managementShut s)
    (nv_expired s) (nv_shutErr s) (nv_streams s) (nv_handlers s) stage (nv_main s).
Definition nv_listeners (s : nodeServe) (stream management : bool) (stage : shutStage) (main : nodePhase) : nodeServe :=
  mkNodeServe (nv_ctx s) (nv_group s) (nv_err s) (nv_tls s) (nv_stream s) (nv_management s) stream management
    (nv_streamShut s) (nv_managementShut s) (nv_expired s) (nv_shutErr s) (nv_streams s) (nv_handlers s) stage main.
Definition nv_with_streams (s : nodeServe) (streams : streamState) (handlers : nat) (stage : shutStage) : nodeServe :=
  mkNodeServe (nv_ctx s) (nv_group s) (nv_err s) (nv_tls s) (nv_stream s) (nv_management s) (nv_streamListener s)
    (nv_managementListener s) (nv_streamShut s) (nv_managementShut s) (nv_expired s) (nv_shutErr s) streams
    handlers stage (nv_main s).
Definition nv_shut (s : nodeServe) (stream management : bool) (err : option error) (stage : shutStage) : nodeServe :=
  mkNodeServe (nv_ctx s) (nv_group s) (nv_err s) (nv_tls s) (nv_stream s) (nv_management s) (nv_streamListener s)
    (nv_managementListener s) stream management (nv_expired s)
    (match err with Some e => nv_shutErr s ++ [e] | None => nv_shutErr s end) (nv_streams s) (nv_handlers s) stage
    (nv_main s).
Definition nv_expire (s : nodeServe) : nodeServe :=
  mkNodeServe (nv_ctx s) (nv_group s) (nv_err s) (nv_tls s) (nv_stream s) (nv_management s) (nv_streamListener s)
    (nv_managementListener s) (nv_streamShut s) (nv_managementShut s) true (nv_shutErr s) (nv_streams s)
    (nv_handlers s) (nv_shutdown s) (nv_main s).
(** [group.Wait] has returned. *)
Definition serve_waited (s : nodeServe) : nodeServe :=
  let s' := nv_listeners s (nv_streamListener s) (nv_managementListener s) (nv_shutdown s)
    (ServeCloseManagement (match nv_err s with [] => option_list (nv_ctx s) | e => e end)) in
  nv_with_ctx s' (nv_ctx s') true.

(** The drained channel has been closed. *)
Definition streams_drained (s : streamState) : bool := bool_decide (ss_drained s = Some 1).

(** What happens by itself once it is possible. *)
Inductive serve_own : nodeServe → nodeServe → Prop :=
| no_propagate s : nv_ctx s ≠ None → nv_group s = false → serve_own s (nv_with_ctx s (nv_ctx s) true)
| no_tls s :
    nv_tls s = true → nv_group s = true →
    serve_own s (nv_return s false (nv_stream s) (nv_management s) (nv_shutdown s) [])
| no_stream s r :
    nv_stream s = true → nv_streamListener s = false ∨ nv_streamShut s = true → r = ServerClosed ∨ r = ListenerClosed →
    serve_own s (nv_return s (nv_tls s) false (nv_management s) (nv_shutdown s)
                   (serve_result (nv_group s) "serve node streams: %w" r))
| no_management s r :
    nv_management s = true → nv_managementListener s = false ∨ nv_managementShut s = true → r = ServerClosed ∨ r = ListenerClosed →
    serve_own s (nv_return s (nv_tls s) (nv_stream s) false (nv_shutdown s)
                   (serve_result (nv_group s) "serve node management: %w" r))
| no_done s :
    nv_shutdown s = NsWaiting → nv_group s = true → serve_own s (nv_with_streams s (nv_streams s) (nv_handlers s) NsDrain)
| no_drain s :
    nv_shutdown s = NsDrain →
    serve_own s (nv_with_streams s (startStreamDrain (nv_streams s)) (nv_handlers s) NsCloseStream)
| no_close_stream s :
    nv_shutdown s = NsCloseStream →
    serve_own s (nv_listeners s false (nv_managementListener s) NsCloseManagement (nv_main s))
| no_close_management s :
    nv_shutdown s = NsCloseManagement →
    serve_own s (nv_listeners s (nv_streamListener s) false NsShutManagement (nv_main s))
| no_shut_management s err :
    nv_shutdown s = NsShutManagement → serve_own s (nv_shut s (nv_streamShut s) true err NsShutStream)
| no_shut_stream s err :
    nv_shutdown s = NsShutStream → serve_own s (nv_shut s true (nv_managementShut s) err NsAwait)
| no_expire s :
    nv_shutdown s ∉ [NsWaiting; NsEnded] → nv_expired s = false → serve_own s (nv_expire s)
| no_await s :
    nv_shutdown s = NsAwait → streams_drained (nv_streams s) = true ∨ nv_expired s = true →
    serve_own s (nv_return s (nv_tls s) (nv_stream s) (nv_management s) NsEnded (nv_shutErr s))
| no_waited s :
    nv_main s = ServeWaiting → nv_tls s = false → nv_stream s = false → nv_management s = false →
    nv_shutdown s = NsEnded → serve_own s (serve_waited s)
| no_defer_management s r :
    nv_main s = ServeCloseManagement r →
    serve_own s (nv_listeners s (nv_streamListener s) false (nv_shutdown s) (ServeCloseStream r))
| no_defer_stream s r :
    nv_main s = ServeCloseStream r →
    serve_own s (nv_listeners s false (nv_managementListener s) (nv_shutdown s) (ServeReturned r)).

(** What clients, the caller's context and failures of the servers do. *)
Inductive serve_env : nodeServe → nodeServe → Prop :=
| ne_cancel s e : nv_ctx s = None → serve_env s (nv_with_ctx s (Some e) (nv_group s))
| ne_stream_failed s e :
    nv_stream s = true →
    serve_env s (nv_return s (nv_tls s) false (nv_management s) (nv_shutdown s)
                   (serve_result (nv_group s) "serve node streams: %w" (ServeFailed e)))
| ne_management_failed s e :
    nv_management s = true →
    serve_env s (nv_return s (nv_tls s) (nv_stream s) false (nv_shutdown s)
                   (serve_result (nv_group s) "serve node management: %w" (ServeFailed e)))
| ne_begin s :
    serve_env s (nv_with_streams s (beginStream (nv_streams s)).1
                   (if (beginStream (nv_streams s)).2 then S (nv_handlers s) else nv_handlers s) (nv_shutdown s))
| ne_end s n :
    nv_handlers s = S n → serve_env s (nv_with_streams s (endStream (nv_streams s)) n (nv_shutdown s)).

Definition serve_step (s s' : nodeServe) : Prop := serve_own s s' ∨ serve_env s s'.
