(* ===== verification/NodeServerProps.v ===== *)
(** Properties of the node's data plane: it starts only with verified client certificates and a ready
    runtime, its shutdown drains the streams or gives up at its deadline, and it returns. *)

From S2P Require Import Prelude Runs GoStrings GoStrconv CriNode CriProps Metrics MetricsProps NodeServer.

(** ** Start-up *)

(** The endpoint that is selected was asked for, is a socket, and its runtime passed the check. *)
Lemma selectRuntime_loop_ready stat dial ctxDone endpoints closed failures runtime endpoint closed' :
  selectRuntime_loop stat dial ctxDone endpoints closed failures = (Ok (runtime, endpoint), closed') →
  checkRuntime runtime = None ∧ endpoint ∈ endpoints ∧ dial endpoint = Ok runtime ∧
  stat (TrimPrefix endpoint "unix://") = Ok true.
Proof.
  revert closed failures. induction endpoints as [|e rest IH]; intros closed failures; simpl; [done|].
  intros Hs. destruct (stat (TrimPrefix e "unix://")) as [[]|] eqn:Hst;
    [|destruct (IH _ _ Hs) as (? & ? & ? & ?); split_and!; try done; by right..].
  destruct (dial e) as [rt|] eqn:Hd; [|destruct (IH _ _ Hs) as (? & ? & ? & ?); split_and!; try done; by right].
  destruct (checkRuntime rt) eqn:Hc.
  - destruct (ctxDone e); [done|]. destruct (IH _ _ Hs) as (? & ? & ? & ?); split_and!; try done; by right.
  - simplify_eq. split_and!; try done. by left.
Qed.

(** The node serves only with TLS 1.3 and verified client certificates, a non-empty expected client
    name and positive timeouts, a helper that is a regular file, and a runtime that passed its check. *)
Theorem node_Run_checked {R} `{PromRegistry R} info stat isSocket newCA newServing runOnce dial ctxDone o server config :
  node_Run (R:=R) info stat isSocket newCA newServing runOnce dial ctxDone o = Ok (server, config) →
  config = mkTLSConfig VersionTLS13 RequireAndVerifyClientCert true ∧
  nd_options server = defaultNodeOptions o ∧ no_ExpectedClientName (nd_options server) ≠ "" ∧
  (0 < no_ShutdownTimeout (nd_options server))%Z ∧ (0 < no_RuntimeTimeout (nd_options server))%Z ∧
  stat (no_HelperPath o) = Ok true ∧
  checkRuntime (nd_runtime server) = None ∧ handleReady server = ManagementOK.
Proof.
  unfold node_Run. destruct (validateNodeOptions stat _) eqn:Hv; [done|].
  destruct (loadServerTLS _ _ _ _) as [c|] eqn:Ht; [|done].
  destruct (selectRuntime _ _ _ _) as [[[runtime endpoint]|] cl] eqn:Hs; [|done]. unfold newServer.
  destruct (NewPrometheusRecorder _ _) as [[r ops]|] eqn:Hm; [|done]. intros [= <- <-]. simpl.
  assert (checkRuntime runtime = None) as Hc by (by eapply selectRuntime_loop_ready).
  split_and!; try done.
  - unfold loadServerTLS in Ht. repeat case_match; simplify_eq; done.
  - unfold defaultNodeOptions. simpl. by case_bool_decide.
  - unfold defaultNodeOptions, second. simpl. case_bool_decide; lia.
  - unfold defaultNodeOptions, second. simpl. case_bool_decide; lia.
  - unfold validateNodeOptions in Hv. repeat case_match; simplify_eq/=; done.
  - unfold handleReady. simpl. by rewrite Hc.
Qed.

(** ** The invariant of [serve] *)

Definition shut_rank (p : shutStage) : nat :=
  match p with
  | NsWaiting => 0 | NsDrain => 1 | NsCloseStream => 2 | NsCloseManagement => 3 | NsShutManagement => 4
  | NsShutStream => 5 | NsAwait => 6 | NsEnded => 7
  end.
Definition serve_value (p : nodePhase) : option (list error) :=
  match p with ServeWaiting => None | ServeCloseManagement r | ServeCloseStream r | ServeReturned r => Some r end.

Record serve_inv (s : nodeServe) : Prop := mkServeInv {
  vi_err : nv_err s ≠ [] → nv_group s = true;
  vi_group : nv_group s = true → nv_ctx s ≠ None ∨ nv_err s ≠ [] ∨ serve_value (nv_main s) ≠ None;
  vi_stream : nv_stream s = false → nv_group s = true;
  vi_management : nv_management s = false → nv_group s = true;
  vi_stage : 1 ≤ shut_rank (nv_shutdown s) → nv_group s = true;
  vi_streamListener : 3 ≤ shut_rank (nv_shutdown s) → nv_streamListener s = false;
  vi_managementListener : 4 ≤ shut_rank (nv_shutdown s) → nv_managementListener s = false;
  vi_managementShut : 5 ≤ shut_rank (nv_shutdown s) → nv_managementShut s = true;
  vi_streamShut : 6 ≤ shut_rank (nv_shutdown s) → nv_streamShut s = true;
  vi_streams : streams_ok (nv_streams s, nv_handlers s);
  vi_draining : ss_draining (nv_streams s) = bool_decide (2 ≤ shut_rank (nv_shutdown s));
  vi_ended : nv_shutdown s = NsEnded → streams_drained (nv_streams s) = true ∨ nv_expired s = true;
  vi_main : serve_value (nv_main s) ≠ None →
    nv_tls s = false ∧ nv_stream s = false ∧ nv_management s = false ∧ nv_shutdown s = NsEnded;
  vi_value : ∀ r, serve_value (nv_main s) = Some r → r ≠ [];
}.

Lemma serve_start_inv : serve_inv serve_start.
Proof. split; simpl; try done; try lia. Qed.

(** The shutdown function goes on: nothing but the stage matters, and nobody has returned. *)
Ltac next_stage Hinv Hsh Hw :=
  rewrite Hsh in *; destruct Hinv; split; simpl; rewrite ?Hsh in *; simpl in *; auto with lia; try done;
  try (rewrite Hw by auto; done).

Lemma nv_return_inv s tls stream management stage r :
  serve_inv s → nv_main s = ServeWaiting → (stream = false → nv_stream s = false ∨ nv_group s = true ∨ r ≠ []) →
  (management = false → nv_management s = false ∨ nv_group s = true ∨ r ≠ []) →
  stage = nv_shutdown s ∨ nv_shutdown s = NsAwait ∧ stage = NsEnded ∧
    (streams_drained (nv_streams s) = true ∨ nv_expired s = true) →
  serve_inv (nv_return s tls stream management stage r).
Proof.
  intros [Herr Hgroup Hs Hm Hst Hsl Hml Hms Hss Hok Hd He Hmain Hv] Hw Hs' Hm' Hstage.
  assert (∀ k, k ≤ 6 → k ≤ shut_rank stage → k ≤ shut_rank (nv_shutdown s)) as Hrank.
  { intros k Hk. destruct Hstage as [->|(-> & -> & _)]; [done|]. simpl. lia. }
  assert (stage = nv_shutdown s ∨ stage = NsEnded) as Hstage' by naive_solver.
  split; simpl; try rewrite Hw in *; simpl in *; try done; auto with lia.
  - destruct (nv_err s); [intros Hr; rewrite bool_decide_eq_true_2 by done; by rewrite orb_true_r|].
    intros _. by rewrite (Herr ltac:(done)).
  - intros [Hg|Hr%bool_decide_eq_true]%orb_true_iff.
    + destruct (Hgroup Hg) as [?|[?|?]]; [by left| |done]. right. left. by destruct (nv_err s).
    + right. left. by destruct (nv_err s).
  - intros Hf. destruct (Hs' Hf) as [Hx|[->|Hx]]; [by rewrite (Hs Hx)|done|rewrite bool_decide_eq_true_2 by done; by rewrite orb_true_r].
  - intros Hf. destruct (Hm' Hf) as [Hx|[->|Hx]]; [by rewrite (Hm Hx)|done|rewrite bool_decide_eq_true_2 by done; by rewrite orb_true_r].
  - intros Hk. by rewrite (Hst ltac:(apply Hrank; lia)).
  - rewrite Hd. destruct Hstage as [->|(-> & -> & _)]; done.
  - intros ->. destruct Hstage as [Heq|(_ & _ & ?)]; [by apply He|done].
Qed.

Lemma serve_waiting s : serve_inv s → nv_tls s = true ∨ nv_stream s = true ∨ nv_management s = true ∨ nv_shutdown s ≠ NsEnded →
  nv_main s = ServeWaiting.
Proof.
  intros Hinv Hx. destruct (nv_main s) eqn:E; [done|..];
    (destruct (vi_main s Hinv) as (? & ? & ? & ?); [rewrite E; done|]; destruct Hx as [?|[?|[?|?]]]; congruence).
Qed.

Lemma serve_own_inv s s' : serve_inv s → serve_own s s' → serve_inv s'.
Proof.
  intros Hinv Hs. pose proof (serve_waiting s Hinv) as Hw.
  destruct Hs as [s Hc Hg|s Ht Hg|s r Hr Hl Hk|s r Hr Hl Hk|s Hsh Hg|s Hsh|s Hsh|s Hsh|s err Hsh|s err Hsh|s Hsh Hx|s Hsh Hx
    |s Hm Ht Hr Hn Hsh|s r Hm|s r Hm].
  - destruct Hinv. split; simpl; auto.
  - apply nv_return_inv; auto; intros; auto.
  - apply nv_return_inv; auto; intros _. right. destruct (nv_group s); [by left|]. right. destruct Hk as [->| ->]; done.
  - apply nv_return_inv; auto; intros _. right. destruct (nv_group s); [by left|]. right. destruct Hk as [->| ->]; done.
  - next_stage Hinv Hsh Hw.
  - assert (streams_ok (startStreamDrain (nv_streams s), nv_handlers s)) as Hok.
    { apply (stream_step_ok _ _ (vi_streams s Hinv)), step_drain. by rewrite (vi_draining s Hinv), Hsh. }
    next_stage Hinv Hsh Hw. unfold startStreamDrain. by case_bool_decide.
  - next_stage Hinv Hsh Hw.
  - next_stage Hinv Hsh Hw.
  - next_stage Hinv Hsh Hw.
  - next_stage Hinv Hsh Hw.
  - destruct Hinv. split; simpl; auto.
  - rewrite Hsh in *. apply nv_return_inv; auto; naive_solver.
  - destruct Hinv as [Herr Hgroup Hs Hmg Hst Hsl Hml Hms Hss Hok Hd He Hmain Hv].
    assert (nv_group s = true) as Hg by (apply Hst; rewrite Hsh; simpl; lia).
    split; simpl; auto; try (by intros; right; right).
    intros r [= <-]. destruct (nv_err s); [|done]. destruct (nv_ctx s); [done|].
    rewrite Hm in Hgroup. by destruct (Hgroup Hg) as [?|[?|?]].
  - destruct Hinv as [Herr Hgroup Hs Hmg Hst Hsl Hml Hms Hss Hok Hd He Hmain Hv]. rewrite Hm in *. split; simpl in *; auto.
  - destruct Hinv as [Herr Hgroup Hs Hmg Hst Hsl Hml Hms Hss Hok Hd He Hmain Hv]. rewrite Hm in *. split; simpl in *; auto.
Qed.

Lemma serve_env_inv s s' : serve_inv s → serve_env s s' → serve_inv s'.
Proof.
  intros Hinv Hs. pose proof (serve_waiting s Hinv) as Hw. destruct Hs as [s e Hc|s e Hr|s e Hr|s|s n Hn].
  - destruct Hinv. split; simpl; auto.
  - apply nv_return_inv; auto; (intros _; right; by right).
  - apply nv_return_inv; auto; (intros _; right; by right).
  - pose proof (stream_step_ok _ _ (vi_streams s Hinv) (step_begin _ _)) as Hok.
    destruct Hinv as [Herr Hgroup Hst Hm Hsg Hsl Hml Hms Hss Hok' Hd He Hmain Hv]. split; simpl; auto.
    + rewrite <-Hd. unfold beginStream. by destruct (ss_draining (nv_streams s)) eqn:E; simpl; rewrite ?E.
    + intros Hend. unfold beginStream. rewrite Hd, Hend. simpl. by apply He.
  - assert (streams_ok (endStream (nv_streams s), n)) as Hok.
    { apply (stream_step_ok (nv_streams s, S n)); [rewrite <-Hn; apply Hinv|apply step_end]. }
    destruct Hinv as [Herr Hgroup Hst Hm Hsg Hsl Hml Hms Hss Hok' Hd He Hmain Hv]. split; simpl; auto.
    + rewrite <-Hd. unfold endStream. by destruct (_ && _ && _).
    + intros Hend. destruct (He Hend) as [Hdr|?]; [|by right]. exfalso.
      unfold streams_drained in Hdr. apply bool_decide_eq_true in Hdr. destruct Hok' as (_ & _ & Hdr').
      rewrite Hn in Hdr'. destruct Hdr' as [Hdr' _]; [by rewrite Hd, Hend|]. rewrite Hdr in Hdr'. by simplify_eq/=.
Qed.

Lemma serve_reachable_inv s : rtc serve_step serve_start s → serve_inv s.
Proof.
  apply (rtc_invariant serve_step serve_inv); [|apply serve_start_inv].
  intros x y Hx [Hs|Hs]; [by eapply serve_own_inv|by eapply serve_env_inv].
Qed.

(** C14: how the node's data plane ends, under every interleaving of its goroutines, the requests and
    the failures.  From the moment the drain starts no stream begins.  When [serve] returns, both
    listeners are closed, both servers were shut down and every goroutine has ended; the handlers of
    all streams have ended too, unless the shutdown's deadline has passed; and the result is never
    nil: it is the group's first error or that of the context. *)
Theorem node_serve_shutdown s :
  rtc serve_step serve_start s →
  (2 ≤ shut_rank (nv_shutdown s) → beginStream (nv_streams s) = (nv_streams s, false)) ∧
  (∀ r, nv_main s = ServeReturned r →
     r ≠ [] ∧ nv_streamListener s = false ∧ nv_managementListener s = false ∧
     nv_streamShut s = true ∧ nv_managementShut s = true ∧
     nv_tls s = false ∧ nv_stream s = false ∧ nv_management s = false ∧ nv_shutdown s = NsEnded ∧
     (nv_handlers s = 0 ∨ nv_expired s = true)).
Proof.
  intros [Herr Hgroup Hst Hm Hsg Hsl Hml Hms Hss Hok Hd He Hmain Hv]%serve_reachable_inv. split.
  - intros Hk. unfold beginStream. by rewrite Hd, bool_decide_eq_true_2.
  - intros r Hr. rewrite Hr in *. simpl in *. destruct (Hmain ltac:(done)) as (-> & -> & -> & Hsh).
    rewrite Hsh in *. simpl in *. split_and!; auto with lia.
    destruct (He eq_refl) as [Hdr|?]; [left|by right].
    unfold streams_drained in Hdr. apply bool_decide_eq_true in Hdr. destruct Hok as (_ & _ & Hdr').
    destruct Hdr' as [Hdr' _]; [by rewrite Hd|]. rewrite Hdr in Hdr'. simplify_eq/=. by case_decide.
Qed.

(** ** The node returns *)

Definition count_flag (b : bool) : nat := if b then 1 else 0.
Definition serve_left (s : nodeServe) : nat :=
  count_flag (negb (nv_group s)) + count_flag (nv_tls s) + count_flag (nv_stream s) + count_flag (nv_management s) +
  (7 - shut_rank (nv_shutdown s)) + count_flag (negb (nv_expired s)) +
  (match nv_main s with ServeWaiting => 3 | ServeCloseManagement _ => 2 | ServeCloseStream _ => 1 | ServeReturned _ => 0 end).

Lemma serve_own_decreases s s' : serve_own s s' → serve_left s' < serve_left s.
Proof.
  unfold serve_left, count_flag.
  destruct 1 as [s Hc Hg|s Ht Hg|s r Hr Hl Hk|s r Hr Hl Hk|s Hsh Hg|s Hsh|s Hsh|s Hsh|s err Hsh|s err Hsh|s Hsh Hx|s Hsh Hx
    |s Hm Ht Hr Hn Hsh|s r Hm|s r Hm]; simpl; rewrite ?Hg, ?Ht, ?Hr, ?Hsh, ?Hm, ?Hn, ?Hx; simpl;
    repeat case_match; simpl in *; try lia; try done; simplify_eq/=; destruct (nv_group s); simplify_eq/=; lia.
Qed.

(** Something has asked the node to stop. *)
Definition serve_stopping (s : nodeServe) : Prop := nv_ctx s ≠ None ∨ nv_group s = true.

Lemma serve_progress s : serve_inv s → serve_stopping s → (∃ s', serve_own s s') ∨ ∃ r, nv_main s = ServeReturned r.
Proof.
  intros [Herr Hgroup Hst Hm Hsg Hsl Hml Hms Hss Hok Hd He Hmain Hv] Hstop.
  destruct (nv_main s) as [|r|r|r] eqn:Hmn;
    [|left; eexists; by eapply no_defer_management|left; eexists; by eapply no_defer_stream|by eauto]. left.
  destruct (nv_group s) eqn:Hg; [|destruct Hstop; [eexists; by apply no_propagate|congruence]].
  destruct (nv_shutdown s) eqn:Hsh; simpl in *;
    [eexists; by apply no_done|eexists; by apply no_drain|eexists; by apply no_close_stream
    |eexists; by apply no_close_management|eexists; by apply (no_shut_management _ None)
    |eexists; by apply (no_shut_stream _ None)| |].
  - destruct (nv_expired s) eqn:Hx; [eexists; apply no_await; auto|].
    eexists. apply no_expire; [rewrite Hsh; set_solver|done].
  - destruct (nv_tls s) eqn:Ht; [eexists; by apply no_tls|].
    destruct (nv_stream s) eqn:Hs1; [eexists; apply (no_stream _ ServerClosed); auto with lia|].
    destruct (nv_management s) eqn:Hs2; [eexists; apply (no_management _ ServerClosed); auto with lia|].
    eexists. by apply no_waited.
Qed.

Lemma serve_own_stopping s s' : serve_inv s ∧ serve_stopping s → serve_own s s' → serve_inv s' ∧ serve_stopping s'.
Proof.
  intros [Hinv Hst] Hs. split; [by eapply serve_own_inv|]. unfold serve_stopping in *.
  destruct Hs; simpl in *; auto; destruct Hst as [?|Hg]; auto; rewrite Hg; auto.
Qed.

(** The node's data plane returns.  Once its context is cancelled or one of its servers has
    failed, it takes at most fifteen more steps by itself, however many streams are open and whether
    or not they ever end (the shutdown's deadline ends the wait for them); where no step is left
    [serve] has returned. *)
Theorem node_serve_returns s :
  rtc serve_step serve_start s → serve_stopping s →
  (∀ n s', nsteps serve_own n s s' → n ≤ 15) ∧
  (∀ s', rtc serve_own s s' → (∀ s'', ¬ serve_own s' s'') → ∃ r, nv_main s' = ServeReturned r).
Proof.
  intros Hinv%serve_reachable_inv Hst. split.
  - intros n s' Hn. pose proof (nsteps_bounded _ (fun _ => True) serve_left (fun _ _ _ _ => Logic.I)
      (fun x y _ => serve_own_decreases x y) _ _ _ Logic.I Hn).
    assert (serve_left s ≤ 15); [|lia]. unfold serve_left, count_flag. repeat case_match; lia.
  - intros s' Hr Hstuck. destruct (rtc_invariant _ _ serve_own_stopping _ _ (conj Hinv Hst) Hr) as [Hinv' Hst'].
    destruct (serve_progress s' Hinv' Hst') as [[s'' Hs]|?]; [by destruct (Hstuck s'')|done].
Qed.

(** ** A run: the node is cancelled while a stream is open that never ends *)

Definition node_asked : nodeServe :=
  let s := nv_with_streams serve_start (beginStream newStreams).1 1 NsWaiting in
  nv_with_ctx s (Some (ESentinel context_Canceled)) false.

Lemma node_asked_reachable : rtc serve_step serve_start node_asked.
Proof.
  eapply rtc_l; [right; apply ne_begin|]. eapply rtc_l; [right; by apply (ne_cancel _ (ESentinel context_Canceled))|].
  apply rtc_refl.
Qed.

Definition node_ended : nodeServe :=
  let s := nv_with_ctx node_asked (nv_ctx node_asked) true in
  let s := nv_with_streams s (nv_streams s) (nv_handlers s) NsDrain in
  let s := nv_with_streams s (startStreamDrain (nv_streams s)) (nv_handlers s) NsCloseStream in
  let s := nv_listeners s false true NsCloseManagement ServeWaiting in
  let s := nv_listeners s false false NsShutManagement ServeWaiting in
  let s := nv_shut s false true None NsShutStream in
  let s := nv_shut s true true None NsAwait in
  let s := nv_return (nv_expire s) true true true NsEnded [] in
  let s := nv_return (nv_return (nv_return s false true true NsEnded []) false false true NsEnded []) false false false NsEnded [] in
  let s := serve_waited s in
  let s := nv_listeners s false false NsEnded (ServeCloseStream [ESentinel context_Canceled]) in
  nv_listeners s false false NsEnded (ServeReturned [ESentinel context_Canceled]).

Lemma node_ended_reachable : rtc serve_own node_asked node_ended.
Proof.
  eapply rtc_l; [by apply no_propagate|]. eapply rtc_l; [by apply no_done|]. eapply rtc_l; [by apply no_drain|].
  eapply rtc_l; [by apply no_close_stream|]. eapply rtc_l; [by apply no_close_management|].
  eapply rtc_l; [by apply (no_shut_management _ None)|]. eapply rtc_l; [by apply (no_shut_stream _ None)|].
  eapply rtc_l; [apply no_expire; [simpl; set_solver|done]|]. eapply rtc_l; [apply no_await; [done|by right]|].
  eapply rtc_l; [by apply no_tls|]. eapply rtc_l; [apply (no_stream _ ServerClosed); auto|].
  eapply rtc_l; [apply (no_management _ ServerClosed); auto|]. eapply rtc_l; [by apply no_waited|].
  eapply rtc_l; [by eapply no_defer_management|]. apply rtc_once. by eapply no_defer_stream.
Qed.

Lemma node_serve_shutdown_witness :
  nv_handlers node_ended = 1 ∧ (nv_handlers node_ended = 0 ∨ nv_expired node_ended = true).
Proof.
  split; [reflexivity|].
  apply (node_serve_shutdown node_ended) with (r := [ESentinel context_Canceled]); [|reflexivity].
  etrans; [apply node_asked_reachable|].
  eapply rtc_subrel; [|apply node_ended_reachable]. intros x y Hs. by left.
Defined.

Lemma node_serve_returns_witness :
  nv_ctx node_asked = Some (ESentinel context_Canceled) ∧
  ∀ n s', nsteps serve_own n node_asked s' → n ≤ 15.
Proof.
  split; [reflexivity|]. apply (node_serve_returns node_asked); [apply node_asked_reachable|by left].
Defined.
