(* ===== verification/SessionLife.v ===== *)
(** Model of the life of a Pod session channel: the request loop with its deferred clean-up and [Exit]
    of [src/pkg/podssh/session_handler.go], the goroutine of the operation, and the serving goroutine of
    agent forwarding ([agentforward.go]); and of the dispatch of channels and global requests
    ([protocol.go]).

    The loop, the operation, the agent goroutine and the function hung on the session's context run
    concurrently.  A step is one statement that another of them can observe. *)

From S2P Require Import Prelude GoStrings GoStrconv Kube Target Authn AccessStore AccessResolver Authz Operation SSHProxy PodSession PodForward.

(** ** A session *)

(** The operation: [tasks.Go(func() { _ = s.Exit(handler(s)) })], with the statements of [Exit]. *)
Inductive taskPhase :=
| TaskNone | TaskRunning (h : sessionHandler) | TaskSend (code : Z) | TaskClose (code : Z) | TaskCancel (code : Z)
| TaskDone (code : Z).

(** [serveAgentForward]: accepting, then its deferred calls of [finish] and [close(done)]. *)
Inductive agentServe :=
| AgentNone | AgentServing | AgentFinish (r : OperationResult) | AgentSignal (r : OperationResult)
| AgentEnded (r : OperationResult).

(** The loop of [handleRequests] and the statements of its deferred function. *)
Inductive loopPhase :=
| LoopRunning | LoopCancel | LoopClose | LoopStop | LoopWinch | LoopAgent | LoopAgentForward | LoopAgentWait
| LoopTasks | LoopReturned.

(** [lv_channel] says that the channel is open, [lv_hook] that the function that closes it when the
    context ends is still registered, [lv_winchCloses] how often the resize queue was closed,
    [lv_exits] the exit statuses sent, [lv_agentClosing] and [lv_agentClosed] how far closing the agent
    forward has come, [lv_finishes] how its operation was finished. *)
Record liveSession := mkLive {
  lv_session : serverSession;
  lv_loop : loopPhase;
  lv_cancelled : bool;
  lv_channel : bool;
  lv_hook : bool;
  lv_winchCloses : nat;
  lv_task : taskPhase;
  lv_exits : list Z;
  lv_agent : agentServe;
  lv_agentClosing : bool;
  lv_agentClosed : bool;
  lv_finishes : list OperationResult;
}.

(** [handleSessionChannel], after the channel was accepted. *)
Definition live_start : liveSession :=
  mkLive newSession LoopRunning false true true 0 TaskNone [] AgentNone false false [].

Definition lv_with_loop (l : liveSession) (p : loopPhase) : liveSession :=
  mkLive (lv_session l) p (lv_cancelled l) (lv_channel l) (lv_hook l) (lv_winchCloses l) (lv_task l) (lv_exits l)
    (lv_agent l) (lv_agentClosing l) (lv_agentClosed l) (lv_finishes l).
Definition lv_with_context (l : liveSession) (cancelled channel hook : bool) : liveSession :=
  mkLive (lv_session l) (lv_loop l) cancelled channel hook (lv_winchCloses l) (lv_task l) (lv_exits l)
    (lv_agent l) (lv_agentClosing l) (lv_agentClosed l) (lv_finishes l).
Definition lv_with_task (l : liveSession) (t : taskPhase) (exits : list Z) : liveSession :=
  mkLive (lv_session l) (lv_loop l) (lv_cancelled l) (lv_channel l) (lv_hook l) (lv_winchCloses l) t exits
    (lv_agent l) (lv_agentClosing l) (lv_agentClosed l) (lv_finishes l).
Definition lv_with_agent (l : liveSession) (a : agentServe) (finishes : list OperationResult) : liveSession :=
  mkLive (lv_session l) (lv_loop l) (lv_cancelled l) (lv_channel l) (lv_hook l) (lv_winchCloses l) (lv_task l)
    (lv_exits l) a (lv_agentClosing l) (lv_agentClosed l) finishes.
Definition lv_with_closing (l : liveSession) (closing closed : bool) : liveSession :=
  mkLive (lv_session l) (lv_loop l) (lv_cancelled l) (lv_channel l) (lv_hook l) (lv_winchCloses l) (lv_task l)
    (lv_exits l) (lv_agent l) closing closed (lv_finishes l).
Definition close_winch (l : liveSession) : liveSession :=
  mkLive (lv_session l) (lv_loop l) (lv_cancelled l) (lv_channel l) (lv_hook l)
    (match ss_pty (lv_session l) with Some _ => S (lv_winchCloses l) | None => lv_winchCloses l end) (lv_task l)
    (lv_exits l) (lv_agent l) (lv_agentClosing l) (lv_agentClosed l) (lv_finishes l).

(** The exit status on the wire. *)
Definition exit_status (code : Z) : Z := to_uint32 code.

(** The result that [serveAgentForward] finishes with when [Accept] fails. *)
Definition agent_result (closing ctxDone : bool) (err : error) : OperationResult :=
  result_of (if closing || ctxDone || errors_Is err context_Canceled then None else Some err).

Section Life.
Context `{PodWire} `{UnicodeCase} (tgt : Target) (defaultShell : string) (envAllowed : string → bool).
Context (shlex_Split : string → list string) (begin : Operation → option error).

(** The loop handles one input: a start spawns the operation, an accepted agent forward its goroutine,
    and a start whose reply fails cancels the context.  [None] would be a blocked loop. *)
Definition started_handler (e : list sessionEffect) : option sessionHandler :=
  head (omap (fun x => match x with SessionStart h => Some h | _ => None end) e).
Definition live_input (l : liveSession) (i : sessionInput) : option liveSession :=
  '(s, e) ← handle_input (lv_session l) i;
  Some (mkLive s (lv_loop l) (lv_cancelled l || ss_cancelled s) (lv_channel l) (lv_hook l) (lv_winchCloses l)
          (match started_handler e with Some h => TaskRunning h | None => lv_task l end) (lv_exits l)
          (match ss_agentForward (lv_session l), ss_agentForward s with
           | None, Some _ => AgentServing
           | _, _ => lv_agent l
           end) (lv_agentClosing l) (lv_agentClosed l) (lv_finishes l)).

(** The handler returns; [answer] is the backend's. *)
Definition task_end (l : liveSession) (h : sessionHandler) (answer : Z * option error) : liveSession :=
  lv_with_task l (TaskSend (run_handler tgt defaultShell envAllowed shlex_Split begin h (lv_session l) answer).1)
    (lv_exits l).

(** What happens by itself.  The backend and [Accept] return once the context has ended or what they
    serve was closed. *)
Inductive live_own : liveSession → liveSession → Prop :=
| lo_hook l : lv_cancelled l = true → lv_hook l = true → live_own l (lv_with_context l true false false)
| lo_done l :
    lv_loop l = LoopRunning → lv_cancelled l = true ∨ lv_channel l = false → live_own l (lv_with_loop l LoopCancel)
| lo_cancel l :
    lv_loop l = LoopCancel →
    live_own l (lv_with_loop (lv_with_context l true (lv_channel l) (lv_hook l)) LoopClose)
| lo_close l :
    lv_loop l = LoopClose →
    live_own l (lv_with_loop (lv_with_context l (lv_cancelled l) false (lv_hook l)) LoopStop)
| lo_stop l :
    lv_loop l = LoopStop →
    live_own l (lv_with_loop (lv_with_context l (lv_cancelled l) (lv_channel l) false) LoopWinch)
| lo_winch l : lv_loop l = LoopWinch → live_own l (lv_with_loop (close_winch l) LoopAgent)
| lo_no_agent l :
    lv_loop l = LoopAgent → ss_agentForward (lv_session l) = None → live_own l (lv_with_loop l LoopTasks)
| lo_agent l :
    lv_loop l = LoopAgent → ss_agentForward (lv_session l) ≠ None →
    live_own l (lv_with_loop (lv_with_closing l true (lv_agentClosed l)) LoopAgentForward)
| lo_agent_close l :
    lv_loop l = LoopAgentForward → live_own l (lv_with_loop (lv_with_closing l (lv_agentClosing l) true) LoopAgentWait)
| lo_agent_wait l r : lv_loop l = LoopAgentWait → lv_agent l = AgentEnded r → live_own l (lv_with_loop l LoopTasks)
| lo_tasks l :
    lv_loop l = LoopTasks → lv_task l = TaskNone ∨ (∃ code, lv_task l = TaskDone code) →
    live_own l (lv_with_loop l LoopReturned)
| lo_task_end l h answer : lv_task l = TaskRunning h → lv_cancelled l = true → live_own l (task_end l h answer)
| lo_task_send l code :
    lv_task l = TaskSend code → live_own l (lv_with_task l (TaskClose code) (lv_exits l ++ [exit_status code]))
| lo_task_close l code :
    lv_task l = TaskClose code →
    live_own l (lv_with_context (lv_with_task l (TaskCancel code) (lv_exits l)) (lv_cancelled l) false (lv_hook l))
| lo_task_cancel l code :
    lv_task l = TaskCancel code →
    live_own l (lv_with_context (lv_with_task l (TaskDone code) (lv_exits l)) true (lv_channel l) (lv_hook l))
| lo_accept_failed l err :
    lv_agent l = AgentServing → lv_cancelled l = true ∨ lv_agentClosed l = true →
    live_own l (lv_with_agent l (AgentFinish (agent_result (lv_agentClosing l) (lv_cancelled l) err)) (lv_finishes l))
| lo_agent_finish l r : lv_agent l = AgentFinish r → live_own l (lv_with_agent l (AgentSignal r) (lv_finishes l ++ [r]))
| lo_agent_signal l r : lv_agent l = AgentSignal r → live_own l (lv_with_agent l (AgentEnded r) (lv_finishes l)).

(** What the client, the connection and the backend do. *)
Inductive live_env : liveSession → liveSession → Prop :=
| le_input l i l' : lv_loop l = LoopRunning → live_input l i = Some l' → live_env l l'
| le_window l :
    live_env l (mkLive (set_winch (lv_session l) (drop 1 (ss_winch (lv_session l)))) (lv_loop l) (lv_cancelled l)
                  (lv_channel l) (lv_hook l) (lv_winchCloses l) (lv_task l) (lv_exits l) (lv_agent l)
                  (lv_agentClosing l) (lv_agentClosed l) (lv_finishes l))
| le_eof l : lv_loop l = LoopRunning → live_env l (lv_with_loop l LoopCancel)
| le_cancel l : live_env l (lv_with_context l true (lv_channel l) (lv_hook l))
| le_channel l : live_env l (lv_with_context l (lv_cancelled l) false (lv_hook l))
| le_task_end l h answer : lv_task l = TaskRunning h → live_env l (task_end l h answer)
| le_accept_failed l err :
    lv_agent l = AgentServing →
    live_env l (lv_with_agent l (AgentFinish (agent_result (lv_agentClosing l) (lv_cancelled l) err)) (lv_finishes l)).

Definition live_step (l l' : liveSession) : Prop := live_own l l' ∨ live_env l l'.

(** ** [protocol.go]: channels and global requests *)

Definition UnknownChannelType : rejection := PeerReason 3.
Inductive podDispatch :=
| DispatchSession | DispatchDirectTCPIP | DispatchReject (why : rejection) (message : string).
Definition pod_HandleChannel (channelType : string) : podDispatch :=
  if bool_decide (channelType = ChannelSession) then DispatchSession
  else if bool_decide (channelType = ChannelDirectTCPIP) then DispatchDirectTCPIP
  else DispatchReject UnknownChannelType "unsupported channel type".

Definition pod_HandleGlobalRequest (st : podForwards) (requestType payload : string) (denied : option error)
    (opened : result Z) (failed : bool) : podForwards * (bool * option Z) :=
  if bool_decide (requestType = RequestTCPIPForward)
  then let '(st, port) := handleTCPIPForward tgt st payload denied opened in
       (st, (bool_decide (is_Some port), port))
  else if bool_decide (requestType = RequestCancelTCPIPForward)
  then let '(st, ok) := handleCancelTCPIPForward st payload failed in (st, (ok, None))
  else (st, (false, None)).

(** [proxyRemoteForwardConnection] and [proxyAgentForwardConnection]: [opened] is the outcome of opening
    the channel to the client; the stream is closed if that fails and proxied otherwise. *)
Definition proxyConnection (opened : option error) : list podEffect :=
  match opened with Some _ => [PodStreamClose] | None => [PodProxy] end.
End Life.
