(* ===== verification/SessionLifeProps.v ===== *)
(** Properties of the life of a Pod session: when the request loop returns everything it started is
    over, the exit status is sent once, and the loop does return. *)

From S2P Require Import Prelude Runs GoStrings GoStrconv Kube Target Authn AccessStore AccessResolver Authz Operation SSHProxy PodSession PodSessionProps PodForward SessionLife.

Definition loop_rank (p : loopPhase) : nat :=
  match p with
  | LoopRunning => 0 | LoopCancel => 1 | LoopClose => 2 | LoopStop => 3 | LoopWinch => 4 | LoopAgent => 5
  | LoopAgentForward => 6 | LoopAgentWait => 7 | LoopTasks => 8 | LoopReturned => 9
  end.

Definition task_code (t : taskPhase) : option Z :=
  match t with TaskNone | TaskRunning _ => None | TaskSend c | TaskClose c | TaskCancel c | TaskDone c => Some c end.
(** What the operation has sent. *)
Definition task_sent (t : taskPhase) : list Z :=
  match t with TaskClose c | TaskCancel c | TaskDone c => [exit_status c] | _ => [] end.
Definition task_over (t : taskPhase) : bool := match t with TaskNone | TaskDone _ => true | _ => false end.

Definition agent_finished (a : agentServe) : list OperationResult :=
  match a with AgentSignal r | AgentEnded r => [r] | _ => [] end.
Definition agent_over (a : agentServe) : bool := match a with AgentNone | AgentEnded _ => true | _ => false end.
Definition agent_value (a : agentServe) : option OperationResult :=
  match a with AgentFinish r | AgentSignal r | AgentEnded r => Some r | _ => None end.

Section Life.
Context `{PodWire} `{UnicodeCase} (tgt : Target) (defaultShell : string) (envAllowed : string → bool).
Context (shlex_Split : string → list string) (begin : Operation → option error).

Let run := run_handler tgt defaultShell envAllowed shlex_Split begin.

(** What a handler does depends on the session's parameters only. *)
Lemma run_handler_params h s s' answer : session_params s' = session_params s → run h s' answer = run h s answer.
Proof.
  unfold session_params, run, run_handler, handleSession, handleSFTP, handleSCP, resolveSession.
  intros Heq. by injection Heq as -> -> -> -> ->.
Qed.

Record live_inv (l : liveSession) : Prop := mkLiveInv {
  li_winch : length (ss_winch (lv_session l)) ≤ 1;
  li_started : lv_task l ≠ TaskNone → ss_started (lv_session l) = true;
  li_handler : ∀ h, lv_task l = TaskRunning h → handler_for h (ss_requestType (lv_session l));
  li_code : ∀ code, task_code (lv_task l) = Some code → ∃ h answer,
    handler_for h (ss_requestType (lv_session l)) ∧ code = (run h (lv_session l) answer).1;
  li_exits : lv_exits l = task_sent (lv_task l);
  li_agent : lv_agent l = AgentNone ↔ ss_agentForward (lv_session l) = None;
  li_finishes : lv_finishes l = agent_finished (lv_agent l);
  li_cancelled : 2 ≤ loop_rank (lv_loop l) → lv_cancelled l = true;
  li_channel : 3 ≤ loop_rank (lv_loop l) → lv_channel l = false;
  li_winchCloses : lv_winchCloses l = (if bool_decide (5 ≤ loop_rank (lv_loop l)) && bool_decide (is_Some (ss_pty (lv_session l))) then 1 else 0);
  li_forward : loop_rank (lv_loop l) = 6 ∨ loop_rank (lv_loop l) = 7 → lv_agent l ≠ AgentNone;
  li_closing : 6 ≤ loop_rank (lv_loop l) → lv_agent l ≠ AgentNone → lv_agentClosing l = true;
  li_closed : 7 ≤ loop_rank (lv_loop l) → lv_agent l ≠ AgentNone → lv_agentClosed l = true;
  li_over : 8 ≤ loop_rank (lv_loop l) → agent_over (lv_agent l) = true;
  li_tasks : 9 ≤ loop_rank (lv_loop l) → task_over (lv_task l) = true;
}.

Lemma live_start_inv : live_inv live_start.
Proof. split; simpl; try done; try lia; by intros []. Qed.

(** An input sets the agent forward at most once. *)
Lemma handle_input_agent s i s' e :
  handle_input s i = Some (s', e) →
  ss_agentForward s' = ss_agentForward s ∨ (ss_agentForward s = None ∧ is_Some (ss_agentForward s')).
Proof.
  destruct i as [r replied fwd|]; simpl; [|intros [= <- <-]; by left].
  unfold handleStartRequest, handleEnvRequest, handlePTYRequest, handleWindowChangeRequest, handleAgentForwardRequest, refuse.
  intros Hi. repeat case_match; simplify_option_eq; auto; right; split; try done.
  all: repeat match goal with Hx : _ || _ = false |- _ => apply orb_false_iff in Hx as [? ?] end.
  all: apply eq_None_not_Some; by eapply bool_decide_eq_false.
Qed.

Lemma live_input_inv l i l' : live_inv l → lv_loop l = LoopRunning → live_input l i = Some l' → live_inv l'.
Proof.
  intros [I1 I2 I3 I4 I5 I6 I7 I8 I9 I10 I11 I12 I13 I14 I15] Hrun. unfold live_input.
  destruct (handle_input_spec (lv_session l) i I1) as (s & e & He & _ & Hw & Ht & Hf). rewrite He.
  pose proof (handle_input_agent _ _ _ _ He) as Hag. cbn [mbind option_bind]. intros [= <-].
  change (started_handler e) with (head (session_starts e)).
  assert ((head (session_starts e) = None ∧ (lv_task l ≠ TaskNone → session_params s = session_params (lv_session l) ∧ ss_started s = true))
    ∨ ∃ h, head (session_starts e) = Some h ∧ lv_task l = TaskNone ∧ ss_started s = true ∧ handler_for h (ss_requestType s))
    as Hcase.
  { destruct (ss_started (lv_session l)) eqn:Hs.
    - destruct (Ht eq_refl) as (Hp & Hs' & ->). left. by split.
    - assert (lv_task l = TaskNone) as Htn.
      { destruct (lv_task l); [done|..]; by specialize (I2 ltac:(done)). }
      destruct (Hf eq_refl) as [->|(h & -> & ? & ?)]; [left; split; [done|]; by rewrite Htn|].
      right. exists h. by split_and!. }
  rewrite Hrun in *. simpl in *.
  split; simpl; try done; try lia.
  - destruct Hcase as [[-> Hp]|(h & -> & _ & ? & _)]; [|done]. intros Hn. by apply Hp.
  - destruct Hcase as [[-> Hp]|(h & -> & _ & _ & ?)]; [|by intros h' [= ->]].
    intros h Hh. rewrite Hh in Hp. destruct (Hp ltac:(done)) as [Heq _]. injection Heq as _ _ _ -> _. by apply I3.
  - destruct Hcase as [[-> Hp]|(h & -> & _ & _ & ?)]; [|done]. intros code Hc.
    destruct (I4 code Hc) as (h & answer & Hh & ->). destruct Hp as [Heq _]; [by intros Hn; rewrite Hn in Hc|].
    exists h, answer. rewrite (run_handler_params h _ _ answer Heq). injection Heq as _ _ _ -> _. by split.
  - destruct Hcase as [[-> Hp]|(h & -> & Hn & _)]; [done|]. by rewrite I5, Hn.
  - destruct Hag as [Heq|[Hn Hs]].
    + rewrite Heq. destruct (ss_agentForward (lv_session l)) eqn:E; by rewrite ?E.
    + rewrite Hn. destruct Hs as [x ->]. done.
  - destruct Hag as [Heq|[Hn Hs]].
    + rewrite Heq. by destruct (ss_agentForward (lv_session l)).
    + rewrite I7. destruct I6 as [_ I6]. rewrite (I6 Hn). rewrite Hn. by destruct Hs as [x ->].
Qed.

Lemma task_end_inv l h answer : live_inv l → lv_task l = TaskRunning h →
  live_inv (task_end tgt defaultShell envAllowed shlex_Split begin l h answer).
Proof.
  intros [I1 I2 I3 I4 I5 I6 I7 I8 I9 I10 I11 I12 I13 I14 I15] Ht. rewrite Ht in *.
  split; simpl; try done; auto.
  - intros code [= <-]. exists h, answer. split; [by apply I3|done].
Qed.

Lemma accept_failed_inv l err : live_inv l → lv_agent l = AgentServing →
  live_inv (lv_with_agent l (AgentFinish (agent_result (lv_agentClosing l) (lv_cancelled l) err)) (lv_finishes l)).
Proof.
  intros [I1 I2 I3 I4 I5 I6 I7 I8 I9 I10 I11 I12 I13 I14 I15] Ha. rewrite Ha in *.
  split; simpl; try done; auto.
  - destruct I6 as [? I6]. split; [done|]. intros Hn. by specialize (I6 Hn).
Qed.

Lemma live_own_inv l l' :
  live_inv l → live_own tgt defaultShell envAllowed shlex_Split begin l l' → live_inv l'.
Proof.
  intros Hinv Hs.
  destruct Hs as [l Hc Hh|l Hp Hx|l Hp|l Hp|l Hp|l Hp|l Hp Hn|l Hp Hn|l Hp|l r Hp Ha|l Hp Ht|l h answer Ht Hc|l code Ht
    |l code Ht|l code Ht|l err Ha Hx|l r Ha|l r Ha].
  12: by apply task_end_inv.
  15: by apply accept_failed_inv.
  all: destruct Hinv as [I1 I2 I3 I4 I5 I6 I7 I8 I9 I10 I11 I12 I13 I14 I15];
    try rewrite Hp in *; try rewrite Ht in *; try rewrite Ha in *;
    split; simpl in *; try done; auto with lia; try lia.
  - rewrite I10. by destruct (ss_pty (lv_session l)).
  - intros _ Hx. by apply I6 in Hn.
  - intros _ Hx. by apply I6 in Hn.
  - intros _. apply I6 in Hn. by rewrite Hn.
  - intros _ Hx. by apply Hn, I6.
  - by rewrite Ha.
  - by rewrite Ha.
  - by rewrite Ha.
  - intros _. by destruct Ht as [->|[code ->]].
  - by rewrite I5.
  - split; [done|]. intros Hn. by apply I6 in Hn.
  - by rewrite I7.
  - split; [done|]. intros Hn. by apply I6 in Hn.
Qed.

Lemma live_env_inv l l' :
  live_inv l → live_env tgt defaultShell envAllowed shlex_Split begin l l' → live_inv l'.
Proof.
  intros Hinv Hs. destruct Hs as [l i l' Hp Hi|l|l Hp|l|l|l h answer Ht|l err Ha].
  - by eapply live_input_inv.
  - destruct Hinv. split; simpl; auto. rewrite length_drop. lia.
  - destruct Hinv as [I1 I2 I3 I4 I5 I6 I7 I8 I9 I10 I11 I12 I13 I14 I15]. rewrite Hp in *.
    split; simpl in *; try done; auto; try lia.
  - destruct Hinv. split; simpl; auto.
  - destruct Hinv. split; simpl; auto.
  - by apply task_end_inv.
  - by apply accept_failed_inv.
Qed.

Lemma live_reachable_inv l :
  rtc (live_step tgt defaultShell envAllowed shlex_Split begin) live_start l → live_inv l.
Proof.
  apply (rtc_invariant _ live_inv); [|apply live_start_inv].
  intros x y Hx [Hs|Hs]; [by eapply live_own_inv|by eapply live_env_inv].
Qed.

(** ** The session returns *)

Definition live_left (l : liveSession) : nat :=
  (9 - loop_rank (lv_loop l)) + (if lv_hook l then 1 else 0) +
  (match lv_task l with TaskRunning _ => 4 | TaskSend _ => 3 | TaskClose _ => 2 | TaskCancel _ => 1 | _ => 0 end) +
  (match lv_agent l with AgentServing => 3 | AgentFinish _ => 2 | AgentSignal _ => 1 | _ => 0 end).

Lemma live_own_decreases l l' : live_own tgt defaultShell envAllowed shlex_Split begin l l' → live_left l' < live_left l.
Proof.
  unfold live_left.
  destruct 1 as [l Hc Hh|l Hp Hx|l Hp|l Hp|l Hp|l Hp|l Hp Hn|l Hp Hn|l Hp|l r Hp Ha|l Hp Ht|l h answer Ht Hc|l code Ht
    |l code Ht|l code Ht|l err Ha Hx|l r Ha|l r Ha]; simpl; rewrite ?Hh, ?Hp, ?Ha, ?Ht; simpl; lia.
Qed.

(** The client closed the channel, or something cancelled the session. *)
Definition live_stopping (l : liveSession) : Prop :=
  lv_cancelled l = true ∨ lv_channel l = false ∨ lv_loop l ≠ LoopRunning.

Lemma live_progress l : live_inv l → live_stopping l →
  (∃ l', live_own tgt defaultShell envAllowed shlex_Split begin l l') ∨ lv_loop l = LoopReturned.
Proof.
  intros [I1 I2 I3 I4 I5 I6 I7 I8 I9 I10 I11 I12 I13 I14 I15] Hst. destruct (lv_loop l) eqn:Hp; simpl in *; [..|by right]; left.
  - eexists. apply lo_done; [done|]. destruct Hst as [?|[?|?]]; [by left|by right|done].
  - eexists. by apply lo_cancel.
  - eexists. by apply lo_close.
  - eexists. by apply lo_stop.
  - eexists. by apply lo_winch.
  - destruct (ss_agentForward (lv_session l)) eqn:E; eexists; [apply lo_agent|by apply lo_no_agent]; congruence.
  - eexists. by apply lo_agent_close.
  - assert (lv_agent l ≠ AgentNone) as Hn by auto. destruct (lv_agent l) eqn:Ha; [done|..].
    + eexists. apply (lo_accept_failed _ _ _ _ _ _ (ESentinel context_Canceled)); [done|]. left. apply I8. lia.
    + eexists. by eapply lo_agent_finish.
    + eexists. by eapply lo_agent_signal.
    + eexists. by eapply lo_agent_wait.
  - destruct (lv_task l) eqn:Ht.
    + eexists. apply lo_tasks; auto.
    + eexists. apply (lo_task_end _ _ _ _ _ _ h (0%Z, None)); [done|]. apply I8. lia.
    + eexists. by eapply lo_task_send.
    + eexists. by eapply lo_task_close.
    + eexists. by eapply lo_task_cancel.
    + eexists. apply lo_tasks; eauto.
Qed.

Lemma live_own_stopping l l' : live_inv l ∧ live_stopping l →
  live_own tgt defaultShell envAllowed shlex_Split begin l l' → live_inv l' ∧ live_stopping l'.
Proof.
  intros [Hinv Hst] Hs. split; [by eapply live_own_inv|]. unfold live_stopping in *.
  destruct Hs; simpl in *; auto; try (by right; right); naive_solver.
Qed.

(** C13: the life of a Pod session, under every interleaving of its request loop, its operation, the
    agent goroutine, the hook on its context and the client.  When the request loop has returned, the
    channel is closed and the context cancelled, the operation and the agent forwarding are over, the
    resize queue was closed exactly once if there was a terminal, and the operation of an accepted
    agent forward was finished exactly once.  The exit status is sent at most once, exactly once when
    the operation ended, and is the status of the handler of the session's request type run on the
    session's final parameters.  Once the channel is closed or the session cancelled, it takes at most
    seventeen more steps by itself, and where none is left the loop has returned. *)
Theorem pod_session_ends l :
  rtc (live_step tgt defaultShell envAllowed shlex_Split begin) live_start l →
  (lv_loop l = LoopReturned →
     lv_channel l = false ∧ lv_cancelled l = true ∧ task_over (lv_task l) = true ∧ agent_over (lv_agent l) = true ∧
     lv_winchCloses l = match ss_pty (lv_session l) with Some _ => 1 | None => 0 end ∧
     length (lv_finishes l) = match ss_agentForward (lv_session l) with Some _ => 1 | None => 0 end) ∧
  (∀ status, status ∈ lv_exits l → lv_exits l = [status] ∧ ∃ h answer,
     handler_for h (ss_requestType (lv_session l)) ∧
     status = exit_status (run_handler tgt defaultShell envAllowed shlex_Split begin h (lv_session l) answer).1) ∧
  (∀ code, lv_task l = TaskDone code → lv_exits l = [exit_status code]) ∧
  (live_stopping l →
     (∀ n l', nsteps (live_own tgt defaultShell envAllowed shlex_Split begin) n l l' → n ≤ 17) ∧
     (∀ l', rtc (live_own tgt defaultShell envAllowed shlex_Split begin) l l' →
        (∀ l'', ¬ live_own tgt defaultShell envAllowed shlex_Split begin l' l'') → lv_loop l' = LoopReturned)).
Proof.
  intros Hinv%live_reachable_inv. pose proof Hinv as [I1 I2 I3 I4 I5 I6 I7 I8 I9 I10 I11 I12 I13 I14 I15]. split_and!.
  - intros Hp. rewrite Hp in *. simpl in *. split_and!; auto with lia.
    + rewrite I10. by destruct (ss_pty (lv_session l)).
    + specialize (I14 ltac:(lia)). rewrite I7. destruct (ss_agentForward (lv_session l)) eqn:E.
      * destruct (lv_agent l) eqn:Ha; simpl in *; try done. by destruct I6 as [I6 _]; specialize (I6 eq_refl).
      * by rewrite (proj2 I6 eq_refl).
  - intros status Hin. rewrite I5 in *. destruct (lv_task l) eqn:Ht; simpl in *; try (by apply not_elem_of_nil in Hin);
      apply list_elem_of_singleton in Hin as ->; (split; [done|]);
      (destruct (I4 _ eq_refl) as (h & answer & Hh & ->); by exists h, answer).
  - intros code Ht. by rewrite I5, Ht.
  - intros Hst. split.
    + intros n l' Hn. pose proof (nsteps_bounded _ (fun _ => True) live_left (fun _ _ _ _ => Logic.I)
        (fun x y _ => live_own_decreases x y) _ _ _ Logic.I Hn).
      assert (live_left l ≤ 17); [|lia]. unfold live_left. repeat case_match; lia.
    + intros l' Hr Hstuck. destruct (rtc_invariant _ _ live_own_stopping _ _ (conj Hinv Hst) Hr) as [Hinv' Hst'].
      destruct (live_progress l' Hinv' Hst') as [[l'' Hs]|?]; [by destruct (Hstuck l'')|done].
Qed.
End Life.

(** ** A session that forwards an agent and runs a command that exits with status 7 *)

Definition demo_live_step := @live_step demo_wire demo_pod_wire ascii_only demo_target "/bin/sh" (fun _ => true)
  (fun _ => []) (fun _ => None).

Definition live_requests : liveSession :=
  let input l i := default l (@live_input demo_wire demo_pod_wire l i) in
  let l := input live_start (InRequest (mkSSHRequest RequestAgentForward true "") true (Some "/tmp/agent.sock")) in
  input l (InRequest (mkSSHRequest RequestExec true "false") true None).

Definition live_ended : liveSession :=
  let l := lv_with_task live_requests (TaskSend 7) [] in
  let l := lv_with_task l (TaskClose 7) [7%Z] in
  let l := lv_with_context (lv_with_task l (TaskCancel 7) [7%Z]) false false true in
  let l := lv_with_context (lv_with_task l (TaskDone 7) [7%Z]) true false true in
  let l := lv_with_agent l (AgentFinish (result_of None)) [] in
  let l := lv_with_agent l (AgentSignal (result_of None)) [result_of None] in
  let l := lv_with_agent l (AgentEnded (result_of None)) [result_of None] in
  let l := lv_with_loop l LoopCancel in
  let l := lv_with_loop (lv_with_context l true false true) LoopClose in
  let l := lv_with_loop (lv_with_context l true false true) LoopStop in
  let l := lv_with_loop (lv_with_context l true false false) LoopWinch in
  let l := lv_with_loop (close_winch l) LoopAgent in
  let l := lv_with_loop (lv_with_closing l true false) LoopAgentForward in
  let l := lv_with_loop (lv_with_closing l true true) LoopAgentWait in
  lv_with_loop (lv_with_loop l LoopTasks) LoopReturned.

(** Take one step of a run from a concrete state, and compute the state it leads to. *)
Ltac run_step tac :=
  eapply rtc_l; [tac|];
  match goal with |- rtc ?R ?x ?y => let x' := eval vm_compute in x in replace x with x' by (vm_compute; reflexivity) end.

Lemma live_ended_reachable : rtc demo_live_step live_start live_ended.
Proof.
  run_step ltac:(right; eapply (le_input _ _ _ _ _ _ (InRequest (mkSSHRequest RequestAgentForward true "") true
    (Some "/tmp/agent.sock"))); reflexivity).
  run_step ltac:(right; eapply (le_input _ _ _ _ _ _ (InRequest (mkSSHRequest RequestExec true "false") true None));
    reflexivity).
  run_step ltac:(right; by apply (le_task_end _ _ _ _ _ _ handlerSession (7%Z, None))).
  run_step ltac:(left; by eapply (lo_task_send _ _ _ _ _ _ 7)).
  run_step ltac:(left; by eapply (lo_task_close _ _ _ _ _ _ 7)).
  run_step ltac:(left; by eapply (lo_task_cancel _ _ _ _ _ _ 7)).
  run_step ltac:(left; apply (lo_accept_failed _ _ _ _ _ _ (ESentinel context_Canceled)); [done|by left]).
  run_step ltac:(left; by eapply lo_agent_finish). run_step ltac:(left; by eapply lo_agent_signal).
  run_step ltac:(left; apply lo_done; [done|by left]). run_step ltac:(left; by apply lo_cancel).
  run_step ltac:(left; by apply lo_close). run_step ltac:(left; by apply lo_stop).
  run_step ltac:(left; by apply lo_winch). run_step ltac:(left; by apply lo_agent).
  run_step ltac:(left; by apply lo_agent_close). run_step ltac:(left; by eapply lo_agent_wait).
  run_step ltac:(left; apply lo_tasks; [done|right; by exists 7%Z]).
  match goal with |- rtc ?R ?x ?y => replace y with x by (vm_compute; reflexivity) end. apply rtc_refl.
Qed.

Lemma pod_session_ends_witness :
  lv_exits live_ended = [7%Z] ∧ length (lv_finishes live_ended) = match ss_agentForward (lv_session live_ended) with Some _ => 1 | None => 0 end.
Proof.
  split; [reflexivity|].
  apply (@pod_session_ends demo_wire demo_pod_wire ascii_only demo_target "/bin/sh" (fun _ => true) (fun _ => [])
    (fun _ => None) live_ended); [apply live_ended_reachable|reflexivity].
Defined.
