(* ===== verification/Commands.v ===== *)
(** Model of the three commands: [src/cmd/kube-ssh/main.go] (its flags, their environment variables, the
    redacted configuration log and the exit status), [src/cmd/kube-ssh-node/main.go] and
    [src/cmd/kube-ssh-helper/main.go].

    Cobra and pflag are libraries: the flags are modelled as they stand after the command line was
    parsed, with the parsing of integers, durations and shell words as parameters. *)

From S2P Require Import Prelude GoStrings GoStrconv Authn Options CriNode.

(** ** Flags *)

Inductive flagValue :=
| VString (s : string) | VBool (b : bool) | VInt (n : Z) | VDuration (n : Z) | VStringArray (l : list string).
Record flag := mkFlag { fl_Name : string; fl_Value : flagValue; fl_Changed : bool }.

(** The flags of [newRootCmd]; [o] gives their defaults. *)
Definition gateway_flags_of (o : Options) : list flag :=
  [mkFlag "listen-address" (VString (ListenAddress o)) false;
   mkFlag "gateway-class-name" (VString (GatewayClassName o)) false;
   mkFlag "advertise-address" (VStringArray (AdvertiseAddresses o)) false;
   mkFlag "kubeconfig" (VString (Kubeconfig o)) false;
   mkFlag "host-key-file" (VString (HostKeyFile o)) false;
   mkFlag "external-ssh-connect-timeout" (VDuration (SSHProxy_ConnectTimeout o)) false;
   mkFlag "managed-transport" (VString (PodSSH_Transport o)) false;
   mkFlag "cri-port" (VInt (cri_Port (PodSSH_CRI o))) false;
   mkFlag "cri-server-name" (VString (cri_ServerName (PodSSH_CRI o))) false;
   mkFlag "cri-ca-file" (VString (cri_CAFile (PodSSH_CRI o))) false;
   mkFlag "cri-cert-file" (VString (cri_CertFile (PodSSH_CRI o))) false;
   mkFlag "cri-key-file" (VString (cri_KeyFile (PodSSH_CRI o))) false;
   mkFlag "policy-default-container-mode" (VString (ContainerMode (Policy_Defaults o))) false;
   mkFlag "policy-default-capability" (VStringArray (Capabilities (Policy_Defaults o))) false;
   mkFlag "policy-default-env" (VStringArray (EnvAllowlist (Policy_Defaults o))) false;
   mkFlag "policy-default-local-forward" (VStringArray (LocalForwardDestinations (Policy_Defaults o))) false;
   mkFlag "policy-default-remote-forward" (VStringArray (RemoteForwardBinds (Policy_Defaults o))) false;
   mkFlag "policy-default-shell" (VString (DefaultShell (Policy_Defaults o))) false;
   mkFlag "policy-default-idle-timeout" (VDuration (IdleTimeout (Policy_Defaults o))) false;
   mkFlag "policy-default-max-duration" (VDuration (MaxDuration (Policy_Defaults o))) false;
   mkFlag "policy-limit-container-mode" (VString (ContainerMode (Policy_Limits o))) false;
   mkFlag "policy-limit-capability" (VStringArray (Capabilities (Policy_Limits o))) false;
   mkFlag "policy-limit-env" (VStringArray (EnvAllowlist (Policy_Limits o))) false;
   mkFlag "policy-limit-local-forward" (VStringArray (LocalForwardDestinations (Policy_Limits o))) false;
   mkFlag "policy-limit-remote-forward" (VStringArray (RemoteForwardBinds (Policy_Limits o))) false;
   mkFlag "policy-limit-shell" (VStringArray (Shells (Policy_Limits o))) false;
   mkFlag "policy-limit-idle-timeout" (VDuration (IdleTimeout (Policy_Limits o))) false;
   mkFlag "policy-limit-max-duration" (VDuration (MaxDuration (Policy_Limits o))) false;
   mkFlag "metrics-listen-address" (VString (Metrics_ListenAddress o)) false;
   mkFlag "metrics-path" (VString (Metrics_Path o)) false;
   mkFlag "audit-queue-size" (VInt (Audit_QueueSize o)) false;
   mkFlag "audit-flush-timeout" (VDuration (Audit_FlushTimeout o)) false;
   mkFlag "helper-path" (VString (Helper_Path o)) false;
   mkFlag "helper-remote-dir" (VString (Helper_RemoteDir o)) false;
   mkFlag "access-policy-enabled" (VBool (AccessPolicy_Enabled o)) false;
   mkFlag "access-policy-namespace" (VString (AccessPolicy_Namespace o)) false;
   mkFlag "authentication-method" (VStringArray (default [] (ao_Methods (Authentication o)))) false;
   mkFlag "authentication-anonymous" (VBool (ao_Anonymous (Authentication o))) false;
   mkFlag "authentication-webhook-server" (VString (wo_Server (ao_Webhook (Authentication o)))) false;
   mkFlag "authentication-webhook-proxy-url" (VString (wo_ProxyURL (ao_Webhook (Authentication o)))) false;
   mkFlag "authentication-webhook-token" (VString (wo_Token (ao_Webhook (Authentication o)))) false;
   mkFlag "authentication-webhook-username" (VString (wo_Username (ao_Webhook (Authentication o)))) false;
   mkFlag "authentication-webhook-password" (VString (wo_Password (ao_Webhook (Authentication o)))) false;
   mkFlag "authentication-webhook-ca-file" (VString (wo_CAFile (ao_Webhook (Authentication o)))) false;
   mkFlag "authentication-webhook-cert-file" (VString (wo_CertFile (ao_Webhook (Authentication o)))) false;
   mkFlag "authentication-webhook-key-file" (VString (wo_KeyFile (ao_Webhook (Authentication o)))) false;
   mkFlag "authentication-webhook-insecure-skip-tls-verify" (VBool (wo_InsecureSkipTLSVerify (ao_Webhook (Authentication o)))) false;
   mkFlag "authentication-webhook-timeout" (VDuration (wo_Timeout (ao_Webhook (Authentication o)))) false;
   mkFlag "authorization-allow-all" (VBool (zo_AllowAll (Authorization o))) false;
   mkFlag "authorization-kubernetes-sar" (VBool (zo_KubernetesSAR (Authorization o))) false;
   mkFlag "authorization-webhook-server" (VString (wo_Server (zo_Webhook (Authorization o)))) false;
   mkFlag "authorization-webhook-proxy-url" (VString (wo_ProxyURL (zo_Webhook (Authorization o)))) false;
   mkFlag "authorization-webhook-token" (VString (wo_Token (zo_Webhook (Authorization o)))) false;
   mkFlag "authorization-webhook-username" (VString (wo_Username (zo_Webhook (Authorization o)))) false;
   mkFlag "authorization-webhook-password" (VString (wo_Password (zo_Webhook (Authorization o)))) false;
   mkFlag "authorization-webhook-ca-file" (VString (wo_CAFile (zo_Webhook (Authorization o)))) false;
   mkFlag "authorization-webhook-cert-file" (VString (wo_CertFile (zo_Webhook (Authorization o)))) false;
   mkFlag "authorization-webhook-key-file" (VString (wo_KeyFile (zo_Webhook (Authorization o)))) false;
   mkFlag "authorization-webhook-insecure-skip-tls-verify" (VBool (wo_InsecureSkipTLSVerify (zo_Webhook (Authorization o)))) false;
   mkFlag "authorization-webhook-timeout" (VDuration (wo_Timeout (zo_Webhook (Authorization o)))) false;
   mkFlag "authorized-key" (VStringArray ([])) false;
   mkFlag "authentication-password" (VStringArray ([])) false].
Definition gateway_flags : list flag := gateway_flags_of NewDefaultOptions.

(** Cobra's own flags of a command that has a version. *)
Definition framework_flags : list flag := [mkFlag "help" (VBool false) false; mkFlag "version" (VBool false) false].

Definition flag_lookup (fs : list flag) (name : string) : option flag := find_first (fun f => bool_decide (fl_Name f = name)) fs.
Definition flag_string (fs : list flag) (name : string) : string :=
  match fl_Value <$> flag_lookup fs name with Some (VString s) => s | _ => "" end.
Definition flag_bool (fs : list flag) (name : string) : bool :=
  match fl_Value <$> flag_lookup fs name with Some (VBool b) => b | _ => false end.
Definition flag_int (fs : list flag) (name : string) : Z :=
  match fl_Value <$> flag_lookup fs name with Some (VInt n) | Some (VDuration n) => n | _ => 0%Z end.
Definition flag_strings (fs : list flag) (name : string) : list string :=
  match fl_Value <$> flag_lookup fs name with Some (VStringArray l) => l | _ => [] end.

(** The options the flags are bound to; the keys and passwords are parsed from two of them. *)
Definition options_of (fs : list flag) (keys : list AuthorizedKeyEntry) (passwords : list PasswordEntry) : Options :=
  mkOptions
    (flag_string fs "listen-address")
    (flag_string fs "gateway-class-name")
    (flag_strings fs "advertise-address")
    (flag_string fs "host-key-file")
    (flag_string fs "kubeconfig")
    (flag_string fs "managed-transport")
    (mkCRIOptions (flag_int fs "cri-port") (flag_string fs "cri-server-name") (flag_string fs "cri-ca-file")
      (flag_string fs "cri-cert-file") (flag_string fs "cri-key-file"))
    (flag_string fs "helper-path")
    (flag_string fs "helper-remote-dir")
    (flag_bool fs "access-policy-enabled")
    (flag_string fs "access-policy-namespace")
    (mkPolicyRule (flag_string fs "policy-default-container-mode") (flag_strings fs
      "policy-default-capability") (flag_strings fs "policy-default-env") (flag_strings fs
      "policy-default-local-forward") (flag_strings fs "policy-default-remote-forward") (flag_string fs
      "policy-default-shell") (Shells (Policy_Defaults NewDefaultOptions)) (flag_int fs
      "policy-default-idle-timeout") (flag_int fs "policy-default-max-duration"))
    (mkPolicyRule (flag_string fs "policy-limit-container-mode") (flag_strings fs "policy-limit-capability")
      (flag_strings fs "policy-limit-env") (flag_strings fs "policy-limit-local-forward") (flag_strings fs
      "policy-limit-remote-forward") (DefaultShell (Policy_Limits NewDefaultOptions)) (flag_strings fs
      "policy-limit-shell") (flag_int fs "policy-limit-idle-timeout") (flag_int fs
      "policy-limit-max-duration"))
    (flag_string fs "metrics-listen-address")
    (flag_string fs "metrics-path")
    (flag_int fs "audit-queue-size")
    (flag_int fs "audit-flush-timeout")
    (mkAuthenticationOptions (Some (flag_strings fs "authentication-method")) (flag_bool fs
      "authentication-anonymous") keys passwords (mkWebhookOptions (flag_string fs
      "authentication-webhook-server") (flag_string fs "authentication-webhook-proxy-url") (flag_string fs
      "authentication-webhook-token") (flag_string fs "authentication-webhook-username") (flag_string fs
      "authentication-webhook-password") (flag_string fs "authentication-webhook-cert-file") (flag_string fs
      "authentication-webhook-key-file") (flag_string fs "authentication-webhook-ca-file") (flag_bool fs
      "authentication-webhook-insecure-skip-tls-verify") (flag_int fs "authentication-webhook-timeout")))
    (mkAuthorizationOptions (flag_bool fs "authorization-allow-all") (flag_bool fs
      "authorization-kubernetes-sar") (mkWebhookOptions (flag_string fs "authorization-webhook-server")
      (flag_string fs "authorization-webhook-proxy-url") (flag_string fs "authorization-webhook-token")
      (flag_string fs "authorization-webhook-username") (flag_string fs "authorization-webhook-password")
      (flag_string fs "authorization-webhook-cert-file") (flag_string fs "authorization-webhook-key-file")
      (flag_string fs "authorization-webhook-ca-file") (flag_bool fs
      "authorization-webhook-insecure-skip-tls-verify") (flag_int fs "authorization-webhook-timeout")))
    (flag_int fs "external-ssh-connect-timeout").

(** ** [loadEnv] *)

Fixpoint ReplaceAll_byte (s : string) (a b : ascii) : string :=
  match s with
  | EmptyString => ""
  | String c s => String (if bool_decide (c = a) then b else c) (ReplaceAll_byte s a b)
  end.
Fixpoint Contains (s sub : string) : bool :=
  HasPrefix s sub || match s with EmptyString => false | String _ s => Contains s sub end.

Section Flags.
Context `{UnicodeCase}.
(** [strconv.ParseBool], [strconv.ParseInt] and [time.ParseDuration] as pflag uses them, and [shlex.Split]. *)
Context (parse_bool : string → result bool) (parse_int parse_duration : string → result Z).
Context (shlex_Split : string → result (list string)).

Definition env_name (name : string) : string := ToUpper (ReplaceAll_byte name "-" "_").

(** [setEnvFlagValue]: the new value. *)
Definition setEnvFlagValue (v : flagValue) (value : string) : result flagValue :=
  match v with
  | VString _ => Ok (VString value)
  | VBool _ => b ← parse_bool value; Ok (VBool b)
  | VInt _ => n ← parse_int value; Ok (VInt n)
  | VDuration _ => n ← parse_duration value; Ok (VDuration n)
  | VStringArray _ => l ← shlex_Split value; Ok (VStringArray l)
  end.

(** [loadEnv] on the flags in the order they are visited; [LookupEnv] is the environment. *)
Fixpoint loadEnv (LookupEnv : string → option string) (fs : list flag) : result (list flag) :=
  match fs with
  | [] => Ok []
  | f :: fs =>
      f' ← (if fl_Changed f then Ok f
            else match LookupEnv (env_name (fl_Name f)) with
                 | None => Ok f
                 | Some value =>
                     match setEnvFlagValue (fl_Value f) value with
                     | Err e => Err (Wrapf "parse environment variable %s: %w" [env_name (fl_Name f)] e)
                     | Ok v => Ok (mkFlag (fl_Name f) v (fl_Changed f))
                     end
                 end);
      fs' ← loadEnv LookupEnv fs;
      Ok (f' :: fs')
  end.

(** ** The configuration log *)

(** [flag.Value.String()]: a string flag is its value, the others are rendered by [render]. *)
Context (render : flagValue → string).
Definition value_string (v : flagValue) : string := match v with VString s => s | _ => render v end.

Definition printableFlagValue (f : flag) : string :=
  let name := ToLower (fl_Name f) in
  if bool_decide (name = "authorized-key") || bool_decide (name = "authentication-password")
  then match fl_Value f with
       | VStringArray l => "<redacted:" +:+ FormatInt (Z.of_nat (length l)) +:+ " entries>"
       | _ => "<redacted>"
       end
  else if Contains name "password" || HasSuffix name "token"
  then if bool_decide (value_string (fl_Value f) = "") then "" else "<redacted>"
  else value_string (fl_Value f).

Definition logEffectiveConfig (fs : list flag) : list (string * string) :=
  (fun f => (fl_Name f, printableFlagValue f)) <$> fs.

(** ** [RunE] and [main] *)

Fixpoint parse_entries {A} (parse : string → result A) (values : list string) : result (list A) :=
  match values with
  | [] => Ok []
  | value :: values => entry ← parse value; entries ← parse_entries parse values; Ok (entry :: entries)
  end.
Definition parseAuthorizedKeys := parse_entries ParseAuthorizedKeyEntry.
Definition parsePasswords := parse_entries ParsePasswordEntry.

(** The error of the command: a cancelled context is a normal end. *)
Definition command_error (err : option error) : option error :=
  match err with Some e => if errors_Is e context_Canceled then None else Some e | None => None end.

(** [PreRunE], then [RunE]: what was logged and the error; [run] is [gateway.Run]. *)
Definition root_command (LookupEnv : string → option string) (run : Options → option error) (fs : list flag)
    : list (string * string) * option error :=
  match loadEnv LookupEnv fs with
  | Err e => ([], Some e)
  | Ok fs =>
      match parseAuthorizedKeys (flag_strings fs "authorized-key") with
      | Err e => ([], Some e)
      | Ok keys =>
          match parsePasswords (flag_strings fs "authentication-password") with
          | Err e => ([], Some e)
          | Ok passwords => (logEffectiveConfig fs, command_error (run (options_of fs keys passwords)))
          end
      end
  end.
Definition main_exit (err : option error) : Z := match err with Some _ => 1 | None => 0 end.
End Flags.

(** ** [kube-ssh-node] *)

Definition node_defaults : NodeOptions :=
  mkNodeOptions (":" +:+ Itoa DefaultStreamPort) (":" +:+ Itoa DefaultMetricsPort) [] "/usr/local/bin/kube-ssh-helper" "/tmp"
    "" "" "" DefaultClientName (30 * second) (10 * second).
Definition node_flags_of (o : NodeOptions) : list flag :=
  [mkFlag "listen-address" (VString (no_ListenAddress o)) false;
   mkFlag "management-listen-address" (VString (no_ManagementAddress o)) false;
   mkFlag "runtime-endpoint" (VStringArray (no_RuntimeEndpoints o)) false;
   mkFlag "helper-path" (VString (no_HelperPath o)) false;
   mkFlag "helper-remote-dir" (VString (no_HelperRemoteDir o)) false;
   mkFlag "tls-ca-file" (VString (no_TLSCAFile o)) false;
   mkFlag "tls-cert-file" (VString (no_TLSCertFile o)) false;
   mkFlag "tls-key-file" (VString (no_TLSKeyFile o)) false;
   mkFlag "tls-client-name" (VString (no_ExpectedClientName o)) false;
   mkFlag "shutdown-timeout" (VDuration (no_ShutdownTimeout o)) false;
   mkFlag "runtime-timeout" (VDuration (no_RuntimeTimeout o)) false].
Definition node_options_of (fs : list flag) : NodeOptions :=
  mkNodeOptions
    (flag_string fs "listen-address")
    (flag_string fs "management-listen-address")
    (flag_strings fs "runtime-endpoint")
    (flag_string fs "helper-path")
    (flag_string fs "helper-remote-dir")
    (flag_string fs "tls-ca-file")
    (flag_string fs "tls-cert-file")
    (flag_string fs "tls-key-file")
    (flag_string fs "tls-client-name")
    (flag_int fs "shutdown-timeout")
    (flag_int fs "runtime-timeout").
Definition node_command (run : NodeOptions → option error) (fs : list flag) : option error :=
  command_error (run (node_options_of fs)).

(** ** [kube-ssh-helper] *)

Inductive helperCommand := HelperVersion | HelperDial (args : list string) | HelperServe | HelperSFTP | HelperSCP (args : list string).

(** [main]: the command of the arguments [os.Args[1:]], whose errors exit with status 2. *)
Definition helper_main (args : list string) : result helperCommand :=
  let command := default "version" (head args) in
  let rest := drop 1 args in
  if bool_decide (command = "version") then Ok HelperVersion
  else if bool_decide (command = "dial") then Ok (HelperDial rest)
  else if bool_decide (command = "serve") then Ok HelperServe
  else if bool_decide (command = "sftp") then Ok HelperSFTP
  else if bool_decide (command = "scp") then Ok (HelperSCP rest)
  else Err (Errorf "unsupported helper command: %s" [command]).
Definition helper_exit (err : option error) : Z := match err with Some _ => 2 | None => 0 end.
