(* ===== verification/CommandsProps.v ===== *)
(** Properties of the commands: every flag has its own option and its own environment variable, the
    command line wins over the environment, and no secret is logged. *)

From S2P Require Import Prelude GoStrings GoStrconv Authn Options CriNode Commands.

(** ** Flags and options *)

(** Each flag is bound to its own option: the flags made from any options give these options back.
    (Two fields have no flag and keep their defaults.) *)
Theorem flags_options_roundtrip o methods :
  ao_Methods (Authentication o) = Some methods →
  Shells (Policy_Defaults o) = Shells (Policy_Defaults NewDefaultOptions) →
  DefaultShell (Policy_Limits o) = DefaultShell (Policy_Limits NewDefaultOptions) →
  options_of (gateway_flags_of o) (ao_AuthorizedKeys (Authentication o)) (ao_Passwords (Authentication o)) = o.
Proof.
  destruct o as [? ? ? ? ? ? [] ? ? ? ? [] [] ? ? ? ? [ms ? ? ? []] [? ? []] ?]. simpl. intros -> -> ->.
  reflexivity.
Qed.

Theorem node_flags_roundtrip o : node_options_of (node_flags_of o) = o.
Proof. by destruct o. Qed.

Section Flags.
Context `{UnicodeCase}.

(** No two flags share a name or an environment variable, Cobra's own flags included. *)
Theorem env_names_distinct o :
  NoDup (fl_Name <$> gateway_flags_of o ++ framework_flags) ∧
  NoDup (env_name ∘ fl_Name <$> gateway_flags_of o ++ framework_flags).
Proof. split; refine (bool_decide_unpack _ _); by vm_compute. Qed.

Context (parse_bool : string → result bool) (parse_int parse_duration : string → result Z).
Context (shlex_Split : string → result (list string)).

(** The value a flag should have: the command line's, else the environment's, else its default. *)
Definition effective_value (LookupEnv : string → option string) (f : flag) : result flagValue :=
  if fl_Changed f then Ok (fl_Value f)
  else match LookupEnv (env_name (fl_Name f)) with
       | None => Ok (fl_Value f)
       | Some value => setEnvFlagValue parse_bool parse_int parse_duration shlex_Split (fl_Value f) value
       end.

(** [loadEnv] gives every flag its effective value, and fails exactly when one has none. *)
Lemma loadEnv_effective LookupEnv fs :
  match loadEnv parse_bool parse_int parse_duration shlex_Split LookupEnv fs with
  | Ok fs' => Forall2 (fun f f' => fl_Name f' = fl_Name f ∧ effective_value LookupEnv f = Ok (fl_Value f')) fs fs'
  | Err _ => ∃ f e, f ∈ fs ∧ effective_value LookupEnv f = Err e
  end.
Proof.
  induction fs as [|f fs IH]; [constructor|].
  assert (∀ f', fl_Name f' = fl_Name f ∧ effective_value LookupEnv f = Ok (fl_Value f') →
    match (fs' ← loadEnv parse_bool parse_int parse_duration shlex_Split LookupEnv fs; Ok (f' :: fs')) with
    | Ok fs' => Forall2 (fun f f' => fl_Name f' = fl_Name f ∧ effective_value LookupEnv f = Ok (fl_Value f')) (f :: fs) fs'
    | Err _ => ∃ g err, g ∈ f :: fs ∧ effective_value LookupEnv g = Err err
    end) as Hnext.
  { intros f' Hf'. destruct (loadEnv _ _ _ _ _ fs); simpl; [by constructor|].
    destruct IH as (g & err & Hg & He). exists g, err. split; [by right|done]. }
  cbn [loadEnv]. unfold effective_value in Hnext at 1.
  destruct (fl_Changed f) eqn:Hc; [by apply Hnext|].
  destruct (LookupEnv (env_name (fl_Name f))) as [value|] eqn:Hl; [|by apply Hnext].
  destruct (setEnvFlagValue _ _ _ _ (fl_Value f) value) as [v|err] eqn:Hv; [by apply (Hnext (mkFlag _ v _))|].
  simpl. exists f, err. split; [by left|]. unfold effective_value. by rewrite Hc, Hl.
Qed.

Lemma find_first_cons {A} (p : A → bool) x l : find_first p (x :: l) = if p x then Some x else find_first p l.
Proof. unfold find_first. simpl. destruct (p x); [done|]. by destruct (find_index p l) as [[]|]. Qed.

(** A flag of the command is found under its name. *)
Lemma flag_lookup_Forall2 (P : flag → flag → Prop) fs fs' name f :
  Forall2 P fs fs' → (∀ g g', P g g' → fl_Name g' = fl_Name g) → flag_lookup fs name = Some f →
  ∃ f', flag_lookup fs' name = Some f' ∧ P f f'.
Proof.
  intros Hp Hn. unfold flag_lookup. induction Hp as [|g g' fs fs' Hg _ IH]; [done|].
  rewrite !find_first_cons, (Hn g g' Hg). case_bool_decide; [|by auto]. intros [= ->]. eauto.
Qed.

(** The configuration of the gateway.  Whatever was given on the command line, in the
    environment or not at all: the command either fails, and then some environment variable of a flag
    that is not on the command line cannot be parsed as that flag's type, or every option has exactly
    its effective value: the command line's if the flag was given there, else that of the
    environment variable with the flag's name in upper case and underscores, else the default. *)
Theorem flags_env_precedence LookupEnv fs :
  match loadEnv parse_bool parse_int parse_duration shlex_Split LookupEnv fs with
  | Ok fs' => ∀ name f, flag_lookup fs name = Some f →
      ∃ f', flag_lookup fs' name = Some f' ∧ effective_value LookupEnv f = Ok (fl_Value f')
  | Err _ => ∃ f value err, f ∈ fs ∧ fl_Changed f = false ∧ LookupEnv (env_name (fl_Name f)) = Some value ∧
      setEnvFlagValue parse_bool parse_int parse_duration shlex_Split (fl_Value f) value = Err err
  end.
Proof.
  pose proof (loadEnv_effective LookupEnv fs) as He.
  destruct (loadEnv _ _ _ _ LookupEnv fs) as [fs'|err0].
  - intros name f Hf. destruct (flag_lookup_Forall2 _ _ _ _ _ He (fun g g' Hg => proj1 Hg) Hf) as (f' & ? & _ & ?). eauto.
  - destruct He as (f & err & Hf & He). unfold effective_value in He.
    destruct (fl_Changed f) eqn:Hc; [done|]. destruct (LookupEnv _) as [value|] eqn:Hl; [|done].
    exists f, value, err. done.
Qed.

End Flags.

(** ** Secrets *)

Section Secrets.
Context `{UnicodeCase} (render : flagValue → string).

Definition secret_flags : list string :=
  ["authorized-key"; "authentication-password"; "authentication-webhook-token"; "authentication-webhook-password";
   "authorization-webhook-token"; "authorization-webhook-password"].

(** What may be seen of a secret: how many entries it has, or whether it is empty. *)
Definition secret_shape (v : flagValue) : option (nat + bool) :=
  match v with
  | VStringArray l => Some (inl (length l))
  | VString s => Some (inr (bool_decide (s = "")))
  | _ => None
  end.
(** Two flags that differ in a secret only. *)
Definition same_public (f g : flag) : Prop :=
  fl_Name f = fl_Name g ∧
  (fl_Value f = fl_Value g ∨ fl_Name f ∈ secret_flags ∧ is_Some (secret_shape (fl_Value f)) ∧
     secret_shape (fl_Value f) = secret_shape (fl_Value g) ∧
     (fl_Name f ∉ ["authorized-key"; "authentication-password"] → ∃ s, fl_Value f = VString s)).

Lemma printable_same f g : same_public f g → printableFlagValue render f = printableFlagValue render g.
Proof.
  destruct f as [nf vf cf], g as [ng vg cg]. intros [Hn Hv]. simpl in *. subst ng. unfold printableFlagValue. simpl.
  destruct Hv as [->|(Hs & Hsh & Heq & Hstr)]; [done|].
  unfold secret_flags in Hs. repeat (apply elem_of_cons in Hs as [->|Hs]); [..|by apply not_elem_of_nil in Hs].
  1, 2: vm_compute (bool_decide _ || _); destruct vf, vg; simplify_eq/=; try (by destruct Hsh); by rewrite ?Heq; f_equal.
  all: destruct Hstr as [s ->]; [set_solver|]; destruct vg; simplify_eq/=;
    vm_compute (bool_decide _ || bool_decide _); vm_compute (Contains _ _ || _); simpl;
    by repeat case_bool_decide.
Qed.
(** The log of the effective configuration shows no secret.  For flags that differ in
    passwords, tokens, password entries and authorized keys only, the log is the same: all it says of
    them is how many entries there are and whether a token or password is empty. *)
Theorem log_hides_secrets fs gs :
  Forall2 same_public fs gs → logEffectiveConfig render fs = logEffectiveConfig render gs.
Proof.
  unfold logEffectiveConfig. induction 1 as [|f g fs gs Hfg _ IH]; [done|]. rewrite !fmap_cons, IH.
  destruct Hfg as [Hn Hv]. by rewrite Hn, (printable_same f g (conj Hn Hv)).
Qed.
End Secrets.

Lemma log_hides_secrets_witness :
  let render (_ : flagValue) := "" in
  @logEffectiveConfig ascii_only render [mkFlag "authentication-webhook-token" (VString "s3cret") true] =
  @logEffectiveConfig ascii_only render [mkFlag "authentication-webhook-token" (VString "other") true].
Proof.
  intros render. refine (@log_hides_secrets ascii_only render _ _ _). apply Forall2_cons. split; [|by constructor]. split; [reflexivity|]. right.
  split; [simpl; set_solver|]. split; [by eexists|]. split; [reflexivity|]. intros _. by eexists.
Defined.

(** ** Exit *)

(** The command fails before anything is logged or run if the environment cannot be read, and a run
    that ended by cancellation is a success. *)
Theorem root_command_exit `{UnicodeCase} parse_bool parse_int parse_duration shlex render LookupEnv run fs :
  let '(log, err) := root_command parse_bool parse_int parse_duration shlex render LookupEnv run fs in
  main_exit err = 0%Z →
  ∃ fs' keys passwords, loadEnv parse_bool parse_int parse_duration shlex LookupEnv fs = Ok fs' ∧
    log = logEffectiveConfig render fs' ∧
    match run (options_of fs' keys passwords) with Some e => errors_Is e context_Canceled = true | None => True end.
Proof.
  unfold root_command. destruct (loadEnv _ _ _ _ LookupEnv fs) as [fs'|]; [|done].
  destruct (parseAuthorizedKeys _) as [keys|]; [|done]. destruct (parsePasswords _) as [passwords|]; [|done].
  simpl. intros Hx. exists fs', keys, passwords. split; [done|]. split; [done|]. unfold command_error in Hx.
  destruct (run _) as [e|]; [|done]. by destruct (errors_Is e context_Canceled).
Qed.

(** Cobra's own flag [--version] has an environment variable too: with a [VERSION] in the environment
    that is no boolean the gateway does not start. *)
Theorem version_variable_stops_gateway `{UnicodeCase} parse_bool parse_int parse_duration shlex LookupEnv value e :
  LookupEnv "VERSION" = Some value → parse_bool value = Err e →
  ∃ e', loadEnv parse_bool parse_int parse_duration shlex LookupEnv (gateway_flags ++ framework_flags) = Err e'.
Proof.
  intros Hl Hp.
  pose proof (loadEnv_effective parse_bool parse_int parse_duration shlex LookupEnv (gateway_flags ++ framework_flags)) as He.
  destruct (loadEnv _ _ _ _ LookupEnv _) as [fs'|e'] eqn:E; [|by eexists]. exfalso.
  assert (flag_lookup (gateway_flags ++ framework_flags) "version" = Some (mkFlag "version" (VBool false) false)) as Hf
    by by vm_compute.
  destruct (flag_lookup_Forall2 _ _ _ _ _ He (fun g g' Hg => proj1 Hg) Hf) as (f' & _ & _ & Hv).
  unfold effective_value in Hv. simpl in Hv. change (env_name "version") with "VERSION" in Hv.
  rewrite Hl in Hv. simpl in Hv. by rewrite Hp in Hv.
Qed.
