(* ===== verification/StatusQueue.v ===== *)
(** Model of the work loop of the Access status controller ([Start], the event handlers, [runWorker] and
    [processNext] of [src/pkg/accesspolicy/status_controller.go]) on client-go's work queue, and that no
    change is lost in it.

    The work queue is a library: a class gives its operations and what its documentation promises, in
    terms of the keys that wait, that are being processed and that were added with a delay. *)

From S2P Require Import Prelude Runs GoStrings Kube Strategy AccessStore AccessStoreProps AccessResolver StatusController.

(** ** The work queue *)

Class WorkQueue (Q : Type) := {
  q_new : Q;
  q_Add : Q → string → Q;
  q_Get : Q → option (string * Q);
  q_Done : Q → string → Q;
  q_AddRateLimited : Q → string → Q;
  q_Forget : Q → string → Q;
  q_NumRequeues : Q → string → Z;
  (** The delay of a key that was added with one is over. *)
  q_ready : Q → string → Q;
}.

(** A key that is added waits to be processed once, also if it is being processed; [Get] hands out a
    waiting key that nobody processes; requeues are counted until [Forget]. *)
Class WorkQueueLaws (Q : Type) `{WorkQueue Q} := {
  q_waiting : Q → gset string;
  q_processing : Q → gset string;
  q_delayed : Q → gset string;
  new_law : q_waiting q_new = ∅ ∧ q_processing q_new = ∅ ∧ q_delayed q_new = ∅ ∧ (∀ k, q_NumRequeues q_new k = 0%Z);
  Add_law q k : q_waiting (q_Add q k) = {[k]} ∪ q_waiting q ∧ q_processing (q_Add q k) = q_processing q ∧
    q_delayed (q_Add q k) = q_delayed q ∧ (∀ k', q_NumRequeues (q_Add q k) k' = q_NumRequeues q k');
  Get_law q k q' : q_Get q = Some (k, q') → k ∈ q_waiting q ∧ k ∉ q_processing q ∧
    q_waiting q' = q_waiting q ∖ {[k]} ∧ q_processing q' = {[k]} ∪ q_processing q ∧ q_delayed q' = q_delayed q ∧
    (∀ k', q_NumRequeues q' k' = q_NumRequeues q k');
  Get_some q k : k ∈ q_waiting q → k ∉ q_processing q → is_Some (q_Get q);
  Done_law q k : q_waiting (q_Done q k) = q_waiting q ∧ q_processing (q_Done q k) = q_processing q ∖ {[k]} ∧
    q_delayed (q_Done q k) = q_delayed q ∧ (∀ k', q_NumRequeues (q_Done q k) k' = q_NumRequeues q k');
  AddRateLimited_law q k : q_waiting (q_AddRateLimited q k) = q_waiting q ∧
    q_processing (q_AddRateLimited q k) = q_processing q ∧ q_delayed (q_AddRateLimited q k) = {[k]} ∪ q_delayed q ∧
    (∀ k', q_NumRequeues (q_AddRateLimited q k) k' = (q_NumRequeues q k' + if bool_decide (k' = k) then 1 else 0)%Z);
  Forget_law q k : q_waiting (q_Forget q k) = q_waiting q ∧ q_processing (q_Forget q k) = q_processing q ∧
    q_delayed (q_Forget q k) = q_delayed q ∧
    (∀ k', q_NumRequeues (q_Forget q k) k' = if bool_decide (k' = k) then 0%Z else q_NumRequeues q k');
  ready_law q k : k ∈ q_delayed q → q_waiting (q_ready q k) = {[k]} ∪ q_waiting q ∧
    q_processing (q_ready q k) = q_processing q ∧ q_delayed (q_ready q k) = q_delayed q ∖ {[k]} ∧
    (∀ k', q_NumRequeues (q_ready q k) k' = q_NumRequeues q k');
}.

(** ** The work loop *)

(** An informer's object: possibly a tombstone of a deleted one; [None] has no metadata.  The key is
    that of [cache.MetaNamespaceKeyFunc]. *)
Inductive informerObject := LiveObject (meta : option (string * string)) | Tombstone (meta : option (string * string)).
Definition objectKey (obj : informerObject) : option string :=
  match obj with LiveObject meta | Tombstone meta => (fun '(ns, name) => if bool_decide (ns = "") then name else accessKey ns name) <$> meta end.

(** The worker: idle, with a key it has taken, or inside [sync] of a key. *)
Inductive workerPhase := WorkerIdle | WorkerTaken (key : string) | WorkerSyncing (key : string).

Section Loop.
Context {Q : Type} `{WorkQueueLaws Q}.

(** [sl_changed] are the keys that changed since their last [sync] began, or whose last [sync] failed
    and is to be tried again; [sl_given] those whose [sync] was given up after its retries. *)
Record statusLoop := mkStatusLoop {
  sl_controller : AccessStatusController;
  sl_queue : Q;
  sl_worker : workerPhase;
  sl_changed : gset string;
  sl_given : gset string;
}.

Definition q_addAll (q : Q) (keys : list string) : Q := foldl q_Add q keys.

(** [Start]. *)
Definition status_Start (c : AccessStatusController) : statusLoop :=
  mkStatusLoop c (q_addAll q_new (enqueueAll c)) WorkerIdle (list_to_set (enqueueAll c)) ∅.

(** [AccessEventHandler]: an Access was added or updated, and the caches show [c]. *)
Definition access_event (l : statusLoop) (c : AccessStatusController) (obj : informerObject) : statusLoop :=
  match objectKey obj with
  | Some key => mkStatusLoop c (q_Add (sl_queue l) key) (sl_worker l) ({[key]} ∪ sl_changed l) (sl_given l ∖ {[key]})
  | None => mkStatusLoop c (sl_queue l) (sl_worker l) (sl_changed l) (sl_given l)
  end.
(** [PodEventHandler] and [SecretEventHandler]. *)
Definition enqueueAllEvent (l : statusLoop) (c : AccessStatusController) : statusLoop :=
  mkStatusLoop c (q_addAll (sl_queue l) (enqueueAll c)) (sl_worker l)
    (list_to_set (enqueueAll c) ∪ sl_changed l) (sl_given l ∖ list_to_set (enqueueAll c)).

Definition apply_call (q : Q) (c : queueCall) : Q :=
  match c with AddRateLimited k => q_AddRateLimited q k | Forget k => q_Forget q k | Done k => q_Done q k end.

(** [processNext] with the outcome of [sync]. *)
Definition sync_end (l : statusLoop) (key : string) (err : option error) : statusLoop :=
  let calls := processNext err (q_NumRequeues (sl_queue l) key) key in
  let retried := match calls with AddRateLimited _ :: _ => true | _ => false end in
  mkStatusLoop (sl_controller l) (foldl apply_call (sl_queue l) calls) WorkerIdle
    (if retried then {[key]} ∪ sl_changed l else sl_changed l)
    (match err with
     | Some _ => if retried then sl_given l else {[key]} ∪ sl_given l
     | None => sl_given l ∖ {[key]}
     end).

Inductive status_step : statusLoop → statusLoop → Prop :=
| status_access_event l c obj : status_step l (access_event l c obj)
| status_all_event l c : status_step l (enqueueAllEvent l c)
| status_ready l key :
    key ∈ q_delayed (sl_queue l) →
    status_step l (mkStatusLoop (sl_controller l) (q_ready (sl_queue l) key) (sl_worker l) (sl_changed l) (sl_given l))
| status_get l key q :
    sl_worker l = WorkerIdle → q_Get (sl_queue l) = Some (key, q) →
    status_step l (mkStatusLoop (sl_controller l) q (WorkerTaken key) (sl_changed l) (sl_given l))
| status_sync l key :
    sl_worker l = WorkerTaken key →
    status_step l (mkStatusLoop (sl_controller l) (sl_queue l) (WorkerSyncing key) (sl_changed l ∖ {[key]}) (sl_given l))
| status_synced l key err : sl_worker l = WorkerSyncing key → status_step l (sync_end l key err).
End Loop.
Arguments statusLoop Q : clear implicits.

(** ** No change is lost *)

Section LoopProps.
Context {Q : Type} `{WorkQueueLaws Q}.

Definition worker_keys (w : workerPhase) : gset string :=
  match w with WorkerIdle => ∅ | WorkerTaken k | WorkerSyncing k => {[k]} end.

Record status_inv (l : statusLoop Q) : Prop := mkStatusInv {
  sq_changed : ∀ k, k ∈ sl_changed l →
    k ∈ q_waiting (sl_queue l) ∨ k ∈ q_delayed (sl_queue l) ∨ sl_worker l = WorkerTaken k;
  sq_processing : q_processing (sl_queue l) = worker_keys (sl_worker l);
  sq_retries : ∀ k, (0 ≤ q_NumRequeues (sl_queue l) k ≤ 5)%Z;
}.

(** Adding keys makes them wait and changes nothing else. *)
Lemma addAll_law (q : Q) keys :
  q_waiting (q_addAll q keys) = list_to_set keys ∪ q_waiting q ∧ q_processing (q_addAll q keys) = q_processing q ∧
  q_delayed (q_addAll q keys) = q_delayed q ∧ ∀ k, q_NumRequeues (q_addAll q keys) k = q_NumRequeues q k.
Proof.
  unfold q_addAll. revert q. induction keys as [|k keys IH]; intros q; simpl; [split_and!; set_solver|].
  destruct (IH (q_Add q k)) as (-> & -> & -> & Hn). destruct (Add_law q k) as (-> & -> & -> & Hn').
  split_and!; [set_solver|done|done|]. intros k'. by rewrite Hn, Hn'.
Qed.

Lemma status_Start_inv c : status_inv (status_Start c).
Proof.
  destruct (addAll_law q_new (enqueueAll c)) as (Hw & Hp & Hd & Hn). destruct new_law as (Hw0 & Hp0 & Hd0 & Hn0).
  split; simpl.
  - rewrite Hw. set_solver.
  - by rewrite Hp.
  - intros k. rewrite Hn, Hn0. lia.
Qed.

Lemma sync_end_inv l key err : status_inv l → sl_worker l = WorkerSyncing key → status_inv (sync_end l key err).
Proof.
  intros [Hc Hp Hr] Hw. rewrite Hw in *. simpl in Hp. unfold sync_end, processNext.
  assert (status_inv (mkStatusLoop (sl_controller l) (q_Done (q_Forget (sl_queue l) key) key) WorkerIdle
    (sl_changed l) (sl_given l))) as Hforget.
  { destruct (Forget_law (sl_queue l) key) as (Hfw & Hfp & Hfd & Hfn).
    destruct (Done_law (q_Forget (sl_queue l) key) key) as (Hdw & Hdp & Hdd & Hdn). split; simpl.
    - intros k Hk. rewrite Hdw, Hdd, Hfw, Hfd. destruct (Hc k Hk) as [?|[?|?]]; [by auto|by auto|done].
    - rewrite Hdp, Hfp, Hp. apply difference_diag_L.
    - intros k. rewrite Hdn, Hfn. case_bool_decide; [lia|apply Hr]. }
  destruct err as [e|]; simpl; [|by destruct Hforget; split].
  case_bool_decide as Hlt; simpl; [|by destruct Hforget; split].
  destruct (AddRateLimited_law (sl_queue l) key) as (Haw & Hap & Had & Han).
  destruct (Done_law (q_AddRateLimited (sl_queue l) key) key) as (Hdw & Hdp & Hdd & Hdn). split; simpl.
  - intros k Hk. rewrite Hdw, Hdd, Haw, Had. rewrite elem_of_union. apply elem_of_union in Hk as [Hk|Hk]; [by auto|].
    destruct (Hc k Hk) as [?|[?|?]]; [by auto|by auto|done].
  - rewrite Hdp, Hap, Hp. apply difference_diag_L.
  - intros k. rewrite Hdn, Han. specialize (Hr k). case_bool_decide; [subst; lia|lia].
Qed.

(** Keys added to the queue, all of them marked as changed, keep the invariant. *)
Lemma added_inv (l : statusLoop Q) c q keys given :
  status_inv l →
  q_waiting q = keys ∪ q_waiting (sl_queue l) → q_processing q = q_processing (sl_queue l) →
  q_delayed q = q_delayed (sl_queue l) → (∀ k, q_NumRequeues q k = q_NumRequeues (sl_queue l) k) →
  status_inv (mkStatusLoop c q (sl_worker l) (keys ∪ sl_changed l) given).
Proof.
  intros [Hc Hp Hr] Hw Hp' Hd Hn. split; simpl.
  - intros k. rewrite Hw, Hd, !elem_of_union. intros [?|Hk]; [by auto|]. destruct (Hc k Hk) as [?|[?|?]]; auto.
  - by rewrite Hp'.
  - intros k. rewrite Hn. apply Hr.
Qed.

Lemma status_step_inv l l' : status_inv l → status_step l l' → status_inv l'.
Proof.
  intros Hinv Hs. pose proof Hinv as [Hc Hp Hr].
  destruct Hs as [l c obj|l c|l key Hk|l key q Hw Hg|l key Hw|l key err Hw]; [..|by apply sync_end_inv].
  - unfold access_event. destruct (objectKey obj) as [key|]; [|by split].
    destruct (Add_law (sl_queue l) key) as (? & ? & ? & ?). by apply added_inv.
  - destruct (addAll_law (sl_queue l) (enqueueAll c)) as (? & ? & ? & ?). by apply added_inv.
  - destruct (ready_law (sl_queue l) key Hk) as (Haw & Hap & Had & Han). split; simpl.
    + intros k Hk'. rewrite Haw, Had, elem_of_union, elem_of_difference, elem_of_singleton.
      destruct (decide (k = key)); [by auto|]. destruct (Hc k Hk') as [?|[?|?]]; auto.
    + by rewrite Hap.
    + intros k. rewrite Han. apply Hr.
  - destruct (Get_law (sl_queue l) key q Hg) as (Hkw & _ & Haw & Hap & Had & Han). split; simpl.
    + intros k Hk. rewrite Haw, Had, elem_of_difference, elem_of_singleton.
      destruct (decide (k = key)) as [->|]; [by auto|]. destruct (Hc k Hk) as [?|[?|?]]; [by auto|by auto|congruence].
    + rewrite Hap, Hp, Hw. simpl. apply (right_id_L ∅ (∪)).
    + intros k. rewrite Han. apply Hr.
  - split; simpl; [|by rewrite Hp, Hw|done].
    intros k [Hk Hne]%elem_of_difference. destruct (Hc k Hk) as [?|[?|Hx]]; [by auto|by auto|].
    rewrite Hw in Hx. simplify_eq. by destruct Hne; apply elem_of_singleton.
Qed.

Lemma status_reachable_inv c l : rtc status_step (status_Start c) l → status_inv l.
Proof. apply (rtc_invariant _ _ status_step_inv), status_Start_inv. Qed.

(** C33: the status controller loses no change while it runs.  Under every interleaving of events on
    Accesses, Pods and Secrets with its worker and the delays of its queue: an Access whose key an event
    enqueued since its last [sync] began, or whose last [sync] failed and is to be retried, is waiting,
    delayed or about to be synced; a key is retried at most five times in a row; an idle worker finds a
    key whenever one waits; and when the queue has run dry no change is left. *)
Theorem status_no_lost_update c l :
  rtc status_step (status_Start c) l →
  (∀ k, k ∈ sl_changed l →
     k ∈ q_waiting (sl_queue l) ∨ k ∈ q_delayed (sl_queue l) ∨ sl_worker l = WorkerTaken k) ∧
  (∀ k, (0 ≤ q_NumRequeues (sl_queue l) k ≤ 5)%Z) ∧
  (sl_worker l = WorkerIdle → q_waiting (sl_queue l) ≠ ∅ → is_Some (q_Get (sl_queue l))) ∧
  (sl_worker l = WorkerIdle → q_waiting (sl_queue l) = ∅ → q_delayed (sl_queue l) = ∅ → sl_changed l = ∅).
Proof.
  intros [Hc Hp Hr]%status_reachable_inv. split_and!; [done|done|..].
  - intros Hw Hne. apply set_choose_L in Hne as [k Hk]. apply (Get_some _ k Hk). rewrite Hp, Hw. apply not_elem_of_empty.
  - intros Hw Hwait Hdelay. apply elem_of_equiv_empty_L. intros k Hk.
    destruct (Hc k Hk) as [Hx|[Hx|Hx]]; [rewrite Hwait in Hx|rewrite Hdelay in Hx|congruence]; by apply not_elem_of_empty in Hx.
Qed.
End LoopProps.

(** ** A work queue of sets *)

Record setQueue := mkSetQueue {
  sq_wait : gset string;
  sq_proc : gset string;
  sq_delay : gset string;
  sq_count : string → Z;
}.

#[global] Instance setQueue_ops : WorkQueue setQueue := {
  q_new := mkSetQueue ∅ ∅ ∅ (λ _, 0%Z);
  q_Add q k := mkSetQueue ({[k]} ∪ sq_wait q) (sq_proc q) (sq_delay q) (sq_count q);
  q_Get q := k ← head (elements (sq_wait q ∖ sq_proc q));
    Some (k, mkSetQueue (sq_wait q ∖ {[k]}) ({[k]} ∪ sq_proc q) (sq_delay q) (sq_count q));
  q_Done q k := mkSetQueue (sq_wait q) (sq_proc q ∖ {[k]}) (sq_delay q) (sq_count q);
  q_AddRateLimited q k := mkSetQueue (sq_wait q) (sq_proc q) ({[k]} ∪ sq_delay q)
    (λ k', (sq_count q k' + if bool_decide (k' = k) then 1 else 0)%Z);
  q_Forget q k := mkSetQueue (sq_wait q) (sq_proc q) (sq_delay q) (λ k', if bool_decide (k' = k) then 0%Z else sq_count q k');
  q_NumRequeues q k := sq_count q k;
  q_ready q k := mkSetQueue ({[k]} ∪ sq_wait q) (sq_proc q) (sq_delay q ∖ {[k]}) (sq_count q);
}.

#[global] Program Instance setQueue_laws : WorkQueueLaws setQueue := {
  q_waiting := sq_wait; q_processing := sq_proc; q_delayed := sq_delay;
}.
Solve Obligations with try by repeat split.
Next Obligation.
  intros q k q' (k' & Hh & Hs)%bind_Some. simplify_eq. simpl.
  assert (k ∈ elements (sq_wait q ∖ sq_proc q)) as [? ?]%elem_of_elements%elem_of_difference
    by (destruct (elements _); simplify_eq/=; left).
  by repeat split.
Qed.
Next Obligation.
  intros q k Hw Hp. simpl. assert (k ∈ elements (sq_wait q ∖ sq_proc q)) as Hin
    by (by apply elem_of_elements, elem_of_difference).
  destruct (elements _) as [|x xs]; [by apply not_elem_of_nil in Hin|]. by eexists.
Qed.

(** A controller of one Access whose [sync] fails once: its key is then delayed, and nothing else waits. *)
Definition queue_controller : AccessStatusController :=
  mkController (PolicyCache_Get demo_cache) (Ok [pod_access "team" "web" []]) None None defaultContainerPolicy
    [].
Definition demo_queue0 : setQueue := q_addAll q_new (enqueueAll queue_controller).
Definition demo_syncing : statusLoop setQueue :=
  mkStatusLoop queue_controller (mkSetQueue (sq_wait demo_queue0 ∖ {["team/web"]}) ({["team/web"]} ∪ sq_proc demo_queue0)
    (sq_delay demo_queue0) (sq_count demo_queue0)) (WorkerSyncing "team/web")
    (list_to_set (enqueueAll queue_controller) ∖ {["team/web"]}) ∅.
Definition demo_retrying : statusLoop setQueue := sync_end demo_syncing "team/web" (Some (EExternal "conflict")).

Lemma demo_retrying_reachable : rtc status_step (status_Start queue_controller) demo_retrying.
Proof.
  eapply rtc_l; [eapply (status_get _ "team/web"); vm_compute; reflexivity|].
  eapply rtc_l; [eapply (status_sync _ "team/web"); reflexivity|].
  eapply rtc_l; [eapply (status_synced _ "team/web" (Some (EExternal "conflict"))); reflexivity|].
  apply rtc_refl.
Qed.

Lemma status_no_lost_update_witness :
  rtc status_step (status_Start queue_controller) demo_retrying ∧
  bool_decide ("team/web" ∈ sl_changed demo_retrying) = true ∧
  ("team/web" ∈ q_waiting (sl_queue demo_retrying) ∨ "team/web" ∈ q_delayed (sl_queue demo_retrying) ∨
   sl_worker demo_retrying = WorkerTaken "team/web") ∧
  (q_NumRequeues (sl_queue demo_retrying) "team/web" = 1)%Z.
Proof.
  split; [apply demo_retrying_reachable|]. split; [by vm_compute|]. split; [|reflexivity].
  refine (proj1 (status_no_lost_update queue_controller demo_retrying demo_retrying_reachable) "team/web" _).
  by apply (bool_decide_eq_true_1 ("team/web" ∈ sl_changed demo_retrying)); vm_compute.
Defined.
