(* ===== verification/GoHeap.v ===== *)
(** Go values on a heap: structs that refer to others by pointers, slices and maps, and copies of them.

    A heap is a finite map from locations to cells; the cells of a package are a type of its own, one
    constructor for each type that is allocated.  A reference is nil or a location.  A Go type is what
    its values are on the heap ([R]: a struct with references), the value they denote ([V]: without
    references) and its deep copy; [GoTypeLaws] says what a deep copy has to do.  The instances here are
    those of the language: plain types, references, slices and maps. *)

From S2P Require Import Prelude.

Notation heap C := (gmap positive C).

(** ** Programs on a heap *)

(** A program may fault ([None]): it read a location that holds no cell of the right type. *)
Definition heapM (C A : Type) : Type := heap C → option (heap C * A).
#[export] Instance heapM_ret {C} : MRet (heapM C) := fun A a h => Some (h, a).
#[export] Instance heapM_bind {C} : MBind (heapM C) := fun A B k m h =>
  match m h with Some (h, a) => k a h | None => None end.

(** Locations of cells of type [R], nil included. *)
Definition ref (R : Type) : Type := option positive.

(** The cells that hold values of type [R]. *)
Class CellOf (C R : Type) := {
  pack : R → C;
  unpack : C → option R;
  unpack_pack r : unpack (pack r) = Some r;
}.
Ltac cell_of pk un := refine {| pack := pk; unpack := un |}; done.

Section Access.
Context {C R : Type} `{CellOf C R}.

(** [new], at a location that is not in use. *)
Definition alloc (r : R) : heapM C (ref R) := fun h =>
  let l := fresh (dom h) in Some (<[l := pack r]> h, Some l).
(** [*p] of a pointer that is not nil. *)
Definition load (l : positive) : heapM C R := fun h => r ← h !! l ≫= unpack; Some (h, r).
(** [*p = r]. *)
Definition store (l : positive) (r : R) : heapM C unit := fun h =>
  match h !! l with Some _ => Some (<[l := pack r]> h, ()) | None => None end.
End Access.

(** ** Types *)

Class GoType (C R V : Type) := {
  denote : heap C → R → option V;
  deepcopy : R → heapM C R;
}.

(** What a value denotes stays on a larger heap.  A deep copy succeeds on whatever denotes a value; it
    writes to no cell that was there, and what it returns denotes the same value on the new cells
    ([own], with those that were allocated before) alone. *)
Class GoTypeLaws (C R V : Type) `{GoType C R V} : Prop := {
  denote_mono h h' r v : h ⊆ h' → denote h r = Some v → denote h' r = Some v;
  deepcopy_own h own r v : own ##ₘ h → denote h r = Some v →
    ∃ own' r', deepcopy r (h ∪ own) = Some (h ∪ own', r') ∧ own ⊆ own' ∧ own' ##ₘ h ∧ denote own' r' = Some v;
}.

Lemma heapM_bind_Some {C A B} (m : heapM C A) (k : A → heapM C B) h h' a :
  m h = Some (h', a) → (m ≫= k) h = k a h'.
Proof. intros Hm. unfold mbind, heapM_bind. by rewrite Hm. Qed.

(** A plain type, copied by assignment. *)
Definition plain_type {C R : Type} : GoType C R R := {| denote := fun _ r => Some r; deepcopy := fun r => mret r |}.
Lemma plain_laws {C R : Type} : @GoTypeLaws C R R plain_type.
Proof.
  split; [done|]. intros h own r v Hd [= <-]. exists own, r. split_and!; [done|done|done|done].
Qed.

(** *** References: nil stays nil, anything else is copied into a new cell *)

Section Refs.
Context {C R V : Type} `{CellOf C R} `{GoTypeLaws C R V}.

#[export] Instance ref_type : GoType C (ref R) (option V) := {|
  denote := fun h p =>
    match p with
    | None => Some None
    | Some l => r ← h !! l ≫= unpack; v ← denote h r; Some (Some v)
    end;
  deepcopy := fun p =>
    match p with
    | None => mret None
    | Some l => r ← load l; r' ← deepcopy r; alloc r'
    end;
|}.

Lemma alloc_own (h own : heap C) (r : R) : own ##ₘ h →
  ∃ own' l, alloc r (h ∪ own) = Some (h ∪ own', Some l) ∧ own ⊆ own' ∧ own' ##ₘ h ∧ own' !! l = Some (pack r) ∧
    own !! l = None ∧ own' = <[l := pack r]> own.
Proof.
  intros Hd. unfold alloc. set (l := fresh (dom (h ∪ own))).
  assert (h !! l = None ∧ own !! l = None) as [Hh Ho] by (by apply lookup_union_None, not_elem_of_dom, is_fresh).
  exists (<[l := pack r]> own), l. split_and!; [by rewrite insert_union_r|by apply insert_subseteq|
    by apply map_disjoint_insert_l_2|apply lookup_insert_eq|done|done].
Qed.

Lemma load_own (h own : heap C) l r : h !! l ≫= unpack = Some r → load l (h ∪ own) = Some (h ∪ own, r).
Proof.
  intros (c & Hl & Hr)%bind_Some. unfold load. rewrite (lookup_union_Some_l _ _ _ _ Hl). simpl. by rewrite Hr.
Qed.

#[export] Instance ref_laws : GoTypeLaws C (ref R) (option V).
Proof.
  split.
  - intros h h' [l|] v Hsub; [|done]. simpl.
    intros (r & (c & Hl & Hr)%bind_Some & (a & Ha & [= <-])%bind_Some)%bind_Some.
    rewrite (lookup_weaken _ _ _ _ Hl Hsub). simpl. rewrite Hr. simpl. by rewrite (denote_mono _ _ _ _ Hsub Ha).
  - intros h own [l|] v Hd; [|intros [= <-]; by exists own, None]. simpl.
    intros (r & Hr & (a & Ha & [= <-])%bind_Some)%bind_Some.
    rewrite (heapM_bind_Some _ _ _ _ _ (load_own _ own _ _ Hr)).
    destruct (deepcopy_own h own r a Hd Ha) as (own1 & r1 & Hc & Hs1 & Hd1 & Hv1).
    rewrite (heapM_bind_Some _ _ _ _ _ Hc).
    destruct (alloc_own h own1 r1 Hd1) as (own2 & l2 & -> & Hs2 & Hd2 & Hl2 & _).
    exists own2, (Some l2). split_and!; [done|by etrans|done|]. simpl. rewrite Hl2. simpl. rewrite unpack_pack. simpl.
    by rewrite (denote_mono _ _ _ _ Hs2 Hv1).
Qed.
End Refs.

(** *** The elements of a slice, one after the other *)

Section Slices.
Context {C R V : Type} `{GoTypeLaws C R V}.

Definition slice_type : GoType C (list R) (list V) := {|
  denote := fun h l => mapM (denote h) l;
  deepcopy := fun l => mapM deepcopy l;
|}.

Lemma slice_laws : @GoTypeLaws C (list R) (list V) slice_type.
Proof.
  split; simpl.
  - intros h h' l v Hsub. rewrite !mapM_Some. intros Hl. eapply Forall2_impl; [done|]. intros r a. by apply denote_mono.
  - intros h own l. revert own. induction l as [|r l IH]; intros own v Hd; simpl.
    + intros [= <-]. by exists own, [].
    + intros (a & Ha & (vs & Hvs & [= <-])%bind_Some)%bind_Some.
      destruct (deepcopy_own h own r a Hd Ha) as (own1 & r1 & Hc & Hs1 & Hd1 & Hv1).
      rewrite (heapM_bind_Some _ _ _ _ _ Hc).
      destruct (IH own1 vs Hd1 Hvs) as (own2 & l2 & Hc2 & Hs2 & Hd2 & Hv2).
      rewrite (heapM_bind_Some _ _ _ _ _ Hc2). exists own2, (r1 :: l2). split_and!; [done|by etrans|done|]. simpl.
      by rewrite (denote_mono _ _ _ _ Hs2 Hv1), Hv2.
Qed.
End Slices.

(** *** The entries of a map, in any order *)

Section Maps.
Context {C R V : Type} `{GoTypeLaws C R V}.

Definition map_type : GoType C (gmap string R) (gmap string V) := {|
  denote := fun h m =>
    if decide (map_Forall (fun _ r => is_Some (denote h r)) m) then Some (omap (denote h) m) else None;
  deepcopy := fun m => map_fold (fun k r out => out ← out; r' ← deepcopy r; mret (<[k := r']> out)) (mret ∅) m;
|}.

Lemma map_denote_Some h (m : gmap string R) vm :
  @denote _ _ _ map_type h m = Some vm ↔ ∀ k, (denote h <$> m !! k) = (Some <$> vm !! k).
Proof.
  simpl. split.
  - case_decide as Hall; [|done]. intros [= <-] k. rewrite lookup_omap.
    destruct (m !! k) as [r|] eqn:Hk; simpl; [|done]. destruct (Hall k r Hk) as [v Hv]. by rewrite Hv.
  - intros Heq. rewrite decide_True.
    + f_equal. apply map_eq. intros k. rewrite lookup_omap. specialize (Heq k).
      destruct (m !! k), (vm !! k); simplify_eq/=; done.
    + intros k r Hk. specialize (Heq k). rewrite Hk in Heq. destruct (vm !! k); simplify_eq/=; by rewrite Heq.
Qed.

Lemma map_laws : @GoTypeLaws C (gmap string R) (gmap string V) map_type.
Proof.
  split.
  - intros h h' m vm Hsub. rewrite !map_denote_Some. intros Heq k. specialize (Heq k).
    destruct (m !! k) as [r|], (vm !! k) as [v|]; simplify_eq/=; [|done]. f_equal. by apply (denote_mono h).
  - intros h own m vm Hd Hvm. cbn [deepcopy map_type].
    revert vm Hvm. apply (map_fold_weak_ind (fun run m => ∀ vm, @denote _ _ _ map_type h m = Some vm →
      ∃ own' m', run (h ∪ own) = Some (h ∪ own', m') ∧ own ⊆ own' ∧ own' ##ₘ h ∧ @denote _ _ _ map_type own' m' = Some vm)).
    + intros vm. rewrite map_denote_Some. intros Heq. exists own, ∅. split_and!; [done..|].
      apply map_denote_Some. intros k. rewrite <-Heq. by rewrite !lookup_empty.
    + intros k r m0 run Hk IH vm. rewrite map_denote_Some. intros Heq.
      destruct (IH (delete k vm)) as (own1 & m1 & Hc1 & Hs1 & Hd1 & Hv1).
      { apply map_denote_Some. intros k'. destruct (decide (k' = k)) as [->|Hne].
        - by rewrite Hk, lookup_delete_eq.
        - rewrite lookup_delete_ne by done. rewrite <-Heq. by rewrite lookup_insert_ne. }
      pose proof (proj1 (map_denote_Some _ _ _) Hv1) as Hlk. pose proof (Heq k) as Hkv. rewrite lookup_insert_eq in Hkv. destruct (vm !! k) as [v|] eqn:Hvk; simplify_eq/=.
      rewrite (heapM_bind_Some _ _ _ _ _ Hc1).
      destruct (deepcopy_own h own1 r v Hd1 Hkv) as (own2 & r2 & Hc2 & Hs2 & Hd2 & Hv2).
      rewrite (heapM_bind_Some _ _ _ _ _ Hc2). exists own2, (<[k := r2]> m1). split_and!; [done|by etrans|done|].
      apply map_denote_Some. intros k'. destruct (decide (k' = k)) as [->|Hne].
      * by rewrite lookup_insert_eq, Hvk; simpl; f_equal.
      * rewrite lookup_insert_ne by done. specialize (Hlk k').
        rewrite lookup_delete_ne in Hlk by done. destruct (m1 !! k') as [r'|], (vm !! k') as [v'|]; simplify_eq/=; [|done].
        f_equal. by apply (denote_mono own1).
Qed.
End Maps.

(** ** Structs *)

(** The laws of a struct, field by field: its denotation and its deep copy are both sequences over the
    fields.  [copy_field] runs the copy of one field and carries the copies made before it along. *)
Ltac copy_field :=
  match goal with
  | Hd : ?own ##ₘ ?h, Hx : denote ?h ?p = Some _ |- context [(deepcopy ?p ≫= _) (?h ∪ ?own)] =>
      let own' := fresh "own" in let p' := fresh "p" in let Hc := fresh "Hc" in let Hs := fresh "Hs" in
      let Hd' := fresh "Hd" in let Hv := fresh "Hv" in
      destruct (deepcopy_own h own p _ Hd Hx) as (own' & p' & Hc & Hs & Hd' & Hv);
      rewrite (heapM_bind_Some _ _ _ _ _ Hc); clear Hc;
      repeat match goal with H : denote own _ = Some _ |- _ => apply (denote_mono _ _ _ _ Hs) in H end;
      match goal with
      | Hsub : ?own0 ⊆ own |- _ => apply (fun H => transitivity H Hs) in Hsub
      | _ => idtac
      end;
      clear Hd; try clear Hs
  end.
Ltac read_fields Hv :=
  repeat match type of Hv with
  | (denote _ _ ≫= _) = _ => let x := fresh "x" in let Hx := fresh "Hx" in apply bind_Some in Hv as (x & Hx & Hv)
  end.
Ltac show_fields :=
  repeat match goal with
  | H : denote ?h ?p = Some _ |- context [denote ?h ?p ≫= _] => rewrite H; cbn [mbind option_bind]
  end.

(** [type] is the instance, [value] and [into] its denotation and its deep copy. *)
Ltac struct_laws type value into :=
  split; cbn [denote deepcopy type]; unfold value, into;
  [ let h := fresh "h" in let h' := fresh "h'" in let Hsub := fresh "Hsub" in let Hv := fresh "Hv" in
    intros h h' ? ? Hsub Hv; read_fields Hv;
    repeat match goal with H : denote h _ = Some _ |- _ => apply (denote_mono _ _ _ _ Hsub) in H end;
    show_fields; done
  | let own := fresh "own" in let Hd := fresh "Hd" in let Hv := fresh "Hv" in let Hrefl := fresh "Hrefl" in
    intros ? own ? ? Hd Hv; read_fields Hv;
    pose proof (reflexivity own : own ⊆ own) as Hrefl;
    repeat copy_field;
    eexists _, _; split; [reflexivity|]; split; [exact Hrefl|]; split; [done|]; cbn -[denote mbind]; show_fields; done ].
