(* ===== verification/AuditClone.v ===== *)
(** Model of how the asynchronous audit recorder takes an event over ([Record] and [cloneEvent] of
    [src/pkg/audit/async.go]) on the heap of [GoHeap]: an event is a struct of pointers, a map and slices
    that its caller keeps, and the recorder's worker reads it later.  What an event denotes on a heap is a
    value of [AuditLog]. *)

From S2P Require Import Prelude AuditLog GoHeap.

(** ** Events on the heap *)

(** A struct with a reference of its own: its plain fields as a value (whose other field is unused) and
    the reference. *)
Record actorRef := mkActorRef { ar_plain : Actor; ar_Groups : ref (list string) }.
Record outcomeRef := mkOutcomeRef { or_plain : Outcome; or_ExitCode : ref Z }.

(** The event; [er_plain] holds the fields that are no references. *)
Record eventRef := mkEventRef {
  er_plain : Event;
  er_Connection : ref Connection;
  er_Actor : ref actorRef;
  er_Access : ref AccessBinding;
  er_Target : ref AuditTarget;
  er_Operation : ref AuditOperation;
  er_Authorization : ref Authorization;
  er_Outcome : ref outcomeRef;
  er_Fields : ref (gmap string string);
}.

Inductive auditCell :=
| CellConnection (v : Connection)
| CellActor (v : actorRef)
| CellAccess (v : AccessBinding)
| CellTarget (v : AuditTarget)
| CellOperation (v : AuditOperation)
| CellAuthorization (v : Authorization)
| CellOutcome (v : outcomeRef)
| CellFields (v : gmap string string)
| CellGroups (v : list string)
| CellInt (v : Z).

#[export] Instance audit_connection_cell : CellOf auditCell Connection. Proof. cell_of CellConnection (fun c => match c with CellConnection v => Some v | _ => None end). Defined.
#[export] Instance audit_actor_cell : CellOf auditCell actorRef. Proof. cell_of CellActor (fun c => match c with CellActor v => Some v | _ => None end). Defined.
#[export] Instance audit_binding_cell : CellOf auditCell AccessBinding. Proof. cell_of CellAccess (fun c => match c with CellAccess v => Some v | _ => None end). Defined.
#[export] Instance audit_target_cell : CellOf auditCell AuditTarget. Proof. cell_of CellTarget (fun c => match c with CellTarget v => Some v | _ => None end). Defined.
#[export] Instance audit_operation_cell : CellOf auditCell AuditOperation. Proof. cell_of CellOperation (fun c => match c with CellOperation v => Some v | _ => None end). Defined.
#[export] Instance audit_authorization_cell : CellOf auditCell Authorization. Proof. cell_of CellAuthorization (fun c => match c with CellAuthorization v => Some v | _ => None end). Defined.
#[export] Instance audit_outcome_cell : CellOf auditCell outcomeRef. Proof. cell_of CellOutcome (fun c => match c with CellOutcome v => Some v | _ => None end). Defined.
#[export] Instance audit_fields_cell : CellOf auditCell (gmap string string). Proof. cell_of CellFields (fun c => match c with CellFields v => Some v | _ => None end). Defined.
#[export] Instance audit_groups_cell : CellOf auditCell (list string). Proof. cell_of CellGroups (fun c => match c with CellGroups v => Some v | _ => None end). Defined.
#[export] Instance audit_exitCode_cell : CellOf auditCell Z. Proof. cell_of CellInt (fun c => match c with CellInt v => Some v | _ => None end). Defined.

(** Plain structs, the map of fields and the slice of groups are copied by assignment, [maps.Clone] and
    [slices.Clone]. *)
#[export] Instance audit_connection_type : GoType auditCell Connection Connection := plain_type.
#[export] Instance audit_binding_type : GoType auditCell AccessBinding AccessBinding := plain_type.
#[export] Instance audit_target_type : GoType auditCell AuditTarget AuditTarget := plain_type.
#[export] Instance audit_operation_type : GoType auditCell AuditOperation AuditOperation := plain_type.
#[export] Instance audit_authorization_type : GoType auditCell Authorization Authorization := plain_type.
#[export] Instance audit_fields_type : GoType auditCell (gmap string string) (gmap string string) := plain_type.
#[export] Instance audit_groups_type : GoType auditCell (list string) (list string) := plain_type.
#[export] Instance audit_exitCode_type : GoType auditCell Z Z := plain_type.
#[export] Instance audit_connection_laws : GoTypeLaws auditCell Connection Connection := plain_laws.
#[export] Instance audit_binding_laws : GoTypeLaws auditCell AccessBinding AccessBinding := plain_laws.
#[export] Instance audit_target_laws : GoTypeLaws auditCell AuditTarget AuditTarget := plain_laws.
#[export] Instance audit_operation_laws : GoTypeLaws auditCell AuditOperation AuditOperation := plain_laws.
#[export] Instance audit_authorization_laws : GoTypeLaws auditCell Authorization Authorization := plain_laws.
#[export] Instance audit_fields_laws : GoTypeLaws auditCell (gmap string string) (gmap string string) := plain_laws.
#[export] Instance audit_groups_laws : GoTypeLaws auditCell (list string) (list string) := plain_laws.
#[export] Instance audit_exitCode_laws : GoTypeLaws auditCell Z Z := plain_laws.

(** ** [cloneEvent] *)

Definition with_groups (v : Actor) (groups : option (list string)) : Actor :=
  mkActor (actor_ID v) (actor_Name v) (actor_Email v) (actor_EmailVerified v) (default [] groups)
    (AuthenticationMethod v) (PublicKeyFingerprint v).
Definition actor_value (h : heap auditCell) (r : actorRef) : option Actor :=
  groups ← denote h (ar_Groups r); Some (with_groups (ar_plain r) groups).
Definition clone_Actor (r : actorRef) : heapM auditCell actorRef :=
  groups ← deepcopy (ar_Groups r); mret (mkActorRef (ar_plain r) groups).
#[export] Instance actor_type : GoType auditCell actorRef Actor := {| denote := actor_value; deepcopy := clone_Actor |}.
#[export] Instance actor_laws : GoTypeLaws auditCell actorRef Actor.
Proof. struct_laws actor_type actor_value clone_Actor. Qed.

Definition with_exitCode (v : Outcome) (code : option Z) : Outcome :=
  mkOutcome (out_Result v) (out_Reason v) (out_Error v) code (out_DurationMS v).
Definition outcome_value (h : heap auditCell) (r : outcomeRef) : option Outcome :=
  code ← denote h (or_ExitCode r); Some (with_exitCode (or_plain r) code).
Definition clone_Outcome (r : outcomeRef) : heapM auditCell outcomeRef :=
  exitCode ← deepcopy (or_ExitCode r); mret (mkOutcomeRef (or_plain r) exitCode).
#[export] Instance outcome_type : GoType auditCell outcomeRef Outcome := {| denote := outcome_value; deepcopy := clone_Outcome |}.
#[export] Instance outcome_laws : GoTypeLaws auditCell outcomeRef Outcome.
Proof. struct_laws outcome_type outcome_value clone_Outcome. Qed.

Definition event_value (h : heap auditCell) (e : eventRef) : option Event :=
  connection ← denote h (er_Connection e);
  actor ← denote h (er_Actor e);
  access ← denote h (er_Access e);
  target ← denote h (er_Target e);
  operation ← denote h (er_Operation e);
  authorization ← denote h (er_Authorization e);
  outcome ← denote h (er_Outcome e);
  fields ← denote h (er_Fields e);
  let p := er_plain e in
  Some (mkEvent (SchemaVersion p) (ev_ID p) (ev_Time p) (ev_Type p) (ev_Correlation p) connection actor access target
    operation authorization outcome (default ∅ fields)).
(** Every pointer that is not nil gets a cell of its own, which [ref_type] does. *)
Definition cloneEvent (e : eventRef) : heapM auditCell eventRef :=
  fields ← deepcopy (er_Fields e);
  actor ← deepcopy (er_Actor e);
  connection ← deepcopy (er_Connection e);
  access ← deepcopy (er_Access e);
  target ← deepcopy (er_Target e);
  operation ← deepcopy (er_Operation e);
  authorization ← deepcopy (er_Authorization e);
  outcome ← deepcopy (er_Outcome e);
  mret (mkEventRef (er_plain e) connection actor access target operation authorization outcome fields).
#[export] Instance event_type : GoType auditCell eventRef Event := {| denote := event_value; deepcopy := cloneEvent |}.
#[export] Instance event_laws : GoTypeLaws auditCell eventRef Event.
Proof. struct_laws event_type event_value cloneEvent. Qed.

(** [Record] up to the queue: prepare and clone. *)
Definition record_prepare (id : string) (now : Z) (e : eventRef) : eventRef :=
  mkEventRef (prepare id now (er_plain e)) (er_Connection e) (er_Actor e) (er_Access e) (er_Target e) (er_Operation e)
    (er_Authorization e) (er_Outcome e) (er_Fields e).
Definition record_take (id : string) (now : Z) (e : eventRef) : heapM auditCell eventRef :=
  cloneEvent (record_prepare id now e).

(** ** The copy is the recorder's own *)

Lemma record_prepare_value h id now e v :
  event_value h e = Some v → event_value h (record_prepare id now e) = Some (prepare id now v).
Proof. unfold event_value. intros Hv. read_fields Hv. cbn -[denote mbind prepare]. show_fields. by simplify_eq. Qed.

(** C36: a recorded audit event is the recorder's own.  Taking an event that denotes a value succeeds,
    touches no cell of the caller and yields an event of new cells that denotes the prepared value; so
    whatever the caller and everyone else later write to the cells that existed before, and whatever is
    allocated, the event that the worker hands to the sink still denotes that value.  It is why the
    recorder can be modelled on event values. *)
Theorem audit_event_isolated h id now e v :
  event_value h e = Some v →
  ∃ h' e', record_take id now e h = Some (h', e') ∧ h ⊆ h' ∧
    event_value h' e' = Some (prepare id now v) ∧
    ∀ h'', (∀ l, l ∈ dom h' → l ∉ dom h → h'' !! l = h' !! l) → event_value h'' e' = Some (prepare id now v).
Proof.
  intros Hv%(record_prepare_value _ id now).
  destruct (deepcopy_own (GoTypeLaws := event_laws) h ∅ _ _ (map_disjoint_empty_l h) Hv) as (own & e' & Hc & _ & Hd & Ho).
  rewrite map_union_empty in Hc.
  assert (∀ h'', (∀ l, l ∈ dom (h ∪ own) → l ∉ dom h → h'' !! l = (h ∪ own) !! l) → own ⊆ h'') as Hsub.
  { intros h'' Heq. apply map_subseteq_spec. intros l c Hl.
    pose proof (map_disjoint_Some_l _ _ _ _ Hd Hl) as Hn.
    rewrite Heq; [by apply lookup_union_Some_r|rewrite dom_union; by apply elem_of_union_r, elem_of_dom|].
    by apply not_elem_of_dom. }
  exists (h ∪ own), e'. split_and!; [done|apply map_union_subseteq_l|..].
  - apply (denote_mono (GoTypeLaws := event_laws) own); [by apply Hsub|done].
  - intros h'' Heq. apply (denote_mono (GoTypeLaws := event_laws) own); [by apply Hsub|done].
Qed.

(** An event with an actor and an outcome; its groups and its fields are overwritten after it was
    recorded, and its exit code changed. *)
Definition demo_heap : heap auditCell :=
  {[1%positive := CellActor (mkActorRef (mkActor "u1" "ann" "" false [] "password" "") (Some 2%positive));
    2%positive := CellGroups ["dev"; "ops"]; 3%positive := CellOutcome (mkOutcomeRef (mkOutcome "success" "" "" None 7) (Some 4%positive));
    4%positive := CellInt 0; 5%positive := CellFields {["pty" := "true"]}]}.
Definition demo_eventRef : eventRef :=
  mkEventRef (NewEvent "id-1" 9 "operation.end") None (Some 1%positive) None None None None (Some 3%positive) (Some 5%positive).
Definition demo_overwritten (h : heap auditCell) : heap auditCell :=
  <[2%positive := CellGroups []]> (<[4%positive := CellInt 137]> (<[5%positive := CellFields ∅]> h)).

Lemma audit_event_isolated_witness :
  ∃ h' e' v, record_take "id-2" 10 demo_eventRef demo_heap = Some (h', e') ∧
    event_value (demo_overwritten h') e' = Some v ∧
    (actor_Groups <$> ev_Actor v) = Some ["dev"; "ops"] ∧ (out_ExitCode <$> ev_Outcome v) = Some (Some 0%Z) ∧
    event_value (demo_overwritten h') demo_eventRef ≠ Some v.
Proof.
  destruct (event_value demo_heap demo_eventRef) as [v|] eqn:Hv; [|by vm_compute in Hv].
  destruct (audit_event_isolated demo_heap "id-2" 10 demo_eventRef v Hv) as (h' & e' & Ht & _ & _ & Hiso).
  exists h', e', (prepare "id-2" 10 v). split; [done|]. split.
  - apply Hiso. intros l _ Hn. unfold demo_overwritten.
    assert (l ≠ 2 ∧ l ≠ 4 ∧ l ≠ 5)%positive as (? & ? & ?).
    { split_and!; intros ->; apply Hn; apply elem_of_dom; by vm_compute. }
    by rewrite !lookup_insert_ne by done.
  - vm_compute in Hv. injection Hv as <-. split_and!; [reflexivity..|].
    vm_compute in Ht. injection Ht as <- <-. by vm_compute.
Defined.
