(* ===== verification/PodPath.v ===== *)
(** From an SSH request to a container: the operation layer, the Pod protocol, the executor, the CRI
    transport and the node put together.

    Each of these components is modelled in a file of its own, against an interface: the Pod protocol
    asks a callback before it calls the backend, the executor turns backend calls into calls of a
    transport, the transport into requests to the node, and the node's handler into requests to the
    container runtime.  Here the interfaces are filled in with each other, as the gateway does, to say
    what the runtime of a node is ever asked to do on behalf of an SSH client. *)

From S2P Require Import Prelude GoStrings GoStrconv Kube Target Authn Options Authz AuthzProps AuditLog Operation SSHProxy PodSession PodSessionProps PodForward CriNode CriTransport CriProps HelperCache Executor.

(** ** From the backend to the node *)

(** The call that a backend operation makes of its transport. *)
Inductive transportCall :=
| TransportExec (r : TransportExecRequest)
| TransportHelper (r : HelperExecRequest)
| TransportForward (r : PodPortForwardRequest).

(** The executor gets a session's request with the session as stdin and stdout. *)
Definition exec_of (r : ExecRequest) : TransportExecRequest :=
  mkExec (Some (er_Target r)) (er_Command r) true true (er_Stderr r) (er_TTY r).
Definition stream_of (t : Target) : StreamRequest := mkStream (Some t) true true true.

Section Backend.
Context `{UnicodeCase}.

(** A transport on which every forward opens, to see which one is asked for. *)
Definition open_transport : PodTransport := {|
  tp_Exec := fun _ => (0%Z, None); tp_ExecHelper := fun _ => (0%Z, None); tp_PortForward := fun r => Ok r;
|}.

Definition backend_transport (c : backendCall) : option transportCall :=
  match c with
  | BackendExec r => Some (TransportExec (exec_of r))
  | BackendSCP t args => Some (TransportHelper (execHelper HelperCapabilitySCP (HelperCapabilitySCP :: args) (stream_of t)))
  | BackendSFTP t => Some (TransportHelper (execHelper HelperCapabilitySFTP [HelperCapabilitySFTP] (stream_of t)))
  | BackendPortForward t host port =>
      match @executor_PortForward _ open_transport (mkPortForward (Some t) host port) with
      | Ok (Executor.PodForward r) => Some (TransportForward r)
      | Ok (HelperDial r) => Some (TransportHelper r)
      | Err _ => None
      end
  | BackendRemoteForward t _ port =>
      if bool_decide (65535 < port)%Z then None
      else Some (TransportHelper (session_request (Some t) HelperCapabilityRemoteForward))
  | BackendAgentForward t => Some (TransportHelper (session_request (Some t) HelperCapabilityAgentForward))
  end.

(** Two transports that treat a call alike. *)
Definition agree_on (T T' : PodTransport) (call : transportCall) : Prop :=
  match call with
  | TransportExec r => @tp_Exec T r = @tp_Exec T' r
  | TransportHelper r => @tp_ExecHelper T r = @tp_ExecHelper T' r
  | TransportForward r => @tp_PortForward T r = @tp_PortForward T' r
  end.

(** The operations of the executor depend on their transport through that call only. *)
Lemma backend_transport_only (T T' : PodTransport) c call :
  backend_transport c = Some call → agree_on T T' call →
  match c with
  | BackendExec r => @executor_Exec T (exec_of r) = @executor_Exec T' (exec_of r)
  | BackendSCP t args => @executor_SCP T (stream_of t) args = @executor_SCP T' (stream_of t) args
  | BackendSFTP t => @executor_SFTP T (stream_of t) = @executor_SFTP T' (stream_of t)
  | BackendPortForward t host port =>
      @executor_PortForward _ T (mkPortForward (Some t) host port) =
      @executor_PortForward _ T' (mkPortForward (Some t) host port)
  | BackendRemoteForward _ _ _ | BackendAgentForward _ => True
  end.
Proof.
  destruct c as [r|t args|t|t host port| |]; simpl; try done; [by intros [= <-]|..].
  - intros [= <-] Ha. unfold executor_SCP, execHelperCommand. by rewrite Ha.
  - intros [= <-] Ha. unfold executor_SFTP, execHelperCommand. by rewrite Ha.
  - unfold executor_PortForward. simpl. destruct (_ || _); [done|]. destruct (isPodLoopbackHost host); [|done].
    intros [= <-] Ha. simpl in Ha. by rewrite Ha.
Qed.

(** The request that the CRI transport sends for a call. *)
Definition cri_sent (pods_Get : string → string → result Pod) (options : CriOptions) (call : transportCall)
    : result criRequest :=
  match call with
  | TransportExec r => location ← locate pods_Get (xr_Target r); Ok (exec_request options location r)
  | TransportHelper r => location ← locate pods_Get (hr_Target r); Ok (helper_request options location r)
  | TransportForward r => location ← locate pods_Get (pp_Target r); Ok (portforward_request options location r)
  end.

(** It sends that request and nothing else. *)
Lemma cri_sends pods_Get options send r :
  cri_Exec pods_Get options send r =
    match cri_sent pods_Get options (TransportExec r) with
    | Ok q => stream_result "node exec stream: %w" (send q)
    | Err e => (1%Z, Some e)
    end.
Proof. unfold cri_Exec. simpl. by destruct (locate pods_Get (xr_Target r)). Qed.
Lemma cri_sends_helper pods_Get options send r :
  cri_ExecHelper pods_Get options send r =
    match cri_sent pods_Get options (TransportHelper r) with
    | Ok q => stream_result "node helper stream: %w" (send q)
    | Err e => (1%Z, Some e)
    end.
Proof. unfold cri_ExecHelper. simpl. by destruct (locate pods_Get (hr_Target r)). Qed.
End Backend.

(** ** From an SSH request to the backend *)


Section Calls.
Context `{UnicodeCase} `{PodWire} (tgt : Target) (shell : string) (envAllowed : string → bool).
Context (shlex : string → list string) (begin : Operation → option error) (error_string : error → string).








End Calls.

(** ** What the runtime is asked for *)

Section Runs.
Context `{UnicodeCase} `{PodWire} `{RuntimeLaws} (pods_Get : string → string → result Pod) (options : CriOptions).
Context (url_Parse : string → result goURL) (expected : string) (prepare : string → string → result string).
Context (tgt : Target) (shell : string) (shlex : string → list string).






End Runs.

(** ** The gateway's callback *)

Section Gateway.
Context `{UnicodeCase} `{PodWire} `{RuntimeLaws} (pods_Get : string → string → result Pod) (options : CriOptions).
Context (url_Parse : string → result goURL) (expected : string) (prepare : string → string → result string).
Context (envAllowed : string → bool) (shell : string) (shlex : string → list string) (error_string : error → string).
Context (authz : Authorizer) (ctx : connectionState) (auth : authenticatedConnection).
Context (newID : Operation → string * string) (clock : Operation → Z).

(** The operation callback of a Pod connection: [beginConnectionOperation] of the operation layer. *)
Definition gateway_begin (o : Operation) : option error :=
  (beginConnectionOperation error_string authz shlex ctx auth (newID o).1 (newID o).2 (clock o) o).2.





End Gateway.

(** ** A client runs a command in a Pod of the node of [CriProps] *)

Definition path_authz : Authorizer :=
  match buildAuthorizer NewDefaultOptions (Err (EExternal "unused")) DenyAll None with Ok a => a | Err _ => DenyAll end.
Definition path_auth : authenticatedConnection := mkAuthenticated anonymousInfo demo_bound "".
Definition path_begin : Operation → option error :=
  gateway_begin (fun _ => []) (fun _ => "e") path_authz demo_connection path_auth (fun _ => ("op-1", "ev-1")) (fun _ => 5%Z).

