(* ===== verification/AccessHeap.v ===== *)
(** The Access resource on the heap, as the informer caches, the stores and their callers share it, with
    its deep copies: [src/apis/ssh/v1/access_types.go] and [zz_generated.deepcopy.go].

    A record [...Ref] is a Go struct: plain fields, and references for its pointers, slices and maps.  It
    denotes a value of [Kube].  Of [metav1.ObjectMeta] and [metav1.Condition] the plain fields are kept
    that the program uses. *)

From S2P Require Import Prelude Kube GoHeap.

(** ** Structs *)

Record endpointRef := mkEndpointRef {
  hep_Name : string;
  hep_Address : string;
  hep_Port : Z;
  hep_Username : string;
  hep_Weight : ref Z;
  hep_PrivateKeys : ref (list string);
  hep_PrivateKeysFrom : ref (list LocalSecretKeyRef);
  hep_Passwords : ref (list string);
  hep_PasswordsFrom : ref (list LocalSecretKeyRef);
  hep_PublicKeys : ref (list string);
  hep_PublicKeysFrom : ref (list LocalSecretKeyRef);
  hep_InsecureSkipVerification : bool;
}.

Record weightRef := mkWeightRef { hw_Selector : ref (gmap string string); hw_Weight : Z }.
Record affinityRef := mkAffinityRef { haf_Type : string; haf_TimeoutSeconds : ref Z }.
Record strategyRef := mkStrategyRef {
  hst_Type : string;
  hst_Weights : ref (list weightRef);
  hst_SessionAffinity : ref affinityRef;
}.

Record sessionRef := mkSessionRef {
  hse_DefaultShell : string;
  hse_EnvAllowlist : ref (list string);
  hse_IdleTimeout : ref Z;
  hse_MaxDuration : ref Z;
}.

Record localForwardRef := mkLocalForwardRef { hlf_AllowDestinations : ref (list string) }.
Record remoteForwardRef := mkRemoteForwardRef { hrf_AllowBinds : ref (list string) }.
Record capabilityRef := mkCapabilityRef {
  hcp_Allow : ref (list string);
  hcp_LocalForward : ref localForwardRef;
  hcp_RemoteForward : ref remoteForwardRef;
}.

Record credentialRef := mkCredentialRef {
  hcr_Username : string;
  hcr_UID : string;
  hcr_Groups : ref (list string);
  hcr_Extra : ref (gmap string (ref (list string)));
  hcr_Passwords : ref (list string);
  hcr_PasswordsFrom : ref (list LocalSecretKeyRef);
  hcr_PublicKeys : ref (list string);
  hcr_PublicKeysFrom : ref (list LocalSecretKeyRef);
  hcr_Containers : ref (list string);
  hcr_Capabilities : capabilityRef;
}.

Record specRef := mkSpecRef {
  hsp_GatewayClassName : ref string;
  hsp_Type : string;
  hsp_Selector : ref (gmap string string);
  hsp_Endpoints : ref (list endpointRef);
  hsp_Strategy : ref strategyRef;
  hsp_Session : ref sessionRef;
  hsp_Containers : ref (list string);
  hsp_Credentials : ref (list credentialRef);
}.

Record statusRef := mkStatusRef {
  hss_ObservedGeneration : Z;
  hss_Endpoints : ref (list AccessStatusEndpoint);
  hss_Conditions : ref (list Condition);
}.

Record accessRef := mkAccessRef {
  hac_Namespace : string;
  hac_Name : string;
  hac_UID : string;
  hac_Generation : Z;
  hac_CreationTimestamp : Z;
  hac_Spec : specRef;
  hac_Status : statusRef;
}.

Record accessListRef := mkAccessListRef { hal_Items : ref (list accessRef) }.

(** ** Cells *)

Inductive accessCell :=
| CInt (v : Z)
| CString (v : string)
| CStrings (v : list string)
| CMap (v : gmap string string)
| CExtra (v : gmap string (ref (list string)))
| CRefs (v : list LocalSecretKeyRef)
| CEndpoints (v : list endpointRef)
| CWeights (v : list weightRef)
| CAffinity (v : affinityRef)
| CStrategy (v : strategyRef)
| CSession (v : sessionRef)
| CLocalForward (v : localForwardRef)
| CRemoteForward (v : remoteForwardRef)
| CCredentials (v : list credentialRef)
| CStatusEndpoints (v : list AccessStatusEndpoint)
| CConditions (v : list Condition)
| CAccess (v : accessRef)
| CAccesses (v : list accessRef).

#[export] Instance cell_int : CellOf accessCell Z. Proof. cell_of CInt (fun c => match c with CInt v => Some v | _ => None end). Defined.
#[export] Instance cell_string : CellOf accessCell string. Proof. cell_of CString (fun c => match c with CString v => Some v | _ => None end). Defined.
#[export] Instance cell_strings : CellOf accessCell (list string). Proof. cell_of CStrings (fun c => match c with CStrings v => Some v | _ => None end). Defined.
#[export] Instance cell_map : CellOf accessCell (gmap string string). Proof. cell_of CMap (fun c => match c with CMap v => Some v | _ => None end). Defined.
#[export] Instance cell_extra : CellOf accessCell (gmap string (ref (list string))). Proof. cell_of CExtra (fun c => match c with CExtra v => Some v | _ => None end). Defined.
#[export] Instance cell_refs : CellOf accessCell (list LocalSecretKeyRef). Proof. cell_of CRefs (fun c => match c with CRefs v => Some v | _ => None end). Defined.
#[export] Instance cell_endpoints : CellOf accessCell (list endpointRef). Proof. cell_of CEndpoints (fun c => match c with CEndpoints v => Some v | _ => None end). Defined.
#[export] Instance cell_weights : CellOf accessCell (list weightRef). Proof. cell_of CWeights (fun c => match c with CWeights v => Some v | _ => None end). Defined.
#[export] Instance cell_affinity : CellOf accessCell affinityRef. Proof. cell_of CAffinity (fun c => match c with CAffinity v => Some v | _ => None end). Defined.
#[export] Instance cell_strategy : CellOf accessCell strategyRef. Proof. cell_of CStrategy (fun c => match c with CStrategy v => Some v | _ => None end). Defined.
#[export] Instance cell_session : CellOf accessCell sessionRef. Proof. cell_of CSession (fun c => match c with CSession v => Some v | _ => None end). Defined.
#[export] Instance cell_local : CellOf accessCell localForwardRef. Proof. cell_of CLocalForward (fun c => match c with CLocalForward v => Some v | _ => None end). Defined.
#[export] Instance cell_remote : CellOf accessCell remoteForwardRef. Proof. cell_of CRemoteForward (fun c => match c with CRemoteForward v => Some v | _ => None end). Defined.
#[export] Instance cell_credentials : CellOf accessCell (list credentialRef). Proof. cell_of CCredentials (fun c => match c with CCredentials v => Some v | _ => None end). Defined.
#[export] Instance cell_statusEndpoints : CellOf accessCell (list AccessStatusEndpoint). Proof. cell_of CStatusEndpoints (fun c => match c with CStatusEndpoints v => Some v | _ => None end). Defined.
#[export] Instance cell_conditions : CellOf accessCell (list Condition). Proof. cell_of CConditions (fun c => match c with CConditions v => Some v | _ => None end). Defined.
#[export] Instance cell_access : CellOf accessCell accessRef. Proof. cell_of CAccess (fun c => match c with CAccess v => Some v | _ => None end). Defined.
#[export] Instance cell_accesses : CellOf accessCell (list accessRef). Proof. cell_of CAccesses (fun c => match c with CAccesses v => Some v | _ => None end). Defined.

(** ** What structs denote, and their deep copies *)

(** Plain types: integers, strings, and slices and maps of plain elements ([make] and [copy], or
    [maps.Copy]). *)
#[export] Instance int_type : GoType accessCell Z Z := plain_type.
#[export] Instance string_type : GoType accessCell string string := plain_type.
#[export] Instance strings_type : GoType accessCell (list string) (list string) := plain_type.
#[export] Instance smap_type : GoType accessCell (gmap string string) (gmap string string) := plain_type.
#[export] Instance refs_type : GoType accessCell (list LocalSecretKeyRef) (list LocalSecretKeyRef) := plain_type.
#[export] Instance statusEndpoints_type : GoType accessCell (list AccessStatusEndpoint) (list AccessStatusEndpoint) := plain_type.
#[export] Instance conditions_type : GoType accessCell (list Condition) (list Condition) := plain_type.
#[export] Instance int_laws : GoTypeLaws accessCell Z Z := plain_laws.
#[export] Instance string_laws : GoTypeLaws accessCell string string := plain_laws.
#[export] Instance strings_laws : GoTypeLaws accessCell (list string) (list string) := plain_laws.
#[export] Instance smap_laws : GoTypeLaws accessCell (gmap string string) (gmap string string) := plain_laws.
#[export] Instance refs_laws : GoTypeLaws accessCell (list LocalSecretKeyRef) (list LocalSecretKeyRef) := plain_laws.
#[export] Instance statusEndpoints_laws : GoTypeLaws accessCell (list AccessStatusEndpoint) (list AccessStatusEndpoint) := plain_laws.
#[export] Instance conditions_laws : GoTypeLaws accessCell (list Condition) (list Condition) := plain_laws.
(** [map[string][]string]. *)
#[export] Instance extra_type : GoType accessCell (gmap string (ref (list string))) (gmap string (option (list string))) := map_type.
#[export] Instance extra_laws : GoTypeLaws accessCell (gmap string (ref (list string))) (gmap string (option (list string))) := map_laws.

(** *** [AccessEndpoint] *)

Definition endpoint_value (h : heap accessCell) (r : endpointRef) : option AccessEndpoint :=
  weight ← denote h (hep_Weight r);
  privateKeys ← denote h (hep_PrivateKeys r);
  privateKeysFrom ← denote h (hep_PrivateKeysFrom r);
  passwords ← denote h (hep_Passwords r);
  passwordsFrom ← denote h (hep_PasswordsFrom r);
  publicKeys ← denote h (hep_PublicKeys r);
  publicKeysFrom ← denote h (hep_PublicKeysFrom r);
  Some (mkEndpoint (hep_Name r) (hep_Address r) (hep_Port r) (hep_Username r) weight (default [] privateKeys)
    (default [] privateKeysFrom) (default [] passwords) (default [] passwordsFrom) (default [] publicKeys)
    (default [] publicKeysFrom) (hep_InsecureSkipVerification r)).
Definition AccessEndpoint_DeepCopyInto (r : endpointRef) : heapM accessCell endpointRef :=
  weight ← deepcopy (hep_Weight r);
  privateKeys ← deepcopy (hep_PrivateKeys r);
  privateKeysFrom ← deepcopy (hep_PrivateKeysFrom r);
  passwords ← deepcopy (hep_Passwords r);
  passwordsFrom ← deepcopy (hep_PasswordsFrom r);
  publicKeys ← deepcopy (hep_PublicKeys r);
  publicKeysFrom ← deepcopy (hep_PublicKeysFrom r);
  mret (mkEndpointRef (hep_Name r) (hep_Address r) (hep_Port r) (hep_Username r) weight privateKeys privateKeysFrom
    passwords passwordsFrom publicKeys publicKeysFrom (hep_InsecureSkipVerification r)).
#[export] Instance endpoint_type : GoType accessCell endpointRef AccessEndpoint :=
  {| denote := endpoint_value; deepcopy := AccessEndpoint_DeepCopyInto |}.
#[export] Instance endpoint_laws : GoTypeLaws accessCell endpointRef AccessEndpoint.
Proof. struct_laws endpoint_type endpoint_value AccessEndpoint_DeepCopyInto. Qed.
#[export] Instance endpoints_type : GoType accessCell (list endpointRef) (list AccessEndpoint) := slice_type.
#[export] Instance endpoints_laws : GoTypeLaws accessCell (list endpointRef) (list AccessEndpoint) := slice_laws.

(** *** [AccessStrategyWeight], [AccessSessionAffinity] and [AccessStrategy] *)

Definition weight_value (h : heap accessCell) (r : weightRef) : option AccessStrategyWeight :=
  selector ← denote h (hw_Selector r); Some (mkWeight (default ∅ selector) (hw_Weight r)).
Definition AccessStrategyWeight_DeepCopyInto (r : weightRef) : heapM accessCell weightRef :=
  selector ← deepcopy (hw_Selector r); mret (mkWeightRef selector (hw_Weight r)).
#[export] Instance weight_type : GoType accessCell weightRef AccessStrategyWeight :=
  {| denote := weight_value; deepcopy := AccessStrategyWeight_DeepCopyInto |}.
#[export] Instance weight_laws : GoTypeLaws accessCell weightRef AccessStrategyWeight.
Proof. struct_laws weight_type weight_value AccessStrategyWeight_DeepCopyInto. Qed.
#[export] Instance weights_type : GoType accessCell (list weightRef) (list AccessStrategyWeight) := slice_type.
#[export] Instance weights_laws : GoTypeLaws accessCell (list weightRef) (list AccessStrategyWeight) := slice_laws.

Definition affinity_value (h : heap accessCell) (r : affinityRef) : option AccessSessionAffinity :=
  timeout ← denote h (haf_TimeoutSeconds r); Some (mkAffinity (haf_Type r) timeout).
Definition AccessSessionAffinity_DeepCopyInto (r : affinityRef) : heapM accessCell affinityRef :=
  timeout ← deepcopy (haf_TimeoutSeconds r); mret (mkAffinityRef (haf_Type r) timeout).
#[export] Instance affinity_type : GoType accessCell affinityRef AccessSessionAffinity :=
  {| denote := affinity_value; deepcopy := AccessSessionAffinity_DeepCopyInto |}.
#[export] Instance affinity_laws : GoTypeLaws accessCell affinityRef AccessSessionAffinity.
Proof. struct_laws affinity_type affinity_value AccessSessionAffinity_DeepCopyInto. Qed.

Definition strategy_value (h : heap accessCell) (r : strategyRef) : option AccessStrategy :=
  weights ← denote h (hst_Weights r);
  affinity ← denote h (hst_SessionAffinity r);
  Some (mkStrategy (hst_Type r) (default [] weights) affinity).
Definition AccessStrategy_DeepCopyInto (r : strategyRef) : heapM accessCell strategyRef :=
  weights ← deepcopy (hst_Weights r);
  affinity ← deepcopy (hst_SessionAffinity r);
  mret (mkStrategyRef (hst_Type r) weights affinity).
#[export] Instance strategy_type : GoType accessCell strategyRef AccessStrategy :=
  {| denote := strategy_value; deepcopy := AccessStrategy_DeepCopyInto |}.
#[export] Instance strategy_laws : GoTypeLaws accessCell strategyRef AccessStrategy.
Proof. struct_laws strategy_type strategy_value AccessStrategy_DeepCopyInto. Qed.

(** *** [SessionPolicy] *)

Definition session_value (h : heap accessCell) (r : sessionRef) : option SessionPolicy :=
  envAllowlist ← denote h (hse_EnvAllowlist r);
  idleTimeout ← denote h (hse_IdleTimeout r);
  maxDuration ← denote h (hse_MaxDuration r);
  Some (mkSession (hse_DefaultShell r) envAllowlist idleTimeout maxDuration).
Definition SessionPolicy_DeepCopyInto (r : sessionRef) : heapM accessCell sessionRef :=
  envAllowlist ← deepcopy (hse_EnvAllowlist r);
  idleTimeout ← deepcopy (hse_IdleTimeout r);
  maxDuration ← deepcopy (hse_MaxDuration r);
  mret (mkSessionRef (hse_DefaultShell r) envAllowlist idleTimeout maxDuration).
#[export] Instance session_type : GoType accessCell sessionRef SessionPolicy :=
  {| denote := session_value; deepcopy := SessionPolicy_DeepCopyInto |}.
#[export] Instance session_laws : GoTypeLaws accessCell sessionRef SessionPolicy.
Proof. struct_laws session_type session_value SessionPolicy_DeepCopyInto. Qed.

(** *** [CapabilityPolicy] *)

Definition localForward_value (h : heap accessCell) (r : localForwardRef) : option (list string) :=
  destinations ← denote h (hlf_AllowDestinations r); Some (default [] destinations).
Definition LocalForwardPolicy_DeepCopyInto (r : localForwardRef) : heapM accessCell localForwardRef :=
  destinations ← deepcopy (hlf_AllowDestinations r); mret (mkLocalForwardRef destinations).
#[export] Instance localForward_type : GoType accessCell localForwardRef (list string) :=
  {| denote := localForward_value; deepcopy := LocalForwardPolicy_DeepCopyInto |}.
#[export] Instance localForward_laws : GoTypeLaws accessCell localForwardRef (list string).
Proof. struct_laws localForward_type localForward_value LocalForwardPolicy_DeepCopyInto. Qed.

Definition remoteForward_value (h : heap accessCell) (r : remoteForwardRef) : option (list string) :=
  binds ← denote h (hrf_AllowBinds r); Some (default [] binds).
Definition RemoteForwardPolicy_DeepCopyInto (r : remoteForwardRef) : heapM accessCell remoteForwardRef :=
  binds ← deepcopy (hrf_AllowBinds r); mret (mkRemoteForwardRef binds).
#[export] Instance remoteForward_type : GoType accessCell remoteForwardRef (list string) :=
  {| denote := remoteForward_value; deepcopy := RemoteForwardPolicy_DeepCopyInto |}.
#[export] Instance remoteForward_laws : GoTypeLaws accessCell remoteForwardRef (list string).
Proof. struct_laws remoteForward_type remoteForward_value RemoteForwardPolicy_DeepCopyInto. Qed.

Definition capability_value (h : heap accessCell) (r : capabilityRef) : option CapabilityPolicy :=
  allow ← denote h (hcp_Allow r);
  localForward ← denote h (hcp_LocalForward r);
  remoteForward ← denote h (hcp_RemoteForward r);
  Some (mkCapabilityPolicy (default [] allow) localForward remoteForward).
Definition CapabilityPolicy_DeepCopyInto (r : capabilityRef) : heapM accessCell capabilityRef :=
  allow ← deepcopy (hcp_Allow r);
  localForward ← deepcopy (hcp_LocalForward r);
  remoteForward ← deepcopy (hcp_RemoteForward r);
  mret (mkCapabilityRef allow localForward remoteForward).
#[export] Instance capability_type : GoType accessCell capabilityRef CapabilityPolicy :=
  {| denote := capability_value; deepcopy := CapabilityPolicy_DeepCopyInto |}.
#[export] Instance capability_laws : GoTypeLaws accessCell capabilityRef CapabilityPolicy.
Proof. struct_laws capability_type capability_value CapabilityPolicy_DeepCopyInto. Qed.

(** *** [AccessCredential] *)

Definition credential_value (h : heap accessCell) (r : credentialRef) : option AccessCredential :=
  groups ← denote h (hcr_Groups r);
  extra ← denote h (hcr_Extra r);
  passwords ← denote h (hcr_Passwords r);
  passwordsFrom ← denote h (hcr_PasswordsFrom r);
  publicKeys ← denote h (hcr_PublicKeys r);
  publicKeysFrom ← denote h (hcr_PublicKeysFrom r);
  containers ← denote h (hcr_Containers r);
  capabilities ← denote h (hcr_Capabilities r);
  Some (mkCredential (hcr_Username r) (hcr_UID r) (default [] groups) (default [] <$> default ∅ extra)
    (default [] passwords) (default [] passwordsFrom) (default [] publicKeys) (default [] publicKeysFrom)
    (default [] containers) capabilities).
Definition AccessCredential_DeepCopyInto (r : credentialRef) : heapM accessCell credentialRef :=
  groups ← deepcopy (hcr_Groups r);
  extra ← deepcopy (hcr_Extra r);
  passwords ← deepcopy (hcr_Passwords r);
  passwordsFrom ← deepcopy (hcr_PasswordsFrom r);
  publicKeys ← deepcopy (hcr_PublicKeys r);
  publicKeysFrom ← deepcopy (hcr_PublicKeysFrom r);
  containers ← deepcopy (hcr_Containers r);
  capabilities ← deepcopy (hcr_Capabilities r);
  mret (mkCredentialRef (hcr_Username r) (hcr_UID r) groups extra passwords passwordsFrom publicKeys publicKeysFrom
    containers capabilities).
#[export] Instance credential_type : GoType accessCell credentialRef AccessCredential :=
  {| denote := credential_value; deepcopy := AccessCredential_DeepCopyInto |}.
#[export] Instance credential_laws : GoTypeLaws accessCell credentialRef AccessCredential.
Proof. struct_laws credential_type credential_value AccessCredential_DeepCopyInto. Qed.
#[export] Instance credentials_type : GoType accessCell (list credentialRef) (list AccessCredential) := slice_type.
#[export] Instance credentials_laws : GoTypeLaws accessCell (list credentialRef) (list AccessCredential) := slice_laws.

(** *** [AccessSpec], [AccessStatus], [Access] and [AccessList] *)

Definition spec_value (h : heap accessCell) (r : specRef) : option AccessSpec :=
  gatewayClassName ← denote h (hsp_GatewayClassName r);
  selector ← denote h (hsp_Selector r);
  endpoints ← denote h (hsp_Endpoints r);
  strategy ← denote h (hsp_Strategy r);
  session ← denote h (hsp_Session r);
  containers ← denote h (hsp_Containers r);
  credentials ← denote h (hsp_Credentials r);
  Some (mkSpec gatewayClassName (hsp_Type r) (default ∅ selector) (default [] endpoints) strategy session
    (default [] containers) (default [] credentials)).
Definition AccessSpec_DeepCopyInto (r : specRef) : heapM accessCell specRef :=
  gatewayClassName ← deepcopy (hsp_GatewayClassName r);
  selector ← deepcopy (hsp_Selector r);
  endpoints ← deepcopy (hsp_Endpoints r);
  strategy ← deepcopy (hsp_Strategy r);
  session ← deepcopy (hsp_Session r);
  containers ← deepcopy (hsp_Containers r);
  credentials ← deepcopy (hsp_Credentials r);
  mret (mkSpecRef gatewayClassName (hsp_Type r) selector endpoints strategy session containers credentials).
#[export] Instance spec_type : GoType accessCell specRef AccessSpec :=
  {| denote := spec_value; deepcopy := AccessSpec_DeepCopyInto |}.
#[export] Instance spec_laws : GoTypeLaws accessCell specRef AccessSpec.
Proof. struct_laws spec_type spec_value AccessSpec_DeepCopyInto. Qed.

Definition status_value (h : heap accessCell) (r : statusRef) : option AccessStatus :=
  endpoints ← denote h (hss_Endpoints r);
  conditions ← denote h (hss_Conditions r);
  Some (mkStatus (hss_ObservedGeneration r) (default [] endpoints) (default [] conditions)).
Definition AccessStatus_DeepCopyInto (r : statusRef) : heapM accessCell statusRef :=
  endpoints ← deepcopy (hss_Endpoints r);
  conditions ← deepcopy (hss_Conditions r);
  mret (mkStatusRef (hss_ObservedGeneration r) endpoints conditions).
#[export] Instance status_type : GoType accessCell statusRef AccessStatus :=
  {| denote := status_value; deepcopy := AccessStatus_DeepCopyInto |}.
#[export] Instance status_laws : GoTypeLaws accessCell statusRef AccessStatus.
Proof. struct_laws status_type status_value AccessStatus_DeepCopyInto. Qed.

Definition access_value (h : heap accessCell) (r : accessRef) : option Access :=
  spec ← denote h (hac_Spec r);
  status ← denote h (hac_Status r);
  Some (mkAccess (hac_Namespace r) (hac_Name r) (hac_UID r) (hac_Generation r) (hac_CreationTimestamp r) spec status).
Definition Access_DeepCopyInto (r : accessRef) : heapM accessCell accessRef :=
  spec ← deepcopy (hac_Spec r);
  status ← deepcopy (hac_Status r);
  mret (mkAccessRef (hac_Namespace r) (hac_Name r) (hac_UID r) (hac_Generation r) (hac_CreationTimestamp r) spec status).
#[export] Instance access_type : GoType accessCell accessRef Access :=
  {| denote := access_value; deepcopy := Access_DeepCopyInto |}.
#[export] Instance access_laws : GoTypeLaws accessCell accessRef Access.
Proof. struct_laws access_type access_value Access_DeepCopyInto. Qed.
#[export] Instance accesses_type : GoType accessCell (list accessRef) (list Access) := slice_type.
#[export] Instance accesses_laws : GoTypeLaws accessCell (list accessRef) (list Access) := slice_laws.

Definition accessList_value (h : heap accessCell) (r : accessListRef) : option (list Access) :=
  items ← denote h (hal_Items r); Some (default [] items).
Definition AccessList_DeepCopyInto (r : accessListRef) : heapM accessCell accessListRef :=
  items ← deepcopy (hal_Items r); mret (mkAccessListRef items).
#[export] Instance accessList_type : GoType accessCell accessListRef (list Access) :=
  {| denote := accessList_value; deepcopy := AccessList_DeepCopyInto |}.
#[export] Instance accessList_laws : GoTypeLaws accessCell accessListRef (list Access).
Proof. struct_laws accessList_type accessList_value AccessList_DeepCopyInto. Qed.

(** [DeepCopy]: nil for nil, else [new] and [DeepCopyInto]. *)
Definition Access_DeepCopy (p : ref accessRef) : heapM accessCell (ref accessRef) :=
  match p with
  | None => mret None
  | Some l => r ← load l; out ← Access_DeepCopyInto r; alloc out
  end.
