(* ===== verification/AccessHeapStore.v ===== *)
(** The Access stores on the heap, and that they implement the stores on values of [AccessStore]:
    [MemoryStore] ([src/pkg/accesspolicy/store.go]), [PolicyCache.Get] on the objects of an informer
    ([policy_cache.go]) and the update of [AccessStatusController.sync] ([status_controller.go]).

    The objects are shared by pointer with callers and informers; the deep copies of [AccessHeap] are
    what keeps the sides apart.  The heap is split into the cells that a store owns and all others, which
    anybody else may write to at any time. *)

From S2P Require Import Prelude GoStrings Kube Strategy AccessStore AccessResolver StatusController GoHeap AccessHeap.

(** ** [store.go] *)

(** [MemoryStore.entries]; its pointers are never nil. *)
Definition heapStore : Type := gmap string positive.

Definition heap_Set (s : heapStore) (p : ref accessRef) : heapM accessCell heapStore :=
  match p with
  | None => mret s
  | Some l =>
      access ← load l;
      copied ← Access_DeepCopy (Some l);
      match copied with
      | Some l' => mret (<[accessKey (hac_Namespace access) (hac_Name access) := l']> s)
      | None => mret s
      end
  end.

Definition heap_Get (s : heapStore) (namespace name : string) : heapM accessCell (result (ref accessRef)) :=
  match s !! accessKey namespace name with
  | None => mret (Err (ErrAccessNotFound_at namespace name))
  | Some l => copied ← Access_DeepCopy (Some l); mret (Ok copied)
  end.

(** [accessLess] through pointers. *)
Definition heap_accessLess (a b : accessRef) : bool :=
  if bool_decide (hac_CreationTimestamp a ≠ hac_CreationTimestamp b)
  then bool_decide (hac_CreationTimestamp a < hac_CreationTimestamp b)%Z
  else if bool_decide (hac_Namespace a ≠ hac_Namespace b)
  then string_lt (hac_Namespace a) (hac_Namespace b)
  else string_lt (hac_Name a) (hac_Name b).
Definition heap_accessLe (a b : accessRef * positive) : Prop := heap_accessLess b.1 a.1 = false.
#[export] Instance heap_accessLe_dec : RelDecision heap_accessLe.
Proof. intros p q. unfold heap_accessLe. apply _. Defined.

(** A copy with the struct it points to, for the comparisons of the sort. *)
Definition copy_entry (l : positive) : heapM accessCell (accessRef * positive) :=
  copied ← Access_DeepCopy (Some l);
  match copied with
  | Some l => access ← load l; mret (access, l)
  | None => fun _ => None
  end.
Definition heap_sortAccesses (accesses : list (accessRef * positive)) : list positive :=
  (merge_sort heap_accessLe accesses).*2.
Definition heap_List (s : heapStore) : heapM accessCell (list positive) :=
  out ← mapM copy_entry ((map_to_list s).*2);
  mret (heap_sortAccesses out).

(** ** [policy_cache.go] *)

(** [PolicyCache]: the informer's objects by pointer.  A nil indexer is [None]. *)
Record heapCache := mkHeapCache {
  hc_accessIndexer : option (Indexer positive);
  hc_namespace : string;
  hc_gatewayClassName : string;
}.

Definition heap_gatewayClassName (access : accessRef) : heapM accessCell string :=
  match hsp_GatewayClassName (hac_Spec access) with None => mret "" | Some l => load l end.
Definition heap_acceptAccess (c : heapCache) (access : accessRef) : heapM accessCell bool :=
  if bool_decide (hc_namespace c ≠ "") && bool_decide (hac_Namespace access ≠ hc_namespace c) then mret false
  else class ← heap_gatewayClassName access; mret (bool_decide (class = hc_gatewayClassName c)).

Definition cache_Get (c : heapCache) (namespace name : string) : heapM accessCell (result (ref accessRef)) :=
  match hc_accessIndexer c with
  | None => mret (Err (Errorf "access policy cache requires an access indexer" []))
  | Some indexer =>
      if bool_decide (hc_namespace c ≠ "") && bool_decide (namespace ≠ hc_namespace c)
      then mret (Err (ErrAccessNotFound_at namespace name))
      else
        match GetByKey indexer (accessKey namespace name) with
        | Err e => mret (Err e)
        | Ok None => mret (Err (ErrAccessNotFound_at namespace name))
        | Ok (Some (COther t)) =>
            mret (Err (Errorf "access cache object %s/%s has unexpected type %T" [namespace; name; t]))
        | Ok (Some (CObj l)) =>
            access ← load l;
            accepted ← heap_acceptAccess c access;
            if negb accepted then mret (Err (ErrAccessNotFound_at namespace name))
            else copied ← Access_DeepCopy (Some l); mret (Ok copied)
        end
  end.

(** The loop of [List]. *)
Fixpoint copy_accepted (c : heapCache) (objects : list (cached positive)) : heapM accessCell (result (list (accessRef * positive))) :=
  match objects with
  | [] => mret (Ok [])
  | COther t :: _ => mret (Err (Errorf "access cache object has unexpected type %T" [t]))
  | CObj l :: objects =>
      access ← load l;
      accepted ← heap_acceptAccess c access;
      if negb accepted then copy_accepted c objects
      else
        copied ← copy_entry l;
        rest ← copy_accepted c objects;
        mret (match rest with Ok accesses => Ok (copied :: accesses) | Err e => Err e end)
  end.
Definition cache_List (c : heapCache) : heapM accessCell (result (list positive)) :=
  match hc_accessIndexer c with
  | None => mret (Err (Errorf "access policy cache requires an access indexer" []))
  | Some indexer =>
      accesses ← copy_accepted c (Indexer_List indexer);
      mret (match accesses with Ok accesses => Ok (heap_sortAccesses accesses) | Err e => Err e end)
  end.

(** ** [status_controller.go] *)

(** [updated := access.DeepCopy(); updated.Status = status]. *)
Definition with_statusRef (r : accessRef) (status : statusRef) : accessRef :=
  mkAccessRef (hac_Namespace r) (hac_Name r) (hac_UID r) (hac_Generation r) (hac_CreationTimestamp r) (hac_Spec r) status.
Definition heap_updated (p : ref accessRef) (status : statusRef) : heapM accessCell (ref accessRef) :=
  updated ← Access_DeepCopy p;
  match updated with
  | Some l => r ← load l; _ ← store l (with_statusRef r status); mret (Some l)
  | None => fun _ => None
  end.
