(* ===== verification/AccessHeapProps.v ===== *)
(** The stores on the heap implement those on values, whatever their callers do to the objects they
    hold; and what is taken out of an informer's cache can be changed without changing the cache. *)

From S2P Require Import Prelude GoStrings Kube Strategy AccessStore AccessResolver StatusController GoHeap AccessHeap AccessHeapStore.

(** ** Pointers to Access objects *)

(** The object at [l] denotes [v] on the cells of [h] alone. *)
Definition pointee (h : heap accessCell) (l : positive) (v : Access) : Prop :=
  denote h (Some l : ref accessRef) = Some (Some v).

Lemma pointee_mono h h' l v : h ⊆ h' → pointee h l v → pointee h' l v.
Proof. apply denote_mono. Qed.

Lemma pointee_struct h l v : pointee h l v ↔ ∃ r, h !! l = Some (CAccess r) ∧ access_value h r = Some v.
Proof.
  unfold pointee. simpl. split.
  - intros (r & (c & Hl & Hc)%bind_Some & (a & Ha & [= ->])%bind_Some)%bind_Some.
    destruct c; simplify_eq/=. by eauto.
  - intros (r & -> & Hr). simpl. by rewrite Hr.
Qed.

Lemma pointee_load h h' l v : h ⊆ h' → pointee h l v → ∃ r, load l h' = Some (h', r) ∧ access_value h r = Some v.
Proof.
  intros Hsub (r & Hl & Hr)%pointee_struct. exists r. split; [|done]. unfold load.
  by rewrite (lookup_weaken _ _ _ _ Hl Hsub).
Qed.

Lemma access_value_plain h r v :
  access_value h r = Some v →
  acc_Namespace v = hac_Namespace r ∧ acc_Name v = hac_Name r ∧ acc_CreationTimestamp v = hac_CreationTimestamp r ∧
  denote h (hac_Spec r) = Some (acc_Spec v).
Proof. intros (spec & Hs & (status & _ & [= <-])%bind_Some)%bind_Some. done. Qed.

(** [DeepCopy] of an object of [h] is an object of new cells. *)
Lemma DeepCopy_pointee h own l v :
  own ##ₘ h → pointee h l v →
  ∃ own' l', Access_DeepCopy (Some l) (h ∪ own) = Some (h ∪ own', Some l') ∧ own ⊆ own' ∧ own' ##ₘ h ∧ pointee own' l' v.
Proof.
  intros Hd Hv. destruct (deepcopy_own h own (Some l : ref accessRef) _ Hd Hv) as (own' & [l'|] & Hc & Hs & Hd' & Hv'); [|done].
  exists own', l'. by split_and!.
Qed.

(** ** Sorting copies *)

(** Sorting two lists that agree element by element, by orders that agree. *)
Section MergeSort.
Context {A B : Type} (R : relation A) (S : relation B) `{∀ x y, Decision (R x y)} `{∀ x y, Decision (S x y)}.
Context (P : A → B → Prop) (agree : ∀ x y a b, P x a → P y b → R x y ↔ S a b).

Lemma list_merge_Forall2 l1 k1 l2 k2 :
  Forall2 P l1 k1 → Forall2 P l2 k2 → Forall2 P (list_merge R l1 l2) (list_merge S k1 k2).
Proof.
  intros H1. revert l2 k2. induction H1 as [|x a l1 k1 Hx H1 IH1]; intros l2 k2 H2; [by destruct H2; simpl; [|constructor]|].
  induction H2 as [|y b l2 k2 Hy H2 IH2]; [by constructor|]. simpl.
  destruct (decide (R x y)) as [Hr|Hr], (decide (S a b)) as [Hs|Hs]; try (by destruct (agree x y a b Hx Hy); tauto).
  - constructor; [done|]. apply IH1. by constructor.
  - by constructor.
Qed.

Let stacks := Forall2 (fun (x : option (list A)) (y : option (list B)) =>
  match x, y with Some l, Some k => Forall2 P l k | None, None => True | _, _ => False end).

Lemma merge_list_to_stack_Forall2 st st' l k :
  stacks st st' → Forall2 P l k → stacks (merge_list_to_stack R st l) (merge_list_to_stack S st' k).
Proof.
  intros Hst. revert l k. induction Hst as [|o o' st st' Hx Hst IH]; intros l k Hl; [by repeat constructor|].
  destruct o as [l0|], o' as [k0|]; try done; simpl; constructor; try done. by apply IH, list_merge_Forall2.
Qed.

Lemma merge_sort_Forall2 l k : Forall2 P l k → Forall2 P (merge_sort R l) (merge_sort S k).
Proof.
  unfold merge_sort. intros Hl. assert (stacks [] []) as Hst by constructor. revert Hst.
  generalize (@nil (option (list A))), (@nil (option (list B))).
  induction Hl as [|x a l k Hx Hl IH]; intros st st' Hst; simpl.
  - induction Hst as [|o o' st st' Hx Hst IH]; [constructor|].
    destruct o as [l0|], o' as [k0|]; simpl; try done. by apply list_merge_Forall2.
  - apply IH. apply merge_list_to_stack_Forall2; [done|]. by repeat constructor.
Qed.
End MergeSort.

Definition entry_ok (h : heap accessCell) (x : accessRef * positive) (v : Access) : Prop :=
  pointee h x.2 v ∧ access_value h x.1 = Some v.

Lemma entry_ok_mono h h' x v : h ⊆ h' → entry_ok h x v → entry_ok h' x v.
Proof. intros Hsub [? Hv]. split; [by eapply pointee_mono|]. exact (denote_mono (GoTypeLaws := access_laws) h h' x.1 v Hsub Hv). Qed.

Lemma entries_order h x y a b : entry_ok h x a → entry_ok h y b → heap_accessLe x y ↔ accessLe a b.
Proof.
  intros [_ Hx] [_ Hy].
  destruct (access_value_plain _ _ _ Hx) as (H1 & H2 & H3 & _). destruct (access_value_plain _ _ _ Hy) as (H4 & H5 & H6 & _).
  unfold heap_accessLe, accessLe, heap_accessLess, accessLess. by rewrite H1, H2, H3, H4, H5, H6.
Qed.

Lemma entries_sorted h out vs :
  Forall2 (entry_ok h) out vs → Forall2 (pointee h) (heap_sortAccesses out) (sortAccesses vs).
Proof.
  intros Hout. unfold heap_sortAccesses, sortAccesses.
  apply Forall2_fmap_l. apply (Forall2_impl (entry_ok h)); [|by intros ? ? [??]].
  apply merge_sort_Forall2; [|done]. intros x y a b. apply entries_order.
Qed.

Lemma copy_entry_ok h own l v :
  own ##ₘ h → pointee h l v →
  ∃ own' e, copy_entry l (h ∪ own) = Some (h ∪ own', e) ∧ own ⊆ own' ∧ own' ##ₘ h ∧ entry_ok own' e v.
Proof.
  intros Hd Hv. destruct (DeepCopy_pointee h own l v Hd Hv) as (own1 & l1 & Hc & Hs1 & Hd1 & Hp1).
  assert (own1 ⊆ h ∪ own1) as Hsub by (by apply map_union_subseteq_r).
  destruct (pointee_load own1 (h ∪ own1) l1 v Hsub Hp1) as (r1 & Hl1 & Hr1).
  exists own1, (r1, l1). split_and!; [|done..|by split].
  unfold copy_entry. rewrite (heapM_bind_Some _ _ _ _ _ Hc). by rewrite (heapM_bind_Some _ _ _ _ _ Hl1).
Qed.

Lemma copy_entries h (es : list (positive * Access)) own :
  own ##ₘ h → (∀ e, e ∈ es → pointee h e.1 e.2) →
  ∃ own' out, mapM copy_entry es.*1 (h ∪ own) = Some (h ∪ own', out) ∧ own ⊆ own' ∧ own' ##ₘ h ∧
    Forall2 (entry_ok own') out es.*2.
Proof.
  revert own. induction es as [|[l v] es IH]; intros own Hd Hes; [by exists own, []|]. simpl.
  destruct (copy_entry_ok h own l v Hd) as (own1 & e & Hc & Hs1 & Hd1 & He).
  { by apply (Hes (l, v)); left. }
  rewrite (heapM_bind_Some _ _ _ _ _ Hc).
  destruct (IH own1 Hd1) as (own2 & out & Hm & Hs2 & Hd2 & Hout); [intros e' He'; by apply Hes; right|].
  rewrite (heapM_bind_Some _ _ _ _ _ Hm). exists own2, (e :: out). split_and!; [done|by etrans|done|].
  constructor; [|done]. by apply (entry_ok_mono own1).
Qed.

(** ** The in-memory store *)

(** The store's pointers lead to objects on its own cells, which denote the entries of [vs]. *)
Definition represents (own : heap accessCell) (s : heapStore) (vs : MemoryStore) : Prop :=
  ∃ m : gmap string (positive * Access),
    s = fst <$> m ∧ vs = snd <$> m ∧ map_Forall (fun _ x => pointee own x.1 x.2) m.

Lemma represents_mono own own' s vs : own ⊆ own' → represents own s vs → represents own' s vs.
Proof.
  intros Hsub (m & -> & -> & Hm). exists m. split_and!; [done..|]. intros k x Hx. by eapply pointee_mono, Hm.
Qed.

(** A result of the heap is one of values: the same error, or a pointer to an object on [h]. *)
Definition answers_one (h : heap accessCell) (r : result (ref accessRef)) (v : result Access) : Prop :=
  match r, v with
  | Ok (Some l), Ok a => pointee h l a
  | Err e, Err e' => e = e'
  | _, _ => False
  end.

Lemma heap_Set_refines own client s vs p v :
  own ##ₘ client → represents own s vs → denote client p = Some v →
  ∃ own' s', heap_Set s p (client ∪ own) = Some (client ∪ own', s') ∧ own' ##ₘ client ∧
    represents own' s' (match v with Some a => MemoryStore_Set vs a | None => vs end).
Proof.
  intros Hd Hr Hp. destruct p as [l|], v as [v|]; try (by simpl in Hp; repeat case_match; simplify_option_eq).
  2: by exists own, s.
  destruct (pointee_load client (client ∪ own) l v) as (r & Hl & Hv); [apply map_union_subseteq_l|done|].
  destruct (DeepCopy_pointee client own l v Hd Hp) as (own' & l' & Hc & Hsub & Hd' & Hp').
  exists own', (<[accessKey (hac_Namespace r) (hac_Name r) := l']> s). unfold heap_Set.
  rewrite (heapM_bind_Some _ _ _ _ _ Hl), (heapM_bind_Some _ _ _ _ _ Hc). split_and!; [done..|].
  destruct (access_value_plain _ _ _ Hv) as (<- & <- & _).
  destruct (represents_mono _ _ _ _ Hsub Hr) as (m & -> & -> & Hm).
  exists (<[accessKey (acc_Namespace v) (acc_Name v) := (l', v)]> m). rewrite !fmap_insert.
  split_and!; [done..|]. by apply map_Forall_insert_2.
Qed.

Lemma heap_Get_refines own client s vs namespace name :
  client ##ₘ own → represents own s vs →
  ∃ client' r, heap_Get s namespace name (own ∪ client) = Some (own ∪ client', r) ∧ client ⊆ client' ∧ client' ##ₘ own ∧
    answers_one client' r (MemoryStore_Get vs namespace name).
Proof.
  intros Hd (m & -> & -> & Hm). unfold heap_Get, MemoryStore_Get, heapStore, MemoryStore. rewrite !lookup_fmap.
  destruct (m !! accessKey namespace name) as [[l v]|] eqn:Hk; simpl; [|by exists client, (Err (ErrAccessNotFound_at namespace name))].
  destruct (DeepCopy_pointee own client l v Hd (Hm _ _ Hk)) as (client' & l' & Hc & Hsub & Hd' & Hp').
  exists client', (Ok (Some l')). rewrite (heapM_bind_Some _ _ _ _ _ Hc). by split_and!.
Qed.

Lemma heap_List_refines own client s vs :
  client ##ₘ own → represents own s vs →
  ∃ client' ls, heap_List s (own ∪ client) = Some (own ∪ client', ls) ∧ client ⊆ client' ∧ client' ##ₘ own ∧
    Forall2 (pointee client') ls (MemoryStore_List vs).
Proof.
  intros Hd (m & -> & -> & Hm).
  destruct (copy_entries own (map_to_list m).*2 client Hd) as (client' & out & Hc & Hsub & Hd' & Hout).
  { intros [l v] ([k x] & -> & Hk%elem_of_map_to_list)%list_elem_of_fmap. exact (Hm _ _ Hk). }
  exists client', (heap_sortAccesses out). unfold heap_List, MemoryStore_List, heapStore, MemoryStore. rewrite !map_to_list_fmap.
  rewrite <-!list_fmap_compose in *. split_and!; [|done..|by apply entries_sorted].
  by rewrite (heapM_bind_Some _ _ _ _ _ Hc).
Qed.

(** The two sides of a heap. *)
Lemma union_sides (h own : heap accessCell) : own ##ₘ h → (h ∪ own) ∖ h = own ∧ (h ∪ own) ∩ h = h.
Proof.
  intros Hd. split; apply map_eq; intros l; apply option_eq; intros c.
  - rewrite lookup_difference_Some, lookup_union_Some by done. split; [by intros [[?|?] ?]; simplify_eq|].
    intros Hl. split; [by right|]. by eapply map_disjoint_Some_l.
  - rewrite lookup_intersection_Some, lookup_union_Some by done. split.
    + intros [[?|Hl] [x Hx]]; [done|]. by rewrite (map_disjoint_Some_l _ _ _ _ Hd Hl) in Hx.
    + intros Hl. split; [by left|by eexists].
Qed.

(** The runs of a store among callers that do as they please with the objects they hold.  [own] are the
    cells that the store's operations keep, [client] all others; [vs] is the store on values, fed with
    what the objects denoted when they were handed over.  What [Set] allocates is the store's, what [Get]
    and [List] allocate is the caller's; between the operations the callers' cells change in any way. *)
Inductive store_run : heap accessCell → heap accessCell → heapStore → MemoryStore → Prop :=
| run_new client : store_run ∅ client ∅ ∅
| run_client own client s vs client' :
    store_run own client s vs → client' ##ₘ own → store_run own client' s vs
| run_Set own client s vs p v h s' :
    store_run own client s vs → denote client (p : ref accessRef) = Some v →
    heap_Set s p (client ∪ own) = Some (h, s') →
    store_run (h ∖ client) (h ∩ client) s' (match v with Some a => MemoryStore_Set vs a | None => vs end)
| run_Get own client s vs namespace name h r :
    store_run own client s vs → heap_Get s namespace name (own ∪ client) = Some (h, r) →
    store_run (h ∩ own) (h ∖ own) s vs
| run_List own client s vs h ls :
    store_run own client s vs → heap_List s (own ∪ client) = Some (h, ls) →
    store_run (h ∩ own) (h ∖ own) s vs.

Lemma store_run_represents own client s vs : store_run own client s vs → own ##ₘ client ∧ represents own s vs.
Proof.
  induction 1 as [client|own client s vs client' _ [Hd Hr] Hd'|own client s vs p v h s' _ [Hd Hr] Hp Hs
    |own client s vs ns name h r _ [Hd Hr] Hg|own client s vs h ls _ [Hd Hr] Hl].
  - split; [apply map_disjoint_empty_l|]. exists ∅. rewrite !fmap_empty. split_and!; [done..|apply map_Forall_empty].
  - by split.
  - destruct (heap_Set_refines own client s vs p v Hd Hr Hp) as (own' & s1 & Hs' & Hd' & Hr').
    rewrite Hs' in Hs. injection Hs as <- <-. by destruct (union_sides client own' Hd') as [-> ->].
  - symmetry in Hd. destruct (heap_Get_refines own client s vs ns name Hd Hr) as (client' & r1 & Hg' & _ & Hd' & _).
    rewrite Hg' in Hg. injection Hg as <- <-. by destruct (union_sides own client' Hd') as [-> ->].
  - symmetry in Hd. destruct (heap_List_refines own client s vs Hd Hr) as (client' & ls1 & Hl' & _ & Hd' & _).
    rewrite Hl' in Hl. injection Hl as <- <-. by destruct (union_sides own client' Hd') as [-> ->].
Qed.

(** C25: the in-memory store on the heap implements the store on values, whatever its callers do to the
    objects they hand over and receive.  In every reachable configuration [Set] of an object that denotes
    a value succeeds and leaves the caller's cells as they are; [Get] and [List] succeed, leave every cell
    as it is and return pointers to objects on the caller's side alone that denote what the store on
    values answers, errors and order included. *)
Theorem memory_store_refines own client s vs :
  store_run own client s vs →
  (∀ p v, denote client (p : ref accessRef) = Some v →
     ∃ h s', heap_Set s p (client ∪ own) = Some (h, s') ∧ client ⊆ h) ∧
  (∀ namespace name, ∃ h r, heap_Get s namespace name (own ∪ client) = Some (h, r) ∧ own ∪ client ⊆ h ∧
     answers_one (h ∖ own) r (MemoryStore_Get vs namespace name)) ∧
  (∃ h ls, heap_List s (own ∪ client) = Some (h, ls) ∧ own ∪ client ⊆ h ∧
     Forall2 (pointee (h ∖ own)) ls (MemoryStore_List vs)).
Proof.
  intros [Hd Hr]%store_run_represents. split_and!.
  - intros p v Hp. destruct (heap_Set_refines own client s vs p v Hd Hr Hp) as (own' & s' & Hs & Hd' & _).
    exists (client ∪ own'), s'. split; [done|apply map_union_subseteq_l].
  - intros ns name. symmetry in Hd.
    destruct (heap_Get_refines own client s vs ns name Hd Hr) as (client' & r & Hg & Hsub & Hd' & Ha).
    exists (own ∪ client'), r. split_and!; [done|by apply map_union_mono_l|].
    by destruct (union_sides own client' Hd') as [-> _].
  - symmetry in Hd. destruct (heap_List_refines own client s vs Hd Hr) as (client' & ls & Hl & Hsub & Hd' & Ha).
    exists (own ∪ client'), ls. split_and!; [done|by apply map_union_mono_l|].
    by destruct (union_sides own client' Hd') as [-> _].
Qed.

(** An Access with one credential, stored; then its owner overwrites the passwords it was stored with. *)
Definition demo_credentialRef : credentialRef :=
  mkCredentialRef "ann" "" None None (Some 3%positive) None None None None (mkCapabilityRef None None None).
Definition demo_accessRef : accessRef :=
  mkAccessRef "ns" "web" "u1" 1 5 (mkSpecRef None "" None None None None None (Some 2%positive)) (mkStatusRef 0 None None).
Definition demo_client (passwords : list string) : heap accessCell :=
  {[1%positive := CAccess demo_accessRef; 2%positive := CCredentials [demo_credentialRef]; 3%positive := CStrings passwords]}.

Lemma memory_store_refines_witness :
  ∃ own s vs h l v, store_run own (demo_client ["changed"]) s vs ∧
    heap_Get s "ns" "web" (own ∪ demo_client ["changed"]) = Some (h, Ok (Some l)) ∧ pointee (h ∖ own) l v ∧
    (cred_Passwords <$> spec_Credentials (acc_Spec v)) = [["secret"]].
Proof.
  set (h0 := demo_client ["secret"]).
  destruct (denote h0 (Some 1%positive : ref accessRef)) as [v|] eqn:Hv; [|by vm_compute in Hv].
  destruct (heap_Set ∅ (Some 1%positive) (h0 ∪ ∅)) as [[h1 s]|] eqn:Hs; [|by vm_compute in Hs].
  pose proof (run_Set ∅ h0 ∅ ∅ (Some 1%positive) v h1 s (run_new h0) Hv Hs) as Hrun.
  assert (demo_client ["changed"] ##ₘ h1 ∖ h0) as Hd.
  { vm_compute in Hs. injection Hs as <- _. by apply (bool_decide_unpack _); vm_compute. }
  pose proof (run_client _ _ _ _ _ Hrun Hd) as Hrun'.
  destruct (memory_store_refines _ _ _ _ Hrun') as (_ & Hget & _).
  destruct (Hget "ns" "web") as (h & r & Hg & _ & Ha). vm_compute in Hv. injection Hv as <-.
  destruct r as [[l|]|]; [|by vm_compute in Ha..].
  eexists _, _, _, h, l, _. split; [exact Hrun'|]. split; [exact Hg|]. split; [exact Ha|]. by vm_compute.
Defined.

(** ** Informer caches *)

(** The informer's objects, which lie on [h], are those of a cache of values. *)
Definition cached_pointee (h : heap accessCell) (o : cached positive) (v : cached Access) : Prop :=
  match o, v with
  | CObj l, CObj a => pointee h l a
  | COther t, COther t' => t = t'
  | _, _ => False
  end.
Definition indexer_represents (h : heap accessCell) (i : Indexer positive) (j : Indexer Access) : Prop :=
  (∀ key, match GetByKey i key, GetByKey j key with
          | Ok (Some o), Ok (Some v) => cached_pointee h o v
          | Ok None, Ok None => True
          | Err e, Err e' => e = e'
          | _, _ => False
          end) ∧
  Forall2 (cached_pointee h) (Indexer_List i) (Indexer_List j).
Definition cache_represents (h : heap accessCell) (c : heapCache) (vc : PolicyCache) : Prop :=
  hc_namespace c = pc_namespace vc ∧ hc_gatewayClassName c = pc_gatewayClassName vc ∧
  match hc_accessIndexer c, accessIndexer vc with
  | Some i, Some j => indexer_represents h i j
  | None, None => True
  | _, _ => False
  end.

Section Cache.
Context (h : heap accessCell) (c : heapCache) (vc : PolicyCache).
Hypothesis same : cache_represents h c vc.

Lemma gatewayClassName_ok own r v :
  access_value h r = Some v → heap_gatewayClassName r (h ∪ own) = Some (h ∪ own, gatewayClassName v).
Proof.
  intros (_ & _ & _ & Hs)%access_value_plain. apply bind_Some in Hs as (class & Hc & Hs).
  assert (spec_GatewayClassName (acc_Spec v) = class) as Hclass.
  { by repeat apply bind_Some in Hs as (? & _ & Hs); injection Hs as <-. }
  unfold heap_gatewayClassName, gatewayClassName. rewrite Hclass.
  destruct (hsp_GatewayClassName (hac_Spec r)) as [l|]; simpl in Hc; [|by injection Hc as <-].
  apply bind_Some in Hc as (x & Hx & [= <-]). exact (load_own h own l x Hx).
Qed.

Lemma acceptAccess_ok own r v :
  access_value h r = Some v → heap_acceptAccess c r (h ∪ own) = Some (h ∪ own, acceptAccess vc v).
Proof.
  intros Hv. destruct same as (Hns & Hclass & _). unfold heap_acceptAccess, acceptAccess. rewrite Hns, Hclass.
  destruct (access_value_plain _ _ _ Hv) as (-> & _). case_match; [done|].
  by rewrite (heapM_bind_Some _ _ _ _ _ (gatewayClassName_ok own r v Hv)).
Qed.

(** Both loops read an object and decide whether it is the gateway's. *)
Lemma read_accepted {B} (k : bool → heapM accessCell B) own l v :
  pointee h l v →
  (access ← load l; accepted ← heap_acceptAccess c access; k accepted) (h ∪ own) = k (acceptAccess vc v) (h ∪ own).
Proof.
  intros Hp. destruct (pointee_load h (h ∪ own) l v) as (r & Hl & Hr); [apply map_union_subseteq_l|done|].
  by rewrite (heapM_bind_Some _ _ _ _ _ Hl), (heapM_bind_Some _ _ _ _ _ (acceptAccess_ok own r v Hr)).
Qed.

Lemma cache_Get_refines own namespace name :
  own ##ₘ h →
  ∃ own' r, cache_Get c namespace name (h ∪ own) = Some (h ∪ own', r) ∧ own ⊆ own' ∧ own' ##ₘ h ∧
    answers_one own' r (PolicyCache_Get vc namespace name).
Proof.
  intros Hd. destruct same as (Hns & _ & Hi). unfold cache_Get, PolicyCache_Get. rewrite Hns.
  assert (∀ e, ∃ own' r, (mret (Err e) : heapM accessCell (result (ref accessRef))) (h ∪ own) = Some (h ∪ own', r) ∧ own ⊆ own' ∧ own' ##ₘ h ∧ answers_one own' r (Err e)) as Herr.
  { intros e. by exists own, (Err e). }
  destruct (hc_accessIndexer c) as [i|], (accessIndexer vc) as [j|]; try done. case_match; [done|].
  destruct Hi as [Hk _]. specialize (Hk (accessKey namespace name)).
  destruct (GetByKey i _) as [[[l|t]|]|], (GetByKey j _) as [[[v|t']|]|]; simplify_eq/=; try done.
  rewrite (read_accepted _ own l v Hk). destruct (acceptAccess vc v); simpl; [|done].
  destruct (DeepCopy_pointee h own l v Hd Hk) as (own' & l' & Hc & Hsub & Hd' & Hp').
  exists own', (Ok (Some l')). rewrite (heapM_bind_Some _ _ _ _ _ Hc). by split_and!.
Qed.

Definition answers_all (h : heap accessCell) {A} (P : heap accessCell → A → Access → Prop) (r : result (list A)) (v : result (list Access)) : Prop :=
  match r, v with
  | Ok ls, Ok vs => Forall2 (P h) ls vs
  | Err e, Err e' => e = e'
  | _, _ => False
  end.

Lemma copy_accepted_refines own os vos :
  own ##ₘ h → Forall2 (cached_pointee h) os vos →
  ∃ own' r, copy_accepted c os (h ∪ own) = Some (h ∪ own', r) ∧ own ⊆ own' ∧ own' ##ₘ h ∧
    answers_all own' entry_ok r (accepted_accesses vc vos).
Proof.
  intros Hd Hos. revert own Hd. induction Hos as [|o v os vos Ho Hos IH]; intros own Hd.
  - exists own, (Ok []). split_and!; [done..|]. by constructor.
  - destruct o as [l|t], v as [v|t']; try done.
    2: { simpl in Ho. subst t'. by eexists own, (Err _). }
    cbn [copy_accepted accepted_accesses]. rewrite (read_accepted _ own l v Ho). destruct (acceptAccess vc v); simpl.
    + destruct (copy_entry_ok h own l v Hd Ho) as (own1 & e & Hc & Hs1 & Hd1 & He).
      rewrite (heapM_bind_Some _ _ _ _ _ Hc). destruct (IH own1 Hd1) as (own2 & r & Hr & Hs2 & Hd2 & Ha).
      rewrite (heapM_bind_Some _ _ _ _ _ Hr). eexists own2, _. split; [reflexivity|]. split_and!; [by etrans|done|].
      destruct r, (accepted_accesses vc vos); simplify_eq/=; try done. constructor; [|done]. by apply (entry_ok_mono own1).
    + destruct (IH own Hd) as (own2 & r & Hr & Hs2 & Hd2 & Ha). exists own2, r. split_and!; [done..|].
      by destruct r, (accepted_accesses vc vos).
Qed.

Lemma cache_List_refines own :
  own ##ₘ h →
  ∃ own' r, cache_List c (h ∪ own) = Some (h ∪ own', r) ∧ own ⊆ own' ∧ own' ##ₘ h ∧
    answers_all own' pointee r (PolicyCache_List vc).
Proof.
  intros Hd. destruct same as (_ & _ & Hi). unfold cache_List, PolicyCache_List.
  destruct (hc_accessIndexer c) as [i|], (accessIndexer vc) as [j|]; try done; [|by eexists own, (Err _)].
  destruct Hi as [_ Hos]. destruct (copy_accepted_refines own _ _ Hd Hos) as (own' & r & Hr & Hsub & Hd' & Ha).
  rewrite (heapM_bind_Some _ _ _ _ _ Hr). eexists own', _. split; [reflexivity|]. split_and!; [done..|].
  destruct r, (accepted_accesses vc (Indexer_List j)); simplify_eq/=; try done. by apply entries_sorted.
Qed.
End Cache.

(** [DeepCopy], one step before the new object is allocated: what it refers to lies on other cells. *)
Lemma DeepCopy_fresh h l v :
  pointee h l v →
  ∃ own r l', Access_DeepCopy (Some l) h = Some (h ∪ <[l' := CAccess r]> own, Some l') ∧ own ##ₘ h ∧ h !! l' = None ∧
    own !! l' = None ∧ access_value own r = Some v.
Proof.
  intros (r & Hl & Hr)%pointee_struct.
  destruct (deepcopy_own (GoTypeLaws := access_laws) h ∅ r v (map_disjoint_empty_l h) Hr) as (own & r' & Hc & _ & Hd & Hv).
  destruct (alloc_own h own r' Hd) as (own' & l' & Ha & _ & Hd' & Hl' & Hn & ->).
  exists own, r', l'. split_and!; [|done|by eapply map_disjoint_Some_l|done..].
  assert (load l h = Some (h, r)) as Hload by (unfold load; by rewrite Hl).
  unfold Access_DeepCopy. rewrite (heapM_bind_Some _ _ _ _ _ Hload). rewrite map_union_empty in Hc.
  cbn [deepcopy access_type] in Hc. by rewrite (heapM_bind_Some _ _ _ _ _ Hc).
Qed.

(** The object that [sync] sends is new: no object that was there changes. *)
Lemma heap_updated_ok h l v status st :
  pointee h l v → denote h status = Some st →
  ∃ h' l', heap_updated (Some l) status h = Some (h', Some l') ∧ h ⊆ h' ∧ l' ∉ dom h ∧ pointee h' l' (set_status v st).
Proof.
  intros Hp Hst. destruct (DeepCopy_fresh h l v Hp) as (own & r & l' & Hc & Hd & Hn & Ho & Hv).
  assert (own ⊆ <[l' := CAccess (with_statusRef r status)]> own) as Hsub by (by apply insert_subseteq).
  assert (<[l' := CAccess (with_statusRef r status)]> own ##ₘ h) as Hd' by (by apply map_disjoint_insert_l_2).
  assert (load l' (h ∪ <[l' := CAccess r]> own) = Some (h ∪ <[l' := CAccess r]> own, r)) as Hload.
  { unfold load. by rewrite lookup_union_r, lookup_insert_eq by done. }
  assert (store l' (with_statusRef r status) (h ∪ <[l' := CAccess r]> own)
            = Some (h ∪ <[l' := CAccess (with_statusRef r status)]> own, ())) as Hstore.
  { unfold store. rewrite lookup_union_r, lookup_insert_eq by done. by rewrite insert_union_r, insert_insert_eq by done. }
  exists (h ∪ <[l' := CAccess (with_statusRef r status)]> own), l'. split_and!.
  - unfold heap_updated. rewrite (heapM_bind_Some _ _ _ _ _ Hc), (heapM_bind_Some _ _ _ _ _ Hload).
    by rewrite (heapM_bind_Some _ _ _ _ _ Hstore).
  - apply map_union_subseteq_l.
  - by apply not_elem_of_dom.
  - apply pointee_struct. exists (with_statusRef r status). rewrite lookup_union_r, lookup_insert_eq by done. split; [done|].
    apply bind_Some in Hv as (sp & Hsp & (st0 & _ & [= <-])%bind_Some).
    apply bind_Some. exists sp. split.
    { apply (denote_mono own); [|done]. etrans; [apply Hsub|by apply map_union_subseteq_r]. }
    apply bind_Some. exists st. split; [|done]. apply (denote_mono h); [apply map_union_subseteq_l|done].
Qed.

(** C24: objects leave an informer's cache as copies.  On a cache whose objects denote those of a cache of
    values, [Get] and [List] of the policy cache succeed, write to no cell that was there and return
    pointers to objects on new cells that denote what they return on values, errors and order included;
    and the object that the status controller sends as an update of one of them is new too and denotes
    the copy with the new status.  So the cache never changes under the informer. *)
Theorem policy_cache_isolated h c vc :
  cache_represents h c vc →
  (∀ namespace name, ∃ h' r, cache_Get c namespace name h = Some (h', r) ∧ h ⊆ h' ∧
     answers_one (h' ∖ h) r (PolicyCache_Get vc namespace name) ∧
     ∀ l v h1 status st, r = Ok (Some l) → PolicyCache_Get vc namespace name = Ok v → h' ⊆ h1 → denote h1 status = Some st →
       ∃ h2 l2, heap_updated (Some l) status h1 = Some (h2, Some l2) ∧ h1 ⊆ h2 ∧ l2 ∉ dom h1 ∧
         pointee h2 l2 (set_status v st)) ∧
  (∃ h' r, cache_List c h = Some (h', r) ∧ h ⊆ h' ∧ answers_all (h' ∖ h) pointee r (PolicyCache_List vc)).
Proof.
  intros Hc. pose proof (map_disjoint_empty_l h) as Hd. split.
  - intros ns name. destruct (cache_Get_refines h c vc Hc ∅ ns name Hd) as (own & r & Hg & _ & Hd' & Ha).
    rewrite map_union_empty in Hg. exists (h ∪ own), r. destruct (union_sides h own Hd') as [-> _].
    split_and!; [done|apply map_union_subseteq_l|done|]. intros l v h1 status st -> Hv Hsub Hst. rewrite Hv in Ha.
    apply heap_updated_ok; [|done]. eapply pointee_mono, Ha. etrans; [by apply map_union_subseteq_r|done].
  - destruct (cache_List_refines h c vc Hc ∅ Hd) as (own & r & Hg & _ & Hd' & Ha).
    rewrite map_union_empty in Hg. exists (h ∪ own), r. destruct (union_sides h own Hd') as [-> _].
    split_and!; [done|apply map_union_subseteq_l|done].
Qed.

Definition demo_cached : Access :=
  mkAccess "ns" "web" "u1" 1 5 (mkSpec None "" ∅ [] None None []
    [mkCredential "ann" "" [] ∅ ["secret"] [] [] [] [] (mkCapabilityPolicy [] None None)]) (mkStatus 0 [] []).
Definition demo_indexer {A} (a : A) : Indexer A :=
  mkIndexer (fun key => Ok (if bool_decide (key = "ns/web") then Some (CObj a) else None)) [CObj a].

Lemma policy_cache_isolated_witness :
  let h := demo_client ["secret"] in
  let c := mkHeapCache (Some (demo_indexer 1%positive)) "" "" in
  ∃ h' l, cache_Get c "ns" "web" h = Some (h', Ok (Some l)) ∧ h ⊆ h' ∧ pointee (h' ∖ h) l demo_cached.
Proof.
  intros h c. set (vc := mkPolicyCache (Some (demo_indexer demo_cached)) None "" "").
  assert (pointee h 1 demo_cached) as Hp by (by vm_compute).
  assert (cache_represents h c vc) as Hr.
  { split_and!; [done..|]. split; [|by constructor]. intros key. simpl. by case_bool_decide. }
  destruct (policy_cache_isolated h c vc Hr) as (Hget & _).
  destruct (Hget "ns" "web") as (h' & r & Hg & Hsub & Ha & _). destruct r as [[l|]|]; [|by vm_compute in Ha..].
  exists h', l. by split_and!.
Defined.
