(* ===== verification/HelperStream.v ===== *)
(** Model of the streams through a helper process: the goroutines and pipes of [dialThroughHelper] with
    its [helperDialStream] ([src/pkg/podssh/backend/port_forward.go]) and of [startHelperSession]
    ([helper_session.go]).

    A goroutine runs the helper over the transport with two [io.Pipe]s as its stdin and stdout; the
    caller holds the other ends.  The transport reads and writes its ends as it likes, also for a while
    after it has returned (client-go's copying goroutines end on their own), so nothing is assumed of it. *)

From S2P Require Import Prelude GoStrings Runs Executor.

(** ** [io.Pipe] *)

Definition bytes : Type := list ascii.

(** A [Write] in progress: what is left of its buffer, how many bytes were taken, and whether it has
    offered its buffer yet (an empty one is offered too). *)
Record pipeWrite := mkPipeWrite { pw_rest : bytes; pw_n : nat; pw_once : bool }.

(** The two [onceError]s and the writer that holds [wrMu].  The last three fields are the history: what
    was passed to writes, what was read, and what was left of a write that the pipe's end cut off. *)
Record pipe := mkPipe {
  pp_werr : option error;
  pp_rerr : option error;
  pp_write : option pipeWrite;
  pp_started : bytes;
  pp_got : bytes;
  pp_lost : bytes;
}.
Definition new_pipe : pipe := mkPipe None None None [] [] [].

(** [p.done] is closed. *)
Definition pipe_done (p : pipe) : bool := bool_decide (is_Some (pp_werr p) ∨ is_Some (pp_rerr p)).
Definition readCloseError (p : pipe) : error :=
  match pp_rerr p, pp_werr p with None, Some werr => werr | _, _ => ESentinel io_ErrClosedPipe end.
Definition writeCloseError (p : pipe) : error :=
  match pp_werr p, pp_rerr p with None, Some rerr => rerr | _, _ => ESentinel io_ErrClosedPipe end.

Definition writer_Close (p : pipe) : pipe :=
  mkPipe (Some (default (ESentinel io_EOF) (pp_werr p))) (pp_rerr p) (pp_write p) (pp_started p) (pp_got p) (pp_lost p).
Definition reader_Close (p : pipe) : pipe :=
  mkPipe (pp_werr p) (Some (default (ESentinel io_ErrClosedPipe) (pp_rerr p))) (pp_write p) (pp_started p) (pp_got p) (pp_lost p).

(** [Write] that finds the pipe open and no other writer; and the error of one that finds it closed. *)
Definition write_start (p : pipe) (b : bytes) : option pipe :=
  if pipe_done p then None
  else match pp_write p with
       | Some _ => None
       | None => Some (mkPipe (pp_werr p) (pp_rerr p) (Some (mkPipeWrite b 0 true)) (pp_started p ++ b) (pp_got p) (pp_lost p))
       end.
Definition write_refused (p : pipe) : option error := if pipe_done p then Some (writeCloseError p) else None.

Definition pw_offers (w : pipeWrite) : bool := pw_once w || bool_decide (pw_rest w ≠ []).

(** A reader with a buffer of [k] bytes meets the writer. *)
Definition transfer (p : pipe) (k : nat) : option (pipe * bytes) :=
  match pp_write p with
  | Some w =>
      if pw_offers w then
        let b := take k (pw_rest w) in
        Some (mkPipe (pp_werr p) (pp_rerr p) (Some (mkPipeWrite (drop k (pw_rest w)) (pw_n w + length b) false))
                (pp_started p) (pp_got p ++ b) (pp_lost p), b)
      else None
  | None => None
  end.
(** [Read] of a closed pipe. *)
Definition read_closed (p : pipe) : option error := if pipe_done p then Some (readCloseError p) else None.

(** [Write] returns: its buffer was taken, or the pipe is closed. *)
Definition write_return (p : pipe) : option (pipe * (nat * option error)) :=
  match pp_write p with
  | Some w =>
      if negb (pw_offers w)
      then Some (mkPipe (pp_werr p) (pp_rerr p) None (pp_started p) (pp_got p) (pp_lost p), (pw_n w, None))
      else if pipe_done p
      then Some (mkPipe (pp_werr p) (pp_rerr p) None (pp_started p) (pp_got p) (pp_lost p ++ pw_rest w),
                 (pw_n w, Some (writeCloseError p)))
      else None
  | None => None
  end.

(** ** The goroutine *)

(** How far the goroutine has come: the helper runs; then, with its outcome, the steps after
    [execHelper] up to the deferred [stdoutWriter.Close]. *)
Inductive execPhase :=
| ExecRunning
| ExecReturned (outcome : Z * option error)
| ExecStdinClosed (outcome : Z * option error)
| ExecCompleted
| ExecEnded.

(** [hr_stderr] is the [lockedBuffer].  [hr_outcome] remembers what [execHelper] returned, with the
    content of the buffer when the result was completed. *)
Record helperRun := mkHelperRun {
  hr_stdin : pipe;
  hr_stdout : pipe;
  hr_stderr : string;
  hr_phase : execPhase;
  hr_result : terminalResult;
  hr_outcome : option ((Z * option error) * string);
}.
Definition new_helperRun : helperRun := mkHelperRun new_pipe new_pipe "" ExecRunning newTerminalResult None.

Definition with_stdin (s : helperRun) (p : pipe) : helperRun :=
  mkHelperRun p (hr_stdout s) (hr_stderr s) (hr_phase s) (hr_result s) (hr_outcome s).
Definition with_stdout (s : helperRun) (p : pipe) : helperRun :=
  mkHelperRun (hr_stdin s) p (hr_stderr s) (hr_phase s) (hr_result s) (hr_outcome s).
Definition with_phase (s : helperRun) (ph : execPhase) : helperRun :=
  mkHelperRun (hr_stdin s) (hr_stdout s) (hr_stderr s) ph (hr_result s) (hr_outcome s).

(** [lockedBuffer.Write] and [String]. *)
Definition lockedBuffer_Write (s : helperRun) (b : string) : helperRun :=
  mkHelperRun (hr_stdin s) (hr_stdout s) (hr_stderr s ++ b) (hr_phase s) (hr_result s) (hr_outcome s).
Definition lockedBuffer_String (s : helperRun) : string := hr_stderr s.

(** *** The caller's end: [helperDialStream] *)

Definition dialStream_CloseWrite (s : helperRun) : helperRun := with_stdin s (writer_Close (hr_stdin s)).
Definition dialStream_closeRead (s : helperRun) : helperRun := with_stdout s (reader_Close (hr_stdout s)).
Definition dialStream_Close (s : helperRun) : helperRun := dialStream_closeRead (dialStream_CloseWrite s).
(** [Wait]; [None] while it blocks. *)
Definition dialStream_Wait (s : helperRun) : option (option error) := terminal_wait (hr_result s).

Section Goroutine.
(** What the result is completed with: [dial_terminal], or [session_terminal] of a capability. *)
Context (terminal : Z * option error → string → option error).

Definition exec_complete (s : helperRun) (outcome : Z * option error) : helperRun :=
  let stderr := lockedBuffer_String s in
  mkHelperRun (hr_stdin s) (hr_stdout s) (hr_stderr s) ExecCompleted
    (terminal_complete (hr_result s) (terminal outcome stderr)) (Some (outcome, stderr)).

(** The steps that happen once they are possible. *)
Inductive hr_own : helperRun → helperRun → Prop :=
| own_stdinClose s outcome :
    hr_phase s = ExecReturned outcome →
    hr_own s (with_phase (with_stdin s (reader_Close (hr_stdin s))) (ExecStdinClosed outcome))
| own_complete s outcome :
    hr_phase s = ExecStdinClosed outcome → hr_own s (exec_complete s outcome)
| own_stdoutClose s :
    hr_phase s = ExecCompleted → hr_own s (with_phase (with_stdout s (writer_Close (hr_stdout s))) ExecEnded)
| own_stdinReturn s p r :
    write_return (hr_stdin s) = Some (p, r) → hr_own s (with_stdin s p)
| own_stdoutReturn s p r :
    write_return (hr_stdout s) = Some (p, r) → hr_own s (with_stdout s p).

(** Those of the caller and of the transport. *)
Inductive hr_env : helperRun → helperRun → Prop :=
| env_Write s b p : write_start (hr_stdin s) b = Some p → hr_env s (with_stdin s p)
| env_Read s k p b : transfer (hr_stdout s) k = Some (p, b) → hr_env s (with_stdout s p)
| env_CloseWrite s : hr_env s (dialStream_CloseWrite s)
| env_closeRead s : hr_env s (dialStream_closeRead s)
| env_execRead s k p b : transfer (hr_stdin s) k = Some (p, b) → hr_env s (with_stdin s p)
| env_execWrite s b p : write_start (hr_stdout s) b = Some p → hr_env s (with_stdout s p)
| env_execStderr s b : hr_env s (lockedBuffer_Write s b)
| env_execReturn s outcome : hr_phase s = ExecRunning → hr_env s (with_phase s (ExecReturned outcome)).

Definition hr_step (s s' : helperRun) : Prop := hr_own s s' ∨ hr_env s s'.
Definition hr_reachable (s : helperRun) : Prop := rtc hr_step new_helperRun s.

(** ** Pipes carry bytes *)

Definition pp_inflight (p : pipe) : bytes := from_option pw_rest [] (pp_write p).

(** Every byte of every write was read, is still offered or was cut off at the pipe's end, in this
    order; nothing is cut off before the pipe is closed. *)
Definition pipe_ok (p : pipe) : Prop :=
  pp_started p = pp_got p ++ pp_inflight p ++ pp_lost p ∧
  (pp_lost p ≠ [] → pipe_done p = true ∧ pp_inflight p = []).

Lemma pipe_done_iff p : pipe_done p = true ↔ is_Some (pp_werr p) ∨ is_Some (pp_rerr p).
Proof. unfold pipe_done. apply bool_decide_eq_true. Qed.

Lemma new_pipe_ok : pipe_ok new_pipe.
Proof. by split. Qed.

Lemma writer_Close_ok p : pipe_ok p → pipe_ok (writer_Close p).
Proof. intros [Heq Hl]. split; [done|]. intros [_ Hf]%Hl. split; [by apply pipe_done_iff; left; eexists|done]. Qed.

Lemma reader_Close_ok p : pipe_ok p → pipe_ok (reader_Close p).
Proof. intros [Heq Hl]. split; [done|]. intros [_ Hf]%Hl. split; [by apply pipe_done_iff; right; eexists|done]. Qed.

Lemma write_start_ok p b p' : write_start p b = Some p' → pipe_ok p → pipe_ok p'.
Proof.
  unfold write_start. intros Hs [Heq Hl]. destruct (pipe_done p) eqn:Hd; [done|]. destruct (pp_write p) as [w|] eqn:Hw; [done|].
  simplify_eq/=. assert (pp_lost p = []) as Hlost by (by destruct (pp_lost p); [|destruct Hl]).
  split; simpl; [|by rewrite Hlost]. rewrite Heq. unfold pp_inflight. rewrite Hw, Hlost. simpl. by rewrite !app_nil_r.
Qed.

Lemma transfer_ok p k p' b : transfer p k = Some (p', b) → pipe_ok p → pipe_ok p'.
Proof.
  unfold transfer. intros Ht [Heq Hl]. destruct (pp_write p) as [w|] eqn:Hw; [|done]. destruct (pw_offers w); [|done].
  simplify_eq/=. unfold pp_inflight in *. rewrite Hw in *. simpl in *. split; simpl.
  - rewrite Heq, <-!app_assoc. f_equal. unfold pp_inflight. simpl. by rewrite (app_assoc (take _ _)), take_drop.
  - intros [Hd Hf]%Hl. split; [exact Hd|]. cbn. by rewrite Hf, drop_nil.
Qed.

Lemma write_return_ok p p' r : write_return p = Some (p', r) → pipe_ok p → pipe_ok p'.
Proof.
  unfold write_return. intros Hr [Heq Hl]. destruct (pp_write p) as [w|] eqn:Hw; [|done].
  unfold pp_inflight in *. rewrite Hw in *. simpl in *. unfold pw_offers in Hr.
  destruct (pw_once w) eqn:Ho; simpl in Hr; [|case_bool_decide as Hn; simpl in Hr].
  1,2: destruct (pipe_done p) eqn:Hd; simplify_eq/=; split; simpl; [|intros _; split; [exact Hd|done]].
  1,2: rewrite Heq; destruct (pp_lost p); [by rewrite app_nil_r|]; destruct Hl as [_ Hf]; [done|]; by rewrite Hf, app_nil_r.
  simplify_eq/=. rewrite Hn in *. by split.
Qed.

(** ** What holds in every run *)

Definition completed (s : helperRun) : Prop :=
  ∃ outcome stderr, hr_outcome s = Some (outcome, stderr) ∧ hr_result s = Some (terminal outcome stderr) ∧
    is_Some (pp_rerr (hr_stdin s)).
Definition phase_ok (s : helperRun) : Prop :=
  match hr_phase s with
  | ExecRunning | ExecReturned _ => hr_result s = None ∧ pp_werr (hr_stdout s) = None
  | ExecStdinClosed _ => hr_result s = None ∧ pp_werr (hr_stdout s) = None ∧ is_Some (pp_rerr (hr_stdin s))
  | ExecCompleted => completed s ∧ pp_werr (hr_stdout s) = None
  | ExecEnded => completed s ∧ pp_werr (hr_stdout s) = Some (ESentinel io_EOF)
  end.
Definition run_ok (s : helperRun) : Prop :=
  pipe_ok (hr_stdin s) ∧ pipe_ok (hr_stdout s) ∧ phase_ok s.

(** Operations on a pipe that leave the errors of its ends alone, and the pipe of a run. *)
Lemma write_start_ends p b p' : write_start p b = Some p' → pp_werr p' = pp_werr p ∧ pp_rerr p' = pp_rerr p.
Proof. unfold write_start. repeat case_match; intros; by simplify_eq. Qed.
Lemma transfer_ends p k p' b : transfer p k = Some (p', b) → pp_werr p' = pp_werr p ∧ pp_rerr p' = pp_rerr p.
Proof. unfold transfer. repeat case_match; intros; by simplify_eq. Qed.
Lemma write_return_ends p p' r : write_return p = Some (p', r) → pp_werr p' = pp_werr p ∧ pp_rerr p' = pp_rerr p.
Proof. unfold write_return. repeat case_match; intros; by simplify_eq. Qed.

Lemma with_stdin_ok s p :
  (is_Some (pp_rerr (hr_stdin s)) → is_Some (pp_rerr p)) → pipe_ok p → run_ok s → run_ok (with_stdin s p).
Proof.
  intros Hends Hp (_ & Ho & Hph). split_and!; [done..|]. unfold phase_ok, completed in *. simpl.
  destruct (hr_phase s); naive_solver.
Qed.
Lemma with_stdout_ok s p :
  pp_werr p = pp_werr (hr_stdout s) → pipe_ok p → run_ok s → run_ok (with_stdout s p).
Proof.
  intros Hends Hp (Hi & _ & Hph). split_and!; [done..|]. unfold phase_ok, completed in *. simpl. rewrite Hends. by destruct (hr_phase s).
Qed.

Lemma hr_step_ok s s' : run_ok s → hr_step s s' → run_ok s'.
Proof.
  intros Hok [Hs|Hs]; pose proof Hok as (Hi & Ho & Hph).
  - destruct Hs as [s o Hp|s o Hp|s Hp|s p r Hr|s p r Hr]; unfold phase_ok in Hph; try rewrite Hp in Hph.
    + split_and!; [by apply reader_Close_ok|done|]. unfold phase_ok. simpl. naive_solver.
    + destruct Hph as (Hres & Hw & Hr). split_and!; [done..|]. split; [|done].
      exists o, (hr_stderr s). split_and!; [done| |done]. simpl. by rewrite Hres.
    + destruct Hph as (Hc & Hw). split_and!; [done|by apply writer_Close_ok|]. split; [done|]. simpl. by rewrite Hw.
    + destruct (write_return_ends _ _ _ Hr) as [_ He]. apply with_stdin_ok; [by rewrite He|by eapply write_return_ok|done].
    + destruct (write_return_ends _ _ _ Hr) as [He _]. apply with_stdout_ok; [done|by eapply write_return_ok|done].
  - destruct Hs as [s b p Hw|s k p b Ht|s|s|s k p b Ht|s b p Hw|s b|s o Hp].
    + destruct (write_start_ends _ _ _ Hw) as [_ He]. apply with_stdin_ok; [by rewrite He|by eapply write_start_ok|done].
    + destruct (transfer_ends _ _ _ _ Ht) as [He _]. apply with_stdout_ok; [done|by eapply transfer_ok|done].
    + apply with_stdin_ok; [done|by apply writer_Close_ok|done].
    + apply with_stdout_ok; [done|by apply reader_Close_ok|done].
    + destruct (transfer_ends _ _ _ _ Ht) as [_ He]. apply with_stdin_ok; [by rewrite He|by eapply transfer_ok|done].
    + destruct (write_start_ends _ _ _ Hw) as [He _]. apply with_stdout_ok; [done|by eapply write_start_ok|done].
    + done.
    + split_and!; [done..|]. unfold phase_ok in *. simpl. by rewrite Hp in Hph.
Qed.

Lemma hr_reachable_ok s : hr_reachable s → run_ok s.
Proof.
  apply (rtc_invariant hr_step run_ok hr_step_ok). split_and!; [apply new_pipe_ok..|done].
Qed.

(** The result, once there, stays. *)
Lemma hr_result_stable s s' r : hr_step s s' → run_ok s → hr_result s = Some r → hr_result s' = Some r.
Proof.
  intros [Hs|Hs] (_ & _ & Hph) Hr; destruct Hs; try done.
  unfold phase_ok in Hph. rewrite H in Hph. destruct Hph as [Hn _]. by rewrite Hn in Hr.
Qed.

(** ** It ends *)

Definition phase_left (ph : execPhase) : nat :=
  match ph with ExecRunning | ExecEnded => 0 | ExecReturned _ => 3 | ExecStdinClosed _ => 2 | ExecCompleted => 1 end.
Definition write_left (p : pipe) : nat := match pp_write p with Some _ => 1 | None => 0 end.
Definition hr_left (s : helperRun) : nat := phase_left (hr_phase s) + write_left (hr_stdin s) + write_left (hr_stdout s).

Lemma write_return_left p p' r : write_return p = Some (p', r) → write_left p = 1 ∧ write_left p' = 0.
Proof. unfold write_return, write_left. repeat case_match; intros; by simplify_eq/=. Qed.

Lemma hr_own_decreases s s' : hr_own s s' → hr_left s' < hr_left s.
Proof.
  unfold hr_left. destruct 1 as [s o Hp|s o Hp|s Hp|s p r [? ?]%write_return_left|s p r [? ?]%write_return_left]; simpl; [..|lia|lia];
    rewrite Hp; unfold write_left; simpl; lia.
Qed.

(** A write to a closed pipe returns. *)
Lemma closed_write_returns p : pipe_done p = true → pp_write p = None ∨ ∃ p' r, write_return p = Some (p', r).
Proof.
  intros Hd. unfold write_return. rewrite Hd. destruct (pp_write p) as [w|]; [right|by left]. destruct (pw_offers w); by eauto.
Qed.

Lemma run_stdinReturns s : pipe_done (hr_stdin s) = true → pp_write (hr_stdin s) = None ∨ ∃ s', hr_own s s'.
Proof. intros [?|(p & r & Hr)]%closed_write_returns; [by left|right]. eexists. by eapply own_stdinReturn. Qed.
Lemma run_stdoutReturns s : pipe_done (hr_stdout s) = true → pp_write (hr_stdout s) = None ∨ ∃ s', hr_own s s'.
Proof. intros [?|(p & r & Hr)]%closed_write_returns; [by left|right]. eexists. by eapply own_stdoutReturn. Qed.

(** A run after [execHelper] has returned, in which nothing of its own is left to do. *)
Lemma hr_stuck_ended s :
  run_ok s → hr_phase s ≠ ExecRunning → (∀ s', ¬ hr_own s s') →
  hr_phase s = ExecEnded ∧ completed s ∧ pp_write (hr_stdin s) = None ∧ pp_write (hr_stdout s) = None ∧
  pipe_done (hr_stdin s) = true ∧ pipe_done (hr_stdout s) = true.
Proof.
  intros (_ & _ & Hph) Hrun Hno. unfold phase_ok in Hph. destruct (hr_phase s) as [|o|o| |] eqn:Hp; try done.
  - by destruct (Hno _ (own_stdinClose s o Hp)).
  - by destruct (Hno _ (own_complete s o Hp)).
  - by destruct (Hno _ (own_stdoutClose s Hp)).
  - destruct Hph as [Hc Hw]. pose proof Hc as (o & e & _ & _ & Hr).
    assert (pipe_done (hr_stdin s) = true) as Hdi by (by apply pipe_done_iff; right).
    assert (pipe_done (hr_stdout s) = true) as Hdo by (by apply pipe_done_iff; left; rewrite Hw).
    split_and!; try done.
    + destruct (run_stdinReturns s Hdi) as [|[s' Hs]]; [done|by destruct (Hno _ Hs)].
    + destruct (run_stdoutReturns s Hdo) as [|[s' Hs]]; [done|by destruct (Hno _ Hs)].
Qed.
End Goroutine.

Lemma pipe_ok_prefix p : pipe_ok p → pp_got p `prefix_of` pp_started p.
Proof. intros [Heq _]. rewrite Heq. by eexists. Qed.
Lemma pipe_ok_all p : pipe_ok p → pp_write p = None → pp_lost p = [] → pp_got p = pp_started p.
Proof. intros [Heq _] Hw Hl. rewrite Heq. unfold pp_inflight. rewrite Hw, Hl. simpl. by rewrite app_nil_r. Qed.

(** A reader sees the end of a pipe only when the writer has closed its end. *)
Lemma read_closed_werr p e : read_closed p = Some e → e ≠ ESentinel io_ErrClosedPipe → pp_werr p = Some e.
Proof.
  unfold read_closed, readCloseError. intros Hc Hne. destruct (pipe_done p); [|done].
  destruct (pp_rerr p), (pp_werr p); congruence.
Qed.

(** C21: the stream through a helper process, in every interleaving of the caller, the goroutine that
    runs the helper and the transport under it.  Each side reads a prefix of what the other wrote, in
    order; if no write was cut off by the end of a pipe, all of it.  When the caller reads the end of the
    stream, the result of the helper is there: [Wait] returns at once, with the error that the helper's
    outcome and its stderr stand for.  A result never changes. *)
Theorem helper_stream_correct terminal s :
  hr_reachable terminal s →
  (∀ p, p = hr_stdin s ∨ p = hr_stdout s →
     pp_got p `prefix_of` pp_started p ∧ (pp_write p = None → pp_lost p = [] → pp_got p = pp_started p)) ∧
  (read_closed (hr_stdout s) = Some (ESentinel io_EOF) →
     ∃ outcome stderr, hr_outcome s = Some (outcome, stderr) ∧ dialStream_Wait s = Some (terminal outcome stderr)) ∧
  (∀ r s', dialStream_Wait s = Some r → rtc (hr_step terminal) s s' → dialStream_Wait s' = Some r).
Proof.
  intros Hok%hr_reachable_ok. pose proof Hok as (Hi & Ho & Hph). split_and!.
  - intros p [->| ->]; split; auto using pipe_ok_prefix, pipe_ok_all.
  - intros Hw%read_closed_werr; [|done]. unfold phase_ok in Hph. rewrite Hw in Hph.
    destruct (hr_phase s); try naive_solver. destruct Hph as [(o & e & Ho' & Hr & _) _]. exists o, e. by split.
  - intros r s' Hr Hrun. cut (run_ok terminal s' ∧ hr_result s' = Some r); [by intros [_ ?]|]. revert Hrun.
    apply (rtc_invariant (hr_step terminal) (fun s => run_ok terminal s ∧ hr_result s = Some r)); [|by split].
    intros x y [Hx Hres] Hs. split; [by eapply hr_step_ok|by eapply hr_result_stable].
Qed.

(** C20: the stream through a helper process ends.  After [execHelper] has returned, at most five steps
    remain for the goroutine and the writes in progress, and when none remains the goroutine has ended:
    [Wait] returns, no write on either pipe is blocked, and every further read or write returns at once.
    Closing the stream, in any state, unblocks both sides: reads on both pipes return and the writes in
    progress can return. *)
Theorem helper_stream_ends terminal s :
  hr_reachable terminal s →
  (hr_phase s ≠ ExecRunning →
     (∀ n s', nsteps (hr_own terminal) n s s' → n ≤ 5) ∧
     ∀ s', rtc (hr_own terminal) s s' → (∀ s'', ¬ hr_own terminal s' s'') →
       is_Some (dialStream_Wait s') ∧
       ∀ p, p = hr_stdin s' ∨ p = hr_stdout s' →
         pp_write p = None ∧ is_Some (read_closed p) ∧ is_Some (write_refused p)) ∧
  (∀ p, p = hr_stdin (dialStream_Close s) ∨ p = hr_stdout (dialStream_Close s) →
     is_Some (read_closed p) ∧ (pp_write p = None ∨ ∃ p' r, write_return p = Some (p', r))).
Proof.
  intros Hreach. pose proof (hr_reachable_ok _ _ Hreach) as Hok. split.
  - intros Hph. split.
    + intros n s' Hn. pose proof (nsteps_bounded (hr_own terminal) (fun _ => True) hr_left (fun _ _ _ _ => I)
        (fun x y _ => hr_own_decreases terminal x y) n s s' I Hn) as Hb.
      assert (hr_left s ≤ 5); [|lia]. unfold hr_left, phase_left, write_left. repeat case_match; lia.
    + intros s' Hrun Hno.
      assert (run_ok terminal s' ∧ hr_phase s' ≠ ExecRunning) as [Hok' Hph'].
      { revert Hrun. apply (rtc_invariant (hr_own terminal) (fun s => run_ok terminal s ∧ hr_phase s ≠ ExecRunning)); [|by split].
        intros x y [Hx Hp] Hs. split; [eapply hr_step_ok; [done|by left]|]. by destruct Hs. }
      destruct (hr_stuck_ended terminal s' Hok' Hph' Hno) as (_ & (o & e & _ & Hr & _) & Hwi & Hwo & Hdi & Hdo).
      split; [by exists (terminal o e)|]. intros p [->| ->]; (split; [done|]); unfold read_closed, write_refused;
        by rewrite ?Hdi, ?Hdo.
  - intros p Hp. assert (pipe_done p = true) as Hd.
    { apply pipe_done_iff. destruct Hp as [->| ->]; [left|right]; by eexists. }
    split; [unfold read_closed; rewrite Hd; by eexists|by apply closed_write_returns].
Qed.

(** A helper that answers and exits; and one that fails while the caller is still writing. *)
Definition demo_dialed : helperRun :=
  mkHelperRun (mkPipe None (Some (ESentinel io_ErrClosedPipe)) (Some (mkPipeWrite ["h"%char] 1 false)) ["o"%char; "h"%char] ["o"%char] [])
    (mkPipe (Some (ESentinel io_EOF)) None None ["k"%char] ["k"%char] []) " refused " ExecEnded
    (Some (dial_terminal (1%Z, None) " refused ")) (Some ((1%Z, None), " refused ")).
Lemma demo_dialed_reachable : hr_reachable dial_terminal demo_dialed.
Proof.
  unfold hr_reachable.
  eapply rtc_l; [right; by apply (env_Write _ ["o"%char; "h"%char])|].
  eapply rtc_l; [right; by eapply (env_execRead _ 1)|].
  eapply rtc_l; [right; by apply (env_execWrite _ ["k"%char])|].
  eapply rtc_l; [right; by eapply (env_Read _ 8)|].
  eapply rtc_l; [left; by eapply own_stdoutReturn|].
  eapply rtc_l; [right; by apply (env_execStderr _ " refused ")|].
  eapply rtc_l; [right; by apply (env_execReturn _ (1%Z, None))|].
  eapply rtc_l; [left; by eapply own_stdinClose|].
  eapply rtc_l; [left; by eapply own_complete|].
  eapply rtc_l; [left; by eapply own_stdoutClose|]. apply rtc_refl.
Qed.

Lemma helper_stream_correct_witness :
  dialStream_Wait demo_dialed = Some (Some (Errorf "helper dial exited with %d: %s" ["1"; "refused"])) ∧
  pp_got (hr_stdin demo_dialed) `prefix_of` pp_started (hr_stdin demo_dialed).
Proof.
  destruct (helper_stream_correct dial_terminal demo_dialed demo_dialed_reachable) as (Hp & Heof & _).
  destruct (Heof eq_refl) as (o & e & [= <- <-] & Hw). split; [rewrite Hw; by vm_compute|].
  by apply (Hp (hr_stdin demo_dialed)); left.
Defined.

Lemma helper_stream_ends_witness :
  ∃ p n err, write_return (hr_stdin demo_dialed) = Some (p, (n, Some err)) ∧ n = 1 ∧
    ∀ s', nsteps (hr_own dial_terminal) 6 demo_dialed s' → False.
Proof.
  destruct (helper_stream_ends dial_terminal demo_dialed demo_dialed_reachable) as (Hends & _).
  destruct Hends as [Hb _]; [done|]. eexists _, _, _. split; [reflexivity|]. split; [done|]. intros s' Hn. specialize (Hb 6 s' Hn). lia.
Defined.
