(* ===== verification/ForwardStream.v ===== *)
(** Model of a port-forward stream of either transport: [portForwardStream] of
    [src/pkg/podssh/backend/apiserver/port_forward.go] and [forwardStream] of [backend/cri/transport.go], with
    the goroutine that reads the error stream.  The two differ in the texts of their errors only.

    Any number of goroutines may wait; [sync.Once] lets one of them run its function, and the others
    block until that has returned.  The streams and the connection (SPDY) are the environment. *)

From S2P Require Import Prelude GoStrings GoStrconv Runs.

(** ** Data *)

(** The goroutine: what it has read so far; then the value it is about to send. *)
Inductive readerPhase :=
| ReaderReading (message : string)
| ReaderSending (result : option error)
| ReaderDone.

(** [sync.Once]. *)
Inductive oncePhase := OnceNew | OnceRunning | OnceDone.

(** A call of [Wait]: before [wait.Do], inside its function at the receive, returned. *)
Inductive waitPhase :=
| WaitCalled
| WaitReceiving
| WaitReturned (err : option error).

(** [fw_result] is the channel of capacity one.  [fw_resets] and [fw_closes] count the calls of
    [data.Reset] and [conn.Close]; [fw_ended] is the value that the error stream stands for, once it ended. *)
Record portForwardStream := mkForwardStream {
  fw_reader : readerPhase;
  fw_result : list (option error);
  fw_once : oncePhase;
  fw_err : option error;
  fw_waits : list waitPhase;
  fw_resets : nat;
  fw_closes : nat;
  fw_ended : option (option error);
}.
Definition new_forwardStream : portForwardStream := mkForwardStream (ReaderReading "") [] OnceNew None [] 0 0 None.

Section Stream.
(** The texts: of an error while reading, and of a message. *)
Context (readText messageText : string).

(** What the goroutine sends after [io.ReadAll] returned. *)
Definition errorStream_result (message : string) (readErr : option error) : option error :=
  match readErr with
  | Some e => Some (Wrapf readText [] e)
  | None => if negb (bool_decide (message = "")) then Some (Errorf messageText [TrimSpace message]) else None
  end.

(** ** Steps *)

Definition fw_read (s : portForwardStream) (message chunk : string) : portForwardStream :=
  mkForwardStream (ReaderReading (message ++ chunk)) (fw_result s) (fw_once s) (fw_err s) (fw_waits s) (fw_resets s)
    (fw_closes s) (fw_ended s).
Definition fw_readAll (s : portForwardStream) (message : string) (readErr : option error) : portForwardStream :=
  mkForwardStream (ReaderSending (errorStream_result message readErr)) (fw_result s) (fw_once s) (fw_err s) (fw_waits s)
    (fw_resets s) (fw_closes s) (Some (errorStream_result message readErr)).
Definition fw_send (s : portForwardStream) (r : option error) : portForwardStream :=
  mkForwardStream ReaderDone (fw_result s ++ [r]) (fw_once s) (fw_err s) (fw_waits s) (fw_resets s) (fw_closes s) (fw_ended s).
Definition fw_Wait (s : portForwardStream) : portForwardStream :=
  mkForwardStream (fw_reader s) (fw_result s) (fw_once s) (fw_err s) (fw_waits s ++ [WaitCalled]) (fw_resets s)
    (fw_closes s) (fw_ended s).
Definition fw_Close (s : portForwardStream) : portForwardStream :=
  mkForwardStream (fw_reader s) (fw_result s) (fw_once s) (fw_err s) (fw_waits s) (fw_resets s) (S (fw_closes s)) (fw_ended s).
(** The first caller of [wait.Do] resets the data stream. *)
Definition fw_enter (s : portForwardStream) (n : nat) : portForwardStream :=
  mkForwardStream (fw_reader s) (fw_result s) OnceRunning (fw_err s) (<[n := WaitReceiving]> (fw_waits s)) (S (fw_resets s))
    (fw_closes s) (fw_ended s).
(** It receives, and its function returns. *)
Definition fw_receive (s : portForwardStream) (n : nat) (r : option error) (rest : list (option error)) : portForwardStream :=
  mkForwardStream (fw_reader s) rest OnceDone r (<[n := WaitReturned r]> (fw_waits s)) (fw_resets s) (fw_closes s) (fw_ended s).
(** A later caller finds the function done. *)
Definition fw_return (s : portForwardStream) (n : nat) : portForwardStream :=
  mkForwardStream (fw_reader s) (fw_result s) (fw_once s) (fw_err s) (<[n := WaitReturned (fw_err s)]> (fw_waits s))
    (fw_resets s) (fw_closes s) (fw_ended s).

(** Own steps.  A send blocks while the channel is full. *)
Inductive fw_own : portForwardStream → portForwardStream → Prop :=
| own_send s r : fw_reader s = ReaderSending r → length (fw_result s) < 1 → fw_own s (fw_send s r)
| own_enter s n : fw_waits s !! n = Some WaitCalled → fw_once s = OnceNew → fw_own s (fw_enter s n)
| own_receive s n r rest : fw_waits s !! n = Some WaitReceiving → fw_result s = r :: rest → fw_own s (fw_receive s n r rest)
| own_return s n : fw_waits s !! n = Some WaitCalled → fw_once s = OnceDone → fw_own s (fw_return s n).

(** The environment: the error stream, and the callers. *)
Inductive fw_env : portForwardStream → portForwardStream → Prop :=
| env_chunk s message chunk : fw_reader s = ReaderReading message → fw_env s (fw_read s message chunk)
| env_end s message readErr : fw_reader s = ReaderReading message → fw_env s (fw_readAll s message readErr)
| env_Wait s : fw_env s (fw_Wait s)
| env_Close s : fw_env s (fw_Close s).

Definition fw_step (s s' : portForwardStream) : Prop := fw_own s s' ∨ fw_env s s'.
Definition fw_reachable (s : portForwardStream) : Prop := rtc fw_step new_forwardStream s.
End Stream.

(** ** Invariant *)

Definition is_receiving (w : waitPhase) : nat := match w with WaitReceiving => 1 | _ => 0 end.

(** The message is with the goroutine, in the channel or received, exactly once after the error stream
    ended; one caller is at the receive while the function runs; the others that returned did so with the
    message. *)
Definition fw_ok (s : portForwardStream) : Prop :=
  (match fw_reader s with
   | ReaderReading _ => fw_ended s = None ∧ fw_result s = [] ∧ fw_once s ≠ OnceDone
   | ReaderSending r => fw_ended s = Some r ∧ fw_result s = [] ∧ fw_once s ≠ OnceDone
   | ReaderDone => ∃ r, fw_ended s = Some r ∧ match fw_once s with OnceDone => fw_result s = [] ∧ fw_err s = r | _ => fw_result s = [r] end
   end) ∧
  sum_list_with is_receiving (fw_waits s) = match fw_once s with OnceRunning => 1 | _ => 0 end ∧
  fw_resets s = match fw_once s with OnceNew => 0 | _ => 1 end ∧
  (∀ n err, fw_waits s !! n = Some (WaitReturned err) → fw_once s = OnceDone ∧ fw_err s = err).

Lemma insert_receiving l n w w' :
  l !! n = Some w → sum_list_with is_receiving (<[n := w']> l) + is_receiving w = sum_list_with is_receiving l + is_receiving w'.
Proof. apply sum_list_with_insert. Qed.

(** The caller that is replaced had not returned. *)
Lemma insert_returned (l : list waitPhase) n w w' err (m : nat) :
  l !! n = Some w → <[n := w']> l !! m = Some (WaitReturned err) →
  (m = n ∧ w' = WaitReturned err) ∨ l !! m = Some (WaitReturned err).
Proof.
  intros Hn Hm. destruct (decide (m = n)) as [->|Hne]; [left|right].
  - rewrite list_lookup_insert_eq in Hm; [by simplify_eq|by eapply lookup_lt_Some].
  - by rewrite list_lookup_insert_ne in Hm.
Qed.

Lemma receiving_running s n : fw_ok s → fw_waits s !! n = Some WaitReceiving → fw_once s = OnceRunning.
Proof.
  intros (_ & Hsum & _) Hn. apply (sum_list_with_lookup is_receiving) in Hn. simpl in Hn. destruct (fw_once s); [lia|done|lia].
Qed.

Section Proofs.
Context (readText messageText : string).

Lemma fw_own_ok s s' : fw_ok s → fw_own s s' → fw_ok s'.
Proof.
  intros Hok. destruct 1 as [s r Hr Hlen|s n Hn Ho|s n r rest Hn Hres|s n Hn Ho]; pose proof Hok as (Hrd & Hsum & Hreset & Hret).
  - rewrite Hr in Hrd. destruct Hrd as (He & Hres & Hnd). split_and!; [|done..]. exists r. split; [done|].
    simpl. rewrite Hres. by destruct (fw_once s).
  - pose proof (insert_receiving _ _ _ WaitReceiving Hn) as Hs. rewrite Ho in *. simpl in *. split_and!.
    + simpl. destruct (fw_reader s); [naive_solver..|]. destruct Hrd as (r & He & Hrd). exists r. simpl. split; [done|]. exact Hrd.
    + simpl. lia.
    + simpl. lia.
    + simpl. intros m err Hm. destruct (insert_returned _ _ _ _ _ _ Hn Hm) as [[_ ?]|Hold]; [done|].
      by destruct (Hret m err Hold).
  - pose proof (receiving_running s n Hok Hn) as Ho. pose proof (insert_receiving _ _ _ (WaitReturned r) Hn) as Hs. rewrite Ho in *. simpl in *.
    destruct (fw_reader s) eqn:Hrd'; [by destruct Hrd as (_ & Hz & _); rewrite Hz in Hres..|].
    destruct Hrd as (r' & He & Hch). rewrite Hres in Hch. simplify_eq. split_and!; simpl.
    + rewrite Hrd'. by exists r'.
    + lia.
    + by rewrite Hreset.
    + intros m err Hm. destruct (insert_returned _ _ _ _ _ _ Hn Hm) as [[_ ?]|Hold]; [by simplify_eq|].
      by destruct (Hret m err Hold).
  - pose proof (insert_receiving _ _ _ (WaitReturned (fw_err s)) Hn) as Hs. simpl in Hs. split_and!; simpl; [done| |done|].
    + rewrite <-Hsum. lia.
    + intros m err Hm. destruct (insert_returned _ _ _ _ _ _ Hn Hm) as [[_ ?]|Hold]; [by simplify_eq|]. by apply (Hret m).
Qed.

Lemma fw_step_ok s s' : fw_ok s → fw_step readText messageText s s' → fw_ok s'.
Proof.
  intros Hok [Hs|Hs]; [by eapply fw_own_ok|]. destruct Hs as [s m c Hr|s m e Hr|s|s]; pose proof Hok as (Hrd & Hsum & Hreset & Hret).
  - rewrite Hr in Hrd. by split_and!.
  - rewrite Hr in Hrd. split_and!; try done. simpl. naive_solver.
  - split_and!; try done; simpl.
    + rewrite sum_list_with_app. simpl. by rewrite <-Hsum, !Nat.add_0_r.
    + intros n err [Hn|[_ Hn]]%lookup_app_Some; [by apply (Hret n)|]. destruct (n - length (fw_waits s)); simplify_eq/=.
  - done.
Qed.

Lemma fw_reachable_ok s : fw_reachable readText messageText s → fw_ok s.
Proof.
  apply (rtc_invariant _ fw_ok fw_step_ok). split_and!; [done..|]. intros n err Hn. simpl in Hn. by rewrite lookup_nil in Hn.
Qed.

(** ** It ends *)

Definition wait_left (w : waitPhase) : nat := match w with WaitCalled => 2 | WaitReceiving => 1 | WaitReturned _ => 0 end.
Definition fw_left (s : portForwardStream) : nat :=
  sum_list_with wait_left (fw_waits s) + match fw_reader s with ReaderSending _ => 1 | _ => 0 end.

Lemma fw_own_decreases s s' : fw_own s s' → fw_left s' < fw_left s.
Proof.
  unfold fw_left. destruct 1 as [s r Hr Hlen|s n Hn Ho|s n r rest Hn Hres|s n Hn Ho]; simpl; [rewrite Hr; lia|..].
  all: pose proof (fun w => sum_list_with_insert wait_left _ _ _ w Hn) as Hs.
  - specialize (Hs WaitReceiving). simpl in Hs. lia.
  - specialize (Hs (WaitReturned r)). simpl in Hs. lia.
  - specialize (Hs (WaitReturned (fw_err s))). simpl in Hs. lia.
Qed.

(** After the error stream has ended nothing blocks for ever. *)
Lemma fw_stuck s r :
  fw_ok s → fw_ended s = Some r → (∀ s', ¬ fw_own s s') →
  fw_reader s = ReaderDone ∧ ∀ n w, fw_waits s !! n = Some w → w = WaitReturned r.
Proof.
  intros Hok He Hno. pose proof Hok as (Hrd & Hsum & _ & Hret).
  destruct (fw_reader s) as [m|r'|] eqn:Hr; [by destruct Hrd as (Hrd & _); rewrite He in Hrd| |].
  - destruct Hrd as (_ & Hz & _). destruct (Hno _ (own_send s r' Hr ltac:(rewrite Hz; simpl; lia))).
  - destruct Hrd as (r' & He' & Hch). rewrite He in He'. simplify_eq. split; [done|]. intros n w Hn. destruct w as [| |err].
    + destruct (fw_once s) eqn:Ho.
      * by destruct (Hno _ (own_enter s n Hn Ho)).
      * destruct (list_Exists_or_none (fun w => is_receiving w = 1) (fw_waits s)) as [(m & x & Hm & Hx)|Hnone].
        { destruct x; try done. by destruct (Hno _ (own_receive s m r' [] Hm Hch)). }
        rewrite sum_list_with_none in Hsum; [done|]. intros x Hx. specialize (Hnone x Hx). by destruct x.
      * by destruct (Hno _ (own_return s n Hn Ho)).
    + pose proof (receiving_running s n Hok Hn) as Ho. rewrite Ho in Hch. simpl in Hch.
      by destruct (Hno _ (own_receive s n r' [] Hn Hch)).
    + destruct (Hret n err Hn) as [Ho Herr]. rewrite Ho in Hch. simpl in Hch. by destruct Hch as [_ <-]; subst err.
Qed.
End Proofs.

(** The port-forward stream of both transports, in every interleaving.  However many goroutines wait, and
    whenever, all of them return the value that the error stream stands for, and none before the error
    stream has ended; the data stream is reset at most once.  The goroutine that reads the error stream
    never blocks on its send, whether anybody waits or not.  After the error stream has ended, at most
    two steps for each caller and one more remain, and when none remains every [Wait] has returned and the
    goroutine has ended. *)
Theorem forward_stream_waits readText messageText s :
  fw_reachable readText messageText s →
  (∀ n err, fw_waits s !! n = Some (WaitReturned err) → fw_ended s = Some err) ∧
  fw_resets s ≤ 1 ∧
  (∀ r, fw_reader s = ReaderSending r → fw_own s (fw_send s r)) ∧
  (∀ n s', nsteps fw_own n s s' → n ≤ 2 * length (fw_waits s) + 1) ∧
  (∀ r s', fw_ended s = Some r → rtc fw_own s s' → (∀ s'', ¬ fw_own s' s'') →
     fw_reader s' = ReaderDone ∧ fw_ended s' = Some r ∧ ∀ n w, fw_waits s' !! n = Some w → w = WaitReturned r).
Proof.
  intros Hok%fw_reachable_ok. pose proof Hok as (Hrd & _ & Hreset & Hret). split_and!.
  - intros n err Hn. destruct (Hret n err Hn) as [Ho He]. rewrite Ho in Hrd.
    destruct (fw_reader s); [naive_solver..|]. destruct Hrd as (r & Hend & _ & Herr). congruence.
  - rewrite Hreset. destruct (fw_once s); lia.
  - intros r Hr. rewrite Hr in Hrd. destruct Hrd as (_ & Hz & _). apply own_send; [done|]. rewrite Hz. simpl. lia.
  - intros n s' Hn. pose proof (nsteps_bounded fw_own (fun _ => True) fw_left (fun _ _ _ _ => I)
      (fun x y _ => fw_own_decreases x y) n s s' I Hn) as Hb.
    assert (sum_list_with wait_left (fw_waits s) ≤ 2 * length (fw_waits s)) as Hw.
    { clear. induction (fw_waits s) as [|w l IH]; simpl; [lia|]. destruct w; simpl; lia. }
    unfold fw_left in Hb at 2. destruct (fw_reader s); lia.
  - intros r s' He Hrun Hno.
    apply (rtc_invariant fw_own (fun s => fw_ok s ∧ fw_ended s = Some r)) in Hrun as [Hok' He']; [| |done].
    + destruct (fw_stuck s' r Hok' He' Hno). by split_and!.
    + intros x y [Hx Hex] Hs. split; [by eapply fw_own_ok|]. by destruct Hs.
Qed.

(** Two callers wait for a forward whose error stream carries a message. *)
Example forward_stream_waits_example :
  ∃ s, fw_reachable "read: %w" "forward: %s" s ∧
    fw_waits s = [WaitReturned (Some (Errorf "forward: %s" ["refused"])); WaitReturned (Some (Errorf "forward: %s" ["refused"]))].
Proof.
  eexists. split.
  - eapply rtc_l; [right; apply env_Wait|]. eapply rtc_l; [right; apply env_Wait|].
    eapply rtc_l; [left; by apply (own_enter _ 0)|].
    eapply rtc_l; [right; by apply (env_chunk _ _ _ "" "refused ")|].
    eapply rtc_l; [right; by apply (env_end _ _ _ "refused " None)|].
    eapply rtc_l; [left; eapply own_send; [done|simpl; lia]|].
    eapply rtc_l; [left; by eapply (own_receive _ 0)|].
    eapply rtc_l; [left; by apply (own_return _ 1)|]. apply rtc_refl.
  - vm_compute. reflexivity.
Qed.
