(* ===== verification/ApiPath.v ===== *)
(** From an SSH request to the API server: the composition of [PodPath] for the other transport
    ([src/pkg/podssh/backend/apiserver]), whose requests the API server and the kubelet carry out. *)

From S2P Require Import Prelude GoStrings GoStrconv Kube Target Authn Options Authz AuthzProps AuditLog Operation SSHProxy PodSession PodSessionProps PodForward CriNode CriTransport CriProps HelperCache Executor PodPath.

(** What the API server is asked for: [pods/exec], or [pods/portforward] of one port. *)
Inductive apiAsk :=
| AskExec (r : podExec)
| AskPortForward (namespace pod : string) (port : Z).

(** The request of the transport for a call; [acquire] is the path of a verified helper in the container. *)
Definition api_sent (acquire : option Target → string → result string) (call : transportCall) : result apiAsk :=
  match call with
  | TransportExec r => ref ← Parse (xr_Target r); Ok (AskExec (api_request ref r))
  | TransportHelper r =>
      path ← acquire (hr_Target r) (hr_Capability r);
      ref ← Parse (hr_Target r);
      Ok (AskExec (api_request ref (mkExec (hr_Target r) (lease_Command (mkLease path false 0) (hr_Command r))
                                      (hr_Stdin r) (hr_Stdout r) (hr_Stderr r) false)))
  | TransportForward r => ref ← Parse (pp_Target r); Ok (AskPortForward (r_Namespace ref) (r_Pod ref) (pp_Port r))
  end.

(** The transport sends that request and nothing else: its outcome depends on [send] and [dial] at that
    request only. *)
Lemma api_sends acquire send dial call :
  match call with
  | TransportExec r =>
      api_Exec send r =
        match api_sent acquire call with
        | Ok (AskExec q) => stream_result "exec stream: %w" (send q)
        | Ok (AskPortForward _ _ _) => (0%Z, None)
        | Err e => (1%Z, Some e)
        end
  | TransportHelper r =>
      api_ExecHelper acquire send r =
        match api_sent acquire call with
        | Ok (AskExec q) => stream_result "exec stream: %w" (send q)
        | Ok (AskPortForward _ _ _) => (0%Z, None)
        | Err e => (1%Z, Some e)
        end
  | TransportForward r =>
      match api_sent acquire call with
      | Ok (AskPortForward namespace pod port) =>
          ∀ dial', (∀ ref, r_Namespace ref = namespace → r_Pod ref = pod → dial ref port = dial' ref port) →
            api_PortForward dial r = api_PortForward dial' r
      | Ok (AskExec _) => False
      | Err e => (api_PortForward dial r).1 = Err e
      end
  end.
Proof.
  destruct call as [r|r|r]; simpl.
  - unfold api_Exec. by destruct (Parse (xr_Target r)).
  - unfold api_ExecHelper, api_Exec. destruct (acquire _ _); simpl; [|done]. by destruct (Parse (hr_Target r)).
  - unfold api_PortForward. destruct (Parse (pp_Target r)) as [ref|]; simpl; [|done]. intros dial' Heq.
    by rewrite (Heq ref eq_refl eq_refl).
Qed.

Section Asks.
Context `{UnicodeCase} `{PodWire} (acquire : option Target → string → result string).
Context (tgt : Target) (shell : string) (shlex : string → list string).



End Asks.

Section Gateway.
Context `{UnicodeCase} `{PodWire} (acquire : option Target → string → result string).
Context (envAllowed : string → bool) (shell : string) (shlex : string → list string) (error_string : error → string).
Context (authz : Authorizer) (ctx : connectionState) (auth : authenticatedConnection).
Context (newID : Operation → string * string) (clock : Operation → Z).

End Gateway.


