(* ===== verification/InformerFactory.v ===== *)
(** Model of the shared informer factory of the Access resource
    ([src/pkg/generated/informers/externalversions/{factory,generic}.go] and [ssh/v1/access.go]) and of how
    the Access policy runtime uses it ([src/pkg/gateway/access_policy_runtime.go]).

    The factory's methods run under its lock, so each is one step; an informer (client-go) is an object
    with an identity, made by [newFunc], whose [RunWithContext] runs until its context ends.  Functions
    that are only passed on (tweaks of list options, transforms) are named. *)

From S2P Require Import Prelude Runs Options AccessStore Assembly.

(** ** Data *)

(** [reflect.Type] of the object. *)
Definition informerType : Type := string.
Definition AccessInformerType : informerType := "*v1.Access".

Record informer := mkInformer {
  inf_ID : nat;
  inf_Namespace : string;
  inf_TweakListOptions : option string;
  inf_ResyncPeriod : Z;
  inf_Indexers : list string;
  inf_Name : option string;
  inf_Transform : option string;
}.
#[export] Instance informer_eq_dec : EqDecision informer.
Proof. solve_decision. Defined.

(** [wg] as the goroutines it counts: the informer that each runs and its context.  [sf_Created] numbers
    the informers made; [sf_Runs] is the history of all goroutines. *)
Record sharedInformerFactory := mkFactory {
  sf_namespace : string;
  sf_tweakListOptions : option string;
  sf_defaultResync : Z;
  sf_customResync : gmap informerType Z;
  sf_transform : option string;
  sf_informerName : option string;
  sf_informers : gmap informerType informer;
  sf_startedInformers : gset informerType;
  sf_wg : list (informerType * nat);
  sf_shuttingDown : bool;
  sf_Created : nat;
  sf_Runs : list (informerType * nat);
}.

(** ** Construction *)

Definition SharedInformerOption : Type := sharedInformerFactory → sharedInformerFactory.

Definition WithCustomResyncConfig (resyncConfig : list (informerType * Z)) : SharedInformerOption := fun f =>
  mkFactory (sf_namespace f) (sf_tweakListOptions f) (sf_defaultResync f)
    (foldl (fun m kv => <[kv.1 := kv.2]> m) (sf_customResync f) resyncConfig) (sf_transform f) (sf_informerName f)
    (sf_informers f) (sf_startedInformers f) (sf_wg f) (sf_shuttingDown f) (sf_Created f) (sf_Runs f).
Definition WithTweakListOptions (tweak : option string) : SharedInformerOption := fun f =>
  mkFactory (sf_namespace f) tweak (sf_defaultResync f) (sf_customResync f) (sf_transform f) (sf_informerName f)
    (sf_informers f) (sf_startedInformers f) (sf_wg f) (sf_shuttingDown f) (sf_Created f) (sf_Runs f).
Definition WithNamespace (namespace : string) : SharedInformerOption := fun f =>
  mkFactory namespace (sf_tweakListOptions f) (sf_defaultResync f) (sf_customResync f) (sf_transform f) (sf_informerName f)
    (sf_informers f) (sf_startedInformers f) (sf_wg f) (sf_shuttingDown f) (sf_Created f) (sf_Runs f).
Definition WithTransform (transform : option string) : SharedInformerOption := fun f =>
  mkFactory (sf_namespace f) (sf_tweakListOptions f) (sf_defaultResync f) (sf_customResync f) transform (sf_informerName f)
    (sf_informers f) (sf_startedInformers f) (sf_wg f) (sf_shuttingDown f) (sf_Created f) (sf_Runs f).
Definition WithInformerName (name : option string) : SharedInformerOption := fun f =>
  mkFactory (sf_namespace f) (sf_tweakListOptions f) (sf_defaultResync f) (sf_customResync f) (sf_transform f) name
    (sf_informers f) (sf_startedInformers f) (sf_wg f) (sf_shuttingDown f) (sf_Created f) (sf_Runs f).

Definition NewSharedInformerFactoryWithOptions (defaultResync : Z) (options : list SharedInformerOption) : sharedInformerFactory :=
  foldl (fun f opt => opt f) (mkFactory "" None defaultResync ∅ None None ∅ ∅ [] false 0 []) options.
Definition NewSharedInformerFactory (defaultResync : Z) : sharedInformerFactory :=
  NewSharedInformerFactoryWithOptions defaultResync [].
Definition NewFilteredSharedInformerFactory (defaultResync : Z) (namespace : string) (tweak : option string)
    : sharedInformerFactory :=
  NewSharedInformerFactoryWithOptions defaultResync [WithNamespace namespace; WithTweakListOptions tweak].

(** ** Methods *)

(** [newFunc] gets the identity of the informer it makes. *)
Definition InformerFor (f : sharedInformerFactory) (t : informerType) (newFunc : nat → Z → informer)
    : sharedInformerFactory * informer :=
  match sf_informers f !! t with
  | Some informer => (f, informer)
  | None =>
      let resyncPeriod := default (sf_defaultResync f) (sf_customResync f !! t) in
      let i := newFunc (sf_Created f) resyncPeriod in
      let i := match sf_transform f with
               | None => i
               | Some _ => mkInformer (inf_ID i) (inf_Namespace i) (inf_TweakListOptions i) (inf_ResyncPeriod i)
                             (inf_Indexers i) (inf_Name i) (sf_transform f)
               end in
      (mkFactory (sf_namespace f) (sf_tweakListOptions f) (sf_defaultResync f) (sf_customResync f) (sf_transform f)
         (sf_informerName f) (<[t := i]> (sf_informers f)) (sf_startedInformers f) (sf_wg f) (sf_shuttingDown f)
         (S (sf_Created f)) (sf_Runs f), i)
  end.

(** The informers that [StartWithContext] starts. *)
Definition not_started (f : sharedInformerFactory) : list informerType :=
  filter (fun t => t ∉ sf_startedInformers f) (map_to_list (sf_informers f)).*1.
Definition StartWithContext (f : sharedInformerFactory) (ctx : nat) : sharedInformerFactory :=
  if sf_shuttingDown f then f
  else
    let new := (fun t => (t, ctx)) <$> not_started f in
    mkFactory (sf_namespace f) (sf_tweakListOptions f) (sf_defaultResync f) (sf_customResync f) (sf_transform f)
      (sf_informerName f) (sf_informers f) (list_to_set (not_started f) ∪ sf_startedInformers f) (sf_wg f ++ new)
      (sf_shuttingDown f) (sf_Created f) (sf_Runs f ++ new).

(** [Shutdown] up to the wait. *)
Definition Shutdown_begin (f : sharedInformerFactory) : sharedInformerFactory :=
  mkFactory (sf_namespace f) (sf_tweakListOptions f) (sf_defaultResync f) (sf_customResync f) (sf_transform f)
    (sf_informerName f) (sf_informers f) (sf_startedInformers f) (sf_wg f) true (sf_Created f) (sf_Runs f).
(** [wg.Wait] returns.  What [Shutdown] does after it, [informerName.Release], releases the name of
    the factory, an object of client-go, and is left out. *)
Definition Shutdown_returns (f : sharedInformerFactory) : bool := bool_decide (sf_wg f = []).
(** A goroutine ends. *)
Definition run_ends (f : sharedInformerFactory) (n : nat) : sharedInformerFactory :=
  mkFactory (sf_namespace f) (sf_tweakListOptions f) (sf_defaultResync f) (sf_customResync f) (sf_transform f)
    (sf_informerName f) (sf_informers f) (sf_startedInformers f) (delete n (sf_wg f)) (sf_shuttingDown f)
    (sf_Created f) (sf_Runs f).

(** [WaitForCacheSyncWithContext]: the informers it waits for, and, after the wait, the result.  [cause]
    is [context.Cause] of the context then. *)
Record SyncResult := mkSyncResult { sr_Synced : gmap informerType bool; sr_Err : option error }.
Definition synced_informers (f : sharedInformerFactory) : gmap informerType informer :=
  filter (fun kv => kv.1 ∈ sf_startedInformers f) (sf_informers f).
Definition WaitForCacheSync_result (informers : gmap informerType informer) (HasSynced : informer → bool)
    (cause : option error) : SyncResult :=
  let synced := HasSynced <$> informers in
  mkSyncResult synced (if bool_decide (map_Forall (fun _ b => b = true) synced) then None else cause).

(** ** [ssh/v1/access.go] and [generic.go] *)

Definition NewAccessInformerWithOptions (namespace : string) (tweak : option string) (indexers : list string)
    (name : option string) (id : nat) (resyncPeriod : Z) : informer :=
  mkInformer id namespace tweak resyncPeriod indexers name None.
Definition NamespaceIndex : string := "namespace".
(** [Informer] of [factory.Ssh().V1().Accesses()], which carries the factory's namespace and tweak. *)
Definition defaultInformer (f : sharedInformerFactory) (id : nat) (resyncPeriod : Z) : informer :=
  NewAccessInformerWithOptions (sf_namespace f) (sf_tweakListOptions f) [NamespaceIndex] (sf_informerName f) id resyncPeriod.
Definition accessInformer_Informer (f : sharedInformerFactory) : sharedInformerFactory * informer :=
  InformerFor f AccessInformerType (defaultInformer f).
Definition ForResource (f : sharedInformerFactory) (group version resource : string)
    : result (sharedInformerFactory * informer) :=
  if bool_decide ((group, version, resource) = ("ssh.xiaoshiai.cn", "v1", "accesses"))
  then Ok (accessInformer_Informer f)
  else Err (Errorf "no informer found for %v" [group; version; resource]).

(** ** Any number of callers *)

Inductive factory_step (cancelled : nat → Prop) : sharedInformerFactory → sharedInformerFactory → Prop :=
| step_InformerFor f t newFunc : factory_step cancelled f (InformerFor f t newFunc).1
| step_Start f ctx : factory_step cancelled f (StartWithContext f ctx)
| step_Shutdown f : factory_step cancelled f (Shutdown_begin f)
| step_ends f n t ctx : sf_wg f !! n = Some (t, ctx) → cancelled ctx → factory_step cancelled f (run_ends f n).

(** Each type has at most one goroutine, ever; the types marked as started are those with one, and they
    have an informer. *)
Definition factory_ok (f : sharedInformerFactory) : Prop :=
  NoDup (sf_Runs f).*1 ∧ (∀ t, t ∈ (sf_Runs f).*1 ↔ t ∈ sf_startedInformers f) ∧
  sf_startedInformers f ⊆ dom (sf_informers f) ∧ sublist (sf_wg f) (sf_Runs f).

Lemma not_started_spec f t : t ∈ not_started f ↔ t ∈ dom (sf_informers f) ∧ t ∉ sf_startedInformers f.
Proof.
  unfold not_started. rewrite list_elem_of_filter, list_elem_of_fmap, elem_of_dom. split.
  - intros (Hn & [t' i] & -> & Hi%elem_of_map_to_list). split; [by eexists|done].
  - intros ([i Hi] & Hn). split; [done|]. exists (t, i). split; [done|]. by apply elem_of_map_to_list.
Qed.
Lemma not_started_NoDup f : NoDup (not_started f).
Proof. apply NoDup_filter, NoDup_fst_map_to_list. Qed.

Lemma new_factory_ok resync options :
  (∀ opt, opt ∈ options → ∀ f, sf_Runs (opt f) = sf_Runs f ∧ sf_startedInformers (opt f) = sf_startedInformers f ∧ sf_wg (opt f) = sf_wg f) →
  factory_ok (NewSharedInformerFactoryWithOptions resync options).
Proof.
  intros Hopt. unfold NewSharedInformerFactoryWithOptions.
  assert (∀ f, sf_Runs f = [] → sf_startedInformers f = ∅ → sf_wg f = [] → factory_ok f) as Hempty.
  { intros f Hr Hs Hw. unfold factory_ok. rewrite Hr, Hs, Hw. simpl. split_and!; [constructor|set_solver..|constructor]. }
  cut (∀ f, sf_Runs f = [] → sf_startedInformers f = ∅ → sf_wg f = [] → factory_ok (foldl (fun f opt => opt f) f options)).
  { intros Hcut. by apply Hcut. }
  induction options as [|opt options IH]; intros f Hr Hs Hw; simpl; [by apply Hempty|].
  destruct (Hopt opt ltac:(left) f) as (H1 & H2 & H3). apply IH; [|by rewrite H1|by rewrite H2|by rewrite H3].
  intros o Ho. apply Hopt. by right.
Qed.

Lemma Start_ok f ctx : factory_ok f → factory_ok (StartWithContext f ctx).
Proof.
  intros (Hnd & Hst & Hsub & Hwg). unfold StartWithContext. destruct (sf_shuttingDown f); [done|]. unfold factory_ok. simpl.
  assert (((fun t => (t, ctx)) <$> not_started f).*1 = not_started f) as Hfst.
  { rewrite <-list_fmap_compose. by apply list_fmap_id. }
  rewrite fmap_app, Hfst. split_and!.
  - apply NoDup_app. split_and!; [done| |apply not_started_NoDup].
    intros t Ht%Hst [_ Hn]%not_started_spec. done.
  - intros t. rewrite elem_of_app, Hst. set_solver.
  - apply union_least; [|done]. intros t [Ht _]%elem_of_list_to_set%not_started_spec. done.
  - by apply sublist_app.
Qed.

Lemma factory_step_ok cancelled f f' : factory_ok f → factory_step cancelled f f' → factory_ok f'.
Proof.
  intros Hok. destruct 1 as [f t newFunc|f ctx|f|f n t ctx Hn Hc].
  - unfold InformerFor. destruct (sf_informers f !! t) as [i|]; [done|]. destruct Hok as (Hnd & Hst & Hsub & Hwg).
    unfold factory_ok. simpl. rewrite dom_insert_L. split_and!; [done..|set_solver|done].
  - by apply Start_ok.
  - done.
  - destruct Hok as (Hnd & Hst & Hsub & Hwg). split_and!; [done..|]. simpl. etrans; [|done]. apply sublist_delete.
Qed.

(** An informer, once made, is the one that every caller gets. *)
Lemma factory_step_informers cancelled f f' t i :
  factory_step cancelled f f' → sf_informers f !! t = Some i → sf_informers f' !! t = Some i.
Proof.
  destruct 1 as [f t' newFunc|f ctx|f|f n t' ctx Hn Hc]; intros Hi; try done.
  - unfold InformerFor. destruct (sf_informers f !! t') as [i'|] eqn:Ht'; [done|]. simpl.
    rewrite lookup_insert_ne; [done|]. intros ->. by rewrite Ht' in Hi.
  - unfold StartWithContext. by destruct (sf_shuttingDown f).
Qed.

Lemma factory_step_shutdown cancelled f f' :
  factory_step cancelled f f' → sf_shuttingDown f = true → sf_shuttingDown f' = true ∧ sf_Runs f' = sf_Runs f ∧ length (sf_wg f') ≤ length (sf_wg f).
Proof.
  destruct 1 as [f t newFunc|f ctx|f|f n t ctx Hn Hc]; intros Hs; try done.
  - unfold InformerFor. by destruct (sf_informers f !! t).
  - unfold StartWithContext. by rewrite Hs.
  - simpl. split_and!; [done..|]. rewrite length_delete by by eexists. lia.
Qed.

(** The options of the package. *)
Inductive known_option : SharedInformerOption → Prop :=
| known_resync c : known_option (WithCustomResyncConfig c)
| known_tweak t : known_option (WithTweakListOptions t)
| known_namespace n : known_option (WithNamespace n)
| known_transform t : known_option (WithTransform t)
| known_name n : known_option (WithInformerName n).

Lemma known_factory_ok resync options :
  Forall known_option options → factory_ok (NewSharedInformerFactoryWithOptions resync options).
Proof. intros Hall. apply new_factory_ok. intros opt Ho f. rewrite Forall_forall in Hall. by destruct (Hall opt Ho). Qed.

(** The goroutines end. *)
Definition ends_step (f f' : sharedInformerFactory) : Prop := ∃ n, n < length (sf_wg f) ∧ f' = run_ends f n.
Lemma ends_step_decreases f f' : ends_step f f' → length (sf_wg f') < length (sf_wg f).
Proof. intros (n & Hn & ->). simpl. rewrite length_delete by (by apply lookup_lt_is_Some). lia. Qed.

(** C34: the informer factory shares informers and runs each once.  For a factory made with any of the
    package's options and used by any number of callers: no type has more than one goroutine, over the
    whole life of the factory, however often it is started; an informer, once made, is the one that every
    later caller gets; [Start] before a shutdown leaves no requested informer without its goroutine; after
    [Shutdown] was called nothing is started any more, and once it has returned it returns again; and it
    returns when the goroutines end, which takes one step each. *)
Theorem informer_factory_shared cancelled resync options f f' :
  Forall known_option options →
  rtc (factory_step cancelled) (NewSharedInformerFactoryWithOptions resync options) f →
  rtc (factory_step cancelled) f f' →
  NoDup (sf_Runs f).*1 ∧
  (∀ t i newFunc, sf_informers f !! t = Some i → InformerFor f' t newFunc = (f', i)) ∧
  (∀ ctx t, sf_shuttingDown f = false → t ∈ dom (sf_informers f) → t ∈ (sf_Runs (StartWithContext f ctx)).*1) ∧
  (sf_shuttingDown f = true → sf_Runs f' = sf_Runs f ∧ (Shutdown_returns f = true → Shutdown_returns f' = true)) ∧
  (∀ n f'', nsteps ends_step n f f'' → n ≤ length (sf_wg f) ∧ ((∀ f3, ¬ ends_step f'' f3) → Shutdown_returns f'' = true)).
Proof.
  intros Hopts Hreach Hrun.
  assert (factory_ok f) as Hok.
  { apply (rtc_invariant _ factory_ok (factory_step_ok cancelled) _ _ (known_factory_ok _ _ Hopts) Hreach). }
  split_and!.
  - by destruct Hok.
  - intros t i newFunc Hi.
    assert (sf_informers f' !! t = Some i) as Hi'.
    { apply (rtc_invariant (factory_step cancelled) (fun f => sf_informers f !! t = Some i)) in Hrun; [done| |done].
      intros x y Hx Hs. by eapply factory_step_informers. }
    unfold InformerFor. by rewrite Hi'.
  - intros ctx t Hs Ht. destruct (Start_ok f ctx Hok) as (_ & Hst & _). apply Hst.
    unfold StartWithContext. rewrite Hs. simpl. destruct (decide (t ∈ sf_startedInformers f)); [set_solver|].
    apply elem_of_union_l, elem_of_list_to_set, not_started_spec. done.
  - intros Hs.
    apply (rtc_invariant (factory_step cancelled) (fun g => sf_shuttingDown g = true ∧ sf_Runs g = sf_Runs f ∧ length (sf_wg g) ≤ length (sf_wg f))) in Hrun.
    + destruct Hrun as (_ & Hr & Hl). split; [done|]. intros Hz%bool_decide_eq_true. apply bool_decide_eq_true, length_zero_iff_nil.
      rewrite Hz in Hl. simpl in Hl. lia.
    + intros x y (Hx & Hr & Hl) Hstep. destruct (factory_step_shutdown _ _ _ Hstep Hx) as (? & ? & ?).
      split_and!; [done|congruence|lia].
    + done.
  - intros n f'' Hn. split.
    + pose proof (nsteps_bounded ends_step (fun _ => True) (fun f => length (sf_wg f)) (fun _ _ _ _ => I)
        (fun x y _ => ends_step_decreases x y) n f f'' I Hn) as Hb.
      etrans; [apply Nat.le_add_r|exact Hb].
    + intros Hno. apply bool_decide_eq_true. destruct (sf_wg f'') as [|x l] eqn:Hw; [done|].
      destruct (Hno (run_ends f'' 0)). exists 0. rewrite Hw. simpl. split; [lia|done].
Qed.

(** ** The Access policy runtime *)

(** [buildAccessPolicyRuntime] makes a factory for the configured namespace and asks it for the Access
    informer; its [start] starts the factory and waits. *)
Definition runtime_factory (opts : Options) : sharedInformerFactory :=
  (accessInformer_Informer (NewSharedInformerFactoryWithOptions 0
     (if bool_decide (AccessPolicy_Namespace opts ≠ "") then [WithNamespace (AccessPolicy_Namespace opts)] else []))).1.
Definition runtime_accessSynced (opts : Options) (ctx : nat) (HasSynced : informer → bool) (cause : option error) : list bool :=
  (map_to_list (sr_Synced (WaitForCacheSync_result (synced_informers (StartWithContext (runtime_factory opts) ctx)) HasSynced cause))).*2.

Definition runtime_informer (opts : Options) : informer :=
  mkInformer 0 (AccessPolicy_Namespace opts) None 0 [NamespaceIndex] None None.

Lemma runtime_factory_informers opts :
  sf_informers (runtime_factory opts) = {[AccessInformerType := runtime_informer opts]} ∧
  sf_startedInformers (runtime_factory opts) = ∅ ∧ sf_shuttingDown (runtime_factory opts) = false.
Proof.
  unfold runtime_factory, runtime_informer. case_bool_decide as Hns; [by split_and!|].
  rewrite Hns. by split_and!.
Qed.

Lemma runtime_accessSynced_one opts ctx HasSynced cause :
  runtime_accessSynced opts ctx HasSynced cause = [HasSynced (runtime_informer opts)].
Proof.
  destruct (runtime_factory_informers opts) as (Hi & Hs & Hd). unfold runtime_accessSynced, WaitForCacheSync_result, synced_informers.
  unfold StartWithContext. rewrite Hd. simpl. rewrite Hi.
  rewrite map_filter_singleton, decide_True; [by rewrite map_fmap_singleton, map_to_list_singleton|].
  simpl. apply elem_of_union_l, elem_of_list_to_set, not_started_spec. rewrite Hi, Hs. set_solver.
Qed.

(** The runtime of the Access policy starts only on a synchronized cache.  The one informer of the
    gateway's factory watches the configured namespace (all of them if none is configured) and is indexed
    by namespace; [WaitForCacheSync] reports exactly this informer, so [start] succeeds, and the status
    controller starts, only if its cache has synchronized. *)
Theorem access_cache_synced opts ctx HasSynced cause caches kubeSynced ctxErr fx :
  runtime_start opts caches (runtime_accessSynced opts ctx HasSynced cause) kubeSynced ctxErr = (fx, Ok ()) →
  HasSynced (runtime_informer opts) = true ∧ forallb id kubeSynced = true ∧ StatusControllerStarted ∈ fx ∧
  accessInformer_Informer (runtime_factory opts) = (runtime_factory opts, runtime_informer opts) ∧
  inf_Namespace (runtime_informer opts) = AccessPolicy_Namespace opts.
Proof.
  rewrite runtime_accessSynced_one. unfold runtime_start. simpl. destruct (HasSynced (runtime_informer opts)); [|done]. simpl.
  destruct (forallb id kubeSynced); [|done]. intros [= <-]. destruct (runtime_factory_informers opts) as (Hi & _).
  split_and!; [done|done|set_solver| |done].
  unfold accessInformer_Informer, InformerFor. by rewrite Hi, lookup_singleton_eq.
Qed.

(** Two callers ask for the Access informer, each starts the factory; it is shut down and started again. *)
Definition demo_factory : sharedInformerFactory :=
  StartWithContext (Shutdown_begin (StartWithContext (accessInformer_Informer (StartWithContext
    (accessInformer_Informer (NewSharedInformerFactoryWithOptions 0 [WithNamespace "team"])).1 1)).1 2)) 3.
Lemma demo_factory_reachable :
  rtc (factory_step (fun _ => True)) (NewSharedInformerFactoryWithOptions 0 [WithNamespace "team"]) demo_factory.
Proof.
  unfold demo_factory, accessInformer_Informer. eapply rtc_r; [|apply step_Start]. eapply rtc_r; [|apply step_Shutdown].
  eapply rtc_r; [|apply step_Start]. eapply rtc_r; [|apply step_InformerFor].
  eapply rtc_r; [|apply step_Start]. eapply rtc_r; [|apply step_InformerFor]. apply rtc_refl.
Qed.

Lemma informer_factory_shared_witness :
  sf_Runs demo_factory = [(AccessInformerType, 1)] ∧ sf_Created demo_factory = 1 ∧ NoDup (sf_Runs demo_factory).*1 ∧
  Shutdown_returns (run_ends demo_factory 0) = true.
Proof.
  destruct (informer_factory_shared (fun _ => True) 0 [WithNamespace "team"] demo_factory demo_factory) as (Hnd & _ & _ & _ & Hends).
  - repeat constructor.
  - apply demo_factory_reachable.
  - apply rtc_refl.
  - split_and!; [by vm_compute|by vm_compute|exact Hnd|]. apply (Hends 1 (run_ends demo_factory 0)).
    + eapply nsteps_once. exists 0. split; [vm_compute; lia|done].
    + intros f3 (n & Hn & _). vm_compute in Hn. lia.
Defined.
